(* ===== verification/_CoqProject ===== *)
-Q . S2P
Prelude.v
GrpcWire.v
StringRef.v
StdHeap.v
TimerHeap.v
Wakeup.v
EventThread.v
Http2Session.v
Http2Properties.v
CallState.v
TlsSocket.v
TlsProperties.v
ChannelImpl.v
ChannelProperties.v
ChannelReturns.v
ChannelSocket.v
ChannelKeeps.v
ChannelOutcome.v
ChannelRouting.v
ChannelTrace.v
System.v
SystemRefines.v
Shim.v
CreateChannel.v
CompletionQueue.v
Reactor.v
Service.v
SyncStream.v
RouteGuide.v
