(* ===== verification/Prelude.v ===== *)
(** * A verification library for egrpc

    egrpc is a client-only gRPC library in C++ for embedded Linux: a [grpcpp]-compatible
    API over one TLS connection with HTTP/2 (nghttp2) and one event thread per channel.
    This library models its code file by file and proves what makes it correct.

    ** The program

    A caller's thread enters through the public API ([src/api], [include/grpcpp]): it
    creates a channel from a target, credentials and arguments, and makes a blocking
    unary call.  [ChannelImpl] frames the request and posts an operation to the channel's
    [EventThread]; the caller waits on its [CallState].  The event thread polls an eventfd
    ([Wakeup]) and one socket, runs posted operations, timers ([TimerHeap]) and the
    socket's handler.  The handlers connect the [TlsSocket], run the [Http2Session] over
    nghttp2, hand its output to the socket and its input to the session, whose stream
    hooks drive the calls.  The wire format of gRPC ([grpc_wire]) frames messages,
    reassembles them and codes headers.

    ** The files

    - [Prelude]: bytes, decimal printing, [size_t], notations, tactics and generic lemmas.
    - [GrpcWire] ([src/core/grpc_wire.*]): status codes, frame prefix, the reassembly
      scanner with its buffer and read position, [grpc-timeout], percent- and base64 coding;
      [WireStream] is the specification of a byte stream of frames, [unit_nanos] and
      [base64_of] those of the timeout units and of RFC 4648, apart from the code's tables.
    - [StringRef] ([include/grpcpp/support/string_ref.h]): views and the ordered multimap.
    - [StdHeap], [TimerHeap] ([src/transport/timer_heap.*]): the heap algorithms of the
      standard library as an interface with an executable instance; the timer heap with
      lazy cancellation, 64-bit ids and the [poll] timeout.
    - [Wakeup] ([src/transport/wakeup.*]): the eventfd counter.
    - [EventThread] ([src/core/event_thread.*]): the operation queue and flags under the
      mutex, the loop and the callers as a transition system ([Sys], [step]) at the
      granularity of critical sections and system calls.
    - [Http2Session], [Http2Properties] ([src/transport/http2_session.*]): the session as
      a state with its hooks; nghttp2 is the class [Nghttp2] with the contract of its
      documentation ([send_contract], stream-close and callback rules), and a toy instance
      shows the contract can be met.
    - [CallState] ([src/core/call_state.*]): request headers and the call's state machine;
      [unary_outcome] is the specification of a result.
    - [TlsSocket], [TlsProperties] ([src/transport/tls_socket.*]): the socket in a state
      monad over the class [TlsPlatform] (OpenSSL, resolver, system calls) with a trace of
      the calls that matter; [TlsSocketOps] is the interface the channel uses.
    - [ChannelImpl], [ChannelProperties], [ChannelReturns] ([src/core/channel_impl.*]):
      every handler of the channel and the caller's side over the models above, for any
      socket that satisfies the interface.  Calls live in a store shared by waiters, hooks
      and channel; reading a destroyed string is the outcome [UseAfterFree].
      A run is a sequence of activations by the loop ([chan_step]).
    - [ChannelSocket]: the channel with the TLS socket's own model as its socket: what the
      socket is in each state of the channel ([sock_phase]).
    - [ChannelKeeps]: what a property of session and calls must survive to be preserved by
      every handler ([handler_stable]), proved once for all handlers.
    - [ChannelOutcome]: the handlers as the loop calls them ([handler]) and the ways in
      which one can fail to complete.
    - [ChannelRouting]: the calls that share a session: which stream belongs to which call
      ([demuxed]), and the frames of a [DrainSocket] followed to the calls.
    - [ChannelTrace]: the callbacks of nghttp2 in each handler run, in order ([trace]), and
      a call followed through any number of handler runs to its result.
    - [System]: the product of callers, event thread and handlers ([sys_step]): any
      interleaving of threads that call [UnaryCall] and [Shutdown] with the loop that runs
      the handlers; [chan] is the channel, or the outcome of the handler that lost it.
    - [SystemRefines]: a run of the system whose handlers complete is a run of the channel,
      step by step, and what follows for the whole system.
    - [Shim] ([src/api/channel.cc], [status.h], [client_context.h], [client_unary_call.h],
      [proto_utils.h]): the blocking call, cut at its wait.
    - [CreateChannel] ([src/api/create_channel.cc], [credentials.h],
      [channel_arguments.h]): targets, credentials, arguments.
    - [CompletionQueue] ([completion_queue.h], [async_unary_call.h], [async_stream.h]): the
      queue with its waiting threads, and the asynchronous stubs.
    - [Service] ([impl/rpc_method.h], [impl/rpc_service_method.h], [impl/service_type.h],
      [support/stub_options.h]): method descriptors, and the service container with a
      heap of the handlers it owns.
    - [SyncStream] ([sync_stream.h]): the streaming interfaces as type classes and the stubs
      as their instances.
    - [RouteGuide] ([examples/route_guide/client_main.cc]): the example client: arguments,
      modes, printed lines and exit codes, over [Shim], [CreateChannel] and [SyncStream].
    - [Reactor] ([client_callback.h]): the reactors' atomics, sequentially consistent and
      with buffered release stores.

    ** What is proved

    - Wire format: the scanner implements the stream specification for every cut into
      chunks, within bounds, and terminates; where its stated size limit is violated on a
      32-bit platform it is shown to diverge.  Timeouts are sent in the protocol's units,
      never early, base64 text is that of RFC 4648, and the header codings round-trip.
    - Timers run once, earliest first; the loop loses no wakeup, runs each accepted
      operation once and in order, and ends after [Stop], whatever callers still do.
    - Session: stream objects are used only while owned, output leaves unchanged under
      partial writes, keepalive declares a connection dead only after silence and always
      after it, GOAWAY stops new streams, and each call sees its own stream's events.
    - Call: completes once; its result is the one the specification derives.
    - Socket: no handshake without verification of the host, one descriptor at a time,
      truthful poll answers.
    - Channel over socket: in each state of the channel the socket is what the state says,
      the data calls reach only a connected socket, the ready channel watches the open
      descriptor, a dead one has leaked nothing; after a fallback to another address the
      loop is shown to watch a closed descriptor.
    - Channel: no waiter is ever stranded, registrations match the state, each handler
      returns (for a size limit that [fits], the loops over a message's bytes included),
      shutdown completes every call; two uses of a destroyed error text are shown, and that
      there is no other way for a handler to reach freed memory.
      Responses of calls that share the connection are not mixed: each call is what its own
      stream's frames make of it, and the server's answer to it becomes its result, however
      it is spread over handler runs.
    - System: in every state of every interleaving, either each posted call is accounted
      for, and once the loop has exited after [Shutdown] every caller has its result; or
      the handler that did not complete is named, with the cause.  While handlers complete,
      delivered results are final, and an exited loop leaves nothing open.
    - API: a typed call is refused with nothing queued or queued exactly once; a server's
      answer reaches the typed caller; targets are parsed by their grammar and named by the
      authority; every channel the API makes is well formed and verifies its peer; the
      completion queue delivers each tag once; [OnDone] is called at most once and not
      early, is delivered under sequential consistency, and can be lost with the
      acquire/release accesses the code uses.
    - Generated code: a service container owns each handler exactly once and deletes all;
      the example client's options, exit codes and output lines.

    ** Integers, fuel and bounds

    Machine integers are [Z] with the wrap-around written where the code can reach it:
    [size_t] has a parameter width of at least 32 bits ([SizeT]), timer ids and times 64,
    hold counts 32.  Loops that are not structural take fuel.  The scanner's and the
    printer's fuel is a bound computed from the input and proved sufficient.  The flush and
    drain loops of the channel run as long as the socket accepts and delivers: for them
    the theorems show that some amount of fuel gives an outcome that more fuel does not
    change, from the progress nghttp2 and the socket promise.  [System] gives the [n]-th
    handler the fuel [fuel n] for an arbitrary function [fuel]; a handler that would need
    more ends the modelled channel with the outcome [NoFuel], one that reads freed memory
    with [UseAfterFree].  [every_caller_answered] says what such an end means; the other
    theorems of [System] and [SystemRefines] speak of channels that have not ended.
    [Feed]'s loop ends within its fuel where the size limit [fits]; elsewhere the code may
    loop for ever and the value the model then gives stands for no outcome of the code.
    Theorems about reachable channel states count steps only to keep timer ids below 2^64.

    ** Not modelled

    The server-side types whose bodies are empty ([server_context.h], [method_handler.h],
    [server_callback.h], [server_callback_handlers.h], [message_allocator.h],
    [byte_buffer.h]), tests, build files and generated code have no logic of the client
    library.  [backoff.cc] is a placeholder.  nghttp2, OpenSSL, the resolver, the kernel
    and protobuf are parameters with the behaviour their documentation states.  Allocation
    failure and exceptions are not modelled, but for the one the example client can raise
    with a negative number of threads. *)

From Stdlib Require Import ZArith Lia.
From Stdlib Require Import Strings.Byte Strings.String.
From stdpp Require Import base numbers list gmap strings.

Local Open Scope Z_scope.

(** ** Notations and hint databases *)

Declare Scope egrpc_scope.
Delimit Scope egrpc_scope with egrpc.

Create HintDb egrpc discriminated.
Create Rewrite HintDb zlen.

(** ** Bytes and byte strings

    [std::string], [const uint8_t*] + length and [std::vector<uint8_t>] are all
    lists of bytes.  A [byte] is the unsigned value of the [char]; every
    comparison of a [char] in the sources is against an ASCII constant below
    128, where the signed and the unsigned readings agree. *)

Abbreviation bytes := (list byte).

#[export] Instance byte_eq_decision : EqDecision byte := Byte.byte_eq_dec.

(** [static_cast<uint8_t>(c)] read as a number. *)
Definition b2z (b : byte) : Z := Z.of_N (Byte.to_N b).

(** [static_cast<char>(n)] / [static_cast<uint8_t>(n)]: reduction modulo 256. *)
Definition z2b (z : Z) : byte := default x00 (Byte.of_N (Z.to_N (z mod 256))).

(** A C++ string literal. *)
Definition bs (s : string) : bytes := list_byte_of_string s.

(** [s.size()]. *)
Definition zlen {A} (l : list A) : Z := Z.of_nat (length l).

(** [s.substr(pos, n)] for [0 <= pos] and [0 <= n] (clamped at the end). *)
Definition zsubstr {A} (pos n : Z) (l : list A) : list A :=
  take (Z.to_nat n) (drop (Z.to_nat pos) l).

(** [s[i]], read as NUL past the end. *)
Definition znth (i : Z) (l : bytes) : byte := nth (Z.to_nat i) l x00.

(** [s.compare(0, n, lit) == 0] with [n = lit.size()]: the prefix test. *)
Definition starts_with (lit s : bytes) : bool :=
  bool_decide (take (length lit) s = lit).

(** [c >= lo && c <= hi] on characters. *)
Definition in_range (lo hi c : byte) : bool :=
  (b2z lo <=? b2z c) && (b2z c <=? b2z hi).

Definition is_digit (c : byte) : bool := in_range "0" "9" c.

(** ** Decimal printing and reading ([std::to_string] and digit loops) *)

Definition dec_digit (n : Z) : byte := z2b (48 + n).

Fixpoint dec_acc (fuel : nat) (n : Z) (acc : bytes) : bytes :=
  match fuel with
  | O => acc
  | S fuel' =>
      let acc' := dec_digit (n mod 10) :: acc in
      if n <? 10 then acc' else dec_acc fuel' (n / 10) acc'
  end.

(** [std::to_string]; the number of bits bounds the number of digits. *)
Definition to_string (n : Z) : bytes :=
  if n <? 0 then "-"%byte :: dec_acc (S (Z.to_nat (Z.log2 (- n)))) (- n) []
  else dec_acc (S (Z.to_nat (Z.log2 n))) n [].

(** The digit loop [n = n * 10 + (c - '0')] over a whole string. *)
Definition dec_value_from (a : Z) (l : bytes) : Z :=
  foldl (λ a c, a * 10 + (b2z c - 48)) a l.

Definition dec_value (l : bytes) : Z := dec_value_from 0 l.

(** ** The platform's [size_t]

    egrpc targets 32-bit and 64-bit embedded Linux, so the width of [size_t] is
    a parameter of the components whose arithmetic can reach it. *)

Class SizeT := {
  size_bits : Z;
  size_bits_ge : 32 <= size_bits;
}.

Definition size_t32 : SizeT := {| size_bits := 32; size_bits_ge := ltac:(lia) |}.

Definition size_t64 : SizeT := {| size_bits := 64; size_bits_ge := ltac:(lia) |}.

(** Addition of two [size_t] values. *)
Definition size_add `{SizeT} (a b : Z) : Z := (a + b) mod 2 ^ size_bits.

Notation "a '+sz' b" := (size_add a b) (at level 50, left associativity) : egrpc_scope.

(** ** Tactics *)

(** Split a boolean test of the code and turn its two outcomes into
    propositions over [Z]. *)
Ltac case_test :=
  match goal with
  | |- context [if ?a <=? ?b then _ else _] => destruct (Z.leb_spec a b)
  | |- context [if ?a <? ?b then _ else _] => destruct (Z.ltb_spec a b)
  | |- context [if ?a =? ?b then _ else _] => destruct (Z.eqb_spec a b)
  | |- context [if bool_decide ?P then _ else _] => destruct (bool_decide_reflect P)
  | |- context [if ?b then _ else _] => destruct b eqn:?
  end.

(** The same on a hypothesis. *)
Ltac case_test_in H :=
  match type of H with
  | context [if ?a <=? ?b then _ else _] => destruct (Z.leb_spec a b)
  | context [if ?a <? ?b then _ else _] => destruct (Z.ltb_spec a b)
  | context [if ?a =? ?b then _ else _] => destruct (Z.eqb_spec a b)
  | context [if bool_decide ?P then _ else _] => destruct (bool_decide_reflect P)
  | context [if ?b then _ else _] => destruct b eqn:?
  end.

(** Boolean hypotheses into propositions. *)
Ltac bool_to_prop :=
  repeat match goal with
  | H : (_ && _) = true |- _ => apply andb_true_iff in H as [? ?]
  | H : (_ || _) = false |- _ => apply orb_false_iff in H as [? ?]
  | H : (_ <=? _) = true |- _ => apply Z.leb_le in H
  | H : (_ <? _) = true |- _ => apply Z.ltb_lt in H
  | H : (_ =? _) = true |- _ => apply Z.eqb_eq in H
  | H : (_ <=? _) = false |- _ => apply Z.leb_gt in H
  | H : (_ <? _) = false |- _ => apply Z.ltb_ge in H
  | H : (_ =? _) = false |- _ => apply Z.eqb_neq in H
  | H : negb _ = true |- _ => apply negb_true_iff in H
  | H : negb _ = false |- _ => apply negb_false_iff in H
  | H : bool_decide _ = true |- _ => apply bool_decide_eq_true in H
  | H : bool_decide _ = false |- _ => apply bool_decide_eq_false in H
  end.

(** ** Bytes *)

Lemma b2z_range b : 0 <= b2z b < 256.
Proof. unfold b2z. pose proof (Byte.to_N_bounded b). lia. Qed.

Lemma b2z_inj a b : b2z a = b2z b → a = b.
Proof.
  unfold b2z. intros H%N2Z.inj.
  pose proof (Byte.of_to_N a) as Ha. pose proof (Byte.of_to_N b) as Hb.
  rewrite H in Ha. congruence.
Qed.

Lemma z2b_b2z b : z2b (b2z b) = b.
Proof.
  unfold z2b. rewrite Z.mod_small by apply b2z_range.
  unfold b2z. by rewrite N2Z.id, Byte.of_to_N.
Qed.

Lemma b2z_z2b z : b2z (z2b z) = z mod 256.
Proof.
  unfold z2b, b2z. pose proof (Z.mod_pos_bound z 256 ltac:(lia)) as Hb.
  destruct (Byte.of_N (Z.to_N (z mod 256))) as [b|] eqn:E; simpl.
  - apply Byte.to_of_N in E. rewrite E. lia.
  - apply Byte.of_N_None_iff in E. lia.
Qed.

Lemma b2z_z2b_small z : 0 <= z < 256 → b2z (z2b z) = z.
Proof. intros. rewrite b2z_z2b. by apply Z.mod_small. Qed.

(** A decidable statement about every byte is checked by evaluation. *)
Definition all_bytes : bytes := z2b <$> seqZ 0 256.

Lemma all_bytes_complete b : b ∈ all_bytes.
Proof.
  apply list_elem_of_fmap. exists (b2z b). split; [by rewrite z2b_b2z|].
  apply elem_of_seqZ. pose proof (b2z_range b). lia.
Qed.

Lemma byte_forall (P : byte → bool) b : forallb P all_bytes = true → P b = true.
Proof.
  intros H. rewrite forallb_forall in H. apply H, list_elem_of_In, all_bytes_complete.
Qed.

Lemma in_range_spec lo hi c : in_range lo hi c = true ↔ b2z lo <= b2z c <= b2z hi.
Proof. unfold in_range. rewrite andb_true_iff, !Z.leb_le. lia. Qed.

#[export] Hint Resolve b2z_range : egrpc.

(** ** Lists *)

Lemma zlen_nonneg {A} (l : list A) : 0 <= zlen l.
Proof. unfold zlen. lia. Qed.

Lemma zlen_nil {A} : zlen (@nil A) = 0.
Proof. done. Qed.

Lemma zlen_cons {A} (x : A) l : zlen (x :: l) = 1 + zlen l.
Proof. unfold zlen. simpl. lia. Qed.

Lemma zlen_app {A} (l k : list A) : zlen (l ++ k) = zlen l + zlen k.
Proof. unfold zlen. rewrite length_app. lia. Qed.

Lemma zlen_nil_inv {A} (l : list A) : zlen l <= 0 → l = [].
Proof. destruct l; [done|]. rewrite zlen_cons. pose proof (zlen_nonneg l). lia. Qed.

Lemma zlen_drop {A} n (l : list A) : 0 <= n <= zlen l → zlen (drop (Z.to_nat n) l) = zlen l - n.
Proof. unfold zlen. rewrite length_drop. lia. Qed.

Lemma zlen_take {A} n (l : list A) : 0 <= n <= zlen l → zlen (take (Z.to_nat n) l) = n.
Proof. unfold zlen. rewrite length_take. lia. Qed.

Lemma zsubstr_0_app {A} (l k : list A) : zsubstr 0 (zlen l) (l ++ k) = l.
Proof. unfold zsubstr, zlen. rewrite Nat2Z.id. simpl. apply take_app_length. Qed.

Lemma drop_zlen_app {A} (l k : list A) : drop (Z.to_nat (zlen l)) (l ++ k) = k.
Proof. unfold zlen. rewrite Nat2Z.id. apply drop_app_length. Qed.

Lemma drop_drop_Z {A} (i j : Z) (l : list A) :
  0 <= i → 0 <= j → drop (Z.to_nat j) (drop (Z.to_nat i) l) = drop (Z.to_nat (i + j)) l.
Proof. intros. rewrite drop_drop. f_equal. lia. Qed.

Lemma zsubstr_shift {A} i j n (l : list A) :
  0 <= i → 0 <= j → zsubstr (i + j) n l = zsubstr j n (drop (Z.to_nat i) l).
Proof. intros. unfold zsubstr. by rewrite drop_drop_Z. Qed.

Lemma znth_shift i j (l : bytes) :
  0 <= i → 0 <= j → znth (i + j) l = znth j (drop (Z.to_nat i) l).
Proof.
  intros. unfold znth. rewrite Z2Nat.inj_add by done.
  generalize (Z.to_nat i) (Z.to_nat j); clear. intros i j.
  revert l. induction i as [|i IH]; intros [|x l]; simpl; try done.
  by destruct j.
Qed.

Lemma starts_with_iff lit s : starts_with lit s = true ↔ lit `prefix_of` s.
Proof.
  unfold starts_with. rewrite bool_decide_eq_true. split.
  - intros H. exists (drop (length lit) s). rewrite <- H at 1. by rewrite take_drop.
  - intros [k ->]. apply take_app_length.
Qed.

Lemma forallb_true_Forall {A} (f : A → bool) l : forallb f l = true → Forall (λ x, f x = true) l.
Proof.
  rewrite forallb_forall, Forall_forall. intros H x Hx. by apply H, list_elem_of_In.
Qed.

Lemma forallb_false_Exists {A} (f : A → bool) l : forallb f l = false → Exists (λ x, f x = false) l.
Proof.
  induction l as [|x l IH]; simpl; [done|]. destruct (f x) eqn:E; simpl; auto.
Qed.

#[export] Hint Resolve zlen_nonneg : egrpc.
#[export] Hint Rewrite @zlen_nil @zlen_cons @zlen_app : zlen.

(** Length arithmetic: normalise [zlen], add non-negativity, finish with [lia]. *)
Ltac zlen_solve :=
  autorewrite with zlen in *;
  repeat match goal with
  | |- context [zlen ?l] =>
      lazymatch goal with H : 0 <= zlen l |- _ => fail | _ => pose proof (zlen_nonneg l) end
  | _ : context [zlen ?l] |- _ =>
      lazymatch goal with H : 0 <= zlen l |- _ => fail | _ => pose proof (zlen_nonneg l) end
  end; lia.

(** ** Decimal printing *)

Lemma dec_digit_value n : 0 <= n < 10 → b2z (dec_digit n) = 48 + n.
Proof. intros. unfold dec_digit. apply b2z_z2b_small. lia. Qed.

Lemma dec_digit_is_digit n : 0 <= n < 10 → is_digit (dec_digit n) = true.
Proof.
  intros. unfold is_digit. apply in_range_spec. rewrite dec_digit_value by done.
  change (b2z "0") with 48. change (b2z "9") with 57. lia.
Qed.

Lemma dec_value_from_shift a l : dec_value_from a l = a * 10 ^ zlen l + dec_value l.
Proof.
  revert a. unfold dec_value. induction l as [|c l IH]; intros a.
  - unfold zlen. simpl. lia.
  - unfold dec_value_from in *. cbn [foldl].
    rewrite IH, (IH (0 * 10 + (b2z c - 48))), zlen_cons.
    rewrite Z.pow_add_r by (pose proof (zlen_nonneg l); lia). lia.
Qed.

Lemma dec_value_cons c l : dec_value (c :: l) = (b2z c - 48) * 10 ^ zlen l + dec_value l.
Proof. unfold dec_value at 1, dec_value_from. simpl. apply dec_value_from_shift. Qed.

Lemma dec_fuel_step fuel n :
  10 <= n → n < 2 ^ Z.of_nat (S fuel) → 0 < n / 10 < 2 ^ Z.of_nat fuel.
Proof.
  intros H1 H2. rewrite Nat2Z.inj_succ, Z.pow_succ_r in H2 by lia.
  split; [apply Z.div_str_pos; lia|]. apply Z.div_lt_upper_bound; lia.
Qed.

Lemma dec_acc_spec fuel n acc :
  0 <= n → n < 2 ^ Z.of_nat fuel → (0 < fuel)%nat →
  ∃ ds, dec_acc fuel n acc = ds ++ acc ∧ ds ≠ [] ∧ dec_value ds = n ∧
        Forall (λ c, is_digit c = true) ds ∧
        ∀ k, 0 < k → n < 10 ^ k → zlen ds <= k.
Proof.
  revert n acc. induction fuel as [|fuel IH]; intros n acc Hn Hb Hf; [lia|].
  cbn [dec_acc]. pose proof (Z.mod_pos_bound n 10 ltac:(lia)) as Hm.
  destruct (Z.ltb_spec n 10) as [Hlt|Hge].
  - exists [dec_digit (n mod 10)]. rewrite Z.mod_small in * by lia. split_and!; [done..| | |].
    + rewrite dec_value_cons, dec_digit_value by lia. unfold zlen, dec_value. simpl. lia.
    + repeat constructor. by apply dec_digit_is_digit.
    + intros k Hk _. unfold zlen. simpl. lia.
  - pose proof (dec_fuel_step fuel n Hge Hb) as [Hd Hu].
    destruct fuel as [|fuel]; [simpl in Hu; lia|].
    destruct (IH (n / 10) (dec_digit (n mod 10) :: acc)) as (ds & -> & Hne & Hv & Hall & Hk);
      [lia..|].
    exists (ds ++ [dec_digit (n mod 10)]). split_and!.
    + by rewrite <- app_assoc.
    + by destruct ds.
    + unfold dec_value, dec_value_from in *. rewrite foldl_app. simpl.
      rewrite Hv, dec_digit_value by lia. pose proof (Z.div_mod n 10). lia.
    + apply Forall_app. split; [done|]. repeat constructor. by apply dec_digit_is_digit.
    + intros k Hk0 Hnk. rewrite zlen_app.
      assert (Hk1 : 1 < k).
      { destruct (Z.eq_dec k 1) as [->|]; [change (10 ^ 1) with 10 in Hnk; lia|lia]. }
      replace k with (Z.succ (k - 1)) in Hnk by lia. rewrite Z.pow_succ_r in Hnk by lia.
      assert (n / 10 < 10 ^ (k - 1)) by (apply Z.div_lt_upper_bound; lia).
      specialize (Hk (k - 1)). unfold zlen at 2. simpl. lia.
Qed.

Lemma log2_fuel n : 0 <= n → n < 2 ^ Z.of_nat (S (Z.to_nat (Z.log2 n))).
Proof.
  intros. rewrite Nat2Z.inj_succ, Z2Nat.id by apply Z.log2_nonneg.
  destruct (Z.eq_dec n 0) as [->|]; [done|]. apply Z.log2_spec. lia.
Qed.

(** [std::to_string] prints a non-empty string of digits that reads back, of at
    most [k] digits below [10 ^ k]. *)
Lemma to_string_spec n :
  0 <= n →
  to_string n ≠ [] ∧ dec_value (to_string n) = n ∧
  Forall (λ c, is_digit c = true) (to_string n) ∧
  ∀ k, 0 < k → n < 10 ^ k → zlen (to_string n) <= k.
Proof.
  intros Hn. unfold to_string. destruct (Z.ltb_spec n 0); [lia|].
  destruct (dec_acc_spec (S (Z.to_nat (Z.log2 n))) n []) as (ds & -> & ? & ? & ? & ?);
    [lia|by apply log2_fuel|lia|].
  by rewrite app_nil_r.
Qed.

(** ** Bit fields *)

Lemma testbit_high b k i : 0 <= b < 2 ^ k → k <= i → Z.testbit b i = false.
Proof.
  intros [Hb Hk] Hi. destruct (Z.eq_dec b 0) as [->|]; [apply Z.bits_0|].
  apply Z.bits_above_log2; [done|]. apply Z.log2_lt_pow2; [lia|].
  eapply Z.lt_le_trans; [done|]. apply Z.pow_le_mono_r; lia.
Qed.

(** [(a << k) | b] with [b] below [2 ^ k] is a sum of bit fields. *)
Lemma lor_shiftl_add a b k : 0 <= k → 0 <= b < 2 ^ k → Z.lor (Z.shiftl a k) b = a * 2 ^ k + b.
Proof.
  intros Hk Hb. rewrite <- Z.add_nocarry_lor; [by rewrite Z.shiftl_mul_pow2|].
  apply Z.bits_inj'. intros i Hi. rewrite Z.land_spec, Z.bits_0.
  destruct (Z.lt_ge_cases i k).
  - rewrite Z.shiftl_spec_low by done. done.
  - by rewrite (testbit_high b k i), andb_false_r.
Qed.

(** [(v >> s) & (2^k - 1)]. *)
Lemma shiftr_land_ones v s k : 0 <= s → 0 <= k →
  Z.land (Z.shiftr v s) (2 ^ k - 1) = (v / 2 ^ s) mod 2 ^ k.
Proof.
  intros. rewrite Z.shiftr_div_pow2 by done.
  replace (2 ^ k - 1) with (Z.ones k) by (rewrite Z.ones_equiv; lia).
  by apply Z.land_ones.
Qed.

Lemma shiftr_land_ff v s : 0 <= s → Z.land (Z.shiftr v s) 0xff = (v / 2 ^ s) mod 256.
Proof. intros. by apply (shiftr_land_ones v s 8). Qed.

Lemma land_ff v : Z.land v 0xff = v mod 256.
Proof. by apply (Z.land_ones v 8). Qed.
