(* ===== verification/GrpcWire.v ===== *)
(** * gRPC wire format ([src/core/grpc_wire.h], [src/core/grpc_wire.cc])

    Status codes and their mappings, message framing with the receive-path
    reassembly scanner, [grpc-timeout] encoding, percent-decoding of
    [grpc-message] and base64 for [-bin] metadata.  The first half of the file
    holds the definitions; the lemmas and theorems follow. *)

From Stdlib Require Import ZArith Lia.
From Stdlib Require Import Strings.Byte Strings.String.
From stdpp Require Import base numbers list sets.
From S2P Require Import Prelude.

Local Open Scope Z_scope.
Local Open Scope egrpc_scope.

(** ** Status codes *)

Inductive StatusCode : Type :=
  | kOk | kCancelled | kUnknown | kInvalidArgument | kDeadlineExceeded | kNotFound
  | kAlreadyExists | kPermissionDenied | kResourceExhausted | kFailedPrecondition
  | kAborted | kOutOfRange | kUnimplemented | kInternal | kUnavailable | kDataLoss
  | kUnauthenticated.

#[export] Instance StatusCode_eq_decision : EqDecision StatusCode.
Proof. solve_decision. Defined.

Definition status_codes : list StatusCode :=
  [kOk; kCancelled; kUnknown; kInvalidArgument; kDeadlineExceeded; kNotFound;
   kAlreadyExists; kPermissionDenied; kResourceExhausted; kFailedPrecondition;
   kAborted; kOutOfRange; kUnimplemented; kInternal; kUnavailable; kDataLoss;
   kUnauthenticated].

(** The enumerators' values. *)
Definition status_value (c : StatusCode) : Z :=
  match c with
  | kOk => 0 | kCancelled => 1 | kUnknown => 2 | kInvalidArgument => 3
  | kDeadlineExceeded => 4 | kNotFound => 5 | kAlreadyExists => 6
  | kPermissionDenied => 7 | kResourceExhausted => 8 | kFailedPrecondition => 9
  | kAborted => 10 | kOutOfRange => 11 | kUnimplemented => 12 | kInternal => 13
  | kUnavailable => 14 | kDataLoss => 15 | kUnauthenticated => 16
  end.

(** [static_cast<StatusCode>(n)] for [0 <= n <= 16]. *)
Definition status_of_value (n : Z) : StatusCode :=
  default kUnknown (status_codes !! Z.to_nat n).

Definition HttpStatusToGrpcCode (http_status : Z) : StatusCode :=
  if http_status =? 400 then kInternal
  else if http_status =? 401 then kUnauthenticated
  else if http_status =? 403 then kPermissionDenied
  else if http_status =? 404 then kUnimplemented
  else if (http_status =? 429) || (http_status =? 502)
       || (http_status =? 503) || (http_status =? 504) then kUnavailable
  else kUnknown.

(** The digit loop of [ParseGrpcStatus]; [None] is its early [return false]. *)
Fixpoint parse_status_loop (n : Z) (value : bytes) : option Z :=
  match value with
  | [] => Some n
  | c :: rest =>
      if (b2z c <? b2z "0") || (b2z "9" <? b2z c) then None
      else parse_status_loop (n * 10 + (b2z c - b2z "0")) rest
  end.

(** [None] is the result [false]; [Some code] is [true] with [*code] written. *)
Definition ParseGrpcStatus (value : bytes) : option StatusCode :=
  if (zlen value =? 0) || (10 <? zlen value) then None
  else n ← parse_status_loop 0 value;
       Some (if n <=? 16 then status_of_value n else kUnknown).

(** ** Message framing *)

Definition ReadBigEndian32 (p : bytes) : Z :=
  Z.lor (Z.lor (Z.lor (Z.shiftl (b2z (znth 0 p)) 24) (Z.shiftl (b2z (znth 1 p)) 16))
               (Z.shiftl (b2z (znth 2 p)) 8))
        (b2z (znth 3 p)).

(** [const uint32_t len = static_cast<uint32_t>(payload_len)] truncates. *)
Definition AppendGrpcFramePrefix (payload_len : Z) (out : bytes) : bytes :=
  let len := payload_len mod 2 ^ 32 in
  out ++ [x00;
          z2b (Z.land (Z.shiftr len 24) 0xff);
          z2b (Z.land (Z.shiftr len 16) 0xff);
          z2b (Z.land (Z.shiftr len 8) 0xff);
          z2b (Z.land len 0xff)].

Arguments AppendGrpcFramePrefix : simpl never.

Module GrpcMessageScanner.

Record Scanner : Type := {
  max_message_size_ : Z;
  buf_ : bytes;
  pos_ : Z;
  failed_ : bool;
  error_code_ : StatusCode;
  error_ : bytes;
}.

(** The constructor. *)
Definition new_scanner (max_message_size : Z) : Scanner :=
  {| max_message_size_ := max_message_size; buf_ := []; pos_ := 0;
     failed_ := false; error_code_ := kOk; error_ := [] |}.

(** How the validation loop of [Feed] ends. *)
Inductive Verdict : Type :=
  | Accept
  | Reject (code : StatusCode) (message : bytes).

Definition compressed_error : bytes :=
  bs "compressed message received but compression is not supported".

Definition flag_error (flag : Z) : bytes :=
  bs "malformed gRPC message: invalid compressed flag " ++ to_string flag.

Definition oversize_error (msg_len max : Z) : bytes :=
  bs "received message of " ++ to_string msg_len ++
  bs " bytes exceeds max_receive_message_size (" ++ to_string max ++ bs ")".

Section WithSize.
Context `{SZ : SizeT}.

(** The [while] loop of [Feed] from [offset]; [None] when the fuel runs out. *)
Fixpoint feed_loop (fuel : nat) (max : Z) (buf : bytes) (offset : Z) : option Verdict :=
  match fuel with
  | O => None
  | S fuel' =>
      if zlen buf - offset <? 5 then Some Accept
      else
        let flag := b2z (znth offset buf) in
        let msg_len := ReadBigEndian32 (drop (Z.to_nat (offset + 1)) buf) in
        if flag =? 1 then Some (Reject kInternal compressed_error)
        else if negb (flag =? 0) then Some (Reject kInternal (flag_error flag))
        else if max <? msg_len then Some (Reject kResourceExhausted (oversize_error msg_len max))
        else if zlen buf - offset <? 5 +sz msg_len then Some Accept
        else feed_loop fuel' max buf (offset +sz (5 +sz msg_len))
  end.

(** [Feed]: every iteration of the loop consumes at least one byte as long as
    [5 + msg_len] does not wrap, so one more than the buffer's length is enough
    fuel ([feed_loop_total]).  Where it does wrap the loop need not end, and the branch
    for [None] stands for no outcome of the code: the theorems about what [Feed] returns
    assume that the size limit [fits]. *)
Definition Feed (s : Scanner) (data : bytes) : Scanner * bool :=
  if failed_ s then (s, false)
  else
    let buf := buf_ s ++ data in
    let s1 := {| s with buf_ := buf |} in
    match feed_loop (S (length buf)) (max_message_size_ s) buf (pos_ s) with
    | Some (Reject code message) =>
        ({| s1 with failed_ := true; error_code_ := code; error_ := message |}, false)
    | Some Accept | None => (s1, true)
    end.

(** [Next]: the second component is the payload moved to [*message]. *)
Definition Next (s : Scanner) : Scanner * option bytes :=
  if failed_ s then (s, None)
  else
    let available := zlen (buf_ s) - pos_ s in
    if available <? 5 then (s, None)
    else
      let msg_len := ReadBigEndian32 (drop (Z.to_nat (pos_ s + 1)) (buf_ s)) in
      if available <? 5 +sz msg_len then (s, None)
      else
        let message := zsubstr (pos_ s + 5) msg_len (buf_ s) in
        let pos := pos_ s +sz (5 +sz msg_len) in
        let s' :=
          if pos =? zlen (buf_ s) then {| s with buf_ := []; pos_ := 0 |}
          else if (65536 <=? pos) && (zlen (buf_ s) / 2 <=? pos)
          then {| s with buf_ := drop (Z.to_nat pos) (buf_ s); pos_ := 0 |}
          else {| s with pos_ := pos |} in
        (s', Some message).

Definition HasPartialMessage (s : Scanner) : bool := pos_ s <? zlen (buf_ s).

(** [while (scanner_.Next(&message)) ...]: every message [Next] hands out. *)
Fixpoint drain (fuel : nat) (s : Scanner) : Scanner * list bytes :=
  match fuel with
  | O => (s, [])
  | S fuel' =>
      match Next s with
      | (s', Some m) => let '(s'', ms) := drain fuel' s' in (s'', m :: ms)
      | (s', None) => (s', [])
      end
  end.

(** One DATA chunk as the documented usage has it: [Feed], then drain. *)
Definition receive_chunk (s : Scanner) (data : bytes) : Scanner * list bytes :=
  let '(s1, ok) := Feed s data in
  if ok then drain (S (length (buf_ s1))) s1 else (s1, []).

Fixpoint receive_chunks (s : Scanner) (chunks : list bytes) : Scanner * list bytes :=
  match chunks with
  | [] => (s, [])
  | c :: rest =>
      let '(s1, ms1) := receive_chunk s c in
      let '(s2, ms2) := receive_chunks s1 rest in
      (s2, ms1 ++ ms2)
  end.

End WithSize.
End GrpcMessageScanner.

(** ** Header value encodings *)

Definition kMaxTimeoutDigitsValue : Z := 99999999.

Definition kUnits : list (byte * Z) :=
  [("n"%byte, 1); ("u"%byte, 1000); ("m"%byte, 1000000); ("S"%byte, 1000000000);
   ("M"%byte, 60000000000); ("H"%byte, 3600000000000)].

(** [ns / u.nanos + (ns % u.nanos != 0 ? 1 : 0)], in C++ (truncating) division. *)
Definition units_rounded_up (ns nanos : Z) : Z :=
  Z.quot ns nanos + (if Z.rem ns nanos =? 0 then 0 else 1).

Fixpoint encode_timeout_loop (ns : Z) (units : list (byte * Z)) : bytes :=
  match units with
  | [] => to_string kMaxTimeoutDigitsValue ++ bs "H"
  | (suffix, nanos) :: rest =>
      let value := units_rounded_up ns nanos in
      if value <=? kMaxTimeoutDigitsValue then to_string value ++ [suffix]
      else encode_timeout_loop ns rest
  end.

Definition EncodeGrpcTimeout (ns : Z) : bytes :=
  if ns <=? 0 then bs "1n" else encode_timeout_loop ns kUnits.

(** [-1] for a character that is not a hexadecimal digit. *)
Definition HexDigit (c : byte) : Z :=
  if in_range "0" "9" c then b2z c - b2z "0"
  else if in_range "a" "f" c then b2z c - b2z "a" + 10
  else if in_range "A" "F" c then b2z c - b2z "A" + 10
  else -1.

(** The index loop of [PercentDecode], on the suffix of [in] that starts at [i]. *)
Fixpoint PercentDecode (input : bytes) : bytes :=
  match input with
  | [] => []
  | c :: rest =>
      match rest with
      | h :: l :: rest' =>
          if bool_decide (c = "%"%byte) && (0 <=? HexDigit h) && (0 <=? HexDigit l)
          then z2b (HexDigit h * 16 + HexDigit l) :: PercentDecode rest'
          else c :: PercentDecode rest
      | _ => c :: PercentDecode rest
      end
  end.

Definition kBase64Chars : bytes :=
  bs "ABCDEFGHIJKLMNOPQRSTUVWXYZabcdefghijklmnopqrstuvwxyz0123456789+/".

Definition Base64Value (c : byte) : Z :=
  if in_range "A" "Z" c then b2z c - b2z "A"
  else if in_range "a" "z" c then b2z c - b2z "a" + 26
  else if in_range "0" "9" c then b2z c - b2z "0" + 52
  else if bool_decide (c = "+"%byte) then 62
  else if bool_decide (c = "/"%byte) then 63
  else -1.

(** [kBase64Chars[(v >> shift) & 0x3f]]. *)
Definition base64_char (v shift : Z) : byte :=
  znth (Z.land (Z.shiftr v shift) 0x3f) kBase64Chars.

(** The groups of three bytes, then the rest of one or two, without padding. *)
Fixpoint Base64Encode (input : bytes) : bytes :=
  match input with
  | a :: b :: c :: rest =>
      let v := Z.lor (Z.lor (Z.shiftl (b2z a) 16) (Z.shiftl (b2z b) 8)) (b2z c) in
      base64_char v 18 :: base64_char v 12 :: base64_char v 6 :: base64_char v 0 ::
      Base64Encode rest
  | [a; b] =>
      let v := Z.lor (Z.shiftl (b2z a) 16) (Z.shiftl (b2z b) 8) in
      [base64_char v 18; base64_char v 12; base64_char v 6]
  | [a] =>
      let v := Z.shiftl (b2z a) 16 in
      [base64_char v 18; base64_char v 12]
  | [] => []
  end.

(** [while (len > 0 && in[len - 1] == '=') --len], on the reversed string. *)
Fixpoint strip_padding_rev (rin : bytes) : bytes :=
  match rin with
  | c :: rest => if bool_decide (c = "="%byte) then strip_padding_rev rest else rin
  | [] => []
  end.

Definition strip_padding (input : bytes) : bytes := rev (strip_padding_rev (rev input)).

(** The accumulator loop; [acc] is a [uint32_t]. *)
Fixpoint base64_decode_loop (acc bits : Z) (input out : bytes) : option bytes :=
  match input with
  | [] => Some out
  | c :: rest =>
      let v := Base64Value c in
      if v <? 0 then None
      else
        let acc := Z.lor (Z.shiftl acc 6 mod 2 ^ 32) v in
        let bits := bits + 6 in
        if 8 <=? bits
        then base64_decode_loop acc (bits - 8) rest
               (out ++ [z2b (Z.land (Z.shiftr acc (bits - 8)) 0xff)])
        else base64_decode_loop acc bits rest out
  end.

(** [None] is the result [false] ([*out] is then not used by the callers). *)
Definition Base64Decode (input : bytes) : option bytes :=
  let stripped := strip_padding input in
  if zlen stripped mod 4 =? 1 then None
  else base64_decode_loop 0 0 stripped [].

(** ** Status codes: lemmas *)

Lemma status_of_status_value c : status_of_value (status_value c) = c.
Proof. by destruct c. Qed.

Lemma status_value_range c : 0 <= status_value c <= 16.
Proof. destruct c; simpl; lia. Qed.

Lemma digit_test_false c :
  is_digit c = true → (b2z c <? b2z "0") || (b2z "9" <? b2z c) = false.
Proof.
  unfold is_digit. rewrite in_range_spec. intros. apply orb_false_iff.
  split; apply Z.ltb_ge; lia.
Qed.

Lemma digit_test_true c :
  is_digit c = false → (b2z c <? b2z "0") || (b2z "9" <? b2z c) = true.
Proof.
  intros H. apply orb_true_iff. rewrite !Z.ltb_lt.
  destruct (Z.lt_ge_cases (b2z c) (b2z "0")), (Z.lt_ge_cases (b2z "9") (b2z c)); auto.
  assert (is_digit c = true) by (apply in_range_spec; lia). congruence.
Qed.

Lemma parse_status_loop_digits n value :
  Forall (λ c, is_digit c = true) value →
  parse_status_loop n value = Some (dec_value_from n value).
Proof.
  intros H. revert n. induction H as [|c value Hc _ IH]; intros n; simpl; [done|].
  rewrite digit_test_false by done. apply IH.
Qed.

Lemma parse_status_loop_bad n value :
  Exists (λ c, is_digit c = false) value → parse_status_loop n value = None.
Proof.
  intros H. revert n. induction H as [c value Hc|c value H IH]; intros n; simpl.
  - by rewrite digit_test_true.
  - case_test; [done|apply IH].
Qed.

(** ** Framing: lemmas *)

(** What [UnaryCall] puts on the wire for one message. *)
Definition grpc_frame (m : bytes) : bytes := AppendGrpcFramePrefix (zlen m) [] ++ m.

Arguments grpc_frame : simpl never.

Lemma ReadBigEndian32_bytes a b c d rest :
  ReadBigEndian32 (a :: b :: c :: d :: rest) =
  b2z a * 2 ^ 24 + b2z b * 2 ^ 16 + b2z c * 2 ^ 8 + b2z d.
Proof.
  unfold ReadBigEndian32. change (znth 0 (a :: b :: c :: d :: rest)) with a.
  change (znth 1 (a :: b :: c :: d :: rest)) with b.
  change (znth 2 (a :: b :: c :: d :: rest)) with c.
  change (znth 3 (a :: b :: c :: d :: rest)) with d.
  pose proof (b2z_range a). pose proof (b2z_range b).
  pose proof (b2z_range c). pose proof (b2z_range d).
  rewrite (lor_shiftl_add (b2z a) (Z.shiftl (b2z b) 16) 24)
    by (rewrite ?Z.shiftl_mul_pow2; lia).
  rewrite Z.shiftl_mul_pow2 by lia.
  replace (b2z a * 2 ^ 24 + b2z b * 2 ^ 16)
    with (Z.shiftl (b2z a * 2 ^ 8 + b2z b) 16) by (rewrite Z.shiftl_mul_pow2; lia).
  rewrite (lor_shiftl_add _ (Z.shiftl (b2z c) 8) 16) by (rewrite ?Z.shiftl_mul_pow2; lia).
  rewrite Z.shiftl_mul_pow2 by lia.
  replace ((b2z a * 2 ^ 8 + b2z b) * 2 ^ 16 + b2z c * 2 ^ 8)
    with (Z.shiftl ((b2z a * 2 ^ 8 + b2z b) * 2 ^ 8 + b2z c) 8)
    by (rewrite Z.shiftl_mul_pow2; lia).
  rewrite lor_shiftl_add, ?Z.shiftl_mul_pow2 by lia. lia.
Qed.

Lemma ReadBigEndian32_range p : 0 <= ReadBigEndian32 p < 2 ^ 32.
Proof.
  assert (∃ a b c d, ReadBigEndian32 p = ReadBigEndian32 [a; b; c; d]) as (a & b & c & d & ->).
  { by exists (znth 0 p), (znth 1 p), (znth 2 p), (znth 3 p). }
  rewrite ReadBigEndian32_bytes. pose proof (b2z_range a). pose proof (b2z_range b).
  pose proof (b2z_range c). pose proof (b2z_range d). lia.
Qed.

(** The prefix as five bytes: flag 0 and the big-endian length. *)
Lemma frame_prefix_bytes n : 0 <= n < 2 ^ 32 →
  AppendGrpcFramePrefix n [] =
  [x00; z2b (n / 2 ^ 24); z2b (n / 2 ^ 16); z2b (n / 2 ^ 8); z2b n].
Proof.
  intros Hn. unfold AppendGrpcFramePrefix. rewrite Z.mod_small by done.
  rewrite !shiftr_land_ff, land_ff by lia. simpl app.
  unfold z2b. by rewrite !Zmod_mod.
Qed.

Lemma read_frame_prefix n rest : 0 <= n < 2 ^ 32 →
  ReadBigEndian32 (drop 1 (AppendGrpcFramePrefix n [] ++ rest)) = n.
Proof.
  intros Hn. rewrite frame_prefix_bytes by done. simpl.
  rewrite ReadBigEndian32_bytes, !b2z_z2b. Z.to_euclidean_division_equations. lia.
Qed.

Lemma zlen_frame_prefix n : zlen (AppendGrpcFramePrefix n []) = 5.
Proof. done. Qed.

Lemma read_grpc_frame m u :
  zlen m < 2 ^ 32 → ReadBigEndian32 (drop 1 (grpc_frame m ++ u)) = zlen m.
Proof.
  intros. unfold grpc_frame. rewrite <- app_assoc. apply read_frame_prefix.
  pose proof (zlen_nonneg m). lia.
Qed.

Lemma zlen_grpc_frame m : zlen (grpc_frame m) = 5 + zlen m.
Proof. unfold grpc_frame. by rewrite zlen_app. Qed.

(** ** The stream a scanner is meant to read

    [wire_stream max u ms v r]: the byte stream [u] starts with the frames of the
    messages [ms], each within the bound, and then either holds an incomplete
    frame [r] ([v = Accept]) or a frame header that must be rejected
    ([v = Reject code message]).  Frames are those the send path builds. *)

Module WireStream.
Import GrpcMessageScanner.

Inductive incomplete (max : Z) : bytes → Prop :=
  | inc_header u : zlen u < 5 → incomplete max u
  | inc_payload n p :
      0 <= n < 2 ^ 32 → n <= max → zlen p < n →
      incomplete max (AppendGrpcFramePrefix n [] ++ p).

Inductive bad_header (max : Z) : bytes → StatusCode → bytes → Prop :=
  | bad_compressed rest :
      4 <= zlen rest → bad_header max (x01 :: rest) kInternal compressed_error
  | bad_flag b rest :
      4 <= zlen rest → b ≠ x00 → b ≠ x01 →
      bad_header max (b :: rest) kInternal (flag_error (b2z b))
  | bad_oversize n rest :
      0 <= n < 2 ^ 32 → max < n →
      bad_header max (AppendGrpcFramePrefix n [] ++ rest) kResourceExhausted
        (oversize_error n max).

Inductive wire_stream (max : Z) : bytes → list bytes → Verdict → bytes → Prop :=
  | ws_rest u : incomplete max u → wire_stream max u [] Accept u
  | ws_bad u code message :
      bad_header max u code message → wire_stream max u [] (Reject code message) u
  | ws_frame m u ms v r :
      zlen m < 2 ^ 32 → zlen m <= max → wire_stream max u ms v r →
      wire_stream max (grpc_frame m ++ u) (m :: ms) v r.

(** What the five header bytes say, in ideal arithmetic. *)
Inductive header : Type :=
  | HShort
  | HBad (code : StatusCode) (message : bytes)
  | HFrame (n : Z).

Definition header_of (max : Z) (u : bytes) : header :=
  if zlen u <? 5 then HShort
  else
    let flag := b2z (znth 0 u) in
    let n := ReadBigEndian32 (drop 1 u) in
    if flag =? 1 then HBad kInternal compressed_error
    else if negb (flag =? 0) then HBad kInternal (flag_error flag)
    else if max <? n then HBad kResourceExhausted (oversize_error n max)
    else if zlen u <? 5 + n then HShort
    else HFrame n.

Lemma header_of_incomplete max u : incomplete max u → header_of max u = HShort.
Proof.
  unfold header_of. intros [u' Hu|n p Hn Hmax Hp].
  - by rewrite (proj2 (Z.ltb_lt _ _)).
  - rewrite read_frame_prefix by done. rewrite zlen_app, zlen_frame_prefix.
    change (b2z (znth 0 _)) with 0. simpl.
    repeat case_test; try done; zlen_solve.
Qed.

Lemma header_of_bad max u c e : bad_header max u c e → header_of max u = HBad c e.
Proof.
  unfold header_of. intros [rest Hr|b rest Hr Hb0 Hb1|n rest Hn Hmax].
  - rewrite zlen_cons. case_test; [lia|]. done.
  - rewrite zlen_cons. case_test; [lia|]. change (znth 0 (b :: rest)) with b.
    destruct (Z.eqb_spec (b2z b) 1) as [E|_]; [by destruct (Hb1 (b2z_inj b x01 E))|].
    destruct (Z.eqb_spec (b2z b) 0) as [E|_]; [by destruct (Hb0 (b2z_inj b x00 E))|done].
  - rewrite read_frame_prefix by done. rewrite zlen_app, zlen_frame_prefix.
    change (b2z (znth 0 _)) with 0. simpl.
    repeat case_test; try done; zlen_solve.
Qed.

Lemma header_of_frame max m u :
  zlen m < 2 ^ 32 → zlen m <= max → header_of max (grpc_frame m ++ u) = HFrame (zlen m).
Proof.
  intros Hm Hmax. unfold header_of.
  rewrite zlen_app, zlen_grpc_frame. unfold grpc_frame. rewrite <- app_assoc.
  rewrite read_frame_prefix by (pose proof (zlen_nonneg m); lia).
  change (b2z (znth 0 _)) with 0. simpl. repeat case_test; try done; zlen_solve.
Qed.

(** Five bytes are always a flag and a length. *)
Lemma header_bytes u : 5 <= zlen u →
  ∃ b rest, u = b :: drop 1 (AppendGrpcFramePrefix (ReadBigEndian32 (drop 1 u)) []) ++ rest.
Proof.
  destruct u as [|b [|c1 [|c2 [|c3 [|c4 rest]]]]]; [unfold zlen; simpl; lia..|]. intros _.
  exists b, rest. change (drop 1 (b :: ?l)) with l. pose proof (ReadBigEndian32_range (c1 :: c2 :: c3 :: c4 :: rest)) as Hr.
  rewrite frame_prefix_bytes by done. simpl. rewrite ReadBigEndian32_bytes in *.
  pose proof (b2z_range c1). pose proof (b2z_range c2).
  pose proof (b2z_range c3). pose proof (b2z_range c4).
  repeat f_equal; apply b2z_inj; rewrite b2z_z2b; Z.to_euclidean_division_equations; lia.
Qed.

Lemma incomplete_of_header max u : header_of max u = HShort → incomplete max u.
Proof.
  unfold header_of. case_test; [intros _; by constructor|].
  destruct (header_bytes u) as (b & rest & Hu); [lia|].
  set (n := ReadBigEndian32 (drop 1 u)) in *.
  pose proof (ReadBigEndian32_range (drop 1 u)) as Hn. fold n in Hn.
  destruct (Z.eqb_spec (b2z (znth 0 u)) 1); [done|].
  destruct (Z.eqb_spec (b2z (znth 0 u)) 0) as [Hb|]; simpl; [|done].
  destruct (Z.ltb_spec max n); [done|]. destruct (Z.ltb_spec (zlen u) (5 + n)) as [Hs|]; [|done].
  intros _. rewrite Hu in Hb. change (b2z b = b2z x00) in Hb. apply b2z_inj in Hb as ->.
  change (u = AppendGrpcFramePrefix n [] ++ rest) in Hu.
  rewrite Hu, zlen_app, zlen_frame_prefix in Hs. rewrite Hu. constructor; lia.
Qed.

Lemma bad_of_header max u c e : header_of max u = HBad c e → bad_header max u c e.
Proof.
  unfold header_of. case_test; [done|].
  destruct (header_bytes u) as (b & rest & Hu); [lia|].
  set (n := ReadBigEndian32 (drop 1 u)) in *.
  pose proof (ReadBigEndian32_range (drop 1 u)) as Hn. fold n in Hn.
  assert (Hz : znth 0 u = b) by (by rewrite Hu). rewrite Hz. clear Hz.
  destruct (Z.eqb_spec (b2z b) 1) as [Hb|Hb1]; [|destruct (Z.eqb_spec (b2z b) 0) as [Hb|Hb0]].
  - intros [= <- <-]. apply (b2z_inj b x01) in Hb as ->. rewrite Hu in *. constructor.
    rewrite zlen_cons in *. lia.
  - apply (b2z_inj b x00) in Hb as ->. change (u = AppendGrpcFramePrefix n [] ++ rest) in Hu.
    simpl. case_test; [|by case_test]. intros [= <- <-]. rewrite Hu. by constructor.
  - simpl. intros [= <- <-]. rewrite Hu in *. constructor.
    + rewrite zlen_cons in *. lia.
    + by intros ->.
    + by intros ->.
Qed.

Lemma frame_of_header max u n : header_of max u = HFrame n →
  ∃ m k, u = grpc_frame m ++ k ∧ zlen m = n ∧ n < 2 ^ 32 ∧ n <= max.
Proof.
  unfold header_of. case_test; [done|].
  destruct (header_bytes u) as (b & rest & Hu); [lia|].
  set (n' := ReadBigEndian32 (drop 1 u)) in *.
  pose proof (ReadBigEndian32_range (drop 1 u)) as Hn. fold n' in Hn.
  destruct (Z.eqb_spec (b2z (znth 0 u)) 1); [done|].
  destruct (Z.eqb_spec (b2z (znth 0 u)) 0) as [Hb|]; cbn [negb]; [|done].
  case_test; [done|]. case_test; [done|]. intros [= <-].
  rewrite Hu in Hb. change (b2z b = b2z x00) in Hb. apply b2z_inj in Hb as ->.
  change (u = AppendGrpcFramePrefix n' [] ++ rest) in Hu.
  rewrite Hu, zlen_app, zlen_frame_prefix in *.
  exists (take (Z.to_nat n') rest), (drop (Z.to_nat n') rest).
  split; [|rewrite zlen_take by lia; lia].
  unfold grpc_frame. rewrite zlen_take by lia. by rewrite <- app_assoc, take_drop.
Qed.

(** Every byte string is a stream, in exactly one way. *)
Lemma wire_stream_total max u : ∃ ms v r, wire_stream max u ms v r.
Proof.
  induction u as [u IH] using (induction_ltof1 _ length). unfold ltof in IH.
  destruct (header_of max u) as [|c e|n] eqn:E.
  - exists [], Accept, u. constructor. by apply incomplete_of_header.
  - exists [], (Reject c e), u. constructor. by apply bad_of_header.
  - apply frame_of_header in E as (m & k & -> & <- & ? & ?).
    destruct (IH k) as (ms & v & r & Hk).
    { pose proof (zlen_grpc_frame m) as Hl. unfold zlen in Hl. rewrite length_app. lia. }
    exists (m :: ms), v, r. by constructor.
Qed.

Lemma grpc_frame_app_inj m1 u1 m2 u2 :
  zlen m1 = zlen m2 → grpc_frame m1 ++ u1 = grpc_frame m2 ++ u2 → m1 = m2 ∧ u1 = u2.
Proof.
  unfold grpc_frame. intros Hl. rewrite Hl, <- !app_assoc. intros H%app_inv_head.
  apply app_inj_1 in H; [done|]. unfold zlen in Hl. lia.
Qed.

Lemma wire_stream_det max u ms v r ms' v' r' :
  wire_stream max u ms v r → wire_stream max u ms' v' r' → ms = ms' ∧ v = v' ∧ r = r'.
Proof.
  intros H. revert ms' v' r'.
  induction H as [u Hi|u c e Hb|m u ms v r Hm Hmax _ IH]; intros ms' v' r' H'.
  - apply header_of_incomplete in Hi. inversion H' as [|? ? ? Hb|? ? ? ? ? ? ?]; subst; [done|..].
    + apply header_of_bad in Hb. congruence.
    + by rewrite header_of_frame in Hi.
  - apply header_of_bad in Hb. inversion H' as [? Hi|? ? ? Hb'|? ? ? ? ? ? ?]; subst.
    + apply header_of_incomplete in Hi. congruence.
    + apply header_of_bad in Hb'. rewrite Hb in Hb'. by simplify_eq.
    + by rewrite header_of_frame in Hb.
  - pose proof (header_of_frame max m u Hm Hmax) as E.
    remember (grpc_frame m ++ u) as w eqn:Ew.
    destruct H' as [w Hi|w c e Hb|m' u' ms' v' r' Hm' Hmax' Hw].
    + apply header_of_incomplete in Hi. congruence.
    + apply header_of_bad in Hb. congruence.
    + rewrite header_of_frame in E by done. injection E as E.
      apply grpc_frame_app_inj in Ew as [-> ->]; [|done].
      by destruct (IH _ _ _ Hw) as (-> & -> & ->).
Qed.

Lemma bad_header_app max u d c e : bad_header max u c e → bad_header max (u ++ d) c e.
Proof.
  intros [rest H|b rest H ? ?|n rest ? ?].
  - rewrite <- app_comm_cons. constructor. zlen_solve.
  - rewrite <- app_comm_cons. constructor; [zlen_solve|done..].
  - rewrite <- app_assoc. by constructor.
Qed.

(** Reading can stop after any prefix and resume with what was left. *)
Lemma wire_stream_app max u ms r d ms' v r' :
  wire_stream max u ms Accept r → wire_stream max (r ++ d) ms' v r' →
  wire_stream max (u ++ d) (ms ++ ms') v r'.
Proof.
  intros H. remember Accept as a eqn:Ea.
  induction H as [u Hi| |m u ms v' r Hm Hmax _ IH]; simplify_eq; intros H'; [done|].
  rewrite <- app_assoc. simpl. constructor; auto.
Qed.

Lemma wire_stream_reject_app max u ms c e r d :
  wire_stream max u ms (Reject c e) r → ∃ r', wire_stream max (u ++ d) ms (Reject c e) r'.
Proof.
  intros H. remember (Reject c e) as a eqn:Ea.
  induction H as [|u c' e' Hb|m u ms v' r Hm Hmax _ IH]; simplify_eq.
  - exists (u ++ d). constructor. by apply bad_header_app.
  - destruct IH as [r' H']; [done|]. exists r'. rewrite <- app_assoc. by constructor.
Qed.

(** Conversely what a prefix leaves determines the reading of the rest. *)
Lemma wire_stream_cut max u d ms v r ms1 r1 :
  wire_stream max (u ++ d) ms v r → wire_stream max u ms1 Accept r1 →
  ∃ ms2, wire_stream max (r1 ++ d) ms2 v r ∧ ms = ms1 ++ ms2.
Proof.
  intros H H1. destruct (wire_stream_total max (r1 ++ d)) as (ms2 & v2 & r2 & H2).
  pose proof (wire_stream_app _ _ _ _ _ _ _ _ H1 H2) as H3.
  destruct (wire_stream_det _ _ _ _ _ _ _ _ H H3) as (-> & -> & ->). eauto.
Qed.

Lemma wire_stream_cut_reject max u d ms v r ms1 c e r1 :
  wire_stream max (u ++ d) ms v r → wire_stream max u ms1 (Reject c e) r1 →
  ms = ms1 ∧ v = Reject c e.
Proof.
  intros H H1. destruct (wire_stream_reject_app _ _ _ _ _ _ d H1) as [r' H'].
  by destruct (wire_stream_det _ _ _ _ _ _ _ _ H H') as (-> & -> & _).
Qed.

Lemma wire_stream_rest_incomplete max u ms v r :
  wire_stream max u ms v r → v = Accept → incomplete max r.
Proof. induction 1; naive_solver. Qed.

Lemma incomplete_bound max u : 0 <= max → incomplete max u → zlen u <= 4 + max.
Proof.
  intros Hmax [u' Hu|n p Hn Hn' Hp]; [lia|]. rewrite zlen_app, zlen_frame_prefix. lia.
Qed.

(** Whole messages leave nothing behind. *)
Lemma wire_stream_frames max ms :
  0 <= max → Forall (λ m, zlen m < 2 ^ 32 ∧ zlen m <= max) ms →
  wire_stream max (concat (grpc_frame <$> ms)) ms Accept [].
Proof.
  intros Hmax. induction 1 as [|m ms [] _ IH]; simpl.
  - constructor. by constructor.
  - by constructor.
Qed.

End WireStream.

(** ** The scanner implements the stream *)

Section ScannerSpec.
Import GrpcMessageScanner WireStream.
Context `{SZ : SizeT}.

(** [5 + msg_len] cannot wrap: the bound the comment in [Feed] asks for.  It is
    automatic when [size_t] is wider than 32 bits. *)
Definition fits (max : Z) : Prop := Z.min max (2 ^ 32 - 1) + 5 < 2 ^ size_bits.

(** The abstraction: the bytes not yet handed out. *)
Definition unread (s : Scanner) : bytes := drop (Z.to_nat (pos_ s)) (buf_ s).

(** Invariant of a live scanner; the buffer is an addressable [std::string]. *)
Record scanner_ok (s : Scanner) : Prop := {
  sok_live : failed_ s = false;
  sok_max : 0 <= max_message_size_ s;
  sok_fits : fits (max_message_size_ s);
  sok_pos : 0 <= pos_ s <= zlen (buf_ s);
  sok_size : zlen (buf_ s) < 2 ^ size_bits;
}.

(** After [Next], consumed bytes are kept only up to 64 KiB or half the buffer. *)
Definition compacted (s : Scanner) : Prop :=
  pos_ s < 65536 ∨ pos_ s < zlen (buf_ s) / 2.

Lemma size_add_small a b : 0 <= a + b < 2 ^ size_bits → a +sz b = a + b.
Proof. intros. by apply Z.mod_small. Qed.

Lemma two32_le_size : 2 ^ 32 <= 2 ^ size_bits.
Proof. apply Z.pow_le_mono_r; [lia|apply size_bits_ge]. Qed.

Lemma fits_add max n : fits max → 0 <= n < 2 ^ 32 → n <= max → 5 +sz n = 5 + n.
Proof. unfold fits. intros. apply size_add_small. lia. Qed.

Lemma zlen_unread s : scanner_ok s → zlen (unread s) = zlen (buf_ s) - pos_ s.
Proof. intros []. unfold unread. by apply zlen_drop. Qed.

Lemma feed_loop_step fuel max buf off :
  fits max → 0 <= off <= zlen buf → zlen buf < 2 ^ size_bits →
  feed_loop (S fuel) max buf off =
  match header_of max (drop (Z.to_nat off) buf) with
  | HShort => Some Accept
  | HBad c e => Some (Reject c e)
  | HFrame n => feed_loop fuel max buf (off + (5 + n))
  end.
Proof.
  intros Hf Hoff Hb. cbn [feed_loop]. unfold header_of.
  rewrite zlen_drop by done. case_test; [done|].
  rewrite <- znth_shift, Z.add_0_r by lia.
  rewrite Z2Nat.inj_add, <- drop_drop by lia. change (Z.to_nat 1) with 1%nat.
  set (n := ReadBigEndian32 _).
  pose proof (ReadBigEndian32_range (drop 1 (drop (Z.to_nat off) buf))) as Hn.
  fold n in Hn. destruct (b2z _ =? 1); [done|]. destruct (b2z _ =? 0); cbn [negb]; [|done].
  destruct (Z.ltb_spec max n); [done|].
  rewrite (fits_add max n) by done. case_test; [done|].
  by rewrite size_add_small by lia.
Qed.

Lemma feed_loop_stream max u ms v r :
  wire_stream max u ms v r →
  ∀ buf off fuel,
    u = drop (Z.to_nat off) buf → 0 <= off <= zlen buf → zlen buf < 2 ^ size_bits →
    fits max → (length u < fuel)%nat → feed_loop fuel max buf off = Some v.
Proof.
  induction 1 as [u Hi|u c e Hb|m u ms v r Hm Hmax _ IH];
    intros buf off [|fuel] Hu Hoff Hsz Hf Hfuel; try lia;
    rewrite feed_loop_step by done; rewrite <- Hu.
  - by rewrite header_of_incomplete.
  - by rewrite (header_of_bad _ _ _ _ Hb).
  - rewrite header_of_frame by done. rewrite <- zlen_grpc_frame.
    assert (Hl : zlen (grpc_frame m) + zlen u = zlen buf - off).
    { rewrite <- zlen_app, Hu. by apply zlen_drop. }
    pose proof (zlen_grpc_frame m). pose proof (zlen_nonneg m). pose proof (zlen_nonneg u).
    apply IH; try done; try lia.
    + rewrite <- drop_drop_Z, <- Hu by lia. by rewrite drop_zlen_app.
    + rewrite length_app in Hfuel. unfold zlen in *. lia.
Qed.

(** The loop of [Feed] ends: the buffer's length plus one is enough fuel. *)
Lemma feed_loop_total max buf off :
  fits max → 0 <= off <= zlen buf → zlen buf < 2 ^ size_bits →
  ∃ v, feed_loop (S (length buf)) max buf off = Some v.
Proof.
  intros. destruct (wire_stream_total max (drop (Z.to_nat off) buf)) as (ms & v & r & H').
  exists v. eapply feed_loop_stream; eauto. rewrite length_drop. lia.
Qed.

Lemma Feed_stream s data ms v r :
  scanner_ok s → zlen (buf_ s ++ data) < 2 ^ size_bits →
  wire_stream (max_message_size_ s) (unread s ++ data) ms v r →
  Feed s data =
  match v with
  | Accept => ({| s with buf_ := buf_ s ++ data |}, true)
  | Reject c e =>
      ({| s with buf_ := buf_ s ++ data; failed_ := true; error_code_ := c; error_ := e |}, false)
  end.
Proof.
  intros [Hl Hmax Hf Hp _] Hsz Hw. unfold Feed. rewrite Hl.
  rewrite (feed_loop_stream _ _ _ _ _ Hw).
  - by destruct v.
  - unfold unread. rewrite <- drop_app_le; [done|]. unfold zlen in Hp. lia.
  - zlen_solve.
  - done.
  - done.
  - unfold unread. rewrite !length_app, length_drop. lia.
Qed.

Lemma Feed_accept_ok s data :
  scanner_ok s → zlen (buf_ s ++ data) < 2 ^ size_bits →
  scanner_ok {| s with buf_ := buf_ s ++ data |} ∧
  unread {| s with buf_ := buf_ s ++ data |} = unread s ++ data.
Proof.
  intros [] Hsz. split.
  - constructor; simpl; try done. zlen_solve.
  - unfold unread. simpl. apply drop_app_le. unfold zlen in *. lia.
Qed.

Ltac scanner_simpl :=
  cbn [max_message_size_ buf_ pos_ failed_ error_code_ error_] in *.

Lemma Next_frame s m u :
  scanner_ok s → unread s = grpc_frame m ++ u →
  zlen m < 2 ^ 32 → zlen m <= max_message_size_ s →
  ∃ s', Next s = (s', Some m) ∧ scanner_ok s' ∧ unread s' = u ∧ compacted s' ∧
        max_message_size_ s' = max_message_size_ s ∧ zlen (buf_ s') <= zlen (buf_ s).
Proof.
  intros Hok Hu Hm Hmax. pose proof (zlen_unread s Hok) as Hl.
  destruct Hok as [Hlive Hmax0 Hf Hp Hsz]. unfold Next. rewrite Hlive.
  rewrite Hu, zlen_app, zlen_grpc_frame in Hl.
  pose proof (zlen_nonneg m) as Hm0. pose proof (zlen_nonneg u) as Hu0.
  destruct (Z.ltb_spec (zlen (buf_ s) - pos_ s) 5); [lia|].
  rewrite Z2Nat.inj_add, <- drop_drop by lia. change (Z.to_nat 1) with 1%nat.
  fold (unread s). rewrite Hu, read_grpc_frame, (fits_add (max_message_size_ s))
    by (done || lia).
  destruct (Z.ltb_spec (zlen (buf_ s) - pos_ s) (5 + zlen m)); [lia|].
  rewrite size_add_small by lia.
  assert (Hmsg : zsubstr (pos_ s + 5) (zlen m) (buf_ s) = m).
  { rewrite zsubstr_shift by lia. fold (unread s). rewrite Hu. unfold grpc_frame.
    rewrite <- app_assoc. unfold zsubstr. change 5 with (zlen (AppendGrpcFramePrefix (zlen m) [])).
    rewrite drop_zlen_app. apply (zsubstr_0_app m u). }
  assert (Hrest : drop (Z.to_nat (pos_ s + (5 + zlen m))) (buf_ s) = u).
  { rewrite <- drop_drop_Z by lia. fold (unread s). rewrite Hu, <- zlen_grpc_frame.
    apply drop_zlen_app. }
  rewrite Hmsg. eexists. split; [done|].
  destruct (Z.eqb_spec (pos_ s + (5 + zlen m)) (zlen (buf_ s))) as [He|Hne];
    [|destruct ((65536 <=? _) && _) eqn:Hc].
  - split_and!; scanner_simpl; try done.
    + constructor; scanner_simpl; try done. rewrite zlen_nil. pose proof two32_le_size. lia.
    + symmetry. apply zlen_nil_inv. lia.
    + by left.
    + apply zlen_nonneg.
  - split_and!; scanner_simpl; try done.
    + constructor; scanner_simpl; rewrite ?Hrest; try done; lia.
    + by left.
    + rewrite Hrest. lia.
  - split_and!; scanner_simpl; try done.
    + constructor; scanner_simpl; try done. lia.
    + unfold compacted; scanner_simpl. apply andb_false_iff in Hc. rewrite !Z.leb_gt in Hc. lia.
Qed.

Lemma Next_incomplete s :
  scanner_ok s → incomplete (max_message_size_ s) (unread s) → Next s = (s, None).
Proof.
  intros Hok Hi. pose proof (zlen_unread s Hok) as Hl. destruct Hok as [Hlive Hmax0 Hf Hp Hsz].
  unfold Next. rewrite Hlive. destruct (Z.ltb_spec (zlen (buf_ s) - pos_ s) 5); [done|].
  rewrite Z2Nat.inj_add, <- drop_drop by lia. change (Z.to_nat 1) with 1%nat.
  fold (unread s). destruct Hi as [u Hu|n p Hn Hn' Hpl]; [lia|].
  rewrite read_frame_prefix, (fits_add (max_message_size_ s)) by done.
  rewrite zlen_app, zlen_frame_prefix in Hl.
  destruct (Z.ltb_spec (zlen (buf_ s) - pos_ s) (5 + n)); [done|lia].
Qed.

Lemma wire_stream_length max u ms v r :
  wire_stream max u ms v r → (length ms <= length u)%nat.
Proof.
  induction 1 as [| |m u ms v r _ _ _ IH]; simpl; [lia..|].
  pose proof (zlen_grpc_frame m) as Hm. unfold zlen in Hm. rewrite length_app. lia.
Qed.

Lemma drain_stream max u ms v r :
  wire_stream max u ms v r → v = Accept →
  ∀ fuel s, scanner_ok s → max_message_size_ s = max → unread s = u → (length ms < fuel)%nat →
  ∃ s', drain fuel s = (s', ms) ∧ scanner_ok s' ∧ unread s' = r ∧
        max_message_size_ s' = max ∧ zlen (buf_ s') <= zlen (buf_ s) ∧
        (compacted s ∨ ms ≠ [] → compacted s').
Proof.
  induction 1 as [u Hi| |m u ms v r Hm Hmax _ IH]; intros Hv [|fuel] s Hok Hms Hu Hfuel;
    try done; try (simpl in Hfuel; lia); cbn [drain].
  - rewrite Next_incomplete by (rewrite ?Hms, ?Hu; done). exists s.
    split_and!; try done. by intros [|].
  - destruct (Next_frame s m u) as (s1 & -> & Hok1 & Hu1 & Hc1 & Hmax1 & Hb1);
      [done..|by rewrite Hms|].
    destruct (IH Hv fuel s1) as (s2 & -> & Hok2 & Hu2 & Hmax2 & Hb2 & Hc2);
      [done|congruence|done|simpl in Hfuel; lia|].
    exists s2. split_and!; try done; [lia|auto].
Qed.

(** One chunk: everything complete is delivered, the rest is kept. *)
Lemma receive_chunk_accept s data ms r :
  scanner_ok s → zlen (buf_ s ++ data) < 2 ^ size_bits →
  wire_stream (max_message_size_ s) (unread s ++ data) ms Accept r →
  ∃ s', receive_chunk s data = (s', ms) ∧ scanner_ok s' ∧ unread s' = r ∧
        max_message_size_ s' = max_message_size_ s ∧
        zlen (buf_ s') <= zlen (buf_ s) + zlen data ∧ (compacted s → compacted s').
Proof.
  intros Hok Hsz Hw. unfold receive_chunk. rewrite (Feed_stream s data _ _ _ Hok Hsz Hw).
  destruct (Feed_accept_ok s data Hok Hsz) as [Hok1 Hu1].
  destruct (drain_stream _ _ _ _ _ Hw eq_refl (S (length (buf_ s ++ data))) _ Hok1 eq_refl Hu1)
    as (s' & Hd & ? & ? & ? & Hb & Hc).
  { pose proof (wire_stream_length _ _ _ _ _ Hw) as Hl. unfold unread in Hl.
    rewrite length_app, length_drop in Hl. rewrite length_app. lia. }
  exists s'. split_and!; try done; [simpl in Hb; zlen_solve|]. intros Hcs. apply Hc. left. unfold compacted in *. simpl.
  destruct Hcs as [|Hcs]; [by left|]. right. eapply Z.lt_le_trans; [done|].
  apply Z.div_le_mono; [lia|]. zlen_solve.
Qed.

Lemma receive_chunk_reject s data ms c e r :
  scanner_ok s → zlen (buf_ s ++ data) < 2 ^ size_bits →
  wire_stream (max_message_size_ s) (unread s ++ data) ms (Reject c e) r →
  receive_chunk s data =
  ({| s with buf_ := buf_ s ++ data; failed_ := true; error_code_ := c; error_ := e |}, []).
Proof.
  intros Hok Hsz Hw. unfold receive_chunk. by rewrite (Feed_stream s data _ _ _ Hok Hsz Hw).
Qed.

Lemma receive_chunks_failed chunks s :
  failed_ s = true → receive_chunks s chunks = (s, []).
Proof.
  intros Hf. induction chunks as [|c chunks IH]; simpl; [done|].
  unfold receive_chunk, Feed. by rewrite Hf, IH.
Qed.

(** A sequence of chunks, cut anywhere. *)
Lemma receive_chunks_stream chunks : ∀ s ms v r,
  scanner_ok s → incomplete (max_message_size_ s) (unread s) →
  zlen (buf_ s) + zlen (concat chunks) < 2 ^ size_bits →
  wire_stream (max_message_size_ s) (unread s ++ concat chunks) ms v r →
  ∃ s' ms', receive_chunks s chunks = (s', ms') ∧
    match v with
    | Accept =>
        ms' = ms ∧ scanner_ok s' ∧ unread s' = r ∧
        max_message_size_ s' = max_message_size_ s ∧ (compacted s → compacted s')
    | Reject c e =>
        ms' `prefix_of` ms ∧ failed_ s' = true ∧ error_code_ s' = c ∧ error_ s' = e
    end.
Proof.
  induction chunks as [|d chunks IH]; intros s ms v r Hok Hinc Hsz Hw; simpl in *.
  { rewrite app_nil_r in Hw. exists s, []. split; [done|].
    destruct (wire_stream_det _ _ _ _ _ _ _ _ Hw (ws_rest _ _ Hinc)) as (-> & -> & ->).
    by split_and!. }
  rewrite app_assoc in Hw. rewrite zlen_app in Hsz.
  assert (Hsz1 : zlen (buf_ s ++ d) < 2 ^ size_bits) by zlen_solve.
  destruct (wire_stream_total (max_message_size_ s) (unread s ++ d)) as (ms1 & v1 & r1 & H1).
  destruct v1 as [|c e].
  - destruct (receive_chunk_accept s d ms1 r1) as (s1 & -> & Hok1 & Hu1 & Hm1 & Hb1 & Hc1);
      [done..|].
    destruct (wire_stream_cut _ _ _ _ _ _ _ _ Hw H1) as (ms2 & H2 & ->).
    destruct (IH s1 ms2 v r) as (s2 & ms2' & -> & Hres); rewrite ?Hm1, ?Hu1; try done; try lia.
    { by eapply wire_stream_rest_incomplete. }
    exists s2, (ms1 ++ ms2'). split; [done|]. destruct v as [|c e].
    + destruct Hres as (-> & ? & ? & ? & ?). split_and!; try done; [congruence|auto].
    + destruct Hres as (? & ?). split; [by apply prefix_app|done].
  - rewrite (receive_chunk_reject _ _ _ _ _ _ Hok Hsz1 H1), receive_chunks_failed by done.
    destruct (wire_stream_cut_reject _ _ _ _ _ _ _ _ _ _ Hw H1) as [-> ->].
    eexists _, _. split; [done|]. split_and!; try done. apply prefix_nil.
Qed.

(** A compacted, drained buffer holds at most 64 KiB of consumed bytes, or as
    many as there are unread ones, next to one incomplete frame. *)
Lemma buffer_bound s :
  scanner_ok s → compacted s → zlen (unread s) <= 4 + max_message_size_ s →
  zlen (buf_ s) <= 4 + max_message_size_ s + Z.max 65535 (4 + max_message_size_ s).
Proof.
  intros Hok Hc Hu. rewrite (zlen_unread s Hok) in Hu. destruct Hok.
  destruct Hc as [|Hc]; [lia|]. Z.to_euclidean_division_equations. lia.
Qed.

(** *** What every scanner keeps, even where [5 + msg_len] wraps *)

Definition scanner_held (max : Z) (s : Scanner) : Prop :=
  max_message_size_ s = max ∧ 0 <= pos_ s <= zlen (buf_ s).

Lemma Feed_held max s data : scanner_held max s → scanner_held max (Feed s data).1.
Proof.
  intros [Hm Hp]. unfold Feed. destruct (failed_ s); [done|].
  pose proof (zlen_nonneg data). destruct (feed_loop _ _ _ _) as [[|c e]|]; (split; [done|]); simpl; zlen_solve.
Qed.

Lemma Next_held max s : scanner_held max s → scanner_held max (Next s).1.
Proof.
  intros [Hm Hp]. unfold Next. destruct (failed_ s); [done|]. case_test; [done|].
  set (len := 5 +sz ReadBigEndian32 _). destruct (Z.ltb_spec (zlen (buf_ s) - pos_ s) len); [done|].
  assert (Hlen : 0 <= len) by (apply Z.mod_pos_bound, Z.pow_pos_nonneg; pose proof size_bits_ge; lia).
  assert (Hpos : 0 <= pos_ s +sz len <= zlen (buf_ s)).
  { split; [apply Z.mod_pos_bound, Z.pow_pos_nonneg; pose proof size_bits_ge; lia|].
    etransitivity; [apply Z.mod_le; [lia|apply Z.pow_pos_nonneg; pose proof size_bits_ge; lia]|lia]. }
  cbn [fst]. repeat case_test; (split; [done|]); cbn [pos_ buf_]; try done.
  split; [done|apply zlen_nonneg].
Qed.

Lemma drain_held max fuel s : scanner_held max s → scanner_held max (drain fuel s).1.
Proof.
  revert s. induction fuel as [|fuel IH]; intros s Hs; cbn [drain]; [done|].
  pose proof (Next_held max s Hs) as H. destruct (Next s) as [s1 [m|]]; [|done].
  specialize (IH s1 H). by destruct (drain fuel s1).
Qed.

(** The two loops over a chunk end: that of [Feed] with a verdict, and the one that
    drains the scanner with nothing left to hand out. *)
Definition scanner_loops_end (s : Scanner) (data : bytes) : Prop :=
  ∃ v, feed_loop (S (length (buf_ s ++ data))) (max_message_size_ s) (buf_ s ++ data) (pos_ s) = Some v ∧
    (v = Accept → let s1 := (Feed s data).1 in (Next (drain (S (length (buf_ s1))) s1).1).2 = None).

Lemma scanner_held_loops_end max s data :
  scanner_held max s → 0 <= max → fits max → failed_ s = false → zlen (buf_ s ++ data) < 2 ^ size_bits →
  scanner_loops_end s data.
Proof.
  intros [<- Hp] Hm Hf Hl Hsz.
  assert (Hok : scanner_ok s).
  { split; try done. rewrite zlen_app in Hsz. pose proof (zlen_nonneg data). lia. }
  destruct (wire_stream_total (max_message_size_ s) (unread s ++ data)) as (ms & v & r & Hw).
  exists v. split.
  - apply (feed_loop_stream _ _ _ _ _ Hw); try done; [|zlen_solve|].
    + unfold unread. rewrite <- drop_app_le; [done|]. unfold zlen in Hp. lia.
    + unfold unread. rewrite !length_app, length_drop. lia.
  - intros ->. destruct (receive_chunk_accept s data ms r Hok Hsz Hw) as (s' & Hr & Hok' & Hu & Hmax & _).
    unfold receive_chunk in Hr. rewrite (Feed_stream s data _ _ _ Hok Hsz Hw) in *. cbn [fst].
    rewrite Hr. cbn [fst]. rewrite Next_incomplete; [done..|]. rewrite Hu, Hmax.
    by eapply wire_stream_rest_incomplete.
Qed.

End ScannerSpec.

(** ** Timeouts: lemmas *)

Lemma units_rounded_up_spec ns nanos : 0 < ns → 0 < nanos →
  ns <= units_rounded_up ns nanos * nanos < ns + nanos.
Proof.
  intros. unfold units_rounded_up. rewrite Z.quot_div_nonneg, Z.rem_mod_nonneg by lia.
  pose proof (Z.div_mod ns nanos). pose proof (Z.mod_pos_bound ns nanos).
  case_test; nia.
Qed.

(** The loop picks the first unit whose rounded-up value fits. *)
Lemma encode_timeout_loop_first ns units :
  (∃ pre suffix nanos post,
     units = pre ++ (suffix, nanos) :: post ∧
     Forall (λ u, kMaxTimeoutDigitsValue < units_rounded_up ns u.2) pre ∧
     units_rounded_up ns nanos <= kMaxTimeoutDigitsValue ∧
     encode_timeout_loop ns units = to_string (units_rounded_up ns nanos) ++ [suffix])
  ∨ Forall (λ u, kMaxTimeoutDigitsValue < units_rounded_up ns u.2) units.
Proof.
  induction units as [|[suffix nanos] units IH]; cbn [encode_timeout_loop]; [by right|].
  destruct (Z.leb_spec (units_rounded_up ns nanos) kMaxTimeoutDigitsValue) as [Hle|Hgt].
  - left. by exists [], suffix, nanos, units.
  - destruct IH as [(pre & sf & nn & post & -> & Hpre & Hv & ->)|Hall].
    + left. exists ((suffix, nanos) :: pre), sf, nn, post. split_and!; try done. by constructor.
    + right. by constructor.
Qed.

(** ** Base64: lemmas *)

Lemma base64_value_char i : 0 <= i < 64 → Base64Value (znth i kBase64Chars) = i.
Proof.
  intros Hi.
  assert (H : forallb (λ i, Base64Value (znth i kBase64Chars) =? i) (seqZ 0 64) = true)
    by (vm_compute; done).
  rewrite forallb_forall in H. apply Z.eqb_eq, H, list_elem_of_In, elem_of_seqZ. lia.
Qed.

Lemma base64_char_value v s : 0 <= s → Base64Value (base64_char v s) = (v / 2 ^ s) mod 64.
Proof.
  intros. unfold base64_char. change 0x3f with (2 ^ 6 - 1).
  rewrite (shiftr_land_ones v s 6) by lia.
  apply base64_value_char. apply Z.mod_pos_bound. lia.
Qed.

Lemma base64_char_not_pad v s : 0 <= s → base64_char v s ≠ "="%byte.
Proof.
  intros Hs E. pose proof (base64_char_value v s Hs) as H. rewrite E in H.
  change (Base64Value "=") with (-1) in H. pose proof (Z.mod_pos_bound (v / 2 ^ s) 64). lia.
Qed.

Lemma base64_acc_lor acc x : 0 <= acc → 0 <= x < 64 →
  Z.lor (Z.shiftl acc 6 mod 2 ^ 32) x = acc * 64 mod 2 ^ 32 + x.
Proof.
  intros. rewrite Z.shiftl_mul_pow2 by lia. change (2 ^ 6) with 64.
  replace (acc * 64 mod 2 ^ 32) with (Z.shiftl (acc mod 2 ^ 26) 6)
    by (rewrite Z.shiftl_mul_pow2 by lia; Z.to_euclidean_division_equations; lia).
  rewrite lor_shiftl_add, Z.shiftl_mul_pow2; lia.
Qed.

Lemma base64_step_emit acc bits c x rest out :
  Base64Value c = x → 0 <= x < 64 → 0 <= acc → 2 <= bits →
  base64_decode_loop acc bits (c :: rest) out =
  base64_decode_loop (acc * 64 mod 2 ^ 32 + x) (bits - 2) rest
    (out ++ [z2b (((acc * 64 mod 2 ^ 32 + x) / 2 ^ (bits - 2)) mod 256)]).
Proof.
  intros Hc Hx Hacc Hbits. cbn [base64_decode_loop].
  rewrite Hc, base64_acc_lor by done.
  destruct (Z.ltb_spec x 0); [lia|]. destruct (Z.leb_spec 8 (bits + 6)); [|lia].
  replace (bits + 6 - 8) with (bits - 2) by lia. by rewrite shiftr_land_ff by lia.
Qed.

Lemma base64_step_first acc c x rest out :
  Base64Value c = x → 0 <= x < 64 → 0 <= acc →
  base64_decode_loop acc 0 (c :: rest) out =
  base64_decode_loop (acc * 64 mod 2 ^ 32 + x) 6 rest out.
Proof.
  intros Hc Hx Hacc. cbn [base64_decode_loop]. rewrite Hc, base64_acc_lor by done.
  destruct (Z.ltb_spec x 0); [lia|done].
Qed.

(** The pending bits of the accumulator and the next sextet make a byte. *)
Lemma base64_emit_6 acc x1 x2 : 0 <= x1 < 64 → 0 <= x2 < 64 →
  (((acc * 64 mod 2 ^ 32 + x1) * 64 mod 2 ^ 32 + x2) / 2 ^ (6 - 2)) mod 256 = x1 * 4 + x2 / 16.
Proof. intros. change (2 ^ (6 - 2)) with 16. Z.to_euclidean_division_equations. lia. Qed.

Lemma base64_emit_4 acc x2 x3 : 0 <= x2 < 64 → 0 <= x3 < 64 →
  (((acc * 64 mod 2 ^ 32 + x2) * 64 mod 2 ^ 32 + x3) / 2 ^ (4 - 2)) mod 256
  = x2 mod 16 * 16 + x3 / 4.
Proof. intros. change (2 ^ (4 - 2)) with 4. Z.to_euclidean_division_equations. lia. Qed.

Lemma base64_emit_2 acc x3 x4 : 0 <= x3 < 64 → 0 <= x4 < 64 →
  (((acc * 64 mod 2 ^ 32 + x3) * 64 mod 2 ^ 32 + x4) / 2 ^ (2 - 2)) mod 256
  = x3 mod 4 * 64 + x4.
Proof. intros. change (2 ^ (2 - 2)) with 1. Z.to_euclidean_division_equations. lia. Qed.

Lemma base64_acc_nonneg acc x : 0 <= x → 0 <= acc * 64 mod 2 ^ 32 + x.
Proof. intros. pose proof (Z.mod_pos_bound (acc * 64) (2 ^ 32)). lia. Qed.

(** Lists in groups of three. *)
Lemma list_ind3 {A} (P : list A → Prop) :
  P [] → (∀ a, P [a]) → (∀ a b, P [a; b]) →
  (∀ a b c l, P l → P (a :: b :: c :: l)) → ∀ l, P l.
Proof.
  intros H0 H1 H2 H3. fix IH 1. intros [|a [|b [|c l]]]; [done..|]. apply H3, IH.
Qed.

(** Two, three and four characters of a group, from a byte boundary. *)
Lemma base64_group2 acc x1 x2 c1 c2 rest out :
  Base64Value c1 = x1 → Base64Value c2 = x2 → 0 <= x1 < 64 → 0 <= x2 < 64 → 0 <= acc →
  base64_decode_loop acc 0 (c1 :: c2 :: rest) out =
  base64_decode_loop ((acc * 64 mod 2 ^ 32 + x1) * 64 mod 2 ^ 32 + x2) 4 rest
    (out ++ [z2b (x1 * 4 + x2 / 16)]).
Proof.
  intros H1 H2 ? ? ?. rewrite (base64_step_first _ _ _ _ _ H1) by lia.
  rewrite (base64_step_emit _ _ _ _ _ _ H2) by (try apply base64_acc_nonneg; lia).
  by rewrite base64_emit_6.
Qed.

Lemma base64_group3 acc x1 x2 x3 c1 c2 c3 rest out :
  Base64Value c1 = x1 → Base64Value c2 = x2 → Base64Value c3 = x3 →
  0 <= x1 < 64 → 0 <= x2 < 64 → 0 <= x3 < 64 → 0 <= acc →
  ∃ acc', 0 <= acc' ∧
  base64_decode_loop acc 0 (c1 :: c2 :: c3 :: rest) out =
  base64_decode_loop (acc' * 64 mod 2 ^ 32 + x3) 2 rest
    (out ++ [z2b (x1 * 4 + x2 / 16); z2b (x2 mod 16 * 16 + x3 / 4)]).
Proof.
  intros H1 H2 H3 ? ? ? ?. eexists. split; [|
  rewrite (base64_group2 _ _ _ _ _ _ _ H1 H2) by done;
  rewrite (base64_step_emit _ _ _ _ _ _ H3) by (try apply base64_acc_nonneg; lia);
  rewrite base64_emit_4 by done; by rewrite <- app_assoc].
  apply base64_acc_nonneg. lia.
Qed.

Lemma base64_group4 acc x1 x2 x3 x4 c1 c2 c3 c4 rest out :
  Base64Value c1 = x1 → Base64Value c2 = x2 → Base64Value c3 = x3 → Base64Value c4 = x4 →
  0 <= x1 < 64 → 0 <= x2 < 64 → 0 <= x3 < 64 → 0 <= x4 < 64 → 0 <= acc →
  ∃ acc', 0 <= acc' ∧
  base64_decode_loop acc 0 (c1 :: c2 :: c3 :: c4 :: rest) out =
  base64_decode_loop acc' 0 rest
    (out ++ [z2b (x1 * 4 + x2 / 16); z2b (x2 mod 16 * 16 + x3 / 4); z2b (x3 mod 4 * 64 + x4)]).
Proof.
  intros H1 H2 H3 H4 ? ? ? ? ?.
  destruct (base64_group3 acc x1 x2 x3 c1 c2 c3 (c4 :: rest) out) as (acc' & ? & ->); try done.
  eexists. split; [|
  rewrite (base64_step_emit _ _ _ _ _ _ H4) by (try apply base64_acc_nonneg; lia);
  rewrite base64_emit_2 by done; by rewrite <- app_assoc].
  apply base64_acc_nonneg. lia.
Qed.

(** The sextets of a 24-bit group, and the bytes they recombine to. *)
Lemma base64_group_value a b c :
  Z.lor (Z.lor (Z.shiftl (b2z a) 16) (Z.shiftl (b2z b) 8)) (b2z c)
  = b2z a * 65536 + b2z b * 256 + b2z c.
Proof.
  pose proof (b2z_range b). pose proof (b2z_range c).
  rewrite (lor_shiftl_add _ (Z.shiftl (b2z b) 8) 16) by (rewrite ?Z.shiftl_mul_pow2; lia).
  replace (b2z a * 2 ^ 16 + Z.shiftl (b2z b) 8) with (Z.shiftl (b2z a * 2 ^ 8 + b2z b) 8)
    by (rewrite !Z.shiftl_mul_pow2; lia).
  rewrite lor_shiftl_add; lia.
Qed.

Ltac base64_solve_bytes :=
  apply b2z_inj; rewrite b2z_z2b; Z.to_euclidean_division_equations; lia.

Lemma base64_decode_encode s : ∀ acc out,
  0 <= acc → base64_decode_loop acc 0 (Base64Encode s) out = Some (out ++ s).
Proof.
  assert (Hmod : ∀ v k, 0 <= (v / 2 ^ k) mod 64 < 64) by (intros; apply Z.mod_pos_bound; lia).
  induction s as [|a|a b|a b c s IH] using list_ind3; intros acc out Hacc; cbn [Base64Encode].
  - by rewrite app_nil_r.
  - set (v := Z.shiftl (b2z a) 16). pose proof (b2z_range a).
    rewrite (base64_group2 acc ((v / 2 ^ 18) mod 64) ((v / 2 ^ 12) mod 64))
      by (done || by apply base64_char_value).
    simpl. do 4 f_equal. subst v. rewrite Z.shiftl_mul_pow2 by lia. base64_solve_bytes.
  - pose proof (base64_group_value a b x00) as Hv. change (b2z x00) with 0 in Hv.
    rewrite Z.lor_0_r in Hv. set (v := Z.lor _ _) in *.
    pose proof (b2z_range a). pose proof (b2z_range b).
    destruct (base64_group3 acc ((v / 2 ^ 18) mod 64) ((v / 2 ^ 12) mod 64) ((v / 2 ^ 6) mod 64)
      (base64_char v 18) (base64_char v 12) (base64_char v 6) [] out) as (acc' & ? & ->);
      try done; try by apply base64_char_value.
    simpl. repeat f_equal; rewrite Hv; base64_solve_bytes.
  - pose proof (base64_group_value a b c) as Hv. set (v := Z.lor _ _) in *.
    pose proof (b2z_range a). pose proof (b2z_range b). pose proof (b2z_range c).
    destruct (base64_group4 acc ((v / 2 ^ 18) mod 64) ((v / 2 ^ 12) mod 64) ((v / 2 ^ 6) mod 64)
      ((v / 2 ^ 0) mod 64) (base64_char v 18) (base64_char v 12) (base64_char v 6)
      (base64_char v 0) (Base64Encode s) out) as (acc' & ? & ->);
      try done; try by apply base64_char_value.
    rewrite IH by done. rewrite <- app_assoc. simpl. repeat f_equal; rewrite Hv;
      base64_solve_bytes.
Qed.

Lemma base64_encode_no_pad s : Forall (λ c, c ≠ "="%byte) (Base64Encode s).
Proof.
  induction s as [|a|a b|a b c s IH] using list_ind3; cbn [Base64Encode];
    repeat (constructor; [by apply base64_char_not_pad|]); done.
Qed.

Lemma base64_encode_length s : zlen (Base64Encode s) mod 4 ≠ 1.
Proof.
  induction s as [|a|a b|a b c s IH] using list_ind3; try done; cbn [Base64Encode].
  rewrite !zlen_cons. Z.to_euclidean_division_equations. lia.
Qed.

Lemma strip_padding_spec e k :
  Forall (λ c, c ≠ "="%byte) e → strip_padding (e ++ replicate k "="%byte) = e.
Proof.
  intros He. unfold strip_padding. rewrite rev_app_distr, (rev_alt (replicate _ _)).
  fold (reverse (replicate k "="%byte)). rewrite reverse_replicate.
  assert (strip_padding_rev (replicate k "="%byte ++ rev e) = rev e) as ->.
  { induction k as [|k IH]; simpl; [|done].
    apply Forall_rev in He. destruct (rev e) as [|c r]; simpl; [done|].
    by inversion He; rewrite bool_decide_eq_false_2. }
  apply rev_involutive.
Qed.

Lemma Base64Decode_padded s k : Base64Decode (Base64Encode s ++ replicate k "="%byte) = Some s.
Proof.
  unfold Base64Decode. rewrite strip_padding_spec by apply base64_encode_no_pad.
  destruct (Z.eqb_spec (zlen (Base64Encode s) mod 4) 1) as [E|_].
  - by destruct (base64_encode_length s).
  - by apply base64_decode_encode.
Qed.

(** *** The text format of RFC 4648, without padding

    The characters stand for sextets whose bits, most significant first, are those of
    the value's bytes followed by fewer than six zeros. *)

Definition bits_of (width n : Z) : list bool := Z.testbit n <$> reverse (seqZ 0 width).

Definition base64_of (value text : bytes) : Prop :=
  ∃ (sextets : list Z) (pad : nat),
    Forall (λ i, 0 <= i < 64) sextets ∧
    text = (λ i, znth i (bs "ABCDEFGHIJKLMNOPQRSTUVWXYZabcdefghijklmnopqrstuvwxyz0123456789+/"))
             <$> sextets ∧
    (pad < 6)%nat ∧
    sextets ≫= bits_of 6 = (value ≫= λ b, bits_of 8 (b2z b)) ++ replicate pad false.

Lemma testbit_byte_high b n : 8 <= n → Z.testbit (b2z b) n = false.
Proof.
  intros Hn. pose proof (b2z_range b). destruct (Z.eq_dec (b2z b) 0) as [->|]; [apply Z.bits_0|].
  apply Z.bits_above_log2; [lia|]. apply Z.log2_lt_pow2; [lia|].
  apply Z.lt_le_trans with (2 ^ 8); [lia|]. apply Z.pow_le_mono_r; lia.
Qed.

Lemma sextet_range v : 0 <= Z.land v 63 < 64.
Proof. change 63 with (Z.ones 6). rewrite Z.land_ones by lia. apply Z.mod_pos_bound. lia. Qed.

Lemma bits_of_8 n : bits_of 8 n = Z.testbit n <$> [7;6;5;4;3;2;1;0].
Proof. done. Qed.

Lemma bits_of_6 v k : 0 <= k → bits_of 6 (Z.land (Z.shiftr v k) 63) =
  (λ i, Z.testbit v (i + k)) <$> [5;4;3;2;1;0].
Proof.
  intros. change (bits_of 6 ?x) with (Z.testbit x <$> [5;4;3;2;1;0]).
  cbn [fmap list_fmap]. rewrite !Z.land_spec, !Z.shiftr_spec by lia.
  cbn -[Z.testbit Z.add].
  repeat change (Z.testbit 63 _) with true. by rewrite ?andb_true_r.
Qed.
(** Both sides become lists of single bits of the bytes, compared one by one. *)
Ltac base64_bits :=
  cbn [mbind list_bind]; rewrite ?bits_of_6, ?bits_of_8 by lia; cbn [fmap list_fmap app replicate];
  rewrite ?Z.lor_spec, ?Z.shiftl_spec by lia; repeat f_equal;
  repeat match goal with
    | |- context [Z.testbit (b2z ?b) ?n] =>
        first [rewrite (Z.testbit_neg_r (b2z b) n) by lia|rewrite (testbit_byte_high b n) by lia]
    end; rewrite ?orb_false_r; try done.

Lemma Base64Encode_bits s : base64_of s (Base64Encode s).
Proof.
  induction s as [|a|a b|a b c s (sx & pad & Hr & Ht & Hp & Hb)] using list_ind3; cbn [Base64Encode].
  - exists [], 0%nat. split_and!; [constructor|done|lia|done].
  - set (v := Z.shiftl _ _). exists [Z.land (Z.shiftr v 18) 63; Z.land (Z.shiftr v 12) 63], 4%nat.
    split_and!; [repeat constructor; apply sextet_range|done|lia|]. subst v. base64_bits.
  - set (v := Z.lor _ _).
    exists [Z.land (Z.shiftr v 18) 63; Z.land (Z.shiftr v 12) 63; Z.land (Z.shiftr v 6) 63], 2%nat.
    split_and!; [repeat constructor; apply sextet_range|done|lia|]. subst v. base64_bits.
  - set (v := Z.lor _ _).
    exists (Z.land (Z.shiftr v 18) 63 :: Z.land (Z.shiftr v 12) 63 :: Z.land (Z.shiftr v 6) 63 ::
            Z.land (Z.shiftr v 0) 63 :: sx), pad.
    split_and!; [repeat (constructor; [apply sextet_range|]); done|by rewrite Ht|done|].
    cbn [mbind list_bind] in *. rewrite Hb. subst v. base64_bits.
Qed.

Lemma bits_of_6_inj x y : 0 <= x < 64 → 0 <= y < 64 → bits_of 6 x = bits_of 6 y → x = y.
Proof.
  intros Hx Hy E. apply Z.bits_inj'. intros n Hn.
  destruct (decide (n < 6)) as [Hlt|Hge].
  - change (bits_of 6 ?x) with (Z.testbit x <$> [5;4;3;2;1;0]) in E. cbn [fmap list_fmap] in E.
    injection E as ??????. assert (n = 0 ∨ n = 1 ∨ n = 2 ∨ n = 3 ∨ n = 4 ∨ n = 5) as Hc by lia.
    by destruct Hc as [->|[->|[->|[->|[->| ->]]]]].
  - rewrite <- (Z.mod_small x (2 ^ 6)), <- (Z.mod_small y (2 ^ 6)) by lia.
    by rewrite !Z.mod_pow2_bits_high by lia.
Qed.

Lemma bits_of_length w n : 0 <= w → Z.of_nat (length (bits_of w n)) = w.
Proof. intros. unfold bits_of. rewrite length_fmap, length_reverse, length_seqZ. lia. Qed.

Lemma bits_bind_length {A} w (f : A → Z) (l : list A) :
  0 <= w → Z.of_nat (length (l ≫= λ x, bits_of w (f x))) = w * Z.of_nat (length l).
Proof.
  intros Hw. induction l as [|x l IH]; cbn [mbind list_bind length]; [lia|].
  rewrite length_app, Nat2Z.inj_add, bits_of_length by done.
    cbn [mbind list_bind] in IH. rewrite IH. lia.
Qed.

Lemma sextets_inj l1 l2 :
  Forall (λ i, 0 <= i < 64) l1 → Forall (λ i, 0 <= i < 64) l2 → length l1 = length l2 →
  l1 ≫= bits_of 6 = l2 ≫= bits_of 6 → l1 = l2.
Proof.
  intros H1. revert l2. induction H1 as [|x l1 Hx H1 IH]; intros [|y l2] H2 Hl E; try done.
  apply Forall_cons in H2 as [Hy H2]. cbn [mbind list_bind] in E.
  apply app_inj_1 in E as [E1 E2]; [|by apply (inj Z.of_nat); rewrite !bits_of_length].
  f_equal; [by apply bits_of_6_inj|]. apply IH; [done| |done]. by injection Hl.
Qed.

(** The text of a value is unique, so it is what the encoder writes. *)
Lemma base64_of_encode v t : base64_of v t → t = Base64Encode v.
Proof.
  intros (l1 & p1 & Hr1 & Ht1 & Hp1 & E1).
  destruct (Base64Encode_bits v) as (l2 & p2 & Hr2 & Ht2 & Hp2 & E2).
  pose proof (f_equal (λ l, Z.of_nat (length l)) E1) as L1.
  pose proof (f_equal (λ l, Z.of_nat (length l)) E2) as L2. cbn beta in L1, L2.
  rewrite length_app, Nat2Z.inj_add, length_replicate, (bits_bind_length 8 b2z) in L1, L2 by lia.
  rewrite (bits_bind_length 6 id) in L1, L2 by lia.
  rewrite Ht1, Ht2. f_equal. assert (p1 = p2) as -> by lia.
  apply sextets_inj; [done..|lia|congruence].
Qed.

Lemma Base64Decode_of v t k : base64_of v t → Base64Decode (t ++ replicate k "="%byte) = Some v.
Proof. intros ->%base64_of_encode. apply Base64Decode_padded. Qed.

(** ** Percent-decoding: lemmas *)

Definition hex_char (n : Z) : byte := znth n (bs "0123456789ABCDEF").

(** The encoder of the gRPC specification: every byte that is not [safe] becomes
    [%XX]. *)
Fixpoint percent_encode (safe : byte → bool) (s : bytes) : bytes :=
  match s with
  | [] => []
  | c :: rest =>
      if safe c then c :: percent_encode safe rest
      else "%"%byte :: hex_char (b2z c / 16) :: hex_char (b2z c mod 16) :: percent_encode safe rest
  end.

Lemma hex_digit_char n : 0 <= n < 16 → HexDigit (hex_char n) = n.
Proof.
  intros Hn.
  assert (H : forallb (λ n, HexDigit (hex_char n) =? n) (seqZ 0 16) = true) by (vm_compute; done).
  rewrite forallb_forall in H. apply Z.eqb_eq, H, list_elem_of_In, elem_of_seqZ. lia.
Qed.

Lemma PercentDecode_plain c rest : c ≠ "%"%byte → PercentDecode (c :: rest) = c :: PercentDecode rest.
Proof.
  intros Hc. cbn [PercentDecode]. destruct rest as [|h [|l rest']]; try done.
  by rewrite bool_decide_eq_false_2.
Qed.

Lemma PercentDecode_escape c rest :
  PercentDecode ("%"%byte :: hex_char (b2z c / 16) :: hex_char (b2z c mod 16) :: rest)
  = c :: PercentDecode rest.
Proof.
  pose proof (b2z_range c). cbn [PercentDecode].
  rewrite !hex_digit_char by (Z.to_euclidean_division_equations; lia).
  rewrite bool_decide_eq_true_2, !(proj2 (Z.leb_le _ _))
    by (done || Z.to_euclidean_division_equations; lia).
  simpl. f_equal. apply b2z_inj. rewrite b2z_z2b. Z.to_euclidean_division_equations. lia.
Qed.

Lemma percent_decode_encode (safe : byte → bool) (s : bytes) :
  safe "%"%byte = false → PercentDecode (percent_encode safe s) = s.
Proof.
  intros Hsafe. induction s as [|c s IH]; [done|]. cbn [percent_encode].
  destruct (safe c) eqn:Hc.
  - rewrite PercentDecode_plain by congruence. by rewrite IH.
  - by rewrite PercentDecode_escape, IH.
Qed.

(** ** Properties *)

Section ScannerProperties.
Import GrpcMessageScanner WireStream.
Context `{SZ : SizeT}.

Lemma new_scanner_ok max : 0 <= max → fits max → scanner_ok (new_scanner max).
Proof.
  intros. constructor; simpl; try done. rewrite zlen_nil. pose proof two32_le_size. lia.
Qed.

Lemma HasPartialMessage_unread s :
  scanner_ok s → HasPartialMessage s = bool_decide (unread s ≠ []).
Proof.
  intros Hok. pose proof (zlen_unread s Hok) as Hl. unfold HasPartialMessage.
  destruct (Z.ltb_spec (pos_ s) (zlen (buf_ s))); symmetry.
  - apply bool_decide_eq_true. intros E. rewrite E, zlen_nil in Hl. lia.
  - apply bool_decide_eq_false. intros []. apply zlen_nil_inv. lia.
Qed.

(** However the DATA chunks cut the byte stream of a sequence of framed
    messages, feeding and draining them hands out exactly those messages, in
    order, without failing and with no partial message left. *)
Theorem scanner_reassembles_any_chunking (max : Z) (ms chunks : list bytes) :
  0 <= max → fits max →
  Forall (λ m, zlen m < 2 ^ 32 ∧ zlen m <= max) ms →
  concat chunks = concat (grpc_frame <$> ms) →
  zlen (concat chunks) < 2 ^ size_bits →
  ∃ s', receive_chunks (new_scanner max) chunks = (s', ms) ∧
        failed_ s' = false ∧ HasPartialMessage s' = false.
Proof.
  intros Hmax Hf Hms Hc Hsz.
  destruct (receive_chunks_stream chunks (new_scanner max) ms Accept [])
    as (s' & ms' & Hr & -> & Hok & Hu & _).
  - by apply new_scanner_ok.
  - by constructor.
  - done.
  - simpl. rewrite Hc. by apply wire_stream_frames.
  - exists s'. split; [done|]. split; [by destruct Hok|].
    by rewrite HasPartialMessage_unread, Hu.
Qed.

(** C8: on every sequence of chunks the scanner computes what the wire format
    says of the whole stream: all complete messages and the unread rest when the
    stream is well formed so far, and otherwise failure with the status code and
    message of the first bad frame header, after a prefix of the messages. *)
Theorem scanner_refines_wire_stream (max : Z) (chunks : list bytes) :
  0 <= max → fits max → zlen (concat chunks) < 2 ^ size_bits →
  ∃ ms v r s' ms',
    wire_stream max (concat chunks) ms v r ∧
    receive_chunks (new_scanner max) chunks = (s', ms') ∧
    match v with
    | Accept => ms' = ms ∧ failed_ s' = false ∧ unread s' = r ∧
                HasPartialMessage s' = bool_decide (r ≠ [])
    | Reject c e => ms' `prefix_of` ms ∧ failed_ s' = true ∧ error_code_ s' = c ∧ error_ s' = e
    end.
Proof.
  intros Hmax Hf Hsz. destruct (wire_stream_total max (concat chunks)) as (ms & v & r & Hw).
  destruct (receive_chunks_stream chunks (new_scanner max) ms v r) as (s' & ms' & Hr & Hres);
    [by apply new_scanner_ok|by constructor|done|done|].
  exists ms, v, r, s', ms'. split_and!; try done. destruct v as [|c e]; [|done].
  destruct Hres as (-> & Hok & <- & _ & _). split_and!; try done; [by destruct Hok|].
  by apply HasPartialMessage_unread.
Qed.

(** C27: after each accepted chunk is drained, the accumulation buffer holds at
    most one incomplete frame (header and payload within [max_message_size]) plus
    at most 64 KiB, or as much again, of already consumed bytes. *)
Theorem scanner_buffer_bounded (s : Scanner) (data : bytes) (ms : list bytes) (s' : Scanner) :
  scanner_ok s → compacted s → zlen (buf_ s ++ data) < 2 ^ size_bits →
  receive_chunk s data = (s', ms) → failed_ s' = false →
  zlen (unread s') <= 4 + max_message_size_ s ∧
  zlen (buf_ s') <= 4 + max_message_size_ s + Z.max 65535 (4 + max_message_size_ s).
Proof.
  intros Hok Hc Hsz Hr Hlive.
  destruct (wire_stream_total (max_message_size_ s) (unread s ++ data)) as (ms0 & v & r & Hw).
  destruct v as [|c e].
  - destruct (receive_chunk_accept s data ms0 r) as (s1 & Hr1 & Hok1 & Hu & Hm & _ & Hc1);
      [done..|]. rewrite Hr in Hr1. injection Hr1 as -> ->.
    assert (Hb : zlen (unread s1) <= 4 + max_message_size_ s).
    { rewrite Hu. apply incomplete_bound; [by destruct Hok|].
      by eapply wire_stream_rest_incomplete. }
    split; [done|]. rewrite <- Hm. apply buffer_bound; rewrite ?Hm; auto.
  - rewrite (receive_chunk_reject _ _ _ _ _ _ Hok Hsz Hw) in Hr. by injection Hr as <- <-.
Qed.

(** The validation loop of [Feed] terminates: on every reachable buffer one
    more than its length is enough iterations, provided [5 + msg_len] cannot wrap. *)
Theorem feed_loop_terminates (max : Z) (buf : bytes) (off : Z) :
  fits max → 0 <= off <= zlen buf → zlen buf < 2 ^ size_bits →
  ∃ v, feed_loop (S (length buf)) max buf off = Some v.
Proof. apply feed_loop_total. Qed.

End ScannerProperties.

(** A well-formed stream cut inside a header and inside a payload. *)
Definition sample_messages : list bytes := [bs "hello"; []; bs "abc"].

Definition sample_chunks : list bytes :=
  let w := concat (grpc_frame <$> sample_messages) in [take 3 w; take 4 (drop 3 w); drop 7 w].

Lemma scanner_reassembles_any_chunking_witness :
  ∃ s', @GrpcMessageScanner.receive_chunks size_t32
          (GrpcMessageScanner.new_scanner 16) sample_chunks = (s', sample_messages) ∧
        GrpcMessageScanner.failed_ s' = false ∧
        @GrpcMessageScanner.HasPartialMessage s' = false.
Proof.
  apply (@scanner_reassembles_any_chunking size_t32 16 sample_messages sample_chunks).
  - done.
  - done.
  - repeat constructor; vm_compute; congruence.
  - vm_compute. reflexivity.
  - vm_compute. reflexivity.
Defined.

Lemma scanner_refines_wire_stream_witness :
  ∃ ms v r s' ms',
    WireStream.wire_stream 4 (concat sample_chunks) ms v r ∧
    @GrpcMessageScanner.receive_chunks size_t64
      (GrpcMessageScanner.new_scanner 4) sample_chunks = (s', ms') ∧
    match v with
    | GrpcMessageScanner.Accept =>
        ms' = ms ∧ GrpcMessageScanner.failed_ s' = false ∧ unread s' = r ∧
        GrpcMessageScanner.HasPartialMessage s' = bool_decide (r ≠ [])
    | GrpcMessageScanner.Reject c e =>
        ms' `prefix_of` ms ∧ GrpcMessageScanner.failed_ s' = true ∧
        GrpcMessageScanner.error_code_ s' = c ∧ GrpcMessageScanner.error_ s' = e
    end.
Proof.
  apply (@scanner_refines_wire_stream size_t64 4 sample_chunks); vm_compute; congruence.
Defined.

Lemma scanner_buffer_bounded_witness :
  let r := @GrpcMessageScanner.receive_chunk size_t64 (GrpcMessageScanner.new_scanner 16)
             (grpc_frame (bs "hello") ++ [x00; x00]) in
  zlen (unread r.1) <= 4 + 16 ∧
  zlen (GrpcMessageScanner.buf_ r.1) <= 4 + 16 + Z.max 65535 (4 + 16).
Proof.
  refine (@scanner_buffer_bounded size_t64 (GrpcMessageScanner.new_scanner 16)
    (grpc_frame (bs "hello") ++ [x00; x00]) [bs "hello"] _ _ _ _ _ _).
  - by apply new_scanner_ok.
  - by left.
  - vm_compute. reflexivity.
  - vm_compute. reflexivity.
  - vm_compute. reflexivity.
Defined.

Lemma feed_loop_terminates_witness :
  ∃ v, @GrpcMessageScanner.feed_loop size_t32 (S (length (concat sample_chunks))) 16
         (concat sample_chunks) 0 = Some v.
Proof.
  apply (@feed_loop_terminates size_t32 16 (concat sample_chunks) 0); vm_compute;
    intuition congruence.
Defined.

(** C28: the bound is needed.  With a 32-bit [size_t] and a [max_message_size] that
    admits it, a header announcing 2^32 - 5 bytes makes [5 + msg_len] wrap to zero
    and the loop of [Feed] never leaves the frame, whatever the fuel. *)
Theorem feed_loop_diverges_without_bound (fuel : nat) :
  @GrpcMessageScanner.feed_loop size_t32 fuel (2 ^ 32 - 1) [x00; xff; xff; xff; xfb] 0 = None.
Proof.
  induction fuel as [|fuel IH]; [done|]. rewrite <- IH at 1. reflexivity.
Qed.

(** [ParseGrpcStatus] accepts exactly the strings of one to ten digits; the
    codes up to 16 are mapped to their enumerator and larger numbers to UNKNOWN. *)
Theorem ParseGrpcStatus_spec (value : bytes) :
  ParseGrpcStatus value =
  if bool_decide (1 <= zlen value <= 10) && forallb is_digit value
  then Some (if dec_value value <=? 16 then status_of_value (dec_value value) else kUnknown)
  else None.
Proof.
  unfold ParseGrpcStatus. pose proof (zlen_nonneg value).
  destruct (Z.eqb_spec (zlen value) 0); [rewrite bool_decide_eq_false_2 by lia; done|].
  destruct (Z.ltb_spec 10 (zlen value)); [rewrite bool_decide_eq_false_2 by lia; done|].
  rewrite bool_decide_eq_true_2 by lia. simpl. destruct (forallb is_digit value) eqn:E.
  - by rewrite parse_status_loop_digits by (by apply forallb_true_Forall).
  - rewrite parse_status_loop_bad; [done|]. by apply forallb_false_Exists.
Qed.

(** A status code printed in decimal in a [grpc-status] trailer is parsed back. *)
Theorem ParseGrpcStatus_roundtrip (c : StatusCode) :
  ParseGrpcStatus (to_string (status_value c)) = Some c.
Proof. by destruct c. Qed.

(** The protocol's timeout units, by suffix: hours, minutes, seconds, milliseconds,
    microseconds and nanoseconds, in nanoseconds. *)
Definition unit_nanos (suffix : byte) : option Z :=
  match suffix with
  | "H"%byte => Some (60 * 60 * 10 ^ 9)
  | "M"%byte => Some (60 * 10 ^ 9)
  | "S"%byte => Some (10 ^ 9)
  | "m"%byte => Some (10 ^ 6)
  | "u"%byte => Some (10 ^ 3)
  | "n"%byte => Some 1
  | _ => None
  end.

Lemma unit_nanos_values suffix n :
  unit_nanos suffix = Some n → n ∈ [1; 10 ^ 3; 10 ^ 6; 10 ^ 9; 60 * 10 ^ 9; 60 * 60 * 10 ^ 9].
Proof. destruct suffix; cbn [unit_nanos]; try done; intros [= <-]; set_solver. Qed.

(** The table of the code holds the protocol's units, each before the coarser ones. *)
Lemma kUnits_at pre suffix nanos post :
  kUnits = pre ++ (suffix, nanos) :: post →
  unit_nanos suffix = Some nanos ∧ 0 < nanos ∧
  ∀ finer n, unit_nanos finer = Some n → n < nanos → ∃ f, (f, n) ∈ pre.
Proof.
  intros Hk. unfold kUnits in Hk.
  assert (Hall : unit_nanos suffix = Some nanos ∧ 0 < nanos ∧
    Forall (λ n, n < nanos → n ∈ pre.*2) [1; 10 ^ 3; 10 ^ 6; 10 ^ 9; 60 * 10 ^ 9; 60 * 60 * 10 ^ 9]).
  { do 6 (destruct pre as [|u0 pre];
      [injection Hk as <- <- _; split; [done|]; split; [done|];
       apply (bool_decide_unpack _); vm_compute; exact I
      |injection Hk as <- Hk]). by destruct pre. }
  destruct Hall as (H1 & H2 & Hf). split_and!; [done..|]. intros finer n Hn Hlt.
  apply unit_nanos_values in Hn. rewrite Forall_forall in Hf. specialize (Hf n Hn Hlt).
  apply list_elem_of_fmap in Hf as ([f m] & -> & Hin). by exists f.
Qed.

(** C29: for every positive timeout of the [int64] nanosecond clock the header
    value is a number of at most eight digits followed by a unit of the protocol, is
    not earlier than the timeout and less than one unit later, and eight digits of any
    finer unit would be too early (so the unit is the most precise one that fits, and
    the clamp to 99999999H is never used). *)
Theorem EncodeGrpcTimeout_spec (ns : Z) :
  0 < ns < 2 ^ 63 →
  ∃ value suffix nanos,
    EncodeGrpcTimeout ns = to_string value ++ [suffix] ∧
    dec_value (to_string value) = value ∧ zlen (to_string value) <= 8 ∧ value <= 99999999 ∧
    unit_nanos suffix = Some nanos ∧ ns <= value * nanos < ns + nanos ∧
    ∀ finer n, unit_nanos finer = Some n → n < nanos → 99999999 * n < ns.
Proof.
  intros Hns. unfold EncodeGrpcTimeout. destruct (Z.leb_spec ns 0); [lia|].
  destruct (encode_timeout_loop_first ns kUnits)
    as [(pre & suffix & nanos & post & Hk & Hpre & Hv & ->)|Hall].
  - destruct (kUnits_at _ _ _ _ Hk) as (Hu & Hn & Hfiner). unfold kMaxTimeoutDigitsValue in *.
    exists (units_rounded_up ns nanos), suffix, nanos. split; [done|].
    pose proof (units_rounded_up_spec ns nanos ltac:(lia) Hn) as Hr.
    assert (0 <= units_rounded_up ns nanos) by nia.
    destruct (to_string_spec (units_rounded_up ns nanos)) as (_ & Hd & _ & Hk'); [done|].
    split_and!; try done; try lia; [apply Hk'; lia|].
    intros finer n Hf Hlt. destruct (Hfiner finer n Hf Hlt) as [f Hin].
    rewrite Forall_forall in Hpre. specialize (Hpre _ Hin). cbn [snd] in Hpre.
    apply unit_nanos_values in Hf. assert (0 < n) by (set_solver by lia).
    pose proof (units_rounded_up_spec ns n ltac:(lia) ltac:(lia)). nia.
  - exfalso. rewrite Forall_forall in Hall.
    specialize (Hall ("H"%byte, 3600000000000) ltac:(set_solver)). simpl in Hall.
    pose proof (units_rounded_up_spec ns 3600000000000). unfold kMaxTimeoutDigitsValue in Hall. lia.
Qed.

Lemma EncodeGrpcTimeout_spec_witness :
  ∃ value suffix nanos,
    EncodeGrpcTimeout 100000001 = to_string value ++ [suffix] ∧
    dec_value (to_string value) = value ∧ zlen (to_string value) <= 8 ∧ value <= 99999999 ∧
    unit_nanos suffix = Some nanos ∧ 100000001 <= value * nanos < 100000001 + nanos ∧
    ∀ finer n, unit_nanos finer = Some n → n < nanos → 99999999 * n < 100000001.
Proof. apply (EncodeGrpcTimeout_spec 100000001). lia. Defined.

(** Percent-decoding inverts every percent-encoding that escapes at least the
    percent sign itself, for arbitrary byte strings. *)
Theorem PercentDecode_roundtrip (safe : byte → bool) (s : bytes) :
  safe "%"%byte = false → PercentDecode (percent_encode safe s) = s.
Proof. apply percent_decode_encode. Qed.

Lemma PercentDecode_roundtrip_witness :
  PercentDecode (percent_encode (in_range " " "$") (bs "50% of x%zz")) = bs "50% of x%zz".
Proof. apply (PercentDecode_roundtrip (in_range " " "$") (bs "50% of x%zz")). reflexivity. Defined.

(** C30: [Base64Encode] writes the one text that RFC 4648 gives to a byte string, without
    padding, and [Base64Decode] reads that text back, whatever padding follows it. *)
Theorem Base64_roundtrip (s t : bytes) (k : nat) :
  (base64_of s t ↔ t = Base64Encode s) ∧
  Base64Decode (Base64Encode s ++ replicate k "="%byte) = Some s.
Proof.
  split; [|apply Base64Decode_padded].
  split; [apply base64_of_encode|]. intros ->. apply Base64Encode_bits.
Qed.
