(* ===== verification/StringRef.v ===== *)
(** * [grpc::string_ref] and [std::multimap] ([include/grpcpp/support/string_ref.h])

    A [string_ref] is modelled by the bytes it views.  [size_t] has the width of the
    platform; [npos] is its largest value.  The second part is the ordered multimap of
    the standard library with the order of [operator<], which [ClientContext] stores
    metadata in. *)

From Stdlib Require Import ZArith Lia.
From Stdlib Require Import Strings.String Strings.Byte.
From stdpp Require Import base numbers list sorting sets.
From S2P Require Import Prelude GrpcWire.

Local Open Scope Z_scope.
Local Open Scope egrpc_scope.

Module StringRef.

(** ** Members *)

(** The sign of [std::memcmp] on the first [n] bytes. *)
Fixpoint memcmp (x y : bytes) (n : nat) {struct n} : Z :=
  match n, x, y with
  | S n, a :: x, b :: y =>
      if b2z a <? b2z b then -1 else if b2z b <? b2z a then 1 else memcmp x y n
  | _, _, _ => 0
  end.

Definition compare (x y : bytes) : Z :=
  let min_size := if zlen x <? zlen y then zlen x else zlen y in
  let r := if min_size =? 0 then 0 else memcmp x y (Z.to_nat min_size) in
  if negb (r =? 0) then r
  else if zlen x <? zlen y then -1
  else if zlen y <? zlen x then 1
  else 0.

Definition substr (pos n : Z) (s : bytes) : bytes :=
  if zlen s <? pos then []
  else
    let n := if zlen s - pos <? n then zlen s - pos else n in
    zsubstr pos n s.

Definition starts_with (x s : bytes) : bool :=
  (zlen x <=? zlen s) && (compare (substr 0 (zlen x) s) x =? 0).

Definition ends_with (x s : bytes) : bool :=
  (zlen x <=? zlen s) && (compare (substr (zlen s - zlen x) (zlen x) s) x =? 0).

(** The relational operators. *)
Definition ref_eq (x y : bytes) : bool := compare x y =? 0.
Definition ref_lt (x y : bytes) : bool := compare x y <? 0.
Definition ref_le (x y : bytes) : bool := compare x y <=? 0.

Section Find.
Context `{SZ : SizeT}.

Definition npos : Z := 2 ^ size_bits - 1.

(** The loop of [find(string_ref)] from index [i]; a string has fewer than [fuel]
    indices left. *)
Fixpoint find_loop (fuel : nat) (i : Z) (x s : bytes) : Z :=
  match fuel with
  | O => npos
  | S fuel =>
      if (i +sz zlen x) <=? zlen s
      then if compare (substr i (zlen x) s) x =? 0 then i else find_loop fuel (i + 1) x s
      else npos
  end.

Definition find (x s : bytes) : Z :=
  if zlen s <? zlen x then npos else find_loop (S (S (length s))) 0 x s.

(** [find(char)]. *)
Fixpoint find_char_loop (i : Z) (c : byte) (s : bytes) : Z :=
  match s with
  | [] => npos
  | b :: s => if bool_decide (b = c) then i else find_char_loop (i + 1) c s
  end.

Definition find_char (c : byte) (s : bytes) : Z := find_char_loop 0 c s.

End Find.

(** ** The order *)

(** Lexicographic order of unsigned bytes, the reference. *)
Inductive lex : bytes → bytes → Prop :=
  | lex_nil b y : lex [] (b :: y)
  | lex_head a b x y : b2z a < b2z b → lex (a :: x) (b :: y)
  | lex_tail a x y : lex x y → lex (a :: x) (a :: y).

#[export] Instance lex_strict : StrictOrder lex.
Proof.
  split.
  - intros x. induction x as [|a x IH]; intros H; inversion H; subst; [lia|by apply IH].
  - intros x y z H. revert z. induction H as [b y|a b x y Hab|a x y H IH]; intros z Hz; inversion Hz; subst.
    + constructor.
    + constructor.
    + apply lex_head. lia.
    + by apply lex_head.
    + by apply lex_head.
    + apply lex_tail. by apply IH.
Qed.

Lemma lex_total x y : lex x y ∨ x = y ∨ lex y x.
Proof.
  revert y. induction x as [|a x IH]; intros [|b y]; [auto|left; constructor|do 2 right; constructor|].
  destruct (Z.lt_trichotomy (b2z a) (b2z b)) as [H|[H|H]].
  - left. by constructor.
  - apply b2z_inj in H as ->. destruct (IH y) as [?|[->|?]]; [left; by constructor|auto|].
    do 2 right. by constructor.
  - do 2 right. by constructor.
Qed.

(** [compare] without the lengths. *)
Fixpoint cmp (x y : bytes) : Z :=
  match x, y with
  | [], [] => 0
  | [], _ => -1
  | _, [] => 1
  | a :: x, b :: y => if b2z a <? b2z b then -1 else if b2z b <? b2z a then 1 else cmp x y
  end.

Lemma compare_cons a b x y :
  compare (a :: x) (b :: y) = if b2z a <? b2z b then -1 else if b2z b <? b2z a then 1 else compare x y.
Proof.
  unfold compare. rewrite !zlen_cons. pose proof (zlen_nonneg x). pose proof (zlen_nonneg y).
  replace (1 + zlen x <? 1 + zlen y) with (zlen x <? zlen y)
    by (destruct (Z.ltb_spec (zlen x) (zlen y)), (Z.ltb_spec (1 + zlen x) (1 + zlen y)); lia || done).
  replace (1 + zlen y <? 1 + zlen x) with (zlen y <? zlen x)
    by (destruct (Z.ltb_spec (zlen y) (zlen x)), (Z.ltb_spec (1 + zlen y) (1 + zlen x)); lia || done).
  set (m := if zlen x <? zlen y then zlen x else zlen y).
  assert (Hm : (if zlen x <? zlen y then 1 + zlen x else 1 + zlen y) = 1 + m) by (unfold m; by case_test).
  assert (0 <= m) by (unfold m; case_test; lia). rewrite Hm.
  destruct (Z.eqb_spec (1 + m) 0); [lia|]. replace (Z.to_nat (1 + m)) with (S (Z.to_nat m)) by lia.
  cbn [memcmp]. destruct (Z.ltb_spec (b2z a) (b2z b)); [done|].
  destruct (Z.ltb_spec (b2z b) (b2z a)); [done|].
  destruct (Z.eqb_spec m 0) as [Em|]; [|done]. by rewrite Em.
Qed.

Lemma compare_cmp x y : compare x y = cmp x y.
Proof.
  revert y. induction x as [|a x IH]; intros [|b y]; [done| | |].
  - unfold compare. rewrite (zlen_nil (A := byte)), zlen_cons. pose proof (zlen_nonneg y).
    destruct (Z.ltb_spec 0 (1 + zlen y)); [done|lia].
  - unfold compare. rewrite (zlen_nil (A := byte)), zlen_cons. pose proof (zlen_nonneg x).
    destruct (Z.ltb_spec (1 + zlen x) 0); [lia|]. simpl. destruct (Z.ltb_spec 0 (1 + zlen x)); [done|lia].
  - rewrite compare_cons, IH. done.
Qed.

Lemma cmp_lex x y : (cmp x y < 0 ↔ lex x y) ∧ (cmp x y = 0 ↔ x = y) ∧ (0 < cmp x y ↔ lex y x).
Proof.
  revert y. induction x as [|a x IH]; intros [|b y]; cbn [cmp].
  - split_and!; split; try done; try lia; by inversion 1.
  - split_and!; split; try done; try lia; [constructor|by inversion 1].
  - split_and!; split; try done; try lia; [by inversion 1|constructor].
  - destruct (IH y) as (H1 & H2 & H3).
    destruct (Z.ltb_spec (b2z a) (b2z b)); [|destruct (Z.ltb_spec (b2z b) (b2z a))].
    + split_and!; split; try lia; try (intros _; by constructor); try (intros [= ->]; lia).
      inversion 1; subst; lia.
    + split_and!; split; try lia; try (intros _; by constructor); try (intros [= ->]; lia).
      inversion 1; subst; lia.
    + assert (a = b) as -> by (apply b2z_inj; lia).
      split_and!; split; rewrite ?H1, ?H2, ?H3; try (by constructor); try congruence;
        inversion 1; subst; lia || done.
Qed.

Lemma compare_eq_0 x y : compare x y = 0 ↔ x = y.
Proof. rewrite compare_cmp. apply cmp_lex. Qed.

Lemma ref_lt_lex x y : ref_lt x y = true ↔ lex x y.
Proof. unfold ref_lt. rewrite Z.ltb_lt, compare_cmp. apply cmp_lex. Qed.

(** ** Searching *)

Lemma substr_zsubstr pos n s : 0 <= pos → 0 <= n → substr pos n s = zsubstr pos n s.
Proof.
  intros Hp Hn. unfold substr, zsubstr. destruct (Z.ltb_spec (zlen s) pos).
  - rewrite drop_ge by (unfold zlen in *; lia). by rewrite take_nil.
  - destruct (Z.ltb_spec (zlen s - pos) n); [|done].
    rewrite !take_ge; [done|..]; rewrite length_drop; unfold zlen in *; lia.
Qed.

(** [x] is found in [s] at [i]. *)
Definition occurs (x s : bytes) (i : Z) : Prop :=
  0 <= i ∧ i + zlen x <= zlen s ∧ zsubstr i (zlen x) s = x.

Lemma starts_with_prefix x s : starts_with x s = true ↔ x `prefix_of` s.
Proof.
  pose proof (zlen_nonneg x). unfold starts_with. rewrite andb_true_iff, Z.leb_le, Z.eqb_eq.
  rewrite compare_eq_0, substr_zsubstr by lia. split.
  - intros [_ <-]. unfold zsubstr. simpl. apply prefix_take.
  - intros [k ->]. rewrite zlen_app, zsubstr_0_app. pose proof (zlen_nonneg k). split; [lia|done].
Qed.

Lemma ends_with_suffix x s : ends_with x s = true ↔ x `suffix_of` s.
Proof.
  pose proof (zlen_nonneg x). unfold ends_with. rewrite andb_true_iff, Z.leb_le, Z.eqb_eq, compare_eq_0.
  split.
  - intros [Hle Heq]. rewrite substr_zsubstr in Heq by lia. unfold zsubstr in Heq.
    rewrite take_ge in Heq by (rewrite length_drop; unfold zlen in *; lia).
    exists (take (Z.to_nat (zlen s - zlen x)) s). rewrite <- Heq at 2. by rewrite take_drop.
  - intros [k ->]. rewrite zlen_app. pose proof (zlen_nonneg k). split; [lia|].
    replace (zlen k + zlen x - zlen x) with (zlen k) by lia. rewrite substr_zsubstr by lia.
    unfold zsubstr. rewrite drop_zlen_app. apply take_ge. unfold zlen. lia.
Qed.

Section FindSpec.
Context `{SZ : SizeT}.

Lemma find_loop_spec fuel i x s :
  zlen s < npos → 0 <= i <= zlen s - zlen x + 1 → zlen s + 1 < i + Z.of_nat fuel →
  (∀ j, occurs x s j → i <= j) →
  let r := find_loop fuel i x s in
  (r = npos ∧ ∀ j, ¬ occurs x s j) ∨ (r < npos ∧ occurs x s r ∧ ∀ j, occurs x s j → r <= j).
Proof.
  intros Hs. revert i. induction fuel as [|fuel IH]; intros i Hi Hf Hmin; cbn [find_loop].
  { pose proof (zlen_nonneg x). lia. }
  pose proof (zlen_nonneg x). unfold size_add. rewrite Z.mod_small by (unfold npos in Hs; lia).
  destruct (Z.leb_spec (i + zlen x) (zlen s)) as [Hle|Hgt].
  - destruct (Z.eqb_spec (compare (substr i (zlen x) s) x) 0) as [He|Hne].
    + right. apply compare_eq_0 in He. rewrite substr_zsubstr in He by lia.
      split; [lia|]. split; [split; [lia|by split]|done].
    + apply IH; try lia. intros j Hj. specialize (Hmin j Hj).
      destruct (Z.eq_dec i j) as [->|]; [|lia]. destruct Hne. apply compare_eq_0.
      destruct Hj as (? & ? & ?). by rewrite substr_zsubstr by lia.
  - left. split; [done|]. intros j Hj. specialize (Hmin j Hj). destruct Hj as (? & ? & _). lia.
Qed.

Lemma find_spec x s :
  zlen s < npos →
  (find x s = npos ∧ ∀ j, ¬ occurs x s j) ∨
  (find x s < npos ∧ occurs x s (find x s) ∧ ∀ j, occurs x s j → find x s <= j).
Proof.
  intros Hs. unfold find. destruct (Z.ltb_spec (zlen s) (zlen x)) as [Hlt|Hge].
  - left. split; [done|]. intros j (? & ? & _). lia.
  - apply find_loop_spec; [done|lia|unfold zlen; lia|]. by intros j (? & _).
Qed.

End FindSpec.

(** [compare] is the lexicographic order of unsigned bytes, in which a proper prefix
    comes first: negative, zero and positive exactly when the first view is below, equal
    to and above the second, so [operator<] is a strict total order with [operator==] as
    its equivalence, which is what the keys of a [std::multimap] must have. *)
Theorem string_ref_compare_lex x y :
  (compare x y < 0 ↔ lex x y) ∧ (compare x y = 0 ↔ x = y) ∧ (0 < compare x y ↔ lex y x) ∧
  (ref_lt x y = true ↔ lex x y) ∧ (ref_eq x y = true ↔ x = y) ∧ (ref_le x y = true ↔ ¬ lex y x).
Proof.
  unfold ref_eq, ref_le. rewrite ref_lt_lex, Z.eqb_eq, Z.leb_le, compare_cmp.
  destruct (cmp_lex x y) as (H1 & H2 & H3). split_and!; try done. rewrite <- H3. lia.
Qed.

(** Searching a view of fewer than [npos] bytes: [find] returns the least index at
    which the pattern occurs and [npos] exactly when there is none (no index computation
    wraps), and [starts_with] and [ends_with] hold exactly for prefixes and suffixes. *)
Theorem string_ref_search `{SZ : SizeT} x s :
  zlen s < npos →
  ((find x s = npos ∧ ∀ j, ¬ occurs x s j) ∨
   (find x s < npos ∧ occurs x s (find x s) ∧ ∀ j, occurs x s j → find x s <= j)) ∧
  (starts_with x s = true ↔ x `prefix_of` s) ∧ (ends_with x s = true ↔ x `suffix_of` s).
Proof.
  intros Hs. split_and!; [by apply find_spec|apply starts_with_prefix|apply ends_with_suffix].
Qed.

End StringRef.

(** ** The ordered multimap *)

Module MultiMap.
Import StringRef.

(** [emplace]: after every element whose key is not greater. *)
Fixpoint emplace {V : Type} (k : bytes) (v : V) (m : list (bytes * V)) : list (bytes * V) :=
  match m with
  | [] => [(k, v)]
  | (k', v') :: m => if ref_lt k k' then (k, v) :: (k', v') :: m else (k', v') :: emplace k v m
  end.

(** [find]: the first element with an equivalent key, as libstdc++'s and libc++'s [find]
    return it; the standard leaves open which of several is found. *)
Definition mfind {V : Type} (k : bytes) (m : list (bytes * V)) : option V :=
  match list_find (λ kv, kv.1 = k) m with Some (_, (_, v)) => Some v | None => None end.

(** The elements with key [k], in their order. *)
Definition values {V : Type} (k : bytes) (m : list (bytes * V)) : list V :=
  (filter (λ kv, kv.1 = k) m).*2.

(** Keys in order. *)
Definition ordered {V : Type} (m : list (bytes * V)) : Prop := StronglySorted (λ a b, ¬ lex b.1 a.1) m.

Section Lemmas.
Context {V : Type}.
Implicit Types m : list (bytes * V).

Lemma values_emplace k v m j :
  ordered m → values j (emplace k v m) = values j m ++ (if bool_decide (j = k) then [v] else []).
Proof.
  intros Hm. unfold values. induction Hm as [|[k' v'] m Hm IH Hall]; cbn [emplace].
  { rewrite filter_cons, filter_nil. simpl. destruct (decide (k = j)) as [->|Hne].
    - by rewrite bool_decide_eq_true_2.
    - by rewrite bool_decide_eq_false_2. }
  destruct (ref_lt k k') eqn:Hlt.
  - apply ref_lt_lex in Hlt. rewrite filter_cons. simpl. destruct (decide (k = j)) as [->|Hne].
    + rewrite bool_decide_eq_true_2 by done.
      assert (Hnone : filter (λ kv : bytes * V, kv.1 = j) ((k', v') :: m) = []).
      { rewrite filter_cons_False by (simpl; intros ->; by apply (irreflexivity lex j)).
        destruct (filter _ m) as [|[k2 v2] l] eqn:Hf; [done|].
        assert (Hin : (k2, v2) ∈ filter (λ kv : bytes * V, kv.1 = j) m) by (rewrite Hf; left).
        apply list_elem_of_filter in Hin as [Hk Hin]. simpl in Hk. subst k2.
        rewrite Forall_forall in Hall. by destruct (Hall (j, v2) Hin). }
      by rewrite Hnone.
    + by rewrite bool_decide_eq_false_2, app_nil_r by done.
  - rewrite !filter_cons. cbn [fst]. destruct (decide (k' = j)); rewrite ?fmap_cons, IH; done.
Qed.

Lemma emplace_elem k v m x : x ∈ emplace k v m ↔ x = (k, v) ∨ x ∈ m.
Proof.
  induction m as [|[k' v'] m IH]; cbn [emplace]; [set_solver|]. destruct (ref_lt k k'); set_solver.
Qed.

Lemma emplace_ordered k v m : ordered m → ordered (emplace k v m).
Proof.
  intros Hm. induction Hm as [|[k' v'] m Hm IH Hall]; cbn [emplace].
  { repeat constructor. }
  destruct (ref_lt k k') eqn:Hlt.
  - apply ref_lt_lex in Hlt. constructor; [by constructor|]. constructor; simpl.
    + intros H. apply (irreflexivity lex k). by transitivity k'.
    + eapply Forall_impl; [done|]. intros [k2 v2] H H2. simpl in *. apply H. by transitivity k.
  - constructor; [done|]. apply Forall_forall. intros x [->|Hx]%emplace_elem.
    + simpl. intros H. apply ref_lt_lex in H. congruence.
    + rewrite Forall_forall in Hall. by apply Hall.
Qed.

Lemma mfind_values k m : mfind k m = head (values k m).
Proof.
  unfold mfind, values. induction m as [|[k' v'] m IH]; [done|]. rewrite filter_cons. simpl.
  destruct (decide (k' = k)); [done|]. rewrite <- IH. by destruct (list_find _ m) as [[? []]|].
Qed.

End Lemmas.
End MultiMap.

(** ** Witnesses *)

Module StringRefWitness.
Import StringRef.

Lemma string_ref_search_witness :
  zlen (bs "details-bin") < @npos size_t64 ∧ @find size_t64 (bs "-bin") (bs "details-bin") = 7 ∧
  (starts_with (bs "grpc-") (bs "details-bin") = true ↔ bs "grpc-" `prefix_of` bs "details-bin").
Proof.
  split; [vm_compute; reflexivity|]. split; [vm_compute; reflexivity|].
  apply (@string_ref_search size_t64 (bs "grpc-") (bs "details-bin")). vm_compute. reflexivity.
Defined.

End StringRefWitness.
