(* ===== verification/StdHeap.v ===== *)
(** * [std::push_heap] and [std::pop_heap]

    The contract of the two [<algorithm>] functions the timer heap uses, as a
    class over a strict weak order, and a binary heap over lists that fulfils it.
    The C++ standard fixes the heap property and leaves the algorithm open;
    clients are proved against the class. *)

From Stdlib Require Import ZArith Lia.
From stdpp Require Import base numbers list.
From S2P Require Import Prelude.

Local Open Scope nat_scope.

Section Contract.
Context {A : Type} (comp : A → A → bool).

(** The requirement on a comparison passed to the heap functions. *)
Class StrictWeak : Prop := {
  comp_asym a b : comp a b = true → comp b a = false;
  comp_negtrans a b c : comp a b = false → comp b c = false → comp a c = false;
}.

Definition parent (i : nat) : nat := (i - 1) / 2.

(** The element at [i] does not compare below the element at [j]. *)
Definition hle (l : list A) (i j : nat) : Prop :=
  ∀ x y, l !! i = Some x → l !! j = Some y → comp x y = false.

(** [std::is_heap]: no element compares above its parent. *)
Definition is_heap (l : list A) : Prop := ∀ i, 0 < i → hle l (parent i) i.

(** The contract: [push_heap] after [push_back], and [pop_heap] moving the front
    to the back, both leaving a heap. *)
Class StdHeap := {
  push_heap : list A → list A;
  pop_heap : list A → list A;
  push_heap_perm l : push_heap l ≡ₚ l;
  push_heap_heap l x : is_heap l → is_heap (push_heap (l ++ [x]));
  pop_heap_spec x l : is_heap (x :: l) →
    ∃ l', pop_heap (x :: l) = l' ++ [x] ∧ l' ≡ₚ l ∧ is_heap l';
}.

End Contract.

Arguments push_heap {A comp _} l.
Arguments pop_heap {A comp _} l.
Arguments push_heap_perm {A comp _} l.

(** ** A binary heap *)

Section BinaryHeap.
Context {A : Type} (comp : A → A → bool).

Definition swap (l : list A) (i j : nat) : list A :=
  match l !! i, l !! j with
  | Some x, Some y => <[i := y]> (<[j := x]> l)
  | _, _ => l
  end.

(** [comp l[i] l[j]], false out of range. *)
Definition comp_at (l : list A) (i j : nat) : bool :=
  match l !! i, l !! j with Some x, Some y => comp x y | _, _ => false end.

Fixpoint sift_up (fuel : nat) (l : list A) (k : nat) : list A :=
  match fuel with
  | O => l
  | S fuel' =>
      if k =? 0 then l
      else if comp_at l (parent k) k then sift_up fuel' (swap l (parent k) k) (parent k)
      else l
  end.

Definition larger_child (l : list A) (k : nat) : nat :=
  if comp_at l (2 * k + 1) (2 * k + 2) then 2 * k + 2 else 2 * k + 1.

Fixpoint sift_down (fuel : nat) (l : list A) (k : nat) : list A :=
  match fuel with
  | O => l
  | S fuel' =>
      let c := larger_child l k in
      if comp_at l k c then sift_down fuel' (swap l k c) c else l
  end.

Definition bin_push_heap (l : list A) : list A := sift_up (length l) l (length l - 1).

Definition bin_pop_heap (l : list A) : list A :=
  match l with
  | [] => []
  | x :: rest =>
      match last rest with
      | None => [x]
      | Some y =>
          sift_down (length rest) (y :: take (length rest - 1) rest) 0 ++ [x]
      end
  end.

End BinaryHeap.

(** ** Index lemmas *)

Lemma parent_lt i : 0 < i → parent i < i.
Proof. unfold parent. intros. apply Nat.Div0.div_lt_upper_bound. lia. Qed.

Lemma parent_child i k : 0 < i → parent i = k ↔ i = 2 * k + 1 ∨ i = 2 * k + 2.
Proof.
  unfold parent. intros Hi. split.
  - intros <-. pose proof (Nat.div_mod_eq (i - 1) 2). pose proof (Nat.mod_upper_bound (i - 1) 2). lia.
  - intros [->| ->].
    + replace (2 * k + 1 - 1) with (k * 2) by lia. by rewrite Nat.div_mul.
    + replace (2 * k + 2 - 1) with (1 + k * 2) by lia. by rewrite Nat.div_add.
Qed.

Section BinaryHeapFacts.
Context {A : Type} (comp : A → A → bool) {SW : StrictWeak comp}.
Implicit Types l : list A.

Abbreviation hle := (hle comp).
Abbreviation is_heap := (is_heap comp).

Lemma length_swap l i j : length (swap l i j) = length l.
Proof. unfold swap. repeat case_match; rewrite ?length_insert; done. Qed.

Lemma lookup_swap l i j k :
  i < length l → j < length l →
  swap l i j !! k = if decide (k = i) then l !! j else if decide (k = j) then l !! i else l !! k.
Proof.
  intros Hi Hj. unfold swap.
  destruct (lookup_lt_is_Some_2 l i Hi) as [x Hx]. destruct (lookup_lt_is_Some_2 l j Hj) as [y Hy].
  rewrite Hx, Hy. rewrite !list_lookup_insert, !length_insert.
  repeat case_decide; subst; naive_solver.
Qed.

Lemma swap_perm l i j : swap l i j ≡ₚ l.
Proof.
  unfold swap. destruct (l !! i) as [x|] eqn:Hi, (l !! j) as [y|] eqn:Hj; try done.
  destruct (decide (i = j)) as [->|Hne].
  { simplify_eq. by rewrite list_insert_insert_eq, list_insert_id. }
  symmetry. apply Permutation_inj. split; [by rewrite !length_insert|].
  exists (λ k, if decide (k = i) then j else if decide (k = j) then i else k). split.
  - intros a b. repeat case_decide; congruence.
  - intros k. pose proof (lookup_lt_Some _ _ _ Hi). pose proof (lookup_lt_Some _ _ _ Hj).
    rewrite !list_lookup_insert, !length_insert. repeat case_decide; subst; naive_solver.
Qed.

Lemma hle_trans l i j k : j < length l → hle l i j → hle l j k → hle l i k.
Proof.
  intros Hj Hij Hjk x z Hx Hz. destruct (lookup_lt_is_Some_2 l j Hj) as [y Hy].
  eapply comp_negtrans; eauto.
Qed.

Lemma hle_refl l i : hle l i i.
Proof.
  intros x y Hx Hy. assert (x = y) as -> by congruence.
  destruct (comp y y) eqn:E; [|done]. pose proof (comp_asym _ _ _ E). congruence.
Qed.

Lemma comp_at_false l i j : comp_at comp l i j = false → hle l i j.
Proof. unfold comp_at. intros H x y Hx Hy. by rewrite Hx, Hy in H. Qed.

Lemma comp_at_true l i j :
  comp_at comp l i j = true → i < length l ∧ j < length l ∧ hle l j i.
Proof.
  unfold comp_at. destruct (l !! i) as [x|] eqn:Hx; [|done].
  destruct (l !! j) as [y|] eqn:Hy; [|done]. intros Hc.
  split_and!; [by eapply lookup_lt_Some..|]. intros y' x' Hy' Hx'. simplify_eq.
  by apply comp_asym.
Qed.

(** Rewrite the lookups of a swapped list and decide the indices. *)
Ltac swap_cases :=
  let x := fresh "x" in let y := fresh "y" in
  intros x y; rewrite !lookup_swap by done; repeat case_decide; subst; try lia.

(** A heap but for the element at [k], which may compare above its parent. *)
Definition up_ok (l : list A) (k : nat) : Prop :=
  (∀ i, 0 < i → i ≠ k → hle l (parent i) i) ∧
  (∀ i, 0 < i → parent i = k → 0 < k → hle l (parent k) i).

Lemma up_ok_step l k :
  up_ok l k → 0 < k → comp_at comp l (parent k) k = true → up_ok (swap l (parent k) k) (parent k).
Proof.
  intros [Hheap Hgrand] Hk Hc. apply comp_at_true in Hc as (Hp & Hkl & Hle).
  pose proof (parent_lt k Hk) as Hpk. split.
  - intros i Hi Hne. pose proof (parent_lt i Hi) as Hpi.
    destruct (decide (i = k)) as [->|Hik]; [swap_cases; auto|].
    destruct (decide (parent i = k)) as [Hpik|Hpik].
    + rewrite Hpik. swap_cases. by apply Hgrand.
    + destruct (decide (parent i = parent k)) as [E|E].
      * rewrite E. swap_cases. eapply (hle_trans l k (parent k) i); eauto.
        rewrite <- E. by apply Hheap.
      * swap_cases. by apply Hheap.
  - intros i Hi Hpi Hp0. pose proof (parent_lt (parent k) Hp0) as Hpp.
    pose proof (parent_lt i Hi).
    assert (Hup : hle l (parent (parent k)) (parent k)) by (apply Hheap; lia).
    destruct (decide (i = k)) as [->|Hik]; swap_cases; [by apply Hup|].
    eapply (hle_trans l (parent (parent k)) (parent k) i); eauto. rewrite <- Hpi. by apply Hheap.
Qed.

Lemma sift_up_heap fuel l k : up_ok l k → k <= fuel → is_heap (sift_up comp fuel l k).
Proof.
  revert l k. induction fuel as [|fuel IH]; intros l k Hok Hf; cbn [sift_up].
  - intros i Hi. apply Hok; lia.
  - destruct (Nat.eqb_spec k 0) as [->|Hk]; [intros i Hi; apply Hok; lia|].
    destruct (comp_at comp l (parent k) k) eqn:Hc.
    + apply IH; [apply up_ok_step; auto with lia|]. pose proof (parent_lt k). lia.
    + intros i Hi. destruct (decide (i = k)) as [->|]; [by apply comp_at_false|].
      by apply Hok.
Qed.

Lemma sift_up_perm fuel l k : sift_up comp fuel l k ≡ₚ l.
Proof.
  revert l k. induction fuel as [|fuel IH]; intros l k; cbn [sift_up]; [done|].
  repeat case_match; try done. by rewrite IH, swap_perm.
Qed.

(** A heap but for the element at [k], which may compare below its children. *)
Definition down_ok (l : list A) (k : nat) : Prop :=
  (∀ i, 0 < i → parent i ≠ k → hle l (parent i) i) ∧
  (∀ i, 0 < i → parent i = k → 0 < k → hle l (parent k) i).

Lemma larger_child_spec l k i :
  0 < i → parent i = k → hle l (larger_child comp l k) i.
Proof.
  intros Hi Hp. unfold larger_child. apply parent_child in Hp; [|done].
  destruct (comp_at comp l (2 * k + 1) (2 * k + 2)) eqn:Hc; destruct Hp as [->| ->];
    auto using hle_refl.
  - by apply comp_at_true in Hc as (_ & _ & ?).
  - by apply comp_at_false.
Qed.

Lemma larger_child_parent l k :
  0 < larger_child comp l k ∧ parent (larger_child comp l k) = k.
Proof.
  unfold larger_child. destruct (comp_at _ _ _ _); (split; [lia|]); apply parent_child; lia.
Qed.

Lemma down_ok_step l k :
  down_ok l k → comp_at comp l k (larger_child comp l k) = true →
  down_ok (swap l k (larger_child comp l k)) (larger_child comp l k).
Proof.
  intros [Hheap Hgrand] Hc. destruct (larger_child_parent l k) as [Hc0 Hcp].
  pose proof (larger_child_spec l k) as Hbest.
  revert Hc Hc0 Hcp Hbest. generalize (larger_child comp l k) as c. intros c Hc Hc0 Hcp Hbest.
  apply comp_at_true in Hc as (Hkl & Hcl & Hle).
  pose proof (parent_lt c Hc0) as Hkc. rewrite Hcp in Hkc. split.
  - intros i Hi Hne. pose proof (parent_lt i Hi) as Hpi.
    destruct (decide (parent i = k)) as [Hpik|Hpik].
    + rewrite Hpik. destruct (decide (i = c)) as [->|]; swap_cases; [by apply Hle|].
      by apply Hbest.
    + destruct (decide (i = k)) as [->|Hik]; swap_cases; try (by apply Hheap); try congruence.
      by apply Hgrand.
  - intros i Hi Hpi _. pose proof (parent_lt i Hi). rewrite Hcp. swap_cases.
    eapply (Hheap i); eauto; lia.
Qed.

Lemma sift_down_heap fuel l k :
  down_ok l k → length l <= fuel + k → is_heap (sift_down comp fuel l k).
Proof.
  revert l k. induction fuel as [|fuel IH]; intros l k Hok Hf; cbn [sift_down].
  - intros i Hi. destruct (decide (parent i = k)) as [Hp|]; [|by apply Hok].
    intros x y _ Hy%lookup_lt_Some. pose proof (parent_lt i Hi). lia.
  - destruct (comp_at comp l k (larger_child comp l k)) eqn:Hc.
    + apply IH; [by apply down_ok_step|]. rewrite length_swap.
      destruct (larger_child_parent l k) as [Hc0 Hcp]. pose proof (parent_lt _ Hc0). lia.
    + intros i Hi. destruct (decide (parent i = k)) as [Hp|]; [|by apply Hok].
      rewrite Hp. intros x y Hx Hy.
      destruct (decide (larger_child comp l k < length l)) as [Hlt|Hge].
      * eapply (hle_trans l k (larger_child comp l k) i); eauto;
          [by apply comp_at_false|by apply larger_child_spec].
      * apply lookup_lt_Some in Hy. unfold larger_child in Hge.
        destruct (comp_at comp l (2 * k + 1) (2 * k + 2)) eqn:Hcc.
        { apply comp_at_true in Hcc. lia. }
        apply parent_child in Hp; lia.
Qed.

Lemma sift_down_perm fuel l k : sift_down comp fuel l k ≡ₚ l.
Proof.
  revert l k. induction fuel as [|fuel IH]; intros l k; cbn [sift_down]; [done|].
  case_match; [|done]. by rewrite IH, swap_perm.
Qed.

Lemma is_heap_prefix l k : is_heap (l ++ k) → is_heap l.
Proof.
  intros H i Hi x y Hx Hy. apply (H i Hi x y); by apply lookup_app_l_Some.
Qed.

Lemma bin_push_heap_heap l x : is_heap l → is_heap (bin_push_heap comp (l ++ [x])).
Proof.
  intros Hl. unfold bin_push_heap. rewrite length_app. simpl.
  apply sift_up_heap; [|lia]. replace (length l + 1 - 1) with (length l) by lia. split.
  - intros i Hi Hne y z Hy Hz. pose proof (parent_lt i Hi).
    assert (i < length l).
    { apply lookup_lt_Some in Hz. rewrite length_app in Hz. simpl in Hz. lia. }
    rewrite lookup_app_l in Hy, Hz by lia. by apply (Hl i Hi).
  - intros i Hi Hp _ y z _ Hz%lookup_lt_Some. rewrite length_app in Hz. simpl in Hz.
    pose proof (parent_lt i Hi). lia.
Qed.

Lemma bin_pop_heap_spec x l : is_heap (x :: l) →
  ∃ l', bin_pop_heap comp (x :: l) = l' ++ [x] ∧ l' ≡ₚ l ∧ is_heap l'.
Proof.
  intros Hl. cbn [bin_pop_heap]. destruct (last l) as [y|] eqn:Hlast.
  - apply last_Some in Hlast as [l0 ->]. rewrite length_app. simpl.
    replace (length l0 + 1 - 1) with (length l0) by lia. rewrite take_app_length.
    eexists. split; [done|]. split; [by rewrite sift_down_perm, Permutation_cons_append|].
    apply sift_down_heap; [|simpl; lia]. split; [|lia].
    intros i Hi Hp a b Ha Hb. destruct i as [|i]; [lia|].
    destruct (parent (S i)) as [|p] eqn:E; [lia|].
    apply (Hl (S i) Hi a b); [rewrite E|]; simpl in *; by apply lookup_app_l_Some.
  - apply last_None in Hlast as ->. exists []. by split_and!.
Qed.

(** The front of a heap: no element compares above it. *)
Lemma heap_front l x y : is_heap (x :: l) → y ∈ x :: l → comp x y = false.
Proof.
  intros Hh Hy. apply list_elem_of_lookup in Hy as [i Hi].
  assert (H : hle (x :: l) 0 i); [|by apply (H x y)].
  apply lookup_lt_Some in Hi as Hlt. clear Hi y. induction i as [i IH] using lt_wf_ind.
  destruct (decide (i = 0)) as [->|Hne].
  - apply hle_refl.
  - pose proof (parent_lt i ltac:(lia)) as Hp.
    eapply (hle_trans _ 0 (parent i) i); [|apply IH|apply Hh]; lia.
Qed.

#[export] Instance binary_heap : StdHeap comp := {|
  push_heap := bin_push_heap comp;
  pop_heap := bin_pop_heap comp;
  push_heap_perm l := sift_up_perm _ _ _;
  push_heap_heap := bin_push_heap_heap;
  pop_heap_spec := bin_pop_heap_spec;
|}.

End BinaryHeapFacts.
