(* ===== verification/TimerHeap.v ===== *)
(** * The timer heap ([src/transport/timer_heap.h], [src/transport/timer_heap.cc])

    A binary heap of (deadline, id) entries with lazy cancellation next to the map
    of pending callbacks.  The type of callbacks is a parameter, and so is the
    function that runs one: a callback works on the timer heap itself (it may call
    [Add] and [Cancel]) and on the rest of the program's state. *)

From Stdlib Require Import ZArith Lia.
From stdpp Require Import base numbers list gmap sorting.
From S2P Require Import Prelude StdHeap.

Local Open Scope Z_scope.

Module TimerHeap.

(** [Clock::time_point] in nanoseconds and [TimerId = uint64_t]. *)
Record Entry : Type := { deadline : Z; id : Z }.

Definition kInvalidTimerId : Z := 0.

(** [EntryLater::operator()]. *)
Definition EntryLater (a b : Entry) : bool :=
  if negb (deadline a =? deadline b) then deadline b <? deadline a
  else id b <? id a.

Record TimerHeap (Cb : Type) : Type := {
  heap_ : list Entry;
  callbacks_ : gmap Z Cb;
  next_id_ : Z;
}.
Arguments heap_ {Cb} _.
Arguments callbacks_ {Cb} _.
Arguments next_id_ {Cb} _.

(** How [RunDue] ends: it returns, dereferences [callbacks_.end()], or is still
    running when the fuel is used up. *)
Inductive Run (Cb W : Type) : Type :=
  | Ran (h : TimerHeap Cb) (w : W) (ran : Z)
  | BadDeref
  | OutOfFuel.
Arguments Ran {Cb W} h w ran.
Arguments BadDeref {Cb W}.
Arguments OutOfFuel {Cb W}.

Section Operations.
Context {Cb W : Type} `{SH : !StdHeap EntryLater}.

Definition new_timer_heap : TimerHeap Cb :=
  {| heap_ := []; callbacks_ := ∅; next_id_ := 1 |}.

(** [std::unordered_map::emplace] keeps an element that is already there. *)
Definition emplace (k : Z) (v : Cb) (m : gmap Z Cb) : gmap Z Cb :=
  match m !! k with Some _ => m | None => <[k := v]> m end.

Definition Add (h : TimerHeap Cb) (deadline : Z) (cb : Cb) : TimerHeap Cb * Z :=
  let id := next_id_ h in
  ({| heap_ := push_heap (heap_ h ++ [{| deadline := deadline; id := id |}]);
      callbacks_ := emplace id cb (callbacks_ h);
      next_id_ := (id + 1) mod 2 ^ 64 |}, id).

Definition Cancel (h : TimerHeap Cb) (id : Z) : TimerHeap Cb * bool :=
  ({| h with callbacks_ := delete id (callbacks_ h) |},
   match callbacks_ h !! id with Some _ => true | None => false end).

(** [std::pop_heap(...)] followed by [heap_.pop_back()]. *)
Definition pop_entry (h : TimerHeap Cb) : TimerHeap Cb :=
  {| h with heap_ := removelast (pop_heap (heap_ h)) |}.

Fixpoint prune_loop (fuel : nat) (h : TimerHeap Cb) : TimerHeap Cb :=
  match fuel with
  | O => h
  | S fuel' =>
      match heap_ h with
      | [] => h
      | e :: _ =>
          match callbacks_ h !! id e with
          | None => prune_loop fuel' (pop_entry h)
          | Some _ => h
          end
      end
  end.

(** Every iteration pops an entry, so the heap's size is enough fuel. *)
Definition PruneCancelledTop (h : TimerHeap Cb) : TimerHeap Cb :=
  prune_loop (length (heap_ h)) h.

Definition NextDeadline (h : TimerHeap Cb) : TimerHeap Cb * option Z :=
  let h := PruneCancelledTop h in
  (h, match heap_ h with [] => None | e :: _ => Some (deadline e) end).

Definition kMaxTimeoutMs : Z := 2 ^ 31 - 1.

Definition PollTimeoutMs (h : TimerHeap Cb) (now : Z) : TimerHeap Cb * Z :=
  let '(h, next) := NextDeadline h in
  match next with
  | None => (h, -1)
  | Some d =>
      if d <=? now then (h, 0)
      else
        let delta := Z.quot (d - now) 1000000 + 1 in
        (h, Z.min delta kMaxTimeoutMs)
  end.

(** [cb()]. *)
Context (exec : Cb → TimerHeap Cb * W → TimerHeap Cb * W).

Fixpoint run_due_loop (fuel : nat) (now : Z) (h : TimerHeap Cb) (w : W) (ran : Z) : Run Cb W :=
  match fuel with
  | O => OutOfFuel
  | S fuel' =>
      let h := PruneCancelledTop h in
      match heap_ h with
      | [] => Ran h w ran
      | e :: _ =>
          if now <? deadline e then Ran h w ran
          else
            let h := pop_entry h in
            match callbacks_ h !! id e with
            | None => BadDeref
            | Some cb =>
                let h := {| h with callbacks_ := delete (id e) (callbacks_ h) |} in
                let '(h, w) := exec cb (h, w) in
                run_due_loop fuel' now h w (ran + 1)
            end
      end
  end.

Definition RunDue (fuel : nat) (h : TimerHeap Cb) (now : Z) (w : W) : Run Cb W :=
  run_due_loop fuel now h w 0.

Definition timers_size (h : TimerHeap Cb) : Z := Z.of_nat (size (callbacks_ h)).

Definition timers_empty (h : TimerHeap Cb) : bool := bool_decide (callbacks_ h = ∅).

End Operations.

(** ** Abstraction and invariant *)

#[export] Instance EntryLater_strict : StrictWeak EntryLater.
Proof.
  split.
  - intros a b. unfold EntryLater. repeat case_test; bool_to_prop; rewrite ?Z.ltb_lt, ?Z.ltb_ge; lia.
  - intros a b c. unfold EntryLater.
    repeat case_test; bool_to_prop; rewrite ?Z.ltb_ge; lia.
Qed.

Section Facts.
Context {Cb : Type} `{SH : !StdHeap EntryLater}.
Implicit Types h : TimerHeap Cb.

(** Timer [i] is pending at [d] with callback [cb]. *)
Definition pending h (i d : Z) (cb : Cb) : Prop :=
  callbacks_ h !! i = Some cb ∧ {| deadline := d; id := i |} ∈ heap_ h.

Record timers_ok h : Prop := {
  tok_heap : is_heap EntryLater (heap_ h);
  tok_nodup : NoDup (id <$> heap_ h);
  tok_covered i cb : callbacks_ h !! i = Some cb → i ∈ (id <$> heap_ h);
  tok_ids e : e ∈ heap_ h → 1 <= id e < next_id_ h;
  tok_next : 1 <= next_id_ h < 2 ^ 64;
}.

(** (deadline, id) order: [EntryLater] reversed. *)
Definition earlier (a b : Entry) : Prop :=
  deadline a < deadline b ∨ (deadline a = deadline b ∧ id a < id b).

Lemma EntryLater_false a b : EntryLater a b = false → a = b ∨ earlier a b.
Proof.
  unfold EntryLater, earlier. destruct a as [da ia], b as [db ib]; simpl.
  repeat case_test; bool_to_prop; intros ?; bool_to_prop; try (right; lia).
  destruct (Z.eq_dec ia ib); [left; f_equal; lia|right; lia].
Qed.

Lemma pending_fun h i d cb d' cb' :
  timers_ok h → pending h i d cb → pending h i d' cb' → d = d' ∧ cb = cb'.
Proof.
  intros Hok [Hc He] [Hc' He']. split; [|congruence].
  apply list_elem_of_lookup in He as [k Hk]. apply list_elem_of_lookup in He' as [k' Hk'].
  assert (k = k').
  { eapply NoDup_lookup; [apply (tok_nodup h Hok)|..]; rewrite list_lookup_fmap.
    - by rewrite Hk.
    - by rewrite Hk'. }
  subst k'. congruence.
Qed.

Lemma timers_ok_new : timers_ok (new_timer_heap (Cb := Cb)).
Proof.
  split; simpl; [|constructor|..]; try set_solver; try lia.
  intros i Hi x y Hx. by rewrite lookup_nil in Hx.
Qed.

(** The heap after removing its front. *)
Lemma pop_entry_spec h e l :
  timers_ok h → heap_ h = e :: l →
  heap_ (pop_entry h) ≡ₚ l ∧ is_heap EntryLater (heap_ (pop_entry h)).
Proof.
  intros Hok He. destruct (pop_heap_spec EntryLater e l) as (l' & Hp & Hperm & Hh).
  { rewrite <- He. apply tok_heap, Hok. }
  unfold pop_entry. cbn [heap_]. rewrite He, Hp, removelast_last. done.
Qed.

(** Popping an entry whose callback is gone. *)
Lemma pop_entry_ok h e l :
  timers_ok h → heap_ h = e :: l → callbacks_ h !! id e = None → timers_ok (pop_entry h).
Proof.
  intros Hok He Hn. destruct (pop_entry_spec h e l Hok He) as [Hp Hh].
  destruct Hok as [_ Hnd Hcov Hids Hnext]. rewrite He in *. simpl in Hnd.
  split; try done.
  - rewrite Hp. by inversion Hnd.
  - intros i cb Hi. rewrite Hp. specialize (Hcov i cb Hi). simpl in Hcov.
    apply elem_of_cons in Hcov as [->|]; [|done]. simpl in Hi. congruence.
  - intros e'. rewrite Hp. intros. apply Hids. by right.
Qed.

Lemma pop_entry_pending h e l i d cb :
  timers_ok h → heap_ h = e :: l → callbacks_ h !! id e = None →
  pending (pop_entry h) i d cb ↔ pending h i d cb.
Proof.
  intros Hok He Hn. destruct (pop_entry_spec h e l Hok He) as [Hp _].
  unfold pending. rewrite Hp, He. cbn [callbacks_ pop_entry]. split; intros [Hc Hin]; split; auto.
  - by right.
  - apply elem_of_cons in Hin as [<-|]; [simpl in Hn; congruence|done].
Qed.

(** [PruneCancelledTop] removes only entries without a callback and stops at a
    live front or an empty heap. *)
Lemma prune_loop_spec fuel h :
  timers_ok h → (length (heap_ h) <= fuel)%nat →
  let h' := prune_loop fuel h in
  timers_ok h' ∧ callbacks_ h' = callbacks_ h ∧ next_id_ h' = next_id_ h ∧
  (∀ i d cb, pending h' i d cb ↔ pending h i d cb) ∧
  heap_ h' ⊆+ heap_ h ∧
  match heap_ h' with [] => True | e :: _ => is_Some (callbacks_ h' !! id e) end.
Proof.
  revert h. induction fuel as [|fuel IH]; intros h Hok Hf; cbn [prune_loop].
  { destruct (heap_ h) as [|e l] eqn:E; [by split_and!; rewrite ?E|simpl in Hf; lia]. }
  destruct (heap_ h) as [|e l] eqn:E; [by split_and!; rewrite ?E|].
  destruct (callbacks_ h !! id e) as [cb|] eqn:Hc.
  - rewrite E. split_and!; done.
  - destruct (pop_entry_spec h e l Hok E) as [Hp _].
    destruct (IH (pop_entry h)) as (? & ? & ? & Hpend & Hsub & ?).
    + by eapply pop_entry_ok.
    + rewrite Hp. simpl in Hf. lia.
    + split_and!; try done.
      * intros i d cb. rewrite Hpend. by eapply pop_entry_pending.
      * rewrite Hsub, Hp. by apply submseteq_cons.
Qed.

Lemma prune_spec h :
  timers_ok h →
  let h' := PruneCancelledTop h in
  timers_ok h' ∧ callbacks_ h' = callbacks_ h ∧ next_id_ h' = next_id_ h ∧
  (∀ i d cb, pending h' i d cb ↔ pending h i d cb) ∧
  heap_ h' ⊆+ heap_ h ∧
  match heap_ h' with [] => True | e :: _ => is_Some (callbacks_ h' !! id e) end.
Proof. intros. by apply prune_loop_spec. Qed.

(** The front of a pruned heap is the earliest pending timer. *)
Lemma pruned_front h e l cb :
  timers_ok h → heap_ h = e :: l → callbacks_ h !! id e = Some cb →
  pending h (id e) (deadline e) cb ∧
  ∀ i d cb', pending h i d cb' → i = id e ∧ d = deadline e ∨ earlier e {| deadline := d; id := i |}.
Proof.
  intros Hok He Hc. split.
  - split; [done|]. rewrite He. destruct e. by left.
  - intros i d cb' [_ Hin]. rewrite He in Hin.
    pose proof (tok_heap h Hok) as Hh. rewrite He in Hh.
    pose proof (heap_front EntryLater l e _ Hh Hin) as Hf.
    apply EntryLater_false in Hf as [->|]; [by left|by right].
Qed.

Lemma no_front_no_pending h : heap_ h = [] → ∀ i d cb, ¬ pending h i d cb.
Proof. intros E i d cb [_ Hin]. rewrite E in Hin. set_solver. Qed.

Lemma Add_ok h d cb : timers_ok h → next_id_ h + 1 < 2 ^ 64 → timers_ok (Add h d cb).1.
Proof.
  intros [Hh Hnd Hcov Hids Hnext] Hid. unfold Add. cbn [fst].
  assert (Hp : push_heap (heap_ h ++ [{| deadline := d; id := next_id_ h |}])
               ≡ₚ {| deadline := d; id := next_id_ h |} :: heap_ h).
  { rewrite push_heap_perm. by rewrite <- Permutation_cons_append. }
  split; cbn [heap_ callbacks_ next_id_].
  - by apply push_heap_heap.
  - rewrite Hp. simpl. constructor; [|done]. intros (e & Hide & He)%list_elem_of_fmap.
    specialize (Hids e He). lia.
  - intros i cb'. rewrite Hp. simpl. unfold emplace. case_match.
    + intros Hi. right. by eapply Hcov.
    + intros [[<- _]|[_ Hi]]%lookup_insert_Some; [by left|right; by eapply Hcov].
  - intros e. rewrite Hp, Z.mod_small by lia. intros [->|He]%elem_of_cons; simpl; [lia|].
    specialize (Hids e He). lia.
  - rewrite Z.mod_small; lia.
Qed.

Lemma Add_fresh h :
  timers_ok h → callbacks_ h !! next_id_ h = None.
Proof.
  intros Hok. destruct (callbacks_ h !! next_id_ h) as [c|] eqn:E; [|done].
  apply (tok_covered h Hok) in E as (e & He & Hin)%list_elem_of_fmap.
  pose proof (tok_ids h Hok e Hin). lia.
Qed.

Lemma Add_pending h d cb i d' cb' :
  timers_ok h →
  pending (Add h d cb).1 i d' cb' ↔
  (i = (Add h d cb).2 ∧ d' = d ∧ cb' = cb) ∨ pending h i d' cb'.
Proof.
  intros Hok. pose proof (Add_fresh h Hok) as Hfresh.
  unfold pending, Add. cbn [fst snd heap_ callbacks_]. unfold emplace. rewrite Hfresh.
  rewrite push_heap_perm, elem_of_app, list_elem_of_singleton, lookup_insert_Some. split.
  - intros [[[<- <-]|[Hne Hc]] [Hin|[= ->]]]; try naive_solver.
    apply (tok_ids h Hok) in Hin. simpl in Hin. lia.
  - intros [(-> & -> & ->)|[Hc Hin]]; [naive_solver|]. split; [|by left].
    right. split; [|done]. intros <-. congruence.
Qed.

Lemma Cancel_ok h i : timers_ok h → timers_ok (Cancel h i).1.
Proof.
  intros [Hh Hnd Hcov Hids Hnext]. split; simpl; try done.
  intros j cb [_ Hj]%lookup_delete_Some. by eapply Hcov.
Qed.

Lemma Cancel_pending h i j d cb :
  pending (Cancel h i).1 j d cb ↔ j ≠ i ∧ pending h j d cb.
Proof. unfold pending. simpl. rewrite lookup_delete_Some. naive_solver. Qed.

(** Taking the live front out for execution. *)
Definition take_front h (e : Entry) : TimerHeap Cb :=
  {| (pop_entry h) with callbacks_ := delete (id e) (callbacks_ h) |}.

Lemma take_front_spec h e l :
  timers_ok h → heap_ h = e :: l →
  timers_ok (take_front h e) ∧ heap_ (take_front h e) ≡ₚ l ∧
  ∀ i d c, pending (take_front h e) i d c ↔ pending h i d c ∧ i ≠ id e.
Proof.
  intros Hok He. destruct (pop_entry_spec h e l Hok He) as [Hp Hh].
  destruct Hok as [_ Hnd Hcov Hids Hnext]. rewrite He in *. simpl in Hnd.
  inversion Hnd as [|? ? Hni Hnd']; subst. split_and!; [split| |]; cbn [take_front heap_ callbacks_ next_id_].
  - done.
  - by rewrite Hp.
  - intros i cb [Hne Hi]%lookup_delete_Some. rewrite Hp. specialize (Hcov i cb Hi).
    simpl in Hcov. apply elem_of_cons in Hcov as [->|]; done.
  - intros e'. rewrite Hp. intros. apply Hids. by right.
  - done.
  - done.
  - intros i d c. unfold pending. cbn [take_front heap_ callbacks_].
    rewrite Hp, He, lookup_delete_Some, elem_of_cons. split; [naive_solver|].
    intros [[Hc [Heq|Hin]] Hne]; [subst e; done|naive_solver].
Qed.

(** ** Re-entrant use

    What a callback may do to the heap it is run on. *)

Inductive timer_op (Q : Z → Prop) : TimerHeap Cb → TimerHeap Cb → Prop :=
  | op_add h d cb : Q d → next_id_ h + 1 < 2 ^ 64 → timer_op Q h (Add h d cb).1
  | op_cancel h i : timer_op Q h (Cancel h i).1
  | op_next h : timer_op Q h (NextDeadline h).1.

Lemma timer_op_ok Q h h' : timer_op Q h h' → timers_ok h → timers_ok h'.
Proof.
  intros [h0 d cb _ ?|h0 i|h0] Hok; [by apply Add_ok|by apply Cancel_ok|].
  by apply prune_spec.
Qed.

Lemma timer_ops_ok Q h h' : rtc (timer_op Q) h h' → timers_ok h → timers_ok h'.
Proof. induction 1; eauto using timer_op_ok. Qed.

(** The number of heap entries that are due. *)
Definition due_count (now : Z) h : nat := length (filter (λ e, deadline e <= now) (heap_ h)).

Lemma filter_length_submseteq {A} (P : A → Prop) `{∀ x, Decision (P x)} (l k : list A) :
  l ⊆+ k → (length (filter P l) <= length (filter P k))%nat.
Proof.
  intros [r Hr]%submseteq_Permutation. rewrite Hr, filter_app, length_app. lia.
Qed.

Lemma timer_op_due_count now Q h h' :
  timer_op Q h h' → timers_ok h → (∀ d, Q d → now < d) → (due_count now h' <= due_count now h)%nat.
Proof.
  intros [h0 d cb Hd ?|h0 i|h0] Hok Hq; [|done|].
  - unfold due_count, Add. cbn [fst heap_]. rewrite push_heap_perm, filter_app.
    rewrite (filter_cons_False _ _ []) by (simpl; specialize (Hq d Hd); lia).
    by rewrite app_nil_r.
  - apply filter_length_submseteq. by apply prune_spec.
Qed.

Lemma timer_ops_due_count now Q h h' :
  rtc (timer_op Q) h h' → timers_ok h → (∀ d, Q d → now < d) →
  (due_count now h' <= due_count now h)%nat.
Proof.
  induction 1 as [|h h1 h2 Hop _ IH]; intros Hok Hq; [done|].
  etrans; [apply IH; eauto using timer_op_ok|]. by eapply timer_op_due_count.
Qed.

End Facts.

(** ** One iteration of [RunDue] *)

Section RunDueFacts.
Context {Cb W : Type} `{SH : !StdHeap EntryLater}.
Context (exec : Cb → TimerHeap Cb * W → TimerHeap Cb * W).

Lemma run_due_loop_step fuel now h w ran :
  timers_ok h →
  let h0 := PruneCancelledTop h in
  (∃ e l cb, heap_ h0 = e :: l ∧ callbacks_ h0 !! id e = Some cb ∧ deadline e <= now ∧
     run_due_loop exec (S fuel) now h w ran =
     (let '(h', w') := exec cb (take_front h0 e, w) in run_due_loop exec fuel now h' w' (ran + 1)))
  ∨ ((∀ i d cb, pending h i d cb → now < d) ∧
     run_due_loop exec (S fuel) now h w ran = Ran h0 w ran).
Proof.
  intros Hok h0. destruct (prune_spec h Hok) as (Hok0 & Hcb & _ & Hpend & _ & Hfront).
  fold h0 in Hok0, Hcb, Hpend, Hfront. cbn [run_due_loop]. fold h0.
  destruct (heap_ h0) as [|e l] eqn:E.
  - right. split; [|done]. intros i d cb Hp. apply Hpend in Hp.
    by destruct (no_front_no_pending h0 E i d cb).
  - destruct Hfront as [cb Hfront]. destruct (pruned_front h0 e l cb Hok0 E Hfront) as [Hpe Hmin].
    destruct (Z.ltb_spec now (deadline e)) as [Hlt|Hge].
    + right. split; [|done]. intros i d c Hp. apply Hpend in Hp.
      destruct (Hmin i d c Hp) as [[_ ->]|He]; [done|]. unfold earlier in He. simpl in He. lia.
    + left. exists e, l, cb. split_and!; try done.
      change (callbacks_ (pop_entry h0)) with (callbacks_ h0). by rewrite Hfront.
Qed.

(** What one iteration does, in terms of pending timers only: run the callback of
    the earliest due timer, on a heap from which just that timer is gone. *)
Definition due_step (now : Z) (s s' : TimerHeap Cb * W) : Prop :=
  ∃ i d cb h1,
    pending s.1 i d cb ∧ d <= now ∧
    (∀ j d' cb', pending s.1 j d' cb' → d < d' ∨ (d = d' ∧ i <= j)) ∧
    timers_ok h1 ∧
    (∀ j d' cb', pending h1 j d' cb' ↔ pending s.1 j d' cb' ∧ j ≠ i) ∧
    exec cb (h1, s.2) = s'.

Lemma front_due_step now h w e l cb :
  timers_ok h → let h0 := PruneCancelledTop h in
  heap_ h0 = e :: l → callbacks_ h0 !! id e = Some cb → deadline e <= now →
  timers_ok (take_front h0 e) ∧ due_step now (h, w) (exec cb (take_front h0 e, w)).
Proof.
  intros Hok h0 E Hc Hd. destruct (prune_spec h Hok) as (Hok0 & _ & _ & Hpend & _).
  fold h0 in Hok0, Hpend. destruct (take_front_spec h0 e l Hok0 E) as (Hok1 & _ & Hp1).
  destruct (pruned_front h0 e l cb Hok0 E Hc) as [Hpe Hmin]. split; [done|].
  exists (id e), (deadline e), cb, (take_front h0 e). split_and!; try done; simpl.
  - by apply Hpend.
  - intros j d' cb' Hj. apply Hpend, Hmin in Hj as [[-> ->]|He]; [right; lia|].
    unfold earlier in He. simpl in He. lia.
  - intros. by rewrite Hp1, Hpend.
Qed.

(** A callback that works on the timers only through the public operations, with
    deadlines in [Q]. *)
Definition exec_respects (Q : Z → Prop) : Prop :=
  ∀ cb h w, timers_ok h → rtc (timer_op Q) h (exec cb (h, w)).1.

End RunDueFacts.
End TimerHeap.

(** ** Properties *)

Section TimerProperties.
Import TimerHeap.
Context {Cb W : Type} `{SH : !StdHeap EntryLater}.
Implicit Types h : TimerHeap Cb.

(** [Add] returns a fresh id that is never [kInvalidTimerId], keeps the heap
    well formed and makes exactly that timer pending; [Cancel] of it succeeds and
    restores the pending timers, and a second [Cancel] reports false. *)
Theorem Add_Cancel_roundtrip h (d : Z) (cb : Cb) :
  timers_ok h → next_id_ h + 1 < 2 ^ 64 →
  let '(h1, i) := Add h d cb in
  let '(h2, b) := Cancel h1 i in
  i ≠ kInvalidTimerId ∧ (∀ d' cb', ¬ pending h i d' cb') ∧ timers_ok h1 ∧
  (∀ j d' cb', pending h1 j d' cb' ↔ (j = i ∧ d' = d ∧ cb' = cb) ∨ pending h j d' cb') ∧
  timers_ok h2 ∧ b = true ∧ (∀ j d' cb', pending h2 j d' cb' ↔ pending h j d' cb') ∧
  (Cancel h2 i).2 = false.
Proof.
  intros Hok Hid. pose proof (Add_ok h d cb Hok Hid) as Hok1. pose proof (Add_fresh h Hok) as Hf.
  pose proof (Add_pending h d cb) as Hp. destruct (Add h d cb) as [h1 i] eqn:E. simpl in *.
  assert (i = next_id_ h) as -> by (by unfold Add in E; simplify_eq).
  assert (Hno : ∀ d' cb', ¬ pending h (next_id_ h) d' cb') by (intros ? ? [? _]; congruence).
  split_and!; try done.
  - pose proof (tok_next h Hok). unfold kInvalidTimerId. lia.
  - intros. by apply Hp.
  - by apply (Cancel_ok h1 (next_id_ h)).
  - destruct (proj2 (Hp (next_id_ h) d cb Hok)) as [-> _]; [by left|done].
  - intros j d' cb'. etrans; [apply (Cancel_pending h1)|]. rewrite (Hp _ _ _ Hok).
    split; [naive_solver|]. intros Hj. split; [|by right]. intros ->. by destruct (Hno d' cb').
  - by rewrite lookup_delete_eq.
Qed.

(** [NextDeadline] is the least deadline among the pending timers, whatever
    was cancelled before, and leaves the pending timers as they are. *)
Theorem NextDeadline_least h :
  timers_ok h →
  let '(h', next) := NextDeadline h in
  timers_ok h' ∧ (∀ i d cb, pending h' i d cb ↔ pending h i d cb) ∧
  match next with
  | None => ∀ i d cb, ¬ pending h i d cb
  | Some d => (∃ i cb, pending h i d cb) ∧ ∀ i d' cb, pending h i d' cb → d <= d'
  end.
Proof.
  intros Hok. unfold NextDeadline.
  destruct (prune_spec h Hok) as (Hok0 & _ & _ & Hpend & _ & Hfront).
  split_and!; try done. destruct (heap_ (PruneCancelledTop h)) as [|e l] eqn:E.
  - intros i d cb Hp. apply Hpend in Hp. by destruct (no_front_no_pending _ E i d cb).
  - destruct Hfront as [cb Hc]. destruct (pruned_front _ e l cb Hok0 E Hc) as [Hpe Hmin]. split.
    + exists (id e), cb. by apply Hpend.
    + intros i d' cb' Hp. apply Hpend, Hmin in Hp as [[_ ->]|He]; [done|].
      unfold earlier in He. simpl in He. lia.
Qed.

(** The [poll] timeout is -1 exactly when no timer is pending, 0 exactly when
    one is due, and otherwise a positive [int] that does not end before the earliest
    deadline (unless it is clamped to the largest [int]) and overshoots it by at
    most a millisecond. *)
Theorem PollTimeoutMs_spec h (now : Z) :
  timers_ok h →
  let t := (PollTimeoutMs h now).2 in
  -1 <= t <= 2 ^ 31 - 1 ∧
  (t = -1 ↔ ∀ i d cb, ¬ pending h i d cb) ∧
  (t = 0 ↔ ∃ i d cb, pending h i d cb ∧ d <= now) ∧
  (0 < t < 2 ^ 31 - 1 → ∃ i d cb, pending h i d cb ∧
     (∀ j d' cb', pending h j d' cb' → d <= d') ∧
     d < now + t * 1000000 <= d + 1000000).
Proof.
  intros Hok. unfold PollTimeoutMs, NextDeadline.
  destruct (prune_spec h Hok) as (Hok0 & _ & _ & Hpend & _ & Hfront).
  destruct (heap_ (PruneCancelledTop h)) as [|e l] eqn:E; simpl.
  { assert (Hno : ∀ i d cb, ¬ pending h i d cb).
    { intros i d cb Hp. apply Hpend in Hp. by destruct (no_front_no_pending _ E i d cb). }
    split_and!; try lia; naive_solver lia. }
  destruct Hfront as [cb Hc]. destruct (pruned_front _ e l cb Hok0 E Hc) as [Hpe Hmin].
  apply Hpend in Hpe.
  assert (Hle : ∀ i d' cb', pending h i d' cb' → deadline e <= d').
  { intros i d' cb' Hp. apply Hpend, Hmin in Hp as [[_ ->]|He]; [done|].
    unfold earlier in He. simpl in He. lia. }
  destruct (Z.leb_spec (deadline e) now) as [Hd|Hd]; simpl.
  - split_and!; try lia; split; try lia; intros H; [by destruct (H _ _ _ Hpe)|eauto].
  - unfold kMaxTimeoutMs. rewrite Z.quot_div_nonneg by lia.
    pose proof (Z.div_pos (deadline e - now) 1000000 ltac:(lia) ltac:(lia)).
    pose proof (Z.div_mod (deadline e - now) 1000000 ltac:(lia)).
    pose proof (Z.mod_pos_bound (deadline e - now) 1000000 ltac:(lia)).
    split_and!; try lia.
    + split; [lia|]. intros Hno. by destruct (Hno _ _ _ Hpe).
    + split; [lia|]. intros (i & d & c & Hp & Hdn). specialize (Hle _ _ _ Hp). lia.
    + intros Ht. exists (id e), (deadline e), cb. split_and!; try done; lia.
Qed.

Context (exec : Cb → TimerHeap Cb * W → TimerHeap Cb * W).

(** C18: [RunDue], with callbacks that re-enter [Add] and [Cancel], never
    dereferences a missing callback; each of the callbacks it counts was that of
    the earliest pending timer at the time, due and already removed when it ran,
    and when it returns no pending timer is due. *)
Theorem RunDue_runs_earliest_first (Q : Z → Prop) (fuel : nat) h (now : Z) (w : W) :
  timers_ok h → exec_respects exec Q →
  match RunDue exec fuel h now w with
  | Ran h' w' n =>
      timers_ok h' ∧ (∀ i d cb, pending h' i d cb → now < d) ∧
      ∃ h'', nsteps (due_step exec now) (Z.to_nat n) (h, w) (h'', w') ∧
             ∀ i d cb, pending h'' i d cb ↔ pending h' i d cb
  | BadDeref => False
  | OutOfFuel => True
  end.
Proof.
  intros Hok Hex. unfold RunDue.
  assert (Hgen : ∀ ran, 0 <= ran →
    match run_due_loop exec fuel now h w ran with
    | Ran h' w' n => ran <= n ∧ timers_ok h' ∧ (∀ i d cb, pending h' i d cb → now < d) ∧
        ∃ h'', nsteps (due_step exec now) (Z.to_nat (n - ran)) (h, w) (h'', w') ∧
               ∀ i d cb, pending h'' i d cb ↔ pending h' i d cb
    | BadDeref => False
    | OutOfFuel => True
    end).
  { revert h w Hok. induction fuel as [|fuel IH]; intros h w Hok ran Hran; [done|].
    destruct (run_due_loop_step exec fuel now h w ran Hok)
      as [(e & l & cb & E & Hc & Hd & ->)|[Hdue ->]].
    - destruct (front_due_step exec now h w e l cb Hok E Hc Hd) as [Hok1 Hstep].
      specialize (Hex cb _ w Hok1). destruct (exec cb (_, w)) as [h' w'] eqn:Eex.
      assert (Hok' : timers_ok h') by (by eapply timer_ops_ok).
      specialize (IH h' w' Hok' (ran + 1) ltac:(lia)).
      destruct (run_due_loop exec fuel now h' w' (ran + 1)) as [h2 w2 n| |]; try done.
      destruct IH as (Hn & Hok2 & Hno & h3 & Hsteps & Hp3). split_and!; try done; [lia|].
      exists h3. split; [|done].
      replace (Z.to_nat (n - ran)) with (S (Z.to_nat (n - (ran + 1)))) by lia. by econstructor.
    - destruct (prune_spec h Hok) as (Hok0 & _ & _ & Hpend & _). split_and!; try done.
      + intros i d cb Hp. by eapply Hdue, Hpend.
      + exists h. rewrite Z.sub_diag. split; [constructor|]. intros. by rewrite Hpend. }
  specialize (Hgen 0 ltac:(lia)).
  destruct (run_due_loop exec fuel now h w 0) as [h' w' n| |]; try done.
  rewrite Z.sub_0_r in Hgen. by destruct Hgen as (_ & ? & ? & ?).
Qed.

(** [RunDue] terminates when the callbacks it runs add no timer that is
    already due: one more iteration than there are due entries suffices. *)
Theorem RunDue_terminates (Q : Z → Prop) (fuel : nat) h (now : Z) (w : W) :
  timers_ok h → exec_respects exec Q → (∀ d, Q d → now < d) → (due_count now h < fuel)%nat →
  ∃ h' w' n, RunDue exec fuel h now w = Ran h' w' n ∧ n <= Z.of_nat (due_count now h).
Proof.
  intros Hok Hex Hq Hf. unfold RunDue.
  enough (Hgen : ∀ ran, ∃ h' w' n, run_due_loop exec fuel now h w ran = Ran h' w' n ∧
                                   n <= ran + Z.of_nat (due_count now h)) by (apply (Hgen 0)).
  revert h w Hok Hf. induction fuel as [|fuel IH]; intros h w Hok Hf ran; [lia|].
  destruct (run_due_loop_step exec fuel now h w ran Hok)
    as [(e & l & cb & E & Hc & Hd & ->)|[Hdue ->]]; [|do 3 eexists; split; [done|lia]].
  destruct (prune_spec h Hok) as (Hok0 & _ & _ & _ & Hsub & _).
  destruct (take_front_spec _ e l Hok0 E) as (Hok1 & Hp1 & _).
  assert (Hlt : (due_count now (take_front (PruneCancelledTop h) e) < due_count now h)%nat).
  { unfold due_count. rewrite Hp1.
    pose proof (filter_length_submseteq (λ e, deadline e <= now) _ _ Hsub) as Hl.
    rewrite E, filter_cons_True in Hl by done. simpl in Hl. lia. }
  specialize (Hex cb _ w Hok1). destruct (exec cb (_, w)) as [h' w'] eqn:Eex.
  assert (Hok' : timers_ok h') by (by eapply timer_ops_ok).
  pose proof (timer_ops_due_count now Q _ _ Hex Hok1 Hq) as Hle. simpl in Hle.
  destruct (IH h' w' Hok' ltac:(lia) (ran + 1)) as (h2 & w2 & n & -> & Hn).
  do 3 eexists. split; [done|]. lia.
Qed.

End TimerProperties.

(** *** Witnesses: three timers, one cancelled, and a callback that re-arms itself *)

Section TimerWitnesses.
Import TimerHeap.

Definition demo_heap : TimerHeap nat :=
  let h := (Add new_timer_heap 30 7%nat).1 in
  let h := (Add h 10 8%nat).1 in
  let h := (Add h 20 9%nat).1 in
  (Cancel h 2).1.

(** Callback 9 re-arms itself at 100; every callback is logged. *)
Definition demo_exec (cb : nat) (s : TimerHeap nat * list nat) : TimerHeap nat * list nat :=
  (if bool_decide (cb = 9%nat) && bool_decide (next_id_ s.1 + 1 < 2 ^ 64)
   then (Add s.1 100 cb).1 else s.1, s.2 ++ [cb]).

Lemma demo_heap_ok : timers_ok demo_heap.
Proof.
  unfold demo_heap. apply Cancel_ok. do 3 (apply Add_ok; [|vm_compute; reflexivity]).
  apply timers_ok_new.
Qed.

Lemma demo_exec_respects : exec_respects demo_exec (λ d, d = 100).
Proof.
  intros cb h w Hok. unfold demo_exec. cbn [fst snd]. destruct (_ && _) eqn:E; [|done].
  bool_to_prop. apply rtc_once. by apply (op_add _ h 100 cb).
Qed.

Lemma Add_Cancel_roundtrip_witness :
  let '(h1, i) := Add demo_heap 15 3%nat in
  let '(h2, b) := Cancel h1 i in
  i ≠ kInvalidTimerId ∧ (∀ d' cb', ¬ pending demo_heap i d' cb') ∧ timers_ok h1 ∧
  (∀ j d' cb', pending h1 j d' cb' ↔ (j = i ∧ d' = 15 ∧ cb' = 3%nat) ∨ pending demo_heap j d' cb') ∧
  timers_ok h2 ∧ b = true ∧ (∀ j d' cb', pending h2 j d' cb' ↔ pending demo_heap j d' cb') ∧
  (Cancel h2 i).2 = false.
Proof.
  apply (Add_Cancel_roundtrip demo_heap 15 3%nat); [apply demo_heap_ok|vm_compute; reflexivity].
Defined.

Lemma NextDeadline_least_witness :
  let '(h', next) := NextDeadline demo_heap in
  timers_ok h' ∧ (∀ i d cb, pending h' i d cb ↔ pending demo_heap i d cb) ∧
  match next with
  | None => ∀ i d cb, ¬ pending demo_heap i d cb
  | Some d => (∃ i cb, pending demo_heap i d cb) ∧ ∀ i d' cb, pending demo_heap i d' cb → d <= d'
  end.
Proof. apply (NextDeadline_least demo_heap), demo_heap_ok. Defined.

Lemma PollTimeoutMs_spec_witness :
  let t := (PollTimeoutMs demo_heap 5).2 in
  -1 <= t <= 2 ^ 31 - 1 ∧
  (t = -1 ↔ ∀ i d cb, ¬ pending demo_heap i d cb) ∧
  (t = 0 ↔ ∃ i d cb, pending demo_heap i d cb ∧ d <= 5) ∧
  (0 < t < 2 ^ 31 - 1 → ∃ i d cb, pending demo_heap i d cb ∧
     (∀ j d' cb', pending demo_heap j d' cb' → d <= d') ∧
     d < 5 + t * 1000000 <= d + 1000000).
Proof. apply (PollTimeoutMs_spec demo_heap 5), demo_heap_ok. Defined.

Lemma RunDue_runs_earliest_first_witness :
  match RunDue demo_exec 10 demo_heap 50 [] with
  | Ran h' w' n =>
      timers_ok h' ∧ (∀ i d cb, pending h' i d cb → 50 < d) ∧
      ∃ h'', nsteps (due_step demo_exec 50) (Z.to_nat n) (demo_heap, []) (h'', w') ∧
             ∀ i d cb, pending h'' i d cb ↔ pending h' i d cb
  | BadDeref => False
  | OutOfFuel => True
  end.
Proof.
  apply (RunDue_runs_earliest_first demo_exec (λ d, d = 100));
    [apply demo_heap_ok|apply demo_exec_respects].
Defined.

Lemma RunDue_terminates_witness :
  ∃ h' w' n, RunDue demo_exec 10 demo_heap 50 [] = Ran h' w' n ∧
             n <= Z.of_nat (due_count 50 demo_heap).
Proof.
  apply (RunDue_terminates demo_exec (λ d, d = 100));
    [apply demo_heap_ok|apply demo_exec_respects|intros; lia|vm_compute; lia].
Defined.

(** The cancelled timer does not run, the others run in deadline order. *)
Example demo_run_order :
  match RunDue demo_exec 10 demo_heap 50 [] with
  | Ran h' w' n => w' = [9; 7]%nat ∧ n = 2 ∧ (NextDeadline h').2 = Some 100
  | _ => False
  end.
Proof. vm_compute. done. Qed.

End TimerWitnesses.
