(* ===== verification/Wakeup.v ===== *)
(** * The cross-thread wakeup ([src/transport/wakeup.h], [src/transport/wakeup.cc])

    A non-blocking eventfd.  The kernel object is its 64-bit counter; the number of
    times a system call is interrupted before it completes is an argument of the
    two operations that retry on [EINTR]. *)

From Stdlib Require Import ZArith Lia.
From stdpp Require Import base numbers.
From S2P Require Import Prelude.

Local Open Scope Z_scope.

Module Wakeup.

(** [fd_] and the counter of the eventfd it names. *)
Record Wakeup : Type := { fd_ : Z; counter : Z }.

(** An eventfd holds at most 2^64 - 2. *)
Definition eventfd_max : Z := 2 ^ 64 - 2.

(** The constructor; [fd] is what [eventfd(0, ...)] returned (negative on failure). *)
Definition new_wakeup (fd : Z) : Wakeup := {| fd_ := fd; counter := 0 |}.

Inductive SysResult : Type := SysOk | SysEINTR | SysEAGAIN.

(** [write(fd_, &one, 8)] and [read(fd_, &count, 8)] on a non-blocking eventfd. *)
Definition sys_write (interrupted : bool) (w : Wakeup) : Wakeup * SysResult :=
  if interrupted then (w, SysEINTR)
  else if counter w + 1 <=? eventfd_max then ({| w with counter := counter w + 1 |}, SysOk)
  else (w, SysEAGAIN).

Definition sys_read (interrupted : bool) (w : Wakeup) : Wakeup * SysResult :=
  if interrupted then (w, SysEINTR)
  else if counter w =? 0 then (w, SysEAGAIN)
  else ({| w with counter := 0 |}, SysOk).

(** [do rc = call; while (rc < 0 && errno == EINTR)] with [n] interruptions. *)
Fixpoint retry (n : nat) (call : bool → Wakeup → Wakeup * SysResult) (w : Wakeup) : Wakeup :=
  match n with
  | O => (call false w).1
  | S n' =>
      match call true w with
      | (w', SysEINTR) => retry n' call w'
      | (w', _) => w'
      end
  end.

Definition Notify (interrupts : nat) (w : Wakeup) : Wakeup :=
  if fd_ w <? 0 then w else retry interrupts sys_write w.

Definition Drain (interrupts : nat) (w : Wakeup) : Wakeup :=
  if fd_ w <? 0 then w else retry interrupts sys_read w.

(** [poll] reports [POLLIN] on the eventfd. *)
Definition readable (w : Wakeup) : bool := 0 <? counter w.

(** ** Lemmas *)

Record wakeup_ok (w : Wakeup) : Prop := {
  wok_open : 0 <= fd_ w;
  wok_range : 0 <= counter w <= eventfd_max;
}.

Lemma retry_interrupted n call w :
  (∀ w, call true w = (w, SysEINTR)) → retry n call w = (call false w).1.
Proof. intros H. induction n as [|n IH]; simpl; [done|]. by rewrite H. Qed.

Lemma Notify_spec n w : wakeup_ok w →
  Notify n w = {| w with counter := Z.min (counter w + 1) eventfd_max |}.
Proof.
  intros [Hfd Hc]. unfold Notify. case_test; [lia|].
  rewrite retry_interrupted by done. unfold sys_write. destruct w as [fd c]; simpl in *.
  case_test; simpl; f_equal; lia.
Qed.

Lemma Drain_spec n w : wakeup_ok w → Drain n w = {| w with counter := 0 |}.
Proof.
  intros [Hfd Hc]. unfold Drain. case_test; [lia|].
  rewrite retry_interrupted by done. unfold sys_read. destruct w as [fd c]; simpl in *.
  case_test; simpl; f_equal; lia.
Qed.

Lemma Notify_ok n w : wakeup_ok w → wakeup_ok (Notify n w).
Proof.
  intros Hw. rewrite Notify_spec by done. destruct Hw. split; simpl; [done|].
  unfold eventfd_max in *. lia.
Qed.

Lemma Drain_ok n w : wakeup_ok w → wakeup_ok (Drain n w).
Proof.
  intros Hw. rewrite Drain_spec by done. destruct Hw. split; simpl; [done|].
  unfold eventfd_max in *. lia.
Qed.

Lemma Notify_readable n w : wakeup_ok w → readable (Notify n w) = true.
Proof.
  intros Hw. rewrite Notify_spec by done. destruct Hw. unfold readable. simpl.
  apply Z.ltb_lt. unfold eventfd_max in *. lia.
Qed.

Lemma Drain_not_readable n w : wakeup_ok w → readable (Drain n w) = false.
Proof. intros Hw. by rewrite Drain_spec. Qed.

End Wakeup.

(** Any non-empty sequence of notifications, however often each is interrupted
    and even at saturation, leaves the eventfd readable, and one drain clears them
    all; on a failed construction both are no-ops. *)
Theorem wakeup_coalesces (w : Wakeup.Wakeup) (interrupts : list nat) (n : nat) :
  0 <= Wakeup.counter w <= Wakeup.eventfd_max →
  let w' := fold_right Wakeup.Notify w interrupts in
  if Wakeup.fd_ w <? 0 then w' = w ∧ Wakeup.Drain n w' = w
  else Wakeup.readable w' = (bool_decide (interrupts ≠ []) || Wakeup.readable w) ∧
       Wakeup.readable (Wakeup.Drain n w') = false.
Proof.
  intros Hc w'. destruct (Z.ltb_spec (Wakeup.fd_ w) 0) as [Hneg|Hfd].
  - assert (w' = w) as ->.
    { subst w'. induction interrupts as [|i l IH]; simpl; [done|]. rewrite IH.
      unfold Wakeup.Notify. by rewrite (proj2 (Z.ltb_lt _ _) Hneg). }
    split; [done|]. unfold Wakeup.Drain. by rewrite (proj2 (Z.ltb_lt _ _) Hneg).
  - assert (Hall : Wakeup.wakeup_ok w').
    { subst w'. induction interrupts as [|i l IH]; simpl; [done|]. by apply Wakeup.Notify_ok. }
    split; [|by apply Wakeup.Drain_not_readable].
    subst w'. destruct interrupts as [|i l]; simpl in *; [done|].
    apply Wakeup.Notify_readable. clear Hall.
    induction l as [|j l IH]; simpl; [done|]. by apply Wakeup.Notify_ok.
Qed.

Lemma wakeup_coalesces_witness :
  let w := {| Wakeup.fd_ := 5; Wakeup.counter := Wakeup.eventfd_max |} in
  let w' := fold_right Wakeup.Notify w [0%nat; 3%nat] in
  if Wakeup.fd_ w <? 0 then w' = w ∧ Wakeup.Drain 1 w' = w
  else Wakeup.readable w' = (bool_decide ([0%nat; 3%nat] ≠ []) || Wakeup.readable w) ∧
       Wakeup.readable (Wakeup.Drain 1 w') = false.
Proof.
  apply (wakeup_coalesces {| Wakeup.fd_ := 5; Wakeup.counter := Wakeup.eventfd_max |}
           [0%nat; 3%nat] 1).
  vm_compute. intuition congruence.
Defined.
