(* ===== verification/EventThread.v ===== *)
(** * The event thread ([src/core/event_thread.h], [src/core/event_thread.cc])

    One loop thread and any number of caller threads.  What the mutex guards
    ([Shared]), what the loop thread owns ([Owned]) and the wakeup are separate
    parts of the state.  Each critical section and each statement of the loop that
    other threads can observe is one step, and the steps interleave freely; a
    caller that left the critical section of [Post] or [Stop] and has not yet
    written to the eventfd is a pending notification.

    The closures ([std::function]) are the types [Op], [Cb], [Ev] and [Rd] with the
    functions that call them, on the owned state and the rest of the program. *)

From Stdlib Require Import ZArith Lia.
From stdpp Require Import base numbers list gmap relations.
From S2P Require Import Prelude StdHeap TimerHeap Wakeup.

Local Open Scope Z_scope.

Module EventThread.
Import TimerHeap.

Definition POLLIN : Z := 1.
Definition POLLOUT : Z := 4.
Definition POLLERR : Z := 8.
Definition POLLHUP : Z := 16.

(** The members guarded by [mu_]. *)
Record Shared (Op : Type) : Type := {
  ops_ : list Op;
  stop_requested_ : bool;
  started_ : bool;
  joined_ : bool;
}.
Arguments ops_ {Op} _.
Arguments stop_requested_ {Op} _.
Arguments started_ {Op} _.
Arguments joined_ {Op} _.

(** The members owned by the event thread. *)
Record Owned (Cb Ev Rd : Type) : Type := {
  timers_ : TimerHeap Cb;
  watched_fd_ : Z;
  watched_events_fn_ : option Ev;
  watched_on_ready_ : option Rd;
}.
Arguments timers_ {Cb Ev Rd} _.
Arguments watched_fd_ {Cb Ev Rd} _.
Arguments watched_events_fn_ {Cb Ev Rd} _.
Arguments watched_on_ready_ {Cb Ev Rd} _.

Section Methods.
Context {Op Cb Ev Rd : Type} `{SH : !StdHeap EntryLater}.

Definition new_shared : Shared Op :=
  {| ops_ := []; stop_requested_ := false; started_ := false; joined_ := false |}.

Definition new_owned : Owned Cb Ev Rd :=
  {| timers_ := new_timer_heap; watched_fd_ := -1;
     watched_events_fn_ := None; watched_on_ready_ := None |}.

(** The stack size [Start] asks for; [None] is the platform default. *)
Definition thread_stack_size (sanitizer_build : bool) (stack_size_bytes stack_min : Z) : option Z :=
  if negb sanitizer_build && (0 <? stack_size_bytes)
  then Some (if stack_size_bytes <? stack_min then stack_min else stack_size_bytes)
  else None.

(** [create_rc] is what [pthread_create] returns, called with [mu_] held. *)
Definition Start (wakeup_fd create_rc : Z) (s : Shared Op) : Shared Op * bool :=
  if started_ s || stop_requested_ s then (s, false)
  else if wakeup_fd <? 0 then (s, false)
  else if negb (create_rc =? 0) then (s, false)
  else ({| s with started_ := true |}, true).

(** The critical section of [Stop]; the result is [must_join]. *)
Definition Stop_locked (s : Shared Op) : Shared Op * bool :=
  let s := {| s with stop_requested_ := true |} in
  if started_ s && negb (joined_ s) then ({| s with joined_ := true |}, true) else (s, false).

(** The critical section of [Post]. *)
Definition Post_locked (s : Shared Op) (op : Op) : Shared Op * bool :=
  if stop_requested_ s then (s, false) else ({| s with ops_ := ops_ s ++ [op] |}, true).

(** The critical section of [RunPendingOps]: the swapped queue and [stopping]. *)
Definition take_ops (s : Shared Op) : Shared Op * (list Op * bool) :=
  ({| s with ops_ := [] |}, (ops_ s, stop_requested_ s)).

Definition AddTimer (o : Owned Cb Ev Rd) (now delay : Z) (cb : Cb) : Owned Cb Ev Rd * Z :=
  let '(h, id) := Add (timers_ o) (now + delay) cb in ({| o with timers_ := h |}, id).

Definition CancelTimer (o : Owned Cb Ev Rd) (id : Z) : Owned Cb Ev Rd * bool :=
  let '(h, b) := Cancel (timers_ o) id in ({| o with timers_ := h |}, b).

Definition WatchFd (o : Owned Cb Ev Rd) (fd : Z) (events_fn : Ev) (on_ready : Rd) : Owned Cb Ev Rd :=
  {| o with watched_fd_ := fd; watched_events_fn_ := Some events_fn;
            watched_on_ready_ := Some on_ready |}.

Definition UnwatchFd (o : Owned Cb Ev Rd) : Owned Cb Ev Rd :=
  {| o with watched_fd_ := -1; watched_events_fn_ := None; watched_on_ready_ := None |}.

(** [thread_id_] is [None] until the thread has stored it. *)
Definition IsOnEventThread (thread_id : option Z) (self : Z) : bool :=
  match thread_id with None => false | Some t => t =? self end.

End Methods.

(** ** The loop *)

(** Where the loop thread is.  [Running] holds the swapped queue; [Polling] the
    second [pollfd] (fd and event mask) if there is one, and the timeout;
    [Polled] the two [revents].  [Exited] is the return after a stop, [Dead] the
    return on a [poll] error. *)
Inductive Pc (Op : Type) : Type :=
  | NotStarted
  | AtTop
  | Running (ops : list Op) (stopping : bool)
  | AtTimers
  | Polling (watched : option (Z * Z)) (timeout_ms : Z)
  | Polled (nfds2 : bool) (wake : bool) (revents : Z)
  | Exited
  | Dead.
Arguments NotStarted {Op}.
Arguments AtTop {Op}.
Arguments Running {Op} ops stopping.
Arguments AtTimers {Op}.
Arguments Polling {Op} watched timeout_ms.
Arguments Polled {Op} nfds2 wake revents.
Arguments Exited {Op}.
Arguments Dead {Op}.

(** The whole program around one event thread.  [notifying] counts the callers
    between their critical section and [wakeup_.Notify()]; [posted], [executed]
    and [joins] are histories: the accepted operations, those that have run, and
    the [pthread_join]s. *)
Record Sys (Op Cb Ev Rd W : Type) : Type := {
  shared : Shared Op;
  owned : Owned Cb Ev Rd;
  world : W;
  wakeup_ : Wakeup.Wakeup;
  pc : Pc Op;
  notifying : nat;
  posted : list Op;
  executed : list Op;
  joins : nat;
}.
Arguments shared {Op Cb Ev Rd W} _.
Arguments owned {Op Cb Ev Rd W} _.
Arguments world {Op Cb Ev Rd W} _.
Arguments wakeup_ {Op Cb Ev Rd W} _.
Arguments pc {Op Cb Ev Rd W} _.
Arguments notifying {Op Cb Ev Rd W} _.
Arguments posted {Op Cb Ev Rd W} _.
Arguments executed {Op Cb Ev Rd W} _.
Arguments joins {Op Cb Ev Rd W} _.

Section Loop.
Context {Op Cb Ev Rd W : Type} `{SH : !StdHeap EntryLater}.

(** Calling a queued operation, a timer callback, the interest function and the
    readiness handler. *)
Context (call_op : Op → Owned Cb Ev Rd * W → Owned Cb Ev Rd * W).
Context (call_cb : Cb → Owned Cb Ev Rd * W → Owned Cb Ev Rd * W).
Context (call_ev : Ev → Owned Cb Ev Rd * W → Z).
Context (call_rd : Rd → Z → Owned Cb Ev Rd * W → Owned Cb Ev Rd * W).

(** A timer callback as [RunDue] sees it. *)
Definition exec_timer (cb : Cb) (s : TimerHeap Cb * (Owned Cb Ev Rd * W))
    : TimerHeap Cb * (Owned Cb Ev Rd * W) :=
  let '(h, (o, w)) := s in
  let '(o', w') := call_cb cb ({| o with timers_ := h |}, w) in
  (timers_ o', (o', w')).

(** [timers_.RunDue(now)]; [None] when it has not returned within the fuel. *)
Definition run_timers (fuel : nat) (now : Z) (o : Owned Cb Ev Rd) (w : W)
    : option (Owned Cb Ev Rd * W) :=
  match RunDue exec_timer fuel (timers_ o) now (o, w) with
  | Ran h (o', w') _ => Some ({| o' with timers_ := h |}, w')
  | _ => None
  end.

(** The second [pollfd]. *)
Definition watched_pollfd (o : Owned Cb Ev Rd) (w : W) : option (Z * Z) :=
  if 0 <=? watched_fd_ o
  then Some (watched_fd_ o,
             match watched_events_fn_ o with Some f => call_ev f (o, w) | None => 0 end)
  else None.

(** The dispatch after [poll]: drain the wakeup, then the readiness handler. *)
Definition dispatch_ready (nfds2 : bool) (revents : Z) (o : Owned Cb Ev Rd) (w : W)
    : Owned Cb Ev Rd * W :=
  if nfds2 && negb (revents =? 0)
  then match watched_on_ready_ o with Some f => call_rd f revents (o, w) | None => (o, w) end
  else (o, w).

Abbreviation Sys := (Sys Op Cb Ev Rd W).

Definition init_sys (wakeup_fd : Z) (w : W) : Sys :=
  {| shared := new_shared; owned := new_owned; world := w;
     wakeup_ := Wakeup.new_wakeup wakeup_fd; pc := NotStarted; notifying := 0;
     posted := []; executed := []; joins := 0 |}.

(** Any thread: [Start], the critical sections of [Post] and [Stop], and the
    [wakeup_.Notify()] that follows each.  (A closure that calls [Post] from the loop
    thread is such a caller too.) *)
Inductive caller_step : Sys → Sys → Prop :=
  | step_start s rc :
      caller_step s
        (let '(sh, ok) := Start (Wakeup.fd_ (wakeup_ s)) rc (shared s) in
         if ok then {| s with shared := sh; pc := AtTop |} else s)
  | step_post s op :
      caller_step s
        (let '(sh, ok) := Post_locked (shared s) op in
         if ok then {| s with shared := sh; notifying := S (notifying s);
                              posted := posted s ++ [op] |} else s)
  | step_stop s :
      caller_step s
        (let '(sh, must_join) := Stop_locked (shared s) in
         {| s with shared := sh; notifying := S (notifying s);
                   joins := if must_join then S (joins s) else joins s |})
  | step_notify s n k :
      notifying s = S k →
      caller_step s {| s with notifying := k; wakeup_ := Wakeup.Notify n (wakeup_ s) |}.

(** The loop thread: [RunPendingOps], [RunDue], [poll] and the dispatch. *)
Inductive loop_step : Sys → Sys → Prop :=
  | step_take s :
      pc s = AtTop →
      loop_step s
        (let '(sh, (ops, stopping)) := take_ops (shared s) in
         {| s with shared := sh; pc := Running ops stopping |})
  | step_run s op ops stopping o w :
      pc s = Running (op :: ops) stopping → call_op op (owned s, world s) = (o, w) →
      loop_step s {| s with owned := o; world := w; pc := Running ops stopping;
                            executed := executed s ++ [op] |}
  | step_ran s stopping :
      pc s = Running [] stopping →
      loop_step s {| s with pc := if stopping then Exited else AtTimers |}
  | step_timers s fuel now1 now2 o w h t :
      pc s = AtTimers → run_timers fuel now1 (owned s) (world s) = Some (o, w) →
      PollTimeoutMs (timers_ o) now2 = (h, t) →
      loop_step s {| s with owned := {| o with timers_ := h |}; world := w;
                            pc := Polling (watched_pollfd o w) t |}
  | step_poll s watched t revents :
      pc s = Polling watched t →
      (* poll returns for the eventfd, for the socket, or on its timeout *)
      Wakeup.readable (wakeup_ s) = true ∨ (is_Some watched ∧ revents ≠ 0) ∨ 0 <= t →
      loop_step s {| s with pc := Polled (bool_decide (is_Some watched))
                                    (Wakeup.readable (wakeup_ s)) revents |}
  | step_dispatch s nfds2 wake revents n o w :
      pc s = Polled nfds2 wake revents →
      dispatch_ready nfds2 revents (owned s) (world s) = (o, w) →
      loop_step s {| s with owned := o; world := w; pc := AtTop;
                            wakeup_ := if wake then Wakeup.Drain n (wakeup_ s)
                                       else wakeup_ s |}.

(** [poll] fails: interrupted, the loop goes round; on any other error it returns. *)
Inductive poll_fault : Sys → Sys → Prop :=
  | step_poll_eintr s watched t :
      pc s = Polling watched t → poll_fault s {| s with pc := AtTop |}
  | step_poll_error s watched t :
      pc s = Polling watched t → poll_fault s {| s with pc := Dead |}.

Definition step (s s' : Sys) : Prop := caller_step s s' ∨ loop_step s s' ∨ poll_fault s s'.

Definition reachable (wakeup_fd : Z) (w0 : W) (s : Sys) : Prop :=
  rtc step (init_sys wakeup_fd w0) s.

(** ** Invariant *)

(** The operations swapped out of the queue and not yet called. *)
Definition in_flight (s : Sys) : list Op :=
  match pc s with Running ops _ => ops | _ => [] end.

(** The loop has looked at the queue and the stop flag and will sleep, or is
    asleep, without looking again. *)
Definition committed (p : Pc Op) : bool :=
  match p with Running _ false | AtTimers | Polling _ _ => true | _ => false end.

Definition leaving (p : Pc Op) : bool :=
  match p with Running _ true | Exited => true | _ => false end.

Record sys_inv (s : Sys) : Prop := {
  sinv_wakeup : started_ (shared s) = true → Wakeup.wakeup_ok (wakeup_ s);
  sinv_counter : 0 <= Wakeup.counter (wakeup_ s) <= Wakeup.eventfd_max;
  sinv_fifo : posted s = executed s ++ in_flight s ++ ops_ (shared s);
  sinv_pending :
    committed (pc s) = true →
    ops_ (shared s) ≠ [] ∨ stop_requested_ (shared s) = true →
    Wakeup.readable (wakeup_ s) = true ∨ (0 < notifying s)%nat;
  sinv_leaving :
    leaving (pc s) = true → stop_requested_ (shared s) = true ∧ ops_ (shared s) = [];
  sinv_joined : joins s = if joined_ (shared s) then 1%nat else 0%nat;
  sinv_joined_started : joined_ (shared s) = true → started_ (shared s) = true;
  sinv_started : started_ (shared s) = true ↔ pc s ≠ NotStarted;
}.

Lemma sys_inv_init fd w : sys_inv (init_sys fd w).
Proof. by split. Qed.

(** The wakeup's invariant does not need an open descriptor: with a negative one
    both operations do nothing. *)
Lemma notify_counter n w :
  0 <= Wakeup.counter w <= Wakeup.eventfd_max →
  0 <= Wakeup.counter (Wakeup.Notify n w) <= Wakeup.eventfd_max ∧
  (Wakeup.wakeup_ok w → Wakeup.wakeup_ok (Wakeup.Notify n w)) ∧
  (Wakeup.wakeup_ok w → Wakeup.readable (Wakeup.Notify n w) = true).
Proof.
  intros Hc. split; [|split; [apply Wakeup.Notify_ok|apply Wakeup.Notify_readable]].
  unfold Wakeup.Notify. case_test; [done|].
  rewrite Wakeup.retry_interrupted by done.
  unfold Wakeup.sys_write. case_test; simpl; lia.
Qed.

Lemma drain_counter n w :
  0 <= Wakeup.counter w <= Wakeup.eventfd_max →
  0 <= Wakeup.counter (Wakeup.Drain n w) <= Wakeup.eventfd_max ∧
  (Wakeup.wakeup_ok w → Wakeup.wakeup_ok (Wakeup.Drain n w)).
Proof.
  intros Hc. split; [|apply Wakeup.Drain_ok].
  unfold Wakeup.Drain. case_test; [done|].
  rewrite Wakeup.retry_interrupted by done.
  unfold Wakeup.sys_read. case_test; simpl; lia.
Qed.

Lemma sys_inv_caller s s' : caller_step s s' → sys_inv s → sys_inv s'.
Proof.
  intros Hstep Hinv. pose proof Hinv as [Hw Hc Hf Hp Hl Hj Hjs Hs]. destruct Hstep.
  - unfold Start. repeat case_test; simpl; try done. bool_to_prop.
    assert (pc s = NotStarted) as Hpc by (destruct (pc s); try done; exfalso;
      assert (started_ (shared s) = true) by (by apply Hs); congruence).
    unfold in_flight in Hf. rewrite Hpc in Hf.
    by split.
  - unfold Post_locked. case_test; simpl; [done|].
    split; simpl; try done.
    + rewrite Hf, <- !app_assoc. done.
    + intros. right. lia.
    + intros Hlv. destruct (Hl Hlv). congruence.
  - unfold Stop_locked. simpl. case_test; bool_to_prop; split; simpl; try done;
      try (intros; right; lia); try (intros Hlv; destruct (Hl Hlv); done).
    + by rewrite Hj, H0.
  - destruct (notify_counter n (wakeup_ s) Hc) as (Hc' & Hok & Hrd).
    split; simpl; auto. intros Hcm _. left. apply Hrd, Hw, Hs. by destruct (pc s).
Qed.

Lemma sys_inv_loop s s' : loop_step s s' → sys_inv s → sys_inv s'.
Proof.
  intros Hstep Hinv. pose proof Hinv as [Hw Hc Hf Hp Hl Hj Hjs Hs]. destruct Hstep;
    unfold in_flight in *;
    match goal with H : pc s = _ |- _ => rewrite H in * end.
  - split; simpl; try done.
    + by rewrite app_nil_r.
    + destruct (stop_requested_ (shared s)) eqn:E; [done|]. intros _ [|]; done.
    + by destruct (stop_requested_ (shared s)).
    + by rewrite Hs.
  - split; simpl; try done.
    + by rewrite <- !app_assoc.
    + rewrite Hs. by destruct stopping.
  - destruct stopping; split; simpl; try done; rewrite Hs; done.
  - split; simpl; try done; rewrite Hs; done.
  - split; simpl; try done; rewrite Hs; done.
  - destruct (drain_counter n (wakeup_ s) Hc) as (Hc' & Hok).
    split; simpl; try done; try (rewrite Hs; done); destruct wake; auto.
Qed.

Lemma sys_inv_fault s s' : poll_fault s s' → sys_inv s → sys_inv s'.
Proof.
  intros Hstep Hinv. pose proof Hinv as [Hw Hc Hf Hp Hl Hj Hjs Hs]. destruct Hstep;
    unfold in_flight in *;
    match goal with H : pc s = _ |- _ => rewrite H in * end;
    split; simpl; try done; rewrite Hs; done.
Qed.

Lemma reachable_inv fd w0 s : reachable fd w0 s → sys_inv s.
Proof.
  revert s. apply rtc_ind_r; [apply sys_inv_init|].
  intros y z _ [?|[?|?]]; [by apply sys_inv_caller|by apply sys_inv_loop|by apply sys_inv_fault].
Qed.

(** ** Stopping *)

(** Loop-thread steps left once a stop is requested. *)
Definition steps_to_exit (s : Sys) : nat :=
  match pc s with
  | NotStarted | Exited | Dead => 0
  | Running l true => 1 + length l
  | AtTop => 2 + length (ops_ (shared s))
  | Polled _ _ _ => 3 + length (ops_ (shared s))
  | Polling _ _ => 4 + length (ops_ (shared s))
  | AtTimers => 5 + length (ops_ (shared s))
  | Running l false => 6 + length l + length (ops_ (shared s))
  end.

Lemma loop_step_decreases s s' :
  stop_requested_ (shared s) = true → loop_step s s' ∨ poll_fault s s' →
  stop_requested_ (shared s') = true ∧ (steps_to_exit s' < steps_to_exit s)%nat.
Proof.
  intros Hstop [Hs|Hs]; destruct Hs; simpl; (split; [done|]); unfold steps_to_exit; simpl;
    match goal with H : pc s = _ |- _ => rewrite H end; rewrite ?Hstop;
    try destruct stopping; simpl; lia.
Qed.

(** No caller makes the way to the exit longer: [Post] and [Start] are refused. *)
Lemma caller_step_stopped s s' :
  stop_requested_ (shared s) = true → caller_step s s' →
  stop_requested_ (shared s') = true ∧ steps_to_exit s' = steps_to_exit s.
Proof.
  intros Hstop Hs. destruct Hs.
  - unfold Start. rewrite Hstop, orb_true_r. done.
  - unfold Post_locked. by rewrite Hstop.
  - unfold Stop_locked. unfold steps_to_exit. simpl. by destruct (_ && _); simpl; rewrite ?Hstop.
  - done.
Qed.

(** A run of all threads in which the loop thread makes [n] steps. *)
Inductive interleaved : nat → Sys → Sys → Prop :=
  | il_refl s : interleaved 0 s s
  | il_caller n s1 s2 s3 : caller_step s1 s2 → interleaved n s2 s3 → interleaved n s1 s3
  | il_loop n s1 s2 s3 :
      loop_step s1 s2 ∨ poll_fault s1 s2 → interleaved n s2 s3 → interleaved (S n) s1 s3.

Lemma interleaved_bound n s s' :
  stop_requested_ (shared s) = true → interleaved n s s' → (n + steps_to_exit s' <= steps_to_exit s)%nat.
Proof.
  intros Hstop Hrun. revert Hstop.
  induction Hrun as [s|n s1 s2 s3 Hc _ IH|n s1 s2 s3 Hl _ IH]; intros Hstop; [lia|..].
  - destruct (caller_step_stopped _ _ Hstop Hc) as [H2 <-]. by apply IH.
  - destruct (loop_step_decreases _ _ Hstop Hl) as [H2 Hlt]. specialize (IH H2). lia.
Qed.

(** A loop that has been asked to stop is not blocked, in particular its [poll] returns,
    unless a caller still has to notify. *)
Lemma loop_step_enabled s :
  sys_inv s → stop_requested_ (shared s) = true →
  (pc s = AtTimers →
   ∃ fuel now r, run_timers fuel now (owned s) (world s) = Some r) →
  (∃ s', loop_step s s') ∨ (0 < notifying s)%nat ∨ pc s = NotStarted ∨ pc s = Exited ∨ pc s = Dead.
Proof.
  intros Hinv Hstop Ht. destruct (pc s) as [| |l st| |wt t|n2 wk rv| |] eqn:E; auto 10.
  - left. eexists. by apply step_take.
  - left. destruct l as [|op l].
    + eexists. by eapply step_ran.
    + destruct (call_op op (owned s, world s)) as [o w] eqn:Ho. eexists. by eapply step_run.
  - left. destruct Ht as (fuel & now & [o w] & Hr); [done|].
    destruct (PollTimeoutMs (timers_ o) now) as [h t] eqn:Hp.
    eexists. by eapply step_timers.
  - destruct (sinv_pending s Hinv) as [?|?]; rewrite ?E; auto.
    left. eexists. eapply (step_poll s wt t 0); [done|]. by left.
  - left. destruct (dispatch_ready n2 rv (owned s) (world s)) as [o w] eqn:Ho.
    eexists. by eapply (step_dispatch s n2 wk rv 0).
Qed.

End Loop.
End EventThread.

(** ** Properties *)

Section Properties.
Import EventThread.
Context {Op Cb Ev Rd W : Type} `{SH : !StdHeap TimerHeap.EntryLater}.
Context (call_op : Op → Owned Cb Ev Rd * W → Owned Cb Ev Rd * W).
Context (call_cb : Cb → Owned Cb Ev Rd * W → Owned Cb Ev Rd * W).
Context (call_ev : Ev → Owned Cb Ev Rd * W → Z).
Context (call_rd : Rd → Z → Owned Cb Ev Rd * W → Owned Cb Ev Rd * W).

(** C14: no wakeup is lost, for any interleaving of posting and stopping threads with
    the loop: whenever the loop sleeps in [poll] with operations queued or a stop
    requested, the eventfd is readable or some caller is about to notify. *)
Theorem no_lost_wakeup (wakeup_fd : Z) (w0 : W) (s : Sys Op Cb Ev Rd W)
    (watched : option (Z * Z)) (timeout_ms : Z) :
  reachable call_op call_cb call_ev call_rd wakeup_fd w0 s →
  pc s = Polling watched timeout_ms →
  ops_ (shared s) ≠ [] ∨ stop_requested_ (shared s) = true →
  Wakeup.readable (wakeup_ s) = true ∨ (0 < notifying s)%nat.
Proof.
  intros Hr Hpc Hq. apply reachable_inv in Hr as Hinv.
  apply (sinv_pending s Hinv); [by rewrite Hpc|done].
Qed.

(** C15: every operation [Post] accepted runs exactly once and in order: the accepted
    operations are those executed, then those swapped out for execution, then the
    queue; and when the loop has exited after [Stop], all of them have run, the queue
    is empty and every later [Post] is refused. *)
Theorem posted_ops_run_once_in_order (wakeup_fd : Z) (w0 : W) (s : Sys Op Cb Ev Rd W) :
  reachable call_op call_cb call_ev call_rd wakeup_fd w0 s →
  posted s = executed s ++ in_flight s ++ ops_ (shared s) ∧
  (pc s = Exited → executed s = posted s ∧ ∀ op, Post_locked (shared s) op = (shared s, false)).
Proof.
  intros Hr. apply reachable_inv in Hr as Hinv. split; [apply (sinv_fifo s Hinv)|].
  intros Hpc. destruct (sinv_leaving s Hinv) as [Hstop Hops]; [by rewrite Hpc|]. split.
  - rewrite (sinv_fifo s Hinv). unfold in_flight. by rewrite Hpc, Hops, !app_nil_r.
  - intros op. unfold Post_locked. by rewrite Hstop.
Qed.

(** C31: the [pthread_join] in [Stop] returns.  After a stop request the loop thread
    makes at most [steps_to_exit] more steps in any interleaving with any number of
    callers that post, stop, start and notify, [poll] failures included; and in every
    state of such a run in which it still runs it has a step to make (its [poll] does not
    block) or a caller has yet to write its notification, provided that due timer
    callbacks return. *)
Theorem stop_ends_the_loop (wakeup_fd : Z) (w0 : W) (s : Sys Op Cb Ev Rd W) :
  reachable call_op call_cb call_ev call_rd wakeup_fd w0 s →
  stop_requested_ (shared s) = true →
  ∀ n s', interleaved call_op call_cb call_ev call_rd n s s' →
    (n <= steps_to_exit s)%nat ∧
    ((pc s' = AtTimers →
      ∃ fuel now r, run_timers call_cb fuel now (owned s') (world s') = Some r) →
     (∃ s2, loop_step call_op call_cb call_ev call_rd s' s2) ∨ (0 < notifying s')%nat ∨
     pc s' = NotStarted ∨ pc s' = Exited ∨ pc s' = Dead).
Proof.
  intros Hr Hstop n s' Hrun. split.
  - pose proof (interleaved_bound _ _ _ _ _ _ _ Hstop Hrun). lia.
  - assert (Hs' : sys_inv s' ∧ stop_requested_ (shared s') = true);
      [|destruct Hs'; by apply loop_step_enabled].
    apply reachable_inv in Hr. revert Hr Hstop.
    induction Hrun as [s|n s1 s2 s3 Hc _ IH|n s1 s2 s3 Hl _ IH]; intros Hi Hstop; [done|..].
    + apply IH; [by eapply sys_inv_caller|by eapply caller_step_stopped].
    + apply IH; [|by eapply loop_step_decreases].
      destruct Hl; [by eapply sys_inv_loop|by eapply sys_inv_fault].
Qed.

(** The thread is joined at most once, however many threads call [Stop], and only
    if it was started; and a stopped or running thread is not started again. *)
Theorem joined_at_most_once (wakeup_fd : Z) (w0 : W) (s : Sys Op Cb Ev Rd W) :
  reachable call_op call_cb call_ev call_rd wakeup_fd w0 s →
  (joins s <= 1)%nat ∧ (joins s = 1%nat → started_ (shared s) = true) ∧
  (Stop_locked (shared s)).2 = (started_ (shared s) && bool_decide (joins s = 0%nat)) ∧
  (started_ (shared s) || stop_requested_ (shared s) = true →
   ∀ rc, Start (Wakeup.fd_ (wakeup_ s)) rc (shared s) = (shared s, false)).
Proof.
  intros Hr. apply reachable_inv in Hr as Hinv. rewrite (sinv_joined s Hinv).
  pose proof (sinv_joined_started s Hinv) as Hj. unfold Stop_locked, Start. simpl.
  destruct (joined_ (shared s)) eqn:E; simpl.
  - rewrite Hj by done. split_and!; [lia|done..].
  - split_and!; [lia|done| |]; [by destruct (started_ (shared s))|].
    by intros ->.
Qed.

End Properties.

(** A concrete event thread whose operations and handlers count. *)
Section Example.
Import TimerHeap EventThread.

Definition count_op (n : Z) (s : Owned unit unit unit * Z) : Owned unit unit unit * Z :=
  (s.1, s.2 + n).

Definition idle_cb (_ : unit) (s : Owned unit unit unit * Z) := s.
Definition idle_ev (_ : unit) (s : Owned unit unit unit * Z) := POLLIN.
Definition idle_rd (_ : unit) (revents : Z) (s : Owned unit unit unit * Z) := s.

Abbreviation CountSys := (Sys Z unit unit unit Z).

Definition count_reachable : CountSys → Prop :=
  reachable count_op idle_cb idle_ev idle_rd 5 0.

(** Asleep in [poll] with an operation posted and its poster about to notify. *)
Definition sleeping_with_work : CountSys :=
  {| shared := {| ops_ := [7]; stop_requested_ := false; started_ := true; joined_ := false |};
     owned := new_owned; world := 0; wakeup_ := Wakeup.new_wakeup 5; pc := Polling None (-1);
     notifying := 1; posted := [7]; executed := []; joins := 0 |}.

(** Stopped with one operation queued. *)
Definition stopped_at_top : CountSys :=
  {| shared := {| ops_ := [7]; stop_requested_ := true; started_ := true; joined_ := true |};
     owned := new_owned; world := 0; wakeup_ := {| Wakeup.fd_ := 5; Wakeup.counter := 2 |};
     pc := AtTop; notifying := 0; posted := [7]; executed := []; joins := 1 |}.

(** The same after the loop has run it and left. *)
Definition stopped_exited : CountSys :=
  {| shared := {| ops_ := []; stop_requested_ := true; started_ := true; joined_ := true |};
     owned := new_owned; world := 7; wakeup_ := {| Wakeup.fd_ := 5; Wakeup.counter := 2 |};
     pc := Exited; notifying := 0; posted := [7]; executed := [7]; joins := 1 |}.

Lemma sleeping_reachable : count_reachable sleeping_with_work.
Proof.
  eapply rtc_l; [left; apply (step_start _ 0)|]. cbn.
  eapply rtc_l; [right; left; by apply step_take|]. cbn.
  eapply rtc_l; [right; left; by eapply step_ran|]. cbn.
  eapply rtc_l; [right; left; by eapply (step_timers _ _ _ _ _ 1 0 0)|].
  eapply rtc_l; [left; apply (step_post _ 7)|]. apply rtc_refl.
Qed.

Lemma stopped_reachable : count_reachable stopped_at_top.
Proof.
  eapply rtc_l; [left; apply (step_start _ 0)|]. cbn.
  eapply rtc_l; [left; apply (step_post _ 7)|]. cbn.
  eapply rtc_l; [left; apply step_stop|]. cbn.
  eapply rtc_l; [left; by eapply (step_notify _ 0 1)|].
  eapply rtc_l; [left; by eapply (step_notify _ 2 0)|]. apply rtc_refl.
Qed.

Lemma exited_reachable : count_reachable stopped_exited.
Proof.
  unfold count_reachable, reachable. etrans; [apply stopped_reachable|].
  eapply rtc_l; [right; left; by apply step_take|]. cbn.
  eapply rtc_l; [right; left; by eapply step_run|]. cbn.
  eapply rtc_l; [right; left; by eapply step_ran|]. apply rtc_refl.
Qed.

Lemma no_lost_wakeup_witness :
  Wakeup.readable (wakeup_ sleeping_with_work) = true ∨ (0 < notifying sleeping_with_work)%nat.
Proof.
  eapply (no_lost_wakeup count_op idle_cb idle_ev idle_rd 5 0
            sleeping_with_work None (-1)).
  - exact sleeping_reachable.
  - reflexivity.
  - left. discriminate.
Defined.

Lemma posted_ops_run_once_in_order_witness :
  executed stopped_exited = posted stopped_exited ∧
  Post_locked (shared stopped_exited) 9 = (shared stopped_exited, false).
Proof.
  destruct (proj2 (posted_ops_run_once_in_order count_op idle_cb idle_ev idle_rd 5 0
                     stopped_exited exited_reachable) eq_refl) as [H1 H2].
  split; [exact H1|apply H2].
Defined.

Lemma stop_ends_the_loop_witness :
  (∀ n s', interleaved count_op idle_cb idle_ev idle_rd n stopped_at_top s' → (n <= 3)%nat) ∧
  ((∃ s', loop_step count_op idle_cb idle_ev idle_rd stopped_at_top s') ∨ (0 < notifying stopped_at_top)%nat ∨
   pc stopped_at_top = NotStarted ∨ pc stopped_at_top = Exited ∨ pc stopped_at_top = Dead).
Proof.
  pose proof (stop_ends_the_loop count_op idle_cb idle_ev idle_rd 5 0
                stopped_at_top stopped_reachable eq_refl) as H.
  split; [intros n s' Hn; exact (proj1 (H n s' Hn))|].
  apply (proj2 (H 0%nat stopped_at_top (il_refl _ _ _ _ _))). discriminate.
Defined.

Lemma joined_at_most_once_witness :
  (joins stopped_exited <= 1)%nat ∧
  Start (Wakeup.fd_ (wakeup_ stopped_exited)) 0 (shared stopped_exited) =
    (shared stopped_exited, false).
Proof.
  destruct (joined_at_most_once count_op idle_cb idle_ev idle_rd 5 0
              stopped_exited exited_reachable) as (H1 & _ & _ & H2).
  split; [exact H1|]. apply H2. reflexivity.
Defined.

End Example.
