(* ===== verification/Http2Session.v ===== *)
(** * The HTTP/2 session ([src/transport/http2_session.h], [src/transport/http2_session.cc])

    The wrapper over nghttp2.  nghttp2 is not part of the repository: it is the class
    [Nghttp2] of operations on an abstract session state, and [Nghttp2Laws] states the
    documented behaviour the wrapper relies on.  A call into nghttp2 that runs callbacks
    is described by the callbacks it makes: [nghttp2_session_mem_recv] by the list of
    events, [nghttp2_session_mem_send] by a tree that branches on what the data
    provider returned.  The hooks are functions on the state [W] of the rest of the
    program, which by the class's contract do not call back into the session.

    [Stream] objects live in a store of their own ([alloc]), named by the pointers that
    [streams_] owns and that nghttp2 keeps as data sources, so that reading a freed
    stream is an observable failure.  Times are nanoseconds; the option's milliseconds
    are converted where the code compares them. *)

From Stdlib Require Import ZArith Lia.
From Stdlib Require Import Strings.String Strings.Byte.
From stdpp Require Import base numbers list gmap.
From S2P Require Import Prelude.

Local Open Scope Z_scope.

Definition Header : Type := bytes * bytes.
Abbreviation HeaderList := (list Header).

(** ** nghttp2 *)

Definition NGHTTP2_FLAG_ACK : Z := 1.
Definition NGHTTP2_FLAG_END_STREAM : Z := 1.
Definition NGHTTP2_ENHANCE_YOUR_CALM : Z := 11.

Inductive HeadersCategory : Type := HCAT_REQUEST | HCAT_RESPONSE | HCAT_PUSH_RESPONSE | HCAT_HEADERS.

(** [nghttp2_frame], by [hd.type], with the members the callbacks read. *)
Inductive Frame : Type :=
  | FHeaders (stream_id flags : Z) (cat : HeadersCategory)
  | FSettings (flags : Z)
  | FPing (flags : Z)
  | FGoaway (error_code last_stream_id : Z) (opaque_data : option bytes)
  | FOther (type stream_id : Z).

(** The callbacks nghttp2 makes. *)
Inductive Event : Type :=
  | EvFrame (frame : Frame)
  | EvHeader (frame : Frame) (name value : bytes)
  | EvData (stream_id : Z) (data : bytes)
  | EvClose (stream_id : Z) (error_code : Z).

(** [nghttp2_session_mem_send]: its return value and chunk, after the data-provider
    reads (the pointer, the size of the buffer; the bytes and EOF flag it got) and the
    callbacks it made. *)
Inductive SendTree (St : Type) : Type :=
  | SendRet (s : St) (n : Z) (chunk : bytes)
  | SendRead (source : Z) (length : Z) (k : bytes → bool → SendTree St)
  | SendEvent (e : Event) (k : SendTree St).
Arguments SendRet {St} s n chunk.
Arguments SendRead {St} source length k.
Arguments SendEvent {St} e k.

Class Nghttp2 := {
  ng_session : Type;
  ng_submit_settings : ng_session → list (Z * Z) → ng_session * Z;
  ng_set_local_window_size : ng_session → Z → Z → ng_session * Z;
  ng_mem_recv : ng_session → bytes → ng_session * (list Event * Z);
  ng_mem_send : ng_session → SendTree ng_session;
  ng_want_write : ng_session → bool;
  ng_submit_request : ng_session → HeaderList → Z → ng_session * Z;
  ng_submit_ping : ng_session → bytes → ng_session * Z;
  ng_terminate_session : ng_session → ng_session;
  ng_strerror : Z → bytes;
}.

(** ** The class *)

Record Http2SessionOptions : Type := {
  max_concurrent_streams : Z;
  initial_window_size : Z;
  keepalive_time : Z;      (* milliseconds *)
  keepalive_timeout : Z;   (* milliseconds *)
  keepalive_permit_without_calls : bool;
}.

Definition default_http2_options : Http2SessionOptions :=
  {| max_concurrent_streams := 8; initial_window_size := 4 * 1024 * 1024;
     keepalive_time := 60000; keepalive_timeout := 20000;
     keepalive_permit_without_calls := true |}.

(** Milliseconds in clock ticks. *)
Definition ms (t : Z) : Z := t * 1000000.

(** Hooks; [None] is an empty [std::function]. *)
Record Hooks (W : Type) : Type := {
  on_remote_settings : option (W → W);
  on_settings_ack : option (W → W);
  on_ping_ack : option (W → W);
  on_goaway : option (Z → Z → bool → W → W);
}.
Arguments on_remote_settings {W} _.
Arguments on_settings_ack {W} _.
Arguments on_ping_ack {W} _.
Arguments on_goaway {W} _.

Record StreamHooks (W : Type) : Type := {
  on_response_headers : option (HeaderList → bool → W → W);
  on_trailers : option (HeaderList → W → W);
  on_data : option (bytes → W → W);
  on_close : option (Z → W → W);
}.
Arguments on_response_headers {W} _.
Arguments on_trailers {W} _.
Arguments on_data {W} _.
Arguments on_close {W} _.

Record Stream (W : Type) : Type := {
  hooks : StreamHooks W;
  body : bytes;
  body_offset : Z;
  pending_headers : HeaderList;
}.
Arguments hooks {W} _.
Arguments body {W} _.
Arguments body_offset {W} _.
Arguments pending_headers {W} _.

Inductive KeepaliveAction : Type := kNone | kPingSent | kDead.

Record Http2Session `{NG : Nghttp2} (W : Type) : Type := {
  options_ : Http2SessionOptions;
  hooks_ : Hooks W;
  session_ : option ng_session;
  error_ : bytes;
  out_ : bytes;
  out_consumed_ : Z;
  last_read_ : Z;
  ping_sent_ : Z;
  ping_outstanding_ : bool;
  ping_counter_ : Z;
  pings_acked_ : Z;
  active_streams_ : Z;
  streams_ : gmap Z Z;
  draining_ : bool;
  too_many_pings_ : bool;
  (* the heap of [Stream] objects and the next pointer of its allocator *)
  alloc : gmap Z (Stream W);
  next_ptr : Z;
}.
Arguments options_ {NG W} _.
Arguments hooks_ {NG W} _.
Arguments session_ {NG W} _.
Arguments error_ {NG W} _.
Arguments out_ {NG W} _.
Arguments out_consumed_ {NG W} _.
Arguments last_read_ {NG W} _.
Arguments ping_sent_ {NG W} _.
Arguments ping_outstanding_ {NG W} _.
Arguments ping_counter_ {NG W} _.
Arguments pings_acked_ {NG W} _.
Arguments active_streams_ {NG W} _.
Arguments streams_ {NG W} _.
Arguments draining_ {NG W} _.
Arguments too_many_pings_ {NG W} _.
Arguments alloc {NG W} _.
Arguments next_ptr {NG W} _.

Section Operations.
Context `{NG : Nghttp2} {W : Type}.
Abbreviation Session := (Http2Session W).

(** *** nghttp2 callbacks ([Http2Session::Impl]) *)

(** [FindStream] and the object the pointer names. *)
Definition FindStream (self : Session) (stream_id : Z) : option (Z * Stream W) :=
  match streams_ self !! stream_id with
  | None => None
  | Some p => match alloc self !! p with Some st => Some (p, st) | None => None end
  end.

Definition kTooManyPings : bytes := bs "too_many_pings".

Definition call {A : Type} (f : option A) (k : A → W → W) (w : W) : W :=
  match f with Some f => k f w | None => w end.

Definition OnFrameRecv (frame : Frame) (self : Session) (w : W) : Session * W :=
  match frame with
  | FHeaders stream_id flags cat =>
      match FindStream self stream_id with
      | None => (self, w)
      | Some (p, stream) =>
          let headers := pending_headers stream in
          let self :=
            {| self with alloc := <[p := {| stream with pending_headers := [] |}]> (alloc self) |} in
          match cat with
          | HCAT_RESPONSE =>
              let end_stream := negb (Z.land flags NGHTTP2_FLAG_END_STREAM =? 0) in
              (self, call (on_response_headers (hooks stream)) (λ f, f headers end_stream) w)
          | _ => (self, call (on_trailers (hooks stream)) (λ f, f headers) w)
          end
      end
  | FSettings flags =>
      if negb (Z.land flags NGHTTP2_FLAG_ACK =? 0)
      then (self, call (on_settings_ack (hooks_ self)) id w)
      else (self, call (on_remote_settings (hooks_ self)) id w)
  | FPing flags =>
      if negb (Z.land flags NGHTTP2_FLAG_ACK =? 0)
      then ({| self with ping_outstanding_ := false;
                         pings_acked_ := (pings_acked_ self + 1) mod 2 ^ 64 |},
            call (on_ping_ack (hooks_ self)) id w)
      else (self, w)
  | FGoaway error_code last_stream_id opaque_data =>
      let too_many :=
        (error_code =? NGHTTP2_ENHANCE_YOUR_CALM) && bool_decide (opaque_data = Some kTooManyPings) in
      ({| self with draining_ := true; too_many_pings_ := too_many |},
       call (on_goaway (hooks_ self)) (λ f, f error_code last_stream_id too_many) w)
  | FOther _ _ => (self, w)
  end.

Definition OnHeader (frame : Frame) (name value : bytes) (self : Session) : Session :=
  match frame with
  | FHeaders stream_id _ _ =>
      match FindStream self stream_id with
      | None => self
      | Some (p, stream) =>
          {| self with alloc :=
               <[p := {| stream with pending_headers := pending_headers stream ++ [(name, value)] |}]>
                 (alloc self) |}
      end
  | _ => self
  end.

Definition OnDataChunkRecv (stream_id : Z) (data : bytes) (self : Session) (w : W) : W :=
  match FindStream self stream_id with
  | None => w
  | Some (_, stream) => call (on_data (hooks stream)) (λ f, f data) w
  end.

(** The stream object is destroyed when the callback returns. *)
Definition OnStreamClose (stream_id error_code : Z) (self : Session) (w : W) : Session * W :=
  match streams_ self !! stream_id with
  | None => (self, w)
  | Some p =>
      let stream := alloc self !! p in
      ({| self with streams_ := delete stream_id (streams_ self);
                    active_streams_ := active_streams_ self - 1;
                    alloc := delete p (alloc self) |},
       match stream with
       | Some stream => call (on_close (hooks stream)) (λ f, f error_code) w
       | None => w
       end)
  end.

Definition on_event (e : Event) (self : Session) (w : W) : Session * W :=
  match e with
  | EvFrame frame => OnFrameRecv frame self w
  | EvHeader frame name value => (OnHeader frame name value self, w)
  | EvData stream_id data => (self, OnDataChunkRecv stream_id data self w)
  | EvClose stream_id error_code => OnStreamClose stream_id error_code self w
  end.

Fixpoint on_events (evs : list Event) (self : Session) (w : W) : Session * W :=
  match evs with
  | [] => (self, w)
  | e :: evs => let '(self, w) := on_event e self w in on_events evs self w
  end.

(** [DataSourceRead] on the stream it was given: the bytes copied and the EOF flag. *)
Definition DataSourceRead (stream : Stream W) (length : Z) : Stream W * bytes * bool :=
  let remaining := zlen (body stream) - body_offset stream in
  let n := Z.min length remaining in
  let data := zsubstr (body_offset stream) n (body stream) in
  let stream := {| stream with body_offset := body_offset stream + n |} in
  (stream, data, body_offset stream =? zlen (body stream)).

(** *** Methods *)

(** The [std::move]d hooks and options, before nghttp2 is set up. *)
Definition blank_session (options : Http2SessionOptions) (hooks : Hooks W) (now : Z) : Session :=
  {| options_ := options; hooks_ := hooks; session_ := None; error_ := [];
     out_ := []; out_consumed_ := 0; last_read_ := now; ping_sent_ := 0;
     ping_outstanding_ := false; ping_counter_ := 0; pings_acked_ := 0; active_streams_ := 0;
     streams_ := ∅; draining_ := false; too_many_pings_ := false; alloc := ∅; next_ptr := 1 |}.

Definition settings_entries (o : Http2SessionOptions) : list (Z * Z) :=
  [(3, max_concurrent_streams o); (4, initial_window_size o); (2, 0)].

(** The constructor; [callbacks_rc] and [client] are what
    [nghttp2_session_callbacks_new] and [nghttp2_session_client_new] return. *)
Definition new_http2_session (options : Http2SessionOptions) (hooks : Hooks W) (now : Z)
    (callbacks_rc : Z) (client : Z * ng_session) : Session :=
  let self := blank_session options hooks now in
  if negb (callbacks_rc =? 0)
  then {| self with error_ := bs "nghttp2_session_callbacks_new failed" |}
  else
    let '(new_rc, session) := client in
    if negb (new_rc =? 0)
    then {| self with error_ := bs "nghttp2_session_client_new failed: " ++ ng_strerror new_rc |}
    else
      let '(session, settings_rc) := ng_submit_settings session (settings_entries options) in
      if negb (settings_rc =? 0)
      then {| self with error_ := bs "nghttp2_submit_settings failed: " ++ ng_strerror settings_rc |}
      else
        let window := Z.min (initial_window_size options) (2 ^ 31 - 1) in
        let '(session, window_rc) := ng_set_local_window_size session 0 window in
        if negb (window_rc =? 0)
        then {| self with error_ :=
                  bs "nghttp2_session_set_local_window_size failed: " ++ ng_strerror window_rc |}
        else {| self with session_ := Some session |}.

Definition ok (self : Session) : bool := bool_decide (is_Some (session_ self)).

Definition note_read (now : Z) (data : bytes) (self : Session) : Session :=
  if 0 <? zlen data then {| self with last_read_ := now |} else self.

Definition ReceiveBytes (now : Z) (data : bytes) (self : Session) (w : W) : Session * W * bool :=
  match session_ self with
  | None => (self, w, false)
  | Some s =>
      let self := note_read now data self in
      let '(s, (evs, rc)) := ng_mem_recv s data in
      let '(self, w) := on_events evs self w in
      let self := {| self with session_ := Some s |} in
      if rc <? 0
      then ({| self with error_ := bs "nghttp2 receive error: " ++ ng_strerror rc |}, w, false)
      else (self, w, true)
  end.

Definition SubmitUnaryRequest (headers : HeaderList) (body : bytes) (hooks : StreamHooks W)
    (self : Session) : Session * Z :=
  match session_ self with
  | None => ({| self with error_ := bs "session not initialized" |}, -1)
  | Some s =>
      if draining_ self
      then ({| self with error_ :=
                 bs "session is draining (GOAWAY received); no new streams" |}, -1)
      else
        let p := next_ptr self in
        let stream := {| hooks := hooks; body := body; body_offset := 0; pending_headers := [] |} in
        let '(s, stream_id) := ng_submit_request s headers p in
        let self := {| self with session_ := Some s; next_ptr := p + 1 |} in
        if stream_id <? 0
        then ({| self with error_ :=
                   bs "nghttp2_submit_request failed: " ++ ng_strerror stream_id |}, -1)
        else
          (* [emplace] keeps an existing element, and the new stream is destroyed *)
          let self :=
            match streams_ self !! stream_id with
            | Some _ => self
            | None => {| self with streams_ := <[stream_id := p]> (streams_ self);
                                   alloc := <[p := stream]> (alloc self) |}
            end in
          ({| self with active_streams_ := active_streams_ self + 1 |}, stream_id)
  end.

(** One call of [nghttp2_session_mem_send]; [None] when the data provider is called on
    a stream that has been destroyed. *)
Fixpoint run_send (t : SendTree ng_session) (self : Session) (w : W)
    : option (Session * W * (Z * bytes)) :=
  match t with
  | SendRet s n chunk => Some ({| self with session_ := Some s |}, w, (n, chunk))
  | SendRead p length k =>
      match alloc self !! p with
      | None => None
      | Some stream =>
          let '(stream, data, eof) := DataSourceRead stream length in
          run_send (k data eof) {| self with alloc := <[p := stream]> (alloc self) |} w
      end
  | SendEvent e k => let '(self, w) := on_event e self w in run_send k self w
  end.

(** The refill loop; the result says whether it ended without an error.  [None]:
    undefined behaviour, or the fuel is used up. *)
Fixpoint refill (fuel : nat) (self : Session) (w : W) : option (Session * W * bool) :=
  match fuel with
  | O => None
  | S fuel =>
      match session_ self with
      | None => None
      | Some s =>
          match run_send (ng_mem_send s) self w with
          | None => None
          | Some (self, w, (n, chunk)) =>
              if n <? 0
              then Some ({| self with error_ := bs "nghttp2 send error: " ++ ng_strerror n |}, w, false)
              else if n =? 0 then Some (self, w, true)
              else refill fuel {| self with out_ := out_ self ++ chunk |} w
          end
      end
  end.

(** The view [PendingOutput] returns, empty for [nullptr]. *)
Definition PendingOutput (fuel : nat) (self : Session) (w : W) : option (Session * W * bytes) :=
  match session_ self with
  | None => Some (self, w, [])
  | Some _ =>
      let filled :=
        if zlen (out_ self) <=? out_consumed_ self
        then refill fuel {| self with out_ := []; out_consumed_ := 0 |} w
        else Some (self, w, true) in
      match filled with
      | None => None
      | Some (self, w, false) => Some (self, w, [])
      | Some (self, w, true) =>
          if zlen (out_ self) <=? out_consumed_ self then Some (self, w, [])
          else Some (self, w, drop (Z.to_nat (out_consumed_ self)) (out_ self))
      end
  end.

Definition ConsumeOutput (n : Z) (self : Session) : Session :=
  let self := {| self with out_consumed_ := out_consumed_ self + n |} in
  if zlen (out_ self) <? out_consumed_ self
  then {| self with out_consumed_ := zlen (out_ self) |} else self.

Definition WantWrite (self : Session) : bool :=
  if out_consumed_ self <? zlen (out_ self) then true
  else match session_ self with Some s => ng_want_write s | None => false end.

Definition keepalive_gated (self : Session) : bool :=
  negb (keepalive_permit_without_calls (options_ self)) && (active_streams_ self =? 0).

Definition NextKeepaliveDeadline (self : Session) : option Z :=
  match session_ self with
  | None => None
  | Some _ =>
      if keepalive_gated self then None
      else if ping_outstanding_ self then Some (ping_sent_ self + ms (keepalive_timeout (options_ self)))
      else Some (last_read_ self + ms (keepalive_time (options_ self)))
  end.

(** [opaque\[i\] = (counter >> (56 - 8 * i)) & 0xFF]. *)
Definition ping_opaque (counter : Z) : bytes :=
  (λ i, z2b (Z.land (Z.shiftr counter (56 - 8 * i)) 0xff)) <$> seqZ 0 8.

(** Any read since the outstanding PING was sent counts as liveness. *)
Definition settle_ping (self : Session) : Session :=
  if ping_outstanding_ self && (ping_sent_ self <=? last_read_ self)
  then {| self with ping_outstanding_ := false |} else self.

Definition CheckKeepalive (now : Z) (self : Session) : Session * KeepaliveAction :=
  match session_ self with
  | None => (self, kNone)
  | Some s =>
      let self := settle_ping self in
      if ping_outstanding_ self then
        if ms (keepalive_timeout (options_ self)) <=? now - ping_sent_ self
        then (self, kDead) else (self, kNone)
      else if keepalive_gated self then (self, kNone)
      else if ms (keepalive_time (options_ self)) <=? now - last_read_ self then
        let counter := (ping_counter_ self + 1) mod 2 ^ 64 in
        let self := {| self with ping_counter_ := counter |} in
        let '(s, rc) := ng_submit_ping s (ping_opaque counter) in
        let self := {| self with session_ := Some s |} in
        if negb (rc =? 0)
        then ({| self with error_ := bs "nghttp2_submit_ping failed: " ++ ng_strerror rc |}, kNone)
        else ({| self with ping_sent_ := now; ping_outstanding_ := true |}, kPingSent)
      else (self, kNone)
  end.

Definition Terminate (self : Session) : Session :=
  match session_ self with
  | None => self
  | Some s => {| self with session_ := Some (ng_terminate_session s); draining_ := true |}
  end.

End Operations.

(** ** What the wrapper relies on *)

(** The streams left open by a callback. *)
Definition close_event (e : Event) (m : gmap Z Z) : gmap Z Z :=
  match e with EvClose stream_id _ => delete stream_id m | _ => m end.

Fixpoint close_events (evs : list Event) (m : gmap Z Z) : gmap Z Z :=
  match evs with [] => m | e :: evs => close_events evs (close_event e m) end.

(** The tree of a [nghttp2_session_mem_send] that starts in [s] with the streams [m]
    open, given how a state shows its open streams and its pending output. *)
Fixpoint send_contract {St : Type} (open : St → gmap Z Z) (pending : St → nat)
    (s : St) (m : gmap Z Z) (t : SendTree St) : Prop :=
  match t with
  | SendRet s' n chunk =>
      open s' = m ∧ (pending s' <= pending s)%nat ∧
      (0 < n → zlen chunk = n ∧ (pending s' < pending s)%nat)
  | SendRead p len k =>
      0 < len ∧ (∃ i, m !! i = Some p) ∧
      ∀ data eof, zlen data <= len → (data = [] → eof = true) →
        send_contract open pending s m (k data eof)
  | SendEvent e k => send_contract open pending s (close_event e m) k
  end.

(** nghttp2's documented behaviour: a request gets a stream id that no open stream has;
    the data source of a stream is read only until its close callback, with room for at
    least a byte; and as long as the provider returns no more than the buffer holds, and
    no empty piece before the end of the body, [nghttp2_session_mem_send] only works off
    its pending output, each chunk it hands out being progress. *)
Class Nghttp2Laws (NG : Nghttp2) := {
  ng_open : ng_session → gmap Z Z;
  ng_pending : ng_session → nat;
  ng_submit_settings_open s l :
    ng_open (ng_submit_settings s l).1 = ng_open s;
  ng_set_local_window_size_open s i n :
    ng_open (ng_set_local_window_size s i n).1 = ng_open s;
  ng_submit_request_open s hs p s' i :
    ng_submit_request s hs p = (s', i) →
    if i <? 0 then ng_open s' = ng_open s
    else ng_open s !! i = None ∧ ng_open s' = <[i := p]> (ng_open s);
  ng_submit_ping_open s d :
    ng_open (ng_submit_ping s d).1 = ng_open s;
  ng_terminate_session_open s :
    ng_open (ng_terminate_session s) = ng_open s;
  ng_mem_recv_open s d s' evs rc :
    ng_mem_recv s d = (s', (evs, rc)) →
    ng_open s' = close_events evs (ng_open s);
  ng_mem_send_ok s : send_contract ng_open ng_pending s (ng_open s) (ng_mem_send s);
}.

(** ** Invariant *)

Section Invariant.
Context `{NG : Nghttp2} {W : Type}.
Abbreviation Session := (Http2Session W).
Implicit Types (self : Session) (w : W).

(** The ownership of the stream objects and the bounds of the buffers. *)
Record session_inv (self : Session) : Prop := {
  hinv_owned i p : streams_ self !! i = Some p → is_Some (alloc self !! p);
  hinv_no_leak p st : alloc self !! p = Some st → p < next_ptr self ∧ ∃ i, streams_ self !! i = Some p;
  hinv_unique i j p : streams_ self !! i = Some p → streams_ self !! j = Some p → i = j;
  hinv_count : active_streams_ self = Z.of_nat (size (streams_ self));
  hinv_body p st : alloc self !! p = Some st → 0 <= body_offset st <= zlen (body st);
  hinv_out : 0 <= out_consumed_ self <= zlen (out_ self);
}.

(** What no callback touches. *)
Definition same_frame (self self' : Session) : Prop :=
  options_ self' = options_ self ∧ session_ self' = session_ self ∧ error_ self' = error_ self ∧
  out_ self' = out_ self ∧ out_consumed_ self' = out_consumed_ self ∧
  last_read_ self' = last_read_ self ∧ ping_sent_ self' = ping_sent_ self ∧
  ping_counter_ self' = ping_counter_ self ∧ next_ptr self' = next_ptr self.

#[export] Instance same_frame_preorder : PreOrder same_frame.
Proof. unfold same_frame. split; [done|]. intros ??? H1 H2. destruct_and!. split_and!; congruence. Qed.

Lemma FindStream_Some self i p st :
  FindStream self i = Some (p, st) ↔ streams_ self !! i = Some p ∧ alloc self !! p = Some st.
Proof.
  unfold FindStream. destruct (streams_ self !! i) as [q|]; [|naive_solver].
  destruct (alloc self !! q) as [st'|] eqn:E; [naive_solver|].
  split; [done|]. intros [[= ->] ?]. congruence.
Qed.

Lemma on_event_frame e self w : same_frame self (on_event e self w).1.
Proof.
  unfold same_frame. destruct e as [f|f n v|i d|i c]; simpl.
  - destruct f; simpl; repeat case_match; done.
  - destruct f; simpl; repeat case_match; done.
  - done.
  - unfold OnStreamClose. by destruct (streams_ self !! i).
Qed.

Lemma on_event_streams e self w :
  streams_ (on_event e self w).1 = close_event e (streams_ self).
Proof.
  destruct e as [f|f n v|i d|i c]; simpl.
  - destruct f; simpl; repeat case_match; done.
  - destruct f; simpl; repeat case_match; done.
  - done.
  - unfold OnStreamClose. destruct (streams_ self !! i) eqn:E; simpl; [done|].
    by rewrite delete_id.
Qed.

(** Replacing a live stream object by one with the same bounds. *)
Lemma session_inv_update self p st st' :
  session_inv self → alloc self !! p = Some st → 0 <= body_offset st' <= zlen (body st') →
  session_inv {| self with alloc := <[p := st']> (alloc self) |}.
Proof.
  intros [Ho Hl Hu Hc Hb Hout] Hp Hst. split; simpl; try done.
  - intros i q Hi. rewrite lookup_insert_is_Some'. right. by eapply Ho.
  - intros q st0. rewrite lookup_insert_Some. intros [[<- <-]|[? Hq]]; by eapply Hl.
  - intros q st0. rewrite lookup_insert_Some. intros [[<- <-]|[? Hq]]; [done|by eapply Hb].
Qed.

Lemma session_inv_close self i p :
  session_inv self → streams_ self !! i = Some p →
  session_inv {| self with streams_ := delete i (streams_ self);
                           active_streams_ := active_streams_ self - 1;
                           alloc := delete p (alloc self) |}.
Proof.
  intros [Ho Hl Hu Hc Hb Hout] Hp. split; simpl; try done.
  - intros j q Hj. apply lookup_delete_Some in Hj as [Hne Hj].
    rewrite lookup_delete_ne; [by eapply Ho|]. intros <-. apply Hne. by eapply Hu.
  - intros q st. rewrite lookup_delete_Some. intros [Hne Hq].
    destruct (Hl q st Hq) as [? [j Hj]]. split; [done|]. exists j.
    rewrite lookup_delete_ne; [done|]. intros <-. congruence.
  - intros j k q Hj Hk. apply lookup_delete_Some in Hj as [_ Hj].
    apply lookup_delete_Some in Hk as [_ Hk]. by eapply Hu.
  - rewrite Hc, map_size_delete_Some by eauto.
    assert (size (streams_ self) ≠ 0%nat); [|lia].
    apply map_size_non_empty_iff. intros He. by rewrite He in Hp.
  - intros q st Hq. apply lookup_delete_Some in Hq as [_ Hq]. by eapply Hb.
Qed.

Lemma on_event_inv e self w : session_inv self → session_inv (on_event e self w).1.
Proof.
  intros Hinv. destruct e as [f|f n v|i d|i c]; simpl; try done.
  - destruct f; simpl.
    + destruct (FindStream self stream_id) as [[p st]|] eqn:E; [|done].
      apply FindStream_Some in E as [Hs Ha].
      assert (session_inv {| self with alloc := <[p := {| st with pending_headers := [] |}]> (alloc self) |}).
      { eapply session_inv_update; try done. by apply (hinv_body self Hinv p st). }
      by destruct cat.
    + by case_test.
    + case_test; [|done]. by destruct Hinv; split.
    + by destruct Hinv; split.
    + done.
  - destruct f; simpl; try done.
    destruct (FindStream self stream_id) as [[p st]|] eqn:E; [|done].
    apply FindStream_Some in E as [Hs Ha].
    eapply session_inv_update; try done. by apply (hinv_body self Hinv p st).
  - unfold OnStreamClose. destruct (streams_ self !! i) as [p|] eqn:E; simpl; [|done].
    by apply session_inv_close.
Qed.

Lemma on_events_inv evs self w :
  session_inv self →
  let self' := (on_events evs self w).1 in
  session_inv self' ∧ same_frame self self' ∧ streams_ self' = close_events evs (streams_ self).
Proof.
  revert self w. induction evs as [|e evs IH]; intros self w Hinv; simpl; [done|].
  pose proof (on_event_inv e self w Hinv) as Hi. pose proof (on_event_frame e self w) as Hf.
  pose proof (on_event_streams e self w) as Hs.
  destruct (on_event e self w) as [self1 w1]; simpl in *.
  destruct (IH self1 w1 Hi) as (? & ? & Hs'). split_and!; [done|by etrans|by rewrite Hs', Hs].
Qed.

(** *** The data provider *)

Lemma DataSourceRead_spec (st : Stream W) len :
  0 <= len → 0 <= body_offset st <= zlen (body st) →
  let '(st', data, eof) := DataSourceRead st len in
  body st' = body st ∧ hooks st' = hooks st ∧ pending_headers st' = pending_headers st ∧
  0 <= body_offset st' <= zlen (body st') ∧ zlen data <= len ∧
  data = zsubstr (body_offset st) len (body st) ∧
  drop (Z.to_nat (body_offset st)) (body st) = data ++ drop (Z.to_nat (body_offset st')) (body st) ∧
  (eof = true ↔ drop (Z.to_nat (body_offset st')) (body st) = []).
Proof.
  intros Hlen Hoff. cbn.
  set (rest := drop (Z.to_nat (body_offset st)) (body st)).
  assert (Hrest : zlen rest = zlen (body st) - body_offset st) by (by apply zlen_drop).
  unfold zsubstr. fold rest.
  assert (Htake : take (Z.to_nat (Z.min len (zlen (body st) - body_offset st))) rest =
                  take (Z.to_nat len) rest).
  { destruct (Z.le_gt_cases len (zlen (body st) - body_offset st)).
    - by rewrite Z.min_l.
    - rewrite Z.min_r by lia. rewrite !take_ge; [done|..]; unfold zlen in *; lia. }
  rewrite <- drop_drop_Z by lia. fold rest.
  split_and!; try done; try lia.
  - rewrite zlen_take; lia.
  - by rewrite take_drop.
  - rewrite Z.eqb_eq. split; intros H.
    + apply zlen_nil_inv. rewrite zlen_drop by lia. lia.
    + apply (f_equal zlen) in H. rewrite zlen_drop, zlen_nil in H by lia. lia.
Qed.

End Invariant.

(** ** The session under nghttp2's contract *)

Section Contract.
Context `{NG : Nghttp2} {W : Type} {NL : Nghttp2Laws NG}.
Abbreviation Session := (Http2Session W).
Implicit Types (self : Session) (w : W).

(** The invariant, and the link with nghttp2: it knows exactly the streams of
    [streams_], by the pointers [streams_] owns. *)
Record session_ok (self : Session) : Prop := {
  hok_inv : session_inv self;
  hok_open s : session_ self = Some s → streams_ self = ng_open s;
}.

(** The fields a send leaves alone. *)
Definition same_send (self self' : Session) : Prop :=
  options_ self' = options_ self ∧
  last_read_ self' = last_read_ self ∧ ping_sent_ self' = ping_sent_ self ∧
  ping_counter_ self' = ping_counter_ self ∧ next_ptr self' = next_ptr self.

#[export] Instance same_send_preorder : PreOrder same_send.
Proof. unfold same_send. split; [done|]. intros ??? H1 H2. destruct_and!. split_and!; congruence. Qed.

Lemma same_frame_send self self' : same_frame self self' → same_send self self'.
Proof. unfold same_frame, same_send. naive_solver. Qed.

(** The provider never returns an empty piece before the end of the body. *)
Lemma DataSourceRead_progress (st : Stream W) len :
  0 < len → 0 <= body_offset st <= zlen (body st) →
  let '(_, data, eof) := DataSourceRead st len in data = [] → eof = true.
Proof.
  intros Hlen Hoff. pose proof (DataSourceRead_spec st len ltac:(lia) Hoff) as Hd.
  destruct (DataSourceRead st len) as [[st' data] eof].
  destruct Hd as (_ & _ & _ & _ & _ & Hdata & Hcat & Heof). intros ->. apply Heof.
  rewrite <- (app_nil_l (drop _ (body st))), <- Hcat. unfold zsubstr in Hdata.
  destruct (drop (Z.to_nat (body_offset st)) (body st)) as [|b rest]; [done|].
  replace (Z.to_nat len) with (S (Z.to_nat (len - 1))) in Hdata by lia. done.
Qed.

(** One [mem_send] finds every stream it reads alive. *)
Lemma run_send_ok t s self w :
  session_inv self → send_contract ng_open ng_pending s (streams_ self) t →
  ∃ self' w' s' n chunk,
    run_send t self w = Some (self', w', (n, chunk)) ∧ session_inv self' ∧
    session_ self' = Some s' ∧ streams_ self' = ng_open s' ∧
    ((ng_pending s' <= ng_pending s)%nat ∧
     (0 < n → zlen chunk = n ∧ (ng_pending s' < ng_pending s)%nat)) ∧
    out_ self' = out_ self ∧ out_consumed_ self' = out_consumed_ self ∧ same_send self self'.
Proof.
  revert self w. induction t as [s' n chunk|p len k IH|e k IH]; intros self w Hinv Hok; cbn [run_send].
  - destruct Hok as (Ho & Hle & Hp).
    exists {| self with session_ := Some s' |}, w, s', n, chunk.
    split_and!; try done. by destruct Hinv; split.
  - destruct Hok as (Hlen & [i Hi] & Hk).
    destruct (hinv_owned self Hinv i p Hi) as [st Hst]. rewrite Hst.
    pose proof (DataSourceRead_spec st len ltac:(lia) (hinv_body self Hinv p st Hst)) as Hd.
    pose proof (DataSourceRead_progress st len Hlen (hinv_body self Hinv p st Hst)) as He.
    destruct (DataSourceRead st len) as [[st' data] eof]. destruct Hd as (_ & _ & _ & Hb & Hl & _).
    edestruct (IH data eof {| self with alloc := <[p := st']> (alloc self) |} w)
      as (self' & w' & s' & n & chunk & Hrun & Hrest).
    + by eapply session_inv_update.
    + by apply Hk.
    + exists self', w', s', n, chunk. split; [done|]. apply Hrest.
  - simpl in Hok. pose proof (on_event_inv e self w Hinv) as Hi.
    pose proof (on_event_frame e self w) as Hf. pose proof (on_event_streams e self w) as Hs.
    destruct (on_event e self w) as [self1 w1]; simpl in *.
    edestruct (IH self1 w1 Hi) as (self' & w' & s' & n & chunk & Hrun & Hi' & ? & ? & [? ?] & Ho & Hoc & Hsf).
    + by rewrite Hs.
    + exists self', w', s', n, chunk. apply same_frame_send in Hf as Hfs.
      destruct Hf as (_ & _ & _ & Ho1 & Hoc1 & _). rewrite <- Ho1, <- Hoc1.
      split_and!; try done. by etrans.
Qed.

(** The refill loop ends once nghttp2's pending output is used up. *)
Lemma refill_ok fuel s self w :
  session_inv self → session_ self = Some s → streams_ self = ng_open s →
  (ng_pending s < fuel)%nat →
  ∃ self' w' s' b new,
    refill fuel self w = Some (self', w', b) ∧ session_inv self' ∧
    session_ self' = Some s' ∧ streams_ self' = ng_open s' ∧
    out_ self' = out_ self ++ new ∧ out_consumed_ self' = out_consumed_ self ∧ same_send self self' ∧
    (ng_pending s' <= ng_pending s)%nat ∧ (new ≠ [] → ng_pending s' < ng_pending s)%nat.
Proof.
  revert s self w. induction fuel as [|fuel IH]; intros s self w Hinv Hs Hopen Hf; [lia|].
  cbn. rewrite Hs.
  destruct (run_send_ok (ng_mem_send s) s self w Hinv) as
    (self1 & w1 & s1 & n & chunk & Hrun & Hi1 & Hs1 & Ho1 & [Hle Hn] & Hout & Hoc & Hsame).
  { rewrite Hopen. apply ng_mem_send_ok. }
  rewrite Hrun. destruct (Z.ltb_spec n 0).
  { eexists _, w1, s1, false, []. split; [done|]. rewrite app_nil_r.
    split_and!; try done. by destruct Hi1; split. }
  destruct (Z.eqb_spec n 0).
  { exists self1, w1, s1, true, []. rewrite app_nil_r. by split_and!. }
  destruct (Hn ltac:(lia)) as [Hc Hlt].
  destruct (IH s1 {| self1 with out_ := out_ self1 ++ chunk |} w1) as
    (self2 & w2 & s2 & b & new & Hr & ? & ? & ? & Hout2 & Hoc2 & Hsame2 & Hle2 & _); try done; [|lia|].
  { destruct Hi1 as [? ? ? ? ? Hbound]. split; simpl; try done. rewrite zlen_app.
    pose proof (zlen_nonneg chunk). lia. }
  exists self2, w2, s2, b, (chunk ++ new). simpl in *.
  split_and!; try done.
  - by rewrite Hout2, Hout, app_assoc.
  - congruence.
  - etrans; [apply Hsame|]. apply Hsame2.
  - lia.
  - lia.
Qed.

Definition output_fuel (self : Session) : nat :=
  match session_ self with Some s => S (ng_pending s) | None => 0 end.

(** [PendingOutput] is defined and returns. *)
Lemma PendingOutput_ok fuel self w :
  session_ok self → (output_fuel self <= fuel)%nat →
  ∃ self' w' view,
    PendingOutput fuel self w = Some (self', w', view) ∧ session_ok self' ∧ same_send self self'.
Proof.
  intros Hok0 Hf. pose proof Hok0 as [Hinv Hopen]. unfold PendingOutput, output_fuel in *.
  destruct (session_ self) as [s|] eqn:Hs; [|by eexists _, _, _].
  destruct (Z.leb_spec (zlen (out_ self)) (out_consumed_ self)) as [Hle|Hgt].
  - destruct (refill_ok fuel s {| self with session_ := Some s; out_ := []; out_consumed_ := 0 |} w) as
      (self1 & w1 & s1 & b & new & -> & Hi & Hs1 & Ho & _ & _ & Hsame & _); simpl; auto.
    { destruct Hinv; split; simpl; try done. }
    assert (Hok : session_ok self1).
    { split; [done|]. intros s' Hs'. rewrite Hs1 in Hs'. by injection Hs' as <-. }
    destruct b; [case_test|]; by eexists _, _, _.
  - case_test; [lia|]. by eexists _, _, _.
Qed.

Lemma run_send_session t self w self' w' r :
  run_send t self w = Some (self', w', r) → is_Some (session_ self').
Proof.
  revert self w. induction t as [s' n chunk|p len k IH|e k IH]; intros self w; cbn [run_send].
  - by intros [= <- <- <-].
  - destruct (alloc self !! p) as [st|]; [|done].
    destruct (DataSourceRead st len) as [[st' data] eof]. by apply IH.
  - destruct (on_event e self w). apply IH.
Qed.

(** More fuel does not change the result. *)
Lemma refill_mono fuel fuel' self w r :
  refill fuel self w = Some r → (fuel <= fuel')%nat → refill fuel' self w = Some r.
Proof.
  revert fuel' self w. induction fuel as [|fuel IH]; intros [|fuel'] self w; cbn [refill]; try done; [lia|].
  intros H Hle. destruct (session_ self) as [s|]; [|done].
  destruct (run_send _ _ _) as [[[self1 w1] [n chunk]]|]; [|done].
  case_test; [done|]. case_test; [done|]. apply IH; [done|lia].
Qed.

Lemma refill_session fuel self w self' w' b :
  refill fuel self w = Some (self', w', b) → is_Some (session_ self').
Proof.
  revert self w. induction fuel as [|fuel IH]; intros self w; cbn [refill]; [done|].
  destruct (session_ self) as [s|]; [|done].
  destruct (run_send _ _ _) as [[[self1 w1] [n chunk]]|] eqn:E; [|done].
  apply run_send_session in E.
  case_test; [by intros [= <- <- <-]|]. case_test; [by intros [= <- <- <-]|]. apply IH.
Qed.

Lemma PendingOutput_mono fuel fuel' self w r :
  PendingOutput fuel self w = Some r → (fuel <= fuel')%nat → PendingOutput fuel' self w = Some r.
Proof.
  unfold PendingOutput. destruct (session_ self); [|done].
  destruct (_ <=? _); [|done]. intros H Hle.
  destruct (refill fuel _ w) as [q|] eqn:E; [|done].
  by rewrite (refill_mono _ fuel' _ _ _ E Hle).
Qed.

(** A non-empty view is the unsent region of the buffer. *)
Lemma PendingOutput_view fuel self w self' w' view :
  PendingOutput fuel self w = Some (self', w', view) →
  view = [] ∨
  (is_Some (session_ self') ∧ view = drop (Z.to_nat (out_consumed_ self')) (out_ self') ∧
   out_consumed_ self' < zlen (out_ self')).
Proof.
  unfold PendingOutput. destruct (session_ self) as [s|] eqn:Hs; [|intros [= <- <- <-]; auto].
  destruct (if zlen (out_ self) <=? out_consumed_ self then _ else _)
    as [[[self1 w1] b]|] eqn:E; [|done].
  destruct b; [|intros [= <- <- <-]; auto].
  case_test; intros [= <- <- <-]; [auto|]. right. split_and!; [|done|lia].
  case_test_in E; [|injection E as <- <-; by rewrite Hs].
  by eapply refill_session.
Qed.

Lemma PendingOutput_any fuel self w self' w' view :
  session_ok self → PendingOutput fuel self w = Some (self', w', view) → session_ok self'.
Proof.
  intros Hok H. destruct (PendingOutput_ok (fuel + output_fuel self) self w Hok ltac:(lia))
    as (self1 & w1 & v1 & H1 & Hok1 & _).
  apply (PendingOutput_mono _ (fuel + output_fuel self)) in H; [|lia]. congruence.
Qed.

(** What is left to write: nghttp2's pending output, and the bytes of the buffer. *)
Definition queued (self : Session) : nat :=
  match session_ self with Some s => ng_pending s | None => 0 end.

Definition unsent (self : Session) : nat := Z.to_nat (zlen (out_ self) - out_consumed_ self).

(** Writing some of the view is progress. *)
Lemma PendingOutput_progress fuel self w self' w' view n :
  session_ok self → PendingOutput fuel self w = Some (self', w', view) →
  view ≠ [] → 0 < n <= zlen view →
  let self2 := ConsumeOutput n self' in
  (queued self2 < queued self)%nat ∨ (queued self2 = queued self ∧ unsent self2 < unsent self)%nat.
Proof.
  intros Hok HP Hv Hn self2. subst self2.
  pose proof (PendingOutput_view _ _ _ _ _ _ HP) as [?|(_ & Hview & Hgt)]; [done|].
  pose proof (PendingOutput_any _ _ _ _ _ _ Hok HP) as Hok'. pose proof (hinv_out _ (hok_inv _ Hok')) as Hb.
  rewrite Hview, zlen_drop in Hn by lia.
  assert (Hc : queued (ConsumeOutput n self') = queued self' ∧
               (unsent (ConsumeOutput n self') < unsent self')%nat).
  { unfold queued, unsent, ConsumeOutput. case_test; simpl in *; (split; [done|]); lia. }
  destruct Hc as [Hc1 Hc2]. rewrite Hc1.
  apply (PendingOutput_mono _ (fuel + output_fuel self)) in HP; [|lia]. revert HP. unfold PendingOutput.
  destruct (session_ self) as [s|] eqn:Hs; [|intros [= <- <- <-]; done].
  destruct (Z.leb_spec (zlen (out_ self)) (out_consumed_ self)) as [Hle|Hgt'].
  - destruct (refill_ok (fuel + output_fuel self) s
                {| self with session_ := Some s; out_ := []; out_consumed_ := 0 |} w) as
      (self1 & w1 & s1 & b & new & -> & _ & Hs1 & _ & Hout & _ & _ & _ & Hlt); simpl; auto.
    { destruct Hok as [[] _]; split; simpl; try done. }
    { destruct Hok as [_ Ho]. by apply Ho. }
    { unfold output_fuel. rewrite Hs. lia. }
    intros HP. left. assert (self' = self1) as ->.
    { destruct b; [case_test_in HP|]; congruence. }
    unfold queued. rewrite Hs1, Hs. apply Hlt. intros ->. simpl in Hout. rewrite Hout in Hgt.
    change (zlen (@nil byte)) with 0 in Hgt. lia.
  - intros HP. right. assert (self' = self) as -> by (case_test_in HP; congruence). done.
Qed.

Lemma ReceiveBytes_ok now data self w :
  session_ok self → session_ok (ReceiveBytes now data self w).1.1.
Proof.
  intros Hok. pose proof Hok as [Hinv Hopen]. unfold ReceiveBytes. destruct (session_ self) as [s|] eqn:Hs; [|done].
  destruct (ng_mem_recv s data) as [s' [evs rc]] eqn:Hr.
  assert (session_inv (note_read now data self) ∧
          streams_ (note_read now data self) = streams_ self) as [Hi0 Hst0].
  { unfold note_read. case_test; split; try done. by destruct Hinv; split. }
  generalize dependent (note_read now data self). intros self0 Hi0 Hst0.
  pose proof (on_events_inv evs self0 w Hi0) as (Hi & _ & Hst).
  destruct (on_events evs self0 w) as [self1 w1]; simpl in *.
  apply ng_mem_recv_open in Hr as Ho.
  case_test; simpl; (split; [by destruct Hi; split|]; simpl; intros ? [= <-]);
    by rewrite Hst, Hst0, Ho, (Hopen s eq_refl).
Qed.

Lemma SubmitUnaryRequest_ok hs b h self :
  session_ok self →
  let '(self', i) := SubmitUnaryRequest hs b h self in
  session_ok self' ∧
  (0 <= i → streams_ self !! i = None ∧
     ∃ p, streams_ self' = <[i := p]> (streams_ self) ∧ alloc self !! p = None ∧
       alloc self' = <[p := {| hooks := h; body := b; body_offset := 0; pending_headers := [] |}]>
                       (alloc self)).
Proof.
  intros [Hinv Hopen]. unfold SubmitUnaryRequest. destruct (session_ self) as [s|] eqn:Hs.
  2: { split; [|lia]. split; [by destruct Hinv; split|done]. }
  case_test. { split; [|lia]. split; [by destruct Hinv; split|done]. }
  destruct (ng_submit_request s hs (next_ptr self)) as [s' i] eqn:Hr.
  apply ng_submit_request_open in Hr. destruct (Z.ltb_spec i 0).
  { split; [|lia]. rename Hr into Ho. split; simpl.
    - destruct Hinv as [? Hl ? ? ? ?]. split; simpl; try done.
      intros p st Hp. destruct (Hl p st Hp) as [? ?]. split; [lia|done].
    - intros ? [= <-]. by rewrite Ho, (Hopen s eq_refl). }
  destruct Hr as (Hi & Ho). simpl.
  assert (Hfresh : streams_ self !! i = None) by (by rewrite (Hopen s eq_refl)).
  assert (Hptr : alloc self !! next_ptr self = None).
  { destruct (alloc self !! next_ptr self) as [st|] eqn:E; [|done].
    destruct (hinv_no_leak self Hinv _ _ E). lia. }
  rewrite Hfresh. simpl. split; [|by eauto]. split; simpl.
  2: { intros ? [= <-]. by rewrite Ho, (Hopen s eq_refl). }
  destruct Hinv as [Hown Hl Hu Hc Hb Hout]. split; simpl; try done.
  - intros j p. rewrite lookup_insert_Some. intros [[<- <-]|[Hne Hj]].
    + by rewrite lookup_insert_eq.
    + rewrite lookup_insert_is_Some'. right. by eapply Hown.
  - intros p st. rewrite lookup_insert_Some. intros [[<- <-]|[Hne Hp]].
    + split; [lia|]. exists i. by rewrite lookup_insert_eq.
    + destruct (Hl p st Hp) as [? [j Hj]]. split; [lia|]. exists j.
      rewrite lookup_insert_ne; [done|]. congruence.
  - intros j k p. rewrite !lookup_insert_Some.
    intros [[<- <-]|[Hne Hj]] [[<- Hk]|[Hne' Hk]]; try done; try by eapply Hu.
    + destruct (Hown k _ Hk). congruence.
    + subst p. destruct (Hown j _ Hj). congruence.
  - rewrite map_size_insert_None by done. lia.
  - intros p st. rewrite lookup_insert_Some. intros [[<- <-]|[Hne Hp]]; [|by eapply Hb].
    simpl. pose proof (zlen_nonneg b). lia.
Qed.

Lemma ConsumeOutput_ok n self : 0 <= n → session_ok self → session_ok (ConsumeOutput n self).
Proof.
  intros Hn [Hinv Hopen]. unfold ConsumeOutput. simpl.
  case_test; split; simpl; try done; destruct Hinv; split; simpl; try done;
    pose proof (zlen_nonneg (out_ self)); lia.
Qed.

Lemma CheckKeepalive_ok now self : session_ok self → session_ok (CheckKeepalive now self).1.
Proof.
  intros Hok. pose proof Hok as [Hinv Hopen]. unfold CheckKeepalive. destruct (session_ self) as [s|] eqn:Hs; [|done].
  assert (Hi : ∀ self', session_inv self' → session_ self' = Some s → streams_ self' = streams_ self →
                 session_ok self').
  { intros self' ? Hs' Hst. split; [done|]. intros s0. rewrite Hs', Hst. intros [= <-]. auto. }
  assert (session_inv (settle_ping self) ∧ session_ (settle_ping self) = Some s ∧
          streams_ (settle_ping self) = streams_ self) as (Hi0 & Hs0 & Hst0).
  { unfold settle_ping. case_test; split_and!; try done. by destruct Hinv; split. }
  generalize dependent (settle_ping self). intros self0 Hi0 Hs0 Hst0.
  destruct (ping_outstanding_ self0); [by case_test; apply Hi|].
  destruct (keepalive_gated self0); [by apply Hi|].
  destruct (_ <=? _); [|by apply Hi].
  pose proof (ng_submit_ping_open s (ping_opaque ((ping_counter_ self0 + 1) mod 2 ^ 64))) as Ho.
  destruct (ng_submit_ping _ _) as [s' rc]; simpl in Ho.
  case_test; simpl; (split; simpl; [by destruct Hi0; split|]); intros ? [= <-];
    by rewrite Ho, Hst0, (Hopen s eq_refl).
Qed.

Lemma Terminate_ok self : session_ok self → session_ok (Terminate self).
Proof.
  intros Hok. pose proof Hok as [Hinv Hopen]. unfold Terminate. destruct (session_ self) as [s|] eqn:Hs; [|done].
  split; simpl; [by destruct Hinv; split|]. intros ? [= <-].
  rewrite ng_terminate_session_open. auto.
Qed.

Lemma new_http2_session_ok o h now crc client :
  ng_open client.2 = ∅ → session_ok (new_http2_session (W := W) o h now crc client).
Proof.
  destruct client as [rc s]; simpl. intros Hopen. unfold new_http2_session.
  pose proof (ng_submit_settings_open s (settings_entries o)) as Hset.
  destruct (ng_submit_settings s (settings_entries o)) as [s1 src]; simpl in Hset.
  pose proof (ng_set_local_window_size_open s1 0 (Z.min (initial_window_size o) (2 ^ 31 - 1))) as Hwin.
  destruct (ng_set_local_window_size s1 0 _) as [s2 wrc]; simpl in Hwin.
  repeat case_test; (split; [|simpl; try done; intros ? [= <-]; congruence]); split; simpl; try done;
    intros *; rewrite ?lookup_empty; done.
Qed.

End Contract.

(** ** Runs of a session *)

(** One call of the owner, as it is remembered. *)
Inductive Call : Type :=
  | CReceive (now : Z) (data : bytes)
  | CCheck (now : Z) (a : KeepaliveAction)
  | COther.

Definition is_read (c : Call) : bool :=
  match c with CReceive _ data => 0 <? zlen data | _ => false end.

Section Runs.
Context `{NG : Nghttp2} {W : Type}.
Abbreviation Session := (Http2Session W).
Implicit Types (self : Session) (w : W).

(** Any sequence of calls by the owner, under a clock that does not go back; the
    newest call is the head of the history. *)
Inductive h2_run (self0 : Session) (w0 : W) (t0 : Z) : Z → list Call → Session → W → Prop :=
  | run_new : h2_run self0 w0 t0 t0 [] self0 w0
  | run_receive t tr self w now data self' w' b :
      h2_run self0 w0 t0 t tr self w → t <= now →
      ReceiveBytes now data self w = (self', w', b) →
      h2_run self0 w0 t0 now (CReceive now data :: tr) self' w'
  | run_submit t tr self w hs b h self' i :
      h2_run self0 w0 t0 t tr self w → SubmitUnaryRequest hs b h self = (self', i) →
      h2_run self0 w0 t0 t (COther :: tr) self' w
  | run_pending t tr self w fuel self' w' view :
      h2_run self0 w0 t0 t tr self w → PendingOutput fuel self w = Some (self', w', view) →
      h2_run self0 w0 t0 t (COther :: tr) self' w'
  | run_consume t tr self w n :
      h2_run self0 w0 t0 t tr self w → 0 <= n →
      h2_run self0 w0 t0 t (COther :: tr) (ConsumeOutput n self) w
  | run_check t tr self w now self' a :
      h2_run self0 w0 t0 t tr self w → t <= now → CheckKeepalive now self = (self', a) →
      h2_run self0 w0 t0 now (CCheck now a :: tr) self' w
  | run_terminate t tr self w :
      h2_run self0 w0 t0 t tr self w →
      h2_run self0 w0 t0 t (COther :: tr) (Terminate self) w.

(** *** Keepalive history *)

(** An outstanding ping was sent by a check of the history, and any read since then
    shows in [last_read_]. *)
Definition ping_explained (tr : list Call) self : Prop :=
  ping_outstanding_ self = true →
  ∃ newer older, tr = newer ++ CCheck (ping_sent_ self) kPingSent :: older ∧
    (Exists (λ c, is_read c = true) newer → ping_sent_ self <= last_read_ self).

Record keepalive_inv (t : Z) (tr : list Call) self : Prop := {
  kinv_clock : last_read_ self <= t ∧ (ping_outstanding_ self = true → ping_sent_ self <= t);
  kinv_ping : ping_explained tr self;
  kinv_session : session_ self = None → ping_outstanding_ self = false;
}.

(** Everything but the keepalive fields may change; an outstanding ping may become
    acknowledged. *)
Definition keepalive_kept self self' : Prop :=
  last_read_ self' = last_read_ self ∧ ping_sent_ self' = ping_sent_ self ∧
  (ping_outstanding_ self' = true → ping_outstanding_ self = true) ∧
  (session_ self' = None → session_ self = None).

#[export] Instance keepalive_kept_preorder : PreOrder keepalive_kept.
Proof.
  unfold keepalive_kept. split; [done|]. intros ??? (?&?&?&?) (?&?&?&?). split_and!; [congruence..|auto|auto].
Qed.

Lemma keepalive_inv_kept t tr c self self' :
  is_read c = false → keepalive_kept self self' →
  keepalive_inv t tr self → keepalive_inv t (c :: tr) self'.
Proof.
  intros Hc (Hl & Hp & Ho & Hs) [[Hk1 Hk2] Hping Hnone]. split; cycle 2.
  - intros H. specialize (Hnone (Hs H)). destruct (ping_outstanding_ self'); [|done].
    rewrite Ho in Hnone; done.
  - rewrite Hl, Hp. auto.
  - intros H. destruct (Hping (Ho H)) as (newer & older & -> & Hr).
    exists (c :: newer), older. rewrite Hp, Hl. split; [done|].
    rewrite Exists_cons. intros [?|?]; [congruence|auto].
Qed.

Lemma on_event_keepalive e self w : keepalive_kept self (on_event e self w).1.
Proof.
  pose proof (on_event_frame e self w) as (_&Hs&_&_&_&Hl&Hp&_). split_and!; [done..| |by rewrite Hs].
  clear. destruct e as [f|f n v|i d|i c]; simpl.
  - destruct f; simpl; repeat case_match; done.
  - destruct f; simpl; repeat case_match; done.
  - done.
  - unfold OnStreamClose. by destruct (streams_ self !! i).
Qed.

Lemma on_events_keepalive evs self w : keepalive_kept self (on_events evs self w).1.
Proof.
  revert self w. induction evs as [|e evs IH]; intros self w; simpl; [done|].
  pose proof (on_event_keepalive e self w). destruct (on_event e self w); simpl in *.
  etrans; [done|apply IH].
Qed.

Lemma run_send_keepalive t self w self' w' r :
  run_send t self w = Some (self', w', r) → keepalive_kept self self'.
Proof.
  revert self w. induction t as [s' n chunk|p len k IH|e k IH]; intros self w; cbn [run_send].
  - intros [= <- <- <-]. done.
  - destruct (alloc self !! p) as [st|]; [|done].
    destruct (DataSourceRead st len) as [[st' data] eof]. intros H. by apply IH in H.
  - pose proof (on_event_keepalive e self w). destruct (on_event e self w); simpl in *.
    intros Hr. apply IH in Hr. by etrans.
Qed.

Lemma refill_keepalive fuel self w self' w' b :
  refill fuel self w = Some (self', w', b) → keepalive_kept self self'.
Proof.
  revert self w. induction fuel as [|fuel IH]; intros self w; cbn [refill]; [done|].
  destruct (session_ self) as [s|]; [|done].
  destruct (run_send _ _ _) as [[[self1 w1] [n chunk]]|] eqn:E; [|done].
  apply run_send_keepalive in E. case_test; [by intros [= <- <- <-]|].
  case_test; [by intros [= <- <- <-]|]. intros Hr. apply IH in Hr. etrans; [apply E|apply Hr].
Qed.

Lemma PendingOutput_keepalive fuel self w self' w' view :
  PendingOutput fuel self w = Some (self', w', view) → keepalive_kept self self'.
Proof.
  unfold PendingOutput. destruct (session_ self) as [s|]; [|by intros [= <- <- <-]].
  intros H. destruct (if zlen (out_ self) <=? out_consumed_ self then _ else _)
    as [[[self1 w1] b]|] eqn:E; [|done].
  assert (keepalive_kept self self1).
  { case_test_in E; [|by injection E as <- <- <-].
    apply refill_keepalive in E as (?&?&?&Hn). split_and!; auto. intros Hs. by apply Hn in Hs. }
  destruct b; [case_test_in H|]; by injection H as <- <- <-.
Qed.

Lemma receive_keepalive_inv t tr now data self w self' w' b :
  keepalive_inv t tr self → t <= now → ReceiveBytes now data self w = (self', w', b) →
  keepalive_inv now (CReceive now data :: tr) self'.
Proof.
  intros [[Hk1 Hk2] Hping Hnone] Ht. unfold ReceiveBytes. destruct (session_ self) as [s|] eqn:Hs.
  2: { specialize (Hnone eq_refl). intros [= <- <- <-].
       split; [|unfold ping_explained; congruence|done]. rewrite Hnone. split; [lia|done]. }
  destruct (ng_mem_recv s data) as [s' [evs rc]].
  pose proof (on_events_keepalive evs (note_read now data self) w) as Hkept.
  destruct (on_events _ _ _) as [self1 w1]. simpl in Hkept.
  assert (Hfin : ∀ e, keepalive_inv now (CReceive now data :: tr)
                        {| self1 with session_ := Some s'; error_ := e |}).
  { intros e. destruct Hkept as (Hl & Hp & Ho & _). unfold note_read in *.
    split; [| |done]; unfold ping_explained; simpl; rewrite Hl, Hp.
    - case_test; simpl in *; split; try lia; intros Hout; specialize (Hk2 (Ho Hout)); lia.
    - intros Hout. specialize (Ho Hout). destruct (Z.ltb_spec 0 (zlen data)); simpl in *.
      all: destruct (Hping Ho) as (newer & older & -> & Hr); exists (CReceive now data :: newer), older.
      all: split; [done|]; rewrite Exists_cons; simpl.
      + intros _. specialize (Hk2 Ho). lia.
      + intros [Hd|?]; [apply Z.ltb_lt in Hd; lia|auto]. }
  case_test; intros [= <- <- <-]; [apply Hfin|].
  destruct self1. apply (Hfin error_0).
Qed.

Lemma check_keepalive_inv t tr now self self' a :
  keepalive_inv t tr self → t <= now → CheckKeepalive now self = (self', a) →
  keepalive_inv now (CCheck now a :: tr) self'.
Proof.
  intros Hinv Ht. unfold CheckKeepalive.
  assert (Hmono : ∀ c, is_read c = false → keepalive_inv now (c :: tr) (settle_ping self)).
  { intros c Hc. apply (keepalive_inv_kept now tr c self); [done|..].
    - unfold settle_ping. case_test; done.
    - destruct Hinv as [[? Hk2] ? ?]. split; [|done..]. split; [lia|]. intros Ho.
      specialize (Hk2 Ho). lia. }
  destruct (session_ self) as [s|] eqn:Hs.
  2: { intros [= <- <-]. apply (keepalive_inv_kept now tr _ self); [done..|].
       destruct Hinv as [[? Hk2] ? ?]. split; [|done..]. split; [lia|]. intros Ho.
       specialize (Hk2 Ho). lia. }
  generalize dependent (settle_ping self). intros self1 Hmono.
  destruct (ping_outstanding_ self1) eqn:Ho1.
  { case_test; intros [= <- <-]; by apply Hmono. }
  destruct (keepalive_gated self1); [intros [= <- <-]; by apply Hmono|].
  destruct (_ <=? _); [|intros [= <- <-]; by apply Hmono].
  destruct (ng_submit_ping _ _) as [s' rc].
  destruct (Hmono COther eq_refl) as [[Hl _] _ _].
  case_test; intros [= <- <-].
  - split; simpl; [split; [done|congruence]|by unfold ping_explained; simpl; congruence|done].
  - split; simpl; [split; [done|lia]| |done]. intros _. simpl. exists [], tr. split; [done|].
    intros He. inversion He.
Qed.

Lemma run_keepalive_inv self0 w0 t0 t tr self w :
  h2_run self0 w0 t0 t tr self w → keepalive_inv t0 [] self0 → keepalive_inv t tr self.
Proof.
  intros Hrun H0. induction Hrun as
    [|t tr self w now data self' w' b Hrun IH Ht Hr|t tr self w hs b h self' i Hrun IH Hr
     |t tr self w fuel self' w' view Hrun IH Hr|t tr self w n Hrun IH Hn
     |t tr self w now self' a Hrun IH Ht Hc|t tr self w Hrun IH]; [done|..].
  - by eapply receive_keepalive_inv.
  - apply (keepalive_inv_kept _ _ _ self); [done| |done].
    revert Hr. unfold SubmitUnaryRequest. destruct (session_ self) eqn:Hs; [|by intros [= <- <-]].
    case_test; [by intros [= <- <-]|]. destruct (ng_submit_request _ _ _) as [s' j].
    case_test; [by intros [= <- <-]|]. intros [= <- <-]. by case_match.
  - apply (keepalive_inv_kept _ _ _ self); [done| |done]. by eapply PendingOutput_keepalive.
  - apply (keepalive_inv_kept _ _ _ self); [done| |done].
    unfold ConsumeOutput. simpl. by case_test.
  - by eapply check_keepalive_inv.
  - apply (keepalive_inv_kept _ _ _ self); [done| |done].
    unfold Terminate. by destruct (session_ self) eqn:Hs.
Qed.

(** *** What a check does *)

Lemma settle_ping_spec self :
  options_ (settle_ping self) = options_ self ∧ session_ (settle_ping self) = session_ self ∧
  last_read_ (settle_ping self) = last_read_ self ∧ ping_sent_ (settle_ping self) = ping_sent_ self ∧
  active_streams_ (settle_ping self) = active_streams_ self ∧
  ping_counter_ (settle_ping self) = ping_counter_ self ∧
  ping_outstanding_ (settle_ping self) =
    (ping_outstanding_ self && (last_read_ self <? ping_sent_ self)).
Proof.
  unfold settle_ping. rewrite Z.ltb_antisym.
  destruct (ping_outstanding_ self) eqn:Ho; simpl; [|by rewrite Ho].
  destruct (ping_sent_ self <=? last_read_ self); simpl; by rewrite ?Ho.
Qed.

Lemma CheckKeepalive_dead now self self' :
  CheckKeepalive now self = (self', kDead) →
  ping_outstanding_ self = true ∧ last_read_ self < ping_sent_ self ∧
  ping_sent_ self + ms (keepalive_timeout (options_ self)) <= now.
Proof.
  unfold CheckKeepalive. destruct (session_ self) as [s|] eqn:Hs; [|done].
  destruct (settle_ping_spec self) as (Hopt & _ & Hl & Hp & _ & _ & Ho).
  generalize dependent (settle_ping self). intros self1 Hopt Hl Hp Ho.
  destruct (ping_outstanding_ self1) eqn:Ho1.
  - symmetry in Ho. bool_to_prop. case_test; intros [=]. rewrite Hopt, Hp in *. split_and!; [done|lia..].
  - destruct (keepalive_gated self1); [done|]. destruct (_ <=? _); [|done].
    destruct (ng_submit_ping _ _). by case_test.
Qed.

(** An outstanding ping without a read since: dead exactly from its timeout on. *)
Lemma CheckKeepalive_outstanding now self :
  is_Some (session_ self) → ping_outstanding_ self = true → last_read_ self < ping_sent_ self →
  CheckKeepalive now self =
    (self, if ms (keepalive_timeout (options_ self)) <=? now - ping_sent_ self then kDead else kNone).
Proof.
  intros [s Hs] Ho Hl. unfold CheckKeepalive. rewrite Hs.
  assert (settle_ping self = self) as ->.
  { unfold settle_ping. rewrite Ho. simpl. by case_test; [lia|]. }
  rewrite Ho. by case_test.
Qed.

(** Idle for [keepalive_time] with no ping outstanding: a PING with the next counter. *)
Lemma CheckKeepalive_idle now self s s' :
  session_ self = Some s →
  ping_outstanding_ self && (last_read_ self <? ping_sent_ self) = false →
  keepalive_gated self = false → last_read_ self + ms (keepalive_time (options_ self)) <= now →
  ng_submit_ping s (ping_opaque ((ping_counter_ self + 1) mod 2 ^ 64)) = (s', 0) →
  ∃ self', CheckKeepalive now self = (self', kPingSent) ∧
    ping_outstanding_ self' = true ∧ ping_sent_ self' = now ∧ last_read_ self' = last_read_ self ∧
    options_ self' = options_ self ∧ active_streams_ self' = active_streams_ self ∧
    session_ self' = Some s'.
Proof.
  intros Hs Ho Hg Hidle Hping. unfold CheckKeepalive. rewrite Hs.
  destruct (settle_ping_spec self) as (Hopt & _ & Hl & Hp & Ha & Hc & Hout).
  unfold keepalive_gated in *.
  generalize dependent (settle_ping self). intros self1 Hopt Hl Hp Ha Hc Hout.
  rewrite Hout, Ho, Hopt, Ha, Hg, Hl, Hc, Hping. case_test; [|lia]. simpl.
  eexists. split; [done|]. done.
Qed.

(** *** Draining *)

Lemma on_event_draining e self w : draining_ self = true → draining_ (on_event e self w).1 = true.
Proof.
  intros Hd. destruct e as [f|f n v|i d|i c]; simpl.
  - destruct f; simpl; repeat case_match; done.
  - destruct f; simpl; repeat case_match; done.
  - done.
  - unfold OnStreamClose. by destruct (streams_ self !! i).
Qed.

Lemma on_events_draining evs self w : draining_ self = true → draining_ (on_events evs self w).1 = true.
Proof.
  revert self w. induction evs as [|e evs IH]; intros self w Hd; simpl; [done|].
  pose proof (on_event_draining e self w Hd). destruct (on_event e self w). by apply IH.
Qed.

Lemma run_send_draining t self w self' w' r :
  run_send t self w = Some (self', w', r) → draining_ self = true → draining_ self' = true.
Proof.
  revert self w. induction t as [s' n chunk|p len k IH|e k IH]; intros self w; cbn [run_send].
  - by intros [= <- <- <-].
  - destruct (alloc self !! p) as [st|]; [|done].
    destruct (DataSourceRead st len) as [[st' data] eof]. intros H Hd. by eapply IH.
  - intros H Hd. pose proof (on_event_draining e self w Hd). destruct (on_event e self w). by eapply IH.
Qed.

Lemma refill_draining fuel self w self' w' b :
  refill fuel self w = Some (self', w', b) → draining_ self = true → draining_ self' = true.
Proof.
  revert self w. induction fuel as [|fuel IH]; intros self w; cbn [refill]; [done|].
  destruct (session_ self) as [s|]; [|done]. intros H Hd. revert H.
  destruct (run_send _ _ _) as [[[self1 w1] [n chunk]]|] eqn:E; [|done].
  eapply run_send_draining in E; [|done]. case_test; [by intros [= <- <- <-]|].
  case_test; [by intros [= <- <- <-]|]. intros Hr. by eapply IH.
Qed.

Lemma run_draining self0 w0 t0 t tr self w :
  h2_run self0 w0 t0 t tr self w → draining_ self0 = true → draining_ self = true.
Proof.
  intros Hrun H0. induction Hrun as
    [|t tr self w now data self' w' b Hrun IH Ht Hr|t tr self w hs b h self' i Hrun IH Hr
     |t tr self w fuel self' w' view Hrun IH Hr|t tr self w n Hrun IH Hn
     |t tr self w now self' a Hrun IH Ht Hc|t tr self w Hrun IH]; [done|..].
  - revert Hr. unfold ReceiveBytes. destruct (session_ self); [|by intros [= <- <- <-]].
    destruct (ng_mem_recv _ _) as [s' [evs rc]].
    pose proof (on_events_draining evs (note_read now data self) w) as Hev.
    destruct (on_events _ _ _) as [self1 w1].
    assert (draining_ (note_read now data self) = true) as Hn by (unfold note_read; by case_test).
    specialize (Hev Hn). case_test; by intros [= <- <- <-].
  - revert Hr. unfold SubmitUnaryRequest. rewrite IH.
    destruct (session_ self); by intros [= <- <-].
  - revert Hr. unfold PendingOutput. destruct (session_ self) as [s|]; [|by intros [= <- <- <-]].
    intros H. destruct (if zlen (out_ self) <=? out_consumed_ self then _ else _)
      as [[[self1 w1] b]|] eqn:E; [|done].
    assert (draining_ self1 = true).
    { case_test_in E; [by eapply refill_draining in E|by injection E as <- <- <-]. }
    destruct b; [case_test_in H|]; by injection H as <- <- <-.
  - unfold ConsumeOutput. simpl. by case_test.
  - revert Hc. unfold CheckKeepalive. destruct (session_ self); [|by intros [= <- <-]].
    assert (draining_ (settle_ping self) = true) as Hd by (unfold settle_ping; by case_test).
    generalize dependent (settle_ping self). intros self1 Hd.
    destruct (ping_outstanding_ self1); [case_test; by intros [= <- <-]|].
    destruct (keepalive_gated self1); [by intros [= <- <-]|].
    destruct (_ <=? _); [|by intros [= <- <-]]. destruct (ng_submit_ping _ _).
    case_test; by intros [= <- <-].
  - unfold Terminate. by destruct (session_ self).
Qed.

(** *** The contract along a run *)

Lemma run_session_ok {NL : Nghttp2Laws NG} self0 w0 t0 t tr self w :
  h2_run self0 w0 t0 t tr self w → session_ok self0 → session_ok self.
Proof.
  intros Hrun H0. induction Hrun as
    [|t tr self w now data self' w' b Hrun IH Ht Hr|t tr self w hs b h self' i Hrun IH Hr
     |t tr self w fuel self' w' view Hrun IH Hr|t tr self w n Hrun IH Hn
     |t tr self w now self' a Hrun IH Ht Hc|t tr self w Hrun IH]; [done|..].
  - pose proof (ReceiveBytes_ok now data self w IH) as H. by rewrite Hr in H.
  - pose proof (SubmitUnaryRequest_ok hs b h self IH) as H. rewrite Hr in H. apply H.
  - by eapply PendingOutput_any.
  - by apply ConsumeOutput_ok.
  - pose proof (CheckKeepalive_ok now self IH) as H. by rewrite Hc in H.
  - by apply Terminate_ok.
Qed.

End Runs.

(** ** Hooks that preserve a property of the program *)

Section HookInvariant.
Context `{NG : Nghttp2} {W : Type} (I : W → Prop).
Implicit Types (self : Http2Session W) (w : W).

Definition keeps_opt {A : Type} (f : option A) (k : A → W → W) : Prop :=
  ∀ w, I w → I (call f k w).

Record stream_hooks_keep (h : StreamHooks W) : Prop := {
  keep_response hs e : keeps_opt (on_response_headers h) (λ f, f hs e);
  keep_trailers ts : keeps_opt (on_trailers h) (λ f, f ts);
  keep_data d : keeps_opt (on_data h) (λ f, f d);
  keep_close e : keeps_opt (on_close h) (λ f, f e);
}.

Record session_hooks_keep (h : Hooks W) : Prop := {
  keep_settings : keeps_opt (on_remote_settings h) id;
  keep_settings_ack : keeps_opt (on_settings_ack h) id;
  keep_ping_ack : keeps_opt (on_ping_ack h) id;
  keep_goaway c l t : keeps_opt (on_goaway h) (λ f, f c l t);
}.

Record session_keeps self : Prop := {
  sk_session : session_hooks_keep (hooks_ self);
  sk_streams p st : alloc self !! p = Some st → stream_hooks_keep (hooks st);
}.

Lemma session_keeps_update self p st st' :
  session_keeps self → alloc self !! p = Some st → hooks st' = hooks st →
  session_keeps {| self with alloc := <[p := st']> (alloc self) |}.
Proof.
  intros [Hs Hst] Hp Hh. split; [done|]. simpl. intros q st0.
  rewrite lookup_insert_Some. intros [[<- <-]|[_ Hq]]; [rewrite Hh|]; by eapply Hst.
Qed.

Lemma on_event_keeps e self w :
  session_keeps self →
  session_keeps (on_event e self w).1 ∧ (I w → I (on_event e self w).2).
Proof.
  intros Hk. pose proof (sk_session self Hk) as Hs. destruct e as [f|f n v|i d|i c]; simpl.
  - destruct f as [j flags cat|fl|fl|code last data|ty j]; simpl.
    + destruct (FindStream self j) as [[p st]|] eqn:E; [|done]. apply FindStream_Some in E as [_ Ha].
      pose proof (sk_streams self Hk p st Ha) as Hst.
      assert (session_keeps {| self with alloc := <[p := {| st with pending_headers := [] |}]> (alloc self) |})
        by (by eapply session_keeps_update).
      destruct cat; (split; [done|]); first [by apply keep_response|by apply keep_trailers].
    + case_test; (split; [done|]); [by apply keep_settings_ack|by apply keep_settings].
    + case_test; [|done]. split; [by destruct Hk; split|by apply keep_ping_ack].
    + split; [by destruct Hk; split|by apply keep_goaway].
    + done.
  - split; [|done]. destruct f as [j flags cat|fl|fl|code last data|ty j]; simpl; try done.
    destruct (FindStream self j) as [[p st]|] eqn:E; [|done]. apply FindStream_Some in E as [_ Ha].
    by eapply session_keeps_update.
  - split; [done|]. unfold OnDataChunkRecv. destruct (FindStream self i) as [[p st]|] eqn:E; [|done].
    apply FindStream_Some in E as [_ Ha]. by apply keep_data, (sk_streams self Hk p st Ha).
  - unfold OnStreamClose. destruct (streams_ self !! i) as [p|]; [|done]. simpl. split.
    + split; [done|]. simpl. intros q st Hq. apply lookup_delete_Some in Hq as [_ Hq].
      by eapply (sk_streams self Hk).
    + destruct (alloc self !! p) as [st|] eqn:E; [|done].
      by apply keep_close, (sk_streams self Hk p st E).
Qed.

Lemma on_events_keeps evs self w :
  session_keeps self →
  session_keeps (on_events evs self w).1 ∧ (I w → I (on_events evs self w).2).
Proof.
  revert self w. induction evs as [|e evs IH]; intros self w Hk; simpl; [done|].
  destruct (on_event_keeps e self w Hk) as [Hk1 H1]. destruct (on_event e self w) as [self1 w1].
  destruct (IH self1 w1 Hk1). auto.
Qed.

Lemma run_send_keeps t self w self' w' r :
  run_send t self w = Some (self', w', r) → session_keeps self → session_keeps self' ∧ (I w → I w').
Proof.
  revert self w. induction t as [s' n chunk|p len k IH|e k IH]; intros self w; cbn [run_send].
  - intros [= <- <- <-] [? ?]. by split; [split|].
  - destruct (alloc self !! p) as [st|] eqn:E; [|done].
    destruct (DataSourceRead st len) as [[st' data] eof] eqn:Hd. intros H Hk.
    apply IH in H; [done|]. eapply session_keeps_update; [done..|].
    unfold DataSourceRead in Hd. by injection Hd as <- <- <-.
  - intros H Hk. destruct (on_event_keeps e self w Hk). destruct (on_event e self w).
    apply IH in H; [|done]. naive_solver.
Qed.

Lemma refill_keeps fuel self w self' w' b :
  refill fuel self w = Some (self', w', b) → session_keeps self → session_keeps self' ∧ (I w → I w').
Proof.
  revert self w. induction fuel as [|fuel IH]; intros self w; cbn [refill]; [done|].
  destruct (session_ self) as [s|]; [|done]. intros H Hk. revert H.
  destruct (run_send _ _ _) as [[[self1 w1] [n chunk]]|] eqn:E; [|done].
  eapply run_send_keeps in E as [Hk1 Hw1]; [|done..].
  case_test; [intros [= <- <- <-]; by split; [destruct Hk1; split|]|].
  case_test; [by intros [= <- <- <-]|]. intros Hr. apply IH in Hr; [naive_solver|].
  by destruct Hk1; split.
Qed.

Lemma PendingOutput_keeps fuel self w self' w' view :
  PendingOutput fuel self w = Some (self', w', view) →
  session_keeps self → session_keeps self' ∧ (I w → I w').
Proof.
  unfold PendingOutput. destruct (session_ self) as [s|]; [|by intros [= <- <- <-]].
  intros H Hk. destruct (if zlen (out_ self) <=? out_consumed_ self then _ else _)
    as [[[self1 w1] b]|] eqn:E; [|done].
  assert (session_keeps self1 ∧ (I w → I w1)).
  { case_test_in E; [|by injection E as <- <- <-].
    eapply refill_keeps in E; [done|]. by destruct Hk; split. }
  destruct b; [case_test_in H|]; by injection H as <- <- <-.
Qed.

Lemma ReceiveBytes_keeps now data self w self' w' b :
  ReceiveBytes now data self w = (self', w', b) →
  session_keeps self → session_keeps self' ∧ (I w → I w').
Proof.
  unfold ReceiveBytes. destruct (session_ self) as [s|]; [|by intros [= <- <- <-]].
  destruct (ng_mem_recv s data) as [s' [evs rc]]. intros H Hk.
  assert (Hn : session_keeps (note_read now data self)).
  { unfold note_read. case_test; [|done]. by destruct Hk; split. }
  destruct (on_events_keeps evs _ w Hn) as [Hk1 Hw1].
  destruct (on_events evs _ w) as [self1 w1]. simpl in *.
  case_test_in H; injection H as <- <- <-; (split; [|done]); by destruct Hk1; split.
Qed.

Lemma SubmitUnaryRequest_keeps hs b h self self' i :
  SubmitUnaryRequest hs b h self = (self', i) →
  session_keeps self → stream_hooks_keep h → session_keeps self'.
Proof.
  unfold SubmitUnaryRequest. intros H [Hs Hst] Hh. revert H.
  destruct (session_ self); [|intros [= <- <-]; by split].
  destruct (draining_ self); [intros [= <- <-]; by split|].
  destruct (ng_submit_request _ _ _) as [s' j]. case_test; [intros [= <- <-]; by split|].
  intros [= <- <-]. split; simpl.
  - by case_match.
  - destruct (streams_ self !! j); simpl; [done|]. intros p st.
    rewrite lookup_insert_Some. intros [[<- <-]|[_ Hp]]; [done|by eapply Hst].
Qed.

Lemma CheckKeepalive_keeps now self : session_keeps self → session_keeps (CheckKeepalive now self).1.
Proof.
  intros Hk. unfold CheckKeepalive. destruct (session_ self); [|done].
  assert (Hk1 : session_keeps (settle_ping self)).
  { unfold settle_ping. case_test; [|done]. by destruct Hk; split. }
  generalize dependent (settle_ping self). intros self1 Hk1.
  destruct (ping_outstanding_ self1); [by case_test|].
  destruct (keepalive_gated self1); [done|]. destruct (_ <=? _); [|done].
  destruct (ng_submit_ping _ _). case_test; by destruct Hk1; split.
Qed.

Lemma simple_updates_keep self :
  session_keeps self →
  (∀ n, session_keeps (ConsumeOutput n self)) ∧ session_keeps (Terminate self).
Proof.
  intros [Hs Hst]. split.
  - intros n. unfold ConsumeOutput. simpl. by case_test; split.
  - unfold Terminate. destruct (session_ self); by split.
Qed.

Lemma new_http2_session_keeps o h now crc client :
  session_hooks_keep h → session_keeps (new_http2_session o h now crc client).
Proof.
  intros Hh. unfold new_http2_session. destruct client as [rc s].
  destruct (ng_submit_settings _ _) as [s1 src]. destruct (ng_set_local_window_size _ _ _) as [s2 wrc].
  repeat case_test; (split; [done|simpl; intros *; by rewrite lookup_empty]).
Qed.

End HookInvariant.
