(* ===== verification/Http2Properties.v ===== *)
(** * Properties of the HTTP/2 session

    The theorems about [Http2Session.v]: ownership of the stream objects, keepalive,
    the output buffer, the request body, the per-stream hooks and draining.  The last
    section holds a small concrete nghttp2 that satisfies the contract, and the
    witnesses. *)

From Stdlib Require Import ZArith Lia.
From Stdlib Require Import Strings.String Strings.Byte.
From stdpp Require Import base numbers list gmap.
From S2P Require Import Prelude Http2Session.

Local Open Scope Z_scope.

Section Properties.
Context `{NG : Nghttp2} {W : Type}.
Implicit Types (self : Http2Session W) (w : W).

Lemma new_session_keepalive (o : Http2SessionOptions) (h : Hooks W) now crc client :
  keepalive_inv now [] (new_http2_session o h now crc client).
Proof.
  unfold new_http2_session. destruct client as [rc s].
  destruct (ng_submit_settings _ _) as [s1 src]. destruct (ng_set_local_window_size _ _ _) as [s2 wrc].
  repeat case_test; (split; [split; [simpl; lia|done]|done|done]).
Qed.

(** C16: whatever the owner calls, and whatever nghttp2 does within its contract, the
    stream objects are owned exactly by [streams_] (none freed while registered, none
    leaked), [active_streams_] counts them, and [PendingOutput] returns without its
    data provider ever touching a destroyed stream. *)
Theorem session_streams_safe {NL : Nghttp2Laws NG} (o : Http2SessionOptions) (h : Hooks W)
    (now crc : Z) (client : Z * ng_session) (w0 : W) (t : Z) (tr : list Call) self w :
  ng_open client.2 = ∅ →
  h2_run (new_http2_session o h now crc client) w0 now t tr self w →
  active_streams_ self = Z.of_nat (size (streams_ self)) ∧
  (∀ i p, streams_ self !! i = Some p → is_Some (alloc self !! p)) ∧
  (∀ p st, alloc self !! p = Some st → ∃ i, streams_ self !! i = Some p) ∧
  ∃ r, PendingOutput (output_fuel self) self w = Some r.
Proof.
  intros Hopen Hrun.
  pose proof (run_session_ok _ _ _ _ _ _ _ Hrun (new_http2_session_ok o h now crc client Hopen)) as Hok.
  pose proof (hok_inv self Hok) as Hinv. split_and!.
  - apply (hinv_count self Hinv).
  - apply (hinv_owned self Hinv).
  - intros p st Hp. by destruct (hinv_no_leak self Hinv p st Hp).
  - destruct (PendingOutput_ok (output_fuel self) self w Hok ltac:(lia)) as (? & ? & ? & -> & _). eauto.
Qed.

(** C32: the keepalive never blames a live peer: if a check declares the connection
    dead, then an earlier check sent a PING at least [keepalive_timeout] before, and
    no byte has been received since that PING. *)
Theorem keepalive_no_false_death (o : Http2SessionOptions) (h : Hooks W)
    (t0 crc : Z) (client : Z * ng_session) (w0 : W) (t : Z) (tr : list Call) self w
    (now : Z) (self' : Http2Session W) :
  h2_run (new_http2_session o h t0 crc client) w0 t0 t tr self w → t <= now →
  CheckKeepalive now self = (self', kDead) →
  ∃ newer sent older,
    tr = newer ++ CCheck sent kPingSent :: older ∧
    sent + ms (keepalive_timeout (options_ self)) <= now ∧
    Forall (λ c, is_read c = false) newer.
Proof.
  intros Hrun Ht Hc.
  pose proof (run_keepalive_inv _ _ _ _ _ _ _ Hrun (new_session_keepalive o h t0 crc client)) as Hinv.
  destruct (CheckKeepalive_dead _ _ _ Hc) as (Hout & Hread & Hdue).
  destruct (kinv_ping t tr self Hinv Hout) as (newer & older & -> & Hnr).
  exists newer, (ping_sent_ self), older. split_and!; [done|lia|].
  apply Forall_forall. intros c Hin. destruct (is_read c) eqn:E; [|done].
  assert (ping_sent_ self <= last_read_ self); [|lia].
  apply Hnr, Exists_exists. eauto.
Qed.

(** C33: the keepalive detects a silent peer on time: an idle session sends a PING when
    [keepalive_time] has passed, arms the deadline at [keepalive_timeout] later, and
    from then on, as long as neither a read nor an ack has come, a check reports the
    connection dead exactly from that deadline. *)
Theorem keepalive_detects_silence self (s s' : ng_session) (t1 : Z) :
  session_ self = Some s →
  ping_outstanding_ self && (last_read_ self <? ping_sent_ self) = false →
  keepalive_gated self = false →
  last_read_ self + ms (keepalive_time (options_ self)) <= t1 →
  0 < keepalive_time (options_ self) →
  ng_submit_ping s (ping_opaque ((ping_counter_ self + 1) mod 2 ^ 64)) = (s', 0) →
  let due := t1 + ms (keepalive_timeout (options_ self)) in
  ∃ self1,
    CheckKeepalive t1 self = (self1, kPingSent) ∧ NextKeepaliveDeadline self1 = Some due ∧
    ∀ self2 t2,
      is_Some (session_ self2) → options_ self2 = options_ self1 →
      ping_outstanding_ self2 = true → ping_sent_ self2 = ping_sent_ self1 →
      last_read_ self2 = last_read_ self1 →
      (CheckKeepalive t2 self2).2 = if due <=? t2 then kDead else kNone.
Proof.
  intros Hs Ho Hg Hidle Hpos Hping due.
  destruct (CheckKeepalive_idle t1 self s s' Hs Ho Hg Hidle Hping)
    as (self1 & Hc & Ho1 & Hp1 & Hl1 & Hopt1 & Ha1 & Hs1).
  exists self1. split; [done|]. split.
  - unfold NextKeepaliveDeadline, keepalive_gated in *. by rewrite Hs1, Hopt1, Ha1, Hg, Ho1, Hp1.
  - intros self2 t2 Hs2 Hopt2 Ho2 Hp2 Hl2.
    rewrite CheckKeepalive_outstanding; [|done..|unfold ms in *; lia]. simpl.
    rewrite Hopt2, Hopt1, Hp2, Hp1. subst due. by repeat case_test; try lia.
Qed.

(** The keepalive timer always moves forward: with positive settings and PINGs
    that can be queued, after any check that does not end in [kDead] the next deadline
    is later than the time of the check, so re-arming it never spins. *)
Theorem keepalive_timer_advances self self' (now d : Z) (a : KeepaliveAction) :
  (∀ s o, (ng_submit_ping s o).2 = 0) →
  0 < keepalive_time (options_ self) → 0 < keepalive_timeout (options_ self) →
  CheckKeepalive now self = (self', a) → a ≠ kDead →
  NextKeepaliveDeadline self' = Some d → now < d.
Proof.
  intros Hping Ht1 Ht2. unfold CheckKeepalive. destruct (session_ self) as [s|] eqn:Hs.
  2: { intros [= <- <-] _. unfold NextKeepaliveDeadline. by rewrite Hs. }
  destruct (settle_ping_spec self) as (Hopt & Hs1 & _).
  generalize dependent (settle_ping self). intros self1 Hopt Hs1. rewrite Hs in Hs1.
  destruct (ping_outstanding_ self1) eqn:Ho1.
  - case_test; intros [= <- <-]; [done|]. intros _. unfold NextKeepaliveDeadline.
    rewrite Hs1, Ho1. destruct (keepalive_gated self1); intros [= <-]. lia.
  - destruct (keepalive_gated self1) eqn:Hg.
    { intros [= <- <-] _. unfold NextKeepaliveDeadline. by rewrite Hs1, Hg. }
    case_test.
    + specialize (Hping s (ping_opaque ((ping_counter_ self1 + 1) mod 2 ^ 64))).
      destruct (ng_submit_ping _ _) as [s' rc]; simpl in Hping. subst rc. simpl.
      intros [= <- <-] _. unfold NextKeepaliveDeadline. simpl.
      unfold keepalive_gated in *. simpl. rewrite Hg, Hopt. intros [= <-]. unfold ms. lia.
    + intros [= <- <-] _. unfold NextKeepaliveDeadline. rewrite Hs1, Hg, Ho1. intros [= <-]. lia.
Qed.

(** C34: partial socket writes lose and repeat nothing: once [PendingOutput] returned a
    view, however the owner consumes it piecewise, each later call returns exactly the
    rest of that view, untouched by anything nghttp2 could still produce, until all of
    it is consumed. *)
Theorem partial_writes_exact {NL : Nghttp2Laws NG} (fuel fuel' : nat) self self1 w w1
    (view : bytes) (ns : list Z) :
  session_ok self → PendingOutput fuel self w = Some (self1, w1, view) →
  Forall (λ n, 0 <= n) ns → foldr Z.add 0 ns < zlen view →
  let self2 := foldr ConsumeOutput self1 ns in
  PendingOutput fuel' self2 w1 = Some (self2, w1, drop (Z.to_nat (foldr Z.add 0 ns)) view) ∧
  WantWrite self2 = true.
Proof.
  intros Hok HP Hns Hsum self2.
  pose proof (PendingOutput_any _ _ _ _ _ _ Hok HP) as Hok1.
  assert (Hv : is_Some (session_ self1) ∧ view = drop (Z.to_nat (out_consumed_ self1)) (out_ self1) ∧
               0 <= out_consumed_ self1 < zlen (out_ self1)).
  { pose proof (hinv_out _ (hok_inv _ Hok1)) as Hb1.
    apply PendingOutput_view in HP as [->|(? & ? & ?)]; [|split_and!; [done..|lia|lia]].
    change (zlen (@nil byte)) with 0 in Hsum. exfalso. clear -Hns Hsum. assert (0 <= foldr Z.add 0 ns); [|lia].
    clear Hsum. induction Hns; simpl; lia. }
  destruct Hv as ([s Hs] & -> & Hb).
  rewrite zlen_drop in Hsum by lia.
  assert (Hself2 : self2 = {| self1 with out_consumed_ := out_consumed_ self1 + foldr Z.add 0 ns |} ∧
                   0 <= foldr Z.add 0 ns).
  { subst self2. clear HP. induction Hns as [|n ns Hn Hns IH]; simpl in *.
    - destruct self1; simpl. rewrite Z.add_0_r. split; [done|lia].
    - destruct IH as [-> Hnn]; [lia|]. split; [|lia]. unfold ConsumeOutput. simpl.
      case_test; [lia|]. f_equal. lia. }
  destruct Hself2 as [-> Hnn]. unfold PendingOutput, WantWrite. simpl. rewrite Hs.
  split; [|by case_test; [|lia]]. case_test; [lia|]. simpl. case_test; [lia|].
  rewrite drop_drop_Z by lia. by destruct self1; simpl in *; subst.
Qed.

(** C35: after a GOAWAY frame or [Terminate] the session is draining for good: in every
    later state of any run a submission is refused with -1 and changes nothing but
    [error_], and the too_many_pings flag is set exactly by ENHANCE_YOUR_CALM with that
    debug data. *)
Theorem goaway_stops_new_streams self self' w w' (code last : Z) (data : option bytes)
    (now t : Z) (tr : list Call) (hs : HeaderList) (b : bytes) (h : StreamHooks W) :
  let drained := (OnFrameRecv (FGoaway code last data) self w).1 in
  too_many_pings_ drained =
    (code =? NGHTTP2_ENHANCE_YOUR_CALM) && bool_decide (data = Some (bs "too_many_pings")) ∧
  (h2_run drained w now t tr self' w' ∨
   (is_Some (session_ self) ∧ h2_run (Terminate self) w now t tr self' w') →
   ∃ e, SubmitUnaryRequest hs b h self' = ({| self' with error_ := e |}, -1)).
Proof.
  split; [done|]. intros Hrun. assert (Hd : draining_ self' = true).
  { destruct Hrun as [Hrun|[[s Hs] Hrun]]; apply run_draining in Hrun; try done.
    unfold Terminate. by rewrite Hs. }
  unfold SubmitUnaryRequest. rewrite Hd. destruct self' as [? ? [s|]]; simpl; eauto.
Qed.

(** *** The request body *)

(** Successive calls of the data provider on a stream. *)
Fixpoint read_body (st : Stream W) (lens : list Z) : list (bytes * bool) :=
  match lens with
  | [] => []
  | len :: lens =>
      let '(st, data, eof) := DataSourceRead st len in (data, eof) :: read_body st lens
  end.

(** The running totals of a list of sizes. *)
Fixpoint totals (a : Z) (lens : list Z) : list Z :=
  match lens with [] => [] | len :: lens => (a + len) :: totals (a + len) lens end.

Lemma read_body_from (st : Stream W) (lens : list Z) (a : Z) :
  Forall (λ n, 0 <= n) lens → 0 <= a → body_offset st = Z.min a (zlen (body st)) →
  concat (read_body st lens).*1 = zsubstr (body_offset st) (foldr Z.add 0 lens) (body st) ∧
  (read_body st lens).*2 = (λ n, zlen (body st) <=? n) <$> totals a lens.
Proof.
  intros Hl. revert st a. induction Hl as [|len lens Hlen Hl IH]; intros st a Ha Hoff; [done|].
  pose proof (zlen_nonneg (body st)) as Hnn.
  pose proof (DataSourceRead_spec st len Hlen ltac:(lia)) as Hd. cbn [read_body].
  assert (Hoff' : body_offset (DataSourceRead st len).1.1 = Z.min (a + len) (zlen (body st))).
  { simpl. rewrite Hoff. lia. }
  destruct (DataSourceRead st len) as [[st' data] eof]; simpl in Hoff'.
  destruct Hd as (Hb & _ & _ & Hbnd & Hlen' & -> & Hcat & Heof).
  destruct (IH st' (a + len)) as [IH1 IH2]; [lia|by rewrite Hb|]. cbn [fmap list_fmap fst snd concat].
  change (list_fmap _ _ fst (read_body st' lens)) with ((read_body st' lens).*1).
  change (list_fmap _ _ snd (read_body st' lens)) with ((read_body st' lens).*2).
  rewrite IH1, IH2, Hb. cbn [totals fmap list_fmap foldr]. split.
  - rewrite Hoff'. unfold zsubstr. rewrite Hoff.
    assert (0 <= foldr Z.add 0 lens) as Hs by (clear -Hl; induction Hl; simpl; lia).
    rewrite Z2Nat.inj_add, <- take_take_drop, drop_drop by lia. f_equal.
    destruct (Z.le_gt_cases (a + len) (zlen (body st))).
    + do 2 f_equal. lia.
    + rewrite !drop_ge; [done|..]; unfold zlen in *; lia.
  - f_equal. destruct (Z.leb_spec (zlen (body st)) (a + len)) as [Hle|Hgt].
    + apply Heof. rewrite drop_ge; [done|]. unfold zlen in *. lia.
    + destruct eof; [|done]. exfalso. destruct Heof as [Heof _]. specialize (Heof eq_refl).
      apply (f_equal zlen) in Heof. rewrite zlen_drop in Heof by lia.
      change (zlen (@nil byte)) with 0 in Heof. lia.
Qed.

(** The data provider hands the request body over exactly, for every sequence of
    buffer sizes nghttp2 may use: the bytes read are the body in order up to the total
    size asked for, and the EOF flag (the unary half-close) comes on a read exactly when
    the whole body has been handed over with it. *)
Theorem body_delivered_exactly (h : StreamHooks W) (b : bytes) (lens : list Z) :
  Forall (λ n, 0 <= n) lens →
  let st := {| hooks := h; body := b; body_offset := 0; pending_headers := [] |} in
  concat (read_body st lens).*1 = take (Z.to_nat (foldr Z.add 0 lens)) b ∧
  (read_body st lens).*2 = (λ n, zlen b <=? n) <$> totals 0 lens.
Proof.
  intros Hl st. destruct (read_body_from st lens 0 Hl) as [H1 H2]; [lia| |].
  - simpl. pose proof (zlen_nonneg b). lia.
  - rewrite H1, H2. done.
Qed.

End Properties.

(** ** What one stream sees *)

Inductive HookCall : Type :=
  | HResponse (headers : HeaderList) (end_stream : bool)
  | HTrailers (trailers : HeaderList)
  | HData (data : bytes)
  | HClose (error_code : Z).

(** The specification: the calls stream [i] is due for a sequence of callbacks, with
    the header fields collected so far ([None]: not open). *)
Fixpoint stream_view (i : Z) (cur : option HeaderList) (evs : list Event) : list HookCall :=
  match evs, cur with
  | [], _ | _, None => []
  | EvHeader (FHeaders j _ _) name value :: evs, Some hs =>
      stream_view i (Some (if j =? i then hs ++ [(name, value)] else hs)) evs
  | EvFrame (FHeaders j flags cat) :: evs, Some hs =>
      if j =? i then
        (match cat with
         | HCAT_RESPONSE => HResponse hs (negb (Z.land flags NGHTTP2_FLAG_END_STREAM =? 0))
         | _ => HTrailers hs
         end) :: stream_view i (Some []) evs
      else stream_view i (Some hs) evs
  | EvData j data :: evs, Some hs =>
      (if j =? i then [HData data] else []) ++ stream_view i (Some hs) evs
  | EvClose j code :: evs, Some hs =>
      if j =? i then [HClose code] else stream_view i (Some hs) evs
  | _ :: evs, Some hs => stream_view i (Some hs) evs
  end.

(** The header fields left over for the next callbacks; [None] once the stream is closed. *)
Fixpoint view_rest (i : Z) (cur : option HeaderList) (evs : list Event) : option HeaderList :=
  match evs, cur with
  | [], _ => cur
  | _, None => None
  | EvHeader (FHeaders j _ _) name value :: evs, Some hs =>
      view_rest i (Some (if j =? i then hs ++ [(name, value)] else hs)) evs
  | EvFrame (FHeaders j _ _) :: evs, Some hs => view_rest i (Some (if j =? i then [] else hs)) evs
  | EvClose j _ :: evs, Some hs => if j =? i then None else view_rest i (Some hs) evs
  | _ :: evs, Some hs => view_rest i (Some hs) evs
  end.

Lemma stream_view_None i evs : stream_view i None evs = [].
Proof. by destruct evs as [|[[]|[]| |] evs]. Qed.

Lemma view_rest_None i evs : view_rest i None evs = None.
Proof. by destruct evs as [|[[]|[]| |] evs]. Qed.

Lemma view_cons i cur e evs :
  stream_view i cur (e :: evs) = stream_view i cur [e] ++ stream_view i (view_rest i cur [e]) evs.
Proof.
  destruct cur as [hs|]; [|by rewrite view_rest_None, !stream_view_None].
  destruct e as [[j fl cat| | | |]|[j fl cat| | | |]|j d|j c]; simpl; try done; try (by case_test);
    case_test; by rewrite ?stream_view_None.
Qed.

Lemma view_rest_cons i cur e evs :
  view_rest i cur (e :: evs) = view_rest i (view_rest i cur [e]) evs.
Proof.
  destruct cur as [hs|]; [|by rewrite !view_rest_None].
  destruct e as [[j fl cat| | | |]|[j fl cat| | | |]|j d|j c]; simpl; try done.
  case_test; by rewrite ?view_rest_None.
Qed.

Lemma view_app i cur evs evs' :
  stream_view i cur (evs ++ evs') = stream_view i cur evs ++ stream_view i (view_rest i cur evs) evs'.
Proof.
  revert cur. induction evs as [|e evs IH]; intros cur; [by destruct cur|].
  cbn [app]. rewrite view_cons, IH, (view_cons _ _ _ evs), (view_rest_cons _ _ _ evs). by rewrite app_assoc.
Qed.

Section StreamView.
Context `{NG : Nghttp2} {W V : Type}.
Implicit Types (self : Http2Session W) (w : W).

Definition collected self (i : Z) : option HeaderList :=
  match FindStream self i with Some (_, st) => Some (pending_headers st) | None => None end.

(** Replacing the object behind [FindStream self j] shows at [j] only. *)
Lemma FindStream_update self j p st st' i :
  session_inv self → FindStream self j = Some (p, st) →
  FindStream {| self with alloc := <[p := st']> (alloc self) |} i =
    if j =? i then Some (p, st') else FindStream self i.
Proof.
  intros Hinv Hj. apply FindStream_Some in Hj as [Hj Ha]. unfold FindStream. simpl.
  case_test.
  - subst i. by rewrite Hj, lookup_insert_eq.
  - destruct (streams_ self !! i) as [q|] eqn:Hi; [|done].
    rewrite lookup_insert_ne; [done|]. intros <-.
    by pose proof (hinv_unique self Hinv i j p Hi Hj).
Qed.

Lemma FindStream_close self j p i :
  session_inv self → streams_ self !! j = Some p →
  FindStream {| self with streams_ := delete j (streams_ self);
                          active_streams_ := active_streams_ self - 1;
                          alloc := delete p (alloc self) |} i =
    if j =? i then None else FindStream self i.
Proof.
  intros Hinv Hj. unfold FindStream. simpl. case_test.
  - subst i. by rewrite lookup_delete_eq.
  - rewrite lookup_delete_ne by done. destruct (streams_ self !! i) as [q|] eqn:Hi; [|done].
    rewrite lookup_delete_ne; [done|]. intros <-.
    by pose proof (hinv_unique self Hinv i j p Hi Hj).
Qed.

(** The streams of [self'] are streams of [self] with the same hooks. *)
Definition streams_shrink self self' : Prop :=
  hooks_ self' = hooks_ self ∧ streams_ self' ⊆ streams_ self ∧
  ∀ p st', alloc self' !! p = Some st' → ∃ st, alloc self !! p = Some st ∧ hooks st' = hooks st.

#[export] Instance streams_shrink_preorder : PreOrder streams_shrink.
Proof.
  split; [intros self; split_and!; by eauto|]. intros s1 s2 s3 (E1 & S1 & H1) (E2 & S2 & H2).
  split_and!; [congruence|by etrans|]. intros p st3 H3. destruct (H2 p st3 H3) as (st2 & Hs2 & ->). by apply H1.
Qed.

Lemma shrink_find self self' i p st' :
  streams_shrink self self' → FindStream self' i = Some (p, st') →
  ∃ st, FindStream self i = Some (p, st) ∧ hooks st' = hooks st.
Proof.
  intros (_ & Hs & Ha) [Hi Hp]%FindStream_Some. destruct (Ha p st' Hp) as (st & Hst & Hh).
  exists st. split; [|done]. apply FindStream_Some. split; [by eapply lookup_weaken|done].
Qed.

Lemma shrink_same self self' :
  hooks_ self' = hooks_ self → streams_ self' = streams_ self → alloc self' = alloc self →
  streams_shrink self self'.
Proof. intros Hh Hs Ha. unfold streams_shrink. rewrite Hs, Ha. split_and!; by eauto. Qed.

Lemma shrink_update self p st st' :
  alloc self !! p = Some st → hooks st' = hooks st →
  streams_shrink self {| self with alloc := <[p := st']> (alloc self) |}.
Proof.
  intros Hp Hh. split_and!; [done..|]. simpl. intros q st0.
  rewrite lookup_insert_Some. intros [[<- <-]|[_ Hq]]; by eauto.
Qed.

Lemma on_event_shrink e self w : streams_shrink self (on_event e self w).1.
Proof.
  destruct e as [f|f n v|j d|j c]; cbn [on_event fst].
  - destruct f as [j flags cat|fl|fl|code last data|ty j]; cbn [OnFrameRecv]; try done.
    + destruct (FindStream self j) as [[p st]|] eqn:Hj; [|done]. apply FindStream_Some in Hj as [_ Hp].
      destruct cat; by eapply shrink_update.
    + by case_test.
    + case_test; [by apply shrink_same|done].
    + by apply shrink_same.
  - destruct f as [j flags cat|fl|fl|code last data|ty j]; cbn [OnHeader]; try done.
    destruct (FindStream self j) as [[p st]|] eqn:Hj; [|done]. apply FindStream_Some in Hj as [_ Hp].
    by eapply shrink_update.
  - done.
  - unfold OnStreamClose. destruct (streams_ self !! j) as [p|] eqn:Hj; [|done].
    split_and!; [done|apply delete_subseteq|]. simpl. intros q st [_ Hq]%lookup_delete_Some. by eauto.
Qed.

Lemma on_events_shrink evs self w : streams_shrink self (on_events evs self w).1.
Proof.
  revert self w. induction evs as [|e evs IH]; intros self w; cbn [on_events]; [done|].
  pose proof (on_event_shrink e self w) as Hs.
  destruct (on_event e self w) as [self1 w1]. by transitivity self1.
Qed.

Definition run_hook (h : StreamHooks W) (c : HookCall) (w : W) : W :=
  match c with
  | HResponse hs e => call (on_response_headers h) (λ f, f hs e) w
  | HTrailers ts => call (on_trailers h) (λ f, f ts) w
  | HData d => call (on_data h) (λ f, f d) w
  | HClose code => call (on_close h) (λ f, f code) w
  end.

(** Of the program's state, [view] is what the hooks of stream [i] work on, by [act];
    no other stream's hooks and no hook of the session touch it. *)
Record routed (i : Z) (view : W → V) (act : V → HookCall → V) self : Prop := {
  routed_session v : session_hooks_keep (λ w, view w = v) (hooks_ self);
  routed_stream j p st : FindStream self j = Some (p, st) → ∀ c w,
    view (run_hook (hooks st) c w) = if j =? i then act (view w) c else view w;
}.

Lemma routed_shrink i view act self self' :
  streams_shrink self self' → routed i view act self → routed i view act self'.
Proof.
  intros Hs [H1 H2]. split; [by rewrite (proj1 Hs)|]. intros j p st Hj c w.
  destruct (shrink_find _ _ _ _ _ Hs Hj) as (st0 & Hj0 & ->). by eapply H2.
Qed.

(** A frame: a HEADERS frame of a stream hands over what was collected for it. *)
Lemma OnFrameRecv_view f self w i view act :
  session_inv self → routed i view act self →
  let '(self', w') := OnFrameRecv f self w in
  collected self' i = view_rest i (collected self i) [EvFrame f] ∧
  view w' = foldl act (view w) (stream_view i (collected self i) [EvFrame f]).
Proof.
  intros Hinv [Hses Hstr].
  destruct f as [j flags cat|fl|fl|code last data|ty j]; cbn [OnFrameRecv].
  - destruct (FindStream self j) as [[p st]|] eqn:Hj.
    + pose proof (Hstr j p st Hj) as Hh.
      destruct cat;
        [pose proof (Hh (HTrailers (pending_headers st)) w) as Hc
        |pose proof (Hh (HResponse (pending_headers st)
                           (negb (Z.land flags NGHTTP2_FLAG_END_STREAM =? 0))) w) as Hc
        |pose proof (Hh (HTrailers (pending_headers st)) w) as Hc..];
        unfold collected; cbn [run_hook] in Hc; rewrite (FindStream_update self j p st), Hc by done;
        case_test; try subst i; rewrite ?Hj;
        cbn [stream_view view_rest]; try rewrite Z.eqb_refl; try done;
        (destruct (FindStream self i) as [[q st0]|]; [|done]); cbn [stream_view view_rest]; by case_test.
    + unfold collected. destruct (FindStream self i) as [[q st0]|] eqn:Hi; [|done].
      cbn [stream_view view_rest]. case_test; [congruence|done].
  - case_test; (split; [by destruct (collected self i)|]);
      [apply (keep_settings_ack _ _ (Hses _))|apply (keep_settings _ _ (Hses _))];
      by destruct (collected self i).
  - case_test; [|split; by destruct (collected self i)].
    split; [change (collected _ i) with (collected self i); by destruct (collected self i)|].
    apply (keep_ping_ack _ _ (Hses _)). by destruct (collected self i).
  - split; [change (collected _ i) with (collected self i); by destruct (collected self i)|].
    apply (keep_goaway _ _ (Hses _)). by destruct (collected self i).
  - split; by destruct (collected self i).
Qed.

(** One callback: what it does to the view, and the fields it leaves collected. *)
Lemma on_event_view e self w i view act :
  session_inv self → routed i view act self →
  let '(self', w') := on_event e self w in
  collected self' i = view_rest i (collected self i) [e] ∧
  view w' = foldl act (view w) (stream_view i (collected self i) [e]).
Proof.
  intros Hinv Hr. pose proof Hr as [Hses Hstr].
  destruct e as [f|f n v|j d|j c]; cbn [on_event].
  - by apply OnFrameRecv_view.
  - split.
    2: { by destruct f, (collected self i). }
    destruct f as [j flags cat|fl|fl|code last data|ty j]; cbn [OnHeader];
      try (by destruct (collected self i)).
    unfold collected. destruct (FindStream self j) as [[p st]|] eqn:Hj.
    + rewrite (FindStream_update self j p st) by done. case_test; [subst i; rewrite Hj|].
      * cbn [view_rest]. by rewrite Z.eqb_refl.
      * destruct (FindStream self i) as [[q st0]|]; [|done]. cbn [view_rest]. by case_test.
    + destruct (FindStream self i) as [[q st0]|] eqn:Hi; [|done].
      cbn [view_rest]. case_test; [congruence|done].
  - split; [by destruct (collected self i)|]. unfold OnDataChunkRecv, collected.
    destruct (FindStream self j) as [[p st]|] eqn:Hj.
    + pose proof (Hstr j p st Hj (HData d) w) as Hc. cbn [run_hook] in Hc. rewrite Hc. case_test; [subst i; rewrite Hj|].
      * cbn [stream_view]. by rewrite Z.eqb_refl.
      * destruct (FindStream self i) as [[q st0]|]; [|done]. cbn [stream_view]. by case_test.
    + destruct (FindStream self i) as [[q st0]|] eqn:Hi; [|done].
      cbn [stream_view]. case_test; [congruence|done].
  - unfold OnStreamClose. destruct (streams_ self !! j) as [p|] eqn:Hj.
    + destruct (hinv_owned self Hinv j p Hj) as [st Hst]. rewrite Hst.
      assert (Hf : FindStream self j = Some (p, st)) by (by apply FindStream_Some).
      pose proof (Hstr j p st Hf (HClose c) w) as Hc. cbn [run_hook] in Hc. rewrite Hc.
      unfold collected. rewrite FindStream_close by done.
      case_test; [subst i; rewrite Hf|].
      * cbn [stream_view view_rest]. by rewrite Z.eqb_refl.
      * destruct (FindStream self i) as [[q st0]|]; [|done].
        cbn [stream_view view_rest]. by case_test.
    + unfold collected. destruct (FindStream self i) as [[q st0]|] eqn:Hi; [|done].
      cbn [stream_view view_rest]. case_test; [|done]. subst i.
      apply FindStream_Some in Hi as [Hi _]. congruence.
Qed.

Lemma on_events_view evs self w i view act :
  session_inv self → routed i view act self →
  let '(self', w') := on_events evs self w in
  collected self' i = view_rest i (collected self i) evs ∧
  view w' = foldl act (view w) (stream_view i (collected self i) evs).
Proof.
  revert self w. induction evs as [|e evs IH]; intros self w Hinv Hr; cbn [on_events].
  { by destruct (collected self i). }
  pose proof (on_event_view e self w i view act Hinv Hr) as Hv.
  pose proof (on_event_inv e self w Hinv) as Hi.
  pose proof (on_event_shrink e self w) as Hs.
  destruct (on_event e self w) as [self1 w1]. destruct Hv as [Hc Hv].
  specialize (IH self1 w1 Hi (routed_shrink _ _ _ _ _ Hs Hr)).
  destruct (on_events evs self1 w1) as [self2 w2].
  by rewrite view_cons, view_rest_cons, foldl_app, <- Hc, <- Hv.
Qed.

End StreamView.

Section Recorded.
Context `{NG : Nghttp2}.
Abbreviation Log := (list (Z * HookCall)).
Implicit Types (self : Http2Session Log) (w : Log).

(** Hooks that write down their calls under the stream's id. *)
Definition recorder (i : Z) : StreamHooks Log :=
  {| on_response_headers := Some (λ hs e w, w ++ [(i, HResponse hs e)]);
     on_trailers := Some (λ hs w, w ++ [(i, HTrailers hs)]);
     on_data := Some (λ d w, w ++ [(i, HData d)]);
     on_close := Some (λ c w, w ++ [(i, HClose c)]) |}.

Definition calls_of (i : Z) (w : Log) : list HookCall :=
  (filter (λ c, c.1 = i) w).*2.

Definition silent_hooks : Hooks Log :=
  {| on_remote_settings := None; on_settings_ack := None; on_ping_ack := None; on_goaway := None |}.

(** Every stream records under its own id. *)
Definition recording self : Prop :=
  hooks_ self = silent_hooks ∧
  ∀ i p st, FindStream self i = Some (p, st) → hooks st = recorder i.

Lemma calls_of_snoc i j c w : calls_of i (w ++ [(j, c)]) = if j =? i then calls_of i w ++ [c] else calls_of i w.
Proof.
  unfold calls_of. rewrite filter_app, fmap_app, filter_cons. simpl.
  case_test; case_decide; simpl in *; try done; try lia. by rewrite app_nil_r.
Qed.

Lemma recording_routed self i : recording self → routed i (calls_of i) (λ l c, l ++ [c]) self.
Proof.
  intros [Hs Hr]. split; [rewrite Hs; by split; intros; intros w Hw|].
  intros j p st Hj c w. rewrite (Hr j p st Hj). destruct c; apply calls_of_snoc.
Qed.

Lemma recorded_view evs self w i :
  session_inv self → recording self →
  calls_of i (on_events evs self w).2 = calls_of i w ++ stream_view i (collected self i) evs.
Proof.
  intros Hinv Hrec. pose proof (on_events_view evs self w i _ _ Hinv (recording_routed self i Hrec)) as Hv.
  destruct (on_events evs self w) as [self' w']. destruct Hv as [_ Hv]. cbn [snd]. rewrite Hv. clear Hv.
  generalize (calls_of i w) as l. induction (stream_view i (collected self i) evs) as [|c cs IH]; intros l; simpl.
  - by rewrite app_nil_r.
  - by rewrite IH, <- app_assoc.
Qed.

Lemma stream_view_close_last i cur evs :
  ∃ calls, Forall (λ c, match c with HClose _ => False | _ => True end) calls ∧
    (stream_view i cur evs = calls ∨ ∃ code, stream_view i cur evs = calls ++ [HClose code]).
Proof.
  revert cur. induction evs as [|e evs IH]; intros [hs|]; try (exists []; by auto).
  2: { exists []. rewrite stream_view_None. auto. }
  assert (Hone : ∀ c l, match c with HClose _ => False | _ => True end →
    (∃ calls, Forall (λ c, match c with HClose _ => False | _ => True end) calls ∧
       (l = calls ∨ ∃ code, l = calls ++ [HClose code])) →
    ∃ calls, Forall (λ c, match c with HClose _ => False | _ => True end) calls ∧
       (c :: l = calls ∨ ∃ code, c :: l = calls ++ [HClose code])).
  { intros c l Hc (calls & Hf & H). exists (c :: calls). split; [by constructor|].
    destruct H as [->|[code ->]]; [by left|right; by exists code]. }
  destruct e as [[j fl []| | | |]|[]|j d|j c]; cbn [stream_view]; try apply IH;
    case_test; cbn [app]; try apply IH; try (apply Hone; [done|apply IH]).
  exists []. split; [done|]. right. by exists c.
Qed.

(** Each stream's hooks are called exactly for its own events, whatever other
    streams do in between: the response or trailer headers with the fields collected
    since the last HEADERS frame, the data chunks, and the close; [on_close] is called
    at most once, and no hook runs after it. *)
Theorem stream_hooks_follow_events (evs : list Event) self w (i : Z) :
  session_inv self → recording self →
  let '(self', w') := on_events evs self w in
  calls_of i w' = calls_of i w ++ stream_view i (collected self i) evs ∧
  ∃ calls, Forall (λ c, match c with HClose _ => False | _ => True end) calls ∧
    (stream_view i (collected self i) evs = calls ∨
     ∃ code, stream_view i (collected self i) evs = calls ++ [HClose code]).
Proof.
  intros Hinv Hrec. pose proof (recorded_view evs self w i Hinv Hrec) as Hv.
  destruct (on_events evs self w) as [self' w']. split; [done|apply stream_view_close_last].
Qed.

End Recorded.

(** ** A concrete nghttp2

    Frames are their payloads; a request is a header block followed by its body in
    frames of four bytes, as many as the flow-control credit allows; what the peer does
    is a script of callbacks, one list for each call of [mem_recv]. *)

Module ToyNghttp2.

Inductive Item : Type :=
  | IBytes (b : bytes)
  | IBody (stream_id source : Z) (credit : nat).

Record Toy : Type := {
  t_open : gmap Z Z;
  t_next : Z;
  t_queue : list Item;
  t_script : list (list Event);
}.

Definition toy_new (script : list (list Event)) : Toy :=
  {| t_open := ∅; t_next := 1; t_queue := []; t_script := script |}.

Definition enqueue (s : Toy) (l : list Item) : Toy := {| s with t_queue := t_queue s ++ l |}.

Definition toy_submit_request (s : Toy) (hs : HeaderList) (p : Z) : Toy * Z :=
  let i := Z.max 1 (t_next s) in
  match t_open s !! i with
  | Some _ => (s, -509)
  | None =>
      ({| t_open := <[i := p]> (t_open s); t_next := i + 2;
          t_queue := t_queue s ++ [IBytes (concat (hs.*1)); IBody i p 8];
          t_script := t_script s |}, i)
  end.

Definition toy_mem_recv (s : Toy) (_ : bytes) : Toy * (list Event * Z) :=
  match t_script s with
  | [] => (s, ([], 0))
  | evs :: script =>
      ({| s with t_open := close_events evs (t_open s); t_script := script |}, (evs, 0))
  end.

Fixpoint toy_send (s : Toy) (q : list Item) : SendTree Toy :=
  match q with
  | [] => SendRet {| s with t_queue := [] |} 0 []
  | IBytes b :: q => SendRet {| s with t_queue := q |} (zlen b) b
  | IBody i p credit :: q =>
      match t_open s !! i, credit with
      | Some p', S credit =>
          if p' =? p then
            SendRead p 4 (λ data eof,
              SendRet {| s with t_queue := if eof : bool then q else IBody i p credit :: q |}
                (zlen data) data)
          else toy_send s q
      | _, _ => toy_send s q
      end
  end.

#[export] Instance toy_nghttp2 : Nghttp2 := {|
  ng_session := Toy;
  ng_submit_settings s l := (enqueue s [IBytes (bs "SETTINGS")], 0);
  ng_set_local_window_size s i n := (s, 0);
  ng_mem_recv := toy_mem_recv;
  ng_mem_send s := toy_send s (t_queue s);
  ng_want_write s := bool_decide (t_queue s ≠ []);
  ng_submit_request := toy_submit_request;
  ng_submit_ping s d := (enqueue s [IBytes d], 0);
  ng_terminate_session s := enqueue s [IBytes (bs "GOAWAY")];
  ng_strerror _ := bs "error";
|}.

Definition item_frames (x : Item) : nat := match x with IBytes _ => 1 | IBody _ _ c => S c end.

Definition toy_pending (s : Toy) : nat := sum_list_with item_frames (t_queue s).

Lemma toy_send_contract s0 s q :
  (sum_list_with item_frames q <= toy_pending s0)%nat →
  send_contract t_open toy_pending s0 (t_open s) (toy_send s q).
Proof.
  induction q as [|[b|i p [|c]] q IH]; intros Hq; cbn [toy_send].
  - cbn. split_and!; [done|lia..].
  - cbn [send_contract]. unfold toy_pending in *. cbn in *. split_and!; [done|lia|].
    intros _. split; [done|lia].
  - destruct (t_open s !! i); apply IH; cbn in Hq; lia.
  - destruct (t_open s !! i) as [p'|] eqn:E; [|apply IH; cbn in Hq; lia].
    case_test; [|apply IH; cbn in Hq; lia]. subst p'. cbn [send_contract].
    split; [lia|]. split; [by exists i|]. intros data eof _ _. unfold toy_pending in *.
    split_and!; [done|destruct eof; cbn in *; lia|]. intros _. split; [done|].
    destruct eof; cbn in *; lia.
Qed.

#[export] Instance toy_laws : Nghttp2Laws toy_nghttp2.
Proof.
  refine {| ng_open := (t_open : ng_session → gmap Z Z);
            ng_pending := (toy_pending : ng_session → nat) |}; try done.
  - intros s hs p s' i. cbn. unfold toy_submit_request.
    destruct (t_open s !! Z.max 1 (t_next s)) eqn:E; intros [= <- <-]; [done|].
    case_test; [lia|done].
  - intros s d s' evs rc. cbn. unfold toy_mem_recv. by destruct (t_script s); intros [= <- <- <-].
  - intros s. by apply toy_send_contract.
Defined.

End ToyNghttp2.

(** ** Witnesses *)

Section Witnesses.
Import ToyNghttp2.
Abbreviation Log := (list (Z * HookCall)).

Definition second : Z := 1000000000.

(** A new session, one with a request submitted, and one with a keepalive PING sent. *)
Definition ex_new : Http2Session Log :=
  new_http2_session default_http2_options silent_hooks 0 0 (0, toy_new []).

Definition ex_submitted : Http2Session Log :=
  (SubmitUnaryRequest [(bs ":method", bs "POST")] (bs "hello!") (recorder 1) ex_new).1.

Definition ex_pinged : Http2Session Log := (CheckKeepalive (60 * second) ex_new).1.

Lemma ex_submitted_run : h2_run ex_new [] 0 0 [COther] ex_submitted [].
Proof. eapply run_submit; [apply run_new|apply surjective_pairing]. Qed.

Lemma ex_pinged_run : h2_run ex_new [] 0 (60 * second) [CCheck (60 * second) kPingSent] ex_pinged [].
Proof. eapply run_check; [apply run_new|done|]. vm_compute. reflexivity. Qed.

Lemma ex_submitted_ok : session_ok ex_submitted.
Proof. eapply run_session_ok; [apply ex_submitted_run|]. by apply new_http2_session_ok. Qed.

Lemma ex_submitted_recording : recording ex_submitted.
Proof.
  split; [done|]. intros i p st H. apply FindStream_Some in H as [Hs Ha].
  assert (streams_ ex_submitted = {[1 := 1]}) as E by reflexivity. rewrite E in Hs.
  apply lookup_singleton_Some in Hs as [<- <-]. vm_compute in Ha. by injection Ha as <-.
Qed.

Lemma session_streams_safe_witness :
  active_streams_ ex_submitted = Z.of_nat (size (streams_ ex_submitted)) ∧
  ∃ r, PendingOutput (output_fuel ex_submitted) ex_submitted [] = Some r.
Proof.
  destruct (session_streams_safe (NL := toy_laws) default_http2_options silent_hooks 0 0 (0, toy_new []) []
              0 [COther] ex_submitted [] eq_refl ex_submitted_run) as (H1 & _ & _ & H2).
  split; assumption.
Defined.

Lemma keepalive_no_false_death_witness :
  ∃ newer sent older,
    [CCheck (60 * second) kPingSent] = newer ++ CCheck sent kPingSent :: older ∧
    sent + ms (keepalive_timeout (options_ ex_pinged)) <= 80 * second ∧
    Forall (λ c, is_read c = false) newer.
Proof.
  apply (keepalive_no_false_death (NG := toy_nghttp2) default_http2_options silent_hooks 0 0 (0, toy_new []) []
           (60 * second) _ ex_pinged [] (80 * second) ex_pinged ex_pinged_run).
  - vm_compute. discriminate.
  - vm_compute. reflexivity.
Defined.

Lemma keepalive_detects_silence_witness :
  ∃ self1, CheckKeepalive (61 * second) ex_new = (self1, kPingSent) ∧
    NextKeepaliveDeadline self1 = Some (81 * second).
Proof.
  destruct (keepalive_detects_silence (NG := toy_nghttp2) ex_new
              (enqueue (toy_new []) [IBytes (bs "SETTINGS")])
              (enqueue (toy_new []) [IBytes (bs "SETTINGS"); IBytes (ping_opaque 1)]) (61 * second))
    as (self1 & H1 & H2 & _); try reflexivity.
  - vm_compute. discriminate.
  - exists self1. split; [exact H1|exact H2].
Defined.

Lemma keepalive_timer_advances_witness : 60 * second < 80 * second.
Proof.
  apply (keepalive_timer_advances ex_new ex_pinged (60 * second) (80 * second) kPingSent);
    try reflexivity. discriminate.
Defined.

Lemma partial_writes_exact_witness :
  match PendingOutput 20 ex_submitted [] with
  | Some (self1, w1, view) =>
      let self2 := foldr ConsumeOutput self1 [2; 3] in
      PendingOutput 1 self2 w1 = Some (self2, w1, drop 5 view) ∧ WantWrite self2 = true
  | None => False
  end.
Proof.
  destruct (PendingOutput 20 ex_submitted []) as [[[self1 w1] view]|] eqn:E.
  - apply (partial_writes_exact 20 1 ex_submitted self1 [] w1 view [2; 3] ex_submitted_ok E).
    + repeat constructor; lia.
    + vm_compute in E. injection E as <- <- <-. reflexivity.
  - vm_compute in E. discriminate.
Defined.

Lemma goaway_stops_new_streams_witness :
  let drained := (OnFrameRecv (FGoaway 11 1 (Some (bs "too_many_pings"))) ex_submitted []).1 in
  too_many_pings_ drained = true ∧
  ∃ e, SubmitUnaryRequest [] [] (recorder 3) drained = ({| drained with error_ := e |}, -1).
Proof.
  destruct (goaway_stops_new_streams ex_submitted
              (OnFrameRecv (FGoaway 11 1 (Some (bs "too_many_pings"))) ex_submitted []).1 [] []
              11 1 (Some (bs "too_many_pings")) 0 0 [] [] [] (recorder 3)) as [H1 H2].
  split; [exact H1|]. apply H2. left. apply run_new.
Defined.

Lemma body_delivered_exactly_witness :
  let st := {| hooks := recorder 1; body := bs "hello!"; body_offset := 0; pending_headers := [] |} in
  concat (read_body st [4; 4]).*1 = bs "hello!" ∧ (read_body st [4; 4]).*2 = [false; true].
Proof.
  destruct (body_delivered_exactly (recorder 1) (bs "hello!") [4; 4]) as [H1 H2].
  - repeat constructor; lia.
  - split; [exact H1|exact H2].
Defined.

Definition ex_events : list Event :=
  [EvHeader (FHeaders 1 0 HCAT_RESPONSE) (bs ":status") (bs "200"); EvData 3 (bs "x");
   EvFrame (FHeaders 1 0 HCAT_RESPONSE); EvData 1 (bs "y"); EvClose 1 0; EvData 1 (bs "z")].

Lemma stream_hooks_follow_events_witness :
  calls_of 1 (on_events ex_events ex_submitted []).2 =
    [HResponse [(bs ":status", bs "200")] false; HData (bs "y"); HClose 0].
Proof.
  pose proof (stream_hooks_follow_events ex_events ex_submitted [] 1
                (hok_inv _ ex_submitted_ok) ex_submitted_recording) as H.
  destruct (on_events ex_events ex_submitted []) as [self' w']. destruct H as [H _].
  simpl. rewrite H. reflexivity.
Defined.

End Witnesses.
