(* ===== verification/CallState.v ===== *)
(** * One RPC ([src/core/call_state.h], [src/core/call_state.cc])

    The request headers and the call's state machine.  Each method holds [mu_] for its
    whole body, so a method is one transition of the state; [Wait] returns the result
    once [done_] is set.  The definitions come first, then the lemmas, then the
    properties and their witnesses. *)

From Stdlib Require Import ZArith Lia.
From Stdlib Require Import Strings.String Strings.Byte.
From stdpp Require Import base numbers list gmap.
From S2P Require Import Prelude GrpcWire Http2Session.

Local Open Scope Z_scope.
Local Open Scope egrpc_scope.

(** ** Request headers *)

Definition kUserAgent : bytes := bs "grpc-c++-egrpc/0.1.0".

(** [value.compare(0, 16, "application/grpc") == 0]. *)
Definition IsGrpcContentType (value : bytes) : bool := starts_with (bs "application/grpc") value.

Definition ascii_lower (c : byte) : byte :=
  if in_range "A" "Z" c then z2b (b2z c - b2z "A"%byte + b2z "a"%byte) else c.

Definition AsciiLower (s : bytes) : bytes := ascii_lower <$> s.

Definition IsBinKey (key : bytes) : bool :=
  (4 <=? zlen key) && bool_decide (drop (Z.to_nat (zlen key - 4)) key = bs "-bin").

Definition kReserved : list bytes :=
  [bs "te"; bs "host"; bs "content-type"; bs "user-agent";
   bs "grpc-timeout"; bs "grpc-encoding"; bs "grpc-accept-encoding"].

Definition IsPseudoHeader (key : bytes) : bool :=
  match key with c :: _ => bool_decide (c = ":"%byte) | [] => false end.

Definition IsReservedMetadataKey (key : bytes) : bool :=
  IsPseudoHeader key || bool_decide (key ∈ kReserved).

Definition base_headers (authority method_path user_agent : bytes) : HeaderList :=
  [(bs ":method", bs "POST"); (bs ":scheme", bs "https");
   (bs ":path", method_path); (bs ":authority", authority);
   (bs "te", bs "trailers"); (bs "content-type", bs "application/grpc");
   (bs "user-agent", user_agent); (bs "grpc-accept-encoding", bs "identity")].

(** The loop over the caller's metadata. *)
Fixpoint add_metadata (metadata : HeaderList) : HeaderList :=
  match metadata with
  | [] => []
  | kv :: metadata =>
      let key := AsciiLower kv.1 in
      if IsReservedMetadataKey key then add_metadata metadata
      else (key, if IsBinKey key then Base64Encode kv.2 else kv.2) :: add_metadata metadata
  end.

Definition BuildRequestHeaders (authority method_path : bytes) (timeout : option Z)
    (metadata : HeaderList) (user_agent_prefix : bytes) : HeaderList :=
  let user_agent :=
    if bool_decide (user_agent_prefix = []) then kUserAgent
    else user_agent_prefix ++ bs " " ++ kUserAgent in
  base_headers authority method_path user_agent ++
  match timeout with
  | Some ns => [(bs "grpc-timeout", EncodeGrpcTimeout ns)]
  | None => []
  end ++
  add_metadata metadata.

(** ** [std::atoi] *)

Definition is_space (c : byte) : bool :=
  (b2z c =? 32) || ((9 <=? b2z c) && (b2z c <=? 13)).

Fixpoint skip_spaces (s : bytes) : bytes :=
  match s with
  | c :: s' => if is_space c then skip_spaces s' else s
  | [] => []
  end.

Fixpoint digit_prefix (a : Z) (s : bytes) : Z :=
  match s with
  | c :: s => if is_digit c then digit_prefix (a * 10 + (b2z c - 48)) s else a
  | [] => a
  end.

(** [(int)strtol(s, nullptr, 10)], as the C libraries have it, with a 64-bit [long]; a
    number outside [int], which alone the width of [long] could matter for, is undefined
    for [atoi] in C. *)
Definition to_int (n : Z) : Z :=
  (Z.max (- 2 ^ 63) (Z.min n (2 ^ 63 - 1)) + 2 ^ 31) mod 2 ^ 32 - 2 ^ 31.

Definition atoi (s : bytes) : Z :=
  match skip_spaces s with
  | c :: s' =>
      if bool_decide (c = "-"%byte) then to_int (- digit_prefix 0 s')
      else if bool_decide (c = "+"%byte) then to_int (digit_prefix 0 s')
      else to_int (digit_prefix 0 (c :: s'))
  | [] => 0
  end.

(** ** The call *)

Module CallState.

Record Result : Type := {
  code : StatusCode;
  message : bytes;
  response : bytes;
  initial_metadata : HeaderList;
  trailing_metadata : HeaderList;
}.

Definition new_result : Result :=
  {| code := kUnknown; message := []; response := [];
     initial_metadata := []; trailing_metadata := [] |}.

Inductive State : Type := kCreated | kHeadersSent | kOpen | kClosed.

#[export] Instance State_eq_decision : EqDecision State.
Proof. solve_decision. Defined.

Record CallState : Type := {
  done_ : bool;
  state_ : State;
  stream_id_ : Z;
  scanner_ : GrpcMessageScanner.Scanner;
  first_response_ : bytes;
  response_count_ : Z;
  saw_initial_headers_ : bool;
  http_status_ : Z;
  content_type_ : bytes;
  grpc_status_raw_ : option bytes;
  grpc_message_raw_ : bytes;
  result_ : Result;
}.

Definition new_call (max_receive_message_size : Z) : CallState :=
  {| done_ := false; state_ := kCreated; stream_id_ := -1;
     scanner_ := GrpcMessageScanner.new_scanner max_receive_message_size;
     first_response_ := []; response_count_ := 0;
     saw_initial_headers_ := false; http_status_ := 0; content_type_ := [];
     grpc_status_raw_ := None; grpc_message_raw_ := []; result_ := new_result |}.

Definition kHttp2RefusedStream : Z := 7.
Definition kHttp2Cancel : Z := 8.

Definition is_closed (c : CallState) : bool := bool_decide (state_ c = kClosed).

Definition OnSubmitted (stream_id : Z) (c : CallState) : CallState :=
  if bool_decide (state_ c = kCreated)
  then {| c with stream_id_ := stream_id; state_ := kHeadersSent |} else c.

(** One field of the initial headers. *)
Definition response_header (end_stream : bool) (h : Header) (c : CallState) : CallState :=
  if IsPseudoHeader h.1 then
    if bool_decide (h.1 = bs ":status") then {| c with http_status_ := atoi h.2 |} else c
  else if bool_decide (h.1 = bs "content-type") then {| c with content_type_ := h.2 |}
  else if end_stream && bool_decide (h.1 = bs "grpc-status")
  then {| c with grpc_status_raw_ := Some h.2 |}
  else if end_stream && bool_decide (h.1 = bs "grpc-message")
  then {| c with grpc_message_raw_ := h.2 |}
  else if end_stream
  then {| c with result_ := {| (result_ c) with trailing_metadata :=
                                 trailing_metadata (result_ c) ++ [h] |} |}
  else {| c with result_ := {| (result_ c) with initial_metadata :=
                                 initial_metadata (result_ c) ++ [h] |} |}.

Definition OnResponseHeaders (headers : HeaderList) (end_stream : bool) (c : CallState) : CallState :=
  if is_closed c then c
  else
    let c := {| c with state_ := kOpen; saw_initial_headers_ := true |} in
    foldl (λ c h, response_header end_stream h c) c headers.

(** One field of the trailers. *)
Definition trailer (h : Header) (c : CallState) : CallState :=
  if IsPseudoHeader h.1 then c
  else if bool_decide (h.1 = bs "grpc-status") then {| c with grpc_status_raw_ := Some h.2 |}
  else if bool_decide (h.1 = bs "grpc-message") then {| c with grpc_message_raw_ := h.2 |}
  else {| c with result_ := {| (result_ c) with trailing_metadata :=
                                 trailing_metadata (result_ c) ++ [h] |} |}.

Definition OnTrailers (trailers : HeaderList) (c : CallState) : CallState :=
  if is_closed c then c else foldl (λ c h, trailer h c) c trailers.

Definition malformed_status (raw : bytes) : bytes :=
  bs "malformed grpc-status trailer: " ++ [x22] ++ raw ++ [x22].

Definition bad_content_type (value : bytes) : bytes :=
  bs "unexpected content-type " ++ [x22] ++ value ++ [x22].

Definition set_status (k : StatusCode) (m : bytes) (c : CallState) : CallState :=
  {| c with result_ := {| (result_ c) with code := k; message := m |} |}.

Definition FinalizeLocked (http2_error_code : Z) (c : CallState) : CallState :=
  if GrpcMessageScanner.failed_ (scanner_ c)
  then set_status (GrpcMessageScanner.error_code_ (scanner_ c))
                  (GrpcMessageScanner.error_ (scanner_ c)) c
  else
    match grpc_status_raw_ c with
    | Some raw =>
        match ParseGrpcStatus raw with
        | None => set_status kInternal (malformed_status raw) c
        | Some k =>
            let c := set_status k (PercentDecode (grpc_message_raw_ c)) c in
            if negb (bool_decide (k = kOk)) then c
            else if GrpcMessageScanner.HasPartialMessage (scanner_ c)
            then set_status kInternal (bs "stream ended mid-message (truncated gRPC frame)") c
            else if response_count_ c =? 0
            then set_status kInternal
                   (bs "unary call completed with OK status but no response message") c
            else if 1 <? response_count_ c
            then set_status kInternal (bs "unary call received more than one response message") c
            else {| c with first_response_ := [];
                           result_ := {| (result_ c) with response := first_response_ c |} |}
        end
    | None =>
        if saw_initial_headers_ c && negb (http_status_ c =? 200)
        then set_status (HttpStatusToGrpcCode (http_status_ c))
               (bs "unexpected HTTP status " ++ to_string (http_status_ c)) c
        else if saw_initial_headers_ c && negb (IsGrpcContentType (content_type_ c))
        then set_status kInternal (bad_content_type (content_type_ c)) c
        else if http2_error_code =? 0
        then set_status kInternal (bs "server closed stream without grpc-status") c
        else if http2_error_code =? kHttp2RefusedStream
        then set_status kUnavailable (bs "stream refused by server (REFUSED_STREAM)") c
        else if http2_error_code =? kHttp2Cancel
        then set_status kCancelled (bs "stream cancelled by server (RST_STREAM CANCEL)") c
        else set_status kInternal
               (bs "stream reset, HTTP/2 error code " ++ to_string http2_error_code) c
    end.

Definition CloseLocked (c : CallState) : CallState :=
  {| c with state_ := kClosed; done_ := true |}.

Definition OnClose (http2_error_code : Z) (c : CallState) : CallState :=
  if is_closed c then c else CloseLocked (FinalizeLocked http2_error_code c).

Definition FailLocal (k : StatusCode) (m : bytes) (c : CallState) : CallState :=
  if is_closed c then c else CloseLocked (set_status k m c).

(** [None] while the waiter blocks. *)
Definition Wait (c : CallState) : option Result := if done_ c then Some (result_ c) else None.

Section WithSize.
Context `{SZ : SizeT}.

(** [if (++response_count_ == 1) first_response_ = std::move(message)]. *)
Definition count_message (c : CallState) (m : bytes) : CallState :=
  let n := response_count_ c +sz 1 in
  {| c with response_count_ := n; first_response_ := if n =? 1 then m else first_response_ c |}.

(** [Feed], then the [while] over [Next]; the messages [drain] returns are those the
    loop's body sees in turn. *)
Definition OnData (data : bytes) (c : CallState) : CallState :=
  if is_closed c || GrpcMessageScanner.failed_ (scanner_ c) then c
  else
    let '(s, ok) := GrpcMessageScanner.Feed (scanner_ c) data in
    if negb ok then {| c with scanner_ := s |}
    else
      let '(s, ms) := GrpcMessageScanner.drain (S (length (GrpcMessageScanner.buf_ s))) s in
      foldl count_message {| c with scanner_ := s |} ms.

(** The calls the event thread makes on a call. *)
Inductive CallEvent : Type :=
  | Submitted (stream_id : Z)
  | ResponseHeaders (headers : HeaderList) (end_stream : bool)
  | Data (data : bytes)
  | Trailers (trailers : HeaderList)
  | Close (http2_error_code : Z)
  | Fail (k : StatusCode) (m : bytes).

Definition on_call_event (e : CallEvent) (c : CallState) : CallState :=
  match e with
  | Submitted i => OnSubmitted i c
  | ResponseHeaders hs e => OnResponseHeaders hs e c
  | Data d => OnData d c
  | Trailers ts => OnTrailers ts c
  | Close e => OnClose e c
  | Fail k m => FailLocal k m c
  end.

Definition run_call (evs : list CallEvent) (c : CallState) : CallState :=
  foldl (λ c e, on_call_event e c) c evs.

(** [MakeStreamHooks], for a program state in which [upd] applies a method to the call. *)
Definition MakeStreamHooks {W : Type} (upd : (CallState → CallState) → W → W) : StreamHooks W :=
  {| on_response_headers := Some (λ hs e, upd (OnResponseHeaders hs e));
     on_trailers := Some (λ ts, upd (OnTrailers ts));
     on_data := Some (λ d, upd (OnData d));
     on_close := Some (λ e, upd (OnClose e)) |}.

End WithSize.
End CallState.

(** ** Lemmas *)

Section Facts.
Import CallState.
Context `{SZ : SizeT}.
Implicit Types c : CallState.

(** *** Completion *)

Definition completes (e : CallEvent) : bool :=
  match e with Close _ | Fail _ _ => true | _ => false end.

Lemma closed_frozen e c : is_closed c = true → on_call_event e c = c.
Proof.
  intros Hc. destruct e; cbn [on_call_event];
    unfold OnSubmitted, OnResponseHeaders, OnTrailers, OnData, OnClose, FailLocal; rewrite ?Hc; try done.
  unfold is_closed in Hc. apply bool_decide_eq_true in Hc. by rewrite Hc.
Qed.

Lemma closed_frozen_run evs c : is_closed c = true → run_call evs c = c.
Proof.
  intros Hc. unfold run_call. induction evs as [|e evs IH]; simpl; [done|]. by rewrite closed_frozen.
Qed.

(** *** The scanner of a call *)

Lemma foldl_count_keeps_scanner ms c : scanner_ (foldl count_message c ms) = scanner_ c.
Proof. revert c. induction ms as [|m ms IH]; intros c; [done|]. apply (IH (count_message c m)). Qed.

Lemma foldl_response_header_scanner es hs c :
  scanner_ (foldl (λ c h, response_header es h c) c hs) = scanner_ c.
Proof.
  revert c. induction hs as [|h hs IH]; intros c; simpl; [done|]. rewrite IH.
  unfold response_header. by repeat case_test.
Qed.

Lemma foldl_trailer_scanner hs c : scanner_ (foldl (λ c h, trailer h c) c hs) = scanner_ c.
Proof.
  revert c. induction hs as [|h hs IH]; intros c; simpl; [done|]. rewrite IH.
  unfold trailer. by repeat case_test.
Qed.

Lemma FinalizeLocked_scanner e c : scanner_ (FinalizeLocked e c) = scanner_ c.
Proof. unfold FinalizeLocked. repeat case_match; done. Qed.

Lemma on_call_event_held max e c : scanner_held max (scanner_ c) → scanner_held max (scanner_ (on_call_event e c)).
Proof.
  intros Hc. destruct e; cbn [on_call_event].
  - unfold OnSubmitted. by case_test.
  - unfold OnResponseHeaders. case_test; [done|]. by rewrite foldl_response_header_scanner.
  - unfold OnData. case_test; [done|]. pose proof (Feed_held max _ data Hc) as Hf.
    destruct (GrpcMessageScanner.Feed _ data) as [s ok]. case_test; [done|].
    pose proof (drain_held max (S (length (GrpcMessageScanner.buf_ s))) s Hf) as Hd.
    destruct (GrpcMessageScanner.drain _ s) as [s' ms]. by rewrite foldl_count_keeps_scanner.
  - unfold OnTrailers. case_test; [done|]. by rewrite foldl_trailer_scanner.
  - unfold OnClose. case_test; [done|]. simpl. by rewrite FinalizeLocked_scanner.
  - unfold FailLocal. by case_test.
Qed.

Lemma run_call_held max evs c : scanner_held max (scanner_ c) → scanner_held max (scanner_ (run_call evs c)).
Proof.
  unfold run_call. revert c. induction evs as [|e evs IH]; intros c Hc; simpl; [done|].
  by apply IH, on_call_event_held.
Qed.

Lemma new_call_held max : scanner_held max (scanner_ (new_call max)).
Proof. by split. Qed.

(** *** States *)

Lemma foldl_response_header_state es hs c :
  let c' := foldl (λ c h, response_header es h c) c hs in state_ c' = state_ c ∧ done_ c' = done_ c.
Proof.
  revert c. induction hs as [|h hs IH]; intros c; simpl; [done|].
  destruct (IH (response_header es h c)) as [-> ->]. unfold response_header.
  by repeat case_test.
Qed.

Lemma foldl_trailer_state hs c :
  let c' := foldl (λ c h, trailer h c) c hs in state_ c' = state_ c ∧ done_ c' = done_ c.
Proof.
  revert c. induction hs as [|h hs IH]; intros c; simpl; [done|].
  destruct (IH (trailer h c)) as [-> ->]. unfold trailer. by repeat case_test.
Qed.

Lemma foldl_count_state ms c :
  let c' := foldl count_message c ms in
  state_ c' = state_ c ∧ done_ c' = done_ c ∧ scanner_ c' = scanner_ c.
Proof.
  revert c. induction ms as [|m ms IH]; intros c; simpl; [done|].
  destruct (IH (count_message c m)) as (-> & -> & ->). done.
Qed.

(** An event that does not complete the call leaves it open. *)
Lemma open_event e c :
  is_closed c = false → completes e = false →
  is_closed (on_call_event e c) = false ∧ done_ (on_call_event e c) = done_ c.
Proof.
  intros Hc He. destruct e; cbn [on_call_event completes] in *; try done;
    unfold OnSubmitted, OnResponseHeaders, OnTrailers, OnData; rewrite ?Hc.
  - by case_test.
  - unfold is_closed. by destruct (foldl_response_header_state end_stream headers
      {| c with state_ := kOpen; saw_initial_headers_ := true |}) as [-> ->].
  - cbn [orb]. destruct (GrpcMessageScanner.failed_ (scanner_ c)); [done|].
    destruct (GrpcMessageScanner.Feed (scanner_ c) data) as [s []]; cbn [negb]; [|done].
    destruct (GrpcMessageScanner.drain _ s) as [s' ms]. unfold is_closed.
    by destruct (foldl_count_state ms {| c with scanner_ := s' |}) as (-> & -> & _).
  - unfold is_closed. by destruct (foldl_trailer_state trailers c) as [-> ->].
Qed.

Lemma completing_event e c :
  is_closed c = false → completes e = true →
  is_closed (on_call_event e c) = true ∧ done_ (on_call_event e c) = true.
Proof.
  intros Hc He. destruct e; cbn [on_call_event completes] in *; try done;
    unfold OnClose, FailLocal; by rewrite Hc.
Qed.

Definition call_inv c : Prop := done_ c = is_closed c.

Lemma run_call_inv evs c :
  call_inv c → call_inv (run_call evs c) ∧
  is_closed (run_call evs c) = (is_closed c || existsb completes evs).
Proof.
  revert c. unfold run_call, call_inv. induction evs as [|e evs IH]; intros c Hinv; simpl.
  { by rewrite orb_false_r. }
  destruct (is_closed c) eqn:Hc.
  { rewrite closed_frozen by done. destruct (IH c) as [-> ->]; [congruence|]. by rewrite Hc. }
  destruct (completes e) eqn:He.
  - destruct (completing_event e c Hc He) as [H1 H2].
    destruct (IH (on_call_event e c)) as [-> ->]; [congruence|]. by rewrite H1.
  - destruct (open_event e c Hc He) as [H1 H2].
    destruct (IH (on_call_event e c)) as [-> ->]; [congruence|]. by rewrite H1.
Qed.

(** *** Headers and trailers *)

(** The value of the last field with this name. *)
Fixpoint last_value (key : bytes) (hs : HeaderList) : option bytes :=
  match hs with
  | [] => None
  | h :: hs =>
      match last_value key hs with
      | Some v => Some v
      | None => if bool_decide (h.1 = key) then Some h.2 else None
      end
  end.

(** The fields that are the application's metadata. *)
Definition is_metadata (own : list bytes) (h : Header) : Prop :=
  IsPseudoHeader h.1 = false ∧ h.1 ∉ own.

#[export] Instance is_metadata_dec own h : Decision (is_metadata own h).
Proof. unfold is_metadata. apply _. Defined.

(** What one field does, by the kind of field. *)
Lemma response_header_pseudo es k v c :
  IsPseudoHeader k = true →
  response_header es (k, v) c = if bool_decide (k = bs ":status") then {| c with http_status_ := atoi v |} else c.
Proof. intros Hk. unfold response_header. cbn. by rewrite Hk. Qed.

Lemma response_header_content_type es v c :
  response_header es (bs "content-type", v) c = {| c with content_type_ := v |}.
Proof. done. Qed.

Lemma response_header_metadata k v c :
  is_metadata [bs "content-type"] (k, v) →
  response_header false (k, v) c =
  {| c with result_ := {| (result_ c) with initial_metadata := initial_metadata (result_ c) ++ [(k, v)] |} |}.
Proof.
  intros [Hp Hk]. unfold response_header. cbn in *. rewrite Hp.
  rewrite bool_decide_eq_false_2 by set_solver. done.
Qed.

Lemma pseudo_cases k own :
  (IsPseudoHeader k = true) ∨ (IsPseudoHeader k = false ∧ k ∈ own) ∨
  (∀ v, is_metadata own (k, v)).
Proof.
  destruct (IsPseudoHeader k) eqn:Hp; [auto|right].
  destruct (decide (k ∈ own)); [by left|right]. by split.
Qed.

Lemma last_value_other key h hs : h.1 ≠ key → last_value key (h :: hs) = last_value key hs.
Proof.
  intros Hne. cbn. destruct (last_value key hs); [done|]. by rewrite bool_decide_eq_false_2.
Qed.

Lemma last_value_same key v hs : last_value key ((key, v) :: hs) = Some (default v (last_value key hs)).
Proof. cbn. destruct (last_value key hs); [done|]. by rewrite bool_decide_eq_true_2. Qed.

Lemma initial_headers_fold hs c :
  foldl (λ c h, response_header false h c) c hs =
  {| c with
     http_status_ := default (http_status_ c) (atoi <$> last_value (bs ":status") hs);
     content_type_ := default (content_type_ c) (last_value (bs "content-type") hs);
     result_ := {| (result_ c) with initial_metadata :=
                     initial_metadata (result_ c) ++ filter (is_metadata [bs "content-type"]) hs |} |}.
Proof.
  revert c. induction hs as [|[k v] hs IH]; intros c; cbn [foldl].
  { simpl. rewrite app_nil_r. by destruct c as [? ? ? ? ? ? ? ? ? ? ? []]. }
  rewrite IH, filter_cons. destruct (pseudo_cases k [bs "content-type"]) as [Hp|[[Hp Hk]|Hk]].
  - rewrite decide_False by (intros [? _]; simpl in *; congruence).
    rewrite (last_value_other (bs "content-type")) by (intros E; simpl in E; by rewrite E in Hp).
    rewrite response_header_pseudo by done.
    destruct (bool_decide_reflect (k = bs ":status")) as [->|Hne].
    + rewrite last_value_same. by destruct (last_value (bs ":status") hs).
    + by rewrite last_value_other.
  - apply list_elem_of_singleton in Hk as ->. rewrite response_header_content_type.
    rewrite decide_False by (intros [_ Hn]; apply Hn; by left).
    rewrite last_value_other, last_value_same by done. by destruct (last_value (bs "content-type") hs).
  - specialize (Hk v). rewrite decide_True by done. rewrite response_header_metadata by done.
    destruct Hk as [Hp Hk]. cbn [fst] in *.
    rewrite !last_value_other by (intros E; cbn [fst] in E; subst k; set_solver).
    simpl. by rewrite <- app_assoc.
Qed.

(** A trailer block, and the header block of a Trailers-Only response. *)
Definition status_keys : list bytes := [bs "grpc-status"; bs "grpc-message"].

Lemma trailers_fold ts c :
  foldl (λ c h, trailer h c) c ts =
  {| c with
     grpc_status_raw_ := match last_value (bs "grpc-status") ts with
                         | Some v => Some v | None => grpc_status_raw_ c end;
     grpc_message_raw_ := default (grpc_message_raw_ c) (last_value (bs "grpc-message") ts);
     result_ := {| (result_ c) with trailing_metadata :=
                     trailing_metadata (result_ c) ++ filter (is_metadata status_keys) ts |} |}.
Proof.
  revert c. induction ts as [|[k v] ts IH]; intros c; cbn [foldl].
  { simpl. rewrite app_nil_r. by destruct c as [? ? ? ? ? ? ? ? ? ? ? []]. }
  rewrite IH, filter_cons. clear IH. destruct (pseudo_cases k status_keys) as [Hp|[[Hp Hk]|Hk]].
  - rewrite decide_False by (intros [? _]; simpl in *; congruence).
    rewrite !last_value_other by (intros E; simpl in E; by rewrite E in Hp).
    unfold trailer. cbn [fst]. by rewrite Hp.
  - rewrite decide_False by (by intros [_ Hn]; apply Hn).
    unfold trailer. cbn [fst snd]. rewrite Hp.
    unfold status_keys in Hk. rewrite !elem_of_cons in Hk. destruct Hk as [->|[->|Hk]]; [..|set_solver].
    + rewrite last_value_same, last_value_other by done.
      rewrite bool_decide_eq_true_2 by done. by destruct (last_value (bs "grpc-status") ts).
    + rewrite last_value_other, last_value_same by done.
      rewrite bool_decide_eq_false_2, bool_decide_eq_true_2 by done.
      by destruct (last_value (bs "grpc-message") ts).
  - specialize (Hk v). rewrite decide_True by done. destruct Hk as [Hp Hk]. cbn [fst] in *.
    unfold status_keys in Hk. rewrite !not_elem_of_cons in Hk. destruct Hk as (Hk1 & Hk2 & _).
    rewrite !last_value_other by done. unfold trailer. cbn [fst snd]. rewrite Hp.
    rewrite !bool_decide_eq_false_2 by done. simpl. by rewrite <- app_assoc.
Qed.
Lemma trailers_only_fold hs c :
  foldl (λ c h, response_header true h c) c hs =
  {| c with
     http_status_ := default (http_status_ c) (atoi <$> last_value (bs ":status") hs);
     content_type_ := default (content_type_ c) (last_value (bs "content-type") hs);
     grpc_status_raw_ := match last_value (bs "grpc-status") hs with
                         | Some v => Some v | None => grpc_status_raw_ c end;
     grpc_message_raw_ := default (grpc_message_raw_ c) (last_value (bs "grpc-message") hs);
     result_ := {| (result_ c) with trailing_metadata :=
                     trailing_metadata (result_ c) ++
                     filter (is_metadata (bs "content-type" :: status_keys)) hs |} |}.
Proof.
  revert c. induction hs as [|[k v] hs IH]; intros c; cbn [foldl].
  { simpl. rewrite app_nil_r. by destruct c as [? ? ? ? ? ? ? ? ? ? ? []]. }
  rewrite IH, filter_cons. clear IH.
  destruct (pseudo_cases k (bs "content-type" :: status_keys)) as [Hp|[[Hp Hk]|Hk]].
  - rewrite decide_False by (intros [? _]; simpl in *; congruence).
    rewrite (last_value_other (bs "content-type")), (last_value_other (bs "grpc-status")),
      (last_value_other (bs "grpc-message")) by (intros E; simpl in E; by rewrite E in Hp).
    rewrite response_header_pseudo by done.
    destruct (bool_decide_reflect (k = bs ":status")) as [->|Hne].
    + rewrite last_value_same. by destruct (last_value (bs ":status") hs).
    + by rewrite last_value_other.
  - rewrite decide_False by (by intros [_ Hn]; apply Hn).
    rewrite (last_value_other (bs ":status")) by (intros E; simpl in E; by rewrite E in Hp).
    unfold status_keys in Hk. rewrite !elem_of_cons in Hk.
    destruct Hk as [->|[->|[->|Hk]]]; [..|set_solver]; unfold response_header; cbn [fst snd];
      rewrite Hp; cbn [andb].
    + rewrite last_value_same, !last_value_other, bool_decide_eq_true_2 by done.
      by destruct (last_value (bs "content-type") hs).
    + rewrite last_value_same, !last_value_other, bool_decide_eq_false_2, bool_decide_eq_true_2 by done.
      by destruct (last_value (bs "grpc-status") hs).
    + rewrite last_value_same, !last_value_other, !bool_decide_eq_false_2, bool_decide_eq_true_2 by done.
      by destruct (last_value (bs "grpc-message") hs).
  - specialize (Hk v). rewrite decide_True by done. destruct Hk as [Hp Hk]. cbn [fst] in *.
    rewrite (last_value_other (bs ":status")) by (intros E; simpl in E; by rewrite E in Hp).
    unfold status_keys in Hk. rewrite !not_elem_of_cons in Hk. destruct Hk as (Hk1 & Hk2 & Hk3 & _).
    rewrite !last_value_other by done. unfold response_header. cbn [fst snd andb]. rewrite Hp.
    rewrite !bool_decide_eq_false_2 by done. simpl. by rewrite <- app_assoc.
Qed.

(** *** DATA *)

Lemma OnData_receive c data :
  is_closed c = false →
  OnData data c =
  let '(s, ms) := GrpcMessageScanner.receive_chunk (scanner_ c) data in
  foldl count_message {| c with scanner_ := s |} ms.
Proof.
  intros Hc. unfold OnData, GrpcMessageScanner.receive_chunk. rewrite Hc. cbn [orb].
  destruct (GrpcMessageScanner.failed_ (scanner_ c)) eqn:Hf.
  - unfold GrpcMessageScanner.Feed. rewrite Hf. by destruct c.
  - destruct (GrpcMessageScanner.Feed (scanner_ c) data) as [s []]; done.
Qed.

Lemma foldl_count_scanner ms c s :
  {| (foldl count_message c ms) with scanner_ := s |} =
  foldl count_message {| c with scanner_ := s |} ms.
Proof.
  revert c. induction ms as [|m ms IH]; intros c; cbn [foldl]; [done|]. by rewrite IH.
Qed.

Lemma run_data chunks c :
  is_closed c = false →
  run_call (Data <$> chunks) c =
  let '(s, ms) := GrpcMessageScanner.receive_chunks (scanner_ c) chunks in
  foldl count_message {| c with scanner_ := s |} ms.
Proof.
  revert c. induction chunks as [|d chunks IH]; intros c Hc; cbn [GrpcMessageScanner.receive_chunks].
  { by destruct c. }
  change (run_call (Data <$> d :: chunks) c) with (run_call (Data <$> chunks) (OnData d c)).
  rewrite OnData_receive by done.
  destruct (GrpcMessageScanner.receive_chunk (scanner_ c) d) as [s1 ms1].
  destruct (foldl_count_state ms1 {| c with scanner_ := s1 |}) as (Hst & _ & Hsc).
  rewrite IH by (unfold is_closed in *; by rewrite Hst).
  rewrite Hsc. simpl. destruct (GrpcMessageScanner.receive_chunks s1 chunks) as [s2 ms2].
  rewrite foldl_count_scanner, foldl_app. done.
Qed.

(** The messages are counted, and the first is kept. *)
Lemma foldl_count ms c :
  0 <= response_count_ c → response_count_ c + zlen ms < 2 ^ size_bits →
  foldl count_message c ms =
  {| c with response_count_ := response_count_ c + zlen ms;
            first_response_ := match ms with
                               | m :: _ => if response_count_ c =? 0 then m else first_response_ c
                               | [] => first_response_ c end |}.
Proof.
  revert c. induction ms as [|m ms IH]; intros c Hn Hb; cbn [foldl].
  { rewrite zlen_nil, Z.add_0_r. by destruct c. }
  rewrite zlen_cons in *. pose proof (zlen_nonneg ms) as Hms.
  unfold count_message at 2. rewrite size_add_small by lia.
  rewrite IH by (simpl; lia). simpl. f_equal; [|lia].
  destruct ms as [|m' ms].
  - destruct (Z.eqb_spec (response_count_ c + 1) 1), (Z.eqb_spec (response_count_ c) 0); try done; lia.
  - destruct (Z.eqb_spec (response_count_ c + 1) 0); [lia|].
    destruct (Z.eqb_spec (response_count_ c + 1) 1), (Z.eqb_spec (response_count_ c) 0); try done; lia.
Qed.

End Facts.

(** ** The outcome of a unary call *)

Section Outcome.
Import CallState.
Import GrpcMessageScanner.
Import WireStream.
Context `{SZ : SizeT}.

(** Status, message and response of a stream that ended without [grpc-status]. *)
Definition fallback_outcome (http_status : Z) (content_type : bytes) (http2_error_code : Z)
    : StatusCode * bytes * bytes :=
  if negb (http_status =? 200)
  then (HttpStatusToGrpcCode http_status, bs "unexpected HTTP status " ++ to_string http_status, [])
  else if negb (IsGrpcContentType content_type) then (kInternal, bad_content_type content_type, [])
  else match http2_error_code with
       | 0 => (kInternal, bs "server closed stream without grpc-status", [])
       | 7 => (kUnavailable, bs "stream refused by server (REFUSED_STREAM)", [])
       | 8 => (kCancelled, bs "stream cancelled by server (RST_STREAM CANCEL)", [])
       | e => (kInternal, bs "stream reset, HTTP/2 error code " ++ to_string e, [])
       end.

(** The specification: what the wire format says of the response body decides first,
    then [grpc-status], then the fallbacks; an OK status needs exactly one message. *)
Definition unary_outcome (verdict : Verdict) (messages : list bytes) (rest : bytes)
    (grpc_status : option bytes) (grpc_message : bytes) (http_status : Z) (content_type : bytes)
    (http2_error_code : Z) : StatusCode * bytes * bytes :=
  match verdict, ParseGrpcStatus <$> grpc_status with
  | Reject k m, _ => (k, m, [])
  | Accept, None => fallback_outcome http_status content_type http2_error_code
  | Accept, Some None => (kInternal, malformed_status (default [] grpc_status), [])
  | Accept, Some (Some kOk) =>
      match rest, messages with
      | [], [m] => (kOk, PercentDecode grpc_message, m)
      | [], [] => (kInternal, bs "unary call completed with OK status but no response message", [])
      | [], _ => (kInternal, bs "unary call received more than one response message", [])
      | _, _ => (kInternal, bs "stream ended mid-message (truncated gRPC frame)", [])
      end
  | Accept, Some (Some k) => (k, PercentDecode grpc_message, [])
  end.

Definition outcome_of (r : Result) : StatusCode * bytes * bytes := (code r, message r, response r).

(** [FinalizeLocked] on a call that has counted [ms] and saw its initial headers. *)
Lemma FinalizeLocked_outcome c v ms rest ec :
  saw_initial_headers_ c = true → response (result_ c) = [] →
  match v with
  | Accept => failed_ (scanner_ c) = false ∧ HasPartialMessage (scanner_ c) = bool_decide (rest ≠ []) ∧
              response_count_ c = zlen ms ∧ first_response_ c = default [] (head ms)
  | Reject k m => failed_ (scanner_ c) = true ∧ error_code_ (scanner_ c) = k ∧ error_ (scanner_ c) = m
  end →
  let r := result_ (FinalizeLocked ec c) in
  outcome_of r = unary_outcome v ms rest (grpc_status_raw_ c) (grpc_message_raw_ c)
                   (http_status_ c) (content_type_ c) ec ∧
  initial_metadata r = initial_metadata (result_ c) ∧
  trailing_metadata r = trailing_metadata (result_ c).
Proof.
  intros Hsaw Hresp Hv. unfold FinalizeLocked, unary_outcome, outcome_of.
  destruct v as [|k m].
  2: { destruct Hv as (-> & -> & ->). simpl. by rewrite Hresp. }
  destruct Hv as (-> & Hp & Hn & Hfirst). rewrite Hsaw. cbn [andb].
  destruct (grpc_status_raw_ c) as [raw|]; cbn [fmap option_fmap option_map default].
  2: { unfold fallback_outcome. destruct (http_status_ c =? 200); simpl; [|by rewrite Hresp].
       destruct (IsGrpcContentType (content_type_ c)); simpl; [|by rewrite Hresp].
       destruct (Z.eqb_spec ec 0) as [->|]; [simpl; by rewrite Hresp|].
       destruct (Z.eqb_spec ec kHttp2RefusedStream) as [->|]; [simpl; by rewrite Hresp|].
       destruct (Z.eqb_spec ec kHttp2Cancel) as [->|]; [simpl; by rewrite Hresp|].
       unfold kHttp2RefusedStream, kHttp2Cancel in *. simpl. rewrite Hresp.
       split; [|done]. destruct ec as [|p|p]; try done.
       do 4 (destruct p as [p|p|]; try done). }
  destruct (ParseGrpcStatus raw) as [k|]; [|simpl; by rewrite Hresp].
  destruct (decide (k = kOk)) as [->|Hk].
  2: { rewrite bool_decide_eq_false_2 by done. simpl. rewrite Hresp. by destruct k. }
  rewrite bool_decide_eq_true_2 by done. cbn [negb set_status scanner_ response_count_]. rewrite Hp, Hn.
  destruct rest as [|b rest]; simpl; [|by rewrite Hresp].
  destruct ms as [|m [|m' ms]]; simpl.
  - by rewrite Hresp.
  - by rewrite Hfirst.
  - rewrite !zlen_cons. pose proof (zlen_nonneg ms).
    destruct (Z.eqb_spec (1 + (1 + zlen ms)) 0); [lia|].
    destruct (Z.ltb_spec 1 (1 + (1 + zlen ms))); [|lia]. simpl. by rewrite Hresp.
Qed.

(** The events of a call that gets a header block, DATA in any chunks, and trailers. *)
Definition unary_events (stream_id : Z) (headers : HeaderList) (chunks : list bytes)
    (trailers : HeaderList) (http2_error_code : Z) : list CallEvent :=
  [Submitted stream_id; ResponseHeaders headers false] ++ (Data <$> chunks) ++
  [Trailers trailers; Close http2_error_code].

Lemma unary_call_run max i hs chunks ts ec :
  0 <= max → fits max → zlen (concat chunks) < 2 ^ size_bits →
  ∃ ms v rest r,
    wire_stream max (concat chunks) ms v rest ∧
    Wait (run_call (unary_events i hs chunks ts ec) (new_call max)) = Some r ∧
    outcome_of r = unary_outcome v ms rest (last_value (bs "grpc-status") ts)
                     (default [] (last_value (bs "grpc-message") ts))
                     (default 0 (atoi <$> last_value (bs ":status") hs))
                     (default [] (last_value (bs "content-type") hs)) ec ∧
    initial_metadata r = filter (is_metadata [bs "content-type"]) hs ∧
    trailing_metadata r = filter (is_metadata status_keys) ts.
Proof.
  intros Hmax Hf Hsz. destruct (wire_stream_total max (concat chunks)) as (ms & v & rest & Hw).
  destruct (receive_chunks_stream chunks (new_scanner max) ms v rest) as (s' & ms' & Hr & Hres);
    [by apply new_scanner_ok|by constructor|done|done|].
  unfold unary_events, run_call. rewrite !foldl_app. cbn [foldl on_call_event].
  set (c1 := OnResponseHeaders hs false (OnSubmitted i (new_call max))).
  assert (Hc1 : c1 = {| (new_call max) with
     state_ := kOpen; stream_id_ := i; saw_initial_headers_ := true;
     http_status_ := default 0 (atoi <$> last_value (bs ":status") hs);
     content_type_ := default [] (last_value (bs "content-type") hs);
     result_ := {| new_result with initial_metadata := filter (is_metadata [bs "content-type"]) hs |} |}).
  { subst c1. unfold OnResponseHeaders. cbn. by rewrite initial_headers_fold. }
  clearbody c1.
  change (foldl (λ c e, on_call_event e c) c1 (Data <$> chunks)) with (run_call (Data <$> chunks) c1).
  rewrite run_data by (by subst c1). replace (scanner_ c1) with (new_scanner max) by (by subst c1).
  rewrite Hr. exists ms, v, rest.
  assert (Hlen : zlen ms' < 2 ^ size_bits).
  { pose proof (wire_stream_length _ _ _ _ _ Hw) as Hl.
    assert (length ms' <= length ms)%nat by
      (destruct v; [by destruct Hres as [-> _]|by apply prefix_length, Hres]).
    unfold zlen in *. lia. }
  rewrite foldl_count; [|subst c1; cbn [response_count_ new_call]; lia..].
  unfold OnTrailers, OnClose. subst c1.
  cbn [is_closed state_ new_call]. unfold is_closed at 2. cbn [state_]. cbn [bool_decide].
  rewrite trailers_fold.
  match goal with |- context [FinalizeLocked ec ?c] => set (c3 := c) end.
  destruct (FinalizeLocked_outcome c3 v ms rest ec) as (H1 & H2 & H3).
  - done.
  - done.
  - destruct v as [|k m]; [|by destruct Hres as (_ & ?)].
    destruct Hres as (-> & Hok & <- & _ & _). split_and!; try done; [by destruct Hok|..].
    + by apply HasPartialMessage_unread.
    + by destruct ms.
  - exists (result_ (FinalizeLocked ec c3)). split; [done|]. split; [done|].
    rewrite H1, H2, H3. split; [|done]. subst c3.
    cbn [grpc_status_raw_ grpc_message_raw_ http_status_ content_type_ new_call].
    generalize (last_value (bs "grpc-status") ts). by intros [?|].
Qed.

End Outcome.

(** ** Properties *)

Section CallProperties.
Import CallState.
Import GrpcMessageScanner.
Import WireStream.
Context `{SZ : SizeT}.

(** C17: a call completes exactly once, with its first completion: the waiter is
    released exactly when a close or a local failure has happened, and from then on no
    event changes anything of the call, so the result [Wait] returned is immutable. *)
Theorem call_completes_once (max : Z) (evs evs' : list CallEvent) :
  let c := run_call evs (new_call max) in
  (Wait c = None ↔ Forall (λ e, completes e = false) evs) ∧
  (is_Some (Wait c) → run_call evs' c = c) ∧
  (∀ pre e, evs = pre ++ [e] → Forall (λ e, completes e = false) pre → completes e = true →
     ∀ post, Wait (run_call (evs ++ post) (new_call max)) =
             Some (result_ (on_call_event e (run_call pre (new_call max))))).
Proof.
  intros c. destruct (run_call_inv evs (new_call max) eq_refl) as [Hinv Hclosed].
  unfold call_inv in Hinv. rewrite orb_false_l in Hclosed. split_and!.
  - unfold Wait. fold c in Hinv, Hclosed |- *. rewrite Hinv, Hclosed.
    destruct (existsb completes evs) eqn:E; split; try done.
    + intros Hf. apply existsb_exists in E as (e & He & Hc). apply list_elem_of_In in He.
      rewrite Forall_forall in Hf. specialize (Hf e He). congruence.
    + intros _. apply Forall_forall. intros e He. destruct (completes e) eqn:Hc; [|done].
      assert (existsb completes evs = true); [|congruence].
      apply existsb_exists. exists e. by rewrite <- list_elem_of_In.
  - unfold Wait. fold c in Hinv. rewrite Hinv. destruct (is_closed c) eqn:Hc; [|by intros []].
    intros _. by apply closed_frozen_run.
  - intros pre e -> Hpre He post. clear c Hinv Hclosed.
    destruct (run_call_inv pre (new_call max) eq_refl) as [_ Hpc].
    assert (existsb completes pre = false) as Hno.
    { destruct (existsb completes pre) eqn:E; [|done].
      apply existsb_exists in E as (x & Hx & Hcx). apply list_elem_of_In in Hx.
      rewrite Forall_forall in Hpre. specialize (Hpre x Hx). congruence. }
    rewrite orb_false_l, Hno in Hpc.
    destruct (completing_event e (run_call pre (new_call max)) Hpc He) as [H1 H2].
    unfold run_call at 1. rewrite !foldl_app. cbn [foldl].
    fold (run_call pre (new_call max)).
    fold (run_call post (on_call_event e (run_call pre (new_call max)))).
    rewrite closed_frozen_run by done. unfold Wait. by rewrite H2.
Qed.

(** C7: the result of a unary call is what its response means: for every header block,
    every cut of the body into DATA chunks and every trailer block, status, message and
    response are those the specification [unary_outcome] derives from the byte stream
    of the body (framing errors first), the last [grpc-status] and [grpc-message], the
    HTTP status, the content type and the HTTP/2 error code; and the metadata are the
    remaining fields in order. *)
Theorem unary_call_outcome (max i : Z) (hs : HeaderList) (chunks : list bytes) (ts : HeaderList) (ec : Z) :
  0 <= max → fits max → zlen (concat chunks) < 2 ^ size_bits →
  ∃ ms v rest r,
    wire_stream max (concat chunks) ms v rest ∧
    Wait (run_call (unary_events i hs chunks ts ec) (new_call max)) = Some r ∧
    outcome_of r = unary_outcome v ms rest (last_value (bs "grpc-status") ts)
                     (default [] (last_value (bs "grpc-message") ts))
                     (default 0 (atoi <$> last_value (bs ":status") hs))
                     (default [] (last_value (bs "content-type") hs)) ec ∧
    initial_metadata r = filter (is_metadata [bs "content-type"]) hs ∧
    trailing_metadata r = filter (is_metadata status_keys) ts.
Proof. apply unary_call_run. Qed.

(** End to end, a server's answer reaches the caller: if the server sends one
    framed message, cut into DATA chunks anywhere, and ends with a status and a
    percent-encoded message, the caller gets exactly that status and message text, and
    with an OK status exactly that response. *)
Theorem server_answer_roundtrip (max i : Z) (hs : HeaderList) (m : bytes) (chunks : list bytes)
    (k : StatusCode) (safe : byte → bool) (text : bytes) (ec : Z) :
  0 <= max → fits max → zlen m < 2 ^ 32 → zlen m <= max →
  concat chunks = grpc_frame m → zlen (concat chunks) < 2 ^ size_bits →
  safe "%"%byte = false →
  let ts := [(bs "grpc-status", to_string (status_value k));
             (bs "grpc-message", percent_encode safe text)] in
  ∃ r, Wait (run_call (unary_events i hs chunks ts ec) (new_call max)) = Some r ∧
       code r = k ∧ message r = text ∧ response r = if bool_decide (k = kOk) then m else [].
Proof.
  intros Hmax Hf Hm1 Hm2 Hc Hsz Hsafe ts.
  destruct (unary_call_run max i hs chunks ts ec Hmax Hf Hsz) as (ms & v & rest & r & Hw & Hr & Ho & _).
  exists r. split; [done|].
  assert (Hw' : wire_stream max (concat chunks) [m] Accept []).
  { rewrite Hc, <- (app_nil_r (grpc_frame m)). apply ws_frame; [done..|]. by apply ws_rest, inc_header. }
  destruct (wire_stream_det _ _ _ _ _ _ _ _ Hw Hw') as (-> & -> & ->).
  change (last_value (bs "grpc-status") ts) with (Some (to_string (status_value k))) in Ho.
  change (last_value (bs "grpc-message") ts) with (Some (percent_encode safe text)) in Ho.
  unfold unary_outcome, outcome_of in Ho. cbn [fmap option_fmap option_map] in Ho.
  replace (ParseGrpcStatus (to_string (status_value k))) with (Some k) in Ho by (by destruct k).
  cbn [from_option] in Ho. change (id (percent_encode safe text)) with (percent_encode safe text) in Ho.
  rewrite percent_decode_encode in Ho by done.
  destruct (bool_decide_reflect (k = kOk)) as [->|Hk]; [by injection Ho|].
  destruct k; try done; by injection Ho.
Qed.

(** A Trailers-Only response (one header block that ends the stream) carries its
    [grpc-status] and message, all its metadata is trailing, and an OK status there is
    an error because no response message can follow. *)
Theorem trailers_only_outcome (max i : Z) (hs : HeaderList) (ec : Z) :
  0 <= max → fits max →
  ∃ r, Wait (run_call [Submitted i; ResponseHeaders hs true; Close ec] (new_call max)) = Some r ∧
    outcome_of r = unary_outcome Accept [] [] (last_value (bs "grpc-status") hs)
                     (default [] (last_value (bs "grpc-message") hs))
                     (default 0 (atoi <$> last_value (bs ":status") hs))
                     (default [] (last_value (bs "content-type") hs)) ec ∧
    initial_metadata r = [] ∧
    trailing_metadata r = filter (is_metadata (bs "content-type" :: status_keys)) hs.
Proof.
  intros Hmax Hf. unfold run_call. cbn [foldl on_call_event]. unfold OnClose, OnResponseHeaders.
  cbn [is_closed OnSubmitted state_ new_call bool_decide]. unfold is_closed at 2. cbn [state_ bool_decide].
  rewrite trailers_only_fold.
  match goal with |- context [FinalizeLocked ec ?c] => set (c3 := c) end.
  destruct (FinalizeLocked_outcome c3 Accept [] [] ec) as (H1 & H2 & H3); try done.
  exists (result_ (FinalizeLocked ec c3)). split; [done|]. rewrite H1, H2, H3. split; [|done].
  subst c3. simpl. by destruct (last_value (bs "grpc-status") hs).
Qed.

End CallProperties.

(** ** Request headers *)

Section RequestHeaders.

(** *** What a request's header list has to be, independently of the builder *)

(** ASCII lower case, by the alphabet. *)
Definition lower_case (c : byte) : byte :=
  default c (snd <$> List.find (λ p, bool_decide (p.1 = c))
    (zip (bs "ABCDEFGHIJKLMNOPQRSTUVWXYZ") (bs "abcdefghijklmnopqrstuvwxyz"))).

(** The fields that belong to the transport: the pseudo-headers and these seven. *)
Definition transport_fields : list bytes :=
  bs <$> ["te"; "host"; "content-type"; "user-agent"; "grpc-timeout"; "grpc-encoding";
          "grpc-accept-encoding"]%string.

Definition transport_owned (name : bytes) : Prop :=
  bs ":" `prefix_of` name ∨ name ∈ transport_fields.

#[export] Instance transport_owned_dec name : Decision (transport_owned name).
Proof. unfold transport_owned. apply _. Defined.

Definition named (key : bytes) (h : Header) : Prop := h.1 = key.

#[export] Instance named_dec key h : Decision (named key h).
Proof. unfold named. apply _. Defined.

(** The metadata kept, and what each kept pair is sent as. *)
Definition kept (metadata : HeaderList) : HeaderList :=
  filter (λ kv, ¬ transport_owned (lower_case <$> kv.1)) metadata.

Definition sent_as (kv h : Header) : Prop :=
  h.1 = lower_case <$> kv.1 ∧
  if decide (bs "-bin" `suffix_of` h.1) then base64_of kv.2 h.2 else h.2 = kv.2.

Lemma AsciiLower_spec s : AsciiLower s = lower_case <$> s.
Proof.
  apply list_fmap_ext. intros _ c _. apply b2z_inj, Z.eqb_eq.
  apply (byte_forall (λ c, b2z (ascii_lower c) =? b2z (lower_case c))). by vm_compute.
Qed.

Lemma IsPseudoHeader_spec key : IsPseudoHeader key = bool_decide (bs ":" `prefix_of` key).
Proof.
  destruct key as [|c key]; [done|]. cbn [IsPseudoHeader]. apply bool_decide_ext.
  split; [intros ->; by exists key|]. by intros [k [= -> _]].
Qed.

Lemma IsReservedMetadataKey_spec key : IsReservedMetadataKey key = bool_decide (transport_owned key).
Proof.
  unfold IsReservedMetadataKey. rewrite IsPseudoHeader_spec. change kReserved with transport_fields.
  apply eq_true_iff_eq. by rewrite orb_true_iff, !bool_decide_eq_true.
Qed.

Lemma IsBinKey_spec key : IsBinKey key = bool_decide (bs "-bin" `suffix_of` key).
Proof.
  unfold IsBinKey. destruct (bool_decide_reflect (bs "-bin" `suffix_of` key)) as [[k ->]|Hn].
  - unfold zlen. rewrite length_app. change (length (bs "-bin")) with 4%nat.
    apply andb_true_iff. split; [apply Z.leb_le; lia|]. apply bool_decide_eq_true.
    replace (Z.to_nat _) with (length k) by lia. apply drop_app_length.
  - apply andb_false_iff. destruct (Z.leb_spec 4 (zlen key)); [|by left]. right.
    apply bool_decide_eq_false. intros E. apply Hn. exists (take (Z.to_nat (zlen key - 4)) key).
    by rewrite <- E, take_drop.
Qed.

Lemma add_metadata_sent metadata : Forall2 sent_as (kept metadata) (add_metadata metadata).
Proof.
  induction metadata as [|[k v] metadata IH]; cbn [add_metadata]; [constructor|].
  unfold kept. rewrite filter_cons. cbn [fst snd].
  rewrite AsciiLower_spec, IsReservedMetadataKey_spec.
  case_bool_decide as E; [rewrite decide_False by tauto; apply IH|].
  rewrite decide_True by done. constructor; [|apply IH]. split; [done|]. cbn [fst snd].
  rewrite IsBinKey_spec. case_bool_decide; [rewrite decide_True by done|by rewrite decide_False].
  apply Base64Encode_bits.
Qed.

Definition no_upper (name : bytes) : Prop := Forall (λ c, ¬ 65 <= b2z c <= 90) name.

Lemma lower_case_no_upper name : no_upper (lower_case <$> name).
Proof.
  apply Forall_fmap, Forall_true. intros c. change (¬ 65 <= b2z (lower_case c) <= 90).
  pose proof (byte_forall (λ c, negb ((65 <=? b2z (lower_case c)) && (b2z (lower_case c) <=? 90))) c) as H.
  ospecialize (H _); [by vm_compute|]. cbv beta in H.
  apply negb_true_iff, andb_false_iff in H. rewrite !Z.leb_gt in H. lia.
Qed.

Lemma sent_names metadata :
  Forall (λ h, ¬ transport_owned h.1 ∧ no_upper h.1) (add_metadata metadata).
Proof.
  pose proof (add_metadata_sent metadata) as H.
  assert (Hk : Forall (λ kv, ¬ transport_owned (lower_case <$> kv.1)) (kept metadata)).
  { apply Forall_forall. intros kv Hkv. by apply list_elem_of_filter in Hkv as [? _]. }
  induction H as [|kv h l hs [Hh _] _ IH]; [constructor|].
  apply Forall_cons in Hk as [Hk1 Hk]. rewrite <- Hh in Hk1.
  constructor; [split; [done|]|by apply IH]. rewrite Hh. apply lower_case_no_upper.
Qed.

Lemma absent_field key hs :
  Forall (λ h : Header, h.1 ≠ key) hs → filter (named key) hs = [].
Proof.
  induction 1 as [|h hs Hh _ IH]; [done|]. by rewrite filter_cons, decide_False.
Qed.

(** C36: the request headers are well formed whatever the caller's metadata: the four
    pseudo-headers, then the transport's own fields with their values and the timeout
    when there is one, then the metadata in order with its names in lower case, dropping
    exactly the pairs that name a pseudo-header or one of the seven transport fields and
    sending a [-bin] value as unpadded base64 (RFC 4648); so a transport field occurs at
    most once and no pseudo-header follows the first four. *)
Theorem request_headers_wellformed (authority path : bytes) (timeout : option Z)
    (metadata : HeaderList) (prefix : bytes) :
  ∃ sent,
    let own :=
      [(bs "te", bs "trailers"); (bs "content-type", bs "application/grpc");
       (bs "user-agent", match prefix with
                         | [] => bs "grpc-c++-egrpc/0.1.0"
                         | _ => prefix ++ bs " grpc-c++-egrpc/0.1.0"
                         end);
       (bs "grpc-accept-encoding", bs "identity")] ++
      match timeout with Some ns => [(bs "grpc-timeout", EncodeGrpcTimeout ns)] | None => [] end in
    BuildRequestHeaders authority path timeout metadata prefix =
      [(bs ":method", bs "POST"); (bs ":scheme", bs "https"); (bs ":path", path);
       (bs ":authority", authority)] ++ own ++ sent ∧
    Forall2 sent_as (kept metadata) sent ∧
    Forall (λ h, ¬ transport_owned h.1 ∧ no_upper h.1) sent ∧
    (∀ key, key ∈ transport_fields → (length (filter (named key) (own ++ sent)) <= 1)%nat).
Proof.
  exists (add_metadata metadata). set (ua := match prefix with [] => _ | _ => _ end). intros own.
  split_and!.
  - unfold BuildRequestHeaders, base_headers.
    assert ((if bool_decide (prefix = []) then kUserAgent else prefix ++ bs " " ++ kUserAgent) = ua)
      as -> by (by destruct prefix).
    subst own. by destruct timeout.
  - apply add_metadata_sent.
  - apply sent_names.
  - intros key Hkey. rewrite filter_app, (absent_field key (add_metadata metadata)), app_nil_r.
    + subst own. unfold transport_fields in Hkey.
      repeat (apply elem_of_cons in Hkey as [->|Hkey]; [by destruct timeout; vm_compute; lia|]).
      by apply elem_of_nil in Hkey.
    + eapply Forall_impl; [apply sent_names|]. intros h [Hn _] <-. apply Hn. by right.
Qed.

End RequestHeaders.

(** ** Witnesses *)

Section CallWitnesses.
Import CallState.
Import GrpcMessageScanner.
Import WireStream.
Local Existing Instance size_t32.

Definition sample_chunks_hi : list bytes :=
  let w := grpc_frame (bs "hi") in [take 3 w; drop 3 w].

Definition sample_headers : HeaderList :=
  [(bs ":status", bs "200"); (bs "content-type", bs "application/grpc"); (bs "x-id", bs "7")].

Lemma call_completes_once_witness :
  let c := run_call [Submitted 1; Fail kUnavailable (bs "down")] (new_call 100) in
  run_call [Close 0; Data (bs "x")] c = c ∧
  Wait (run_call ([Submitted 1; Fail kUnavailable (bs "down")] ++ [Close 8]) (new_call 100)) =
    Some (result_ (FailLocal kUnavailable (bs "down") (run_call [Submitted 1] (new_call 100)))).
Proof.
  destruct (call_completes_once 100 [Submitted 1; Fail kUnavailable (bs "down")]
              [Close 0; Data (bs "x")]) as (_ & H1 & H2).
  split.
  - apply H1. vm_compute. eexists. reflexivity.
  - apply (H2 [Submitted 1] (Fail kUnavailable (bs "down"))); [reflexivity| |reflexivity].
    repeat constructor.
Defined.

Lemma unary_call_outcome_witness :
  ∃ ms v rest r,
    wire_stream 100 (concat sample_chunks_hi) ms v rest ∧
    Wait (run_call (unary_events 1 sample_headers sample_chunks_hi
                      [(bs "grpc-status", bs "0")] 0) (new_call 100)) = Some r ∧
    outcome_of r = unary_outcome v ms rest (Some (bs "0")) [] 200 (bs "application/grpc") 0.
Proof.
  destruct (unary_call_outcome 100 1 sample_headers sample_chunks_hi
              [(bs "grpc-status", bs "0")] 0) as (ms & v & rest & r & H1 & H2 & H3 & _).
  - lia.
  - vm_compute. reflexivity.
  - vm_compute. reflexivity.
  - exists ms, v, rest, r. split; [exact H1|]. split; [exact H2|exact H3].
Defined.

Lemma server_answer_roundtrip_witness :
  ∃ r, Wait (run_call (unary_events 1 sample_headers sample_chunks_hi
               [(bs "grpc-status", to_string (status_value kOk));
                (bs "grpc-message", percent_encode (in_range " " "$") (bs "100% ok"))] 0)
               (new_call 100)) = Some r ∧
       code r = kOk ∧ message r = bs "100% ok" ∧ response r = bs "hi".
Proof.
  apply (server_answer_roundtrip 100 1 sample_headers (bs "hi") sample_chunks_hi kOk
           (in_range " " "$") (bs "100% ok") 0); try (vm_compute; reflexivity).
  - lia.
  - vm_compute. discriminate.
Defined.

Lemma trailers_only_outcome_witness :
  ∃ r, Wait (run_call [Submitted 1;
               ResponseHeaders [(bs ":status", bs "200"); (bs "grpc-status", bs "5")] true; Close 0]
               (new_call 100)) = Some r ∧
       outcome_of r = (kNotFound, [], []).
Proof.
  destruct (trailers_only_outcome 100 1 [(bs ":status", bs "200"); (bs "grpc-status", bs "5")] 0)
    as (r & H1 & H2 & _).
  - lia.
  - vm_compute. reflexivity.
  - exists r. split; [exact H1|exact H2].
Defined.

End CallWitnesses.
