(* ===== verification/TlsSocket.v ===== *)
(** * The TLS client socket ([src/transport/tls_socket.h], [src/transport/tls_socket.cc])

    OpenSSL, the resolver and the socket system calls are not part of the repository:
    they are the class [TlsPlatform], whose operations take and return an abstract
    environment.  The calls that matter for the properties are also written down in a
    trace, a history that no code reads.  The members of the class and the environment
    are threaded by a state monad; an early [return] is the branch that ends.

    [TlsSocketOps] is the interface the channel is written against; the class of this
    file is its instance. *)

From Stdlib Require Import ZArith Lia.
From Stdlib Require Import Strings.String Strings.Byte.
From stdpp Require Import base numbers list.
From S2P Require Import Prelude.

Local Open Scope Z_scope.

(** ** A state monad *)

Declare Scope state_scope.
Delimit Scope state_scope with state.

Definition SM (S A : Type) : Type := S → S * A.

Definition sret {S A : Type} (a : A) : SM S A := λ s, (s, a).

Definition sbind {S A B : Type} (m : SM S A) (k : A → SM S B) : SM S B :=
  λ s, let '(s, a) := m s in k a s.

Definition sget {S A : Type} (f : S → A) : SM S A := λ s, (s, f s).

Definition smod {S : Type} (f : S → S) : SM S unit := λ s, (f s, tt).

Notation "x <- m ;; k" := (sbind m (λ x, k))
  (at level 100, m at next level, right associativity) : state_scope.
Notation "m ;; k" := (sbind m (λ _, k)) : state_scope.

(** ** The interface to the channel *)

Inductive IoStatus : Type := kOkIo | kWantRead | kWantWrite | kEof | kError.

#[export] Instance IoStatus_eq_decision : EqDecision IoStatus.
Proof. solve_decision. Defined.

Record TlsConfig : Type := {
  ca_bundle_path : bytes;
  ca_bundle_pem : bytes;
  client_cert_path : bytes;
  client_key_path : bytes;
  insecure_skip_verify_for_testing_only : bool;
}.

Class TlsSocketOps := {
  socket_type : Type;
  sock_StartConnect : bytes → Z → TlsConfig → socket_type → socket_type * bool;
  sock_ContinueConnect : socket_type → socket_type * IoStatus;
  sock_DesiredPollEvents : socket_type → Z;
  (* at most so many bytes; the bytes read *)
  sock_Read : Z → socket_type → socket_type * (IoStatus * bytes);
  (* the number of bytes written *)
  sock_Write : bytes → socket_type → socket_type * (IoStatus * Z);
  sock_Close : socket_type → socket_type;
  sock_fd : socket_type → Z;
  sock_error : socket_type → bytes;
}.

(** Closing keeps the error text readable; a successful write takes some of the bytes. *)
Class TlsSocketLaws (SO : TlsSocketOps) := {
  sock_Close_error s : sock_error (sock_Close s) = sock_error s;
  sock_Write_some d s s' n : d ≠ [] → sock_Write d s = (s', (kOkIo, n)) → 0 < n <= zlen d;
}.

(** ** The platform *)

Record Address : Type := { sa_family : Z; ai_addrlen : Z; sa_data : bytes }.

(** Calls that can fail, with the arguments the code passes. *)
Inductive SslCall : Type :=
  | CallCtxNew
  | CallSetMinProto
  | CallSetAlpn (protos : bytes)
  | CallBioNew (pem : bytes)
  | CallLoadVerifyLocations (path : bytes)
  | CallDefaultVerifyPaths
  | CallUseCertificate (path : bytes)
  | CallUsePrivateKey (path : bytes)
  | CallCheckPrivateKey
  | CallSslNew
  | CallSetFd (fd : Z)
  | CallSetVerifyIp (host : bytes)
  | CallSetSni (host : bytes)
  | CallSetVerifyHost (host : bytes).

(** What a failed [SSL_connect], [SSL_read_ex] or [SSL_write_ex] leaves behind. *)
Record SslFailure : Type := {
  ssl_error : Z;
  saved_errno : Z;
  alpn_alert : bool;        (* ERR_peek_error is no_application_protocol *)
  verify_result : Z;
}.

Definition SSL_ERROR_WANT_READ : Z := 2.
Definition SSL_ERROR_WANT_WRITE : Z := 3.
Definition SSL_ERROR_SYSCALL : Z := 5.
Definition SSL_ERROR_ZERO_RETURN : Z := 6.
Definition EINPROGRESS : Z := 115.
Definition POLL_IN : Z := 1.
Definition POLL_OUT : Z := 4.

Class TlsPlatform := {
  penv : Type;
  p_ssl_call : SslCall → penv → penv * bool;
  p_set_verify : bool → penv → penv;
  (* X509_STORE_add_cert for each certificate PEM_read_bio_X509 finds *)
  p_add_certs : bytes → penv → penv * list bool;
  p_error_queue : penv → penv * list bytes;
  p_getaddrinfo : bytes → bytes → penv → penv * (Z + list Address);
  p_socket : Z → penv → penv * (Z * Z);          (* fd, errno *)
  p_connect : Z → Address → penv → penv * Z;     (* 0 or errno *)
  p_so_error : Z → penv → penv * Z;
  p_close : Z → penv → penv;
  p_ssl_connect : penv → penv * (unit + SslFailure);
  p_alpn_selected : penv → bytes;
  p_ssl_read : Z → penv → penv * (bytes + SslFailure);
  p_ssl_write : bytes → penv → penv * (Z + SslFailure);
  p_ssl_shutdown : penv → penv;
  p_ssl_free : penv → penv;
  p_ctx_free : penv → penv;
  p_is_ip_literal : bytes → bool;
  p_strerror : Z → bytes;
  p_gai_strerror : Z → bytes;
  p_verify_error_string : Z → bytes;
}.

(** SSL_write_ex: on success the number of bytes written, at least one. *)
Class TlsPlatformLaws (TP : TlsPlatform) := {
  p_ssl_write_some d e e' n : d ≠ [] → p_ssl_write d e = (e', inl n) → 0 < n <= zlen d;
}.

(** The history. *)
Inductive Tr : Type :=
  | TrSsl (c : SslCall) (success : bool)
  | TrSetVerify (peer : bool)
  | TrOpen (fd : Z) (addr : Address)
  | TrClose (fd : Z)
  | TrConnect.

(** ** The class *)

Module TlsSocket.

Inductive State : Type := kIdle | kTcpConnecting | kTlsHandshake | kConnected | kFailed | kClosed.

#[export] Instance State_eq_decision : EqDecision State.
Proof. solve_decision. Defined.

(** [ssl_ctx_] and [ssl_] are [true] when not null. *)
Record TlsSocket : Type := {
  state_ : State;
  fd_ : Z;
  ssl_ctx_ : bool;
  ssl_ : bool;
  host_ : bytes;
  verify_peer_ : bool;
  error_ : bytes;
  alpn_ : bytes;
  desired_events_ : Z;
  addresses_ : list Address;
  next_address_ : nat;
}.

Definition new_socket : TlsSocket :=
  {| state_ := kIdle; fd_ := -1; ssl_ctx_ := false; ssl_ := false; host_ := [];
     verify_peer_ := true; error_ := []; alpn_ := []; desired_events_ := 0;
     addresses_ := []; next_address_ := 0 |}.

Section Methods.
Context `{TP : TlsPlatform}.
Local Open Scope state_scope.

(** The object, the environment, the history. *)
Record Sys : Type := { self : TlsSocket; plat : penv; trace : list Tr }.

Abbreviation M := (SM Sys).

Definition upd (f : TlsSocket → TlsSocket) : M unit := smod (λ s, {| s with self := f (self s) |}).

Definition set_error (e : bytes) : M unit := upd (λ t, {| t with error_ := e |}).

Definition env {A : Type} (f : penv → penv * A) : M A :=
  λ s, let '(e, a) := f (plat s) in ({| s with plat := e |}, a).

Definition env_ (f : penv → penv) : M unit := env (λ e, (f e, tt)).

Definition note (x : Tr) : M unit := smod (λ s, {| s with trace := trace s ++ [x] |}).

Definition ssl_call (c : SslCall) : M bool :=
  b <- env (p_ssl_call c) ;; note (TrSsl c b) ;; sret b.

Definition set_verify (peer : bool) : M unit := env_ (p_set_verify peer) ;; note (TrSetVerify peer).

Definition sys_close (fd : Z) : M unit := env_ (p_close fd) ;; note (TrClose fd).

(** The queue joined by "; ". *)
Fixpoint join_errors (l : list bytes) : bytes :=
  match l with
  | [] => []
  | [e] => e
  | e :: l => e ++ bs "; " ++ join_errors l
  end.

Definition SslErrorQueueString : M bytes :=
  q <- env p_error_queue ;;
  let out := join_errors q in
  sret (if bool_decide (out = []) then bs "unknown OpenSSL error" else out).

(** [if (!call) { error_ = message + SslErrorQueueString(); return false; } k]. *)
Definition ssl_require (c : SslCall) (message : bytes) (k : M bool) : M bool :=
  b <- ssl_call c ;;
  if b then k
  else q <- SslErrorQueueString ;; set_error (message ++ q) ;; sret false.

Definition fail_with (message : bytes) : M bool := set_error message ;; sret false.

Definition quoted (s : bytes) : bytes := bs "'" ++ s ++ bs "'".

Definition kAlpnH2 : bytes := x02 :: bs "h2".

(** The client certificate part of [CreateSslContext]. *)
Definition load_client_identity (config : TlsConfig) : M bool :=
  if bool_decide (client_cert_path config = []) && bool_decide (client_key_path config = [])
  then sret true
  else if bool_decide (client_cert_path config = []) || bool_decide (client_key_path config = [])
  then fail_with (bs "mTLS config requires both client_cert_path and client_key_path")
  else
    ssl_require (CallUseCertificate (client_cert_path config))
      (bs "failed to load client certificate " ++ quoted (client_cert_path config) ++ bs ": ")
    (ssl_require (CallUsePrivateKey (client_key_path config))
      (bs "failed to load client key " ++ quoted (client_key_path config) ++ bs ": ")
    (ssl_require CallCheckPrivateKey (bs "client certificate and key do not match: ")
    (sret true))).

(** The trust store part. *)
Definition load_trust (config : TlsConfig) (k : M bool) : M bool :=
  if negb (bool_decide (ca_bundle_pem config = [])) then
    b <- ssl_call (CallBioNew (ca_bundle_pem config)) ;;
    if negb b then fail_with (bs "failed to allocate BIO for CA bundle")
    else
      added <- env (p_add_certs (ca_bundle_pem config)) ;;
      if (length (filter (λ ok, ok = true) added) =? 0)%nat
      then fail_with (bs "CA bundle PEM contained no certificates")
      else k
  else if negb (bool_decide (ca_bundle_path config = [])) then
    ssl_require (CallLoadVerifyLocations (ca_bundle_path config))
      (bs "failed to load CA bundle " ++ quoted (ca_bundle_path config) ++ bs ": ") k
  else ssl_require CallDefaultVerifyPaths (bs "failed to load system default CA paths: ") k.

Definition CreateSslContext (config : TlsConfig) : M bool :=
  b <- ssl_call CallCtxNew ;;
  upd (λ t, {| t with ssl_ctx_ := b |}) ;;
  if negb b then q <- SslErrorQueueString ;; fail_with (bs "SSL_CTX_new failed: " ++ q)
  else
    ssl_require CallSetMinProto (bs "failed to set TLS 1.2 minimum: ")
    (ssl_require (CallSetAlpn kAlpnH2) (bs "failed to set ALPN protocols: ")
    (let verify := negb (insecure_skip_verify_for_testing_only config) in
     upd (λ t, {| t with verify_peer_ := verify |}) ;;
     if verify then set_verify true ;; load_trust config (load_client_identity config)
     else set_verify false ;; load_client_identity config)).

Definition Fail (message : bytes) : M IoStatus :=
  upd (λ t, {| t with error_ := message; state_ := kFailed; desired_events_ := 0 |}) ;;
  t <- sget self ;;
  (if ssl_ t then env_ p_ssl_free ;; upd (λ t, {| t with ssl_ := false |}) else sret tt) ;;
  (if ssl_ctx_ t then env_ p_ctx_free ;; upd (λ t, {| t with ssl_ctx_ := false |}) else sret tt) ;;
  (if 0 <=? fd_ t then sys_close (fd_ t) ;; upd (λ t, {| t with fd_ := -1 |}) else sret tt) ;;
  sret kError.

(** The [while] loop; every iteration takes an address, so their number is enough
    fuel. *)
Fixpoint try_next_loop (fuel : nat) : M bool :=
  match fuel with
  | O => sret false
  | S fuel =>
      t <- sget self ;;
      match addresses_ t !! next_address_ t with
      | None => sret false
      | Some addr =>
          upd (λ t, {| t with next_address_ := S (next_address_ t) |}) ;;
          r <- env (p_socket (sa_family addr)) ;;
          let '(fd, errno) := r in
          upd (λ t, {| t with fd_ := fd |}) ;;
          if fd <? 0 then
            set_error (bs "socket() failed: " ++ p_strerror errno) ;; try_next_loop fuel
          else
            note (TrOpen fd addr) ;;
            rc <- env (p_connect fd addr) ;;
            if rc =? 0 then
              upd (λ t, {| t with state_ := kTlsHandshake; desired_events_ := POLL_OUT; error_ := [] |}) ;;
              sret true
            else if rc =? EINPROGRESS then
              upd (λ t, {| t with state_ := kTcpConnecting; desired_events_ := POLL_OUT; error_ := [] |}) ;;
              sret true
            else
              set_error (bs "connect() failed: " ++ p_strerror rc) ;;
              sys_close fd ;; upd (λ t, {| t with fd_ := -1 |}) ;;
              try_next_loop fuel
      end
  end.

Definition TryNextAddress : M bool :=
  t <- sget self ;;
  b <- try_next_loop (length (addresses_ t)) ;;
  if b then sret true
  else
    upd (λ t, if bool_decide (error_ t = [])
              then {| t with error_ := bs "no addresses to try" |} else t) ;;
    sret false.

(** [sizeof(sockaddr_storage)]. *)
Definition sockaddr_storage_size : Z := 128.

Definition StartConnect (host : bytes) (port : Z) (config : TlsConfig) : M bool :=
  t <- sget self ;;
  if negb (bool_decide (state_ t = kIdle))
  then Fail (bs "StartConnect called twice on the same TlsSocket") ;; sret false
  else
    upd (λ t, {| t with host_ := host |}) ;;
    b <- CreateSslContext config ;;
    if negb b then e <- sget (λ s, error_ (self s)) ;; Fail e ;; sret false
    else
      let port_str := to_string port in
      r <- env (p_getaddrinfo host port_str) ;;
      match r with
      | inl rc => Fail (bs "failed to resolve " ++ quoted host ++ bs ": " ++ p_gai_strerror rc) ;; sret false
      | inr result =>
          upd (λ t, {| t with addresses_ := addresses_ t ++
                         filter (λ a, ai_addrlen a <= sockaddr_storage_size) result |}) ;;
          t <- sget self ;;
          if bool_decide (addresses_ t = [])
          then Fail (bs "resolution of " ++ quoted host ++ bs " returned no usable addresses") ;; sret false
          else
            b <- TryNextAddress ;;
            if negb b then
              e <- sget (λ s, error_ (self s)) ;;
              Fail (bs "could not connect to " ++ quoted (host ++ bs ":" ++ port_str) ++ bs ": " ++ e) ;;
              sret false
            else sret true
      end.

(** Setting up [ssl_]; [None] when it succeeded. *)
Definition setup_ssl : M (option bytes) :=
  b <- ssl_call CallSslNew ;;
  upd (λ t, {| t with ssl_ := b |}) ;;
  if negb b then q <- SslErrorQueueString ;; sret (Some (bs "SSL_new failed: " ++ q))
  else
    t <- sget self ;;
    b <- ssl_call (CallSetFd (fd_ t)) ;;
    if negb b then q <- SslErrorQueueString ;; sret (Some (bs "SSL_set_fd failed: " ++ q))
    else if p_is_ip_literal (host_ t) then
      if verify_peer_ t then
        b <- ssl_call (CallSetVerifyIp (host_ t)) ;;
        if b then sret None
        else q <- SslErrorQueueString ;;
             sret (Some (bs "failed to set IP for certificate verification: " ++ q))
      else sret None
    else
      b <- ssl_call (CallSetSni (host_ t)) ;;
      if negb b then q <- SslErrorQueueString ;; sret (Some (bs "failed to set SNI host name: " ++ q))
      else if verify_peer_ t then
        b <- ssl_call (CallSetVerifyHost (host_ t)) ;;
        if b then sret None
        else q <- SslErrorQueueString ;;
             sret (Some (bs "failed to set verification host name: " ++ q))
      else sret None.

Definition alpn_refused : bytes := bs "server did not negotiate HTTP/2 via ALPN".

Definition handshake_detail (f : SslFailure) (queue : bytes) : bytes :=
  if negb (verify_result f =? 0) then
    bs "certificate verification failed: " ++ p_verify_error_string (verify_result f) ++
    bs " (" ++ queue ++ bs ")"
  else if ssl_error f =? SSL_ERROR_SYSCALL then
    if negb (saved_errno f =? 0) then bs "TLS handshake I/O error: " ++ p_strerror (saved_errno f)
    else bs "connection closed during TLS handshake"
  else queue.

(** The handshake on an [ssl_] that is set up. *)
Definition drive_handshake : M IoStatus :=
  note TrConnect ;;
  r <- env p_ssl_connect ;;
  match r with
  | inl _ =>
      proto <- sget (λ s, p_alpn_selected (plat s)) ;;
      if negb (bool_decide (proto = bs "h2")) then Fail alpn_refused
      else
        upd (λ t, {| t with alpn_ := proto; state_ := kConnected; desired_events_ := POLL_IN |}) ;;
        sret kOkIo
  | inr f =>
      if ssl_error f =? SSL_ERROR_WANT_READ
      then upd (λ t, {| t with desired_events_ := POLL_IN |}) ;; sret kWantRead
      else if ssl_error f =? SSL_ERROR_WANT_WRITE
      then upd (λ t, {| t with desired_events_ := POLL_OUT |}) ;; sret kWantWrite
      else if alpn_alert f then Fail alpn_refused
      else
        q <- SslErrorQueueString ;;
        t <- sget self ;;
        Fail (bs "TLS handshake with " ++ quoted (host_ t) ++ bs " failed: " ++ handshake_detail f q)
  end.

Definition ContinueTlsHandshake : M IoStatus :=
  t <- sget self ;;
  if ssl_ t then drive_handshake
  else
    e <- setup_ssl ;;
    match e with
    | Some message => Fail message
    | None => drive_handshake
    end.

Definition CheckTcpConnected : M IoStatus :=
  t <- sget self ;;
  so_error <- env (p_so_error (fd_ t)) ;;
  if negb (so_error =? 0) then
    set_error (bs "connect() failed: " ++ p_strerror so_error) ;;
    sys_close (fd_ t) ;; upd (λ t, {| t with fd_ := -1 |}) ;;
    b <- TryNextAddress ;;
    t <- sget self ;;
    if b then
      if bool_decide (state_ t = kTlsHandshake) then ContinueTlsHandshake else sret kWantWrite
    else Fail (bs "could not connect to " ++ quoted (host_ t) ++ bs ": " ++ error_ t)
  else
    upd (λ t, {| t with state_ := kTlsHandshake |}) ;;
    ContinueTlsHandshake.

Definition ContinueConnect : M IoStatus :=
  t <- sget self ;;
  match state_ t with
  | kTcpConnecting => CheckTcpConnected
  | kTlsHandshake => ContinueTlsHandshake
  | kConnected => sret kOkIo
  | _ =>
      upd (λ t, if bool_decide (error_ t = [])
                then {| t with error_ := bs "ContinueConnect on unconnected socket" |} else t) ;;
      sret kError
  end.

Definition MapSslError (f : SslFailure) (op : bytes) : M IoStatus :=
  if ssl_error f =? SSL_ERROR_WANT_READ then sret kWantRead
  else if ssl_error f =? SSL_ERROR_WANT_WRITE then sret kWantWrite
  else if ssl_error f =? SSL_ERROR_ZERO_RETURN then sret kEof
  else if ssl_error f =? SSL_ERROR_SYSCALL then
    set_error (if negb (saved_errno f =? 0) then op ++ bs " failed: " ++ p_strerror (saved_errno f)
               else op ++ bs " failed: connection closed abruptly by peer") ;;
    sret kError
  else q <- SslErrorQueueString ;; set_error (op ++ bs " failed: " ++ q) ;; sret kError.

Definition Read (len : Z) : M (IoStatus * bytes) :=
  t <- sget self ;;
  if negb (bool_decide (state_ t = kConnected))
  then set_error (bs "Read on socket that is not connected") ;; sret (kError, [])
  else
    r <- env (p_ssl_read len) ;;
    match r with
    | inl data => sret (kOkIo, data)
    | inr f => st <- MapSslError f (bs "SSL_read") ;; sret (st, [])
    end.

Definition Write (data : bytes) : M (IoStatus * Z) :=
  t <- sget self ;;
  if negb (bool_decide (state_ t = kConnected))
  then set_error (bs "Write on socket that is not connected") ;; sret (kError, 0)
  else
    r <- env (p_ssl_write data) ;;
    match r with
    | inl n => sret (kOkIo, n)
    | inr f => st <- MapSslError f (bs "SSL_write") ;; sret (st, 0)
    end.

Definition Close : M unit :=
  t <- sget self ;;
  (if ssl_ t then
     (if bool_decide (state_ t = kConnected) then env_ p_ssl_shutdown else sret tt) ;;
     env_ p_ssl_free ;; upd (λ t, {| t with ssl_ := false |})
   else sret tt) ;;
  (if ssl_ctx_ t then env_ p_ctx_free ;; upd (λ t, {| t with ssl_ctx_ := false |}) else sret tt) ;;
  (if 0 <=? fd_ t then sys_close (fd_ t) ;; upd (λ t, {| t with fd_ := -1 |}) else sret tt) ;;
  upd (λ t, {| t with state_ := if bool_decide (state_ t = kFailed) then kFailed else kClosed;
                      desired_events_ := 0 |}).

#[export] Instance tls_socket_ops : TlsSocketOps := {|
  socket_type := Sys;
  sock_StartConnect host port config := StartConnect host port config;
  sock_ContinueConnect := ContinueConnect;
  sock_DesiredPollEvents s := desired_events_ (self s);
  sock_Read := Read;
  sock_Write := Write;
  sock_Close s := (Close s).1;
  sock_fd s := fd_ (self s);
  sock_error s := error_ (self s);
|}.

#[export] Instance tls_socket_laws {TL : TlsPlatformLaws TP} : TlsSocketLaws tls_socket_ops.
Proof.
  split.
  - intros [[st fd ctx ssl h v e a d ad nx] pl tr]. simpl.
    unfold Close, sbind, sget, upd, smod, sys_close, env_, env, note, sret. simpl.
    by destruct ssl, ctx, (0 <=? fd), (bool_decide (st = kConnected)).
  - intros d s s' n Hd. simpl. unfold Write, sbind, sget, sret, set_error, upd, smod, env.
    destruct (negb _); [done|]. destruct (p_ssl_write d (plat s)) as [e' [m|f]] eqn:E.
    + intros [= <- <-]. by eapply p_ssl_write_some.
    + unfold MapSslError, SslErrorQueueString, sbind, sret, set_error, upd, smod, env.
      repeat case_match; naive_solver.
Qed.

End Methods.
End TlsSocket.
