(* ===== verification/TlsProperties.v ===== *)
(** * Properties of the TLS socket

    A weakest-precondition calculus for the methods of [TlsSocket.v], in which the
    platform may answer anything; the invariant of the object, its descriptor and its
    history over every sequence of calls; and what follows for the security of the
    connection and the ownership of the descriptor. *)

From Stdlib Require Import ZArith Lia.
From Stdlib Require Import Strings.String Strings.Byte.
From stdpp Require Import base numbers list relations.
From S2P Require Import Prelude TlsSocket.

Local Open Scope Z_scope.

Import TlsSocket.

(** ** Weakest preconditions *)

Section Wp.
Context `{TP : TlsPlatform}.
Abbreviation M := (SM Sys).

Definition wp {A : Type} (m : M A) (Q : A → Sys → Prop) (s : Sys) : Prop := Q (m s).2 (m s).1.

Lemma wp_ret {A} (a : A) Q s : Q a s → wp (sret a) Q s.
Proof. done. Qed.

Lemma wp_bind {A B} (m : M A) (k : A → M B) Q s : wp m (λ a s', wp (k a) Q s') s → wp (sbind m k) Q s.
Proof. unfold wp, sbind. by destruct (m s) as [s' a]. Qed.

Lemma wp_mono {A} (m : M A) (Q Q' : A → Sys → Prop) s :
  wp m Q s → (∀ a s', Q a s' → Q' a s') → wp m Q' s.
Proof. intros H HQ. apply HQ, H. Qed.

Lemma wp_sget {A} (f : Sys → A) Q s : Q (f s) s → wp (sget f) Q s.
Proof. done. Qed.

Lemma wp_upd f Q s : Q tt {| s with self := f (self s) |} → wp (upd f) Q s.
Proof. done. Qed.

Lemma wp_note x Q s : Q tt {| s with trace := trace s ++ [x] |} → wp (note x) Q s.
Proof. done. Qed.

Lemma wp_env {A} (f : penv → penv * A) Q s :
  (∀ a e, Q a {| s with plat := e |}) → wp (env f) Q s.
Proof. intros H. unfold wp, env. destruct (f (plat s)) as [e a]. apply H. Qed.

Lemma wp_ssl_call c Q s :
  (∀ b e, Q b {| s with plat := e; trace := trace s ++ [TrSsl c b] |}) → wp (ssl_call c) Q s.
Proof. intros H. unfold wp, ssl_call, sbind, env. destruct (p_ssl_call c (plat s)) as [e b]. apply H. Qed.

Lemma wp_set_verify b Q s :
  (∀ e, Q tt {| s with plat := e; trace := trace s ++ [TrSetVerify b] |}) → wp (set_verify b) Q s.
Proof. intros H. apply H. Qed.

Lemma wp_sys_close fd Q s :
  (∀ e, Q tt {| s with plat := e; trace := trace s ++ [TrClose fd] |}) → wp (sys_close fd) Q s.
Proof. intros H. apply H. Qed.

Lemma wp_error_queue Q s : (∀ q e, Q q {| s with plat := e |}) → wp SslErrorQueueString Q s.
Proof. intros H. apply wp_bind, wp_env. intros q e. apply wp_ret, H. Qed.

Lemma wp_if {A} (b : bool) (m1 m2 : M A) Q s :
  (b = true → wp m1 Q s) → (b = false → wp m2 Q s) → wp (if b then m1 else m2) Q s.
Proof. destruct b; auto. Qed.

End Wp.

(** One step through a method; conditions become hypotheses. *)
Ltac wp_step :=
  lazymatch goal with
  | |- wp (sret _) _ _ => apply wp_ret
  | |- wp (sbind _ _) _ _ => apply wp_bind
  | |- wp (sget _) _ _ => apply wp_sget
  | |- wp (upd _) _ _ => apply wp_upd
  | |- wp (set_error _) _ _ => apply wp_upd
  | |- wp (note _) _ _ => apply wp_note
  | |- wp (env_ _) _ _ => apply wp_env; intros ? ?
  | |- wp (env _) _ _ => apply wp_env; intros ? ?
  | |- wp (ssl_call _) _ _ => apply wp_ssl_call; intros ? ?
  | |- wp (set_verify _) _ _ => apply wp_set_verify; intros ?
  | |- wp (sys_close _) _ _ => apply wp_sys_close; intros ?
  | |- wp SslErrorQueueString _ _ => apply wp_error_queue; intros ? ?
  | |- wp (if _ then _ else _) _ _ => apply wp_if; intros ?
  | |- wp (ssl_require _ _ _) _ _ => unfold ssl_require
  | |- wp (fail_with _) _ _ => unfold fail_with
  | |- wp (let _ := _ in _) _ _ => cbv zeta
  | |- wp (match ?x with _ => _ end) _ _ => destruct x eqn:?
  end; cbn [self plat trace state_ fd_ ssl_ctx_ ssl_ host_ verify_peer_ error_ alpn_ desired_events_
            addresses_ next_address_] in *.

Ltac wp_steps := repeat wp_step.

(** ** Histories *)

(** The descriptors a history leaves open. *)
Definition fds (tr : list Tr) : list Z :=
  foldl (λ l x, match x with
                | TrOpen fd _ => fd :: l
                | TrClose fd => filter (λ d, d ≠ fd) l
                | _ => l
                end) [] tr.

(** The addresses a history connects to, in order. *)
Definition dialled (tr : list Tr) : list Address :=
  omap (λ x, match x with TrOpen _ a => Some a | _ => None end) tr.

(** The context requires TLS 1.2, offers only h2 and verifies the peer. *)
Definition ctx_secure (tr : list Tr) : Prop :=
  TrSsl CallSetMinProto true ∈ tr ∧ TrSsl (CallSetAlpn kAlpnH2) true ∈ tr ∧ TrSetVerify true ∈ tr.

(** The certificate is checked against the host the channel was given. *)
Definition host_checked (host : bytes) (tr : list Tr) : Prop :=
  TrSsl (CallSetVerifyHost host) true ∈ tr ∨ TrSsl (CallSetVerifyIp host) true ∈ tr.

(** Every handshake starts after all of it. *)
Definition guarded (host : bytes) (tr : list Tr) : Prop :=
  ∀ pre post, tr = pre ++ TrConnect :: post → ctx_secure pre ∧ host_checked host pre.

Lemma guarded_snoc host tr x :
  guarded host tr → (x = TrConnect → ctx_secure tr ∧ host_checked host tr) → guarded host (tr ++ [x]).
Proof.
  intros Hg Hx pre post. destruct post as [|y post _] using rev_ind.
  - intros [-> ->]%app_inj_tail. by apply Hx.
  - rewrite app_comm_cons, app_assoc. intros [-> ->]%app_inj_tail. by eapply Hg.
Qed.

Lemma ctx_secure_snoc tr x : ctx_secure tr → ctx_secure (tr ++ [x]).
Proof. unfold ctx_secure. set_solver. Qed.

Lemma host_checked_snoc host tr x : host_checked host tr → host_checked host (tr ++ [x]).
Proof. unfold host_checked. set_solver. Qed.

Lemma fds_snoc tr x :
  fds (tr ++ [x]) =
    match x with
    | TrOpen fd _ => fd :: fds tr
    | TrClose fd => filter (λ d, d ≠ fd) (fds tr)
    | _ => fds tr
    end.
Proof. unfold fds. by rewrite foldl_app. Qed.

Lemma dialled_snoc tr x :
  dialled (tr ++ [x]) = dialled tr ++ match x with TrOpen _ a => [a] | _ => [] end.
Proof. unfold dialled. rewrite omap_app. by destruct x. Qed.

(** ** The invariant *)

Section Invariant.
Context `{TP : TlsPlatform} (host : bytes) (config : TlsConfig).
Implicit Types s : Sys.

Abbreviation secure := (insecure_skip_verify_for_testing_only config = false).

(** What the history says in every state, of the descriptor and the addresses. *)
Record hist (tr : list Tr) (fd : Z) (next : nat) (addresses : list Address) : Prop := {
  hist_guarded : secure → guarded host tr;
  hist_verify : secure → TrSetVerify false ∉ tr;
  hist_fds : fds tr = if 0 <=? fd then [fd] else [];
  hist_dialled : dialled tr `sublist_of` take next addresses;
}.

Definition history s : Prop :=
  hist (trace s) (fd_ (self s)) (next_address_ (self s)) (addresses_ (self s)).

(** The context is set up. *)
Record sec (tr : list Tr) (ctx : bool) (h : bytes) (verify : bool) : Prop := {
  sec_ctx : ctx = true;
  sec_host : h = host;
  sec_verify : secure → verify = true ∧ ctx_secure tr;
}.

Definition secured s : Prop :=
  sec (trace s) (ssl_ctx_ (self s)) (host_ (self s)) (verify_peer_ (self s)).

Definition checked (tr : list Tr) : Prop := secure → host_checked host tr.

Definition live (st : State) : bool :=
  match st with kTcpConnecting | kTlsHandshake | kConnected => true | _ => false end.

Record sock_inv s : Prop := {
  inv_history : history s;
  inv_started : state_ (self s) ≠ kIdle;
  inv_live : live (state_ (self s)) = true →
    secured s ∧ 0 <= fd_ (self s) ∧ (ssl_ (self s) = true → checked (trace s));
  inv_tcp : state_ (self s) = kTcpConnecting → ssl_ (self s) = false;
  inv_connected : state_ (self s) = kConnected →
    alpn_ (self s) = bs "h2" ∧ ssl_ (self s) = true ∧ TrConnect ∈ trace s;
  inv_dead : live (state_ (self s)) = false →
    fd_ (self s) < 0 ∧ ssl_ (self s) = false ∧ ssl_ctx_ (self s) = false;
}.

Lemma hist_nil : hist [] (-1) 0 [].
Proof. split; try done; intros _; [by intros [|? pre] post|apply not_elem_of_nil]. Qed.

(** A step of the history that opens and closes nothing. *)
Lemma hist_snoc tr fd n a x :
  hist tr fd n a → match x with TrOpen _ _ | TrClose _ => False | _ => True end →
  (secure → x ≠ TrSetVerify false) →
  (x = TrConnect → secure → ctx_secure tr ∧ host_checked host tr) → hist (tr ++ [x]) fd n a.
Proof.
  intros [H1 H2 H3 H4] Hx Hv Hc. split; rewrite ?fds_snoc, ?dialled_snoc.
  - intros Hs. apply guarded_snoc; [by apply H1|]. intros ->. by apply Hc.
  - intros Hs. specialize (H2 Hs). specialize (Hv Hs). set_solver.
  - by destruct x.
  - destruct x; rewrite ?app_nil_r; done.
Qed.

Lemma hist_call tr fd n a c b : hist tr fd n a → hist (tr ++ [TrSsl c b]) fd n a.
Proof. intros H. by apply hist_snoc. Qed.

Lemma hist_set_verify tr fd n a b :
  hist tr fd n a → (secure → b = true) → hist (tr ++ [TrSetVerify b]) fd n a.
Proof. intros H Hb. apply hist_snoc; [done..| |done]. intros Hs [= ->]. by specialize (Hb Hs). Qed.

Lemma hist_close tr fd n a : hist tr fd n a → 0 <= fd → hist (tr ++ [TrClose fd]) (-1) n a.
Proof.
  intros [H1 H2 H3 H4] Hfd. split; rewrite ?fds_snoc, ?dialled_snoc, ?app_nil_r; [..|done].
  - intros Hs. apply guarded_snoc; [by apply H1|done].
  - intros Hs. specialize (H2 Hs). set_solver.
  - rewrite H3. case_test; [|lia]. by rewrite filter_cons_False by (by intros []).
Qed.

Lemma hist_open tr fd n a fd' addr :
  hist tr fd n a → fd < 0 → 0 <= fd' → a !! n = Some addr →
  hist (tr ++ [TrOpen fd' addr]) fd' (S n) a.
Proof.
  intros [H1 H2 H3 H4] Hfd Hfd' Ha. split; rewrite ?fds_snoc, ?dialled_snoc.
  - intros Hs. apply guarded_snoc; [by apply H1|done].
  - intros Hs. specialize (H2 Hs). set_solver.
  - rewrite H3. destruct (Z.leb_spec 0 fd), (Z.leb_spec 0 fd'); done || lia.
  - erewrite take_S_r by done. by apply sublist_app.
Qed.

(** No descriptor: any negative number will do, and more addresses are as good. *)
Lemma hist_closed tr fd fd' n n' a l :
  hist tr fd n a → fd < 0 → fd' < 0 → (n <= n')%nat → hist tr fd' n' (a ++ l).
Proof.
  intros [H1 H2 H3 H4] Hfd Hfd' Hn. split; [done..| |].
  - rewrite H3. destruct (Z.leb_spec 0 fd), (Z.leb_spec 0 fd'); done || lia.
  - etrans; [done|]. rewrite take_app. apply sublist_inserts_r.
    rewrite <- (Nat.min_l n n' Hn), <- take_take. apply sublist_take.
Qed.

Lemma sec_snoc tr c h v x : sec tr c h v → sec (tr ++ [x]) c h v.
Proof.
  intros [? ? Hv]. split; [done..|]. intros Hs. destruct (Hv Hs). split; [done|]. by apply ctx_secure_snoc.
Qed.

Lemma checked_snoc tr x : checked tr → checked (tr ++ [x]).
Proof. intros H Hs. by apply host_checked_snoc, H. Qed.

(** A dead object. *)
Lemma dead_inv s :
  history s → state_ (self s) = kFailed ∨ state_ (self s) = kClosed → fd_ (self s) < 0 →
  ssl_ (self s) = false → ssl_ctx_ (self s) = false → sock_inv s.
Proof. intros Hh Hs Hfd Hssl Hctx. split; destruct Hs as [Hs|Hs]; rewrite ?Hs; done. Qed.

(** *** [Fail] and [Close] *)

(** The history after the steps of a straight line. *)
Ltac hist_tac :=
  unfold history, secured in *; cbn [self plat trace state_ fd_ ssl_ctx_ ssl_ host_ verify_peer_ error_ alpn_
    desired_events_ addresses_ next_address_] in *;
  repeat first [assumption | apply hist_call | apply hist_close | apply sec_snoc | apply checked_snoc | lia].

Ltac simplify_tests :=
  repeat match goal with
  | H : negb _ = true |- _ => apply negb_true_iff in H
  | H : negb _ = false |- _ => apply negb_false_iff in H
  | H : (_ <? _) = true |- _ => apply Z.ltb_lt in H
  | H : (_ <? _) = false |- _ => apply Z.ltb_ge in H
  | H : bool_decide _ = true |- _ => apply bool_decide_eq_true in H
  | H : bool_decide _ = false |- _ => apply bool_decide_eq_false in H
  end; subst.

Lemma Fail_spec m s :
  history s → wp (Fail m) (λ r s', sock_inv s' ∧ r = kError ∧ state_ (self s') = kFailed) s.
Proof.
  intros Hh. unfold Fail. wp_steps; (split; [|done]); apply dead_inv; cbn; auto with lia; hist_tac.
Qed.

Lemma Close_spec s :
  history s →
  wp Close (λ _ s', sock_inv s' ∧ live (state_ (self s')) = false) s.
Proof.
  intros Hh. unfold Close. wp_steps; destruct (bool_decide (state_ (self s) = kFailed));
    (split; [apply dead_inv|]); cbn; auto with lia; hist_tac.
Qed.

(** *** The context *)

Lemma CreateSslContext_spec s :
  history s → host_ (self s) = host →
  wp (CreateSslContext config)
    (λ b s', history s' ∧ (b = true → secured s') ∧
       state_ (self s') = state_ (self s) ∧ fd_ (self s') = fd_ (self s) ∧ ssl_ (self s') = ssl_ (self s) ∧
       addresses_ (self s') = addresses_ (self s) ∧ next_address_ (self s') = next_address_ (self s)) s.
Proof.
  intros Hh Hhost. unfold CreateSslContext, load_trust, load_client_identity.
  wp_steps; split_and!; try done; simplify_tests.
  all: try (hist_tac; apply hist_set_verify; hist_tac; intros Hs; congruence).
  all: intros _; split; cbn; [done..|]; intros Hs; rewrite Hs in *; try done.
  all: split; [done|]; unfold ctx_secure; set_solver.
Qed.

(** *** Addresses *)

(** The object between two attempts, and after one that may succeed. *)
Definition between (st : State) s : Prop :=
  history s ∧ secured s ∧ fd_ (self s) < 0 ∧ ssl_ (self s) = false ∧ state_ (self s) = st.

Definition dialling s : Prop :=
  history s ∧ secured s ∧ 0 <= fd_ (self s) ∧ ssl_ (self s) = false ∧
  (state_ (self s) = kTlsHandshake ∨ state_ (self s) = kTcpConnecting) ∧
  desired_events_ (self s) = POLL_OUT.

Lemma try_next_loop_spec fuel st s :
  between st s → wp (try_next_loop fuel) (λ b s', if b then dialling s' else between st s') s.
Proof.
  revert s. induction fuel as [|fuel IH]; intros s Hs; cbn [try_next_loop]; [by wp_steps|].
  destruct Hs as (Hh & Hsec & Hfd & Hssl & Hst). unfold history in *. wp_steps; simplify_tests.
  - apply IH. split_and!; try done. cbn. rewrite <- (app_nil_r (addresses_ _)).
    apply (hist_closed _ (fd_ (self s)) _ (next_address_ (self s))); cbn; done || lia.
  - split_and!; try done; [by eapply hist_open|hist_tac|cbn; auto].
  - split_and!; try done; [by eapply hist_open|hist_tac|cbn; auto].
  - apply IH. split_and!; try done; [|hist_tac]. apply hist_close; [|done]. by eapply hist_open.
  - by split_and!.
Qed.

Lemma TryNextAddress_spec st s :
  between st s → wp TryNextAddress (λ b s', if b then dialling s' else between st s') s.
Proof.
  intros Hs. unfold TryNextAddress. do 2 (apply wp_bind; try apply wp_sget).
  eapply wp_mono; [by apply try_next_loop_spec|]. intros [|] s' Hs'; wp_steps; [done|].
  destruct Hs' as (? & ? & ? & ? & ?). case_bool_decide; by split_and!.
Qed.

(** *** The handshake *)

Lemma setup_ssl_spec s :
  history s → secured s →
  wp setup_ssl (λ o s', history s' ∧ (o = None → secured s' ∧ ssl_ (self s') = true ∧ checked (trace s')) ∧
    state_ (self s') = state_ (self s) ∧ fd_ (self s') = fd_ (self s)) s.
Proof.
  intros Hh Hsec. pose proof Hsec as [_ Hhost Hv]. unfold setup_ssl.
  wp_steps; simplify_tests; split_and!; try done; try hist_tac.
  all: intros _; split_and!; [hist_tac|done|].
  all: intros Hs; destruct (Hv Hs) as [? _]; try congruence; rewrite Hhost;
    clear; unfold host_checked; set_solver.
Qed.

(** What a status promises the poll loop. *)
Definition progress (r : IoStatus) (t : TlsSocket) : Prop :=
  match r with
  | kOkIo => state_ t = kConnected
  | kWantRead => state_ t = kTlsHandshake ∧ desired_events_ t = POLL_IN
  | kWantWrite =>
      (state_ t = kTlsHandshake ∨ state_ t = kTcpConnecting) ∧ desired_events_ t = POLL_OUT
  | kEof => False
  | kError => live (state_ t) = false
  end.

Lemma Fail_progress m s : history s → wp (Fail m) (λ r s', sock_inv s' ∧ progress r (self s')) s.
Proof.
  intros Hh. eapply wp_mono; [by apply Fail_spec|]. intros r s' (? & -> & Hs). split; [done|].
  cbn. by rewrite Hs.
Qed.

Lemma drive_handshake_spec s :
  history s → secured s → ssl_ (self s) = true → checked (trace s) →
  state_ (self s) = kTlsHandshake → 0 <= fd_ (self s) →
  wp drive_handshake (λ r s', sock_inv s' ∧ progress r (self s')) s.
Proof.
  intros Hh Hsec Hssl Hck Hst Hfd. unfold drive_handshake.
  assert (Hh' : hist (trace s ++ [TrConnect]) (fd_ (self s)) (next_address_ (self s)) (addresses_ (self s))).
  { apply hist_snoc; [done..|]. intros _ Hs. split; [|by apply Hck]. by apply (sec_verify _ _ _ _ Hsec). }
  pose proof (sec_snoc _ _ _ _ TrConnect Hsec) as Hsec'. pose proof (checked_snoc _ TrConnect Hck) as Hck'.
  wp_steps; simplify_tests; try (apply Fail_progress; done).
  all: split; [split; cbn; rewrite ?Hst; try done|by cbn; auto].
  intros _. split_and!; try done. set_solver.
Qed.

Lemma ContinueTlsHandshake_spec s :
  sock_inv s → state_ (self s) = kTlsHandshake →
  wp ContinueTlsHandshake (λ r s', sock_inv s' ∧ progress r (self s')) s.
Proof.
  intros Hinv Hst. destruct (inv_live s Hinv) as (Hsec & Hfd & Hck); [by rewrite Hst|].
  pose proof (inv_history s Hinv) as Hh. unfold ContinueTlsHandshake. wp_steps.
  - apply drive_handshake_spec; auto.
  - eapply wp_mono; [by apply setup_ssl_spec|]. intros o s' (Hh' & Ho & Hst' & Hfd').
    destruct o as [m|]; [by apply Fail_progress|]. destruct (Ho eq_refl) as (? & ? & ?).
    apply drive_handshake_spec; congruence || done.
Qed.

Lemma dialling_inv s : dialling s → sock_inv s.
Proof.
  intros (Hh & Hsec & Hfd & Hssl & Hst & _). split; try done; destruct Hst as [Hst|Hst]; rewrite ?Hst; try done;
    intros _; split_and!; try done; congruence.
Qed.

Lemma CheckTcpConnected_spec s :
  sock_inv s → state_ (self s) = kTcpConnecting →
  wp CheckTcpConnected (λ r s', sock_inv s' ∧ progress r (self s')) s.
Proof.
  intros Hinv Hst. destruct (inv_live s Hinv) as (Hsec & Hfd & Hck); [by rewrite Hst|].
  pose proof (inv_history s Hinv) as Hh. pose proof (inv_tcp s Hinv Hst) as Hssl.
  unfold CheckTcpConnected. apply wp_bind, wp_sget, wp_bind, wp_env. intros so_error e. apply wp_if; intros _.
  - wp_steps.
    eapply wp_mono; [apply (TryNextAddress_spec kTcpConnecting); split_and!; try done; hist_tac|].
    intros [|] s' Hs'; wp_steps.
    + apply ContinueTlsHandshake_spec; [by apply dialling_inv|by simplify_tests].
    + split; [by apply dialling_inv|]. simplify_tests. destruct Hs' as (_ & _ & _ & _ & [?|?] & ?); [done|].
      split; [by right|done].
    + apply Fail_progress, Hs'.
  - wp_steps. apply ContinueTlsHandshake_spec; [|done].
    by split.
Qed.

Lemma ContinueConnect_spec s :
  sock_inv s → wp ContinueConnect (λ r s', sock_inv s' ∧ progress r (self s')) s.
Proof.
  intros Hinv. unfold ContinueConnect. wp_step. wp_step.
  assert (Hdead : live (state_ (self s)) = false →
    wp (sbind (upd (λ t, if bool_decide (error_ t = [])
                then {| t with error_ := bs "ContinueConnect on unconnected socket" |} else t)) (λ _, sret kError))
      (λ r s', sock_inv s' ∧ progress r (self s')) s).
  { intros Hl. wp_steps. case_bool_decide; (split; [|done]); [|by destruct s].
    destruct Hinv as [? ? ? ? ? ?]. by split. }
  destruct (state_ (self s)) eqn:Hst; try by apply Hdead.
  - by apply CheckTcpConnected_spec.
  - by apply ContinueTlsHandshake_spec.
  - wp_steps. by split.
Qed.

(** *** Data *)

Lemma MapSslError_spec f op s :
  wp (MapSslError f op) (λ r s', r ≠ kOkIo ∧ trace s' = trace s ∧ ∃ e, self s' = {| (self s) with error_ := e |}) s.
Proof.
  unfold MapSslError. wp_steps; (split_and!; [done..|]); eauto; exists (error_ (self s)); by destruct (self s).
Qed.

(** A change of the error text alone. *)
Lemma inv_error s s' e :
  sock_inv s → trace s' = trace s → self s' = {| (self s) with error_ := e |} → sock_inv s'.
Proof.
  intros [? ? ? ? ? ?] Ht Hs. destruct s' as [t p tr]. cbn in *. subst. by split.
Qed.

(** Reading and writing leave everything but the error text. *)
Definition same_but_error s s' : Prop :=
  trace s' = trace s ∧ ∃ e, self s' = {| (self s) with error_ := e |}.

Lemma same_but_error_plat s e : same_but_error s {| s with plat := e |}.
Proof. split; [done|]. exists (error_ (self s)). by destruct s as [[] ? ?]. Qed.

Lemma Read_frame len s : wp (Read len) (λ _ s', same_but_error s s') s.
Proof.
  unfold Read. wp_steps; [split; [done|by eexists]|apply same_but_error_plat|].
  eapply wp_mono; [apply MapSslError_spec|]. intros r s' (_ & Ht & e' & Hs). wp_steps. split; [done|by eexists].
Qed.

Lemma Write_frame d s : wp (Write d) (λ _ s', same_but_error s s') s.
Proof.
  unfold Write. wp_steps; [split; [done|by eexists]|apply same_but_error_plat|].
  eapply wp_mono; [apply MapSslError_spec|]. intros r s' (_ & Ht & e' & Hs). wp_steps. split; [done|by eexists].
Qed.

Lemma same_but_error_inv s s' : same_but_error s s' → sock_inv s → sock_inv s'.
Proof. intros (Ht & e & Hs) Hi. by eapply inv_error. Qed.

(** *** [StartConnect] *)

(** Called again, it only fails. *)
Lemma StartConnect_again h port cfg s :
  sock_inv s → wp (StartConnect h port cfg) (λ b s', b = false ∧ sock_inv s' ∧ live (state_ (self s')) = false) s.
Proof.
  intros Hinv. unfold StartConnect. wp_steps; simplify_tests; [|by destruct (inv_started s Hinv)].
  eapply wp_mono; [by apply Fail_spec, inv_history|]. intros r s' (? & _ & Hs). wp_steps.
  split_and!; [done..|by rewrite Hs].
Qed.

(** The connection is being set up and the direction to poll for is known. *)
Definition under_way (t : TlsSocket) : Prop :=
  (state_ t = kTlsHandshake ∨ state_ t = kTcpConnecting) ∧
  (desired_events_ t = POLL_IN ∨ desired_events_ t = POLL_OUT).

Definition started (b : bool) s : Prop :=
  sock_inv s ∧ live (state_ (self s)) = b ∧ (b = true → under_way (self s)).

Lemma start_refused m s : history s → wp (sbind (Fail m) (λ _, sret false)) started s.
Proof.
  intros Hh. apply wp_bind. eapply wp_mono; [by apply Fail_spec|]. intros r s' (? & _ & Hs). wp_steps.
  split_and!; [done|by rewrite Hs|done].
Qed.

Lemma StartConnect_spec port e :
  wp (StartConnect host port config) started
    {| self := new_socket; plat := e; trace := [] |}.
Proof.
  unfold StartConnect. wp_steps; [done|].
  eapply wp_mono; [apply CreateSslContext_spec; [apply hist_nil|done]|].
  intros b s (Hh & Hsec & Hst & Hfd & Hssl & Had & Hnx). cbn in Hst, Hfd, Hssl, Had, Hnx.
  destruct b; cbn [negb]; [specialize (Hsec eq_refl)|wp_step; wp_step; by apply start_refused].
  wp_step. wp_step. destruct a as [rc|result]; [by apply start_refused|].
  wp_step. wp_step. wp_step. wp_step. rewrite Had. cbn [app].
  assert (Hh' : hist (trace s) (fd_ (self s)) (next_address_ (self s))
                  (filter (λ a, ai_addrlen a <= sockaddr_storage_size) result)).
  { unfold history in Hh. rewrite Had in Hh. apply (hist_closed _ _ _ _ _ [] _ Hh); rewrite ?Hfd; lia. }
  wp_step; [by apply start_refused|]. wp_step.
  eapply wp_mono; [apply (TryNextAddress_spec kIdle); split_and!; try done; cbn; lia|].
  intros [|] s' Hs'; cbn [negb].
  - wp_steps. split; [by apply dialling_inv|]. destruct Hs' as (_ & _ & _ & _ & Hst' & Hev).
    split; [by destruct Hst' as [-> | ->]|]. split; [done|by right].
  - wp_step. wp_step. apply start_refused, Hs'.
Qed.

End Invariant.

(** ** Properties *)

Section Properties.
Context `{TP : TlsPlatform}.

(** The calls of the socket's owner after the first [StartConnect]. *)
Inductive sock_step (s : Sys) : Sys → Prop :=
  | step_continue : sock_step s (ContinueConnect s).1
  | step_read len : sock_step s (Read len s).1
  | step_write data : sock_step s (Write data s).1
  | step_close : sock_step s (Close s).1
  | step_start host port config : sock_step s (StartConnect host port config s).1.

Definition sock_start (host : bytes) (port : Z) (config : TlsConfig) (e : penv) : Sys :=
  (StartConnect host port config {| self := new_socket; plat := e; trace := [] |}).1.

Definition sock_run (host : bytes) (port : Z) (config : TlsConfig) (e : penv) : Sys → Prop :=
  rtc sock_step (sock_start host port config e).

Lemma sock_run_start host port config e : sock_run host port config e (sock_start host port config e).
Proof. apply rtc_refl. Qed.

Lemma sock_run_continue host port config e s :
  sock_run host port config e s → sock_run host port config e (ContinueConnect s).1.
Proof. intros H. eapply rtc_r; [exact H|]. apply step_continue. Qed.

Lemma sock_run_inv host port config e s : sock_run host port config e s → sock_inv host config s.
Proof.
  assert (Hstep : ∀ s1 s2, sock_step s1 s2 → sock_inv host config s1 → sock_inv host config s2).
  { intros s1 s2 [|len|d| |h p cfg] Hi.
    - apply (ContinueConnect_spec host config s1 Hi).
    - apply (same_but_error_inv host config s1 _ (Read_frame len s1) Hi).
    - apply (same_but_error_inv host config s1 _ (Write_frame d s1) Hi).
    - apply (Close_spec host config s1 (inv_history _ _ _ Hi)).
    - apply (StartConnect_again host config h p cfg s1 Hi). }
  unfold sock_run. pose proof (StartConnect_spec host config port e) as [H0 _].
  fold (sock_start host port config e) in H0. generalize dependent (sock_start host port config e).
  intros s0 H0 Hrun. induction Hrun as [s1|s1 s2 s3 H12 _ IH]; [done|]. by apply IH, (Hstep s1).
Qed.

(** Unless verification is switched off in the configuration, no TLS handshake ever
    starts unprotected: before every handshake, whichever address it goes to and
    whatever was called in between, the context was limited to TLS 1.2 and h2, peer
    verification was switched on (and is never switched off) and the certificate check
    was bound to the host name or address the owner asked for; and a connected socket
    has negotiated h2. *)
Theorem handshakes_verify_peer (host : bytes) (port : Z) (config : TlsConfig) (e : penv) (s : Sys) :
  insecure_skip_verify_for_testing_only config = false → sock_run host port config e s →
  (∀ pre post, trace s = pre ++ TrConnect :: post → ctx_secure pre ∧ host_checked host pre) ∧
  (TrSetVerify false ∉ trace s) ∧
  (state_ (self s) = kConnected → alpn_ (self s) = bs "h2" ∧ TrConnect ∈ trace s).
Proof.
  intros Hsec Hrun. apply sock_run_inv in Hrun as [[Hg Hv _ _] _ _ _ Hc _]. split_and!; [by apply Hg|by apply Hv|].
  intros Hs. destruct (Hc Hs) as (? & _ & ?). done.
Qed.

(** The socket owns exactly its descriptor: after any calls the descriptors it has
    opened and not closed are [fd_] alone when there is one and none otherwise, a
    connecting or connected socket has one, a failed or closed one has none and has
    freed its TLS objects; and the resolved addresses are dialled in their order, each
    at most once. *)
Theorem socket_owns_one_descriptor (host : bytes) (port : Z) (config : TlsConfig) (e : penv) (s : Sys) :
  sock_run host port config e s →
  fds (trace s) = (if 0 <=? fd_ (self s) then [fd_ (self s)] else []) ∧
  (if live (state_ (self s)) then 0 <= fd_ (self s)
   else fds (trace s) = [] ∧ ssl_ (self s) = false ∧ ssl_ctx_ (self s) = false) ∧
  dialled (trace s) `sublist_of` addresses_ (self s).
Proof.
  intros Hrun. apply sock_run_inv in Hrun as [[_ _ Hf Hd] _ Hl _ _ Hdead]. split_and!; [done| |].
  - destruct (live _); [by apply Hl|]. destruct (Hdead eq_refl) as (Hneg & ? & ?).
    split_and!; [|done..]. rewrite Hf. by case_test; [lia|].
  - etrans; [done|]. apply sublist_take.
Qed.

(** Every answer of [ContinueConnect] tells the poll loop the truth: success means
    connected, "want read" or "want write" means the handshake or the TCP connect is
    still under way and the descriptor to poll is open and polled for that direction,
    and an error means the socket is dead and holds nothing. *)
Theorem ContinueConnect_poll_contract (host : bytes) (port : Z) (config : TlsConfig) (e : penv) (s : Sys) :
  sock_run host port config e s →
  let '(s', r) := ContinueConnect s in
  match r with
  | kOkIo => state_ (self s') = kConnected
  | kWantRead => state_ (self s') = kTlsHandshake ∧ desired_events_ (self s') = POLL_IN ∧ 0 <= fd_ (self s')
  | kWantWrite =>
      (state_ (self s') = kTlsHandshake ∨ state_ (self s') = kTcpConnecting) ∧
      desired_events_ (self s') = POLL_OUT ∧ 0 <= fd_ (self s')
  | kEof => False
  | kError => live (state_ (self s')) = false ∧ fds (trace s') = []
  end.
Proof.
  intros Hrun. apply sock_run_inv in Hrun. destruct (ContinueConnect_spec host config s Hrun) as [Hi Hp].
  destruct (ContinueConnect s) as [s' r]. simpl in Hi, Hp. destruct Hi as [[_ _ Hf _] _ Hl _ _ Hd].
  destruct r; simpl in Hp; try done.
  - destruct Hp as [Hs ?]. rewrite Hs in Hl. split_and!; [done..|]. by apply Hl.
  - destruct Hp as [Hs ?]. split_and!; [done..|]. apply Hl. by destruct Hs as [-> | ->].
  - split; [done|]. rewrite Hf. destruct (Hd Hp) as (? & _). by case_test; [lia|].
Qed.

End Properties.

(** ** Witnesses *)

Section Witnesses.

(** A platform on which the first of two addresses refuses and the second connects;
    the environment counts the calls that answer differently each time. *)
Definition ex_addr (n : byte) : Address := {| sa_family := 2; ai_addrlen := 16; sa_data := [n] |}.

Definition ex_platform : TlsPlatform := {|
  penv := Z;
  p_ssl_call _ e := (e, true);
  p_set_verify _ e := e;
  p_add_certs _ e := (e, [true]);
  p_error_queue e := (e, []);
  p_getaddrinfo _ _ e := (e, inr [ex_addr x01; ex_addr x02]);
  p_socket _ e := (e + 1, (5 + e, 0));
  p_connect _ _ e := (e, EINPROGRESS);
  p_so_error _ e := (e, if e =? 1 then 111 else 0);
  p_close _ e := e;
  p_ssl_connect e := (e + 1, if e =? 2 then inr {| ssl_error := SSL_ERROR_WANT_READ; saved_errno := 0;
                                                   alpn_alert := false; verify_result := 0 |} else inl tt);
  p_alpn_selected _ := bs "h2";
  p_ssl_read _ e := (e, inl []);
  p_ssl_write d e := (e, inl (zlen d));
  p_ssl_shutdown e := e;
  p_ssl_free e := e;
  p_ctx_free e := e;
  p_is_ip_literal _ := false;
  p_strerror _ := bs "refused";
  p_gai_strerror _ := bs "unknown";
  p_verify_error_string _ := bs "bad";
|}.

Local Existing Instance ex_platform.

Definition ex_config : TlsConfig :=
  {| ca_bundle_path := []; ca_bundle_pem := []; client_cert_path := []; client_key_path := [];
     insecure_skip_verify_for_testing_only := false |}.

Definition ex_started : Sys := sock_start (bs "example.org") 443 ex_config (0 : penv).
Definition ex_second : Sys := (ContinueConnect ex_started).1.
Definition ex_third : Sys := (ContinueConnect ex_second).1.
Definition ex_connected : Sys := (ContinueConnect ex_third).1.

Lemma ex_second_run : sock_run (bs "example.org") 443 ex_config (0 : penv) ex_second.
Proof. exact (sock_run_continue _ _ _ _ ex_started (sock_run_start _ _ _ _)). Qed.

Lemma ex_connected_run : sock_run (bs "example.org") 443 ex_config (0 : penv) ex_connected.
Proof.
  exact (sock_run_continue _ _ _ _ ex_third (sock_run_continue _ _ _ _ ex_second ex_second_run)).
Qed.

Lemma handshakes_verify_peer_witness :
  alpn_ (self ex_connected) = bs "h2" ∧ TrConnect ∈ trace ex_connected.
Proof.
  destruct (handshakes_verify_peer (TP := ex_platform) (bs "example.org") 443 ex_config 0 ex_connected eq_refl ex_connected_run)
    as (_ & _ & H).
  apply H. vm_compute. reflexivity.
Defined.

Lemma socket_owns_one_descriptor_witness :
  fds (trace ex_connected) = [6] ∧ dialled (trace ex_connected) `sublist_of` addresses_ (self ex_connected).
Proof.
  destruct (socket_owns_one_descriptor (TP := ex_platform) (bs "example.org") 443 ex_config 0 ex_connected ex_connected_run)
    as (H1 & _ & H2).
  split; [rewrite H1; vm_compute; reflexivity|exact H2].
Defined.

Lemma ContinueConnect_poll_contract_witness : desired_events_ (self ex_third) = POLL_IN ∧ 0 <= fd_ (self ex_third).
Proof.
  pose proof (ContinueConnect_poll_contract (TP := ex_platform) (bs "example.org") 443 ex_config 0 ex_second ex_second_run) as H.
  assert (Hr : (ContinueConnect ex_second).2 = kWantRead) by (vm_compute; reflexivity). unfold ex_third.
  destruct (ContinueConnect ex_second) as [s' r]. cbn [fst snd] in *. subst r.
  destruct H as (_ & H1 & H2). split; assumption.
Defined.

End Witnesses.
