(* ===== verification/ChannelImpl.v ===== *)
(** * The channel ([src/core/channel_impl.h], [src/core/channel_impl.cc])

    The handlers the event thread runs, over the models of the event thread's owned
    state, the HTTP/2 session and the calls; the socket is the interface
    [TlsSocketOps].  Calls live in a store named by their pointers, shared by the
    channel, the stream hooks and the waiters.  The closures the channel hands to the
    loop are values of the types [Op], [Cb], [Ev] and [Rd], interpreted by [call_op],
    [call_cb], [call_ev] and [call_rd].

    [TearDown] takes its argument by reference: [Detail] says which string it refers
    to, and reading the session's error text after the session was destroyed is the
    outcome [UseAfterFree].  Loops that run until a socket would block take fuel. *)

From Stdlib Require Import ZArith Lia.
From Stdlib Require Import Strings.String Strings.Byte.
From stdpp Require Import base numbers list gmap.
From S2P Require Import Prelude GrpcWire StdHeap TimerHeap Wakeup EventThread Http2Session CallState TlsSocket.

Local Open Scope Z_scope.

(** ** Outcomes *)

Inductive Res (A : Type) : Type :=
  | Done (a : A)
  | UseAfterFree
  | NoFuel.
Arguments Done {A} a.
Arguments UseAfterFree {A}.
Arguments NoFuel {A}.

Definition rbind {A B : Type} (r : Res A) (k : A → Res B) : Res B :=
  match r with Done a => k a | UseAfterFree => UseAfterFree | NoFuel => NoFuel end.

Declare Scope res_scope.
Delimit Scope res_scope with res.

Notation "x <~ r ;; k" := (rbind r (λ x, k))
  (at level 100, r at next level, right associativity) : res_scope.

(** ** Configuration *)

Record ChannelOptions : Type := {
  http2 : Http2SessionOptions;
  max_receive_message_size : Z;
  max_send_message_size : Z;
  connect_timeout : Z;            (* milliseconds *)
  user_agent_prefix : bytes;
}.

Definition default_channel_options `{SizeT} : ChannelOptions :=
  {| http2 := default_http2_options; max_receive_message_size := 4 * 1024 * 1024;
     max_send_message_size := 2 ^ size_bits - 1; connect_timeout := 20000; user_agent_prefix := [] |}.

(** The [const] members. *)
Record ChannelConfig : Type := {
  host_ : bytes;
  port_ : Z;
  tls_ : TlsConfig;
  options_ : ChannelOptions;
}.

(** [authority_]: host:port, an IPv6 literal in brackets. *)
Definition authority_ (c : ChannelConfig) : bytes :=
  (if bool_decide (":"%byte ∈ host_ c) then bs "[" ++ host_ c ++ bs "]" else host_ c) ++
  bs ":" ++ to_string (port_ c).

Module ChannelImpl.
Import EventThread.

Inductive State : Type := kIdle | kConnecting | kReady | kFailed | kShutdown.

#[export] Instance State_eq_decision : EqDecision State.
Proof. solve_decision. Defined.

(** The [shared_ptr<CallState>] is the call's name in the store. *)
Record PendingCall : Type := {
  call : Z;
  method_path : bytes;
  framed_body : bytes;
  metadata : HeaderList;
  timeout : option Z;
}.

Inductive Op : Type := OpNewCall (pc : PendingCall) | OpShutdown.
Inductive Cb : Type := CbConnectTimeout | CbKeepalive.
Inductive Ev : Type := EvDesired | EvSession.
Inductive Rd : Type := RdConnectProgress | RdSocketReady.

(** The calls, and the channel's references to those in flight. *)
Record Calls : Type := {
  store : gmap Z CallState.CallState;
  active_calls_ : gset Z;
}.

Definition on_call (k : Z) (f : CallState.CallState → CallState.CallState) (w : Calls) : Calls :=
  {| w with store := alter f k (store w) |}.

Definition fail_call (c : StatusCode) (m : bytes) (w : Calls) (k : Z) : Calls :=
  on_call k (CallState.FailLocal c m) w.

(** What the string reference given to [TearDown] refers to. *)
Inductive Detail : Type :=
  | Text (s : bytes)
  | SockError
  | SessionError.

Section Channel.
Context `{SZ : SizeT} `{SH : !StdHeap TimerHeap.EntryLater} `{NG : Nghttp2} `{SO : TlsSocketOps}.
Context {E : Type} (now : E → E * Z) (client_new : E → E * (Z * (Z * ng_session))).
Context (cfg : ChannelConfig).
Local Open Scope res_scope.

(** The members the event thread owns, the loop's own, and the rest of the world:
    the clock and the memory nghttp2 allocates. *)
Record Channel : Type := {
  state_ : State;
  sock_ : socket_type;
  h2_ : option (Http2Session Calls);
  connect_timer_ : Z;
  keepalive_timer_ : Z;
  pending_calls_ : list PendingCall;
  calls_ : Calls;
  failure_detail_ : bytes;
  loop_ : Owned Cb Ev Rd;
  env_ : E;
}.

Definition read_clock (c : Channel) : Channel * Z :=
  let '(e, t) := now (env_ c) in ({| c with env_ := e |}, t).

(** [loop_.AddTimer], which reads the clock. *)
Definition add_timer (delay : Z) (cb : Cb) (c : Channel) : Channel * Z :=
  let '(c, t) := read_clock c in
  let '(o, id) := AddTimer (loop_ c) t delay cb in
  ({| c with loop_ := o |}, id).

Definition cancel_timer (id : Z) (c : Channel) : Channel :=
  {| c with loop_ := (CancelTimer (loop_ c) id).1 |}.

Definition watch (fd : Z) (ev : Ev) (rd : Rd) (c : Channel) : Channel :=
  {| c with loop_ := WatchFd (loop_ c) fd ev rd |}.

Definition is_ready (c : Channel) : bool := bool_decide (state_ c = kReady).

Definition CancelTimersAndUnwatch (c : Channel) : Channel :=
  let c := if negb (connect_timer_ c =? 0)
           then {| (cancel_timer (connect_timer_ c) c) with connect_timer_ := 0 |} else c in
  let c := if negb (keepalive_timer_ c =? 0)
           then {| (cancel_timer (keepalive_timer_ c) c) with keepalive_timer_ := 0 |} else c in
  {| c with loop_ := UnwatchFd (loop_ c) |}.

(** Reading the string [detail] refers to. *)
Definition read_detail (d : Detail) (c : Channel) : Res bytes :=
  match d with
  | Text s => Done s
  | SockError => Done (sock_error (sock_ c))
  | SessionError => match h2_ c with Some h => Done (Http2Session.error_ h) | None => UseAfterFree end
  end.

(** [FailLocal(kUnavailable, detail)] for each call in turn. *)
Fixpoint fail_all (d : Detail) (keys : list Z) (c : Channel) : Res Channel :=
  match keys with
  | [] => Done c
  | k :: keys =>
      m <~ read_detail d c ;;
      fail_all d keys {| c with calls_ := fail_call kUnavailable m (calls_ c) k |}
  end.

(** The active calls; each is failed by itself, in whatever order. *)
Definition active_keys (c : Channel) : list Z := elements (active_calls_ (calls_ c)).

Definition clear_active (c : Channel) : Channel :=
  {| c with calls_ := {| (calls_ c) with active_calls_ := ∅ |} |}.

Definition clear_pending (c : Channel) : Channel := {| c with pending_calls_ := [] |}.

Definition TearDown (d : Detail) (c : Channel) : Res Channel :=
  if bool_decide (state_ c = kFailed) || bool_decide (state_ c = kShutdown) then Done c
  else
    m <~ read_detail d c ;;
    let c := {| c with state_ := kFailed; failure_detail_ := m |} in
    let c := CancelTimersAndUnwatch c in
    let c := {| c with sock_ := sock_Close (sock_ c) |} in
    let c := {| c with h2_ := None |} in
    let active := active_keys c in
    c <~ fail_all d active (clear_active c) ;;
    let pending := call <$> pending_calls_ c in
    fail_all d pending (clear_pending c).

(** [CallState::MakeStreamHooks] with [on_close] wrapped to drop the reference. *)
Definition call_hooks (k : Z) : StreamHooks Calls :=
  let hooks := CallState.MakeStreamHooks (on_call k) in
  {| on_response_headers := on_response_headers hooks;
     on_trailers := on_trailers hooks;
     on_data := on_data hooks;
     on_close := Some (λ e w,
       let w := Http2Session.call (on_close hooks) (λ f, f e) w in
       {| w with active_calls_ := active_calls_ w ∖ {[k]} |}) |}.

Definition SubmitCall (pc : PendingCall) (c : Channel) : Channel :=
  match is_ready c, h2_ c with
  | true, Some h =>
      let headers := BuildRequestHeaders (authority_ cfg) (method_path pc) (timeout pc)
                       (metadata pc) (user_agent_prefix (options_ cfg)) in
      let '(h, stream_id) := SubmitUnaryRequest headers (framed_body pc) (call_hooks (call pc)) h in
      let c := {| c with h2_ := Some h |} in
      if stream_id <? 0
      then {| c with calls_ := fail_call kUnavailable (Http2Session.error_ h) (calls_ c) (call pc) |}
      else
        let w := on_call (call pc) (CallState.OnSubmitted stream_id) (calls_ c) in
        {| c with calls_ := {| w with active_calls_ := {[call pc]} ∪ active_calls_ w |} |}
  | _, _ =>
      let m := if bool_decide (state_ c = kFailed) then failure_detail_ c
               else bs "channel is not ready" in
      {| c with calls_ := fail_call kUnavailable m (calls_ c) (call pc) |}
  end.

(** [h2_->PendingOutput]. *)
Definition pending_output (fuel : nat) (h : Http2Session Calls) (c : Channel) : Res (Channel * bytes) :=
  match PendingOutput fuel h (calls_ c) with
  | None => NoFuel
  | Some (h, w, view) => Done ({| c with h2_ := Some h; calls_ := w |}, view)
  end.

Definition consume_output (n : Z) (c : Channel) : Channel :=
  {| c with h2_ := ConsumeOutput n <$> h2_ c |}.

Definition session_error (c : Channel) : bytes :=
  match h2_ c with Some h => Http2Session.error_ h | None => [] end.

Fixpoint FlushOutput (fuel : nat) (c : Channel) : Res Channel :=
  match fuel with
  | O => NoFuel
  | S fuel' =>
      if negb (is_ready c) then Done c
      else
        match h2_ c with
        | None => UseAfterFree
        | Some h =>
            r <~ pending_output fuel h c ;;
            let '(c, data) := r in
            if bool_decide (data = []) then
              if bool_decide (session_error c = []) then Done c else TearDown SessionError c
            else
              let '(s, (st, written)) := sock_Write data (sock_ c) in
              let c := {| c with sock_ := s |} in
              match st with
              | kOkIo => FlushOutput fuel' (consume_output written c)
              | kWantWrite | kWantRead => Done c
              | _ => TearDown SockError c
              end
        end
  end.

Definition kReadSize : Z := 16384.

Fixpoint DrainSocket (fuel : nat) (c : Channel) : Res Channel :=
  match fuel with
  | O => NoFuel
  | S fuel' =>
      if negb (is_ready c) then Done c
      else
        let '(s, (st, data)) := sock_Read kReadSize (sock_ c) in
        let c := {| c with sock_ := s |} in
        match st with
        | kOkIo =>
            match h2_ c with
            | None => UseAfterFree
            | Some h =>
                let '(c, t) := read_clock c in
                let '(h, w, ok) := ReceiveBytes t data h (calls_ c) in
                let c := {| c with h2_ := Some h; calls_ := w |} in
                if ok then DrainSocket fuel' c else TearDown SessionError c
            end
        | kWantRead | kWantWrite => Done c
        | kEof => TearDown (Text (bs "connection closed by server")) c
        | kError => TearDown SockError c
        end
  end.

Definition RearmKeepalive (c : Channel) : Channel :=
  match is_ready c, h2_ c with
  | true, Some h =>
      let c := if negb (keepalive_timer_ c =? 0)
               then {| (cancel_timer (keepalive_timer_ c) c) with keepalive_timer_ := 0 |} else c in
      let '(c, _) := read_clock c in
      match NextKeepaliveDeadline h with
      | None => c
      | Some deadline =>
          let '(c, t) := read_clock c in
          let '(c, id) := add_timer (deadline - t) CbKeepalive c in
          {| c with keepalive_timer_ := id |}
      end
  | _, _ => c
  end.

(** The keepalive timer's callback. *)
Definition OnKeepaliveTimer (fuel : nat) (c : Channel) : Res Channel :=
  let c := {| c with keepalive_timer_ := 0 |} in
  match is_ready c, h2_ c with
  | true, Some h =>
      let '(c, t) := read_clock c in
      let '(h, action) := CheckKeepalive t h in
      let c := {| c with h2_ := Some h |} in
      match action with
      | kDead => TearDown (Text (bs "keepalive timeout: no reads from server within keepalive_timeout")) c
      | _ => c <~ FlushOutput fuel c ;; Done (RearmKeepalive c)
      end
  | _, _ => Done c
  end.

(** The connect timer's callback. *)
Definition OnConnectTimer (c : Channel) : Res Channel :=
  TearDown (Text (bs "connect timeout")) {| c with connect_timer_ := 0 |}.

Definition goaway_hooks : Hooks Calls :=
  {| on_remote_settings := None; on_settings_ack := None; on_ping_ack := None;
     on_goaway := Some (λ _ _ _ w, w) |}.

(** The loop over the calls that waited for the connection. *)
Fixpoint submit_pending (pending : list PendingCall) (c : Channel) : Channel :=
  match pending with
  | [] => c
  | pc :: pending =>
      if negb (is_ready c)
      then submit_pending pending
             {| c with calls_ := fail_call kUnavailable (failure_detail_ c) (calls_ c) (call pc) |}
      else submit_pending pending (SubmitCall pc c)
  end.

Definition StartSession (fuel : nat) (c : Channel) : Res Channel :=
  let '(c, t) := read_clock c in
  let '(e, (callbacks_rc, client)) := client_new (env_ c) in
  let h := new_http2_session (http2 (options_ cfg)) goaway_hooks t callbacks_rc client in
  let c := {| c with env_ := e; h2_ := Some h |} in
  if negb (ok h) then TearDown SessionError c
  else
    let c := watch (sock_fd (sock_ c)) EvSession RdSocketReady c in
    let c := {| c with state_ := kReady |} in
    c <~ FlushOutput fuel c ;;
    let c := RearmKeepalive c in
    let pending := pending_calls_ c in
    let c := submit_pending pending (clear_pending c) in
    if is_ready c then FlushOutput fuel c else Done c.

Definition OnConnectProgress (fuel : nat) (c : Channel) : Res Channel :=
  let '(s, st) := sock_ContinueConnect (sock_ c) in
  let c := {| c with sock_ := s |} in
  match st with
  | kWantRead | kWantWrite => Done c
  | _ =>
      let c := if negb (connect_timer_ c =? 0)
               then {| (cancel_timer (connect_timer_ c) c) with connect_timer_ := 0 |} else c in
      if bool_decide (st = kOkIo) then StartSession fuel c else TearDown SockError c
  end.

Definition StartConnecting (c : Channel) : Res Channel :=
  let c := {| c with state_ := kConnecting |} in
  let '(c, id) := add_timer (ms (connect_timeout (options_ cfg))) CbConnectTimeout c in
  let c := {| c with connect_timer_ := id |} in
  let '(s, started) := sock_StartConnect (host_ cfg) (port_ cfg) (tls_ cfg) (sock_ c) in
  let c := {| c with sock_ := s |} in
  if negb started then TearDown SockError c
  else Done (watch (sock_fd (sock_ c)) EvDesired RdConnectProgress c).

Definition HandleNewCall (fuel : nat) (pc : PendingCall) (c : Channel) : Res Channel :=
  match state_ c with
  | kShutdown =>
      Done {| c with calls_ := fail_call kUnavailable (bs "channel is shut down") (calls_ c) (call pc) |}
  | kFailed =>
      Done {| c with calls_ := fail_call kUnavailable (failure_detail_ c) (calls_ c) (call pc) |}
  | kIdle => StartConnecting {| c with pending_calls_ := pending_calls_ c ++ [pc] |}
  | kConnecting => Done {| c with pending_calls_ := pending_calls_ c ++ [pc] |}
  | kReady => FlushOutput fuel (SubmitCall pc c)
  end.

Definition OnSocketReady (fuel : nat) (revents : Z) (c : Channel) : Res Channel :=
  c <~ (if negb (Z.land revents (Z.lor POLLIN (Z.lor POLLERR POLLHUP)) =? 0)
        then DrainSocket fuel c else Done c) ;;
  c <~ (if is_ready c then FlushOutput fuel c else Done c) ;;
  Done (if is_ready c then RearmKeepalive c else c).

(** The flush of [DoShutdown]. *)
Fixpoint final_flush (fuel : nat) (c : Channel) : Res Channel :=
  match fuel, h2_ c with
  | O, _ => NoFuel
  | _, None => UseAfterFree
  | S fuel', Some h =>
      r <~ pending_output fuel h c ;;
      let '(c, data) := r in
      if bool_decide (data = []) then Done c
      else
        let '(s, (st, written)) := sock_Write data (sock_ c) in
        let c := {| c with sock_ := s |} in
        if bool_decide (st = kOkIo) then final_flush fuel' (consume_output written c) else Done c
  end.

Definition DoShutdown (fuel : nat) (c : Channel) : Res Channel :=
  if bool_decide (state_ c = kShutdown) then Done c
  else
    let was_ready := is_ready c && bool_decide (is_Some (h2_ c)) in
    let c := {| c with state_ := kShutdown |} in
    let active := active_keys c in
    c <~ fail_all (Text (bs "channel is shut down")) active (clear_active c) ;;
    let pending := call <$> pending_calls_ c in
    c <~ fail_all (Text (bs "channel is shut down")) pending (clear_pending c) ;;
    let c := CancelTimersAndUnwatch c in
    c <~ (if was_ready then final_flush fuel {| c with h2_ := Terminate <$> h2_ c |} else Done c) ;;
    let c := {| c with sock_ := sock_Close (sock_ c) |} in
    Done {| c with h2_ := None |}.

(** *** Callers *)

(** The start of [UnaryCall]: the refusal of an oversized request, or the pending
    call with its framed body. *)
Definition prepare_call (k : Z) (path request : bytes) (md : HeaderList) (tmo : option Z)
    : CallState.Result + PendingCall :=
  if max_send_message_size (options_ cfg) <? zlen request
  then inl {| CallState.new_result with
              CallState.code := kResourceExhausted;
              CallState.message :=
                bs "Sent message larger than max (" ++ to_string (zlen request) ++ bs " vs. " ++
                to_string (max_send_message_size (options_ cfg)) ++ bs ")" |}
  else inr {| call := k; method_path := path;
              framed_body := AppendGrpcFramePrefix (zlen request) [] ++ request;
              metadata := md; timeout := tmo |}.

(** The constructor's state, when the loop has started. *)
Definition new_channel (s : socket_type) (e : E) : Channel :=
  {| state_ := kIdle; sock_ := s; h2_ := None; connect_timer_ := 0; keepalive_timer_ := 0;
     pending_calls_ := []; calls_ := {| store := ∅; active_calls_ := ∅ |};
     failure_detail_ := []; loop_ := new_owned; env_ := e |}.

(** The constructor: the guarded members of the loop, the channel and [loop_ok_]. *)
Definition construct (wakeup_fd create_rc : Z) (s : socket_type) (e : E) : Shared Op * Channel * bool :=
  let '(sh, loop_ok) := Start wakeup_fd create_rc new_shared in
  let c := new_channel s e in
  (sh,
   if loop_ok then c
   else {| c with state_ := kFailed; failure_detail_ := bs "failed to start channel event thread" |},
   loop_ok).

(** [UnaryCall] up to its [Wait], on the members a caller reaches: a result at once, or
    the call to wait for.  [failure] is [failure_detail_], which a caller reads only
    when no loop runs. *)
Definition UnaryCall (k : Z) (path request : bytes) (md : HeaderList) (tmo : option Z)
    (loop_ok : bool) (failure : bytes) (sh : Shared Op) (w : Calls)
    : Shared Op * Calls * (CallState.Result + Z) :=
  match prepare_call k path request md tmo with
  | inl result => (sh, w, inl result)
  | inr pc =>
      let w := {| w with store :=
                    <[k := CallState.new_call (max_receive_message_size (options_ cfg))]> (store w) |} in
      let '(sh, posted) := if loop_ok then Post_locked sh (OpNewCall pc) else (sh, false) in
      let w := if posted then w
               else fail_call kUnavailable (if loop_ok then bs "channel is shut down" else failure) w k in
      (sh, w, inr k)
  end.

(** [Shutdown] up to its wait for the posted [DoShutdown], with the lock of
    [shutdown_mu_] held throughout: [Some posted] when the loop is then stopped, after
    waiting for the operation if it was posted. *)
Definition Shutdown (loop_ok shutdown_done : bool) (sh : Shared Op) : bool * Shared Op * option bool :=
  if shutdown_done then (true, sh, None)
  else if negb loop_ok then (true, sh, None)
  else let '(sh, posted) := Post_locked sh OpShutdown in (true, sh, Some posted).

(** *** The closures given to the loop *)

Definition call_op (fuel : nat) (op : Op) (c : Channel) : Res Channel :=
  match op with OpNewCall pc => HandleNewCall fuel pc c | OpShutdown => DoShutdown fuel c end.

Definition call_cb (fuel : nat) (cb : Cb) (c : Channel) : Res Channel :=
  match cb with CbConnectTimeout => OnConnectTimer c | CbKeepalive => OnKeepaliveTimer fuel c end.

Definition call_ev (ev : Ev) (c : Channel) : Z :=
  match ev with
  | EvDesired => sock_DesiredPollEvents (sock_ c)
  | EvSession =>
      Z.lor POLLIN (match h2_ c with Some h => if WantWrite h then POLLOUT else 0 | None => 0 end)
  end.

Definition call_rd (fuel : nat) (rd : Rd) (revents : Z) (c : Channel) : Res Channel :=
  match rd with RdConnectProgress => OnConnectProgress fuel c | RdSocketReady => OnSocketReady fuel revents c end.

End Channel.
End ChannelImpl.
