(* ===== verification/ChannelProperties.v ===== *)
(** * Properties of the channel

    The invariant of [ChannelImpl.v] over every sequence of handler runs: who waits and
    where, which timers are pending, what is watched.  Then the theorems, a concrete
    channel, and the witnesses. *)

From Stdlib Require Import ZArith Lia.
From Stdlib Require Import Strings.String Strings.Byte.
From stdpp Require Import base numbers list gmap relations.
From S2P Require Import Prelude GrpcWire StdHeap TimerHeap Wakeup EventThread Http2Session Http2Properties CallState TlsSocket ChannelImpl.

Local Open Scope Z_scope.

(** ** Waiters *)

Section Waiters.
Import CallState.
Import ChannelImpl.
Context `{SZ : SizeT}.

Lemma call_event_inv e c : call_inv c → call_inv (on_call_event e c).
Proof. intros H. by destruct (run_call_inv [e] c H). Qed.

Lemma call_event_done e c : call_inv c → done_ c = true → done_ (on_call_event e c) = true.
Proof. intros Hi Hd. rewrite closed_frozen; [done|]. by rewrite <- Hi. Qed.

Lemma call_event_completes e c : call_inv c → completes e = true → done_ (on_call_event e c) = true.
Proof.
  intros Hi He. destruct (is_closed c) eqn:Hc.
  - apply call_event_done; [done|]. by rewrite Hi.
  - by apply completing_event.
Qed.

(** Every call is complete, in flight, or one of [pend]. *)
Definition waiters (pend : list Z) (w : Calls) : Prop :=
  ∀ k cs, store w !! k = Some cs →
    call_inv cs ∧ (done_ cs = true ∨ k ∈ active_calls_ w ∨ k ∈ pend).

Lemma waiters_event pend w k e : waiters pend w → waiters pend (on_call k (on_call_event e) w).
Proof.
  intros Hw j cs. simpl. rewrite lookup_alter_Some.
  intros [(<- & cs0 & Hj & ->)|[Hne Hj]]; destruct (Hw _ _ Hj) as [Hi Hd]; [|done].
  split; [by apply call_event_inv|]. destruct Hd as [Hd|?]; [left|by right].
  by apply call_event_done.
Qed.

(** Completing a call releases it from the pending list and the active set. *)
Lemma waiters_complete pend w k e :
  completes e = true → waiters (k :: pend) w →
  waiters pend (on_call k (on_call_event e) w) ∧
  waiters pend {| (on_call k (on_call_event e) w) with active_calls_ := active_calls_ w ∖ {[k]} |}.
Proof.
  intros He Hw.
  assert (∀ j cs, store (on_call k (on_call_event e) w) !! j = Some cs →
            call_inv cs ∧ (done_ cs = true ∨ (j ≠ k ∧ (j ∈ active_calls_ w ∨ j ∈ pend)))) as H.
  { intros j cs. simpl. rewrite lookup_alter_Some.
    intros [(<- & cs0 & Hj & ->)|[Hne Hj]]; destruct (Hw _ _ Hj) as [Hi Hd].
    - split; [by apply call_event_inv|]. left. by apply call_event_completes.
    - split; [done|]. set_solver. }
  split; intros j cs Hj; destruct (H j cs Hj) as [Hi Hd]; (split; [done|]); simpl; set_solver.
Qed.

Lemma waiters_mono pend pend' w : waiters pend w → pend ⊆ pend' → waiters pend' w.
Proof. intros Hw Hs k cs Hk. destruct (Hw k cs Hk). set_solver. Qed.

Lemma waiters_fail_all m keys pend w :
  waiters (keys ++ pend) w → waiters pend (foldl (fail_call kUnavailable m) w keys).
Proof.
  revert w. induction keys as [|k keys IH]; intros w Hw; simpl; [done|].
  apply IH. by apply (waiters_complete _ _ _ (Fail kUnavailable m)).
Qed.

Lemma fail_all_active m keys w :
  active_calls_ (foldl (fail_call kUnavailable m) w keys) = active_calls_ w.
Proof. revert w. induction keys as [|k keys IH]; intros w; simpl; [done|]. by rewrite IH. Qed.

Lemma waiters_clear_active pend w :
  waiters pend w → waiters (elements (active_calls_ w) ++ pend) {| w with active_calls_ := ∅ |}.
Proof.
  intros Hw k cs Hk. destruct (Hw k cs Hk) as [? Hd]. split; [done|]. simpl.
  rewrite elem_of_app, elem_of_elements. set_solver.
Qed.

(** The hooks of a stream keep the waiters of every pending list. *)
Lemma call_hooks_keep pend k : stream_hooks_keep (waiters pend) (call_hooks k).
Proof.
  split; intros; intros w Hw; simpl.
  - by apply (waiters_event pend w k (ResponseHeaders hs e)).
  - by apply (waiters_event pend w k (Trailers ts)).
  - by apply (waiters_event pend w k (Data d)).
  - apply (waiters_complete pend w k (Close e)); [done|]. eapply waiters_mono; [done|]. set_solver.
Qed.

Lemma goaway_hooks_keep pend : session_hooks_keep (waiters pend) goaway_hooks.
Proof. split; intros; intros w Hw; done. Qed.

(** What the failed calls get. *)
Lemma fail_all_closed m keys w k cs :
  store w !! k = Some cs → is_closed cs = true →
  store (foldl (fail_call kUnavailable m) w keys) !! k = Some cs.
Proof.
  revert w. induction keys as [|j keys IH]; intros w Hk Hc; simpl; [done|]. apply IH; [|done].
  simpl. rewrite lookup_alter. case_decide; [|done]. subst j. rewrite Hk. simpl.
  unfold FailLocal. by rewrite Hc.
Qed.

Lemma fail_all_results m keys w k cs :
  store w !! k = Some cs → k ∈ keys →
  store (foldl (fail_call kUnavailable m) w keys) !! k = Some (FailLocal kUnavailable m cs).
Proof.
  intros Hk Hin. revert w Hk.
  assert (Hcl : is_closed (FailLocal kUnavailable m cs) = true).
  { unfold FailLocal. by destruct (is_closed cs) eqn:E1. }
  induction keys as [|j keys IH]; intros w Hk; simpl; [by apply elem_of_nil in Hin|].
  destruct (decide (j = k)) as [->|Hne].
  - apply fail_all_closed; [|done]. simpl. by rewrite lookup_alter_eq, Hk.
  - apply IH; [set_solver|]. simpl. by rewrite lookup_alter_ne.
Qed.

End Waiters.

(** ** The invariant *)

Section Invariant.
Import CallState.
Import ChannelImpl.
Import EventThread.
Import TimerHeap.
Context `{SZ : SizeT} `{SH : !StdHeap EntryLater} `{NL : Nghttp2Laws} `{SL : !TlsSocketLaws SO}.
Context {E : Type} (now : E → E * Z) (client_new : E → E * (Z * (Z * ng_session))).
(** A new nghttp2 session has no open stream. *)
Context (client_new_open : ∀ e, ng_open (client_new e).2.2.2 = ∅).
Context (cfg : ChannelConfig).
Abbreviation Chan := (Channel (E := E)).
Implicit Types c : Chan.

Definition pending_keys c : list Z := ChannelImpl.call <$> pending_calls_ c.

Definition timer_callbacks c : gmap Z Cb := callbacks_ (timers_ (loop_ c)).

(** The pending timers: none has the invalid id, and each is as [P] says. *)
Definition timers_are (P : Z → Cb → Prop) c : Prop :=
  ∀ i cb, timer_callbacks c !! i = Some cb → i ≠ 0 ∧ P i cb.

(** The session is well formed and its hooks are those the channel registers: what
    these preserve, the session preserves. *)
Definition hooked (h : Http2Session Calls) : Prop :=
  session_ok h ∧
  ∀ I : Calls → Prop,
    (∀ k, stream_hooks_keep I (call_hooks k)) → session_hooks_keep I goaway_hooks →
    session_keeps I h.

Lemma hooked_waiters h pend : hooked h → session_keeps (waiters pend) h.
Proof. intros [_ H]. apply H; [apply call_hooks_keep|apply goaway_hooks_keep]. Qed.

Lemma hooked_no_active h : hooked h → session_keeps (λ w, active_calls_ w = ∅) h.
Proof.
  intros [_ H]. apply H; [|by split; intros; intros w Hw].
  intros k. split; intros; intros w Hw; simpl in *; set_solver.
Qed.

Lemma hooked_PendingOutput fuel h w h' w' view :
  PendingOutput fuel h w = Some (h', w', view) → hooked h → hooked h'.
Proof.
  intros HP [Hok Hk]. split; [by eapply PendingOutput_any|]. intros I H1 H2.
  eapply (PendingOutput_keeps I) in HP as [? _]; [done|]. by apply Hk.
Qed.

Lemma hooked_ReceiveBytes t data h w h' w' b :
  ReceiveBytes t data h w = (h', w', b) → hooked h → hooked h'.
Proof.
  intros HR [Hok Hk]. split.
  - pose proof (ReceiveBytes_ok t data h w Hok) as H. by rewrite HR in H.
  - intros I H1 H2. eapply (ReceiveBytes_keeps I) in HR as [? _]; [done|]. by apply Hk.
Qed.

Lemma hooked_SubmitUnaryRequest hs b k h h' i :
  SubmitUnaryRequest hs b (call_hooks k) h = (h', i) → hooked h → hooked h'.
Proof.
  intros HS [Hok Hk]. split.
  - pose proof (SubmitUnaryRequest_ok hs b (call_hooks k) h Hok) as H. rewrite HS in H. apply H.
  - intros I H1 H2. eapply SubmitUnaryRequest_keeps; [done| |apply H1]. by apply Hk.
Qed.

Lemma hooked_CheckKeepalive t h h' a : CheckKeepalive t h = (h', a) → hooked h → hooked h'.
Proof.
  intros HC [Hok Hk]. split.
  - pose proof (CheckKeepalive_ok t h Hok) as H. by rewrite HC in H.
  - intros I H1 H2. pose proof (CheckKeepalive_keeps I t h (Hk I H1 H2)) as H. by rewrite HC in H.
Qed.

Lemma hooked_ConsumeOutput n h : 0 <= n → hooked h → hooked (ConsumeOutput n h).
Proof.
  intros Hn [Hok Hk]. split; [by apply ConsumeOutput_ok|]. intros I H1 H2. by apply simple_updates_keep, Hk.
Qed.

Lemma hooked_Terminate h : hooked h → hooked (Terminate h).
Proof.
  intros [Hok Hk]. split; [by apply Terminate_ok|]. intros I H1 H2. by apply simple_updates_keep, Hk.
Qed.

Lemma hooked_new o t crc client :
  ng_open client.2 = ∅ → hooked (new_http2_session o goaway_hooks t crc client).
Proof.
  intros Ho. split; [by apply new_http2_session_ok|]. intros I _ H. by apply new_http2_session_keeps.
Qed.

(** In every state: the waiters, the hooks of the open streams, and fewer than [n]
    timers ever added. *)
Record core (n : Z) c : Prop := {
  core_waiters : waiters (pending_keys c) (calls_ c);
  core_hooks h : h2_ c = Some h → hooked h;
  core_ids : 1 <= next_id_ (timers_ (loop_ c)) <= n;
}.

(** Nothing is open, pending, armed or watched. *)
Record at_rest c : Prop := {
  rest_active : active_calls_ (calls_ c) = ∅;
  rest_pending : pending_calls_ c = [];
  rest_h2 : h2_ c = None;
  rest_timers : timer_callbacks c = ∅;
  rest_watch : watched_fd_ (loop_ c) = -1 ∧ watched_on_ready_ (loop_ c) = None;
}.

Record connecting c : Prop := {
  conn_state : state_ c = kConnecting;
  conn_active : active_calls_ (calls_ c) = ∅;
  conn_h2 : h2_ c = None;
  conn_timers : timers_are (λ i cb, cb = CbConnectTimeout ∧ i = connect_timer_ c) c;
  conn_watch : watched_on_ready_ (loop_ c) = Some RdConnectProgress;
}.

Record ready c : Prop := {
  ready_state : state_ c = kReady;
  ready_h2 : is_Some (h2_ c);
  ready_timers : timers_are (λ i cb, cb = CbKeepalive ∧ i = keepalive_timer_ c) c;
  ready_watch : watched_on_ready_ (loop_ c) = Some RdSocketReady;
}.

Definition dead c : Prop := (state_ c = kFailed ∨ state_ c = kShutdown) ∧ at_rest c.

Definition phase c : Prop :=
  (state_ c = kIdle ∧ at_rest c) ∨ connecting c ∨ (ready c ∧ pending_calls_ c = []) ∨ dead c.

Definition chan_inv (n : Z) c : Prop := core n c ∧ phase c.

(** *** Timers *)

Lemma timers_are_mono (P Q : Z → Cb → Prop) c :
  timers_are P c → (∀ i cb, P i cb → Q i cb) → timers_are Q c.
Proof. intros H HPQ i cb Hi. destruct (H i cb Hi). auto. Qed.

Lemma CancelTimersAndUnwatch_spec c :
  timers_are (λ i _, i = connect_timer_ c ∨ i = keepalive_timer_ c) c →
  let c' := CancelTimersAndUnwatch c in
  timer_callbacks c' = ∅ ∧ watched_fd_ (loop_ c') = -1 ∧ watched_on_ready_ (loop_ c') = None ∧
  connect_timer_ c' = 0 ∧ keepalive_timer_ c' = 0 ∧
  next_id_ (timers_ (loop_ c')) = next_id_ (timers_ (loop_ c)) ∧
  state_ c' = state_ c ∧ sock_ c' = sock_ c ∧ h2_ c' = h2_ c ∧ calls_ c' = calls_ c ∧
  pending_calls_ c' = pending_calls_ c ∧ failure_detail_ c' = failure_detail_ c.
Proof.
  intros Ht. unfold CancelTimersAndUnwatch.
  destruct (Z.eqb_spec (connect_timer_ c) 0) as [Hc|Hc]; simpl;
    destruct (Z.eqb_spec (keepalive_timer_ c) 0) as [Hk|Hk]; simpl; (split; [|done]);
    unfold timer_callbacks in *; simpl; apply map_empty; intros i;
    rewrite ?lookup_delete_None;
    (destruct (callbacks_ (timers_ (loop_ c)) !! i) as [cb|] eqn:Hi;
      [destruct (Ht i cb Hi) as [Hne [->| ->]]; tauto|tauto]).
Qed.

(** *** Failing calls *)

Lemma fail_all_Done d m keys c :
  read_detail d c = Done m ∨ keys = [] →
  fail_all d keys c = Done {| c with calls_ := foldl (fail_call kUnavailable m) (calls_ c) keys |}.
Proof.
  revert c. induction keys as [|k keys IH]; intros c Hd; cbn [fail_all foldl].
  { by destruct c. }
  destruct Hd as [Hd|?]; [|done]. rewrite Hd. cbn [rbind]. rewrite IH by (by left). done.
Qed.

(** *** [TearDown] *)

(** After the session is destroyed only a detail that does not live in it can still
    be read. *)
Lemma TearDown_spec n d m c :
  core n c → state_ c ≠ kFailed → state_ c ≠ kShutdown →
  timers_are (λ i _, i = connect_timer_ c ∨ i = keepalive_timer_ c) c →
  read_detail d c = Done m →
  (d = SessionError → active_calls_ (calls_ c) = ∅ ∧ pending_calls_ c = []) →
  ∃ c', TearDown d c = Done c' ∧ core n c' ∧ dead c' ∧ state_ c' = kFailed ∧ failure_detail_ c' = m ∧
    calls_ c' = foldl (fail_call kUnavailable m) {| (calls_ c) with active_calls_ := ∅ |}
                  (elements (active_calls_ (calls_ c)) ++ pending_keys c).
Proof.
  intros [Hw Hh Hid] Hs1 Hs2 Ht Hd Hsess. unfold TearDown.
  rewrite !bool_decide_eq_false_2 by done. cbn [orb]. rewrite Hd. cbn [rbind].
  set (c1 := {| c with state_ := kFailed; failure_detail_ := m |}).
  pose proof (CancelTimersAndUnwatch_spec c1 Ht) as Hspec. cbv zeta in Hspec.
  set (c1' := CancelTimersAndUnwatch c1) in *. clearbody c1'.
  destruct Hspec as (Hcb & Hfd & Hrd & Hct & Hkt & Hni & Hst & Hso & Hh2 & Hcalls & Hpend & Hfail).
  set (c2 := {| c1' with sock_ := sock_Close (sock_ c1'); h2_ := None |}).
  assert (Hr : read_detail d c2 = Done m ∨ (active_keys c2 = [] ∧ pending_calls_ c2 = [])).
  { destruct d; simpl in *; [by left| |right].
    - left. by rewrite sock_Close_error, Hso.
    - destruct (Hsess eq_refl) as [Ha Hp]. unfold active_keys. simpl.
      rewrite Hcalls, Hpend. simpl. by rewrite Ha, Hp, elements_empty. }
  change (active_keys _) with (active_keys c2). change (clear_active _) with (clear_active c2).
  assert (Hr1 : read_detail d (clear_active c2) = Done m ∨ active_keys c2 = []).
  { destruct Hr as [Hr|[Hr _]]; [left|by right]. by destruct d. }
  rewrite (fail_all_Done d m) by done. cbn [rbind].
  match goal with |- context [fail_all d _ ?x] => set (c3 := x) end.
  assert (Hr2 : read_detail d c3 = Done m ∨ ChannelImpl.call <$> pending_calls_ c2 = []).
  { destruct Hr as [Hr|[_ Hr]]; [left; by destruct d|right; by rewrite Hr]. }
  change (ChannelImpl.call <$> pending_calls_ _) with (ChannelImpl.call <$> pending_calls_ c2).
  rewrite (fail_all_Done d m) by done.
  eexists. split; [done|]. unfold c3, c2, active_keys. simpl. rewrite Hcalls, Hpend. split_and!.
  - split; simpl; [|done|by rewrite Hni]. rewrite <- foldl_app. apply waiters_fail_all.
    rewrite app_nil_r. by apply waiters_clear_active.
  - split; [by left|]. split; simpl; try done. by rewrite !fail_all_active.
  - done.
  - by rewrite Hfail.
  - by rewrite foldl_app.
Qed.

(** Reading the session's error after [h2_.reset()] is what goes wrong. *)
Lemma TearDown_dangling c h :
  state_ c ≠ kFailed → state_ c ≠ kShutdown → h2_ c = Some h →
  timers_are (λ i _, i = connect_timer_ c ∨ i = keepalive_timer_ c) c →
  active_calls_ (calls_ c) ≠ ∅ ∨ pending_calls_ c ≠ [] →
  TearDown SessionError c = UseAfterFree.
Proof.
  intros Hs1 Hs2 Hh Ht Hne. unfold TearDown.
  rewrite !bool_decide_eq_false_2 by done. cbn [orb read_detail]. rewrite Hh. cbn [rbind].
  set (c1 := {| c with state_ := kFailed; h2_ := Some h; failure_detail_ := error_ h |}).
  pose proof (CancelTimersAndUnwatch_spec c1 Ht) as Hspec. cbv zeta in Hspec.
  set (c1' := CancelTimersAndUnwatch c1) in *. clearbody c1'.
  destruct Hspec as (Hcb & Hfd & Hrd & Hct & Hkt & Hni & Hst & Hso & Hh2 & Hcalls & Hpend & Hfail).
  unfold active_keys. cbn [calls_]. rewrite Hcalls. cbn [calls_ c1].
  destruct (elements (active_calls_ (calls_ c))) as [|k keys] eqn:Ek; [|done].
  cbn [fail_all rbind]. cbn [pending_calls_ clear_active]. rewrite Hpend. cbn [pending_calls_ c1].
  destruct (pending_calls_ c) as [|pc pend]; [|done]. exfalso.
  destruct Hne as [Hne|]; [|done]. apply Hne. apply elements_empty_inv in Ek. set_solver.
Qed.

(** A teardown that ends read its text before or after the session went. *)
Lemma TearDown_fails n d c c' :
  core n c → state_ c ≠ kFailed → state_ c ≠ kShutdown →
  timers_are (λ i _, i = connect_timer_ c ∨ i = keepalive_timer_ c) c →
  TearDown d c = Done c' →
  core n c' ∧ dead c' ∧ state_ c' = kFailed ∧
  calls_ c' = foldl (fail_call kUnavailable (failure_detail_ c')) {| (calls_ c) with active_calls_ := ∅ |}
                (elements (active_calls_ (calls_ c)) ++ pending_keys c).
Proof.
  intros Hc Hs1 Hs2 Ht Htd.
  assert (∃ m, read_detail d c = Done m) as [m Hm].
  { unfold TearDown in Htd. rewrite !bool_decide_eq_false_2 in Htd by done. cbn [orb] in Htd.
    destruct (read_detail d c); try done. eauto. }
  assert (Hok : d = SessionError → active_calls_ (calls_ c) = ∅ ∧ pending_calls_ c = []).
  { intros ->. destruct (h2_ c) as [h|] eqn:Hh; [|by simpl in Hm; rewrite Hh in Hm].
    destruct (decide (active_calls_ (calls_ c) = ∅)) as [?|Hne].
    - split; [done|]. destruct (pending_calls_ c) as [|pc l] eqn:Hp; [done|].
      rewrite (TearDown_dangling c h) in Htd by (try done; right; by rewrite Hp). done.
    - rewrite (TearDown_dangling c h) in Htd by (try done; by left). done. }
  destruct (TearDown_spec n d m c Hc Hs1 Hs2 Ht Hm Hok) as (c2 & Hc2 & ? & ? & ? & <- & ?).
  rewrite Htd in Hc2. by injection Hc2 as <-.
Qed.

Lemma TearDown_Done n d c c' :
  core n c → state_ c ≠ kFailed → state_ c ≠ kShutdown →
  timers_are (λ i _, i = connect_timer_ c ∨ i = keepalive_timer_ c) c →
  TearDown d c = Done c' → core n c' ∧ dead c' ∧ state_ c' = kFailed.
Proof. intros Hc Hs1 Hs2 Ht Htd. by destruct (TearDown_fails n d c c' Hc Hs1 Hs2 Ht Htd) as (? & ? & ? & _). Qed.

(** *** Handlers in the ready state *)

(** A result of a handler that keeps the transport or loses it. *)
Definition ready_or_dead (n : Z) (pend : list PendingCall) c : Prop :=
  core n c ∧ ((ready c ∧ pending_calls_ c = pend) ∨ dead c).

Lemma ready_tear_down n d c c' :
  core n c → ready c → TearDown d c = Done c' → ready_or_dead n (pending_calls_ c) c'.
Proof.
  intros Hc [Hs Hh Ht Hw] Htd.
  destruct (TearDown_Done n d c c') as (? & ? & ?); try done; [by rewrite Hs..| |].
  - eapply timers_are_mono; [done|]. naive_solver.
  - split; [done|by right].
Qed.

(** Replacing the socket, the environment, or the session and the calls by ones that
    keep the waiters. *)
Lemma ready_update n c h w s e :
  core n c → ready c → hooked h →
  waiters (pending_keys c) w →
  let c' := {| c with sock_ := s; env_ := e; h2_ := Some h; calls_ := w |} in core n c' ∧ ready c'.
Proof. intros [Hw Hh Hi] [Hs Hh2 Ht Hrd] Hk Hw'. split; split; simpl; try done. naive_solver. Qed.

Lemma pending_output_ready n fuel h c c' data :
  core n c → ready c → h2_ c = Some h → pending_output fuel h c = Done (c', data) →
  core n c' ∧ ready c' ∧ pending_calls_ c' = pending_calls_ c.
Proof.
  intros Hc Hr Hh. unfold pending_output.
  destruct (PendingOutput fuel h (calls_ c)) as [[[h' w'] view]|] eqn:HE; [|done].
  intros [= <- <-].
  pose proof (core_hooks n c Hc h Hh) as Hk.
  destruct (ready_update n c h' w' (sock_ c) (env_ c) Hc Hr) as [? ?].
  - by eapply hooked_PendingOutput.
  - eapply (PendingOutput_keeps (waiters (pending_keys c))) in HE as [_ HI]; [|by apply hooked_waiters].
    apply HI, Hc.
  - done.
Qed.

Lemma is_ready_true c : is_ready c = true ↔ state_ c = kReady.
Proof. unfold is_ready. apply bool_decide_eq_true. Qed.

Lemma ready_is_ready c : ready c → is_ready c = true.
Proof. intros [? _ _ _]. by apply is_ready_true. Qed.

Lemma FlushOutput_ready n fuel c c' :
  core n c → ready c → FlushOutput fuel c = Done c' → ready_or_dead n (pending_calls_ c) c'.
Proof.
  revert c. induction fuel as [|fuel IH]; intros c Hc Hr; [done|]. cbn [FlushOutput].
  rewrite ready_is_ready by done. cbn [negb].
  destruct (ready_h2 c Hr) as [h Hh]. rewrite Hh.
  destruct (pending_output (S fuel) h c) as [[c1 data]| |] eqn:HE; try done. cbn [rbind].
  destruct (pending_output_ready _ _ _ _ _ _ Hc Hr Hh HE) as (Hc1 & Hr1 & Hp1). clear HE Hh h.
  rewrite <- Hp1. destruct (bool_decide_reflect (data = [])) as [_|Hdata].
  { case_bool_decide; [intros [= <-]; by split; [|left]|]. by apply ready_tear_down. }
  destruct (sock_Write data (sock_ c1)) as [s [st written]] eqn:Hwr.
  destruct (ready_h2 c1 Hr1) as [h1 Hh1].
  assert (Hw : ∀ h, hooked h →
            let c2 := {| c1 with sock_ := s; h2_ := Some h |} in core n c2 ∧ ready c2).
  { intros h Hk. apply (ready_update n c1 h (calls_ c1) s (env_ c1)); try done. apply Hc1. }
  pose proof (core_hooks n c1 Hc1 h1 Hh1) as Hk1.
  assert (Heq : {| c1 with sock_ := s |} = {| c1 with sock_ := s; h2_ := Some h1 |})
    by (by destruct c1; simpl in *; subst).
  destruct st.
  - apply sock_Write_some in Hwr; [|done].
    destruct (Hw (ConsumeOutput written h1)) as [? ?]; [apply hooked_ConsumeOutput; [lia|done]|].
    intros Hf. apply IH in Hf; [done|..]; unfold consume_output; simpl; by rewrite Hh1.
  - intros [= <-]. rewrite Heq. destruct (Hw h1 Hk1). split; [done|by left].
  - intros [= <-]. rewrite Heq. destruct (Hw h1 Hk1). split; [done|by left].
  - rewrite Heq. destruct (Hw h1 Hk1). intros Ht. by apply (ready_tear_down n) in Ht.
  - rewrite Heq. destruct (Hw h1 Hk1). intros Ht. by apply (ready_tear_down n) in Ht.
Qed.

Lemma read_clock_ready n c c' t :
  read_clock now c = (c', t) → core n c → ready c → core n c' ∧ ready c' ∧ h2_ c' = h2_ c ∧
  calls_ c' = calls_ c ∧ pending_calls_ c' = pending_calls_ c.
Proof.
  unfold read_clock. destruct (now (env_ c)) as [e t0]. intros [= <- <-] [? ? ?] [? ? ? ?].
  split_and!; try done; by split.
Qed.

Lemma DrainSocket_ready n fuel c c' :
  core n c → ready c → DrainSocket now fuel c = Done c' → ready_or_dead n (pending_calls_ c) c'.
Proof.
  revert c. induction fuel as [|fuel IH]; intros c Hc Hr; [done|]. cbn [DrainSocket].
  rewrite ready_is_ready by done. cbn [negb].
  destruct (sock_Read kReadSize (sock_ c)) as [s [st data]].
  destruct (ready_h2 c Hr) as [h Hh].
  set (c1 := {| c with sock_ := s |}).
  assert (Hc1 : core n c1 ∧ ready c1) by (by destruct Hc, Hr; split; split).
  destruct Hc1 as [Hc1 Hr1]. change (pending_calls_ c) with (pending_calls_ c1).
  assert (Hh1 : h2_ c1 = Some h) by done. clearbody c1. clear Hc Hr Hh c.
  destruct st; [|intros [= <-]; by split; [|left]..|by apply ready_tear_down|by apply ready_tear_down].
  rewrite Hh1. destruct (read_clock now c1) as [c2 t] eqn:Ec.
  destruct (read_clock_ready _ _ _ _ Ec Hc1 Hr1) as (Hc2 & Hr2 & Hh2 & Hw2 & Hp2).
  destruct (ReceiveBytes t data h (calls_ c2)) as [[h' w'] ok] eqn:Er. rewrite <- Hp2.
  rewrite Hh1 in Hh2. pose proof (core_hooks n c2 Hc2 h Hh2) as Hk.
  destruct (ready_update n c2 h' w' (sock_ c2) (env_ c2) Hc2 Hr2) as [Hc3 Hr3].
  - by eapply hooked_ReceiveBytes.
  - eapply (ReceiveBytes_keeps (waiters (pending_keys c2))) in Er as [_ HI]; [|by apply hooked_waiters].
    apply HI, Hc2.
  - destruct ok; intros Hd; [by apply IH in Hd|by apply (ready_tear_down n) in Hd].
Qed.

(** *** Timers of the handlers *)

Lemma core_mono n n' c : core n c → n <= n' → core n' c.
Proof. intros [? ? ?] ?. split; try done. lia. Qed.

Lemma cancel_only_timer (P : Z → Cb → Prop) i c :
  timers_are (λ j cb, P j cb ∧ j = i) c →
  timer_callbacks (if negb (i =? 0) then cancel_timer i c else c) = ∅.
Proof.
  intros Ht. unfold timer_callbacks in *. apply map_empty. intros j.
  destruct (Z.eqb_spec i 0) as [->|Hi]; simpl; rewrite ?lookup_delete_None;
    (destruct (callbacks_ (timers_ (loop_ c)) !! j) as [cb|] eqn:Hj;
      [destruct (Ht j cb Hj) as (? & ? & ->); tauto|tauto]).
Qed.

(** Adding a timer to a channel that has none. *)
Lemma add_timer_spec n delay cb c c' i :
  add_timer now delay cb c = (c', i) → timer_callbacks c = ∅ →
  1 <= next_id_ (timers_ (loop_ c)) <= n → n + 1 < 2 ^ 64 →
  timers_are (λ j cb', cb' = cb ∧ j = i) c' ∧ 1 <= next_id_ (timers_ (loop_ c')) <= n + 1 ∧
  ∃ e, c' = {| c with env_ := e; loop_ := loop_ c' |} ∧
    watched_fd_ (loop_ c') = watched_fd_ (loop_ c) ∧
    watched_on_ready_ (loop_ c') = watched_on_ready_ (loop_ c).
Proof.
  intros Ha Hcb Hid Hn. unfold add_timer, read_clock in Ha.
  destruct (now (env_ c)) as [e t]. simpl in Ha. injection Ha as <- <-. simpl.
  rewrite Z.mod_small by lia. split_and!; try lia; [|by exists e].
  intros j cb'. unfold timer_callbacks, emplace in *. simpl. rewrite Hcb, lookup_empty.
  rewrite lookup_insert_Some. intros [[<- <-]|[_ Hj]]; [|done]. split; [lia|done].
Qed.

Lemma RearmKeepalive_ready n c :
  core n c → ready c → n + 1 < 2 ^ 64 →
  let c' := RearmKeepalive now c in
  core (n + 1) c' ∧ ready c' ∧ pending_calls_ c' = pending_calls_ c.
Proof.
  intros Hc Hr Hn. unfold RearmKeepalive. rewrite ready_is_ready by done.
  destruct (ready_h2 c Hr) as [h Hh]. rewrite Hh.
  pose proof (cancel_only_timer (λ _ cb, cb = CbKeepalive) (keepalive_timer_ c) c (ready_timers c Hr)) as Hcb.
  set (c1 := if negb (keepalive_timer_ c =? 0) then _ else c).
  assert (H1 : core n c1 ∧ ready c1 ∧ timer_callbacks c1 = ∅ ∧ pending_calls_ c1 = pending_calls_ c).
  { subst c1. destruct Hc as [Hw Hhk Hid], Hr as [Hs Hh2 Ht Hrd].
    destruct (Z.eqb_spec (keepalive_timer_ c) 0) as [E0|E0]; simpl in Hcb |- *.
    - split_and!; try done; split; try done.
    - split_and!; try done; split; simpl; try done. intros i cb. unfold timer_callbacks. simpl.
      change (delete _ _) with (timer_callbacks (cancel_timer (keepalive_timer_ c) c)). by rewrite Hcb. }
  clearbody c1. destruct H1 as (Hc1 & Hr1 & Ht1 & Hp1). clear Hcb.
  destruct (read_clock now c1) as [c2 t2] eqn:E2.
  destruct (read_clock_ready _ _ _ _ E2 Hc1 Hr1) as (Hc2 & Hr2 & _ & _ & Hp2).
  assert (Ht2 : timer_callbacks c2 = ∅).
  { unfold read_clock in E2. destruct (now (env_ c1)). by injection E2 as <- <-. }
  destruct (NextKeepaliveDeadline h) as [d|].
  2: { simpl. split_and!; [by apply (core_mono n); [|lia]|done|congruence]. }
  destruct (read_clock now c2) as [c3 t3] eqn:E3.
  destruct (read_clock_ready _ _ _ _ E3 Hc2 Hr2) as (Hc3 & Hr3 & _ & _ & Hp3).
  assert (Ht3 : timer_callbacks c3 = ∅).
  { unfold read_clock in E3. destruct (now (env_ c2)). by injection E3 as <- <-. }
  destruct (add_timer now (d - t3) CbKeepalive c3) as [c4 i] eqn:E4.
  destruct (add_timer_spec n _ _ _ _ _ E4 Ht3 (core_ids n c3 Hc3) Hn) as (Ht4 & Hid4 & e & -> & Hwf & Hwr).
  destruct Hc3 as [Hw3 Hk3 _], Hr3 as [Hs3 Hh3 _ Hrd3]. split_and!.
  - split; [exact Hw3|exact Hk3|exact Hid4].
  - split; [exact Hs3|exact Hh3|exact Ht4|]. simpl in *. by rewrite Hwr.
  - simpl. congruence.
Qed.

(** *** Submitting *)

(** As [core], for a list of waiters that need not be [pending_calls_]. *)
Record carried (n : Z) (pend : list Z) c : Prop := {
  car_waiters : waiters pend (calls_ c);
  car_hooks h : h2_ c = Some h → hooked h;
  car_ids : 1 <= next_id_ (timers_ (loop_ c)) <= n;
}.

Lemma core_carried n c : core n c ↔ carried n (pending_keys c) c.
Proof. split; intros [? ? ?]; by split. Qed.

(** The call is not yet anywhere: one more waiter. *)
Lemma SubmitCall_ready n pc pend c :
  carried n (ChannelImpl.call pc :: pend) c → ready c →
  let c' := SubmitCall cfg pc c in
  carried n pend c' ∧ ready c' ∧ pending_calls_ c' = pending_calls_ c.
Proof.
  intros [Hw Hk Hid] Hr. pose proof Hr as [Hs Hh2 Ht Hrd]. unfold SubmitCall.
  rewrite ready_is_ready by done. destruct Hh2 as [h Hh]. rewrite Hh.
  destruct (SubmitUnaryRequest _ _ _ h) as [h' i] eqn:E'.
  assert (Hk' : hooked h') by (eapply hooked_SubmitUnaryRequest; [done|by apply Hk]).
  destruct (Z.ltb_spec i 0).
  - split_and!; [|by split|done]. split; simpl; [|naive_solver|done].
    by apply (waiters_complete _ _ _ (Fail kUnavailable (error_ h'))).
  - split_and!; [|by split|done]. split; simpl; [|naive_solver|done].
    pose proof (waiters_event _ _ (ChannelImpl.call pc) (Submitted i) Hw) as Hw'.
    intros k cs Hcs. destruct (Hw' k cs Hcs) as [Hi Hd]. split; [done|].
    simpl in *. set_solver.
Qed.

Lemma submit_pending_ready n pcs c :
  carried n (ChannelImpl.call <$> pcs) c → ready c →
  let c' := submit_pending cfg pcs c in
  carried n [] c' ∧ ready c' ∧ pending_calls_ c' = pending_calls_ c.
Proof.
  revert c. induction pcs as [|pc pcs IH]; intros c Hc Hr; cbn [submit_pending]; [by split_and!|].
  rewrite ready_is_ready by done. cbn [negb].
  destruct (SubmitCall_ready n pc _ c Hc Hr) as (Hc1 & Hr1 & Hp1).
  destruct (IH (SubmitCall cfg pc c) Hc1 Hr1) as (? & ? & ?). split_and!; [done..|congruence].
Qed.

(** *** Connecting *)

Lemma StartSession_inv n fuel c c' :
  core n c → connecting c → timer_callbacks c = ∅ → n + 1 < 2 ^ 64 →
  StartSession now client_new cfg fuel c = Done c' → chan_inv (n + 1) c'.
Proof.
  intros Hc [Hs Ha Hh _ _] Ht Hn. unfold StartSession, read_clock.
  destruct (now (env_ c)) as [e t]. cbn [env_].
  pose proof (client_new_open e) as Hopen. destruct (client_new e) as [e' [crc client]].
  set (h := new_http2_session _ _ _ _ _).
  assert (Hk : hooked h) by (by apply hooked_new).
  set (c1 := {| c with env_ := e'; h2_ := Some h |}).
  assert (Hc1 : core n c1). { destruct Hc as [? ? ?]. split; simpl; try done. naive_solver. }
  destruct (ok h); cbn [negb].
  2: { intros Htd. eapply (TearDown_Done n) in Htd as (? & ? & ?); try done;
         [|simpl; congruence..|intros i cb; unfold timer_callbacks in *; simpl; by rewrite Ht].
       split; [by apply (core_mono n); [|lia]|]. by do 3 right. }
  set (c2 := {| (watch (sock_fd (sock_ c1)) EvSession RdSocketReady c1) with state_ := kReady |}).
  assert (Hc2 : core n c2 ∧ ready c2).
  { destruct Hc1 as [? ? ?]. split; [by split|]. split; simpl; try done.
    intros i cb. unfold timer_callbacks in *. simpl. by rewrite Ht. }
  destruct Hc2 as [Hc2 Hr2].
  match goal with |- rbind (FlushOutput fuel ?x) _ = _ → _ => change x with c2 end.
  destruct (FlushOutput fuel c2) as [c3| |] eqn:Hf; try done. cbn [rbind].
  apply (FlushOutput_ready n) in Hf as [Hc3 Hph]; [|done..].
  destruct Hph as [[Hr3 Hp3]|Hd].
  - destruct (RearmKeepalive_ready n c3 Hc3 Hr3 Hn) as (Hc4 & Hr4 & Hp4).
    destruct (submit_pending_ready (n + 1) (pending_calls_ (RearmKeepalive now c3))
                (clear_pending (RearmKeepalive now c3))) as (Hc5 & Hr5 & Hp5).
    { destruct Hc4 as [? ? ?]. by split. } { by destruct Hr4; split. }
    rewrite ready_is_ready by done. intros Hf2. apply (FlushOutput_ready (n + 1)) in Hf2; [|..|done].
    + destruct Hf2 as [? [[? Hp]|?]]; (split; [done|]); [|by do 3 right].
      right; right; left. split; [done|]. by rewrite Hp, Hp5.
    + apply core_carried. unfold pending_keys. by rewrite Hp5.
  - destruct Hd as [Hst Hrest].
    assert (Hnr : is_ready c3 = false).
    { unfold is_ready. apply bool_decide_eq_false. destruct Hst as [-> | ->]; done. }
    unfold RearmKeepalive. rewrite Hnr. rewrite (rest_pending c3 Hrest). cbn [submit_pending].
    change (is_ready (clear_pending c3)) with (is_ready c3). rewrite Hnr. intros [= <-].
    assert (clear_pending c3 = c3) as ->.
    { unfold clear_pending. pose proof (rest_pending c3 Hrest) as Hp. destruct c3; simpl in *. by subst. }
    split; [by apply (core_mono n); [|lia]|]. do 3 right. by split.
Qed.

Lemma OnConnectProgress_inv n fuel c c' :
  core n c → connecting c → n + 1 < 2 ^ 64 →
  OnConnectProgress now client_new cfg fuel c = Done c' → chan_inv (n + 1) c'.
Proof.
  intros Hc Hco Hn. unfold OnConnectProgress.
  destruct (sock_ContinueConnect (sock_ c)) as [s st].
  set (c1 := {| c with sock_ := s |}).
  assert (H1 : core n c1 ∧ connecting c1) by (by destruct Hc, Hco; split; split).
  destruct H1 as [Hc1 Hco1]. clearbody c1. clear Hc Hco c.
  assert (Hkeep : Done c1 = Done c' → chan_inv (n + 1) c').
  { intros [= <-]. split; [by apply (core_mono n); [|lia]|]. by right; left. }
  set (c2 := if negb (connect_timer_ c1 =? 0) then _ else c1).
  assert (H2 : core n c2 ∧ connecting c2 ∧ timer_callbacks c2 = ∅).
  { pose proof (cancel_only_timer (λ _ cb, cb = CbConnectTimeout) _ c1 (conn_timers c1 Hco1)) as Hcb.
    subst c2. destruct Hc1 as [? ? ?], Hco1 as [? ? ? ? ?].
    destruct (negb (connect_timer_ c1 =? 0)); [|by split_and!].
    assert (Ht : timer_callbacks {| (cancel_timer (connect_timer_ c1) c1) with connect_timer_ := 0 |} = ∅)
      by exact Hcb.
    split_and!; [by split| |done]. split; try done.
    intros i cb. rewrite Ht. by rewrite lookup_empty. }
  destruct H2 as (Hc2 & Hco2 & Ht2). clearbody c2.
  assert (Hdead : TearDown SockError c2 = Done c' → chan_inv (n + 1) c').
  { intros Htd. eapply (TearDown_Done n) in Htd as (? & ? & ?); try done.
    - split; [by apply (core_mono n); [|lia]|]. by do 3 right.
    - by rewrite (conn_state c2 Hco2).
    - by rewrite (conn_state c2 Hco2).
    - intros i cb Hi. by rewrite Ht2 in Hi. }
  destruct st; try done. rewrite bool_decide_eq_true_2 by done. by apply StartSession_inv.
Qed.

Lemma StartConnecting_inv n c c' :
  core n c → at_rest {| c with pending_calls_ := [] |} → n + 1 < 2 ^ 64 →
  StartConnecting now cfg c = Done c' → chan_inv (n + 1) c'.
Proof.
  intros Hc [Ha _ Hh Ht _] Hn. unfold StartConnecting.
  set (c1 := {| c with state_ := kConnecting |}).
  destruct (add_timer now _ CbConnectTimeout c1) as [c2 i] eqn:Ea.
  destruct (add_timer_spec n _ _ _ _ _ Ea Ht (core_ids n c Hc) Hn) as (Ht2 & Hid2 & e & Hc2 & _ & _).
  clear Ea. set (c3 := {| c2 with connect_timer_ := i |}).
  destruct (sock_StartConnect _ _ _ _) as [s started].
  set (c4 := {| c3 with sock_ := s |}).
  assert (Hc4 : core (n + 1) c4).
  { destruct Hc as [? ? ?]. split; simpl; [|rewrite Hc2; simpl; naive_solver|done].
    unfold pending_keys. simpl. by rewrite Hc2. }
  assert (Hst : state_ c4 = kConnecting) by (simpl; by rewrite Hc2).
  destruct started; cbn [negb].
  - intros [= <-]. split; [by destruct Hc4; split|]. right; left.
    split; simpl; try done; try (by rewrite Hc2).
  - intros Htd. eapply (TearDown_Done (n + 1)) in Htd as (? & ? & ?); try done.
    + split; [done|]. by do 3 right.
    + by rewrite Hst.
    + by rewrite Hst.
    + intros j cb Hj. destruct (Ht2 j cb Hj) as (? & _ & ?). split; [done|]. by left.
Qed.

Lemma HandleNewCall_inv n fuel pc c c' :
  carried n (ChannelImpl.call pc :: pending_keys c) c → phase c → n + 1 < 2 ^ 64 →
  HandleNewCall now cfg fuel pc c = Done c' → chan_inv (n + 1) c'.
Proof.
  intros Hc Hph Hn. unfold HandleNewCall.
  assert (Hq : core n {| c with pending_calls_ := pending_calls_ c ++ [pc] |}).
  { destruct Hc as [Hw Hk Hid]. split; simpl; try done. unfold pending_keys. simpl.
    rewrite fmap_app. eapply waiters_mono; [done|]. set_solver. }
  assert (Hf : ∀ m, dead c → chan_inv (n + 1) {| c with calls_ :=
                 fail_call kUnavailable m (calls_ c) (ChannelImpl.call pc) |}).
  { intros m [Hs [Ha Hp Hh Ht Hwd]]. destruct Hc as [Hw Hk Hid]. split.
    - apply (core_mono n); [|lia]. split; simpl; try done.
      by apply (waiters_complete _ _ _ (Fail kUnavailable m)).
    - do 3 right. by split; [|split]. }
  destruct Hph as [[Hs Hrest]|[Hco|[[Hr Hp]|Hd]]].
  - pattern (state_ c) at 1. rewrite Hs. apply (StartConnecting_inv n); try done. by destruct Hrest; split.
  - pattern (state_ c) at 1. rewrite (conn_state c Hco). intros [= <-]. split; [by apply (core_mono n); [|lia]|].
    right; left. by destruct Hco; split.
  - pattern (state_ c) at 1. rewrite (ready_state c Hr). destruct (SubmitCall_ready n pc _ c Hc Hr) as (Hc1 & Hr1 & Hp1).
    intros Hfl. apply (FlushOutput_ready n) in Hfl as [Hc2 Hph2]; [|..|done].
    + split; [by apply (core_mono n); [|lia]|].
      destruct Hph2 as [[? Hp2]|?]; [|by do 3 right]. right; right; left. split; [done|].
      by rewrite Hp2, Hp1.
    + apply core_carried. unfold pending_keys in *. by rewrite Hp1.
  - specialize (Hf (bs "channel is shut down") Hd) as Hf1. specialize (Hf (failure_detail_ c) Hd).
    destruct Hd as [[Hs|Hs] _]; pattern (state_ c) at 1; rewrite Hs; by intros [= <-].
Qed.

(** *** The other handlers *)

Lemma ready_or_dead_inv n n' c : ready_or_dead n [] c → n <= n' → chan_inv n' c.
Proof.
  intros [Hc Hph] Hn. split; [by apply (core_mono n)|].
  destruct Hph as [[? ?]|?]; [by right; right; left|by do 3 right].
Qed.

Lemma dead_not_ready c : dead c → is_ready c = false.
Proof. intros [Hs _]. unfold is_ready. apply bool_decide_eq_false. destruct Hs as [-> | ->]; done. Qed.

Lemma OnSocketReady_inv n fuel revents c c' :
  core n c → ready c → pending_calls_ c = [] → n + 1 < 2 ^ 64 →
  OnSocketReady now fuel revents c = Done c' → chan_inv (n + 1) c'.
Proof.
  intros Hc Hr Hp Hn. unfold OnSocketReady.
  destruct (if negb _ then DrainSocket now fuel c else Done c) as [c1| |] eqn:E1; try done.
  assert (H1 : ready_or_dead n [] c1).
  { rewrite <- Hp. destruct (negb _); [by apply (DrainSocket_ready n) in E1|].
    injection E1 as <-. by split; [|left]. }
  cbn [rbind]. destruct H1 as [Hc1 [[Hr1 Hp1]|Hd1]].
  2: { rewrite dead_not_ready by done. cbn [rbind]. rewrite dead_not_ready by done. intros [= <-].
       split; [by apply (core_mono n); [|lia]|]. by do 3 right. }
  rewrite ready_is_ready by done.
  destruct (FlushOutput fuel c1) as [c2| |] eqn:E2; try done. cbn [rbind].
  apply (FlushOutput_ready n) in E2 as [Hc2 [[Hr2 Hp2]|Hd2]]; try done.
  - rewrite ready_is_ready by done. intros [= <-].
    destruct (RearmKeepalive_ready n c2 Hc2 Hr2 Hn) as (? & ? & Hp3). split; [done|].
    right; right; left. split; [done|]. by rewrite Hp3, Hp2.
  - rewrite dead_not_ready by done. intros [= <-].
    split; [by apply (core_mono n); [|lia]|]. by do 3 right.
Qed.

Lemma OnKeepaliveTimer_inv n fuel c c' :
  core n c → ready {| c with keepalive_timer_ := 0 |} → timer_callbacks c = ∅ →
  pending_calls_ c = [] → n + 1 < 2 ^ 64 →
  OnKeepaliveTimer now fuel c = Done c' → chan_inv (n + 1) c'.
Proof.
  intros Hc Hr Ht Hp Hn. unfold OnKeepaliveTimer.
  set (c1 := {| c with keepalive_timer_ := 0 |}).
  assert (Hc1 : core n c1) by (by destruct Hc; split).
  change (pending_calls_ c) with (pending_calls_ c1) in Hp.
  change (ready c1) in Hr. clearbody c1. clear Hc Ht c. rewrite ready_is_ready by done.
  destruct (ready_h2 c1 Hr) as [h Hh]. rewrite Hh.
  destruct (read_clock now c1) as [c2 t] eqn:E2.
  destruct (read_clock_ready _ _ _ _ E2 Hc1 Hr) as (Hc2 & Hr2 & Hh2 & _ & Hp2).
  pose proof (core_hooks n c1 Hc1 h Hh) as Hk.
  destruct (CheckKeepalive t h) as [h' a] eqn:Ek.
  assert (Hk' : hooked h') by (by eapply hooked_CheckKeepalive).
  destruct (ready_update n c2 h' (calls_ c2) (sock_ c2) (env_ c2) Hc2 Hr2 Hk' (core_waiters n c2 Hc2))
    as [Hc3 Hr3].
  set (c3 := {| c2 with h2_ := Some h' |}).
  change (core n c3) in Hc3. change (ready c3) in Hr3.
  assert (Hp3 : pending_calls_ c3 = []) by (simpl; congruence).
  clearbody c3.
  assert (Hgo : rbind (FlushOutput fuel c3) (λ c, Done (RearmKeepalive now c)) = Done c' →
                chan_inv (n + 1) c').
  { destruct (FlushOutput fuel c3) as [c4| |] eqn:E4; try done. cbn [rbind]. intros [= <-].
    apply (FlushOutput_ready n) in E4 as [Hc4 [[Hr4 Hp4]|Hd4]]; try done.
    - destruct (RearmKeepalive_ready n c4 Hc4 Hr4 Hn) as (? & ? & Hp5). split; [done|].
      right; right; left. split; [done|]. congruence.
    - unfold RearmKeepalive. rewrite dead_not_ready by done.
      split; [by apply (core_mono n); [|lia]|]. by do 3 right. }
  destruct a; try done. intros Htd.
  apply (ready_tear_down n) in Htd; try done. rewrite Hp3 in Htd.
  by apply (ready_or_dead_inv n); [|lia].
Qed.

(** *** Shutdown *)

Lemma final_flush_spec fuel c c' h :
  h2_ c = Some h → hooked h → waiters [] (calls_ c) → active_calls_ (calls_ c) = ∅ →
  final_flush fuel c = Done c' →
  waiters [] (calls_ c') ∧ active_calls_ (calls_ c') = ∅ ∧ loop_ c' = loop_ c ∧
  state_ c' = state_ c ∧ pending_calls_ c' = pending_calls_ c.
Proof.
  revert c h. induction fuel as [|fuel IH]; intros c h Hh Hk Hw Ha; cbn [final_flush]; [done|].
  rewrite Hh. unfold pending_output.
  destruct (PendingOutput (S fuel) h (calls_ c)) as [[[h1 w1] view]|] eqn:HP; [|done]. cbn [rbind].
  pose proof (PendingOutput_keeps _ _ _ _ _ _ _ HP (hooked_waiters h [] Hk)) as [_ Hw1].
  pose proof (PendingOutput_keeps _ _ _ _ _ _ _ HP (hooked_no_active h Hk)) as [_ Ha1].
  assert (Hk1 : hooked h1) by (by eapply hooked_PendingOutput).
  case_bool_decide as Hview; [intros [= <-]; simpl; by split_and!; auto|].
  cbn [sock_]. destruct (sock_Write view (sock_ c)) as [s [st written]] eqn:Hwr.
  case_bool_decide; [|intros [= <-]; simpl; by split_and!; auto].
  subst st. apply sock_Write_some in Hwr; [|done].
  intros Hf. eapply (IH _ (ConsumeOutput written h1)) in Hf; try done; simpl; auto.
  apply hooked_ConsumeOutput; [lia|done].
Qed.

Lemma phase_timers c :
  phase c → timers_are (λ i _, i = connect_timer_ c ∨ i = keepalive_timer_ c) c.
Proof.
  intros [[_ Hr]|[Hc|[[Hr _]|[_ Hr]]]] i cb Hi.
  - by rewrite (rest_timers c Hr) in Hi.
  - destruct (conn_timers c Hc i cb Hi) as (? & _ & ->). auto.
  - destruct (ready_timers c Hr i cb Hi) as (? & _ & ->). auto.
  - by rewrite (rest_timers c Hr) in Hi.
Qed.

Lemma phase_ready_h2 c : phase c → state_ c = kReady → is_Some (h2_ c).
Proof.
  intros Hph Hs. destruct Hph as [[? _]|[[? ? ? ? ?]|[[[? ? ? ?] ?]|[[?|?] _]]]]; congruence || done.
Qed.

Lemma phase_shutdown_rest c : phase c → state_ c = kShutdown → at_rest c.
Proof.
  intros Hph Hs. destruct Hph as [[? ?]|[[? ? ? ? ?]|[[[? ? ? ?] ?]|[_ ?]]]]; congruence || done.
Qed.

Lemma DoShutdown_inv n fuel c c' :
  chan_inv n c → DoShutdown fuel c = Done c' → chan_inv n c' ∧ state_ c' = kShutdown.
Proof.
  intros [[Hw Hk Hid] Hph]. unfold DoShutdown.
  destruct (bool_decide_reflect (state_ c = kShutdown)) as [Hs|Hs]; [by intros [= <-]|].
  set (c1 := {| c with state_ := kShutdown |}). set (m := bs "channel is shut down").
  rewrite (fail_all_Done (Text m) m) by (by left). cbn [rbind].
  rewrite (fail_all_Done (Text m) m) by (by left). cbn [rbind].
  match goal with |- context [CancelTimersAndUnwatch ?x] => set (c2 := x) end.
  assert (Hw2 : waiters [] (calls_ c2) ∧ active_calls_ (calls_ c2) = ∅).
  { simpl. rewrite <- foldl_app. split; [|by rewrite fail_all_active].
    apply waiters_fail_all. rewrite app_nil_r. by apply waiters_clear_active. }
  pose proof (CancelTimersAndUnwatch_spec c2 (phase_timers c Hph)) as Hspec. cbv zeta in Hspec.
  assert (Hh2 : h2_ c2 = h2_ c) by done. assert (Hst2 : state_ c2 = kShutdown) by done.
  assert (Hp2 : pending_calls_ c2 = []) by done.
  assert (Hid2 : next_id_ (timers_ (loop_ c2)) = next_id_ (timers_ (loop_ c))) by done.
  clearbody c2. set (c3 := CancelTimersAndUnwatch c2) in *. clearbody c3.
  destruct Hspec as (Hcb & Hfd & Hrd & _ & _ & Hni & Hst & _ & Hh3 & Hcalls & Hpend & _).
  destruct Hw2 as [Hw2 Ha2].
  assert (Hfin : ∀ c4 : Chan, waiters [] (calls_ c4) → active_calls_ (calls_ c4) = ∅ →
    loop_ c4 = loop_ c3 → state_ c4 = kShutdown → pending_calls_ c4 = [] →
    chan_inv n {| c4 with sock_ := sock_Close (sock_ c4); h2_ := None |} ∧ state_ c4 = kShutdown).
  { intros c4 Hw4 Ha4 Hl4 Hs4 Hp4. split; [|done]. split.
    - split; simpl; [|done|rewrite Hl4, Hni, Hid2; done]. unfold pending_keys. simpl. by rewrite Hp4.
    - do 3 right. split; [by right|]. unfold timer_callbacks in *.
      split; simpl; try done; unfold timer_callbacks; simpl; by rewrite Hl4. }
  destruct (is_ready c && bool_decide (is_Some (h2_ c))) eqn:Hwas; cbn [rbind].
  - apply andb_true_iff in Hwas as [_ Hsome]. apply bool_decide_eq_true in Hsome as [h Hh].
    destruct (final_flush fuel _) as [c4| |] eqn:Hff; try done. cbn [rbind]. intros [= <-].
    eapply (final_flush_spec _ _ _ (Terminate h)) in Hff as (? & ? & Hl & Hs4 & Hp4).
    + simpl in *. apply (Hfin c4); congruence || done.
    + simpl. by rewrite Hh3, Hh2, Hh.
    + by apply hooked_Terminate, (Hk h Hh).
    + simpl. by rewrite Hcalls.
    + simpl. by rewrite Hcalls.
  - intros [= <-]. apply (Hfin c3); rewrite ?Hcalls; congruence || done.
Qed.

(** *** Runs *)

(** One activation by the loop: a posted operation (a new call has just been allocated
    by its caller), a due timer, or readiness of the watched descriptor. *)
Inductive activation c : Chan → Prop :=
  | step_new_call fuel k path request md tmo pc c' :
      store (calls_ c) !! k = None → prepare_call cfg k path request md tmo = inr pc →
      call_op now cfg fuel (OpNewCall pc)
        {| c with calls_ := {| (calls_ c) with store :=
             <[k := new_call (max_receive_message_size (options_ cfg))]> (store (calls_ c)) |} |} = Done c' →
      activation c c'
  | step_shutdown fuel c' :
      call_op now cfg fuel OpShutdown c = Done c' → activation c c'
  | step_timer fuel i cb h' c' :
      timer_callbacks c !! i = Some cb →
      callbacks_ h' = delete i (timer_callbacks c) → next_id_ h' = next_id_ (timers_ (loop_ c)) →
      call_cb now fuel cb {| c with loop_ := {| (loop_ c) with timers_ := h' |} |} = Done c' →
      activation c c'
  | step_ready fuel rd revents c' :
      watched_on_ready_ (loop_ c) = Some rd →
      call_rd now client_new cfg fuel rd revents c = Done c' → activation c c'.

(** Between activations the loop drops entries of cancelled timers from the heap. *)
Definition tidied c c' : Prop :=
  ∃ h, c' = {| c with loop_ := {| (loop_ c) with timers_ := h |} |} ∧
       callbacks_ h = timer_callbacks c ∧ next_id_ h = next_id_ (timers_ (loop_ c)).

Definition chan_step c c' : Prop := ∃ c0, tidied c c0 ∧ activation c0 c'.

Lemma tidied_refl c : tidied c c.
Proof. exists (timers_ (loop_ c)). split; [by destruct c as [????????[]]|done]. Qed.

Lemma activation_step c c' : activation c c' → chan_step c c'.
Proof. exists c. split; [apply tidied_refl|done]. Qed.

(** The channel's invariant sees the loop's members through the timers' callbacks and
    next id, the watched descriptor and its handler. *)
Lemma chan_inv_loop n c o o' :
  chan_inv n {| c with loop_ := o |} → callbacks_ (timers_ o') = callbacks_ (timers_ o) →
  next_id_ (timers_ o') = next_id_ (timers_ o) → watched_fd_ o' = watched_fd_ o →
  watched_on_ready_ o' = watched_on_ready_ o → chan_inv n {| c with loop_ := o' |}.
Proof.
  intros [[Hw Hk Hid] Hph] Hcb Hn Hfd Hrd.
  assert (Ht : timer_callbacks {| c with loop_ := o' |} = timer_callbacks {| c with loop_ := o |}) by exact Hcb.
  split; [split; [done|done|simpl in *; lia]|].
  destruct Hph as [[? [? ? ? H1 [? ?]]]|[[? ? ? H1 ?]|[[[? ? H1 ?] ?]|[? [? ? ? H1 [? ?]]]]]].
  - left. split; [done|]. split; simpl in *; try done; [by rewrite Ht|]. split; congruence.
  - right; left. split; simpl in *; try done; [|congruence]. intros i cb. rewrite Ht. apply H1.
  - right; right; left. split; [|done]. split; simpl in *; try done; [|congruence]. intros i cb. rewrite Ht. apply H1.
  - do 3 right. split; [done|]. split; simpl in *; try done; [by rewrite Ht|]. split; congruence.
Qed.

Lemma chan_inv_tidied n c c' : tidied c c' → chan_inv n c → chan_inv n c'.
Proof.
  intros (h & -> & Hcb & Hid) Hi. apply (chan_inv_loop n c (loop_ c)); [|done..].
  by replace {| c with loop_ := loop_ c |} with c by (by destruct c).
Qed.

Lemma activation_inv n c c' : chan_inv n c → n + 1 < 2 ^ 64 → activation c c' → chan_inv (n + 1) c'.
Proof.
  intros [Hc Hph] Hn Hstep. destruct Hstep as
    [fuel k path request md tmo pc c' Hk Hpc Hop|fuel c' Hop|fuel i cb h' c' Hi Hcb Hid Hop
    |fuel rd revents c' Hrd Hop].
  - cbn [call_op] in Hop.
    assert (Hkey : ChannelImpl.call pc = k).
    { unfold prepare_call in Hpc. case_test_in Hpc; [done|]. by injection Hpc as <-. }
    eapply HandleNewCall_inv; [| |done|exact Hop].
    + destruct Hc as [Hw Hkk Hids]. split; simpl; try done. rewrite Hkey.
      intros j cs. simpl. rewrite lookup_insert_Some. intros [[<- <-]|[Hne Hj]].
      * split; [done|]. right; right. by left.
      * destruct (Hw j cs Hj) as [? ?]. split; [done|]. set_solver.
    + destruct Hph as [[? [? ? ? ? ?]]|[[? ? ? ? ?]|[[[? ? ? ?] ?]|[? [? ? ? ? ?]]]]].
      * left. by split; [|split].
      * right; left. by split.
      * right; right; left. by split; [split|].
      * do 3 right. by split; [|split].
  - cbn [call_op] in Hop. apply (DoShutdown_inv n) in Hop as [[? ?] _]; [|by split].
    split; [by apply (core_mono n); [|lia]|done].
  - set (c1 := {| c with loop_ := {| (loop_ c) with timers_ := h' |} |}) in *.
    assert (Hc1 : core n c1). { destruct Hc as [? ? ?]. split; simpl; try done. by rewrite Hid. }
    assert (Hcb1 : timer_callbacks c1 = delete i (timer_callbacks c)) by exact Hcb.
    destruct Hph as [[? [? ? ? Ht ?]]|[Hco|[[Hr Hp]|[? [? ? ? Ht ?]]]]];
      [by rewrite Ht in Hi| | |by rewrite Ht in Hi].
    + pose proof Hco as [Hs Ha Hh Ht Hwd]. destruct (Ht i cb Hi) as (_ & -> & ->). cbn [call_cb] in Hop.
      eapply (TearDown_Done n) in Hop as (? & ? & ?); try done.
      * split; [by apply (core_mono n); [|lia]|]. by do 3 right.
      * destruct Hc1 as [? ? ?]. by split.
      * simpl. by rewrite Hs.
      * simpl. by rewrite Hs.
      * intros j cb Hj. change (timer_callbacks _) with (timer_callbacks c1) in Hj. rewrite Hcb1 in Hj.
        apply lookup_delete_Some in Hj as [Hne Hj]. destruct (Ht j cb Hj) as (_ & _ & ->). done.
    + pose proof Hr as [Hs Hh Ht Hwd]. destruct (Ht i cb Hi) as (_ & -> & ->). cbn [call_cb] in Hop.
      assert (Hempty : timer_callbacks c1 = ∅).
      { rewrite Hcb1. apply map_empty. intros j. rewrite lookup_delete_None.
        destruct (timer_callbacks c !! j) as [cb|] eqn:Hj; [|by right].
        destruct (Ht j cb Hj) as (_ & _ & ->). by left. }
      apply (OnKeepaliveTimer_inv n) in Hop; try done.
      split; try done. intros j cb. change (timer_callbacks _) with (timer_callbacks c1). by rewrite Hempty.
  - destruct Hph as [[? [? ? ? ? [? Hno]]]|[Hco|[[Hr Hp]|[? [? ? ? ? [? Hno]]]]]].
    + congruence.
    + rewrite (conn_watch c Hco) in Hrd. injection Hrd as <-. cbn [call_rd] in Hop.
      by apply (OnConnectProgress_inv n) in Hop.
    + rewrite (ready_watch c Hr) in Hrd. injection Hrd as <-. cbn [call_rd] in Hop.
      by apply (OnSocketReady_inv n) in Hop.
    + congruence.
Qed.

Lemma chan_step_inv n c c' : chan_inv n c → n + 1 < 2 ^ 64 → chan_step c c' → chan_inv (n + 1) c'.
Proof. intros Hi Hn (c0 & Ht & Ha). eapply activation_inv; [|done..]. by eapply chan_inv_tidied. Qed.

Lemma new_channel_inv s e : chan_inv 1 (new_channel s e).
Proof.
  split.
  - by split.
  - left. split; [done|]. by split.
Qed.

Lemma chan_steps_inv n steps c c' :
  chan_inv n c → nsteps chan_step steps c c' → n + Z.of_nat steps < 2 ^ 64 → chan_inv (n + Z.of_nat steps) c'.
Proof.
  intros Hn Hrun. revert n Hn. induction Hrun as [c|steps a b d Hab Hbd IH]; intros n Hn Hb.
  - by rewrite Z.add_0_r.
  - replace (n + Z.of_nat (S steps)) with (n + 1 + Z.of_nat steps) by lia.
    apply IH; [|lia]. apply (chan_step_inv n a); [done|lia|done].
Qed.

Lemma chan_run_inv steps s e c :
  nsteps chan_step steps (new_channel s e) c → Z.of_nat steps + 1 < 2 ^ 64 →
  chan_inv (Z.of_nat steps + 1) c.
Proof.
  intros Hrun Hb. rewrite Z.add_comm. eapply chan_steps_inv; [apply new_channel_inv|done|lia].
Qed.

(** *** A draining session *)

Definition drained_output (h : Http2Session Calls) (ng : ng_session) : Prop :=
  session_ h = Some ng ∧ zlen (out_ h) <= out_consumed_ h ∧ ng_mem_send ng = SendRet ng 0 [].

Definition draining_error : bytes := bs "session is draining (GOAWAY received); no new streams".

Lemma PendingOutput_drained fuel h ng w :
  drained_output h ng →
  PendingOutput (S fuel) h w = Some ({| h with session_ := Some ng; out_ := []; out_consumed_ := 0 |}, w, []).
Proof.
  intros (Hng & Hout & Hsend). unfold PendingOutput. rewrite Hng.
  destruct (Z.leb_spec (zlen (out_ h)) (out_consumed_ h)) as [_|?]; [|lia].
  cbn [refill session_]. rewrite Hsend. reflexivity.
Qed.

Lemma SubmitCall_draining pc c h ng :
  state_ c = kReady → h2_ c = Some h → draining_ h = true → session_ h = Some ng →
  SubmitCall cfg pc c =
    {| c with h2_ := Some {| h with error_ := draining_error |};
              calls_ := fail_call kUnavailable draining_error (calls_ c) (ChannelImpl.call pc) |}.
Proof.
  intros Hs Hh Hd Hng. unfold SubmitCall, is_ready. rewrite Hs, Hh, bool_decide_eq_true_2 by done.
  unfold SubmitUnaryRequest. rewrite Hng, Hd. cbn [Z.ltb Z.compare]. reflexivity.
Qed.

(** The flush does not distinguish a stale error from a dead transport. *)
Lemma FlushOutput_stale_error fuel c h ng :
  state_ c = kReady → h2_ c = Some h → error_ h ≠ [] → drained_output h ng →
  FlushOutput (S fuel) c =
    TearDown SessionError
      {| c with h2_ := Some {| h with session_ := Some ng; out_ := []; out_consumed_ := 0 |} |}.
Proof.
  intros Hs Hh He Hdo. cbn [FlushOutput]. rewrite (proj2 (is_ready_true c) Hs), Hh.
  unfold pending_output. rewrite (PendingOutput_drained _ _ ng) by done. cbn [negb rbind].
  unfold session_error. cbn [h2_ error_].
  by rewrite (bool_decide_eq_false_2 (error_ h = [])), bool_decide_eq_true_2.
Qed.

End Invariant.

(** ** Properties *)

Section Properties.
Import CallState.
Import ChannelImpl.
Import EventThread.
Import TimerHeap.
Context `{SZ : SizeT} `{SH : !StdHeap EntryLater} `{NL : Nghttp2Laws} `{SL : !TlsSocketLaws SO}.
Context {E : Type} (now : E → E * Z) (client_new : E → E * (Z * (Z * ng_session))).
(** A new nghttp2 session has no open stream. *)
Context (client_new_open : ∀ e, ng_open (client_new e).2.2.2 = ∅).
Context (cfg : ChannelConfig).

(** No waiter is stranded, after any sequence of handler runs: every call either
    has its result, or waits for the connection while the channel is connecting, or is
    registered with the session while the channel is ready; and on a failed or shut
    down channel every call has its result. *)
Theorem no_stranded_waiter (steps : nat) (s : socket_type) (e : E) (c : Channel) :
  nsteps (chan_step now client_new cfg) steps (new_channel s e) c → Z.of_nat steps + 1 < 2 ^ 64 →
  ∀ k cs, store (calls_ c) !! k = Some cs →
    is_Some (Wait cs) ∨
    (state_ c = kConnecting ∧ k ∈ ChannelImpl.call <$> pending_calls_ c) ∨
    (state_ c = kReady ∧ k ∈ active_calls_ (calls_ c)).
Proof.
  intros Hrun Hb k cs Hk. destruct (chan_run_inv _ _ client_new_open _ _ _ _ _ Hrun Hb) as [Hc Hph].
  destruct (core_waiters _ c Hc k cs Hk) as [_ [Hd|Hd]]; [left; unfold Wait; by rewrite Hd|].
  unfold pending_keys in Hd.
  destruct Hph as [[Hs [Ha Hp _ _ _]]|[[Hs Ha _ _ _]|[[[Hs _ _ _] Hp]|[Hs [Ha Hp _ _ _]]]]];
    rewrite ?Ha, ?Hp in Hd; set_solver.
Qed.

(** C26: what the loop holds for the channel always matches its state: a connect
    timeout can only be pending while connecting (so it never kills an established
    connection), a keepalive timer only while ready, the watched handler is that of
    the state, and an idle, failed or shut down channel has no timer, no watched
    descriptor and no session. *)
Theorem registrations_match_state (steps : nat) (s : socket_type) (e : E) (c : Channel) :
  nsteps (chan_step now client_new cfg) steps (new_channel s e) c → Z.of_nat steps + 1 < 2 ^ 64 →
  (∀ i cb, timer_callbacks c !! i = Some cb →
     match cb with
     | CbConnectTimeout => state_ c = kConnecting ∧ i = connect_timer_ c
     | CbKeepalive => state_ c = kReady ∧ i = keepalive_timer_ c
     end) ∧
  match state_ c with
  | kConnecting => watched_on_ready_ (loop_ c) = Some RdConnectProgress ∧ h2_ c = None
  | kReady => watched_on_ready_ (loop_ c) = Some RdSocketReady ∧ is_Some (h2_ c)
  | kIdle | kFailed | kShutdown =>
      timer_callbacks c = ∅ ∧ watched_fd_ (loop_ c) = -1 ∧ watched_on_ready_ (loop_ c) = None ∧
      h2_ c = None
  end.
Proof.
  intros Hrun Hb. destruct (chan_run_inv _ _ client_new_open _ _ _ _ _ Hrun Hb) as [_ Hph].
  destruct Hph as [[Hs [_ _ Hh Ht [Hf Hw]]]|[[Hs _ Hh Ht Hw]|[[[Hs Hh Ht Hw] _]|[Hs [_ _ Hh Ht [Hf Hw]]]]]].
  - rewrite Hs, Ht. split; [intros i cb; by rewrite lookup_empty|done].
  - rewrite Hs. split; [|done]. intros i cb Hi. by destruct (Ht i cb Hi) as (_ & -> & ->).
  - rewrite Hs. split; [|done]. intros i cb Hi. by destruct (Ht i cb Hi) as (_ & -> & ->).
  - rewrite Ht. split; [intros i cb; by rewrite lookup_empty|]. destruct Hs as [-> | ->]; done.
Qed.

(** C19: losing the transport with a failure text that outlives the session fails every
    open call and only those: each call without a result gets UNAVAILABLE with exactly
    that text, results already delivered stay, and the channel is left failed. *)
Theorem teardown_fails_every_call (steps : nat) (s : socket_type) (e : E) (c : Channel)
    (d : Detail) (m : bytes) :
  nsteps (chan_step now client_new cfg) steps (new_channel s e) c → Z.of_nat steps + 1 < 2 ^ 64 →
  state_ c ≠ kFailed → state_ c ≠ kShutdown → d ≠ SessionError → read_detail d c = Done m →
  ∃ c', TearDown d c = Done c' ∧ state_ c' = kFailed ∧ failure_detail_ c' = m ∧
    ∀ k cs, store (calls_ c) !! k = Some cs →
      ∃ cs', store (calls_ c') !! k = Some cs' ∧
        match Wait cs with
        | Some r => Wait cs' = Some r
        | None => ∃ r, Wait cs' = Some r ∧ code r = kUnavailable ∧ message r = m
        end.
Proof.
  intros Hrun Hb Hs1 Hs2 Hd Hm. destruct (chan_run_inv _ _ client_new_open _ _ _ _ _ Hrun Hb) as [Hc Hph].
  destruct (TearDown_spec _ d m c Hc Hs1 Hs2 (phase_timers c Hph) Hm)
    as (c' & Htd & _ & _ & Hs & Hf & Hcalls); [done|].
  exists c'. split_and!; [done..|]. intros k cs Hk.
  destruct (core_waiters _ c Hc k cs Hk) as [Hi Hw]. rewrite Hcalls.
  unfold Wait at 1. destruct (done_ cs) eqn:Hdone.
  - exists cs. split; [|unfold Wait; by rewrite Hdone].
    apply fail_all_closed; [done|]. by rewrite <- Hi.
  - exists (FailLocal kUnavailable m cs). split.
    + apply fail_all_results; [done|]. rewrite elem_of_app, elem_of_elements. naive_solver.
    + unfold FailLocal. rewrite <- Hi, Hdone. by eexists.
Qed.

(** Tearing the channel down with the session's own error text, as [FlushOutput],
    [DrainSocket] and [StartSession] do, is undefined behaviour whenever a call is in
    flight on a ready channel or waits for the connection: the text is destroyed with
    the session before the calls are failed with it. *)
Theorem session_error_detail_dangles (steps : nat) (s : socket_type) (e : E) (c : Channel) :
  nsteps (chan_step now client_new cfg) steps (new_channel s e) c → Z.of_nat steps + 1 < 2 ^ 64 →
  (state_ c = kReady → active_calls_ (calls_ c) ≠ ∅ → TearDown SessionError c = UseAfterFree) ∧
  (state_ c = kConnecting → pending_calls_ c ≠ [] →
   ∀ h, TearDown SessionError {| c with h2_ := Some h |} = UseAfterFree).
Proof.
  intros Hrun Hb. destruct (chan_run_inv _ _ client_new_open _ _ _ _ _ Hrun Hb) as [Hc Hph].
  pose proof (phase_timers c Hph) as Ht. split.
  - intros Hs Ha. destruct (phase_ready_h2 c Hph Hs) as [h Hh].
    apply (TearDown_dangling c h); [by rewrite Hs..|done|exact Ht|by left].
  - intros Hs Hp h.
    apply (TearDown_dangling _ h); [by simpl; rewrite Hs..|done|exact Ht|by right].
Qed.

(** C20: a call started after a GOAWAY, while another call is still in flight and
    nothing is left to write, does not just fail: the refused submission leaves the
    session's error set, the flush that follows takes it for a dead transport and
    tears the channel down through the destroyed text. *)
Theorem new_call_while_draining_dangles (steps fuel : nat) (s : socket_type) (e : E) (c : Channel)
    (pc : PendingCall) (h : Http2Session Calls) (ng : ng_session) :
  nsteps (chan_step now client_new cfg) steps (new_channel s e) c → Z.of_nat steps + 1 < 2 ^ 64 →
  state_ c = kReady → active_calls_ (calls_ c) ≠ ∅ →
  h2_ c = Some h → draining_ h = true →
  drained_output h ng →
  HandleNewCall now cfg (S fuel) pc c = UseAfterFree.
Proof.
  intros Hrun Hb Hs Ha Hh Hd Hout. destruct (chan_run_inv _ _ client_new_open _ _ _ _ _ Hrun Hb) as [Hc Hph].
  unfold HandleNewCall. rewrite Hs, (SubmitCall_draining _ pc c h ng) by (done || apply Hout).
  rewrite (FlushOutput_stale_error _ _ _ ng) by done. eapply TearDown_dangling; simpl.
  - by rewrite Hs.
  - by rewrite Hs.
  - done.
  - exact (phase_timers c Hph).
  - by left.
Qed.

(** A caller always has something to wait for that ends: [UnaryCall] refuses an
    oversized request with RESOURCE_EXHAUSTED and queues nothing; otherwise it either
    queues, last, exactly one operation that carries the call and the request behind
    its five-byte frame prefix, or, when the loop is not running or refuses the
    operation, the call it waits for is complete already, with UNAVAILABLE. *)
Theorem UnaryCall_posts_or_answers (k : Z) (path request : bytes) (md : HeaderList) (tmo : option Z)
    (loop_ok : bool) (failure : bytes) (sh : Shared Op) (w : Calls) :
  let '(sh', w', r) := UnaryCall cfg k path request md tmo loop_ok failure sh w in
  if max_send_message_size (options_ cfg) <? zlen request
  then sh' = sh ∧ w' = w ∧ ∃ res, r = inl res ∧ code res = kResourceExhausted
  else
    r = inr k ∧
    ∃ cs, store w' !! k = Some cs ∧
      if loop_ok && negb (stop_requested_ sh)
      then Wait cs = None ∧ ∃ pc, ops_ sh' = ops_ sh ++ [OpNewCall pc] ∧ ChannelImpl.call pc = k ∧
             framed_body pc = AppendGrpcFramePrefix (zlen request) [] ++ request ∧
             metadata pc = md ∧ timeout pc = tmo ∧ method_path pc = path
      else sh' = sh ∧ ∃ res, Wait cs = Some res ∧ code res = kUnavailable ∧
             message res = if loop_ok then bs "channel is shut down" else failure.
Proof.
  unfold UnaryCall, prepare_call.
  destruct (max_send_message_size (options_ cfg) <? zlen request); [by eauto|].
  unfold Post_locked. destruct loop_ok, (stop_requested_ sh); simpl; (split; [done|]);
    rewrite ?lookup_alter_eq, lookup_insert_eq; simpl;
    (eexists; split; [done|]); try (split; [done|]); by eexists.
Qed.

End Properties.

(** ** Witnesses *)

(** A socket that connects at once, takes every write and reads from a script. *)
Module ToySocket.

#[export] Instance toy_socket : TlsSocketOps := {|
  socket_type := list bytes;
  sock_StartConnect _ _ _ s := (s, true);
  sock_ContinueConnect s := (s, kOkIo);
  sock_DesiredPollEvents _ := 0;
  sock_Read _ s :=
    match s with
    | [] => ([], (kWantRead, []))
    | [] :: s => (s, (kWantRead, []))  (* the rest has not arrived yet *)
    | d :: s => (s, (kOkIo, d))
    end;
  sock_Write d s := (s, (kOkIo, zlen d));
  sock_Close s := s;
  sock_fd _ := 7;
  sock_error _ := bs "socket error";
|}.

#[export] Instance toy_socket_laws : TlsSocketLaws toy_socket.
Proof.
  split; [done|]. intros d s s' n Hd [= <- <-]. destruct d as [|b d]; [done|].
  split; [|done]. unfold zlen. simpl. lia.
Defined.

End ToySocket.

Section Witnesses.
Import ChannelImpl.
Import EventThread.
Import ToyNghttp2.
Import ToySocket.
Import TimerHeap.
Local Existing Instance size_t32.

(** A clock that advances at every reading, and a peer that sends a GOAWAY. *)
Definition ex_now (e : Z) : Z * Z := (e + 1, e).
Definition ex_client (e : Z) : Z * (Z * (Z * ng_session)) := (e, (0, (0, toy_new [[EvFrame (FGoaway 0 1 None)]]))).

Lemma ex_client_open e : ng_open (ex_client e).2.2.2 = ∅.
Proof. reflexivity. Qed.

Definition ex_tls : TlsConfig :=
  {| ca_bundle_path := []; ca_bundle_pem := []; client_cert_path := []; client_key_path := [];
     insecure_skip_verify_for_testing_only := false |}.

Definition ex_cfg : ChannelConfig :=
  {| host_ := bs "example.org"; port_ := 443; tls_ := ex_tls; options_ := default_channel_options |}.

Abbreviation ExChannel := (Channel (E := Z) (NG := toy_nghttp2) (SO := toy_socket)).

Definition ex_step : ExChannel → ExChannel → Prop :=
  chan_step ex_now ex_client ex_cfg.

Definition ex_idle : ExChannel := new_channel ([bs "goaway"] : socket_type) 0.

(** The caller's part of a new call, and the states along a run. *)
Definition ex_pc (k : Z) : PendingCall :=
  {| call := k; method_path := bs "/S/M"; framed_body := AppendGrpcFramePrefix 1 [] ++ bs "x";
     metadata := []; timeout := None |}.

Definition with_call (k : Z) (c : ExChannel) : ExChannel :=
  {| c with calls_ := {| (calls_ c) with store :=
       <[k := CallState.new_call (max_receive_message_size (options_ ex_cfg))]> (store (calls_ c)) |} |}.

Definition get (r : Res ExChannel) (d : ExChannel) : ExChannel := match r with Done c => c | _ => d end.

Definition is_done (r : Res ExChannel) : bool := match r with Done _ => true | _ => false end.

Lemma get_done r d : is_done r = true → r = Done (get r d).
Proof. by destruct r. Qed.

Definition ex_connecting : ExChannel :=
  get (call_op ex_now ex_cfg 20 (OpNewCall (ex_pc 1)) (with_call 1 ex_idle)) ex_idle.
Definition ex_ready : ExChannel :=
  get (call_rd ex_now ex_client ex_cfg 20 RdConnectProgress POLLIN ex_connecting) ex_idle.
Definition ex_draining : ExChannel :=
  get (call_rd ex_now ex_client ex_cfg 20 RdSocketReady POLLIN ex_ready) ex_idle.

Lemma ex_step1 : ex_step ex_idle ex_connecting.
Proof.
  apply activation_step. eapply (step_new_call _ _ _ _ 20 1 (bs "/S/M") (bs "x") [] None); [reflexivity..|].
  apply get_done. vm_compute. reflexivity.
Qed.

Lemma ex_step2 : ex_step ex_connecting ex_ready.
Proof.
  apply activation_step. eapply (step_ready _ _ _ _ 20 RdConnectProgress POLLIN); [vm_compute; reflexivity|].
  apply get_done. vm_compute. reflexivity.
Qed.

Lemma ex_step3 : ex_step ex_ready ex_draining.
Proof.
  apply activation_step. eapply (step_ready _ _ _ _ 20 RdSocketReady POLLIN); [vm_compute; reflexivity|].
  apply get_done. vm_compute. reflexivity.
Qed.

Lemma ex_ready_run : nsteps ex_step 2 ex_idle ex_ready.
Proof. eapply nsteps_l; [apply ex_step1|]. eapply nsteps_l; [apply ex_step2|]. constructor. Qed.

Lemma ex_draining_run : nsteps ex_step 3 ex_idle ex_draining.
Proof. eapply nsteps_r; [apply ex_ready_run|apply ex_step3]. Qed.

Lemma ex_ready_state : state_ ex_ready = kReady.
Proof. vm_compute. reflexivity. Qed.

Lemma ex_ready_waits : ∃ cs, store (calls_ ex_ready) !! 1 = Some cs ∧ CallState.Wait cs = None.
Proof.
  assert (H : CallState.Wait <$> store (calls_ ex_ready) !! 1 = Some None) by (vm_compute; reflexivity).
  destruct (store (calls_ ex_ready) !! 1) as [cs|]; [|done]. injection H as H. by exists cs.
Qed.

Lemma ex_draining_state : state_ ex_draining = kReady.
Proof. vm_compute. reflexivity. Qed.

Lemma ex_draining_active : active_calls_ (calls_ ex_draining) ≠ ∅.
Proof. apply (bool_decide_unpack _). vm_compute. exact I. Qed.

Lemma ex_draining_h2 :
  ∃ h ng, h2_ ex_draining = Some h ∧ draining_ h = true ∧ drained_output h ng.
Proof.
  assert (H : match h2_ ex_draining with
              | Some h => Some (draining_ h, session_ h, out_ h, out_consumed_ h)
              | None => None end =
              Some (true, Some {| t_open := {[1 := 1]}; t_next := 3; t_queue := []; t_script := [] |}, [], 0))
    by (vm_compute; reflexivity).
  destruct (h2_ ex_draining) as [h|]; [|done]. injection H as Hd Hs Ho Hc.
  eexists h, _. split; [done|]. split; [done|]. split; [done|]. by rewrite Ho, Hc.
Qed.

Lemma no_stranded_waiter_witness : 1 ∈ active_calls_ (calls_ ex_ready).
Proof.
  destruct ex_ready_waits as (cs & Hcs & Hw).
  destruct (no_stranded_waiter ex_now ex_client ex_client_open ex_cfg 2 _ 0 ex_ready ex_ready_run
              eq_refl 1 cs Hcs) as [H|[[H _]|[_ H]]].
  - rewrite Hw in H. destruct H as [r Hr]. discriminate Hr.
  - rewrite ex_ready_state in H. discriminate H.
  - exact H.
Defined.

Lemma registrations_match_state_witness :
  watched_on_ready_ (loop_ ex_ready) = Some RdSocketReady ∧ is_Some (h2_ ex_ready).
Proof.
  destruct (registrations_match_state ex_now ex_client ex_client_open ex_cfg 2 _ 0 ex_ready ex_ready_run) as [_ H].
  - reflexivity.
  - rewrite ex_ready_state in H. exact H.
Defined.

Lemma teardown_fails_every_call_witness :
  ∃ c', TearDown (Text (bs "gone")) ex_ready = Done c' ∧ state_ c' = kFailed.
Proof.
  destruct (teardown_fails_every_call ex_now ex_client ex_client_open ex_cfg 2 _ 0 ex_ready (Text (bs "gone")) (bs "gone")
              ex_ready_run) as (c' & H1 & H2 & _).
  - reflexivity.
  - rewrite ex_ready_state. discriminate.
  - rewrite ex_ready_state. discriminate.
  - discriminate.
  - reflexivity.
  - exists c'. split; assumption.
Defined.

Lemma session_error_detail_dangles_witness : TearDown SessionError ex_draining = UseAfterFree.
Proof.
  destruct (session_error_detail_dangles ex_now ex_client ex_client_open ex_cfg 3 _ 0 ex_draining ex_draining_run) as [H _].
  - reflexivity.
  - apply H; [apply ex_draining_state|apply ex_draining_active].
Defined.

Lemma new_call_while_draining_dangles_witness :
  HandleNewCall ex_now ex_cfg 20 (ex_pc 2) (with_call 2 ex_draining) = UseAfterFree ∧
  HandleNewCall ex_now ex_cfg 20 (ex_pc 2) ex_draining = UseAfterFree.
Proof.
  split; [vm_compute; reflexivity|].
  destruct ex_draining_h2 as (h & ng & E & Hd & Hout).
  apply (new_call_while_draining_dangles ex_now ex_client ex_client_open ex_cfg 3 19 _ 0 ex_draining (ex_pc 2) h ng
           ex_draining_run); try assumption.
  - reflexivity.
  - apply ex_draining_state.
  - apply ex_draining_active.
Defined.

End Witnesses.
