(* ===== verification/ChannelReturns.v ===== *)
(** * The channel's handlers return

    The loops of [ChannelImpl.v] take fuel; this file shows that they end on their own.
    A flush ends because every write takes some of a finite output: nghttp2's pending
    frames, then the bytes of the buffer, in lexicographic order.  A drain ends when the
    bytes the peer has sent run out.  So every handler has an outcome that no amount of
    fuel changes, and [DoShutdown] in particular always completes. *)

From Stdlib Require Import ZArith Lia.
From Stdlib Require Import Strings.String Strings.Byte.
From stdpp Require Import base numbers list gmap relations.
From S2P Require Import Prelude GrpcWire StdHeap TimerHeap Wakeup EventThread Http2Session Http2Properties CallState TlsSocket ChannelImpl ChannelProperties.

Local Open Scope Z_scope.

(** ** Outcomes that do not depend on fuel *)

Section Returns.
Context {A B : Type}.
Implicit Types f : nat → Res A.

(** With enough fuel [f] has the outcome [r]. *)
Definition settles f (r : Res A) : Prop := ∃ N, ∀ fuel, (N <= fuel)%nat → f fuel = r.

Definition returns f : Prop := ∃ r, r ≠ NoFuel ∧ settles f r.

Lemma returns_const r : r ≠ NoFuel → returns (λ _, r).
Proof. intros Hr. exists r. split; [done|]. by exists O. Qed.

(** An outcome from some fuel on, up to a prefix of the fuel. *)
Lemma returns_from f g N :
  (∀ fuel, (N <= fuel)%nat → f (S fuel) = g fuel) → returns g → returns f.
Proof.
  intros Hfg (r & Hr & N' & HN'). exists r. split; [done|]. exists (S (N + N')).
  intros [|fuel] Hle; [lia|]. rewrite Hfg by lia. apply HN'. lia.
Qed.

Lemma returns_same f g N : (∀ fuel, (N <= fuel)%nat → f fuel = g fuel) → returns g → returns f.
Proof.
  intros Hfg (r & Hr & N' & HN'). exists r. split; [done|]. exists (N + N')%nat.
  intros fuel Hle. rewrite Hfg by lia. apply HN'. lia.
Qed.

End Returns.

Lemma returns_bind {A B : Type} (f : nat → Res A) (g : A → nat → Res B) :
  returns f → (∀ a fuel, f fuel = Done a → returns (g a)) →
  returns (λ fuel, rbind (f fuel) (λ a, g a fuel)).
Proof.
  intros (r & Hr & N & HN) Hg. destruct r as [a| |]; [|by apply (returns_same _ (λ _, UseAfterFree) N);
    [intros fuel Hle; by rewrite HN|apply returns_const]|done].
  apply (returns_same _ (g a) N); [intros fuel Hle; by rewrite HN|].
  apply (Hg a N). by apply HN.
Qed.

Section Loops.
Import CallState.
Import ChannelImpl.
Import EventThread.
Import TimerHeap.
Context `{SZ : SizeT} `{SH : !StdHeap EntryLater} `{NL : Nghttp2Laws} `{SL : !TlsSocketLaws SO}.
Context {E : Type} (now : E → E * Z) (client_new : E → E * (Z * (Z * ng_session))).
Context (client_new_open : ∀ e, ng_open (client_new e).2.2.2 = ∅).
Context (cfg : ChannelConfig).
Abbreviation Chan := (Channel (E := E)).
Implicit Types c : Chan.

(** The session, when there is one, is well formed. *)
Definition fine c : Prop := ∀ h, h2_ c = Some h → session_ok h.

Lemma fail_all_returns d keys c : fail_all d keys c ≠ NoFuel.
Proof.
  revert c. induction keys as [|k keys IH]; intros c; cbn [fail_all]; [done|].
  destruct (read_detail d c) as [m| |] eqn:Hd; cbn [rbind]; [apply IH|done|].
  destruct d; simpl in Hd; try done. by destruct (h2_ c).
Qed.

Lemma TearDown_returns d c : TearDown d c ≠ NoFuel.
Proof.
  unfold TearDown. destruct (_ || _); [done|].
  destruct (read_detail d c) as [m| |] eqn:Hd; cbn [rbind]; [|done|].
  - destruct (fail_all d _ _) eqn:Hf; cbn [rbind]; [apply fail_all_returns|done|].
    by apply fail_all_returns in Hf.
  - destruct d; simpl in Hd; try done. by destruct (h2_ c).
Qed.

(** One turn of a flush: the view does not depend on the fuel, and writing some of it
    leaves less to write. *)
Lemma pending_output_settles c h :
  h2_ c = Some h → session_ok h →
  ∃ h1 w1 view,
    (∀ fuel, (output_fuel h <= fuel)%nat →
       pending_output fuel h c = Done ({| c with h2_ := Some h1; calls_ := w1 |}, view)) ∧
    session_ok h1 ∧
    ∀ n, view ≠ [] → 0 < n <= zlen view →
      session_ok (ConsumeOutput n h1) ∧
      ((queued (ConsumeOutput n h1) < queued h)%nat ∨
       (queued (ConsumeOutput n h1) = queued h ∧ unsent (ConsumeOutput n h1) < unsent h)%nat).
Proof.
  intros Hh Hok. destruct (PendingOutput_ok (output_fuel h) h (calls_ c) Hok ltac:(lia))
    as (h1 & w1 & view & HP & Hok1 & _).
  exists h1, w1, view. split_and!; [|done|].
  - intros fuel Hle. unfold pending_output. by rewrite (PendingOutput_mono _ fuel _ _ _ HP Hle).
  - intros n Hv Hn. split; [apply ConsumeOutput_ok; [lia|done]|]. by eapply PendingOutput_progress.
Qed.

Definition less (h' h : Http2Session Calls) : Prop :=
  (queued h' < queued h)%nat ∨ (queued h' = queued h ∧ unsent h' < unsent h)%nat.

(** Induction on what is left to write. *)
Lemma flush_ind (P : Chan → Prop) :
  (∀ c h, h2_ c = Some h → session_ok h →
     (∀ c' h', h2_ c' = Some h' → session_ok h' → less h' h → P c') → P c) →
  ∀ c h, h2_ c = Some h → session_ok h → P c.
Proof.
  intros Hstep.
  assert (Hgen : ∀ q u c h, h2_ c = Some h → session_ok h → queued h = q → unsent h = u → P c).
  { induction q as [q IHq] using lt_wf_ind. induction u as [u IHu] using lt_wf_ind.
    intros c h Hh Hok <- <-. apply (Hstep c h Hh Hok). intros c' h' Hh' Hok' [Hlt|[Heq Hlt]].
    - by eapply IHq.
    - by eapply IHu. }
  intros c h Hh Hok. by eapply Hgen.
Qed.

Lemma FlushOutput_returns c : fine c → returns (λ fuel, FlushOutput fuel c).
Proof.
  intros Hf. destruct (is_ready c) eqn:Hr.
  2: { apply (returns_from _ (λ _, Done c) 0); [|by apply returns_const].
       intros fuel _. cbn [FlushOutput]. by rewrite Hr. }
  destruct (h2_ c) as [h|] eqn:Hh.
  2: { apply (returns_from _ (λ _, UseAfterFree) 0); [|by apply returns_const].
       intros fuel _. cbn [FlushOutput]. by rewrite Hr, Hh. }
  specialize (Hf h Hh). revert Hr. revert c h Hh Hf. apply (flush_ind (λ c, is_ready c = true → _)).
  intros c h Hh Hok IH Hr.
  destruct (pending_output_settles c h Hh Hok) as (h1 & w1 & view & HP & Hok1 & Hprog).
  set (c1 := {| c with h2_ := Some h1; calls_ := w1 |}) in *.
  destruct (sock_Write view (sock_ c1)) as [s [st written]] eqn:Hwr.
  pose (c2 := {| c1 with sock_ := s |}).
  apply (returns_from _ (λ fuel,
    if bool_decide (view = []) then
      if bool_decide (session_error c1 = []) then Done c1 else TearDown SessionError c1
    else match st with
         | kOkIo => FlushOutput fuel (consume_output written c2)
         | kWantWrite | kWantRead => Done c2
         | _ => TearDown SockError c2
         end) (output_fuel h)).
  { intros fuel Hle. cbn [FlushOutput]. rewrite Hr, Hh, HP by lia. cbn [negb rbind]. by rewrite Hwr. }
  case_bool_decide as Hv.
  { apply returns_const. case_bool_decide; [done|apply TearDown_returns]. }
  destruct st; try (apply returns_const; done || apply TearDown_returns).
  apply sock_Write_some in Hwr; [|done]. destruct (Hprog written Hv Hwr) as [Hok2 Hless].
  by apply (IH _ (ConsumeOutput written h1)).
Qed.

Lemma final_flush_returns c h : h2_ c = Some h → session_ok h → returns (λ fuel, final_flush fuel c).
Proof.
  revert c h. apply (flush_ind (λ c, _)). intros c h Hh Hok IH.
  destruct (pending_output_settles c h Hh Hok) as (h1 & w1 & view & HP & Hok1 & Hprog).
  set (c1 := {| c with h2_ := Some h1; calls_ := w1 |}) in *.
  destruct (sock_Write view (sock_ c1)) as [s [st written]] eqn:Hwr.
  pose (c2 := {| c1 with sock_ := s |}).
  apply (returns_from _ (λ fuel,
    if bool_decide (view = []) then Done c1
    else if bool_decide (st = kOkIo) then final_flush fuel (consume_output written c2) else Done c2)
    (output_fuel h)).
  { intros fuel Hle. cbn [final_flush]. rewrite Hh, HP by lia. cbn [rbind]. by rewrite Hwr. }
  case_bool_decide as Hv; [by apply returns_const|].
  case_bool_decide as Hst; [|by apply returns_const]. subst st.
  apply sock_Write_some in Hwr; [|done]. destruct (Hprog written Hv Hwr) as [Hok2 Hless].
  by apply (IH _ (ConsumeOutput written h1)).
Qed.

(** *** The session stays well formed *)

Lemma fail_all_h2 d keys c c' : fail_all d keys c = Done c' → h2_ c' = h2_ c.
Proof.
  revert c. induction keys as [|k keys IH]; intros c; cbn [fail_all]; [by intros [= <-]|].
  destruct (read_detail d c); cbn [rbind]; try done. intros H. by rewrite (IH _ H).
Qed.

Lemma TearDown_fine d c c' : TearDown d c = Done c' → fine c → fine c'.
Proof.
  unfold TearDown. destruct (_ || _); [by intros [= <-]|].
  destruct (read_detail d c); cbn [rbind]; try done.
  destruct (fail_all d _ _) as [c1| |] eqn:H1; cbn [rbind]; try done. intros H2 _ h Hh.
  apply fail_all_h2 in H1, H2. simpl in H1, H2. congruence.
Qed.

Lemma FlushOutput_fine fuel c c' : FlushOutput fuel c = Done c' → fine c → fine c'.
Proof.
  revert c. induction fuel as [|fuel IH]; intros c; cbn [FlushOutput]; [done|].
  destruct (negb (is_ready c)); [by intros [= <-]|].
  destruct (h2_ c) as [h|] eqn:Hh; [|done]. unfold pending_output.
  destruct (PendingOutput _ h (calls_ c)) as [[[h1 w1] view]|] eqn:HP; [|done]. cbn [rbind].
  intros Hf Hc. specialize (Hc h Hh). pose proof (PendingOutput_any _ _ _ _ _ _ Hc HP) as Hok1.
  case_bool_decide as Hv.
  { case_bool_decide; [injection Hf as <-|apply TearDown_fine in Hf; [done|]]; intros h' [= <-]; done. }
  cbn [sock_] in Hf. destruct (sock_Write view (sock_ c)) as [s [st written]] eqn:Hwr.
  destruct st; try (injection Hf as <-; intros h' [= <-]; done);
    try (apply TearDown_fine in Hf; [done|]; intros h' [= <-]; done).
  apply sock_Write_some in Hwr; [|done]. apply IH in Hf; [done|]. intros h' [= <-].
  apply ConsumeOutput_ok; [lia|done].
Qed.

Lemma SubmitCall_fine pc c : fine c → fine (SubmitCall cfg pc c).
Proof.
  intros Hc. unfold SubmitCall. destruct (is_ready c); [|done].
  destruct (h2_ c) as [h|] eqn:Hh; [|by intros h].
  pose proof (λ hs b k, SubmitUnaryRequest_ok hs b (call_hooks k) h (Hc h Hh)) as Hok.
  set (hs := BuildRequestHeaders _ _ _ _ _). specialize (Hok hs (framed_body pc) (ChannelImpl.call pc)).
  destruct (SubmitUnaryRequest _ _ _ h) as [h' i].
  case_test; intros h2 [= <-]; apply Hok.
Qed.

Lemma submit_pending_fine pcs c : fine c → fine (submit_pending cfg pcs c).
Proof.
  revert c. induction pcs as [|pc pcs IH]; intros c Hc; cbn [submit_pending]; [done|].
  destruct (negb (is_ready c)); apply IH; [done|by apply SubmitCall_fine].
Qed.

Lemma RearmKeepalive_h2 c : h2_ (RearmKeepalive now c) = h2_ c.
Proof.
  unfold RearmKeepalive. destruct (is_ready c); [|done]. destruct (h2_ c) as [h|] eqn:Hh; [|done].
  unfold add_timer, read_clock. rewrite <- Hh. destruct (negb _); simpl; repeat case_match; simplify_eq; done.
Qed.

Lemma StartSession_returns c : returns (λ fuel, StartSession now client_new cfg fuel c).
Proof.
  unfold StartSession, read_clock. destruct (now (env_ c)) as [e t]. cbn [env_].
  pose proof (client_new_open e) as Hopen. destruct (client_new e) as [e' [crc client]].
  pose proof (new_http2_session_ok (http2 (options_ cfg)) (goaway_hooks) t crc client Hopen) as Hok.
  set (h := new_http2_session _ _ _ _ _) in *. clearbody h.
  destruct (negb (ok h)); [apply returns_const, TearDown_returns|].
  apply (returns_bind (λ fuel, FlushOutput fuel _) (λ c fuel, _)).
  - apply FlushOutput_returns. intros h' [= <-]. done.
  - intros c1 fuel Hf. apply FlushOutput_fine in Hf; [|intros h' [= <-]; done].
    set (c2 := submit_pending _ _ _).
    assert (Hc2 : fine c2).
    { apply submit_pending_fine. intros h2. simpl. rewrite RearmKeepalive_h2. apply Hf. }
    clearbody c2. destruct (is_ready c2); [by apply FlushOutput_returns|by apply returns_const].
Qed.

(** *** Reading *)

(** The bytes the peer has sent run out: after some reads the socket has no more. *)
Inductive dry : socket_type → Prop :=
  | dry_now s : (sock_Read kReadSize s).2.1 ≠ kOkIo → dry s
  | dry_later s : dry (sock_Read kReadSize s).1 → dry s.

Lemma DrainSocket_returns c : dry (sock_ c) → returns (λ fuel, DrainSocket now fuel c).
Proof.
  remember (sock_ c) as s eqn:Hs. intros Hd. revert c Hs.
  induction Hd as [s Hst|s Hd IH]; intros c ->.
  - apply (returns_from _ (λ fuel, DrainSocket now 1 c) 0); [|apply returns_const]; cbn [DrainSocket].
    + intros fuel _. destruct (negb _); [done|].
      destruct (sock_Read kReadSize (sock_ c)) as [s [st data]]. by destruct st.
    + destruct (negb _); [done|]. destruct (sock_Read kReadSize (sock_ c)) as [s [st data]].
      destruct st; try done; apply TearDown_returns.
  - destruct (negb (is_ready c)) eqn:Hr.
    { apply (returns_from _ (λ _, Done c) 0); [|by apply returns_const].
      intros fuel _. cbn [DrainSocket]. by rewrite Hr. }
    destruct (sock_Read kReadSize (sock_ c)) as [s [st data]] eqn:Hrd. simpl in IH.
    destruct st.
    2-5: apply (returns_from _ (λ fuel, DrainSocket now 1 c) 0); [|apply returns_const];
      [intros fuel _|]; cbn [DrainSocket]; rewrite Hr, Hrd;
      cbv beta iota zeta; done || apply TearDown_returns.
    destruct (h2_ c) as [h|] eqn:Hh.
    2: { apply (returns_from _ (λ _, UseAfterFree) 0); [|by apply returns_const].
         intros fuel _. cbn [DrainSocket]. rewrite Hr, Hrd. cbn [h2_]. by rewrite Hh. }
    destruct (now (env_ c)) as [e t] eqn:Hnow.
    destruct (ReceiveBytes t data h (calls_ c)) as [[h' w'] ok] eqn:HR.
    pose (c2 := {| c with sock_ := s; env_ := e; h2_ := Some h'; calls_ := w' |}).
    apply (returns_from _ (λ fuel, if ok then DrainSocket now fuel c2 else TearDown SessionError c2) 0).
    { intros fuel _. cbn [DrainSocket]. rewrite Hr, Hrd. cbn [h2_]. rewrite Hh. unfold read_clock.
      cbn [env_]. rewrite Hnow. cbn [calls_]. by rewrite HR. }
    destruct ok; [by apply IH|apply returns_const, TearDown_returns].
Qed.

Lemma DrainSocket_fine fuel c c' : DrainSocket now fuel c = Done c' → fine c → fine c'.
Proof.
  revert c. induction fuel as [|fuel IH]; intros c; cbn [DrainSocket]; [done|].
  destruct (negb (is_ready c)); [by intros [= <-]|].
  destruct (sock_Read kReadSize (sock_ c)) as [s [st data]].
  destruct st; [|by intros [= <-]|by intros [= <-]|intros H Hc; by apply TearDown_fine in H..].
  cbn [h2_]. destruct (h2_ c) as [h|] eqn:Hh; [|done]. unfold read_clock. cbn [env_].
  destruct (now (env_ c)) as [e t]. cbn [calls_].
  pose proof (ReceiveBytes_ok t data h (calls_ c)) as Hok.
  destruct (ReceiveBytes t data h (calls_ c)) as [[h' w'] ok].
  intros Hd Hc. specialize (Hok (Hc h Hh)).
  destruct ok; [apply IH in Hd|apply TearDown_fine in Hd]; try done; intros h2 [= <-]; done.
Qed.

(** *** The handlers *)

Lemma OnSocketReady_returns revents c :
  fine c → dry (sock_ c) → returns (λ fuel, OnSocketReady now fuel revents c).
Proof.
  intros Hc Hd. unfold OnSocketReady.
  apply (returns_bind (λ fuel, if _ : bool then DrainSocket now fuel c else Done c)
           (λ c fuel, rbind (if is_ready c then FlushOutput fuel c else Done c) _)).
  { destruct (negb _); [by apply DrainSocket_returns|by apply returns_const]. }
  intros c1 fuel H1. assert (Hc1 : fine c1).
  { destruct (negb _) in H1; [by eapply DrainSocket_fine|by injection H1 as <-]. }
  apply (returns_bind (λ fuel, if is_ready c1 then FlushOutput fuel c1 else Done c1) (λ c _, Done _)).
  - destruct (is_ready c1); [by apply FlushOutput_returns|by apply returns_const].
  - intros c2 _ _. by apply returns_const.
Qed.

Lemma OnKeepaliveTimer_returns c : fine c → returns (λ fuel, OnKeepaliveTimer now fuel c).
Proof.
  intros Hc. unfold OnKeepaliveTimer, is_ready. cbn [state_ h2_].
  destruct (bool_decide (state_ c = kReady)); [|by apply returns_const].
  destruct (h2_ c) as [h|] eqn:Hh; [|by apply returns_const].
  unfold read_clock. cbn [env_]. destruct (now (env_ c)) as [e t].
  pose proof (CheckKeepalive_ok t h (Hc h Hh)) as Hok.
  destruct (CheckKeepalive t h) as [h' a]. destruct a; [..|apply returns_const, TearDown_returns].
  all: apply (returns_bind (λ fuel, FlushOutput fuel _) (λ c _, Done _));
    [apply FlushOutput_returns; intros h2 [= <-]; done|intros c1 _ _; by apply returns_const].
Qed.

Lemma OnConnectProgress_returns c : returns (λ fuel, OnConnectProgress now client_new cfg fuel c).
Proof.
  unfold OnConnectProgress. destruct (sock_ContinueConnect (sock_ c)) as [s st].
  destruct st; try (by apply returns_const); case_bool_decide; try done;
    [apply StartSession_returns|apply returns_const, TearDown_returns..].
Qed.

Lemma HandleNewCall_returns pc c : fine c → returns (λ fuel, HandleNewCall now cfg fuel pc c).
Proof.
  intros Hc. unfold HandleNewCall. destruct (state_ c); try by apply returns_const.
  - apply returns_const. unfold StartConnecting. destruct (add_timer _ _ _ _) as [c1 i].
    destruct (sock_StartConnect _ _ _ _) as [s b]. destruct (negb b); [apply TearDown_returns|done].
  - by apply FlushOutput_returns, SubmitCall_fine.
Qed.

(** *** Shutdown *)

Definition shut_down : bytes := bs "channel is shut down".

(** The calls after [DoShutdown] has unblocked every waiter. *)
Definition released (w : Calls) (pend : list Z) : Calls :=
  foldl (fail_call kUnavailable shut_down) {| w with active_calls_ := ∅ |}
    (elements (active_calls_ w) ++ pend).

Lemma DoShutdown_outline c :
  phase c → state_ c ≠ kShutdown →
  ∃ c3, calls_ c3 = released (calls_ c) (pending_keys c) ∧ h2_ c3 = h2_ c ∧
    ∀ fuel, DoShutdown fuel c =
      rbind (if is_ready c && bool_decide (is_Some (h2_ c))
             then final_flush fuel {| c3 with h2_ := Terminate <$> h2_ c3 |} else Done c3)
        (λ c4, Done {| c4 with sock_ := sock_Close (sock_ c4); h2_ := None |}).
Proof.
  intros Hph Hs.
  set (c2 := {| c with state_ := kShutdown; pending_calls_ := [];
                       calls_ := released (calls_ c) (pending_keys c) |}).
  exists (CancelTimersAndUnwatch c2).
  destruct (CancelTimersAndUnwatch_spec c2 (phase_timers c Hph))
    as (_ & _ & _ & _ & _ & _ & _ & _ & Hh & Hcalls & _).
  split; [done|]. split; [done|]. intros fuel. unfold DoShutdown. rewrite bool_decide_eq_false_2 by done.
  rewrite (fail_all_Done (Text shut_down) shut_down) by (by left). cbn [rbind].
  rewrite (fail_all_Done (Text shut_down) shut_down) by (by left). cbn [rbind].
  match goal with |- rbind (if _ then final_flush _ {| (CancelTimersAndUnwatch ?x) with h2_ := _ |} else _) _ = _ =>
    assert (x = c2) as -> end; [|done].
  unfold c2, released. by rewrite foldl_app.
Qed.

Lemma final_flush_keeps (I : Calls → Prop) fuel c c' h :
  (∀ h, hooked h → session_keeps I h) → h2_ c = Some h → hooked h → I (calls_ c) →
  final_flush fuel c = Done c' → I (calls_ c').
Proof.
  intros HI. revert c h. induction fuel as [|fuel IH]; intros c h Hh Hk Hw; cbn [final_flush]; [done|].
  rewrite Hh. unfold pending_output.
  destruct (PendingOutput (S fuel) h (calls_ c)) as [[[h1 w1] view]|] eqn:HP; [|done]. cbn [rbind].
  pose proof (PendingOutput_keeps _ _ _ _ _ _ _ HP (HI h Hk)) as [_ Hw1].
  pose proof (hooked_PendingOutput _ _ _ _ _ _ HP Hk) as Hk1.
  case_bool_decide as Hv; [intros [= <-]; by apply Hw1|]. cbn [sock_].
  destruct (sock_Write view (sock_ c)) as [s [st written]] eqn:Hwr.
  case_bool_decide as Hst; [|intros [= <-]; by apply Hw1]. subst st. apply sock_Write_some in Hwr; [|done].
  apply (IH _ (ConsumeOutput written h1)); [done| |by apply Hw1].
  apply hooked_ConsumeOutput; [lia|done].
Qed.

Lemma final_flush_alive fuel c h : h2_ c = Some h → final_flush fuel c ≠ UseAfterFree.
Proof.
  revert c h. induction fuel as [|fuel IH]; intros c h Hh; cbn [final_flush]; [done|].
  rewrite Hh. unfold pending_output.
  destruct (PendingOutput _ h (calls_ c)) as [[[h1 w1] view]|]; [|done]. cbn [rbind].
  case_bool_decide; [done|]. cbn [sock_]. destruct (sock_Write view (sock_ c)) as [s [st written]].
  case_bool_decide; [|done]. by eapply IH.
Qed.

(** A result that was delivered is out of the reach of the session's callbacks. *)
Lemma hooked_frozen h k cs :
  is_closed cs = true → hooked h → session_keeps (λ w, store w !! k = Some cs) h.
Proof.
  intros Hcl [_ H].
  assert (Hev : ∀ j e w, store w !! k = Some cs → store (on_call j (on_call_event e) w) !! k = Some cs).
  { intros j e w Hw. simpl. rewrite lookup_alter_Some. destruct (decide (j = k)) as [->|]; [left|by right].
    split; [done|]. exists cs. split; [done|]. by rewrite closed_frozen. }
  apply H; [|by split; intros; intros w Hw].
  intros j. split; intros; intros w Hw.
  - by apply (Hev j (ResponseHeaders hs e)).
  - by apply (Hev j (Trailers ts)).
  - by apply (Hev j (Data d)).
  - by apply (Hev j (Close e)).
Qed.

(** [DoShutdown] completes, and the calls are those it released. *)
Lemma DoShutdown_completes n c :
  chan_inv n c → state_ c ≠ kShutdown →
  ∃ c', settles (λ fuel, DoShutdown fuel c) (Done c') ∧ chan_inv n c' ∧ state_ c' = kShutdown ∧
    ∀ k cs, store (released (calls_ c) (pending_keys c)) !! k = Some cs → is_closed cs = true →
      store (calls_ c') !! k = Some cs.
Proof.
  intros Hinv Hs. pose proof Hinv as [Hc Hph].
  destruct (DoShutdown_outline c Hph Hs) as (c3 & Hcalls & Hh3 & Hout).
  set (keeps := λ c' : Chan, ∀ k cs, store (released (calls_ c) (pending_keys c)) !! k = Some cs →
                  is_closed cs = true → store (calls_ c') !! k = Some cs).
  set (flush := λ fuel, if is_ready c && bool_decide (is_Some (h2_ c))
                 then final_flush fuel {| c3 with h2_ := Terminate <$> h2_ c3 |} else Done c3).
  assert (Hfin : ∀ c4, settles flush (Done c4) → keeps c4 →
    ∃ c', settles (λ fuel, DoShutdown fuel c) (Done c') ∧ chan_inv n c' ∧ state_ c' = kShutdown ∧ keeps c').
  { intros c4 [N HN] Hk.
    assert (Hd : ∀ fuel, (N <= fuel)%nat →
      DoShutdown fuel c = Done {| c4 with sock_ := sock_Close (sock_ c4); h2_ := None |}).
    { intros fuel Hle. rewrite Hout. fold (flush fuel). by rewrite HN. }
    eexists. split; [by exists N|].
    destruct (DoShutdown_inv client_new client_new_open n N c _ Hinv (Hd N ltac:(lia))) as [? ?]. by split_and!. }
  unfold flush in *. clear flush. destruct (is_ready c && bool_decide (is_Some (h2_ c))) eqn:Hwas.
  - apply andb_true_iff in Hwas as [_ Hsome]. apply bool_decide_eq_true in Hsome as [h Hh].
    rewrite Hh3, Hh in *. cbn [fmap option_fmap option_map] in *.
    pose proof (hooked_Terminate h (core_hooks n c Hc h Hh)) as Hk.
    destruct (final_flush_returns {| c3 with h2_ := Some (Terminate h) |} (Terminate h) eq_refl (proj1 Hk))
      as ([c4| |] & Hr & Hset); [|exfalso|done].
    + apply (Hfin c4); [done|]. intros k cs Hcs Hcl. destruct Hset as [N HN].
      apply (final_flush_keeps (λ w, store w !! k = Some cs) N {| c3 with h2_ := Some (Terminate h) |} c4
               (Terminate h)); [|done|done| |by apply HN].
      * intros h'. by apply hooked_frozen.
      * cbn [calls_]. by rewrite Hcalls.
    + destruct Hset as [N HN]. eapply final_flush_alive; [|by apply (HN N)]. done.
  - apply (Hfin c3); [by exists O|]. intros k cs. by rewrite Hcalls.
Qed.

End Loops.

(** ** Properties *)

Section Properties.
Import CallState.
Import ChannelImpl.
Import EventThread.
Import TimerHeap.
Context `{SZ : SizeT} `{SH : !StdHeap EntryLater} `{NL : Nghttp2Laws} `{SL : !TlsSocketLaws SO}.
Context {E : Type} (now : E → E * Z) (client_new : E → E * (Z * (Z * ng_session))).
Context (client_new_open : ∀ e, ng_open (client_new e).2.2.2 = ∅).
Context (cfg : ChannelConfig).

(** In every reachable state each posted operation, each timer callback and the connect
    handler has an outcome that more fuel does not change, and so has the socket handler
    when the peer's bytes run out. *)
Lemma handlers_outcome (steps : nat) (s : socket_type) (e : E) (c : Channel) :
  nsteps (chan_step now client_new cfg) steps (new_channel s e) c → Z.of_nat steps + 1 < 2 ^ 64 →
  (∀ op, returns (λ fuel, call_op now cfg fuel op c)) ∧
  (∀ cb, returns (λ fuel, call_cb now fuel cb c)) ∧
  (∀ rd revents, rd = RdConnectProgress ∨ dry (sock_ c) →
     returns (λ fuel, call_rd now client_new cfg fuel rd revents c)).
Proof.
  intros Hrun Hb. pose proof (chan_run_inv _ _ client_new_open _ _ _ _ _ Hrun Hb) as Hinv.
  assert (Hf : fine c) by (intros h Hh; apply (core_hooks _ c (proj1 Hinv) h Hh)). split_and!.
  - intros [pc|]; cbn [call_op]; [by apply HandleNewCall_returns|].
    destruct (decide (state_ c = kShutdown)) as [Hs|Hs].
    + unfold DoShutdown. rewrite bool_decide_eq_true_2 by done. by apply returns_const.
    + destruct (DoShutdown_completes _ client_new_open _ c Hinv Hs) as (c' & Hset & _).
      by exists (Done c').
  - intros [|]; cbn [call_cb]; [|by apply OnKeepaliveTimer_returns].
    apply returns_const. apply TearDown_returns.
  - intros [|] revents Hd; cbn [call_rd]; [by apply OnConnectProgress_returns|].
    destruct Hd as [?|Hd]; [done|]. by apply OnSocketReady_returns.
Qed.

(** C5: shutting down always completes and strands nobody: from every reachable state
    [DoShutdown] ends with the channel shut down, no session, no timer and nothing
    watched; each call without a result gets UNAVAILABLE "channel is shut down",
    results already delivered stay, and a call that arrives later is refused at once. *)
Theorem shutdown_completes (steps : nat) (s : socket_type) (e : E) (c : Channel) :
  nsteps (chan_step now client_new cfg) steps (new_channel s e) c → Z.of_nat steps + 1 < 2 ^ 64 →
  state_ c ≠ kShutdown →
  ∃ c', settles (λ fuel, DoShutdown fuel c) (Done c') ∧
    state_ c' = kShutdown ∧ h2_ c' = None ∧ timer_callbacks c' = ∅ ∧ watched_fd_ (loop_ c') = -1 ∧
    (∀ k cs, store (calls_ c) !! k = Some cs →
       ∃ cs', store (calls_ c') !! k = Some cs' ∧
         match Wait cs with
         | Some r => Wait cs' = Some r
         | None => ∃ r, Wait cs' = Some r ∧ code r = kUnavailable ∧ message r = shut_down
         end) ∧
    ∀ fuel pc, HandleNewCall now cfg fuel pc c' =
      Done {| c' with calls_ := fail_call kUnavailable shut_down (calls_ c') (ChannelImpl.call pc) |}.
Proof.
  intros Hrun Hb Hs. pose proof (chan_run_inv _ _ client_new_open _ _ _ _ _ Hrun Hb) as Hinv.
  destruct (DoShutdown_completes _ client_new_open _ c Hinv Hs) as (c' & Hset & [_ Hph] & Hs' & Hk).
  exists c'. assert (Hrest : at_rest c') by (by apply phase_shutdown_rest).
  split; [done|]. split; [done|]. split; [apply Hrest|]. split; [apply Hrest|].
  split; [apply Hrest|]. split.
  - intros k cs Hcs. destruct (core_waiters _ c (proj1 Hinv) k cs Hcs) as [Hi Hw].
    unfold Wait at 1. destruct (done_ cs) eqn:Hdone.
    + exists cs. split; [|unfold Wait; by rewrite Hdone]. apply Hk; [|by rewrite <- Hi].
      apply fail_all_closed; [done|]. by rewrite <- Hi.
    + exists (FailLocal kUnavailable shut_down cs).
      split; [|unfold FailLocal; rewrite <- Hi, Hdone; by eexists]. apply Hk.
      * apply fail_all_results; [done|]. rewrite elem_of_app, elem_of_elements. naive_solver.
      * unfold FailLocal. by rewrite <- Hi, Hdone.
  - intros fuel pc. unfold HandleNewCall. by rewrite Hs'.
Qed.

End Properties.

(** ** Witnesses *)

Section Witnesses.
Import ChannelImpl.
Import ToyNghttp2.
Import ToySocket.
Import TimerHeap.
Local Existing Instance size_t32.

Lemma shutdown_completes_witness :
  ∃ c', settles (λ fuel, DoShutdown fuel ex_ready) (Done c') ∧ state_ c' = kShutdown ∧
    ∃ cs r, store (calls_ c') !! 1 = Some cs ∧ CallState.Wait cs = Some r ∧
            CallState.message r = bs "channel is shut down".
Proof.
  destruct (shutdown_completes ex_now ex_client ex_client_open ex_cfg 2 _ 0 ex_ready ex_ready_run)
    as (c' & H1 & H2 & _ & _ & _ & H3 & _).
  - reflexivity.
  - rewrite ex_ready_state. discriminate.
  - exists c'. split; [exact H1|]. split; [exact H2|].
    destruct ex_ready_waits as (cs & Hcs & Hw). destruct (H3 1 cs Hcs) as (cs' & Hcs' & H).
    rewrite Hw in H. destruct H as (r & Hr & _ & Hm). exists cs', r. split; [exact Hcs'|]. split; assumption.
Defined.

End Witnesses.
