(* ===== verification/ChannelSocket.v ===== *)
(** * The channel over the TLS socket

    The channel of [ChannelImpl.v] with the socket of [TlsSocket.v] in place of the
    interface: what the socket is in each state of the channel, over every sequence of
    handler runs and whatever the session does.  So the socket's guarantees (verified
    peer, one descriptor, nothing leaked) hold of the channel, its data calls only reach
    a connected socket, and the descriptor the loop polls can be compared with the
    socket's. *)

From Stdlib Require Import ZArith Lia.
From Stdlib Require Import Strings.String Strings.Byte.
From stdpp Require Import base numbers list gmap relations.
From S2P Require Import Prelude GrpcWire StdHeap TimerHeap Wakeup EventThread Http2Session CallState TlsSocket TlsProperties ChannelImpl Http2Properties ChannelProperties ChannelReturns.

Local Open Scope Z_scope.

(** ** What the handlers leave alone *)

Section Frames.
Import ChannelImpl.
Import EventThread.
Context `{SZ : SizeT} `{SH : !StdHeap TimerHeap.EntryLater} `{NG : Nghttp2} `{SO : TlsSocketOps}.
Context {E : Type} (now : E → E * Z) (cfg : ChannelConfig).
Abbreviation Chan := (Channel (E := E)).
Implicit Types c : Chan.

Definition watch_of c : Z * option Rd := (watched_fd_ (loop_ c), watched_on_ready_ (loop_ c)).

(** The same state, socket and watched descriptor. *)
Definition framed c c' : Prop := state_ c' = state_ c ∧ sock_ c' = sock_ c ∧ watch_of c' = watch_of c.

Lemma framed_refl c : framed c c.
Proof. done. Qed.

Lemma framed_trans c c1 c2 : framed c c1 → framed c1 c2 → framed c c2.
Proof. intros (? & ? & ?) (? & ? & ?). split_and!; congruence. Qed.

Lemma fail_all_framed d keys c c' : fail_all d keys c = Done c' → framed c c'.
Proof.
  revert c. induction keys as [|k keys IH]; intros c; cbn [fail_all]; [by intros [= <-]|].
  destruct (read_detail d c); cbn [rbind]; try done. intros H%IH. exact H.
Qed.

Lemma cancel_timer_framed i c : framed c (cancel_timer i c).
Proof. by split_and!. Qed.

Lemma CancelTimersAndUnwatch_frame c :
  state_ (CancelTimersAndUnwatch c) = state_ c ∧ sock_ (CancelTimersAndUnwatch c) = sock_ c ∧
  watch_of (CancelTimersAndUnwatch c) = (-1, None).
Proof. unfold CancelTimersAndUnwatch. by repeat case_match. Qed.

Lemma TearDown_frame d c c' :
  TearDown d c = Done c' → state_ c ≠ kFailed → state_ c ≠ kShutdown →
  state_ c' = kFailed ∧ sock_ c' = sock_Close (sock_ c) ∧ watch_of c' = (-1, None).
Proof.
  intros Ht H1 H2. unfold TearDown in Ht. rewrite !bool_decide_eq_false_2 in Ht by done. cbn [orb] in Ht.
  destruct (read_detail d c) as [m| |]; cbn [rbind] in Ht; try done.
  destruct (fail_all d _ _) as [c1| |] eqn:Hf; cbn [rbind] in Ht; try done.
  apply fail_all_framed in Ht as (Hs2 & Hk2 & Hw2), Hf as (Hs1 & Hk1 & Hw1).
  destruct (CancelTimersAndUnwatch_frame {| c with state_ := kFailed; failure_detail_ := m |}) as (Hs & Hk & Hw).
  cbn [state_ sock_ clear_active clear_pending] in *. rewrite Hs2, Hk2, Hw2. split_and!; try congruence.
  transitivity (watch_of c1); [done|]. rewrite Hw1. exact Hw.
Qed.

Lemma add_timer_framed delay cb c c' i : add_timer now delay cb c = (c', i) → framed c c'.
Proof.
  unfold add_timer, read_clock, AddTimer. destruct (now (env_ c)) as [e t]. cbn [loop_].
  destruct (TimerHeap.Add _ _ _) as [h j]. by intros [= <- <-].
Qed.

Lemma RearmKeepalive_framed c : framed c (RearmKeepalive now c).
Proof.
  unfold RearmKeepalive. destruct (is_ready c); [|done]. destruct (h2_ c) as [h|] eqn:Hh; [|done].
  set (c1 := if negb _ then _ else c).
  assert (Hc1 : framed c c1).
  { subst c1. destruct (negb _); [|done]. exact (cancel_timer_framed (keepalive_timer_ c) c). }
  clearbody c1. unfold read_clock. destruct (now (env_ c1)) as [e t].
  destruct (NextKeepaliveDeadline h) as [deadline|]; [|done]. cbn [env_]. destruct (now e) as [e' t'].
  destruct (add_timer now _ _ _) as [c2 i] eqn:Ha. apply add_timer_framed in Ha.
  eapply framed_trans; [exact Hc1|exact Ha].
Qed.

Lemma SubmitCall_framed pc c : framed c (SubmitCall cfg pc c).
Proof.
  unfold SubmitCall. destruct (is_ready c); [|done]. destruct (h2_ c); [|done].
  destruct (SubmitUnaryRequest _ _ _ _) as [h' i]. by case_test.
Qed.

Lemma submit_pending_framed pcs c : framed c (submit_pending cfg pcs c).
Proof.
  revert c. induction pcs as [|pc pcs IH]; intros c; cbn [submit_pending]; [done|].
  destruct (negb (is_ready c)); [eapply framed_trans; [|apply IH]; done|].
  eapply framed_trans; [apply SubmitCall_framed|apply IH].
Qed.

End Frames.

(** ** The socket in each state of the channel *)

Section Phases.
Import ChannelImpl.
Import EventThread.
Local Existing Instance TlsSocket.tls_socket_ops.
Context `{SZ : SizeT} `{SH : !StdHeap TimerHeap.EntryLater} `{NG : Nghttp2} `{TP : TlsPlatform}.
Context {E : Type} (now : E → E * Z) (client_new : E → E * (Z * (Z * ng_session))).
Context (cfg : ChannelConfig).
Abbreviation Chan := (Channel (SO := TlsSocket.tls_socket_ops) (E := E)).
Implicit Types c : Chan.

Abbreviation inv := (sock_inv (host_ cfg) (tls_ cfg)).

Definition fresh_socket (e : penv) : TlsSocket.Sys :=
  {| TlsSocket.self := TlsSocket.new_socket; TlsSocket.plat := e; TlsSocket.trace := [] |}.

Definition tls c : TlsSocket.TlsSocket := TlsSocket.self (sock_ c).

Definition tls_trace c : list Tr := TlsSocket.trace (sock_ c).

Definition sock_phase c : Prop :=
  match state_ c with
  | kIdle => (∃ e, sock_ c = fresh_socket e) ∧ watch_of c = (-1, None)
  | kConnecting => inv (sock_ c) ∧ under_way (tls c) ∧ watched_on_ready_ (loop_ c) = Some RdConnectProgress
  | kReady =>
      inv (sock_ c) ∧ TlsSocket.state_ (tls c) = TlsSocket.kConnected ∧
      watch_of c = (TlsSocket.fd_ (tls c), Some RdSocketReady)
  | kFailed | kShutdown => inv (sock_ c) ∧ live (TlsSocket.state_ (tls c)) = false ∧ watch_of c = (-1, None)
  end.

Lemma sock_phase_framed c c' : framed c c' → sock_phase c → sock_phase c'.
Proof.
  intros (Hs & Hk & Hw). unfold sock_phase, tls. rewrite Hs, Hk, Hw. intros H. destruct (state_ c); try done.
  destruct H as (? & ? & H). injection Hw as _ ->. done.
Qed.

Lemma fresh_history e : history (host_ cfg) (tls_ cfg) (fresh_socket e).
Proof. apply hist_nil. Qed.

Lemma sock_phase_history c : sock_phase c → history (host_ cfg) (tls_ cfg) (sock_ c).
Proof.
  unfold sock_phase. destruct (state_ c); [intros [[e ->] _]; apply fresh_history|..]; intros [H _]; apply H.
Qed.

Lemma Close_dead s :
  history (host_ cfg) (tls_ cfg) s →
  inv (sock_Close s) ∧ live (TlsSocket.state_ (TlsSocket.self (sock_Close s))) = false.
Proof. intros H. exact (Close_spec _ _ s H). Qed.

Lemma TearDown_phase d c c' :
  TearDown d c = Done c' → state_ c ≠ kFailed → state_ c ≠ kShutdown →
  history (host_ cfg) (tls_ cfg) (sock_ c) → state_ c' = kFailed ∧ sock_phase c'.
Proof.
  intros Ht H1 H2 Hh. destruct (TearDown_frame d c c' Ht H1 H2) as (Hs & Hk & Hw). split; [done|].
  unfold sock_phase, tls. rewrite Hs, Hk. split_and!; [by apply Close_dead..|done].
Qed.

Lemma TearDown_any d c c' : TearDown d c = Done c' → sock_phase c → sock_phase c'.
Proof.
  intros Ht Hp. destruct (decide (state_ c = kFailed ∨ state_ c = kShutdown)) as [H|H].
  - unfold TearDown in Ht. replace (_ || _) with true in Ht; [by injection Ht as <-|].
    destruct H as [-> | ->]; done.
  - eapply TearDown_phase; [exact Ht|naive_solver..|by apply sock_phase_history].
Qed.

(** A data call on the connected socket leaves it connected on the same descriptor. *)
Lemma ready_data c c' (s : TlsSocket.Sys) :
  sock_phase c → state_ c = kReady → same_but_error (sock_ c) s →
  state_ c' = kReady → sock_ c' = s → watch_of c' = watch_of c → sock_phase c'.
Proof.
  intros Hp Hs Hsame Hs' Hk Hw. unfold sock_phase, tls in *. rewrite Hs in Hp. rewrite Hs', Hk, Hw.
  destruct Hp as (Hi & Hc & Hwc). pose proof Hsame as (_ & e & ->).
  split_and!; [by eapply same_but_error_inv|done..].
Qed.

Lemma sock_Write_frame d (s s' : TlsSocket.Sys) r : sock_Write d s = (s', r) → same_but_error s s'.
Proof. intros H. pose proof (Write_frame d s) as Hf. unfold wp in Hf. simpl in H. by rewrite H in Hf. Qed.

Lemma sock_Read_frame n (s s' : TlsSocket.Sys) r : sock_Read n s = (s', r) → same_but_error s s'.
Proof. intros H. pose proof (Read_frame n s) as Hf. unfold wp in Hf. simpl in H. by rewrite H in Hf. Qed.

Lemma FlushOutput_phase fuel c c' : FlushOutput fuel c = Done c' → sock_phase c → sock_phase c'.
Proof.
  revert c. induction fuel as [|fuel IH]; intros c; cbn [FlushOutput]; [done|].
  destruct (is_ready c) eqn:Hr; cbn [negb]; [|by intros [= <-]]. apply is_ready_true in Hr.
  destruct (h2_ c) as [h|]; [|done]. unfold pending_output.
  destruct (PendingOutput _ h _) as [[[h1 w1] view]|]; [|done]. cbn [rbind]. intros Hf Hp.
  case_bool_decide.
  { case_bool_decide; [by injection Hf as <-|by eapply TearDown_any]. }
  cbn [sock_] in Hf. destruct (sock_Write view (sock_ c)) as [s [st n]] eqn:Hw.
  apply sock_Write_frame in Hw.
  assert (Hp1 : sock_phase {| c with h2_ := Some h1; calls_ := w1; sock_ := s |}) by (by eapply ready_data).
  destruct st; try (by injection Hf as <-); try (by eapply TearDown_any); by apply (IH _ Hf).
Qed.

Lemma DrainSocket_phase fuel c c' : DrainSocket now fuel c = Done c' → sock_phase c → sock_phase c'.
Proof.
  revert c. induction fuel as [|fuel IH]; intros c; cbn [DrainSocket]; [done|].
  destruct (is_ready c) eqn:Hr; cbn [negb]; [|by intros [= <-]]. apply is_ready_true in Hr.
  destruct (sock_Read kReadSize (sock_ c)) as [s [st data]] eqn:Hrd. apply sock_Read_frame in Hrd. intros Hd Hp.
  assert (Hp1 : sock_phase {| c with sock_ := s |}) by (by eapply ready_data).
  destruct st; try (by injection Hd as <-); try (by eapply TearDown_any). cbn [h2_] in Hd.
  destruct (h2_ c) as [h|]; [|done]. unfold read_clock in Hd. cbn [env_] in Hd. destruct (now (env_ c)) as [e t].
  destruct (ReceiveBytes _ _ _ _) as [[h' w'] ok]. destruct ok; [by apply (IH _ Hd)|by eapply TearDown_any].
Qed.

Lemma OnSocketReady_phase fuel revents c c' : OnSocketReady now fuel revents c = Done c' → sock_phase c → sock_phase c'.
Proof.
  unfold OnSocketReady. intros H Hp.
  destruct (if negb _ then DrainSocket now fuel c else Done c) as [c1| |] eqn:H1; cbn [rbind] in H; try done.
  assert (Hp1 : sock_phase c1) by (destruct (negb _); [by eapply DrainSocket_phase|by injection H1 as <-]).
  destruct (if is_ready c1 then FlushOutput fuel c1 else Done c1) as [c2| |] eqn:H2; cbn [rbind] in H; try done.
  assert (Hp2 : sock_phase c2) by (destruct (is_ready c1); [by eapply FlushOutput_phase|by injection H2 as <-]).
  injection H as <-. destruct (is_ready c2); [|done]. eapply sock_phase_framed; [apply RearmKeepalive_framed|done].
Qed.

Lemma OnKeepaliveTimer_phase fuel c c' : OnKeepaliveTimer now fuel c = Done c' → sock_phase c → sock_phase c'.
Proof.
  unfold OnKeepaliveTimer. intros H Hp. destruct (is_ready _); [|by injection H as <-].
  destruct (h2_ _) as [h|]; [|by injection H as <-]. unfold read_clock in H. cbn [env_] in H.
  destruct (now (env_ c)) as [e t]. destruct (CheckKeepalive t h) as [h' a].
  assert (Hp1 : sock_phase {| c with keepalive_timer_ := 0; env_ := e; h2_ := Some h' |}) by done.
  destruct a; [| |by eapply TearDown_any];
    (destruct (FlushOutput fuel _) as [c1| |] eqn:Hf; cbn [rbind] in H; try done; injection H as <-;
     eapply sock_phase_framed; [apply RearmKeepalive_framed|by eapply FlushOutput_phase]).
Qed.

Lemma StartSession_phase fuel c c' :
  StartSession now client_new cfg fuel c = Done c' → state_ c = kConnecting → inv (sock_ c) →
  TlsSocket.state_ (tls c) = TlsSocket.kConnected → sock_phase c'.
Proof.
  unfold StartSession, read_clock. intros H Hs Hi Hc. destruct (now (env_ c)) as [e t]. cbn [env_] in H.
  destruct (client_new e) as [e' [crc client]]. set (h := new_http2_session _ _ _ _ _) in H. clearbody h.
  destruct (negb (ok h)).
  { eapply TearDown_phase; [exact H|simpl; by rewrite Hs..|apply Hi]. }
  destruct (FlushOutput fuel _) as [c1| |] eqn:Hf; cbn [rbind] in H; try done.
  apply FlushOutput_phase in Hf; [|by split_and!].
  set (c2 := submit_pending _ _ _) in H.
  assert (Hc2 : sock_phase c2).
  { eapply sock_phase_framed; [|exact Hf]. eapply framed_trans; [apply (RearmKeepalive_framed now)|].
    eapply framed_trans; [|apply submit_pending_framed]. done. }
  clearbody c2. destruct (is_ready c2); [by eapply FlushOutput_phase|by injection H as <-].
Qed.

Lemma OnConnectProgress_phase fuel c c' :
  OnConnectProgress now client_new cfg fuel c = Done c' → sock_phase c → state_ c = kConnecting → sock_phase c'.
Proof.
  unfold OnConnectProgress. intros H Hp Hs. unfold sock_phase in Hp. rewrite Hs in Hp. destruct Hp as (Hi & Hu & Hw).
  pose proof (ContinueConnect_spec _ _ _ Hi) as Hcc. unfold wp in Hcc. cbn [sock_ContinueConnect TlsSocket.tls_socket_ops] in H.
  destruct (TlsSocket.ContinueConnect (sock_ c)) as [s st]. destruct Hcc as [Hi' Hpr]. cbn [fst snd] in *.
  set (c1 := if negb _ then _ else _) in H.
  assert (Hc1 : state_ c1 = kConnecting ∧ sock_ c1 = s) by (subst c1; by destruct (negb _)). clearbody c1.
  destruct Hc1 as [Hs1 Hk1].
  destruct st; cbn [bool_decide decide] in H.
  - eapply StartSession_phase; [exact H|done|by rewrite Hk1|]. unfold tls. by rewrite Hk1.
  - injection H as <-. unfold sock_phase, tls. simpl. rewrite Hs. destruct Hpr as [? ?]. split_and!; [done| |done].
    split; by left.
  - injection H as <-. unfold sock_phase, tls. simpl. rewrite Hs. destruct Hpr as [? ?]. split_and!; [done| |done].
    split; [done|by right].
  - done.
  - eapply TearDown_phase; [exact H|by rewrite Hs1..|]. rewrite Hk1. apply Hi'.
Qed.

Lemma StartConnecting_phase c c' e :
  StartConnecting now cfg c = Done c' → sock_ c = fresh_socket e → sock_phase c'.
Proof.
  unfold StartConnecting. intros H Hk. destruct (add_timer now _ _ _) as [c1 i] eqn:Ha.
  apply add_timer_framed in Ha as (Hs1 & Hk1 & _). cbn [sock_] in *. rewrite Hk1, Hk in H.
  pose proof (StartConnect_spec (host_ cfg) (tls_ cfg) (port_ cfg) e) as Hst. unfold wp in Hst.
  cbn [sock_StartConnect TlsSocket.tls_socket_ops] in H. unfold fresh_socket in H.
  destruct (TlsSocket.StartConnect _ _ _ _) as [s b]. destruct Hst as (Hi & Hl & Hu). cbn [fst snd] in *.
  destruct b; cbn [negb] in H.
  - injection H as <-. unfold sock_phase, tls. simpl. cbn [state_] in Hs1. rewrite Hs1. split_and!; [done|by apply Hu|done].
  - eapply TearDown_phase; [exact H|simpl; cbn [state_] in Hs1; by rewrite Hs1..|apply Hi].
Qed.

Lemma HandleNewCall_phase fuel pc c c' : HandleNewCall now cfg fuel pc c = Done c' → sock_phase c → sock_phase c'.
Proof.
  unfold HandleNewCall. intros H Hp. destruct (state_ c) eqn:Hs.
  - unfold sock_phase in Hp. rewrite Hs in Hp. destruct Hp as [[e He] _]. by eapply StartConnecting_phase.
  - injection H as <-. by apply (sock_phase_framed c).
  - eapply FlushOutput_phase; [exact H|]. eapply sock_phase_framed; [apply SubmitCall_framed|done].
  - injection H as <-. by apply (sock_phase_framed c).
  - injection H as <-. by apply (sock_phase_framed c).
Qed.

Lemma final_flush_phase fuel c c' :
  final_flush fuel c = Done c' → inv (sock_ c) →
  inv (sock_ c') ∧ state_ c' = state_ c ∧ watch_of c' = watch_of c.
Proof.
  revert c. induction fuel as [|fuel IH]; intros c; cbn [final_flush]; [done|].
  destruct (h2_ c) as [h|]; [|done]. unfold pending_output.
  destruct (PendingOutput _ h _) as [[[h1 w1] view]|]; [|done]. cbn [rbind]. intros Hf Hi.
  case_bool_decide; [by injection Hf as <-|]. cbn [sock_] in Hf.
  destruct (sock_Write view (sock_ c)) as [s [st n]] eqn:Hw. apply sock_Write_frame in Hw.
  assert (Hi' : inv s) by (by eapply same_but_error_inv).
  case_bool_decide; [|by injection Hf as <-]. apply IH in Hf as (? & Hs & Hw'); [|done]. done.
Qed.

Lemma DoShutdown_phase fuel c c' : DoShutdown fuel c = Done c' → sock_phase c → sock_phase c'.
Proof.
  unfold DoShutdown. case_bool_decide as Hsd; [by intros [= <-]|]. intros H Hp.
  destruct (fail_all _ (active_keys _) _) as [c1| |] eqn:H1; cbn [rbind] in H; try done.
  destruct (fail_all _ (ChannelImpl.call <$> _) _) as [c2| |] eqn:H2; cbn [rbind] in H; try done.
  apply fail_all_framed in H1 as (Hs1 & Hk1 & _), H2 as (Hs2 & Hk2 & _).
  destruct (CancelTimersAndUnwatch_frame c2) as (Hs3 & Hk3 & Hw3).
  set (c3 := CancelTimersAndUnwatch c2) in *. clearbody c3.
  cbn [state_ sock_ clear_active clear_pending] in *.
  assert (Hs : state_ c3 = kShutdown) by congruence. assert (Hk : sock_ c3 = sock_ c) by congruence.
  pose proof (sock_phase_history c Hp) as Hh.
  destruct (if _ : bool then final_flush _ _ else Done c3) as [c4| |] eqn:H4; cbn [rbind] in H; try done.
  injection H as <-.
  assert (Hc4 : history (host_ cfg) (tls_ cfg) (sock_ c4) ∧ state_ c4 = kShutdown ∧ watch_of c4 = (-1, None)).
  { destruct (is_ready c) eqn:Hr; cbn [andb] in H4; [|injection H4 as <-; by rewrite Hk].
    apply is_ready_true in Hr. unfold sock_phase in Hp. rewrite Hr in Hp. destruct Hp as (Hi & _).
    destruct (bool_decide _); [|injection H4 as <-; by rewrite Hk].
    apply final_flush_phase in H4 as (Hi4 & Hs4 & Hw4); [|simpl; by rewrite Hk].
    split_and!; [apply Hi4|by rewrite Hs4|by rewrite Hw4]. }
  destruct Hc4 as (Hh4 & Hs4 & Hw4). unfold sock_phase, tls. simpl. rewrite Hs4.
  split_and!; [by apply Close_dead..|done].
Qed.

(** *** Runs *)

Lemma chan_step_phase c c' : chan_step now client_new cfg c c' → sock_phase c → sock_phase c'.
Proof.
  intros (c0 & (h & -> & _) & Ha) Hp.
  assert (Hp0 : sock_phase {| c with loop_ := {| (loop_ c) with timers_ := h |} |}) by done.
  set (c0 := {| c with loop_ := _ |}) in *. clearbody c0. clear c h Hp.
  destruct Ha as [fuel k path request md tmo pc c' Hk Hpc Hop|fuel c' Hop|fuel i cb h' c' Hi Hcb Hid Hop
    |fuel rd revents c' Hrd Hop].
  - eapply HandleNewCall_phase; [exact Hop|done].
  - by eapply DoShutdown_phase.
  - assert (Hp1 : sock_phase {| c0 with loop_ := {| (loop_ c0) with timers_ := h' |} |}) by done.
    destruct cb; cbn [call_cb] in Hop; [|by eapply OnKeepaliveTimer_phase].
    eapply TearDown_any; [exact Hop|done].
  - destruct rd; cbn [call_rd] in Hop; [|by eapply OnSocketReady_phase].
    eapply OnConnectProgress_phase; [exact Hop|done|].
    unfold sock_phase, watch_of in Hp0. destruct (state_ c0); naive_solver.
Qed.

Lemma chan_run_phase steps e0 e c :
  nsteps (chan_step now client_new cfg) steps (new_channel (fresh_socket e0) e) c → sock_phase c.
Proof.
  assert (H0 : sock_phase (new_channel (fresh_socket e0) e)) by (split; [by exists e0|done]).
  generalize dependent (new_channel (SO := TlsSocket.tls_socket_ops) (fresh_socket e0) e). intros c0 H0 Hrun.
  induction Hrun as [|steps a b d Hab _ IH]; [done|]. apply IH. by eapply chan_step_phase.
Qed.

End Phases.

(** ** Properties *)

Section Properties.
Import ChannelImpl.
Import EventThread.
Local Existing Instance TlsSocket.tls_socket_ops.
Context `{SZ : SizeT} `{SH : !StdHeap TimerHeap.EntryLater} `{NG : Nghttp2} `{TP : TlsPlatform}.
Context {E : Type} (now : E → E * Z) (client_new : E → E * (Z * (Z * ng_session))).
Context (cfg : ChannelConfig).
Abbreviation Chan := (Channel (SO := TlsSocket.tls_socket_ops) (E := E)).

Lemma inv_fds s : sock_inv (host_ cfg) (tls_ cfg) s →
  fds (TlsSocket.trace s) = if live (TlsSocket.state_ (TlsSocket.self s)) then [TlsSocket.fd_ (TlsSocket.self s)] else [].
Proof.
  intros [Hh _ Hl _ _ Hd]. rewrite (hist_fds _ _ _ _ _ _ Hh). destruct (live _).
  - destruct (Hl eq_refl) as (_ & ? & _). by case_test; [|lia].
  - destruct (Hd eq_refl) as (? & _). by case_test; [lia|].
Qed.

Lemma under_way_live t : under_way t → live (TlsSocket.state_ t) = true.
Proof. by intros [[-> | ->] _]. Qed.

(** C12: the channel and its TLS socket always agree, whatever nghttp2, OpenSSL, the
    resolver and the peer do: an idle channel has opened nothing; while it connects
    exactly one descriptor is open, on which the connect or the handshake is under way
    and a poll direction is set; while it is ready the socket is connected with h2
    negotiated, so its data calls are never refused, and the one open descriptor is the
    one the loop watches; and a failed or shut down channel has closed every descriptor
    it opened, freed the TLS objects and watches nothing. *)
Theorem channel_socket_agrees (steps : nat) (e0 : penv) (e : E) (c : Chan) :
  nsteps (chan_step now client_new cfg) steps (new_channel (fresh_socket e0) e) c →
  match state_ c with
  | kIdle => tls_trace c = [] ∧ watched_fd_ (loop_ c) = -1
  | kConnecting =>
      fds (tls_trace c) = [TlsSocket.fd_ (tls c)] ∧ 0 <= TlsSocket.fd_ (tls c) ∧
      (TlsSocket.state_ (tls c) = TlsSocket.kTlsHandshake ∨ TlsSocket.state_ (tls c) = TlsSocket.kTcpConnecting) ∧
      (call_ev EvDesired c = POLLIN ∨ call_ev EvDesired c = POLLOUT)
  | kReady =>
      TlsSocket.state_ (tls c) = TlsSocket.kConnected ∧ TlsSocket.alpn_ (tls c) = bs "h2" ∧
      fds (tls_trace c) = [watched_fd_ (loop_ c)] ∧ 0 <= watched_fd_ (loop_ c) ∧
      watched_on_ready_ (loop_ c) = Some RdSocketReady
  | kFailed | kShutdown =>
      fds (tls_trace c) = [] ∧ TlsSocket.ssl_ (tls c) = false ∧ TlsSocket.ssl_ctx_ (tls c) = false ∧
      watched_fd_ (loop_ c) = -1 ∧ watched_on_ready_ (loop_ c) = None
  end.
Proof.
  intros Hrun%chan_run_phase. unfold sock_phase, watch_of in Hrun. destruct (state_ c) eqn:Hs.
  - destruct Hrun as [[e' He] Hw]. unfold tls_trace. rewrite He. split; [done|by injection Hw].
  - destruct Hrun as (Hi & Hu & Hw). unfold tls_trace. pose proof (under_way_live _ Hu) as Hl. rewrite (inv_fds _ Hi).
    unfold tls in *. rewrite Hl. destruct (inv_live _ _ _ Hi Hl) as (_ & ? & _). destruct Hu as [? ?]. done.
  - destruct Hrun as (Hi & Hc & Hw). injection Hw as Hf Hr. unfold tls_trace. rewrite (inv_fds _ Hi), Hf.
    unfold tls in *. destruct (inv_connected _ _ _ Hi Hc) as (? & _ & _). rewrite Hc. simpl. split_and!; try done.
    apply (inv_live _ _ _ Hi). by rewrite Hc.
  - destruct Hrun as (Hi & Hl & Hw). injection Hw as ? ?. unfold tls_trace. rewrite (inv_fds _ Hi).
    unfold tls in *. rewrite Hl. by destruct (inv_dead _ _ _ Hi Hl) as (_ & ? & ?).
  - destruct Hrun as (Hi & Hl & Hw). injection Hw as ? ?. unfold tls_trace. rewrite (inv_fds _ Hi).
    unfold tls in *. rewrite Hl. by destruct (inv_dead _ _ _ Hi Hl) as (_ & ? & ?).
Qed.

(** The security of the handshakes, for the channel. *)
Lemma chan_run_verifies (steps : nat) (e0 : penv) (e : E) (c : Chan) :
  insecure_skip_verify_for_testing_only (tls_ cfg) = false →
  nsteps (chan_step now client_new cfg) steps (new_channel (fresh_socket e0) e) c →
  guarded (host_ cfg) (tls_trace c) ∧ (TrSetVerify false ∉ tls_trace c) ∧
  (state_ c = kReady → TrConnect ∈ tls_trace c).
Proof.
  intros Hsec Hrun%chan_run_phase. pose proof (sock_phase_history _ _ Hrun) as [Hg Hv _ _].
  split_and!; [by apply Hg|by apply Hv|]. intros Hs. unfold sock_phase in Hrun. rewrite Hs in Hrun.
  destruct Hrun as (Hi & Hc & _). apply (inv_connected _ _ _ Hi Hc).
Qed.

(** C21: falling back to another address leaves the loop watching the wrong descriptor:
    when [ContinueConnect] has closed the descriptor that was being watched and gone on
    to a new one that is still connecting, [OnConnectProgress] returns without watching
    it; from then on the loop polls a descriptor the socket has closed, and not the one
    that is open. *)
Theorem fallback_polls_closed_descriptor (steps fuel : nat) (e0 : penv) (e : E) (c : Chan) :
  nsteps (chan_step now client_new cfg) steps (new_channel (fresh_socket e0) e) c →
  state_ c = kConnecting → watched_fd_ (loop_ c) = TlsSocket.fd_ (tls c) →
  (sock_ContinueConnect (sock_ c)).2 = kWantWrite →
  TlsSocket.fd_ (TlsSocket.self (sock_ContinueConnect (sock_ c)).1) ≠ TlsSocket.fd_ (tls c) →
  ∃ c', OnConnectProgress now client_new cfg fuel c = Done c' ∧ state_ c' = kConnecting ∧
    watched_on_ready_ (loop_ c') = Some RdConnectProgress ∧
    fds (tls_trace c') = [TlsSocket.fd_ (tls c')] ∧ (watched_fd_ (loop_ c') ∉ fds (tls_trace c')).
Proof.
  intros Hrun%chan_run_phase Hs Hwf Hst Hne. unfold sock_phase in Hrun. rewrite Hs in Hrun.
  destruct Hrun as (Hi & Hu & Hw).
  pose proof (ContinueConnect_spec _ _ _ Hi) as [Hi' Hp]. unfold OnConnectProgress.
  cbn [sock_ContinueConnect TlsSocket.tls_socket_ops] in *.
  destruct (TlsSocket.ContinueConnect (sock_ c)) as [s st]. cbn [fst snd] in *. subst st.
  assert (Hl : live (TlsSocket.state_ (TlsSocket.self s)) = true) by (by destruct Hp as [[-> | ->] _]).
  eexists. split; [reflexivity|]. unfold tls_trace, tls in *. simpl. rewrite (inv_fds _ Hi'), Hl.
  split_and!; [done..|]. rewrite list_elem_of_singleton. congruence.
Qed.

End Properties.

(** ** Witnesses *)

Module SocketWitness.
Import ChannelImpl EventThread ToyNghttp2 TimerHeap.
Local Existing Instances size_t32 TlsProperties.ex_platform TlsSocket.tls_socket_ops.

Abbreviation TlsChannel := (Channel (E := Z) (NG := toy_nghttp2) (SO := TlsSocket.tls_socket_ops)).
Abbreviation tls_step := (chan_step (NG := toy_nghttp2) (SO := TlsSocket.tls_socket_ops) ex_now ex_client ex_cfg).

Definition idle : TlsChannel := new_channel (fresh_socket (0 : penv)) 0.
Definition get (r : Res TlsChannel) : TlsChannel := match r with Done c => c | _ => idle end.
Definition finished (r : Res TlsChannel) : bool := match r with Done _ => true | _ => false end.

Lemma get_finished r : finished r = true → r = Done (get r).
Proof. by destruct r. Qed.

Definition with_call (k : Z) (c : TlsChannel) : TlsChannel :=
  {| c with calls_ := {| (calls_ c) with store :=
       <[k := CallState.new_call (max_receive_message_size (options_ ex_cfg))]> (store (calls_ c)) |} |}.

(** The first address refuses, the second connects; then the handshake takes a read. *)
Definition dialled_first : TlsChannel := get (call_op ex_now ex_cfg 20 (OpNewCall (ex_pc 1)) (with_call 1 idle)).
Definition next (c : TlsChannel) : TlsChannel := get (call_rd ex_now ex_client ex_cfg 20 RdConnectProgress POLLOUT c).
Definition dialled_second : TlsChannel := next dialled_first.
Definition connected : TlsChannel := next (next dialled_second).

Lemma dialled_first_step : tls_step idle dialled_first.
Proof.
  apply activation_step. eapply (step_new_call _ _ _ _ 20 1 (bs "/S/M") (bs "x") [] None); [reflexivity..|].
  apply get_finished. vm_compute. reflexivity.
Qed.

Lemma next_step c :
  watched_on_ready_ (loop_ c) = Some RdConnectProgress →
  finished (call_rd ex_now ex_client ex_cfg 20 RdConnectProgress POLLOUT c) = true → tls_step c (next c).
Proof.
  intros Hw Hf. apply activation_step. eapply (step_ready _ _ _ _ 20 RdConnectProgress POLLOUT); [done|].
  by apply get_finished.
Qed.

Lemma dialled_first_run : nsteps tls_step 1 idle dialled_first.
Proof. eapply nsteps_l; [apply dialled_first_step|constructor]. Qed.

Lemma connected_run : nsteps tls_step 4 idle connected.
Proof.
  eapply nsteps_l; [apply dialled_first_step|].
  do 3 (eapply nsteps_l; [apply next_step; vm_compute; reflexivity|]).
  unfold connected, dialled_second. apply nsteps_O.
Qed.

Lemma channel_socket_agrees_witness : fds (tls_trace connected) = [6] ∧ watched_fd_ (loop_ connected) = 6.
Proof.
  pose proof (channel_socket_agrees ex_now ex_client ex_cfg 4 (TP := TlsProperties.ex_platform) 0 0 connected connected_run) as H.
  assert (Hs : state_ connected = kReady) by (vm_compute; reflexivity). rewrite Hs in H.
  destruct H as (_ & _ & H & _).
  assert (Hw : watched_fd_ (loop_ connected) = 6) by (vm_compute; reflexivity).
  split; [rewrite <- Hw; exact H|exact Hw].
Defined.

Lemma fallback_polls_closed_descriptor_witness :
  ∃ c', OnConnectProgress ex_now ex_client ex_cfg 20 dialled_first = Done c' ∧ state_ c' = kConnecting ∧
    watched_fd_ (loop_ c') ∉ fds (tls_trace c').
Proof.
  destruct (fallback_polls_closed_descriptor ex_now ex_client ex_cfg 1 20 (TP := TlsProperties.ex_platform) 0 0 dialled_first dialled_first_run)
    as (c' & H1 & H2 & _ & _ & H3).
  - vm_compute. reflexivity.
  - vm_compute. reflexivity.
  - vm_compute. reflexivity.
  - vm_compute. discriminate.
  - exists c'. split; [exact H1|]. split; [exact H2|exact H3].
Defined.

End SocketWitness.
