(* ===== verification/ChannelKeeps.v ===== *)
(** * What the channel's handlers keep

    A property of the calls that the events of a call and changes of the set of active
    calls preserve is preserved by every handler of the channel, whatever the session
    and the socket do.  Two such properties give theorems here: completed calls stay as
    they are, and the scanner of every call keeps what its loops need to end, which makes
    the handlers return ([handlers_return]). *)

From Stdlib Require Import ZArith Lia.
From Stdlib Require Import Strings.String Strings.Byte.
From stdpp Require Import base numbers list gmap relations.
From S2P Require Import Prelude GrpcWire StdHeap TimerHeap Wakeup EventThread Http2Session CallState TlsSocket ChannelImpl Http2Properties ChannelProperties ChannelReturns.

Local Open Scope Z_scope.

Section Keeps.
Import CallState.
Import ChannelImpl.
Import EventThread.
Import TimerHeap.
Context `{SZ : SizeT} `{SH : !StdHeap EntryLater} `{NL : Nghttp2Laws} `{SL : !TlsSocketLaws SO}.
Context {E : Type} (now : E → E * Z) (client_new : E → E * (Z * (Z * ng_session))).
Context (client_new_open : ∀ e, ng_open (client_new e).2.2.2 = ∅).
Context (cfg : ChannelConfig).
Abbreviation Chan := (Channel (E := E)).
Implicit Types c : Chan.

(** What a property of the session, the calls and the names of the calls that wait to
    be submitted must survive, to be kept by every handler. *)
Record handler_stable (G : option (Http2Session Calls) → Calls → list Z → Prop) : Prop := {
  hs_fail h w p k code m : G h w p → G h (fail_call code m w k) p;
  hs_active h w p a : G h w p → G h {| w with active_calls_ := a |} p;
  hs_close h w p : G h w p → G None w p;
  hs_fewer h w p p' : G h w p → p' ⊆+ p → G h w p';
  hs_new h w p o t crc client : G h w p → ng_open client.2 = ∅ →
    G (Some (new_http2_session o goaway_hooks t crc client)) w p;
  hs_receive h w p t data h' w' b : G (Some h) w p →
    ReceiveBytes t data h w = (h', w', b) → G (Some h') w' p;
  hs_output h w p fuel h' w' view : G (Some h) w p →
    PendingOutput fuel h w = Some (h', w', view) → G (Some h') w' p;
  hs_consume h w p n : 0 <= n → G (Some h) w p → G (Some (ConsumeOutput n h)) w p;
  hs_keepalive h w p t h' a : G (Some h) w p → CheckKeepalive t h = (h', a) → G (Some h') w p;
  hs_terminate h w p : G (Some h) w p → G (Some (Terminate h)) w p;
  hs_submit h w p k headers body h' i : G (Some h) w (k :: p) →
    SubmitUnaryRequest headers body (call_hooks k) h = (h', i) →
    G (Some h') (if i <? 0 then w else on_call k (OnSubmitted i) w) p;
}.

Section Handlers.
Context (G : option (Http2Session Calls) → Calls → list Z → Prop) (HG : handler_stable G).

(** [G] holds of the channel, with [p] as the waiting calls. *)
Definition carries (p : list Z) c : Prop := G (h2_ c) (calls_ c) p.
Definition good c : Prop := carries (pending_keys c) c.

Lemma good_same c c' :
  good c → h2_ c' = h2_ c → calls_ c' = calls_ c → pending_calls_ c' = pending_calls_ c → good c'.
Proof. unfold good, carries, pending_keys. by intros H -> -> ->. Qed.

Lemma carries_pending p c : carries p c → pending_calls_ c = [] → good c.
Proof.
  unfold good, pending_keys. intros H ->. eapply (hs_fewer G HG); [exact H|]. apply submseteq_nil_l.
Qed.

Lemma fail_all_good d keys c c' p :
  fail_all d keys c = Done c' → carries p c → carries p c' ∧ pending_calls_ c' = pending_calls_ c.
Proof.
  revert c. induction keys as [|k keys IH]; intros c; cbn [fail_all]; [by intros [= <-]|].
  destruct (read_detail d c); cbn [rbind]; try done. intros H Hc.
  destruct (IH _ H) as [? ?]; [|done]. by apply (hs_fail G HG).
Qed.

Lemma CancelTimersAndUnwatch_good c : good c → good (CancelTimersAndUnwatch c).
Proof.
  intros Hg. apply (good_same c); [done|..]; unfold CancelTimersAndUnwatch; repeat case_match; done.
Qed.

Lemma TearDown_good d c c' : TearDown d c = Done c' → good c → good c'.
Proof.
  unfold TearDown. destruct (_ || _); [by intros [= <-]|].
  destruct (read_detail d c); cbn [rbind]; try done.
  destruct (fail_all d _ _) as [c1| |] eqn:H1; cbn [rbind]; try done. intros H2 Hg.
  assert (Hc : good (CancelTimersAndUnwatch {| c with state_ := kFailed; failure_detail_ := a |}))
    by (apply CancelTimersAndUnwatch_good; by eapply good_same).
  eapply fail_all_good in H1 as [H1 _]; [|apply (hs_active G HG), (hs_close G HG _ _ _ Hc)].
  eapply fail_all_good in H2 as [H2 Hp]; [|exact H1]. by eapply carries_pending.
Qed.

Lemma FlushOutput_good fuel c c' : FlushOutput fuel c = Done c' → good c → good c'.
Proof.
  revert c. induction fuel as [|fuel IH]; intros c; cbn [FlushOutput]; [done|].
  destruct (negb (is_ready c)); [by intros [= <-]|].
  destruct (h2_ c) as [h|] eqn:Hh; [|done]. unfold pending_output.
  destruct (PendingOutput _ h (calls_ c)) as [[[h1 w1] view]|] eqn:HP; [|done]. cbn [rbind].
  intros Hf Hg. unfold good, carries in Hg. rewrite Hh in Hg.
  assert (Hg1 : good {| c with h2_ := Some h1; calls_ := w1 |}) by (by eapply (hs_output G HG)).
  case_bool_decide as Hv.
  { case_bool_decide; [by injection Hf as <-|by eapply TearDown_good]. }
  cbn [sock_] in Hf. destruct (sock_Write view (sock_ c)) as [s [st written]] eqn:Hwr.
  assert (Hg2 : good {| c with h2_ := Some h1; calls_ := w1; sock_ := s |}) by exact Hg1.
  destruct st; try (by injection Hf as <-); try (by eapply TearDown_good).
  apply sock_Write_some in Hwr; [|done]. apply (IH _ Hf). apply (hs_consume G HG); [lia|exact Hg1].
Qed.

Lemma DrainSocket_good fuel c c' : DrainSocket now fuel c = Done c' → good c → good c'.
Proof.
  revert c. induction fuel as [|fuel IH]; intros c; cbn [DrainSocket]; [done|].
  destruct (negb (is_ready c)); [by intros [= <-]|].
  destruct (sock_Read kReadSize (sock_ c)) as [s [st data]].
  destruct st; try (by intros [= <-]); try (intros Ht Hg; eapply TearDown_good; [exact Ht|by eapply good_same]).
  cbn [h2_]. destruct (h2_ c) as [h|] eqn:Hh; [|done]. unfold read_clock. cbn [env_].
  destruct (now (env_ c)) as [e t]. cbn [calls_].
  destruct (ReceiveBytes t data h (calls_ c)) as [[h' w'] ok] eqn:HR. intros Hd Hg.
  unfold good, carries in Hg. rewrite Hh in Hg.
  assert (Hg1 : good {| c with sock_ := s; env_ := e; h2_ := Some h'; calls_ := w' |})
    by (by eapply (hs_receive G HG)).
  destruct ok; [by apply (IH _ Hd)|by eapply TearDown_good].
Qed.

Lemma RearmKeepalive_good c : good c → good (RearmKeepalive now c).
Proof.
  intros Hg. apply (good_same c); [done|apply RearmKeepalive_h2|..]; unfold RearmKeepalive, add_timer, read_clock;
    (destruct (is_ready c); [|done]); (destruct (h2_ c); [|done]);
    destruct (negb _); simpl; repeat case_match; simplify_eq; done.
Qed.

Lemma SubmitCall_good pc p c :
  carries (ChannelImpl.call pc :: p) c →
  carries p (SubmitCall cfg pc c) ∧ pending_calls_ (SubmitCall cfg pc c) = pending_calls_ c.
Proof.
  intros Hc. assert (Hp : carries p c).
  { eapply (hs_fewer G HG); [exact Hc|]. by apply submseteq_cons. }
  unfold SubmitCall. destruct (is_ready c); [|split; [by apply (hs_fail G HG)|done]].
  destruct (h2_ c) as [h|] eqn:Hh.
  2: { split; [|done]. unfold carries in *. simpl. rewrite Hh in *. by apply (hs_fail G HG). }
  set (hs := BuildRequestHeaders _ _ _ _ _).
  destruct (SubmitUnaryRequest hs _ _ h) as [h' i] eqn:HS. unfold carries in Hc. rewrite Hh in Hc.
  pose proof (hs_submit G HG _ _ _ _ _ _ _ _ Hc HS) as H.
  case_test; (split; [|done]); [by apply (hs_fail G HG)|]. exact (hs_active G HG _ _ _ _ H).
Qed.

Lemma submit_pending_good pcs p c :
  carries ((ChannelImpl.call <$> pcs) ++ p) c →
  carries p (submit_pending cfg pcs c) ∧ pending_calls_ (submit_pending cfg pcs c) = pending_calls_ c.
Proof.
  revert c. induction pcs as [|pc pcs IH]; intros c Hc; cbn [submit_pending]; [done|].
  destruct (negb (is_ready c)).
  - destruct (IH {| c with calls_ := fail_call kUnavailable (failure_detail_ c) (calls_ c) (ChannelImpl.call pc) |})
      as [? ?]; [|done]. apply (hs_fail G HG). eapply (hs_fewer G HG); [exact Hc|]. by apply submseteq_cons.
  - destruct (SubmitCall_good pc _ c Hc) as [H1 E1]. destruct (IH _ H1) as [? E2]. split; [done|congruence].
Qed.

Lemma StartSession_good fuel c c' : StartSession now client_new cfg fuel c = Done c' → good c → good c'.
Proof.
  unfold StartSession, read_clock. destruct (now (env_ c)) as [e t]. cbn [env_].
  pose proof (client_new_open e) as Hopen. destruct (client_new e) as [e' [crc client]]. intros H Hg.
  pose proof (hs_new G HG _ _ _ (http2 (options_ cfg)) t crc client Hg Hopen) as Hok.
  set (h := new_http2_session _ _ _ _ _) in *. clearbody h.
  destruct (negb (ok h)); [by eapply TearDown_good|].
  destruct (FlushOutput fuel _) as [c1| |] eqn:Hf; cbn [rbind] in H; try done.
  apply FlushOutput_good in Hf; [|exact Hok]. apply RearmKeepalive_good in Hf.
  set (c2 := RearmKeepalive now c1) in *. clearbody c2.
  destruct (submit_pending_good (pending_calls_ c2) [] (clear_pending c2)) as [H3 Hp].
  { rewrite app_nil_r. exact Hf. }
  apply carries_pending in H3; [|by rewrite Hp].
  set (c3 := submit_pending _ _ _) in *. clearbody c3.
  destruct (is_ready c3); [by eapply FlushOutput_good|by injection H as <-].
Qed.

Lemma OnConnectProgress_good fuel c c' :
  OnConnectProgress now client_new cfg fuel c = Done c' → good c → good c'.
Proof.
  unfold OnConnectProgress. destruct (sock_ContinueConnect (sock_ c)) as [s st]. intros H Hg.
  set (c1 := if negb _ then _ else _) in H.
  assert (Hg1 : good c1) by (subst c1; destruct (negb _); by eapply good_same). clearbody c1.
  destruct st; simpl in H.
  - by eapply StartSession_good.
  - injection H as <-. by apply (good_same c).
  - injection H as <-. by apply (good_same c).
  - by eapply TearDown_good.
  - by eapply TearDown_good.
Qed.

Lemma add_timer_good delay cb c c' i : add_timer now delay cb c = (c', i) → good c → good c'.
Proof.
  unfold add_timer, read_clock. destruct (now (env_ c)) as [e t]. cbn [loop_].
  destruct (AddTimer _ _ _ _) as [o j]. intros [= <- <-] Hg. by apply (good_same c).
Qed.

Lemma StartConnecting_good c c' : StartConnecting now cfg c = Done c' → good c → good c'.
Proof.
  unfold StartConnecting. destruct (add_timer now _ _ _) as [c1 i] eqn:Ha. intros H Hg.
  eapply add_timer_good in Ha; [|by eapply good_same]. cbn [sock_] in H. clear Hg.
  destruct (sock_StartConnect _ _ _ _) as [s started].
  destruct started; cbn [negb] in H; [injection H as <-; by apply (good_same c1)|].
  eapply TearDown_good; [exact H|by apply (good_same c1)].
Qed.

Lemma enqueue_good pc c :
  carries (ChannelImpl.call pc :: pending_keys c) c → good {| c with pending_calls_ := pending_calls_ c ++ [pc] |}.
Proof.
  intros H. eapply (hs_fewer G HG); [exact H|]. unfold pending_keys. simpl. rewrite fmap_app. simpl.
  apply Permutation_submseteq. by rewrite <- Permutation_cons_append.
Qed.

Lemma HandleNewCall_good fuel pc c c' :
  HandleNewCall now cfg fuel pc c = Done c' → carries (ChannelImpl.call pc :: pending_keys c) c → good c'.
Proof.
  unfold HandleNewCall. intros H Hg.
  assert (Hc : good c) by (eapply (hs_fewer G HG); [exact Hg|by apply submseteq_cons]).
  destruct (state_ c).
  - eapply StartConnecting_good; [exact H|by apply enqueue_good].
  - injection H as <-. by apply enqueue_good.
  - destruct (SubmitCall_good pc _ c Hg) as [Hs Hp]. eapply FlushOutput_good; [exact H|].
    unfold good, pending_keys in *. by rewrite Hp.
  - injection H as <-. by apply (hs_fail G HG).
  - injection H as <-. by apply (hs_fail G HG).
Qed.

Lemma OnSocketReady_good fuel revents c c' : OnSocketReady now fuel revents c = Done c' → good c → good c'.
Proof.
  unfold OnSocketReady. intros H Hg.
  destruct (if negb _ then DrainSocket now fuel c else Done c) as [c1| |] eqn:H1; cbn [rbind] in H; try done.
  assert (Hg1 : good c1) by (destruct (negb _); [by eapply DrainSocket_good|by injection H1 as <-]).
  destruct (if is_ready c1 then FlushOutput fuel c1 else Done c1) as [c2| |] eqn:H2; cbn [rbind] in H; try done.
  assert (Hg2 : good c2) by (destruct (is_ready c1); [by eapply FlushOutput_good|by injection H2 as <-]).
  injection H as <-. destruct (is_ready c2); [by apply RearmKeepalive_good|done].
Qed.

Lemma OnKeepaliveTimer_good fuel c c' : OnKeepaliveTimer now fuel c = Done c' → good c → good c'.
Proof.
  unfold OnKeepaliveTimer. cbn [h2_]. intros H Hg. destruct (is_ready _); [|injection H as <-; by eapply good_same].
  destruct (h2_ c) as [h|] eqn:Hh; [|injection H as <-; apply (good_same _ _ Hg); simpl; by rewrite ?Hh].
  unfold read_clock in H. cbn [env_] in H. destruct (now (env_ c)) as [e t].
  destruct (CheckKeepalive t h) as [h' a] eqn:Hc. unfold good, carries in Hg. rewrite Hh in Hg.
  assert (Hg1 : good {| c with keepalive_timer_ := 0; env_ := e; h2_ := Some h' |})
    by (by eapply (hs_keepalive G HG)).
  destruct a; [| |by eapply TearDown_good];
    (destruct (FlushOutput fuel _) as [c1| |] eqn:Hf; cbn [rbind] in H; try done; injection H as <-;
     apply RearmKeepalive_good; by eapply FlushOutput_good).
Qed.

Lemma final_flush_good fuel c c' : final_flush fuel c = Done c' → good c → good c'.
Proof.
  revert c. induction fuel as [|fuel IH]; intros c; cbn [final_flush]; [done|].
  destruct (h2_ c) as [h|] eqn:Hh; [|done]. unfold pending_output.
  destruct (PendingOutput _ h (calls_ c)) as [[[h1 w1] view]|] eqn:HP; [|done]. cbn [rbind].
  intros Hf Hg. unfold good, carries in Hg. rewrite Hh in Hg.
  assert (Hg1 : good {| c with h2_ := Some h1; calls_ := w1 |}) by (by eapply (hs_output G HG)).
  case_bool_decide as Hv; [by injection Hf as <-|].
  cbn [sock_] in Hf. destruct (sock_Write view (sock_ c)) as [s [st written]] eqn:Hwr.
  case_bool_decide as Hst; [|by injection Hf as <-]. subst st. apply sock_Write_some in Hwr; [|done].
  apply (IH _ Hf). apply (hs_consume G HG); [lia|exact Hg1].
Qed.

Lemma DoShutdown_good fuel c c' : DoShutdown fuel c = Done c' → good c → good c'.
Proof.
  unfold DoShutdown. case_bool_decide as Hs; [by intros [= <-]|]. intros H Hg.
  destruct (fail_all _ (active_keys _) _) as [c1| |] eqn:H1; cbn [rbind] in H; try done.
  eapply fail_all_good in H1 as [H1 _]; [|apply (hs_active G HG), Hg].
  destruct (fail_all _ (ChannelImpl.call <$> _) _) as [c2| |] eqn:H2; cbn [rbind] in H; try done.
  eapply fail_all_good in H2 as [H2 Hp]; [|exact H1]. apply carries_pending in H2; [|done].
  apply CancelTimersAndUnwatch_good in H2. set (c3 := CancelTimersAndUnwatch c2) in *. clearbody c3.
  destruct (if _ : bool then final_flush _ _ else Done c3) as [c4| |] eqn:H4; cbn [rbind] in H; try done.
  injection H as <-. assert (Hg4 : good c4).
  { destruct (_ && _) eqn:Hb; [|by injection H4 as <-]. eapply final_flush_good; [exact H4|].
    unfold good, carries in *. simpl. destruct (h2_ c3) as [h|]; [|done]. by apply (hs_terminate G HG). }
  by apply (hs_close G HG _ _ _ Hg4).
Qed.

(** A new call joins the store under a name of its own, and waits to be submitted. *)
Lemma activation_good c c' :
  (∀ h w p k, store w !! k = None → G h w p →
     G h {| w with store := <[k := new_call (max_receive_message_size (options_ cfg))]> (store w) |} (k :: p)) →
  activation now client_new cfg c c' → good c → good c'.
Proof.
  intros Hnew [fuel k path request md tmo pc c1 Hk Hpc Hop|fuel c1 Hop|fuel i cb h' c1 Hi Hcb Hid Hop
    |fuel rd revents c1 Hrd Hop] Hg.
  - eapply HandleNewCall_good; [exact Hop|].
    assert (ChannelImpl.call pc = k) as ->.
    { unfold prepare_call in Hpc. case_test_in Hpc; [done|]. by injection Hpc as <-. }
    by apply Hnew.
  - by eapply DoShutdown_good.
  - destruct cb; cbn [call_cb] in Hop; [|by eapply OnKeepaliveTimer_good].
    eapply TearDown_good; [exact Hop|done].
  - destruct rd; cbn [call_rd] in Hop; [by eapply OnConnectProgress_good|by eapply OnSocketReady_good].
Qed.

End Handlers.

(** Properties of the calls alone. *)
Record stable (I : Calls → Prop) : Prop := {
  stable_event w k e : I w → I (on_call k (on_call_event e) w);
  stable_active w a : I w → I {| w with active_calls_ := a |};
}.

Lemma hooked_stable I h : stable I → hooked h → session_keeps I h.
Proof.
  intros HI [_ H]. apply H; [|by split; intros; intros w Hw].
  intros k. split; simpl; intros; intros w Hw; simpl in *.
  - by apply (stable_event I HI w k (ResponseHeaders _ _)).
  - by apply (stable_event I HI w k (Trailers _)).
  - by apply (stable_event I HI w k (Data _)).
  - refine (stable_active I HI (on_call k (on_call_event (Close _)) w) _ _).
    by apply (stable_event I HI w k (Close _)).
Qed.

(** The session has the channel's hooks and the calls satisfy [I]. *)
Definition upholds (I : Calls → Prop) (h : option (Http2Session Calls)) (w : Calls) (p : list Z) : Prop :=
  (∀ h', h = Some h' → hooked h') ∧ I w.

Lemma upholds_handlers I : stable I → handler_stable (upholds I).
Proof.
  intros HI. split; unfold upholds.
  - intros h w p k code m [? ?]. split; [done|]. by apply (stable_event I HI w k (Fail code m)).
  - intros h w p a [? ?]. split; [done|]. by apply (stable_active I HI).
  - by intros h w p [? ?].
  - done.
  - intros h w p o t crc client [? ?] Ho. split; [|done]. intros h' [= <-]. by apply hooked_new.
  - intros h w p t data h' w' b [Hk Hw] HR. specialize (Hk h eq_refl). split.
    + intros h2 [= <-]. by eapply hooked_ReceiveBytes.
    + eapply (ReceiveBytes_keeps I) in HR as [_ H]; [by apply H|by apply hooked_stable].
  - intros h w p fuel h' w' view [Hk Hw] HP. specialize (Hk h eq_refl). split.
    + intros h2 [= <-]. by eapply hooked_PendingOutput.
    + eapply (PendingOutput_keeps I) in HP as [_ H]; [by apply H|by apply hooked_stable].
  - intros h w p n Hn [Hk Hw]. split; [|done]. intros h2 [= <-]. apply hooked_ConsumeOutput; [done|by apply Hk].
  - intros h w p t h' a [Hk Hw] HC. split; [|done]. intros h2 [= <-]. eapply hooked_CheckKeepalive; [done|by apply Hk].
  - intros h w p [Hk Hw]. split; [|done]. intros h2 [= <-]. by apply hooked_Terminate, Hk.
  - intros h w p k headers body h' i [Hk Hw] HS. split.
    + intros h2 [= <-]. eapply hooked_SubmitUnaryRequest; [done|by apply Hk].
    + case_test; [done|]. by apply (stable_event I HI w k (Submitted i)).
Qed.

End Keeps.

(** ** Completed calls *)

Section Completed.
Import CallState.
Import ChannelImpl.
Context `{SZ : SizeT} `{SH : !StdHeap TimerHeap.EntryLater} `{NL : Nghttp2Laws} `{SL : !TlsSocketLaws SO}.
Context {E : Type} (now : E → E * Z) (client_new : E → E * (Z * (Z * ng_session))).
Context (client_new_open : ∀ e, ng_open (client_new e).2.2.2 = ∅).
Context (cfg : ChannelConfig).

Definition holds (k : Z) (cs : CallState) (w : Calls) : Prop := store w !! k = Some cs.

Lemma holds_stable k cs : is_closed cs = true → stable (holds k cs).
Proof.
  intros Hc. split; [|done]. intros w j e Hw. unfold holds in *. simpl. rewrite lookup_alter.
  case_decide; [|done]. subst j. rewrite Hw. simpl. by rewrite closed_frozen.
Qed.

(** No step of the channel touches a completed call. *)
Lemma chan_step_completed n (c c' : Channel (E := E)) k cs :
  chan_inv n c → chan_step now client_new cfg c c' → store (calls_ c) !! k = Some cs → is_closed cs = true →
  store (calls_ c') !! k = Some cs.
Proof.
  intros [Hcore _] (c0 & (h & -> & _) & Ha) Hk Hcl.
  eapply (activation_good now client_new client_new_open cfg (upholds (holds k cs))) in Ha as [_ H];
    [exact H|by apply upholds_handlers, holds_stable| |].
  - intros h0 w p j Hj [? Hw]. split; [done|]. unfold holds in *. simpl. rewrite lookup_insert_ne; [done|]. congruence.
  - split; [|done]. simpl. apply (core_hooks n c Hcore).
Qed.

Lemma chan_steps_completed n steps (c c' : Channel (E := E)) k cs :
  chan_inv n c → nsteps (chan_step now client_new cfg) steps c c' → n + Z.of_nat steps < 2 ^ 64 →
  store (calls_ c) !! k = Some cs → is_closed cs = true → store (calls_ c') !! k = Some cs.
Proof.
  intros Hi Hrun. revert n Hi. induction Hrun as [c|steps a b d Hab _ IH]; intros n Hi Hb Hk Hcl; [done|].
  apply (IH (n + 1)); [|lia| |done].
  - eapply chan_step_inv; [exact client_new_open|done|lia|done].
  - by eapply chan_step_completed.
Qed.

End Completed.

(** ** The scanners of the calls *)

Section Scanners.
Import CallState.
Import ChannelImpl.
Context `{SZ : SizeT} `{SH : !StdHeap TimerHeap.EntryLater} `{NL : Nghttp2Laws} `{SL : !TlsSocketLaws SO}.
Context {E : Type} (now : E → E * Z) (client_new : E → E * (Z * (Z * ng_session))).
Context (client_new_open : ∀ e, ng_open (client_new e).2.2.2 = ∅).
Context (cfg : ChannelConfig).
Abbreviation max := (max_receive_message_size (options_ cfg)).

Definition calls_held (limit : Z) (w : Calls) : Prop :=
  ∀ k cs, store w !! k = Some cs → scanner_held limit (scanner_ cs).

Lemma calls_held_stable limit : stable (calls_held limit).
Proof.
  split; [|done]. intros w k e Hw j cs. simpl. rewrite lookup_alter_Some.
  intros [(-> & cs' & Hj & ->)|[_ Hj]]; [apply on_call_event_held|]; by eapply Hw.
Qed.

Lemma chan_steps_held n steps (c c' : Channel (E := E)) :
  chan_inv n c → nsteps (chan_step now client_new cfg) steps c c' → n + Z.of_nat steps < 2 ^ 64 →
  calls_held max (calls_ c) → calls_held max (calls_ c').
Proof.
  intros Hi Hrun. revert n Hi. induction Hrun as [c|steps a b d Hab _ IH]; intros n Hi Hb Hc; [done|].
  apply (IH (n + 1)); [|lia|].
  - eapply chan_step_inv; [exact client_new_open|done|lia|done].
  - destruct Hab as (c0 & (h & -> & _) & Ha).
    eapply (activation_good now client_new client_new_open cfg (upholds (calls_held max))) in Ha as [_ H];
      [exact H|by apply upholds_handlers, calls_held_stable| |].
    + intros h0 w p j Hj [? Hw]. split; [done|]. intros k cs. simpl. rewrite lookup_insert_Some.
      intros [[_ <-]|[_ Hk]]; [apply new_call_held|by eapply Hw].
    + split; [|done]. simpl. apply (core_hooks n a (proj1 Hi)).
Qed.

(** C6: no handler keeps the event thread forever, for a size limit that [fits] (as that
    of every public channel does): in every reachable state each posted operation, each
    timer callback and the connect handler has an outcome that more fuel does not change,
    whatever the socket and nghttp2 answer within their contracts; so has the socket
    handler when the peer's bytes run out; and the loops over the bytes of a message, in
    [Feed] and over [Next], end for every call and whatever events it has seen meanwhile,
    as long as its buffer is an addressable string. *)
Theorem handlers_return (steps : nat) (s : socket_type) (e : E) (c : Channel) :
  nsteps (chan_step now client_new cfg) steps (new_channel s e) c → Z.of_nat steps + 1 < 2 ^ 64 →
  0 <= max → fits max →
  (∀ op, returns (λ fuel, call_op now cfg fuel op c)) ∧
  (∀ cb, returns (λ fuel, call_cb now fuel cb c)) ∧
  (∀ rd revents, rd = RdConnectProgress ∨ dry (sock_ c) →
     returns (λ fuel, call_rd now client_new cfg fuel rd revents c)) ∧
  (∀ k cs evs data, store (calls_ c) !! k = Some cs →
     let scanner := scanner_ (run_call evs cs) in
     GrpcMessageScanner.failed_ scanner = false →
     zlen (GrpcMessageScanner.buf_ scanner ++ data) < 2 ^ size_bits →
     scanner_loops_end scanner data).
Proof.
  intros Hrun Hb Hm Hf.
  destruct (handlers_outcome now client_new client_new_open cfg steps s e c Hrun Hb) as (H1 & H2 & H3).
  split_and!; [done..|]. intros k cs evs data Hk scanner Hl Hsz.
  apply (scanner_held_loops_end max); [|done..]. apply run_call_held.
  eapply (chan_steps_held 1 steps (new_channel s e) c); [by apply new_channel_inv|done|lia| |exact Hk].
  intros j cs' Hj. cbn in Hj. by rewrite lookup_empty in Hj.
Qed.

End Scanners.

(** ** Witnesses *)

Section Witnesses.
Import ChannelImpl.
Import ToyNghttp2.
Import ToySocket.
Import TimerHeap.
Local Existing Instance size_t32.

Lemma handlers_return_witness :
  returns (λ fuel, call_op ex_now ex_cfg fuel OpShutdown ex_ready) ∧
  returns (λ fuel, call_rd ex_now ex_client ex_cfg fuel RdSocketReady EventThread.POLLIN ex_ready) ∧
  ∃ cs, store (calls_ ex_ready) !! 1 = Some cs ∧
    (GrpcMessageScanner.failed_ (CallState.scanner_ (CallState.run_call [] cs)) = false →
     zlen (GrpcMessageScanner.buf_ (CallState.scanner_ (CallState.run_call [] cs)) ++ grpc_frame (bs "hi"))
       < 2 ^ size_bits →
     scanner_loops_end (CallState.scanner_ (CallState.run_call [] cs)) (grpc_frame (bs "hi"))).
Proof.
  destruct (handlers_return ex_now ex_client ex_client_open ex_cfg 2 _ 0 ex_ready ex_ready_run)
    as (H1 & _ & H2 & H3).
  - reflexivity.
  - vm_compute. discriminate.
  - vm_compute. reflexivity.
  - split; [apply H1|]. split.
    + apply H2. right.
      assert (Hs : sock_ ex_ready = [bs "goaway"]) by (vm_compute; reflexivity). rewrite Hs.
      apply dry_later, dry_now. discriminate.
    + destruct ex_ready_waits as (cs & Hcs & _). exists cs. split; [exact Hcs|].
      apply (H3 1 cs [] (grpc_frame (bs "hi")) Hcs).
Defined.

End Witnesses.
