(* ===== verification/ChannelOutcome.v ===== *)
(** * How a handler of the channel can fail to complete

    A handler ends in [UseAfterFree] in one way only: [TearDown] is given the error text
    of the session that it destroys while some call is open.  The text is then read for
    the first open call after the session is gone.  A handler that runs out of fuel has
    an outcome with more fuel, as long as the bytes of the peer run out. *)

From Stdlib Require Import ZArith Lia.
From Stdlib Require Import Strings.String Strings.Byte.
From stdpp Require Import base numbers list gmap relations.
From S2P Require Import Prelude GrpcWire StdHeap TimerHeap Wakeup EventThread Http2Session CallState TlsSocket ChannelImpl Http2Properties ChannelProperties ChannelReturns ChannelKeeps.

Local Open Scope Z_scope.

Section Outcome.
Import CallState.
Import ChannelImpl.
Import EventThread.
Import TimerHeap.
Context `{SZ : SizeT} `{SH : !StdHeap EntryLater} `{NL : Nghttp2Laws} `{SL : !TlsSocketLaws SO}.
Context {E : Type} (now : E → E * Z) (client_new : E → E * (Z * (Z * ng_session))).
Context (client_new_open : ∀ e, ng_open (client_new e).2.2.2 = ∅).
Context (cfg : ChannelConfig).
Abbreviation Chan := (Channel (E := E)).
Implicit Types c m : Chan.

(** ** Tearing down with the text of the destroyed session *)

(** A channel whose session is alive and whose [TearDown] reads its text too late. *)
Definition torn_by_session m : Prop :=
  is_Some (h2_ m) ∧ (active_calls_ (calls_ m) ≠ ∅ ∨ pending_calls_ m ≠ []) ∧
  TearDown SessionError m = UseAfterFree.

Lemma fail_all_text d keys c : d ≠ SessionError → fail_all d keys c ≠ UseAfterFree.
Proof.
  intros Hd. destruct d as [s| |]; [|..|done].
  - by rewrite (fail_all_Done (Text s) s) by (by left).
  - by rewrite (fail_all_Done SockError (sock_error (sock_ c))) by (by left).
Qed.

Lemma TearDown_text d c : d ≠ SessionError → TearDown d c ≠ UseAfterFree.
Proof.
  intros Hd. unfold TearDown. destruct (_ || _); [done|].
  assert (∃ t, read_detail d c = Done t) as [t ->] by (destruct d; [by eexists..|done]). cbn [rbind].
  match goal with |- rbind (fail_all d ?l ?x) _ ≠ _ => pose proof (fail_all_text d l x Hd) as H end.
  destruct (fail_all d _ _); [by apply fail_all_text|done|done].
Qed.

Lemma CancelTimersAndUnwatch_calls c :
  calls_ (CancelTimersAndUnwatch c) = calls_ c ∧ pending_calls_ (CancelTimersAndUnwatch c) = pending_calls_ c.
Proof. unfold CancelTimersAndUnwatch. by repeat case_match. Qed.

Lemma TearDown_session m :
  is_Some (h2_ m) → TearDown SessionError m = UseAfterFree → torn_by_session m.
Proof.
  intros Hh HT. split; [done|]. split; [|done].
  destruct (decide (active_calls_ (calls_ m) = ∅)) as [Ha|]; [|by left].
  destruct (pending_calls_ m) as [|] eqn:Hp; [exfalso|by right].
  unfold TearDown in HT. destruct (_ || _); [done|]. destruct Hh as [h Hh].
  cbn [read_detail] in HT. rewrite Hh in HT. cbn [rbind] in HT.
  match goal with H : context [CancelTimersAndUnwatch ?x] |- _ =>
    destruct (CancelTimersAndUnwatch_calls x) as [Hc Hq]; set (c1 := CancelTimersAndUnwatch x) in *; clearbody c1 end.
  unfold active_keys in HT. cbn in HT. rewrite Hc in HT. cbn in HT. rewrite Ha, elements_empty in HT.
  cbn in HT. rewrite Hq in HT. cbn in HT. rewrite Hp in HT. done.
Qed.

(** A ready channel has its session. *)
Definition sessioned c : Prop := is_ready c = true → is_Some (h2_ c).

(** The channel has failed or is shut down, which is final. *)
Definition gone c : Prop := ChannelImpl.state_ c = kFailed ∨ ChannelImpl.state_ c = kShutdown.

Lemma TearDown_gone d c c' : TearDown d c = Done c' → gone c'.
Proof.
  assert (Hf : ∀ l (x y : Chan), fail_all d l x = Done y → ChannelImpl.state_ y = ChannelImpl.state_ x).
  { induction l as [|j l IH]; intros x y; cbn [fail_all]; [by intros [= <-]|].
    destruct (read_detail d x); cbn [rbind]; try done. intros H. by apply IH in H. }
  unfold TearDown. destruct (_ || _) eqn:Hs.
  - intros [= <-]. apply orb_true_iff in Hs. rewrite !bool_decide_eq_true in Hs. exact Hs.
  - destruct (read_detail d c); cbn [rbind]; try done.
    destruct (fail_all d _ _) as [c1| |] eqn:H1; cbn [rbind]; try done. intros H2.
    apply Hf in H1. apply Hf in H2. left.
    rewrite H2. cbn. rewrite H1. cbn. unfold CancelTimersAndUnwatch. by repeat case_match.
Qed.

Lemma gone_unready c : gone c → is_ready c = false.
Proof. unfold is_ready. intros H. apply bool_decide_eq_false. destruct H; congruence. Qed.

Lemma TearDown_sessioned d c c' : TearDown d c = Done c' → sessioned c'.
Proof. intros H%TearDown_gone%gone_unready. unfold sessioned. by rewrite H. Qed.

Section Lost.
Context (G : option (Http2Session Calls) → Calls → list Z → Prop) (HG : handler_stable G).
Abbreviation good := (good G).

(** Reached from here, with [G] kept on the way. *)
Definition loses : Prop := ∃ m, good m ∧ torn_by_session m.

Lemma TearDown_loses c : good c → is_Some (h2_ c) → TearDown SessionError c = UseAfterFree → loses.
Proof. intros Hg Hh HT. exists c. split; [done|]. by apply TearDown_session. Qed.

(** [FlushOutput] and [DrainSocket] keep a ready channel's session, or lose the channel. *)
Lemma FlushOutput_outcome fuel c :
  good c → sessioned c →
  match FlushOutput fuel c with Done c' => sessioned c' | UseAfterFree => loses | NoFuel => True end.
Proof.
  revert c. induction fuel as [|fuel IH]; intros c Hg Hs; cbn [FlushOutput]; [done|].
  unfold sessioned in Hs. destruct (is_ready c) eqn:Hr; cbn [negb]; [|unfold sessioned; by rewrite Hr].
  destruct (Hs eq_refl) as [h Hh]. rewrite Hh. unfold pending_output.
  destruct (PendingOutput _ h (calls_ c)) as [[[h1 w1] view]|] eqn:HP; [|done]. cbn [rbind].
  unfold ChannelKeeps.good, carries in Hg. rewrite Hh in Hg.
  assert (Hg1 : good {| c with h2_ := Some h1; calls_ := w1 |}) by (by eapply (hs_output G HG)).
  case_bool_decide as Hv.
  { case_bool_decide; [by eexists|]. destruct (TearDown _ _) eqn:HT; [by eapply TearDown_sessioned| |done].
    eapply TearDown_loses; [exact Hg1|by eexists|done]. }
  cbn [sock_]. destruct (sock_Write view (sock_ c)) as [s [st written]] eqn:Hwr.
  destruct st; try (by eexists);
    try (destruct (TearDown SockError _) eqn:HT; [by eapply TearDown_sessioned|by apply TearDown_text in HT|done]).
  apply sock_Write_some in Hwr; [|done].
  apply IH; [apply (hs_consume G HG); [lia|exact Hg1]|]. intros _. by eexists.
Qed.

Lemma DrainSocket_outcome fuel c :
  good c → sessioned c →
  match DrainSocket now fuel c with Done c' => sessioned c' | UseAfterFree => loses | NoFuel => True end.
Proof.
  revert c. induction fuel as [|fuel IH]; intros c Hg Hs; cbn [DrainSocket]; [done|].
  unfold sessioned in Hs. destruct (is_ready c) eqn:Hr; cbn [negb]; [|unfold sessioned; by rewrite Hr].
  destruct (sock_Read kReadSize (sock_ c)) as [s [st data]].
  destruct (Hs eq_refl) as [h Hh].
  destruct st; try (intros _; by eexists);
    try (destruct (TearDown _ _) eqn:HT; [by eapply TearDown_sessioned|by apply TearDown_text in HT|done]).
  cbn [h2_]. rewrite Hh. unfold read_clock. cbn [env_].
  destruct (now (env_ c)) as [e t]. cbn [calls_].
  destruct (ReceiveBytes t data h (calls_ c)) as [[h' w'] ok] eqn:HR.
  unfold ChannelKeeps.good, carries in Hg. rewrite Hh in Hg.
  assert (Hg1 : good {| c with sock_ := s; env_ := e; h2_ := Some h'; calls_ := w' |})
    by (by eapply (hs_receive G HG)).
  destruct ok; [apply IH; [exact Hg1|intros _; by eexists]|].
  destruct (TearDown _ _) eqn:HT; [by eapply TearDown_sessioned| |done].
  eapply TearDown_loses; [exact Hg1|by eexists|done].
Qed.

Lemma FlushOutput_loses fuel c : good c → sessioned c → FlushOutput fuel c = UseAfterFree → loses.
Proof. intros Hg Hs H. pose proof (FlushOutput_outcome fuel c Hg Hs) as Ho. by rewrite H in Ho. Qed.

Lemma SubmitCall_sessioned pc c : sessioned c → sessioned (SubmitCall cfg pc c).
Proof.
  unfold sessioned, SubmitCall. intros Hs. destruct (is_ready c) eqn:Hr.
  2: { intros Hr'. change (is_ready c = true) in Hr'. congruence. }
  destruct (Hs eq_refl) as [h ->]. destruct (SubmitUnaryRequest _ _ _ h) as [h' i].
  by case_test; eexists.
Qed.

Lemma submit_pending_sessioned pcs c : sessioned c → sessioned (submit_pending cfg pcs c).
Proof.
  revert c. induction pcs as [|pc pcs IH]; intros c Hs; cbn [submit_pending]; [done|].
  destruct (negb (is_ready c)); apply IH; [done|by apply SubmitCall_sessioned].
Qed.

Lemma RearmKeepalive_sessioned c : sessioned c → sessioned (RearmKeepalive now c).
Proof.
  intros Hs. unfold sessioned in *. rewrite RearmKeepalive_h2. intros Hr. apply Hs. rewrite <- Hr.
  unfold RearmKeepalive, add_timer, read_clock. destruct (is_ready c) eqn:Hr'; [|by rewrite Hr'].
  destruct (h2_ c); [|by rewrite Hr']. destruct (negb _); cbn; repeat case_match; simplify_eq; by rewrite <- Hr'.
Qed.

Lemma StartSession_loses fuel c : good c → StartSession now client_new cfg fuel c = UseAfterFree → loses.
Proof.
  unfold StartSession, read_clock. destruct (now (env_ c)) as [e t]. cbn [env_]. intros Hg H.
  pose proof (client_new_open e) as Hopen. destruct (client_new e) as [e' [crc client]].
  pose proof (hs_new G HG _ _ _ (http2 (options_ cfg)) t crc client Hg Hopen) as Hok.
  set (h := new_http2_session _ _ _ _ _) in *. clearbody h.
  destruct (negb (ok h)); [eapply TearDown_loses; [| |exact H]; [exact Hok|by eexists]|].
  destruct (FlushOutput fuel _) as [c1| |] eqn:Hf; cbn [rbind] in H; [| |done].
  2: { eapply FlushOutput_loses; [| |exact Hf]; [exact Hok|]. intros _. by eexists. }
  match type of Hf with FlushOutput _ ?x = _ => assert (Hs1 : match FlushOutput fuel x with
    Done c' => sessioned c' | UseAfterFree => loses | NoFuel => True end)
    by (apply FlushOutput_outcome; [exact Hok|intros _; by eexists]) end.
  rewrite Hf in Hs1.
  apply (FlushOutput_good _ HG) in Hf; [|exact Hok]. apply (RearmKeepalive_good now) in Hf.
  apply RearmKeepalive_sessioned in Hs1. set (c2 := RearmKeepalive now c1) in *. clearbody c2.
  destruct (submit_pending_good cfg _ HG (pending_calls_ c2) [] (clear_pending c2)) as [H3 Hp].
  { rewrite app_nil_r. exact Hf. }
  apply (carries_pending _ HG) in H3; [|by rewrite Hp].
  assert (Hs3 : sessioned (submit_pending cfg (pending_calls_ c2) (clear_pending c2)))
    by (by apply submit_pending_sessioned).
  set (c3 := submit_pending _ _ _) in *. clearbody c3.
  destruct (is_ready c3); [by eapply FlushOutput_loses|done].
Qed.

Lemma OnConnectProgress_loses fuel c :
  good c → OnConnectProgress now client_new cfg fuel c = UseAfterFree → loses.
Proof.
  unfold OnConnectProgress. destruct (sock_ContinueConnect (sock_ c)) as [s st]. intros Hg H.
  set (c1 := if negb _ then _ else _) in H.
  assert (Hg1 : good c1) by (subst c1; destruct (negb _); by eapply good_same). clearbody c1.
  destruct st; simpl in H; try done; [by eapply StartSession_loses|by apply TearDown_text in H..].
Qed.

Lemma OnSocketReady_loses fuel revents c :
  good c → sessioned c → OnSocketReady now fuel revents c = UseAfterFree → loses.
Proof.
  unfold OnSocketReady. intros Hg Hs H. pose proof (DrainSocket_outcome fuel c Hg Hs) as Hd.
  destruct (if negb _ then DrainSocket now fuel c else Done c) as [c1| |] eqn:H1; cbn [rbind] in H; try done.
  - assert (Hg1 : good c1) by (destruct (negb _); [by eapply DrainSocket_good|by injection H1 as <-]).
    assert (Hs1 : sessioned c1) by (destruct (negb _); [by rewrite H1 in Hd|by injection H1 as <-]).
    destruct (if is_ready c1 then FlushOutput fuel c1 else Done c1) as [c2| |] eqn:H2; cbn [rbind] in H; try done.
    destruct (is_ready c1); [by eapply FlushOutput_loses|done].
  - destruct (negb _); [by rewrite H1 in Hd|done].
Qed.

Lemma OnKeepaliveTimer_loses fuel c :
  good c → sessioned c → OnKeepaliveTimer now fuel c = UseAfterFree → loses.
Proof.
  unfold OnKeepaliveTimer. cbn [h2_]. intros Hg Hs H. destruct (is_ready _) eqn:Hr; [|done].
  destruct (h2_ c) as [h|] eqn:Hh; [|done].
  unfold read_clock in H. cbn [env_] in H. destruct (now (env_ c)) as [e t].
  destruct (CheckKeepalive t h) as [h' a] eqn:Hc. unfold ChannelKeeps.good, carries in Hg. rewrite Hh in Hg.
  assert (Hg1 : good {| c with keepalive_timer_ := 0; env_ := e; h2_ := Some h' |})
    by (by eapply (hs_keepalive G HG)).
  destruct a; [| |by apply TearDown_text in H];
    (destruct (FlushOutput fuel _) as [c1| |] eqn:Hf; cbn [rbind] in H; try done;
     eapply FlushOutput_loses; [| |exact Hf]; [exact Hg1|by intros _; eexists]).
Qed.

Lemma HandleNewCall_loses fuel pc c :
  carries G (ChannelImpl.call pc :: pending_keys c) c → sessioned c →
  HandleNewCall now cfg fuel pc c = UseAfterFree → loses.
Proof.
  unfold HandleNewCall. intros Hg Hs H. destruct (state_ c); try done.
  - exfalso. unfold StartConnecting in H. destruct (add_timer now _ _ _) as [c1 i].
    destruct (sock_StartConnect _ _ _ _) as [s started]. destruct (negb started); [|done].
    by apply TearDown_text in H.
  - destruct (SubmitCall_good cfg _ HG pc _ c Hg) as [Hg' Hp]. eapply FlushOutput_loses; [|by apply SubmitCall_sessioned|exact H].
    unfold ChannelKeeps.good, pending_keys in *. by rewrite Hp.
Qed.

End Lost.

Lemma DoShutdown_text fuel c : phase c → DoShutdown fuel c ≠ UseAfterFree.
Proof.
  intros Hph. destruct (decide (state_ c = kShutdown)) as [Hs|Hs].
  - unfold DoShutdown. by rewrite bool_decide_eq_true_2.
  - destruct (DoShutdown_outline c Hph Hs) as (c3 & _ & Hh3 & ->).
    destruct (is_ready c && bool_decide (is_Some (h2_ c))) eqn:Hb; [|done].
    apply andb_true_iff in Hb as [_ [h Hh]%bool_decide_eq_true].
    pose proof (final_flush_alive fuel {| c3 with h2_ := Terminate <$> h2_ c3 |} (Terminate h)) as Hf.
    destruct (final_flush fuel _); [done| |done]. intros _. apply Hf; [|done]. cbn. by rewrite Hh3, Hh.
Qed.

(** ** The handlers as the loop calls them *)

(** From the channel [c] the loop calls a handler on [c1], and [run] is what it does with
    some fuel: a posted operation (a new call has just been allocated by its caller), a
    due timer, or readiness of the watched descriptor. *)
Inductive handler c : Chan → (nat → Res Chan) → Prop :=
  | handler_new_call k path request md tmo pc :
      store (calls_ c) !! k = None → prepare_call cfg k path request md tmo = inr pc →
      let c1 := {| c with calls_ := {| (calls_ c) with store :=
        <[k := new_call (max_receive_message_size (options_ cfg))]> (store (calls_ c)) |} |} in
      handler c c1 (λ fuel, call_op now cfg fuel (OpNewCall pc) c1)
  | handler_shutdown : handler c c (λ fuel, call_op now cfg fuel OpShutdown c)
  | handler_timer i cb h' :
      timer_callbacks c !! i = Some cb →
      callbacks_ h' = delete i (timer_callbacks c) → next_id_ h' = next_id_ (timers_ (loop_ c)) →
      let c1 := {| c with loop_ := {| (loop_ c) with timers_ := h' |} |} in
      handler c c1 (λ fuel, call_cb now fuel cb c1)
  | handler_ready rd revents :
      watched_on_ready_ (loop_ c) = Some rd →
      handler c c (λ fuel, call_rd now client_new cfg fuel rd revents c).

Lemma handler_activation c c1 run fuel c' :
  handler c c1 run → run fuel = Done c' → activation now client_new cfg c c'.
Proof.
  intros [k path request md tmo pc Hk Hp|  |i cb h' Hi Hcb Hid|rd revents Hrd] Hr.
  - by eapply step_new_call.
  - by eapply step_shutdown.
  - by eapply step_timer.
  - by eapply step_ready.
Qed.

(** The calls of [w'] are those of [w] after some more events. *)
Definition later (w w' : Calls) : Prop := ∀ k, ∃ evs, store w' !! k = run_call evs <$> store w !! k.

Lemma later_refl w : later w w.
Proof. intros k. exists []. by destruct (store w !! k). Qed.

Lemma later_stable w : stable (later w).
Proof.
  split; [|done]. intros w' k e Hw j. destruct (Hw j) as [evs Hj]. simpl.
  destruct (decide (k = j)) as [->|Hne]; [|exists evs; by rewrite lookup_alter_ne].
  exists (evs ++ [e]). rewrite lookup_alter_eq, Hj. destruct (store w !! j); [|done]. simpl.
  unfold run_call. by rewrite foldl_app.
Qed.

Lemma chan_inv_sessioned n c : chan_inv n c → sessioned c.
Proof.
  intros [_ Hph] Hr. unfold is_ready in Hr. apply bool_decide_eq_true in Hr.
  destruct Hph as [[Hs _]|[[Hs _]|[[[Hs [h Hh]] _]|[Hs _]]]]; try congruence; [by rewrite Hh|].
  destruct Hs; congruence.
Qed.

(** The one way in which a handler can read freed memory. *)
Lemma handler_loses n c c1 run fuel :
  chan_inv n c → handler c c1 run → run fuel = UseAfterFree →
  ∃ m, torn_by_session m ∧ later (calls_ c1) (calls_ m).
Proof.
  intros Hi Hh Hr. pose proof (chan_inv_sessioned n c Hi) as Hs.
  assert (HG : handler_stable (upholds (later (calls_ c1)))) by apply upholds_handlers, later_stable.
  assert (Hg : ∀ p, upholds (later (calls_ c1)) (h2_ c1) (calls_ c1) p).
  { intros p. split; [|apply later_refl]. intros h. replace (h2_ c1) with (h2_ c) by (by destruct Hh).
    apply (core_hooks n c (proj1 Hi)). }
  assert (loses (upholds (later (calls_ c1)))) as (m & [_ Hm] & Ht); [|by exists m].
  destruct Hh as [k path request md tmo pc Hk Hp c1|  |i cb h' Hi' Hcb Hid c1|rd revents Hrd].
  - eapply (HandleNewCall_loses _ HG fuel pc c1); [apply Hg|exact Hs|exact Hr].
  - by apply DoShutdown_text in Hr; [|apply Hi].
  - destruct cb; cbn [call_cb] in Hr; [by apply TearDown_text in Hr|].
    eapply (OnKeepaliveTimer_loses _ HG fuel c1); [apply Hg|exact Hs|exact Hr].
  - destruct rd; cbn [call_rd] in Hr.
    + eapply (OnConnectProgress_loses _ HG fuel c); [apply Hg|exact Hr].
    + eapply (OnSocketReady_loses _ HG fuel revents c); [apply Hg|exact Hs|exact Hr].
Qed.

(** A handler that ran out of fuel returns with more, if the peer's bytes run out. *)
Lemma handler_returns n c c1 run : chan_inv n c → handler c c1 run → dry (sock_ c1) → returns run.
Proof.
  intros Hi Hh Hd.
  assert (Hf : fine c1).
  { intros h. replace (h2_ c1) with (h2_ c) by (by destruct Hh). intros H. apply (core_hooks n c (proj1 Hi) h H). }
  destruct Hh as [k path request md tmo pc Hk Hp c1|  |i cb h' Hi' Hcb Hid c1|rd revents Hrd]; cbn [call_op].
  - by apply HandleNewCall_returns.
  - destruct (decide (state_ c = kShutdown)) as [Hs|Hs].
    + unfold DoShutdown. rewrite bool_decide_eq_true_2 by done. by apply returns_const.
    + destruct (DoShutdown_completes _ client_new_open _ c Hi Hs) as (c' & Hset & _). by exists (Done c').
  - destruct cb; cbn [call_cb]; [apply returns_const, TearDown_returns|by apply OnKeepaliveTimer_returns].
  - destruct rd; cbn [call_rd]; [by apply OnConnectProgress_returns|by apply OnSocketReady_returns].
Qed.

End Outcome.
