(* ===== verification/ChannelRouting.v ===== *)
(** * Responses and the calls they belong to

    Several calls share the session of a channel.  Here the streams of the session are
    tied to the calls they were opened for, in every state the channel can reach, and
    what [DrainSocket] reads is followed to the calls: each call sees the frames of its
    own stream, in order, and nothing of the others. *)

From Stdlib Require Import ZArith Lia.
From Stdlib Require Import Strings.String Strings.Byte.
From stdpp Require Import base numbers list gmap relations.
From S2P Require Import Prelude GrpcWire StdHeap TimerHeap Wakeup EventThread Http2Session CallState TlsSocket ChannelImpl Http2Properties ChannelProperties ChannelReturns ChannelKeeps.

Local Open Scope Z_scope.

(** ** The streams after each operation of the session *)

Section Streams.
Context `{NG : Nghttp2} {W : Type}.
Implicit Types (self : Http2Session W) (w : W).

Lemma run_send_shrink t self w self' w' r :
  run_send t self w = Some (self', w', r) → streams_shrink self self'.
Proof.
  revert self w. induction t as [s' n chunk|p len k IH|e k IH]; intros self w; cbn [run_send].
  - intros [= <- <- <-]. by apply shrink_same.
  - destruct (alloc self !! p) as [st|] eqn:Ha; [|done].
    destruct (DataSourceRead st len) as [[st' data] eof] eqn:Hd. intros H%IH. etrans; [|exact H].
    eapply shrink_update; [done|]. unfold DataSourceRead in Hd. by injection Hd as <- <- <-.
  - pose proof (on_event_shrink e self w) as Hs. destruct (on_event e self w) as [self1 w1].
    intros H%IH. by etrans.
Qed.

Lemma refill_shrink fuel self w self' w' b :
  refill fuel self w = Some (self', w', b) → streams_shrink self self'.
Proof.
  revert self w. induction fuel as [|fuel IH]; intros self w; cbn [refill]; [done|].
  destruct (session_ self) as [s|]; [|done].
  destruct (run_send _ _ _) as [[[self1 w1] [n chunk]]|] eqn:Hr; [|done]. apply run_send_shrink in Hr.
  intros H. etrans; [exact Hr|]. case_test_in H; [injection H as <- <- <-; by apply shrink_same|].
  case_test_in H; [by injection H as <- <- <-|]. apply IH in H. etrans; [|exact H]. by apply shrink_same.
Qed.

Lemma PendingOutput_shrink fuel self w self' w' view :
  PendingOutput fuel self w = Some (self', w', view) → streams_shrink self self'.
Proof.
  unfold PendingOutput. destruct (session_ self) as [s|]; [|by intros [= <- <- <-]].
  destruct (if zlen (out_ self) <=? out_consumed_ self then _ else _) as [[[self1 w1] b]|] eqn:H1; [|done].
  assert (Hs : streams_shrink self self1).
  { case_test_in H1; [|by injection H1 as <- <- <-]. apply refill_shrink in H1.
    etrans; [|exact H1]. by apply shrink_same. }
  intros H. destruct b; [case_test_in H|]; by injection H as <- <- <-.
Qed.

Lemma note_read_shrink t data self : streams_shrink self (note_read t data self).
Proof. unfold note_read. case_test; [by apply shrink_same|done]. Qed.

Lemma ReceiveBytes_shrink t data self w self' w' b :
  ReceiveBytes t data self w = (self', w', b) → streams_shrink self self'.
Proof.
  unfold ReceiveBytes. destruct (session_ self) as [s|]; [|by intros [= <- <- <-]].
  destruct (ng_mem_recv s data) as [s' [evs rc]]. intros H.
  pose proof (on_events_shrink evs (note_read t data self) w) as Hs.
  destruct (on_events evs _ w) as [self1 w1].
  etrans; [apply note_read_shrink|]. etrans; [exact Hs|].
  case_test_in H; injection H as <- <- <-; by apply shrink_same.
Qed.

Lemma CheckKeepalive_shrink t self self' a : CheckKeepalive t self = (self', a) → streams_shrink self self'.
Proof.
  unfold CheckKeepalive. destruct (session_ self) as [s|]; [|by intros [= <- <-]]. intros H.
  assert (Hs : streams_shrink self (settle_ping self))
    by (unfold settle_ping; case_test; [by apply shrink_same|done]).
  generalize dependent (settle_ping self). intros self1 H Hs. etrans; [exact Hs|].
  destruct (ping_outstanding_ self1); [case_test_in H; by injection H as <- <-|].
  destruct (keepalive_gated self1); [by injection H as <- <-|].
  destruct (_ <=? _); [|by injection H as <- <-]. destruct (ng_submit_ping _ _) as [s' rc].
  case_test_in H; injection H as <- <-; by apply shrink_same.
Qed.

Lemma simple_shrink self :
  (∀ n, streams_shrink self (ConsumeOutput n self)) ∧ streams_shrink self (Terminate self).
Proof.
  unfold ConsumeOutput, Terminate. split; [intros n; case_test|case_match]; by apply shrink_same.
Qed.

End Streams.

(** ** Streams and calls *)

Section Routing.
Import CallState.
Import ChannelImpl.
Import EventThread.
Import TimerHeap.
Context `{SZ : SizeT} `{SH : !StdHeap EntryLater} `{NL : Nghttp2Laws} `{SL : !TlsSocketLaws SO}.
Implicit Types (h : Http2Session Calls) (w : Calls).

(** Stream [i] was opened for call [k]. *)
Definition opened_for h (i k : Z) : Prop :=
  ∃ p st, FindStream h i = Some (p, st) ∧ hooks st = call_hooks k.

(** Call [k] has been submitted as stream [i], or is complete. *)
Definition settled (k i : Z) w : Prop :=
  ∃ cs, store w !! k = Some cs ∧ CallState.state_ cs ≠ kCreated ∧ (stream_id_ cs = i ∨ is_closed cs = true).

(** Call [k] has not been submitted. *)
Definition idle_call (cs : CallState) : Prop := CallState.state_ cs = kCreated ∨ is_closed cs = true.

Definition unsent (k : Z) w : Prop := ∃ cs, store w !! k = Some cs ∧ idle_call cs.

(** Every open stream belongs to a call that was submitted under its id. *)
Definition assigned h w : Prop :=
  ∀ i p st, FindStream h i = Some (p, st) → ∃ k, hooks st = call_hooks k ∧ settled k i w.

Definition demuxed (h : option (Http2Session Calls)) w (p : list Z) : Prop :=
  (∀ h', h = Some h' → hooked h' ∧ hooks_ h' = goaway_hooks ∧ assigned h' w) ∧
  NoDup p ∧ Forall (λ k, unsent k w) p.

Lemma call_hooks_inj k k' : call_hooks k = call_hooks k' → k = k'.
Proof.
  intros H. assert (Hc : on_close (call_hooks k) = on_close (call_hooks k')) by (by rewrite H).
  injection Hc as Hc. apply (f_equal (λ f, f 0 {| store := ∅; active_calls_ := {[k]} |})) in Hc.
  apply (f_equal active_calls_) in Hc. simpl in Hc.
  destruct (decide (k = k')) as [|Hne]; [done|]. exfalso.
  assert (Hin : k ∈ ({[k]} ∖ {[k]} : gset Z)) by (rewrite Hc; clear -Hne; set_solver). clear -Hin. set_solver.
Qed.

(** *** Calls *)

Lemma foldl_keeps {A} (f : CallState → A → CallState) l c :
  (∀ c a, stream_id_ (f c a) = stream_id_ c) → stream_id_ (foldl f c l) = stream_id_ c.
Proof. intros Hf. revert c. induction l as [|a l IH]; intros c; simpl; [done|]. by rewrite IH, Hf. Qed.

Lemma FinalizeLocked_stream ec cs : stream_id_ (FinalizeLocked ec cs) = stream_id_ cs.
Proof. unfold FinalizeLocked. repeat case_match; done. Qed.

Lemma response_header_stream es f cs : stream_id_ (response_header es f cs) = stream_id_ cs.
Proof. unfold response_header. by repeat case_match. Qed.

Lemma trailer_stream f cs : stream_id_ (trailer f cs) = stream_id_ cs.
Proof. unfold trailer. by repeat case_match. Qed.

(** Once submitted, a call keeps its stream id. *)
Lemma submitted_event e cs :
  CallState.state_ cs ≠ kCreated →
  stream_id_ (on_call_event e cs) = stream_id_ cs ∧ CallState.state_ (on_call_event e cs) ≠ kCreated.
Proof.
  intros Hs. destruct (is_closed cs) eqn:Hc; [by rewrite closed_frozen|]. split.
  - destruct e; cbn [on_call_event];
      unfold OnSubmitted, OnResponseHeaders, OnTrailers, OnData, OnClose, FailLocal; rewrite ?Hc; cbn [orb].
    + by rewrite bool_decide_eq_false_2.
    + rewrite foldl_keeps; [done|]. intros c [n v]. apply response_header_stream.
    + repeat case_match; try done. rewrite foldl_keeps; [|done]. done.
    + rewrite foldl_keeps; [done|]. intros c [n v]. apply trailer_stream.
    + apply FinalizeLocked_stream.
    + done.
  - destruct (completes e) eqn:He.
    + destruct (completing_event e cs Hc He) as [Hcl _].
      unfold is_closed in Hcl. apply bool_decide_eq_true in Hcl. by rewrite Hcl.
    + destruct e; cbn [on_call_event completes] in *; try done;
        unfold OnSubmitted, OnResponseHeaders, OnTrailers, OnData; rewrite ?Hc; cbn [orb].
      * by rewrite bool_decide_eq_false_2.
      * by rewrite (proj1 (foldl_response_header_state _ _ _)).
      * repeat case_match; try done. by rewrite (proj1 (foldl_count_state _ _)).
      * by rewrite (proj1 (foldl_trailer_state _ _)).
Qed.

Lemma settled_stable k i : stable (settled k i).
Proof.
  split; [|done]. intros w j e (cs & Hk & Hs & Hi). unfold settled. simpl. rewrite lookup_alter.
  case_decide; [|by eauto]. subst j. rewrite Hk. simpl. eexists. split; [done|].
  destruct (submitted_event e cs Hs) as [-> ?]. split; [done|].
  destruct Hi as [?|Hc]; [by left|right]. by rewrite closed_frozen.
Qed.

Lemma assigned_event h w k e : assigned h w → assigned h (on_call k (on_call_event e) w).
Proof.
  intros Ha i p st Hi. destruct (Ha i p st Hi) as (j & Hj & Hs). exists j. split; [done|].
  by apply (stable_event _ (settled_stable j i)).
Qed.

(** *** What a session's hooks leave alone *)

Lemma other_hooks_keep k j cs : j ≠ k → stream_hooks_keep (holds k cs) (call_hooks j).
Proof. intros Hne. split; intros; intros w Hw; unfold holds in *; simpl in *; by rewrite lookup_alter_ne. Qed.

(** A call that is not under way is out of the session's reach. *)
Lemma idle_call_kept h w k cs :
  hooked h → hooks_ h = goaway_hooks → assigned h w → store w !! k = Some cs →
  idle_call cs ∨ (∀ i, ¬ opened_for h i k) → session_keeps (holds k cs) h.
Proof.
  intros Hh Hg Ha Hk Hidle. destruct (is_closed cs) eqn:Hcl.
  { apply hooked_stable; [by apply holds_stable|done]. }
  split; [rewrite Hg; by split; intros; intros w0 Hw|]. intros p st Hp.
  destruct (hinv_no_leak h (hok_inv h (proj1 Hh)) p st Hp) as [_ [i Hi]].
  assert (Hf : FindStream h i = Some (p, st)) by (by apply FindStream_Some).
  destruct (Ha i p st Hf) as (j & Hj & cs' & Hcs' & Hst & _). rewrite Hj.
  apply other_hooks_keep. intros ->. destruct Hidle as [[Hc|Hc]|Hno].
  - congruence.
  - congruence.
  - apply (Hno i). by exists p, st.
Qed.

Lemma assigned_shrink h h' w w' :
  assigned h w → streams_shrink h h' → (∀ k i, settled k i w → settled k i w') → assigned h' w'.
Proof.
  intros Ha Hs Hw i p st Hi. destruct (shrink_find _ _ _ _ _ Hs Hi) as (st0 & Hi0 & ->).
  destruct (Ha i p st0 Hi0) as (k & Hk & ?). by eauto.
Qed.

(** A session operation that keeps what the hooks keep: the streams left are still
    those of their calls, and the waiting calls still wait. *)
Lemma demuxed_op h w p h' w' :
  demuxed (Some h) w p → hooked h' → streams_shrink h h' →
  (∀ I, session_keeps I h → I w → I w') → demuxed (Some h') w' p.
Proof.
  intros (Hh & Hnd & Hp) Hk Hs HI. destruct (Hh h eq_refl) as (Hk0 & Hg & Ha). split_and!; [|done|].
  - intros h2 [= <-]. split_and!; [done|by rewrite (proj1 Hs)|].
    eapply assigned_shrink; [done..|]. intros k i. apply HI.
    apply hooked_stable; [apply settled_stable|done].
  - eapply Forall_impl; [exact Hp|]. intros k (cs & Hcs & Hid). exists cs. split; [|done].
    apply (HI (holds k cs)); [|done]. eapply idle_call_kept; [done..|by left].
Qed.

Lemma demuxed_event o w p k e :
  demuxed o w p → (k ∈ p → completes e = true) → demuxed o (on_call k (on_call_event e) w) p.
Proof.
  intros (Hh & Hnd & Hp) He. split_and!; [|done|].
  - intros h' Hh'. destruct (Hh h' Hh') as (? & ? & ?). split_and!; [done..|by apply assigned_event].
  - apply Forall_forall. intros j Hj. rewrite Forall_forall in Hp. destruct (Hp j Hj) as (cs & Hcs & Hid).
    unfold unsent. simpl. rewrite lookup_alter. case_decide; [|by eauto]. subst j. rewrite Hcs. simpl.
    eexists. split; [done|]. right. destruct (is_closed cs) eqn:Hc; [by rewrite closed_frozen|].
    by apply completing_event; [|apply He].
Qed.

Lemma demuxed_fewer o w p p' : demuxed o w p → p' ⊆+ p → demuxed o w p'.
Proof.
  intros (Hh & Hnd & Hp) [l Hl]%submseteq_Permutation. rewrite Hl in Hnd, Hp.
  apply NoDup_app in Hnd as (? & _). apply Forall_app in Hp as [? _]. by split_and!.
Qed.

Lemma demuxed_submit h w p k headers body h' i :
  demuxed (Some h) w (k :: p) → SubmitUnaryRequest headers body (call_hooks k) h = (h', i) →
  demuxed (Some h') (if i <? 0 then w else on_call k (OnSubmitted i) w) p.
Proof.
  intros Hd HS. pose proof (demuxed_fewer _ _ _ p Hd) as (Hh & Hnd & Hp); [by apply submseteq_cons|].
  destruct Hd as (_ & [Hnin _]%NoDup_cons & [(cs & Hcs & Hid) _]%Forall_cons).
  destruct (Hh h eq_refl) as (Hk & Hg & Ha).
  pose proof (hooked_SubmitUnaryRequest _ _ _ _ _ _ HS Hk) as Hk'.
  pose proof (SubmitUnaryRequest_ok headers body (call_hooks k) h (proj1 Hk)) as Hok. rewrite HS in Hok.
  assert (Hg' : hooks_ h' = goaway_hooks).
  { rewrite <- Hg. unfold SubmitUnaryRequest in HS. repeat case_match; by injection HS as <- <-. }
  destruct (Z.ltb_spec i 0) as [Hi|Hi].
  - split_and!; [|done..]. intros h2 [= <-]. split_and!; [done..|].
    assert (Hs : streams_shrink h h'); [|by eapply assigned_shrink].
    unfold SubmitUnaryRequest in HS. destruct (session_ h); [|injection HS as <- <-; by apply shrink_same].
    destruct (draining_ h); [injection HS as <- <-; by apply shrink_same|].
    destruct (ng_submit_request _ _ _) as [s' j].
    case_test_in HS; injection HS as <- <-; [by apply shrink_same|lia].
  - destruct Hok as [_ Hok]. destruct (Hok Hi) as (Hnew & q & Hstr & Hq & Hal).
    assert (Hw : demuxed (Some h) (on_call k (on_call_event (Submitted i)) w) p).
    { apply demuxed_event; [by split_and!|done]. }
    destruct Hw as (Hh2 & _ & Hp2). destruct (Hh2 h eq_refl) as (_ & _ & Ha2).
    split_and!; [|done..]. intros h2 [= <-]. split_and!; [done..|].
    intros j p' st [Hj Hp']%FindStream_Some. rewrite Hstr in Hj. rewrite Hal in Hp'.
    destruct (decide (i = j)) as [<-|Hne].
    + rewrite lookup_insert_eq in Hj. injection Hj as <-. rewrite lookup_insert_eq in Hp'.
      injection Hp' as <-. exists k. split; [done|]. unfold settled. simpl. rewrite lookup_alter_eq, Hcs.
      eexists. split; [done|]. destruct Hid as [Hc|Hc].
      * unfold OnSubmitted. rewrite Hc, bool_decide_eq_true_2 by done. split; [done|by left].
      * pose proof (closed_frozen (Submitted i) cs Hc) as Hf. cbn [on_call_event] in Hf. rewrite Hf.
        split; [|by right]. unfold is_closed in Hc. apply bool_decide_eq_true in Hc. by rewrite Hc.
    + rewrite lookup_insert_ne in Hj by done. apply (Ha2 j p' st). apply FindStream_Some. split; [done|].
      rewrite lookup_insert_ne in Hp'; [done|]. intros ->.
      destruct (hinv_owned h (hok_inv h (proj1 Hk)) j p' Hj). congruence.
Qed.

Lemma demuxed_handlers : handler_stable demuxed.
Proof.
  split.
  - intros h w p k code m Hd. by apply (demuxed_event h w p k (Fail code m)).
  - done.
  - intros h w p (_ & ? & ?). by split_and!.
  - intros h w p p'. apply demuxed_fewer.
  - intros h w p o t crc client (_ & ? & ?) Ho. split_and!; [|done..]. intros h' [= <-].
    split_and!; [by apply hooked_new|..]; unfold new_http2_session; repeat case_match; try done;
      intros i q st Hi; unfold FindStream in Hi; simpl in Hi; by rewrite lookup_empty in Hi.
  - intros h w p t data h' w' b Hd HR. pose proof Hd as (Hh & _). destruct (Hh h eq_refl) as (Hk & _).
    eapply demuxed_op; [done|by eapply hooked_ReceiveBytes|by eapply ReceiveBytes_shrink|].
    intros I HI. by eapply (ReceiveBytes_keeps I) in HR as [_ H].
  - intros h w p fuel h' w' view Hd HP. pose proof Hd as (Hh & _). destruct (Hh h eq_refl) as (Hk & _).
    eapply demuxed_op; [done|by eapply hooked_PendingOutput|by eapply PendingOutput_shrink|].
    intros I HI. by eapply (PendingOutput_keeps I) in HP as [_ H].
  - intros h w p n Hn Hd. pose proof Hd as (Hh & _). destruct (Hh h eq_refl) as (Hk & _).
    eapply demuxed_op; [done|by apply hooked_ConsumeOutput|apply simple_shrink|done].
  - intros h w p t h' a Hd HC. pose proof Hd as (Hh & _). destruct (Hh h eq_refl) as (Hk & _).
    eapply demuxed_op; [done|by eapply hooked_CheckKeepalive|by eapply CheckKeepalive_shrink|done].
  - intros h w p Hd. pose proof Hd as (Hh & _). destruct (Hh h eq_refl) as (Hk & _).
    eapply demuxed_op; [done|by apply hooked_Terminate|apply simple_shrink|done].
  - intros h w p k headers body h' i. apply demuxed_submit.
Qed.

Lemma demuxed_new_call o w p k max :
  store w !! k = None → demuxed o w p →
  demuxed o {| w with store := <[k := new_call max]> (store w) |} (k :: p).
Proof.
  intros Hk (Hh & Hnd & Hp). assert (Hold : ∀ j cs, store w !! j = Some cs → <[k := new_call max]> (store w) !! j = Some cs).
  { intros j cs Hj. rewrite lookup_insert_ne; [done|]. congruence. }
  split_and!.
  - intros h' Hh'. destruct (Hh h' Hh') as (? & ? & Ha). split_and!; [done..|].
    intros i q st Hi. destruct (Ha i q st Hi) as (j & ? & cs & Hcs & ?). exists j. split; [done|].
    exists cs. split; [by apply Hold|done].
  - apply NoDup_cons. split; [|done]. intros Hin. rewrite Forall_forall in Hp.
    destruct (Hp k Hin) as (cs & Hcs & _). congruence.
  - constructor; [exists (new_call max); split; [apply lookup_insert_eq|by left]|].
    eapply Forall_impl; [exact Hp|]. intros j (cs & Hcs & ?). exists cs. split; [by apply Hold|done].
Qed.

(** *** One read *)

(** What nghttp2 makes of the bytes of a read. *)
Definition received h (data : bytes) : list Event :=
  match session_ h with Some s => (ng_mem_recv s data).2.1 | None => [] end.

Definition to_call (c : HookCall) : CallEvent :=
  match c with
  | HResponse hs e => ResponseHeaders hs e
  | HTrailers ts => Trailers ts
  | HData d => Data d
  | HClose code => Close code
  end.

(** Only stream [i], if any, is that of call [k]. *)
Definition tied h (k i : Z) : Prop :=
  (∀ j, opened_for h j k → j = i) ∧ (opened_for h i k ∨ FindStream h i = None).

Lemma opened_for_shrink h h' i k : streams_shrink h h' → opened_for h' i k → opened_for h i k.
Proof.
  intros Hs (p & st & Hi & Hk). destruct (shrink_find _ _ _ _ _ Hs Hi) as (st0 & Hi0 & E).
  exists p, st0. split; [done|congruence].
Qed.

Lemma tied_shrink h h' k i : streams_shrink h h' → tied h k i → tied h' k i.
Proof.
  intros Hs [H1 H2]. split; [intros j Hj; by eapply H1, opened_for_shrink|].
  destruct (FindStream h' i) as [[p st]|] eqn:Hi; [left|by right].
  destruct (shrink_find _ _ _ _ _ Hs Hi) as (st0 & Hi0 & E).
  destruct H2 as [(p' & st' & Hi' & Hk)|?]; [|congruence]. exists p, st. split; [done|congruence].
Qed.

Lemma assigned_opened h w i :
  assigned h w → is_Some (collected h i) →
  ∃ k cs, opened_for h i k ∧ store w !! k = Some cs ∧ (stream_id_ cs = i ∨ is_closed cs = true).
Proof.
  intros Ha [hs Hi]. unfold collected in Hi. destruct (FindStream h i) as [[p st]|] eqn:Hf; [|done].
  destruct (Ha i p st Hf) as (k & Hk & cs & Hcs & _ & Hid). exists k, cs. split; [by exists p, st|done].
Qed.

Lemma tied_opened h w k i cs :
  assigned h w → store w !! k = Some cs → is_closed cs = false → opened_for h i k → tied h k i.
Proof.
  intros Ha Hk Hc Hi. split; [|by left].
  assert (Hid : ∀ j, opened_for h j k → stream_id_ cs = j).
  { intros j (p & st & Hj & Hh). destruct (Ha j p st Hj) as (k' & Hk' & cs' & Hcs' & _ & Hor).
    assert (k' = k) as -> by (apply call_hooks_inj; congruence).
    destruct Hor; congruence. }
  intros j Hj. by rewrite <- (Hid j Hj), <- (Hid i Hi).
Qed.

Lemma tied_routed h w k i :
  hooks_ h = goaway_hooks → assigned h w → tied h k i →
  routed i (λ w, store w !! k) (λ v c, on_call_event (to_call c) <$> v) h.
Proof.
  intros Hg Ha [H1 H2]. split; [intros v; rewrite Hg; by split; intros; intros w0 Hw|].
  intros j p st Hj c w0. destruct (Ha j p st Hj) as (k' & Hk' & _). rewrite Hk'.
  destruct (decide (k' = k)) as [->|Hne].
  - assert (j = i) as -> by (apply H1; by exists p, st). rewrite Z.eqb_refl.
    destruct c; simpl; by rewrite lookup_alter_eq.
  - assert (j ≠ i).
    { intros ->. destruct H2 as [(q & st' & Hi & Hh)|?]; [|congruence].
      apply Hne, call_hooks_inj. congruence. }
    case_test; [done|]. destruct c; simpl; by rewrite lookup_alter_ne.
Qed.

Lemma run_to_call l cs :
  foldl (λ v c, on_call_event (to_call c) <$> v) (Some cs) l = Some (run_call (to_call <$> l) cs).
Proof. revert cs. induction l as [|c l IH]; intros cs; [done|]. simpl. apply IH. Qed.

(** A read brings call [k] the frames of its stream, and leaves the header fields of a
    block that is not complete. *)
Lemma ReceiveBytes_routed t data h w p h' w' b k i cs :
  demuxed (Some h) w p → tied h k i → store w !! k = Some cs →
  ReceiveBytes t data h w = (h', w', b) →
  store w' !! k = Some (run_call (to_call <$> stream_view i (collected h i) (received h data)) cs) ∧
  collected h' i = view_rest i (collected h i) (received h data).
Proof.
  intros (Hh & _) Ht Hk. destruct (Hh h eq_refl) as (Hok & Hg & Ha). unfold ReceiveBytes, received.
  destruct (session_ h) as [s|]; [|intros [= <- <- <-]; by destruct (collected h i)].
  destruct (ng_mem_recv s data) as [s' [evs rc]]. cbn [fst snd].
  pose proof (note_read_shrink t data h) as Hn.
  assert (Hc : collected (note_read t data h) i = collected h i) by (unfold note_read; by case_test).
  assert (Hi : session_inv (note_read t data h)).
  { destruct (hok_inv h (proj1 Hok)). unfold note_read. case_test; by split. }
  pose proof (on_events_view evs _ w i _ _ Hi (routed_shrink _ _ _ _ _ Hn (tied_routed h w k i Hg Ha Ht))) as Hv.
  destruct (on_events evs _ w) as [h1 w1]. rewrite Hc, Hk, run_to_call in Hv.
  intros H. case_test_in H; injection H as <- <- <-; exact (conj (proj2 Hv) (proj1 Hv)).
Qed.

End Routing.

(** ** The channel *)

Section Draining.
Import CallState.
Import GrpcMessageScanner.
Import WireStream.
Import ChannelImpl.
Import EventThread.
Import TimerHeap.
Context `{SZ : SizeT} `{SH : !StdHeap EntryLater} `{NL : Nghttp2Laws} `{SL : !TlsSocketLaws SO}.
Context {E : Type} (now : E → E * Z) (client_new : E → E * (Z * (Z * ng_session))).
Context (client_new_open : ∀ e, ng_open (client_new e).2.2.2 = ∅).
Context (cfg : ChannelConfig).
Abbreviation Chan := (Channel (E := E)).
Implicit Types c : Chan.

Lemma chan_run_demuxed steps s e c :
  nsteps (chan_step now client_new cfg) steps (new_channel s e) c → good demuxed c.
Proof.
  intros Hrun. assert (Hg0 : good demuxed (new_channel (E := E) s e)).
  { split_and!; [done|constructor..]. }
  revert Hg0. revert Hrun. generalize (new_channel (E := E) s e). intros c0 Hrun Hg0.
  induction Hrun as [c|steps a b d (a0 & (hp & -> & _) & Hact) _ IH]; [done|]. apply IH.
  eapply (activation_good now client_new client_new_open cfg demuxed demuxed_handlers);
    [|exact Hact|exact Hg0]. intros h w p k. apply demuxed_new_call.
Qed.

(** The callbacks of all reads of a [DrainSocket]. *)
Fixpoint drained (fuel : nat) c : list Event :=
  match fuel with
  | O => []
  | S fuel' =>
      if negb (is_ready c) then []
      else
        let '(s, (st, data)) := sock_Read kReadSize (sock_ c) in
        match st, h2_ c with
        | kOkIo, Some h =>
            let '(c, t) := read_clock now {| c with sock_ := s |} in
            let '(h', w, ok) := ReceiveBytes t data h (calls_ c) in
            received h data ++
              (if ok then drained fuel' {| c with h2_ := Some h'; calls_ := w |} else [])
        | _, _ => []
        end
  end.

(** What a lost transport adds to every call. *)
Definition lost c : list CallEvent :=
  if bool_decide (ChannelImpl.state_ c = kFailed) then [Fail kUnavailable (failure_detail_ c)] else [].

Lemma ready_lost c : ready c → lost c = [].
Proof. intros [Hs _ _ _]. unfold lost. by rewrite Hs. Qed.

Lemma TearDown_lost n d c c' k cs :
  core n c → ready c → TearDown d c = Done c' → store (calls_ c) !! k = Some cs →
  store (calls_ c') !! k = Some (run_call (lost c') cs).
Proof.
  intros Hc [Hs Hh Ht Hw] Htd Hk.
  destruct (TearDown_fails n d c c') as (_ & _ & Hf & Hcalls); try done; [by rewrite Hs..| |].
  { eapply timers_are_mono; [done|]. naive_solver. }
  unfold lost. rewrite Hf, bool_decide_eq_true_2 by done. rewrite Hcalls.
  destruct (core_waiters n c Hc k cs Hk) as [Hi Hd]. unfold run_call. cbn [foldl on_call_event].
  destruct (done_ cs) eqn:Hdone.
  - rewrite (fail_all_closed _ _ _ k cs); [|done|by rewrite <- Hi].
    unfold FailLocal. by rewrite <- Hi, Hdone.
  - apply fail_all_results; [done|]. rewrite elem_of_app, elem_of_elements. naive_solver.
Qed.

Lemma run_call_app l l' cs : run_call (l ++ l') cs = run_call l' (run_call l cs).
Proof. unfold run_call. by rewrite foldl_app. Qed.

Lemma DrainSocket_routed n fuel c c' h k i cs :
  core n c → ready c → good demuxed c → h2_ c = Some h → tied h k i → store (calls_ c) !! k = Some cs →
  DrainSocket now fuel c = Done c' →
  store (calls_ c') !! k =
    Some (run_call ((to_call <$> stream_view i (collected h i) (drained fuel c)) ++ lost c') cs).
Proof.
  assert (Hnil : ∀ cur, stream_view i cur [] = []) by (by intros []).
  revert c h cs. induction fuel as [|fuel IH]; intros c h cs Hc Hr Hg Hh Ht Hk; [done|].
  cbn [DrainSocket drained]. rewrite ready_is_ready by done. cbn [negb].
  destruct (sock_Read kReadSize (sock_ c)) as [s [st data]].
  set (c1 := {| c with sock_ := s |}).
  assert (Hc1 : core n c1 ∧ ready c1) by (by destruct Hc, Hr; split; split). destruct Hc1 as [Hc1 Hr1].
  destruct st; [| |by rewrite Hnil; intros [= <-]; rewrite ready_lost| |].
  2: { rewrite Hnil. intros [= <-]. by rewrite ready_lost. }
  2,3: rewrite Hnil; intros Htd; by eapply (TearDown_lost n) in Htd.
  cbn [h2_ c1]. rewrite Hh. destruct (read_clock now c1) as [c2 t] eqn:Ec.
  destruct (read_clock_ready now n _ _ _ Ec Hc1 Hr1) as (Hc2 & Hr2 & Hh2 & Hw2 & Hp2).
  assert (Hg2 : demuxed (Some h) (calls_ c2) (pending_keys c2)).
  { unfold good, carries, pending_keys in *. rewrite Hw2, Hp2. by rewrite Hh in Hg. }
  destruct (ReceiveBytes t data h (calls_ c2)) as [[h' w'] ok] eqn:Er.
  assert (Hk2 : store (calls_ c2) !! k = Some cs) by (by rewrite Hw2).
  destruct (ReceiveBytes_routed _ _ _ _ _ _ _ _ _ _ _ Hg2 Ht Hk2 Er) as [Hk' Hcol].
  pose proof (hs_receive demuxed demuxed_handlers _ _ _ _ _ _ _ _ Hg2 Er) as Hg3.
  pose proof (tied_shrink _ _ _ _ (ReceiveBytes_shrink _ _ _ _ _ _ _ Er) Ht) as Ht3.
  cbn [h2_ c1] in Hh2. rewrite Hh in Hh2. pose proof (core_hooks n c2 Hc2 h Hh2) as Hkk.
  destruct (ready_update now n c2 h' w' (sock_ c2) (env_ c2) Hc2 Hr2) as [Hc3 Hr3].
  { by eapply hooked_ReceiveBytes. }
  { eapply (ReceiveBytes_keeps (waiters (pending_keys c2))) in Er as [_ HI]; [|by apply hooked_waiters].
    apply HI, Hc2. }
  rewrite view_app, <- Hcol, fmap_app, <- app_assoc, run_call_app.
  destruct ok; intros Hd.
  - eapply IH in Hd; [exact Hd|done|done|done|done|done|done].
  - rewrite Hnil. by eapply (TearDown_lost n) in Hd.
Qed.

(** A completed call stays as it is. *)
Lemma DrainSocket_closed fuel c c' k cs :
  good demuxed c → DrainSocket now fuel c = Done c' → store (calls_ c) !! k = Some cs →
  is_closed cs = true → store (calls_ c') !! k = Some cs.
Proof.
  intros [Hg _] Hd Hk Hcl.
  eapply (DrainSocket_good now (upholds (holds k cs))) in Hd as [_ H]; [exact H|..].
  - by apply upholds_handlers, holds_stable.
  - split; [|done]. intros h Hh. by destruct (Hg h Hh).
Qed.

Lemma fresh_stream (h : Http2Session Calls) : ∃ i, FindStream h i = None.
Proof.
  exists (fresh (dom (streams_ h))). unfold FindStream.
  pose proof (is_fresh (dom (streams_ h))) as Hf. apply not_elem_of_dom in Hf. by rewrite Hf.
Qed.

Lemma chan_run_ready steps s e c h :
  nsteps (chan_step now client_new cfg) steps (new_channel s e) c → Z.of_nat steps + 1 < 2 ^ 64 →
  h2_ c = Some h → core (Z.of_nat steps + 1) c ∧ ready c.
Proof.
  intros Hrun Hb Hh. destruct (chan_run_inv _ _ client_new_open _ _ _ _ _ Hrun Hb) as [Hc Hph].
  split; [done|].
  destruct Hph as [[_ [_ _ Hn _ _]]|[[_ _ Hn _ _]|[[Hr _]|[_ [_ _ Hn _ _]]]]]; [congruence..|done|congruence].
Qed.

(** C4: on a connection that several calls share, responses are not mixed: whatever
    frames of whatever streams a [DrainSocket] reads, in any number of reads, each call
    is then exactly what the frames of its own stream make of it, in order, followed by
    the UNAVAILABLE of a transport lost on the way; a call without a stream sees only
    the latter; and every open stream belongs to a call. *)
Theorem responses_reach_their_call (steps fuel : nat) (s : socket_type) (e : E) (c c' : Channel)
    (h : Http2Session Calls) :
  nsteps (chan_step now client_new cfg) steps (new_channel s e) c → Z.of_nat steps + 1 < 2 ^ 64 →
  h2_ c = Some h → DrainSocket now fuel c = Done c' →
  (∀ i, is_Some (FindStream h i) → ∃ k, opened_for h i k ∧ is_Some (store (calls_ c) !! k)) ∧
  ∀ k cs, store (calls_ c) !! k = Some cs →
    (∀ i, opened_for h i k →
       store (calls_ c') !! k =
         Some (run_call ((to_call <$> stream_view i (collected h i) (drained fuel c)) ++ lost c') cs)) ∧
    ((∀ i, ¬ opened_for h i k) → store (calls_ c') !! k = Some (run_call (lost c') cs)).
Proof.
  intros Hrun Hb Hh Hd. pose proof (chan_run_demuxed _ _ _ _ Hrun) as Hg.
  destruct (chan_run_ready steps s e c h Hrun Hb Hh) as [Hc Hr].
  assert (Ha : assigned h (calls_ c)) by (destruct Hg as [Hg _]; by apply Hg).
  split.
  { intros i [[p st] Hi]. destruct (Ha i p st Hi) as (k & Hk & cs & Hcs & _). exists k.
    split; [by exists p, st|by exists cs]. }
  intros k cs Hk. split.
  - intros i Hi. destruct (is_closed cs) eqn:Hcl.
    + rewrite closed_frozen_run by done. by eapply DrainSocket_closed.
    + eapply DrainSocket_routed; [done..|by eapply tied_opened|done|done].
  - intros Hno. destruct (fresh_stream h) as [i Hi].
    eapply (DrainSocket_routed _ fuel c c' h k i) in Hd; [|done..| |done].
    + unfold collected in Hd. rewrite Hi, stream_view_None in Hd. exact Hd.
    + split; [|by right]. intros j Hj. by destruct (Hno j).
Qed.

End Draining.

(** ** Two calls on one connection *)

Section RoutingWitnesses.
Import CallState.
Import GrpcMessageScanner.
Import WireStream.
Import ChannelImpl.
Import EventThread.
Import ToyNghttp2.
Import ToySocket.
Import TimerHeap.
Local Existing Instance size_t32.

Definition headers_frame (i : Z) : Frame := FHeaders i 4 HCAT_RESPONSE.
Definition trailers_frame (i : Z) : Frame := FHeaders i 5 HCAT_HEADERS.
Definition content_type : Header := (bs "content-type", bs "application/grpc").

(** The frames of the two answers, interleaved, in two reads that arrive one after the
    other: the second call is answered with OK and one byte, the first with NOT_FOUND. *)
Definition two_answers : list (list Event) :=
  [ [ EvHeader (headers_frame 1) (bs ":status") (bs "200");
      EvHeader (headers_frame 3) (bs ":status") (bs "200");
      EvHeader (headers_frame 3) content_type.1 content_type.2; EvFrame (headers_frame 3);
      EvHeader (headers_frame 1) content_type.1 content_type.2; EvFrame (headers_frame 1);
      EvData 3 (AppendGrpcFramePrefix 1 []) ];
    [ EvHeader (trailers_frame 1) (bs "grpc-status") (bs "5"); EvData 3 (bs "b");
      EvFrame (trailers_frame 1);
      EvHeader (trailers_frame 3) (bs "grpc-status") (bs "0"); EvClose 1 0;
      EvFrame (trailers_frame 3); EvClose 3 0 ] ].

Definition two_client (e : Z) : Z * (Z * (Z * ng_session)) := (e, (0, (0, toy_new two_answers))).

Lemma two_client_open e : ng_open (two_client e).2.2.2 = ∅.
Proof. reflexivity. Qed.

Abbreviation ExChannel := (Channel (E := Z) (NG := toy_nghttp2) (SO := toy_socket)).

Definition two_step : ExChannel → ExChannel → Prop := chan_step ex_now two_client ex_cfg.

Definition two_idle : ExChannel := new_channel ([bs "first"; []; bs "second"] : socket_type) 0.
Definition two_connecting : ExChannel :=
  get (call_op ex_now ex_cfg 20 (OpNewCall (ex_pc 1)) (with_call 1 two_idle)) two_idle.
Definition two_waiting : ExChannel :=
  get (call_op ex_now ex_cfg 20 (OpNewCall (ex_pc 2)) (with_call 2 two_connecting)) two_idle.
Definition two_ready : ExChannel :=
  get (call_rd ex_now two_client ex_cfg 20 RdConnectProgress POLLIN two_waiting) two_idle.
Definition two_begun : ExChannel := get (DrainSocket ex_now 20 two_ready) two_idle.

Lemma two_step1 : two_step two_idle two_connecting.
Proof.
  apply activation_step. eapply (step_new_call _ _ _ _ 20 1 (bs "/S/M") (bs "x") [] None); [reflexivity..|].
  apply get_done. vm_compute. reflexivity.
Qed.

Lemma two_step2 : two_step two_connecting two_waiting.
Proof.
  apply activation_step.
  eapply (step_new_call _ _ _ _ 20 2 (bs "/S/M") (bs "x") [] None); [vm_compute; reflexivity|reflexivity|].
  refine (get_done (call_op ex_now ex_cfg 20 (OpNewCall (ex_pc 2)) (with_call 2 two_connecting)) two_idle _).
  vm_compute. reflexivity.
Qed.

Lemma two_step3 : two_step two_waiting two_ready.
Proof.
  apply activation_step. eapply (step_ready _ _ _ _ 20 RdConnectProgress POLLIN); [vm_compute; reflexivity|].
  refine (get_done (call_rd ex_now two_client ex_cfg 20 RdConnectProgress POLLIN two_waiting) two_idle _).
  vm_compute. reflexivity.
Qed.

Lemma two_ready_run : nsteps two_step 3 two_idle two_ready.
Proof.
  eapply nsteps_l; [apply two_step1|]. eapply nsteps_l; [apply two_step2|].
  eapply nsteps_l; [apply two_step3|]. constructor.
Qed.

Lemma two_drains : DrainSocket ex_now 20 two_ready = Done two_begun.
Proof. refine (get_done (DrainSocket ex_now 20 two_ready) two_idle _). vm_compute. reflexivity. Qed.

Lemma two_calls :
  map_Forall (λ k cs, is_closed cs = false ∧ (stream_id_ cs = 1 → k = 1) ∧ (stream_id_ cs = 3 → k = 2))
    (store (calls_ two_ready)).
Proof. apply (bool_decide_unpack _). vm_compute. exact I. Qed.

(** The session of the two calls, with the two streams and nothing collected yet. *)
Lemma two_session :
  ∃ h, h2_ two_ready = Some h ∧ opened_for h 1 1 ∧ opened_for h 3 2 ∧
    collected h 1 = Some [] ∧ collected h 3 = Some [].
Proof.
  assert (H : match h2_ two_ready with Some h => Some (collected h 1, collected h 3) | None => None end =
              Some (Some [], Some [])).
  { vm_compute. reflexivity. }
  pose proof (chan_run_demuxed ex_now two_client two_client_open ex_cfg _ _ _ _ two_ready_run) as [Hg _].
  pose proof two_calls as Hcalls. revert H Hg Hcalls.
  generalize (h2_ two_ready) (calls_ two_ready). intros o w H Hg Hcalls.
  destruct o as [h|]; [|done]. exists h. split; [done|]. injection H as H1 H3.
  destruct (Hg h eq_refl) as (_ & _ & Ha). split_and!; [..|done|done].
  - destruct (assigned_opened h w 1 Ha) as (k & cs & Hk & Hcs & Hid); [by rewrite H1|].
    destruct (Hcalls k cs Hcs) as (? & Hone & _). destruct Hid as [Hid|]; [|congruence]. by rewrite (Hone Hid) in Hk.
  - destruct (assigned_opened h w 3 Ha) as (k & cs & Hk & Hcs & Hid); [by rewrite H3|].
    destruct (Hcalls k cs Hcs) as (? & _ & Htwo). destruct Hid as [Hid|]; [|congruence]. by rewrite (Htwo Hid) in Hk.
Qed.

Lemma responses_reach_their_call_witness :
  ∃ h cs, h2_ two_ready = Some h ∧ opened_for h 1 1 ∧ store (calls_ two_ready) !! 1 = Some cs ∧
    store (calls_ two_begun) !! 1 =
      Some (run_call ((to_call <$> stream_view 1 (collected h 1) (drained ex_now 20 two_ready)) ++
                      lost two_begun) cs).
Proof.
  destruct two_session as (h & Hh & H1 & _). exists h.
  destruct (responses_reach_their_call ex_now two_client two_client_open ex_cfg 3 20 _ 0 two_ready two_begun h
              two_ready_run) as [_ H].
  - reflexivity.
  - exact Hh.
  - exact two_drains.
  - assert (Hs : is_Some (store (calls_ two_ready) !! 1)) by (apply (bool_decide_unpack _); vm_compute; exact I).
    destruct Hs as [cs Hcs]. exists cs. split; [exact Hh|]. split; [exact H1|]. split; [exact Hcs|].
    destruct (H 1 cs Hcs) as [Hown _]. exact (Hown 1 H1).
Defined.

End RoutingWitnesses.
