(* ===== verification/ChannelTrace.v ===== *)
(** * Responses over the whole life of a connection

    The frames of a response arrive in as many handler runs as the peer and the network
    choose, with other calls submitted, answered and sent in between.  Here the callbacks
    nghttp2 makes in each handler are written down in the order in which they happen
    ([trace]), and a call is followed through all of them to its result. *)

From Stdlib Require Import ZArith Lia.
From Stdlib Require Import Strings.String Strings.Byte.
From stdpp Require Import base numbers list gmap relations.
From S2P Require Import Prelude GrpcWire StdHeap TimerHeap Wakeup EventThread Http2Session CallState TlsSocket ChannelImpl Http2Properties ChannelProperties ChannelReturns ChannelKeeps ChannelOutcome ChannelRouting.

Local Open Scope Z_scope.

(** ** The callbacks of a send *)

Section SendView.
Context `{NL : Nghttp2Laws} {W V : Type}.
Implicit Types (self : Http2Session W) (w : W).

(** Those of one [nghttp2_session_mem_send], of the refill loop and of [PendingOutput]. *)
Fixpoint send_events (t : SendTree ng_session) self w : list Event :=
  match t with
  | SendRet _ _ _ => []
  | SendRead p len k =>
      match alloc self !! p with
      | None => []
      | Some st =>
          let '(st, data, eof) := DataSourceRead st len in
          send_events (k data eof) {| self with alloc := <[p := st]> (alloc self) |} w
      end
  | SendEvent e k => e :: let '(self, w) := on_event e self w in send_events k self w
  end.

Fixpoint refill_events (fuel : nat) self w : list Event :=
  match fuel, session_ self with
  | S fuel, Some s =>
      send_events (ng_mem_send s) self w ++
      match run_send (ng_mem_send s) self w with
      | Some (self, w, (n, chunk)) =>
          if n <=? 0 then [] else refill_events fuel {| self with out_ := out_ self ++ chunk |} w
      | None => []
      end
  | _, _ => []
  end.

Definition output_events (fuel : nat) self w : list Event :=
  if zlen (out_ self) <=? out_consumed_ self
  then refill_events fuel {| self with out_ := []; out_consumed_ := 0 |} w else [].

Context (i : Z) (view : W → V) (act : V → HookCall → V).

(** Between [self, w] and [self', w'] stream [i] saw [evs]. *)
Definition viewed self w (evs : list Event) self' w' : Prop :=
  collected self' i = view_rest i (collected self i) evs ∧
  view w' = foldl act (view w) (stream_view i (collected self i) evs).

Lemma view_rest_app cur evs evs' :
  view_rest i cur (evs ++ evs') = view_rest i (view_rest i cur evs) evs'.
Proof.
  revert cur. induction evs as [|e evs IH]; intros cur; [by destruct cur|].
  cbn [app]. by rewrite view_rest_cons, IH, (view_rest_cons _ _ _ evs).
Qed.

Lemma viewed_refl self w self' : collected self' i = collected self i → viewed self w [] self' w.
Proof. intros H. unfold viewed. rewrite H. by destruct (collected self i). Qed.

Lemma viewed_trans self w evs self1 w1 evs' self2 w2 :
  viewed self w evs self1 w1 → viewed self1 w1 evs' self2 w2 → viewed self w (evs ++ evs') self2 w2.
Proof.
  intros [H1 H2] [H3 H4]. unfold viewed. rewrite view_app, view_rest_app, foldl_app. by rewrite <- H1, <- H2.
Qed.

Lemma run_send_view t s self w self' w' r :
  session_inv self → send_contract ng_open ng_pending s (streams_ self) t → routed i view act self →
  run_send t self w = Some (self', w', r) → viewed self w (send_events t self w) self' w'.
Proof.
  revert self w. induction t as [s' n chunk|p len k IH|e k IH]; intros self w Hinv Hok Hr; cbn [run_send send_events].
  - intros [= <- <- <-]. by apply viewed_refl.
  - destruct Hok as (Hlen & [j Hj] & Hk). destruct (alloc self !! p) as [st|] eqn:Hst; [|done].
    pose proof (DataSourceRead_spec st len ltac:(lia) (hinv_body self Hinv p st Hst)) as Hd.
    pose proof (DataSourceRead_progress st len Hlen (hinv_body self Hinv p st Hst)) as He.
    destruct (DataSourceRead st len) as [[st' data] eof]. destruct Hd as (_ & Hh & Hp & Hb & Hl & _).
    intros Hrun. apply IH in Hrun as [H1 H2].
    + assert (Hc : collected {| self with alloc := <[p := st']> (alloc self) |} i = collected self i).
      { assert (Hf : FindStream self j = Some (p, st)) by (by apply FindStream_Some). unfold collected.
        rewrite (FindStream_update self j p st) by done. case_test; [|done]. subst. by rewrite Hf, Hp. }
      unfold viewed. rewrite <- Hc. done.
    + by eapply session_inv_update.
    + by apply Hk.
    + eapply routed_shrink; [|exact Hr]. by eapply shrink_update.
  - simpl in Hok. pose proof (on_event_inv e self w Hinv) as Hi. pose proof (on_event_streams e self w) as Hs.
    pose proof (on_event_view e self w i view act Hinv Hr) as Hv. pose proof (on_event_shrink e self w) as Hsh.
    destruct (on_event e self w) as [self1 w1]. simpl in *. intros Hrun.
    apply IH in Hrun; [|done|by rewrite Hs|by eapply routed_shrink].
    exact (viewed_trans _ _ [e] _ _ _ _ _ Hv Hrun).
Qed.

Lemma refill_view fuel s self w self' w' b :
  session_inv self → session_ self = Some s → streams_ self = ng_open s → routed i view act self →
  refill fuel self w = Some (self', w', b) → viewed self w (refill_events fuel self w) self' w'.
Proof.
  revert s self w. induction fuel as [|fuel IH]; intros s self w Hinv Hs Ho Hr; cbn [refill refill_events]; [done|].
  rewrite Hs. assert (Hok : send_contract ng_open ng_pending s (streams_ self) (ng_mem_send s)).
  { rewrite Ho. apply ng_mem_send_ok. }
  destruct (run_send_ok (ng_mem_send s) s self w Hinv Hok)
    as (self1 & w1 & s1 & n & chunk & Hrun & Hi1 & Hs1 & Ho1 & _).
  pose proof (run_send_view _ _ _ _ _ _ _ Hinv Hok Hr Hrun) as Hv.
  pose proof (run_send_shrink _ _ _ _ _ _ Hrun) as Hsh. rewrite Hrun.
  intros H. destruct (Z.ltb_spec n 0).
  { destruct (Z.leb_spec n 0); [|lia]. injection H as <- <- <-. rewrite app_nil_r. exact Hv. }
  destruct (Z.eqb_spec n 0).
  { destruct (Z.leb_spec n 0); [|lia]. injection H as <- <- <-. rewrite app_nil_r. exact Hv. }
  destruct (Z.leb_spec n 0); [lia|]. eapply viewed_trans; [exact Hv|].
  apply (IH s1) in H; [exact H| |done|done|].
  - destruct Hi1 as [? ? ? ? ? Hbound]. split; simpl; try done. rewrite zlen_app. pose proof (zlen_nonneg chunk). lia.
  - eapply routed_shrink; [|exact Hr]. etrans; [exact Hsh|]. by apply shrink_same.
Qed.

Lemma PendingOutput_viewed fuel self w self' w' out :
  session_ok self → routed i view act self → PendingOutput fuel self w = Some (self', w', out) →
  viewed self w (output_events fuel self w) self' w'.
Proof.
  intros [Hinv Hopen] Hr. unfold PendingOutput, output_events. destruct (session_ self) as [s|] eqn:Hs.
  2: { intros [= <- <- <-]. replace (if _ : bool then _ else _) with (@nil Event); [by apply viewed_refl|].
       case_test; [|done]. by destruct fuel; cbn; rewrite ?Hs. }
  destruct (if zlen (out_ self) <=? out_consumed_ self then _ else _) as [[[self1 w1] b]|] eqn:H1; [|done].
  intros H. assert (self' = self1 ∧ w' = w1) as [-> ->] by (destruct b; [case_test_in H|]; by injection H as <- <- <-).
  case_test_in H1; [|injection H1 as <- <- <-; by apply viewed_refl].
  apply (refill_view _ s) in H1; [exact H1| |done|by apply Hopen|].
  - by destruct Hinv; split.
  - eapply routed_shrink; [|exact Hr]. by apply shrink_same.
Qed.

End SendView.

(** The header fields collected do not change with a PING. *)
Lemma CheckKeepalive_collected `{NG : Nghttp2} {W} t (self self' : Http2Session W) a i :
  CheckKeepalive t self = (self', a) → collected self' i = collected self i.
Proof.
  unfold CheckKeepalive. destruct (session_ self) as [s|]; [|by intros [= <- <-]]. intros H.
  assert (Hs : collected (settle_ping self) i = collected self i) by (unfold settle_ping; by case_test).
  rewrite <- Hs. generalize dependent (settle_ping self). intros self1 H _.
  destruct (ping_outstanding_ self1); [case_test_in H; by injection H as <- <-|].
  destruct (keepalive_gated self1); [by injection H as <- <-|].
  destruct (_ <=? _); [|by injection H as <- <-]. destruct (ng_submit_ping _ _) as [s' rc].
  case_test_in H; by injection H as <- <-.
Qed.

(** ** The callbacks of a handler *)

Section Trace.
Import CallState.
Import GrpcMessageScanner.
Import WireStream.
Import ChannelImpl.
Import EventThread.
Import TimerHeap.
Context `{SZ : SizeT} `{SH : !StdHeap EntryLater} `{NL : Nghttp2Laws} `{SL : !TlsSocketLaws SO}.
Context {E : Type} (now : E → E * Z) (client_new : E → E * (Z * (Z * ng_session))).
Context (client_new_open : ∀ e, ng_open (client_new e).2.2.2 = ∅).
Context (cfg : ChannelConfig).
Abbreviation Chan := (Channel (E := E)).
Implicit Types c : Chan.

(** The callbacks of a [FlushOutput]. *)
Fixpoint flushed (fuel : nat) c : list Event :=
  match fuel with
  | O => []
  | S fuel' =>
      if negb (is_ready c) then []
      else
        match h2_ c with
        | None => []
        | Some h =>
            output_events fuel h (calls_ c) ++
            match pending_output fuel h c with
            | Done (c, data) =>
                if bool_decide (data = []) then []
                else
                  let '(s, (st, written)) := sock_Write data (sock_ c) in
                  match st with
                  | kOkIo => flushed fuel' (consume_output written {| c with sock_ := s |})
                  | _ => []
                  end
            | _ => []
            end
        end
  end.

(** Those of the socket handler: the reads, then the flush. *)
Definition socket_events (fuel : nat) (revents : Z) c : list Event :=
  let read := negb (Z.land revents (Z.lor POLLIN (Z.lor POLLERR POLLHUP)) =? 0) in
  (if read then drained now fuel c else []) ++
  match (if read then DrainSocket now fuel c else Done c) with
  | Done c => flushed fuel c
  | _ => []
  end.

(** Those of the keepalive timer, which may have queued a PING. *)
Definition keepalive_events (fuel : nat) c : list Event :=
  match is_ready c, h2_ c with
  | true, Some h =>
      let '(c, t) := read_clock now {| c with keepalive_timer_ := 0 |} in
      let '(h, action) := CheckKeepalive t h in
      match action with kDead => [] | _ => flushed fuel {| c with h2_ := Some h |} end
  | _, _ => []
  end.

(** One activation by the loop and the callbacks made to the streams of its session: a
    new call is submitted and flushed on a ready channel; [DoShutdown] has answered every
    call before it sends its GOAWAY, the connect timer has no session, and the connect
    handler none yet. *)
Inductive observed c : list Event → Chan → Prop :=
  | observed_new_call fuel k path request md tmo pc c' :
      store (calls_ c) !! k = None → prepare_call cfg k path request md tmo = inr pc →
      let c1 := {| c with calls_ := {| (calls_ c) with store :=
        <[k := new_call (max_receive_message_size (options_ cfg))]> (store (calls_ c)) |} |} in
      call_op now cfg fuel (OpNewCall pc) c1 = Done c' →
      observed c (if is_ready c then flushed fuel (SubmitCall cfg pc c1) else []) c'
  | observed_shutdown fuel c' :
      call_op now cfg fuel OpShutdown c = Done c' → observed c [] c'
  | observed_timer fuel i cb h' c' :
      timer_callbacks c !! i = Some cb →
      callbacks_ h' = delete i (timer_callbacks c) → next_id_ h' = next_id_ (timers_ (loop_ c)) →
      let c1 := {| c with loop_ := {| (loop_ c) with timers_ := h' |} |} in
      call_cb now fuel cb c1 = Done c' →
      observed c (match cb with CbConnectTimeout => [] | CbKeepalive => keepalive_events fuel c1 end) c'
  | observed_ready fuel rd revents c' :
      watched_on_ready_ (loop_ c) = Some rd →
      call_rd now client_new cfg fuel rd revents c = Done c' →
      observed c (match rd with RdConnectProgress => [] | RdSocketReady => socket_events fuel revents c end) c'.

Lemma observed_activation c evs c' : observed c evs c' → activation now client_new cfg c c'.
Proof.
  intros [fuel k path request md tmo pc c2 Hk Hp c1 H|fuel c2 H|fuel i cb h' c2 Hi Hcb Hid c1 H|fuel rd rv c2 Hrd H].
  - by eapply step_new_call.
  - by eapply step_shutdown.
  - by eapply step_timer.
  - by eapply step_ready.
Qed.

(** Every activation is observed, with one list of callbacks or another. *)
Lemma activation_observed c c' : activation now client_new cfg c c' → ∃ evs, observed c evs c'.
Proof.
  intros [fuel k path request md tmo pc c2 Hk Hp H|fuel c2 H|fuel i cb h' c2 Hi Hcb Hid H|fuel rd rv c2 Hrd H];
    eexists.
  - by eapply observed_new_call.
  - by eapply observed_shutdown.
  - by eapply observed_timer.
  - by eapply observed_ready.
Qed.

(** A run of [n] activations and the callbacks of all of them. *)
Inductive trace : nat → Chan → list Event → Chan → Prop :=
  | trace_nil c : trace 0 c [] c
  | trace_cons n c c0 evs c1 evs' c2 :
      tidied c c0 → observed c0 evs c1 → trace n c1 evs' c2 → trace (S n) c (evs ++ evs') c2.

Lemma trace_steps n c evs c' : trace n c evs c' → nsteps (chan_step now client_new cfg) n c c'.
Proof.
  induction 1 as [c|n c c0 evs c1 evs' c2 Ht Ho _ IH]; [constructor|].
  eapply nsteps_l; [|exact IH]. exists c0. split; [done|by eapply observed_activation].
Qed.

(** ** One call, followed *)

Section Follow.
Context (k i : Z).

(** Call [k] is [cs] and waits for the rest of its stream [i] on a ready channel, with
    the header fields [cur] collected. *)
Definition on_track (cur : option HeaderList) (cs : CallState) c : Prop :=
  is_ready c = true ∧ good demuxed c ∧ store (calls_ c) !! k = Some cs ∧
  ∃ h, h2_ c = Some h ∧ tied h k i ∧ collected h i = cur.

Definition seen (cur : option HeaderList) (evs : list Event) : list CallEvent := to_call <$> stream_view i cur evs.

(** After the callbacks [evs] the call is still on track, or the connection is gone and
    something more, such as a failure, may have happened to the call. *)
Definition reaches (cur : option HeaderList) (cs : CallState) (evs : list Event) c' : Prop :=
  on_track (view_rest i cur evs) (run_call (seen cur evs) cs) c' ∨
  (gone c' ∧ ∃ es, store (calls_ c') !! k = Some (run_call (seen cur evs ++ es) cs)).

Lemma reaches_app cur cs evs evs' c' :
  reaches (view_rest i cur evs) (run_call (seen cur evs) cs) evs' c' → reaches cur cs (evs ++ evs') c'.
Proof.
  unfold reaches, seen. rewrite view_app, view_rest_app, fmap_app, <- run_call_app.
  intros [H|[H [es Hes]]]; [by left|right]. split; [done|]. exists es. by rewrite <- app_assoc, run_call_app.
Qed.

Lemma reaches_nil cur cs c : on_track cur cs c → reaches cur cs [] c.
Proof. intros H. left. unfold seen. by destruct cur. Qed.

Lemma good_later c c' (P : ∀ G, handler_stable G → good G c → good G c') cs :
  good demuxed c → store (calls_ c) !! k = Some cs → ∃ es, store (calls_ c') !! k = Some (run_call es cs).
Proof.
  intros [Hg _] Hk.
  destruct (P (upholds (later (calls_ c))) (upholds_handlers _ (later_stable _))) as [_ H].
  - split; [|apply later_refl]. intros h Hh. apply (Hg h Hh).
  - destruct (H k) as [es Hes]. exists es. by rewrite Hes, Hk.
Qed.

Lemma TearDown_reaches d cur cs c c' : on_track cur cs c → TearDown d c = Done c' → reaches cur cs [] c'.
Proof.
  intros (_ & Hg & Hk & _) HT. right. split; [by eapply TearDown_gone|].
  destruct (good_later c c' (λ G HG, TearDown_good G HG d c c' HT) cs Hg Hk) as [es Hes].
  exists es. unfold seen. by destruct cur.
Qed.

Lemma track_routed c h :
  good demuxed c → h2_ c = Some h → tied h k i →
  hooked h ∧ routed i (λ w : Calls, store w !! k) (λ v e, on_call_event (to_call e) <$> v) h.
Proof.
  intros [Hg _] Hh Ht. destruct (Hg h Hh) as (Hk & Hgo & Ha). split; [done|]. by eapply tied_routed.
Qed.

(** A session operation that made the callbacks [evs]. *)
Lemma on_track_viewed cur cs c h h' w' evs :
  on_track cur cs c → h2_ c = Some h → streams_shrink h h' →
  demuxed (Some h') w' (pending_keys c) →
  viewed i (λ w : Calls, store w !! k) (λ v e, on_call_event (to_call e) <$> v) h (calls_ c) evs h' w' →
  ∀ s e, on_track (view_rest i cur evs) (run_call (seen cur evs) cs)
           {| c with sock_ := s; env_ := e; h2_ := Some h'; calls_ := w' |}.
Proof.
  intros (Hr & Hg & Hk & h0 & Hh0 & Ht & Hc) Hh Hs Hd [Hv1 Hv2] s e.
  rewrite Hh in Hh0. injection Hh0 as <-. split_and!; [done|exact Hd|..].
  - cbn [calls_]. by rewrite Hv2, Hk, run_to_call, Hc.
  - exists h'. split_and!; [done|by eapply tied_shrink|by rewrite Hv1, Hc].
Qed.

Lemma FlushOutput_track fuel cur cs c c' :
  on_track cur cs c → FlushOutput fuel c = Done c' → reaches cur cs (flushed fuel c) c'.
Proof.
  revert cur cs c. induction fuel as [|fuel IH]; intros cur cs c Ht; cbn [FlushOutput flushed]; [done|].
  pose proof Ht as (Hr & Hg & Hk & h & Hh & Hti & Hcur). rewrite Hr, Hh. cbn [negb]. unfold pending_output.
  destruct (PendingOutput (S fuel) h (calls_ c)) as [[[h1 w1] view]|] eqn:HP; [|done]. cbn [rbind].
  destruct (track_routed c h Hg Hh Hti) as [Hhk Hro].
  pose proof (PendingOutput_viewed i _ _ _ _ _ _ _ _ (proj1 Hhk) Hro HP) as Hv.
  assert (Hd : demuxed (Some h1) w1 (pending_keys c)).
  { unfold good, carries in Hg. rewrite Hh in Hg. by eapply (hs_output demuxed demuxed_handlers). }
  pose proof (on_track_viewed cur cs c h h1 w1 _ Ht Hh (PendingOutput_shrink _ _ _ _ _ _ HP) Hd Hv) as Ht1.
  intros Hf. apply reaches_app. pose proof (Ht1 (sock_ c) (env_ c)) as Ht0.
  case_bool_decide as Hview.
  { case_bool_decide; [injection Hf as <-; by apply reaches_nil|by eapply TearDown_reaches]. }
  cbn [sock_] in *. destruct (sock_Write view (sock_ c)) as [s [st written]] eqn:Hwr.
  pose proof (Ht1 s (env_ c)) as Ht2.
  destruct st; try (injection Hf as <-; by apply reaches_nil); try (by eapply TearDown_reaches).
  apply sock_Write_some in Hwr; [|done]. apply IH; [|exact Hf].
  destruct Ht2 as (Hr2 & Hg2 & Hk2 & h2 & Hh2 & Hti2 & Hc2). injection Hh2 as <-.
  pose proof (tied_shrink _ _ k i (proj1 (simple_shrink h1) written) Hti2) as Hti3. split_and!; [done| |done|].
  - apply (hs_consume demuxed demuxed_handlers); [lia|exact Hg2].
  - exists (ConsumeOutput written h1). split_and!; [done|done|].
    rewrite <- Hc2. unfold ConsumeOutput. by case_test.
Qed.

Lemma DrainSocket_track fuel cur cs c c' :
  on_track cur cs c → DrainSocket now fuel c = Done c' → reaches cur cs (drained now fuel c) c'.
Proof.
  revert cur cs c. induction fuel as [|fuel IH]; intros cur cs c Ht; cbn [DrainSocket drained]; [done|].
  pose proof Ht as (Hr & Hg & Hk & h & Hh & Hti & Hcur). rewrite Hr. cbn [negb].
  destruct (sock_Read kReadSize (sock_ c)) as [s [st data]].
  assert (Ht1 : on_track cur cs {| c with sock_ := s |}) by exact Ht.
  destruct st; try (intros [= <-]; by apply reaches_nil);
    try (intros HT; eapply TearDown_reaches; [exact Ht1|exact HT]).
  cbn [h2_]. rewrite Hh.
  unfold read_clock. cbn [env_]. destruct (now (env_ c)) as [e t]. cbn [calls_].
  destruct (ReceiveBytes t data h (calls_ c)) as [[h' w'] ok] eqn:HR. intros Hd. apply reaches_app.
  assert (Hg' : demuxed (Some h) (calls_ c) (pending_keys c)) by (unfold good, carries in Hg; by rewrite Hh in Hg).
  destruct (ReceiveBytes_routed _ _ _ _ _ _ _ _ k i cs Hg' Hti Hk HR) as [Hk' Hc'].
  assert (Ht' : on_track (view_rest i cur (received h data)) (run_call (seen cur (received h data)) cs)
                  {| c with sock_ := s; env_ := e; h2_ := Some h'; calls_ := w' |}).
  { split_and!; [done|by eapply (hs_receive demuxed demuxed_handlers)|by rewrite <- Hcur|].
    exists h'. split_and!; [done| |by rewrite Hc', Hcur].
    by eapply tied_shrink; [eapply ReceiveBytes_shrink|]. }
  destruct ok; [by apply IH|by eapply TearDown_reaches].
Qed.

Lemma flushed_unready fuel c : is_ready c = false → flushed fuel c = [].
Proof. intros H. destruct fuel; cbn [flushed]; [done|]. by rewrite H. Qed.

Lemma RearmKeepalive_track cur cs c : on_track cur cs c → on_track cur cs (RearmKeepalive now c).
Proof.
  intros (Hr & Hg & Hk & h & Hh & Hti & Hc).
  assert (Hsame : is_ready (RearmKeepalive now c) = is_ready c ∧ calls_ (RearmKeepalive now c) = calls_ c).
  { unfold RearmKeepalive, add_timer, read_clock. rewrite Hr, Hh.
    destruct (negb _); cbn; repeat case_match; simplify_eq; by rewrite <- Hr. }
  destruct Hsame as [Hr' Hw']. split_and!; [by rewrite Hr'|by apply (RearmKeepalive_good now)|by rewrite Hw'|].
  exists h. by rewrite RearmKeepalive_h2.
Qed.

Lemma OnSocketReady_track fuel revents cur cs c c' :
  on_track cur cs c → OnSocketReady now fuel revents c = Done c' →
  reaches cur cs (socket_events fuel revents c) c'.
Proof.
  unfold OnSocketReady, socket_events. intros Ht H.
  set (read := negb _) in *. clearbody read.
  destruct (if read then DrainSocket now fuel c else Done c) as [c1| |] eqn:H1; cbn [rbind] in H; try done.
  assert (Hr1 : reaches cur cs (if read then drained now fuel c else []) c1).
  { destruct read; [by apply DrainSocket_track|]. injection H1 as <-. by apply reaches_nil. }
  destruct Hr1 as [Ht1|[Hg1 [es Hes]]].
  - apply reaches_app. pose proof Ht1 as (Hr1 & _). rewrite Hr1 in H.
    destruct (FlushOutput fuel c1) as [c2| |] eqn:H2; cbn [rbind] in H; try done.
    destruct (FlushOutput_track _ _ _ _ _ Ht1 H2) as [Ht2|[Hg2 Hes2]].
    + pose proof Ht2 as (Hr2 & _). rewrite Hr2 in H. injection H as <-. left. by apply RearmKeepalive_track.
    + rewrite (gone_unready c2 Hg2) in H. injection H as <-. right. by split.
  - pose proof (gone_unready c1 Hg1) as Hu. rewrite Hu in H. cbn [rbind] in H. rewrite Hu in H. injection H as <-.
    rewrite flushed_unready, app_nil_r by done. right. split; [done|]. by exists es.
Qed.

Lemma OnKeepaliveTimer_track fuel cur cs c c' :
  on_track cur cs c → OnKeepaliveTimer now fuel c = Done c' → reaches cur cs (keepalive_events fuel c) c'.
Proof.
  intros Ht. pose proof Ht as (Hr & Hg & Hk & h & Hh & Hti & Hcur).
  unfold OnKeepaliveTimer, keepalive_events. change (is_ready {| c with keepalive_timer_ := 0 |}) with (is_ready c).
  cbn [h2_]. rewrite Hr, Hh. unfold read_clock. cbn [env_]. destruct (now (env_ c)) as [e t].
  destruct (CheckKeepalive t h) as [h' a] eqn:HC. pose proof (CheckKeepalive_shrink _ _ _ _ HC) as Hs.
  assert (Ht' : on_track cur cs {| c with keepalive_timer_ := 0; env_ := e; h2_ := Some h' |}).
  { split_and!; [done| |done|].
    - unfold good, carries in Hg. rewrite Hh in Hg. by eapply (hs_keepalive demuxed demuxed_handlers) in HC.
    - exists h'. split_and!; [done|by eapply tied_shrink|]. rewrite <- Hcur. by eapply CheckKeepalive_collected. }
  intros H. destruct a; [| |by eapply TearDown_reaches];
    (destruct (FlushOutput fuel _) as [c1| |] eqn:Hf; cbn [rbind] in H; try done; injection H as <-;
     eapply FlushOutput_track in Hf; [|exact Ht']; destruct Hf as [Ht1|[Hg1 Hes]];
     [left; by apply RearmKeepalive_track|right; unfold RearmKeepalive; by rewrite (gone_unready c1 Hg1)]).
Qed.

(** *** A new call beside this one *)

Lemma SubmitUnaryRequest_refused headers body hk (h h' : Http2Session Calls) j :
  SubmitUnaryRequest headers body hk h = (h', j) → j < 0 →
  hooks_ h' = hooks_ h ∧ streams_ h' = streams_ h ∧ alloc h' = alloc h.
Proof.
  unfold SubmitUnaryRequest. intros HS Hj. repeat case_match; simplify_eq; try done. lia.
Qed.

Lemma FindStream_submitted (h h' : Http2Session Calls) j q st x :
  session_inv h → streams_ h' = <[j := q]> (streams_ h) → alloc h !! q = None →
  alloc h' = <[q := st]> (alloc h) →
  FindStream h' x = if decide (x = j) then Some (q, st) else FindStream h x.
Proof.
  intros Hinv Hs Hq Ha. unfold FindStream. rewrite Hs, Ha. case_decide as Hx.
  - subst x. by rewrite lookup_insert_eq, lookup_insert_eq.
  - rewrite lookup_insert_ne by done. destruct (streams_ h !! x) as [p|] eqn:Hp; [|done].
    rewrite lookup_insert_ne; [done|]. intros ->. destruct (hinv_owned h Hinv x p Hp). congruence.
Qed.

Lemma tied_submitted (h h' : Http2Session Calls) headers body k' j hs :
  session_ok h → k' ≠ k → tied h k i → collected h i = Some hs →
  SubmitUnaryRequest headers body (call_hooks k') h = (h', j) → tied h' k i ∧ collected h' i = Some hs.
Proof.
  intros Hok Hne Ht Hc HS. pose proof (SubmitUnaryRequest_ok headers body (call_hooks k') h Hok) as Hs.
  rewrite HS in Hs. destruct (decide (0 <= j)) as [Hj|Hj].
  - destruct (proj2 Hs Hj) as (Hnew & q & Hstr & Hq & Hal).
    assert (Hf := λ x, FindStream_submitted h h' j q _ x (hok_inv h Hok) Hstr Hq Hal).
    assert (Hij : i ≠ j).
    { intros ->. unfold collected, FindStream in Hc. by rewrite Hnew in Hc. }
    assert (Hfi : FindStream h' i = FindStream h i) by (by rewrite Hf, decide_False).
    unfold collected in *. rewrite Hfi. split; [|done]. destruct Ht as [Ht1 Ht2]. split.
    + intros x (p & st & Hx & Hh). rewrite Hf in Hx. case_decide; [|by apply Ht1; exists p, st].
      injection Hx as <- <-. by apply call_hooks_inj in Hh.
    + destruct Ht2 as [(p & st & Hi & Hh)|?]; [|right; congruence]. left. exists p, st. by rewrite Hfi.
  - destruct (SubmitUnaryRequest_refused _ _ _ _ _ _ HS) as (Hh & Hst & Hal); [lia|]. split.
    + eapply tied_shrink; [|exact Ht]. by apply shrink_same.
    + unfold collected, FindStream in *. by rewrite Hst, Hal.
Qed.

Lemma SubmitCall_track pc hs cs c :
  on_track (Some hs) cs c → ChannelImpl.call pc ≠ k →
  carries demuxed (ChannelImpl.call pc :: pending_keys c) c → on_track (Some hs) cs (SubmitCall cfg pc c).
Proof.
  intros (Hr & Hg & Hk & h & Hh & Hti & Hcur) Hne Hd.
  destruct (SubmitCall_good cfg demuxed demuxed_handlers pc (pending_keys c) c Hd) as [Hd' Hp'].
  assert (Hg' : good demuxed (SubmitCall cfg pc c)) by (unfold good, pending_keys in *; by rewrite Hp').
  destruct (track_routed c h Hg Hh Hti) as [Hhk _]. revert Hg'. unfold SubmitCall. rewrite Hr, Hh.
  set (headers := BuildRequestHeaders _ _ _ _ _). clearbody headers. intros Hg'.
  destruct (SubmitUnaryRequest headers _ _ h) as [h' j] eqn:HS.
  destruct (tied_submitted h h' _ _ _ j hs (proj1 Hhk) Hne Hti Hcur HS) as [Hti' Hcur'].
  case_test; (split_and!; [done|exact Hg'| |by exists h']); simpl; by rewrite lookup_alter_ne.
Qed.

(** *** One activation *)

Lemma track_ready n hs cs c : chan_inv n c → on_track (Some hs) cs c → ready c.
Proof.
  intros [_ Hph] (Hr & _). unfold is_ready in Hr. apply bool_decide_eq_true in Hr.
  destruct Hph as [[Hs _]|[[Hs _]|[[? _]|[[Hs|Hs] _]]]]; congruence || done.
Qed.

Lemma observed_track n hs cs c evs c' :
  chan_inv n c → on_track (Some hs) cs c → observed c evs c' → reaches (Some hs) cs evs c'.
Proof.
  intros Hi Ht. pose proof (track_ready n hs cs c Hi Ht) as Hrdy. pose proof Ht as (Hr & Hg & Hk & _).
  intros [fuel k' path request md tmo pc c2 Hk' Hp c1 H|fuel c2 H|fuel x cb h' c2 Hx Hcb Hid c1 H|fuel rd rv c2 Hrd H].
  - assert (ChannelImpl.call pc = k') as Hpc.
    { unfold prepare_call in Hp. case_test_in Hp; [done|]. by injection Hp as <-. }
    assert (Hne : ChannelImpl.call pc ≠ k) by (rewrite Hpc; intros ->; congruence).
    pose proof (demuxed_new_call _ _ _ k' (max_receive_message_size (options_ cfg)) Hk' Hg) as Hd.
    assert (Ht1 : on_track (Some hs) cs c1).
    { destruct Ht as (_ & _ & _ & Hh). split_and!; [done| | |exact Hh].
      - eapply demuxed_fewer; [exact Hd|]. by apply submseteq_cons.
      - subst c1. simpl. by rewrite lookup_insert_ne by congruence. }
    cbn [call_op] in H. unfold HandleNewCall in H.
    change (ChannelImpl.state_ c1) with (ChannelImpl.state_ c) in H. rewrite (ready_state c Hrdy) in H. rewrite Hr.
    eapply FlushOutput_track; [|exact H]. apply SubmitCall_track; [done..|]. rewrite Hpc. exact Hd.
  - right. cbn [call_op] in H. split.
    + right. by destruct (DoShutdown_inv client_new client_new_open _ _ _ _ Hi H).
    + destruct (good_later c c2 (λ G HG, DoShutdown_good G HG fuel c c2 H) cs Hg Hk) as [es Hes]. by exists es.
  - destruct cb; cbn [call_cb] in H; [|by apply OnKeepaliveTimer_track].
    unfold OnConnectTimer in H. eapply TearDown_reaches; [|exact H]. exact Ht.
  - rewrite (ready_watch c Hrdy) in Hrd. injection Hrd as <-. by apply OnSocketReady_track.
Qed.

(** *** The rest of the connection's life *)

Lemma gone_observed n c evs c' : chan_inv n c → gone c → observed c evs c' → evs = [] ∧ gone c'.
Proof.
  intros Hi Hgone. pose proof Hi as [_ Hph]. pose proof (gone_unready c Hgone) as Hu.
  assert (Hrest : at_rest c) by (destruct Hph as [[_ ?]|[[Hs _]|[[[Hs _] _]|[_ ?]]]]; [done|destruct Hgone; congruence..|done]).
  destruct Hrest as [_ _ _ Hti [_ Hwatch]].
  intros [fuel k' path request md tmo pc c2 Hk' Hp c1 H|fuel c2 H|fuel x cb h' c2 Hx Hcb Hid c1 H|fuel rd rv c2 Hrd H].
  - rewrite Hu. split; [done|]. cbn [call_op] in H. unfold HandleNewCall in H.
    change (ChannelImpl.state_ c1) with (ChannelImpl.state_ c) in H.
    destruct Hgone as [Hs|Hs]; rewrite Hs in H; injection H as <-; [by left|by right].
  - split; [done|]. cbn [call_op] in H. right.
    by destruct (DoShutdown_inv client_new client_new_open _ _ _ _ Hi H).
  - by rewrite Hti in Hx.
  - congruence.
Qed.

Lemma trace_gone steps n c evs c' :
  chan_inv n c → n + Z.of_nat steps < 2 ^ 64 → gone c → trace steps c evs c' → evs = [].
Proof.
  intros Hi Hb Hg Htr. revert n Hi Hb Hg.
  induction Htr as [c|steps c c0 evs c1 evs' c2 Ht Ho _ IH]; intros n Hi Hb Hg; [done|].
  assert (Hi0 : chan_inv n c0) by (by eapply chan_inv_tidied).
  assert (Hg0 : gone c0) by (by destruct Ht as (h & -> & _)).
  destruct (gone_observed n c0 evs c1 Hi0 Hg0 Ho) as [-> Hg1]. simpl.
  eapply (IH (n + 1)); [|lia|done]. eapply chan_step_inv; [exact client_new_open|exact Hi|lia|].
  exists c0. split; [done|by eapply observed_activation].
Qed.

(** A stream that is no longer open was closed, and the call with it. *)
Lemma view_closed hs evs :
  view_rest i (Some hs) evs = None → ∃ l code, stream_view i (Some hs) evs = l ++ [HClose code].
Proof.
  revert hs. induction evs as [|e evs IH]; intros hs; [done|].
  destruct e as [[j fl cat| | | |]|[j fl cat| | | |]|j d|j code]; cbn [view_rest stream_view]; try apply IH.
  - case_test; [|apply IH]. intros H. destruct (IH _ H) as (l & code & ->). by eexists (_ :: l), code.
  - intros H. destruct (IH _ H) as (l & code & ->). eexists (_ ++ l), code. by rewrite app_assoc.
  - case_test; [|apply IH]. intros _. by exists [], code.
Qed.

Lemma closed_by_stream hs evs cs :
  view_rest i (Some hs) evs = None → is_closed (run_call (seen (Some hs) evs) cs) = true.
Proof.
  intros H. destruct (view_closed _ _ H) as (l & code & Hv). unfold seen. rewrite Hv, fmap_app, run_call_app.
  set (cs1 := run_call _ cs). change (is_closed (on_call_event (Close code) cs1) = true).
  destruct (is_closed cs1) eqn:Hc; [by rewrite closed_frozen|by apply completing_event].
Qed.

Lemma gone_closed n c cs : chan_inv n c → gone c → store (calls_ c) !! k = Some cs → is_closed cs = true.
Proof.
  intros [Hc Hph] Hg Hk. destruct (core_waiters n c Hc k cs Hk) as [<- [Hd|Hd]]; [done|].
  destruct Hph as [[_ [Ha Hp _ _ _]]|[[Hs _]|[[[Hs _] _]|[_ [Ha Hp _ _ _]]]]]; try (destruct Hg; congruence);
    unfold pending_keys in Hd; rewrite Ha, Hp in Hd; set_solver.
Qed.

(** Through all activations, the call is what the callbacks for its stream make of it,
    up to what a lost connection adds. *)
Lemma trace_track steps n c evs c' hs cs :
  chan_inv n c → n + Z.of_nat steps < 2 ^ 64 → trace steps c evs c' → on_track (Some hs) cs c →
  ∃ es, store (calls_ c') !! k = Some (run_call (seen (Some hs) evs ++ es) cs).
Proof.
  intros Hi Hb Htr. revert n hs cs Hi Hb.
  induction Htr as [c|steps c c0 evs c1 evs' c2 Ht Ho Htr IH]; intros n hs cs Hi Hb Htk.
  { exists []. apply Htk. }
  assert (Hi0 : chan_inv n c0) by (by eapply chan_inv_tidied).
  assert (Htk0 : on_track (Some hs) cs c0) by (by destruct Ht as (h & -> & _)).
  assert (Hi1 : chan_inv (n + 1) c1).
  { eapply chan_step_inv; [exact client_new_open|exact Hi|lia|]. exists c0. split; [done|by eapply observed_activation]. }
  assert (Hfrozen : ∀ cs1, store (calls_ c1) !! k = Some cs1 → is_closed cs1 = true → store (calls_ c2) !! k = Some cs1).
  { intros cs1 Hk1 Hc1. eapply (chan_steps_completed now client_new client_new_open cfg (n + 1) steps c1);
      [done|by eapply trace_steps|lia|done|done]. }
  unfold seen. rewrite view_app, fmap_app. fold (seen (Some hs) evs).
  destruct (observed_track n hs cs c0 evs c1 Hi0 Htk0 Ho) as [Htk1|[Hg1 [es Hes]]].
  - destruct (view_rest i (Some hs) evs) as [hs1|] eqn:Hrest.
    + destruct (IH (n + 1) hs1 _ Hi1 ltac:(lia) Htk1) as [es Hes]. exists es.
      rewrite Hes, <- app_assoc. by rewrite (run_call_app (seen (Some hs) evs)).
    + exists []. rewrite stream_view_None, !app_nil_r. apply Hfrozen; [apply Htk1|by apply closed_by_stream].
  - assert (evs' = []) as -> by (eapply (trace_gone steps (n + 1)); [done|lia|done..]).
    exists es. replace (stream_view i _ []) with (@nil HookCall) by (by destruct (view_rest i (Some hs) evs)).
    rewrite app_nil_r. apply Hfrozen; [done|]. by eapply gone_closed.
Qed.

End Follow.

(** C3: the answer of the server reaches its caller on a shared connection.  From any
    reachable state in which a call is open on its stream and has seen some frames of its
    response, let the loop run any number of handlers that complete, in whatever order:
    sockets ready, timers, calls submitted and answered on other streams, even a lost
    connection or a shutdown afterwards.  When the frames seen before and in these
    handlers, however the network has split them, are a header block, DATA and trailers
    and the close, the call has the result the wire format gives to exactly these frames. *)
Theorem shared_connection_answers (steps n : nat) (s : socket_type) (e : E) (c c' : Chan)
    (h : Http2Session Calls) (k i max : Z) (before : list HookCall) (evs : list Event)
    (hs : HeaderList) (chunks : list bytes) (ts : HeaderList) (ec : Z) :
  nsteps (chan_step now client_new cfg) steps (new_channel s e) c →
  trace n c evs c' → Z.of_nat steps + Z.of_nat n + 1 < 2 ^ 64 →
  h2_ c = Some h → opened_for h i k →
  store (calls_ c) !! k = Some (run_call (to_call <$> before) (OnSubmitted i (new_call max))) →
  before ++ stream_view i (collected h i) evs =
    [HResponse hs false] ++ (HData <$> chunks) ++ [HTrailers ts; HClose ec] →
  0 <= max → fits max → zlen (concat chunks) < 2 ^ size_bits →
  ∃ ms v rest cs' r,
    wire_stream max (concat chunks) ms v rest ∧
    store (calls_ c') !! k = Some cs' ∧ Wait cs' = Some r ∧
    outcome_of r = unary_outcome v ms rest (last_value (bs "grpc-status") ts)
                     (default [] (last_value (bs "grpc-message") ts))
                     (default 0 (atoi <$> last_value (bs ":status") hs))
                     (default [] (last_value (bs "content-type") hs)) ec ∧
    initial_metadata r = filter (is_metadata [bs "content-type"]) hs ∧
    trailing_metadata r = filter (is_metadata status_keys) ts.
Proof.
  intros Hrun Htr Hb Hh Ho Hk Hview Hmax Hfits Hsz.
  destruct (unary_call_run max i hs chunks ts ec) as (ms & v & rest & r & Hw & Hwait & Hout); [done..|].
  set (cs := run_call (unary_events i hs chunks ts ec) (new_call max)) in *.
  set (cs0 := run_call (to_call <$> before) (OnSubmitted i (new_call max))) in *.
  assert (Hcs : run_call (to_call <$> stream_view i (collected h i) evs) cs0 = cs).
  { unfold cs, cs0, unary_events. rewrite <- run_call_app, <- fmap_app, Hview.
    unfold run_call. rewrite !fmap_app, <- list_fmap_compose. done. }
  assert (Hclosed : is_closed cs = true).
  { destruct (run_call_inv (unary_events i hs chunks ts ec) (new_call max)) as [Hinv _]; [done|].
    unfold call_inv in Hinv. fold cs in Hinv. rewrite <- Hinv. unfold Wait in Hwait. by destruct (done_ cs). }
  assert (Hst : store (calls_ c') !! k = Some cs).
  { pose proof (chan_run_inv _ _ client_new_open _ _ _ _ _ Hrun ltac:(lia)) as Hi.
    destruct (is_closed cs0) eqn:Hc0.
    - rewrite <- Hcs, closed_frozen_run by done.
      eapply (chan_steps_completed now client_new client_new_open cfg (Z.of_nat steps + 1) n c);
        [done|by eapply trace_steps|lia|done|done].
    - pose proof (chan_run_demuxed _ _ client_new_open _ _ _ _ _ Hrun) as Hg.
      assert (Ht : tied h k i) by (eapply tied_opened; [by apply (proj1 Hg)|exact Hk|done|done]).
      destruct (chan_run_ready _ _ client_new_open _ _ _ _ _ _ Hrun ltac:(lia) Hh) as [_ Hr].
      destruct Ho as (p & st & Hf & Hhk).
      destruct (trace_track k i n (Z.of_nat steps + 1) c evs c' (pending_headers st) cs0) as [es Hes];
        [done|lia|done| |].
      { split_and!; [by apply ready_is_ready|done|done|]. exists h. split_and!; [done..|].
        unfold collected. by rewrite Hf. }
      unfold collected in Hcs. rewrite Hf in Hcs. unfold seen in Hes.
      by rewrite run_call_app, Hcs, closed_frozen_run in Hes. }
  exists ms, v, rest, cs, r. exact (conj Hw (conj Hst (conj Hwait Hout))).
Qed.

End Trace.

(** ** Two calls on one connection, answered in two wakeups *)

Section TraceWitness.
Import CallState.
Import GrpcMessageScanner.
Import WireStream.
Import ChannelImpl.
Import EventThread.
Import ToyNghttp2.
Import ToySocket.
Import TimerHeap.
Local Existing Instance size_t32.

Abbreviation ExChannel := (Channel (E := Z) (NG := toy_nghttp2) (SO := toy_socket)).

Definition two_half : ExChannel := get (call_rd ex_now two_client ex_cfg 20 RdSocketReady POLLIN two_ready) two_idle.
Definition two_answered : ExChannel := get (call_rd ex_now two_client ex_cfg 20 RdSocketReady POLLIN two_half) two_idle.

Abbreviation two_events := (socket_events ex_now 20 POLLIN).

Lemma watched_ready (c : ExChannel) :
  match watched_on_ready_ (loop_ c) with Some RdSocketReady => true | _ => false end = true →
  watched_on_ready_ (loop_ c) = Some RdSocketReady.
Proof. by destruct (watched_on_ready_ (loop_ c)) as [[]|]. Qed.

(** A wakeup for the socket, on whatever channel. *)
Lemma ready_trace n (c c1 c2 : ExChannel) evs :
  watched_on_ready_ (loop_ c) = Some RdSocketReady →
  call_rd ex_now two_client ex_cfg 20 RdSocketReady POLLIN c = Done c1 →
  trace ex_now two_client ex_cfg n c1 evs c2 →
  trace ex_now two_client ex_cfg (S n) c (two_events c ++ evs) c2.
Proof.
  intros Hw Hr Ht. eapply trace_cons; [apply tidied_refl| |exact Ht].
  exact (observed_ready ex_now two_client ex_cfg c 20 RdSocketReady POLLIN c1 Hw Hr).
Qed.

Lemma two_trace : trace ex_now two_client ex_cfg 2 two_ready (two_events two_ready ++ (two_events two_half ++ [])) two_answered.
Proof.
  refine (ready_trace 1 two_ready two_half two_answered (two_events two_half ++ []) _ _
            (ready_trace 0 two_half two_answered two_answered [] _ _ (trace_nil _ _ _ two_answered))).
  - apply watched_ready. vm_compute. reflexivity.
  - refine (get_done (call_rd ex_now two_client ex_cfg 20 RdSocketReady POLLIN two_ready) two_idle _).
    vm_compute. reflexivity.
  - apply watched_ready. vm_compute. reflexivity.
  - refine (get_done (call_rd ex_now two_client ex_cfg 20 RdSocketReady POLLIN two_half) two_idle _).
    vm_compute. reflexivity.
Qed.

Lemma two_submitted :
  store (calls_ two_ready) !! 2 =
    Some (run_call (to_call <$> []) (OnSubmitted 3 (new_call (max_receive_message_size (options_ ex_cfg))))).
Proof. vm_compute. reflexivity. Qed.

Lemma shared_connection_answers_witness :
  ∃ ms v rest cs r,
    wire_stream (max_receive_message_size (options_ ex_cfg)) (AppendGrpcFramePrefix 1 [] ++ bs "b") ms v rest ∧
    store (calls_ two_answered) !! 2 = Some cs ∧ Wait cs = Some r ∧
    outcome_of r = unary_outcome v ms rest (Some (bs "0")) [] 200 (bs "application/grpc") 0.
Proof.
  destruct two_session as (h & Hh & _ & H3 & _ & Hc3).
  destruct (shared_connection_answers ex_now two_client two_client_open ex_cfg 3 2 _ 0 two_ready two_answered h
              2 3 (max_receive_message_size (options_ ex_cfg)) []
              (two_events two_ready ++ (two_events two_half ++ []))
              [(bs ":status", bs "200"); content_type]
              [AppendGrpcFramePrefix 1 []; bs "b"] [(bs "grpc-status", bs "0")] 0 two_ready_run two_trace)
    as (ms & v & rest & cs & r & Hw & Hk & Hr & Ho & _).
  - reflexivity.
  - exact Hh.
  - exact H3.
  - exact two_submitted.
  - rewrite Hc3. vm_compute. reflexivity.
  - vm_compute. discriminate.
  - vm_compute. reflexivity.
  - vm_compute. reflexivity.
  - exists ms, v, rest, cs, r. split; [exact Hw|]. split; [exact Hk|]. split; [exact Hr|exact Ho].
Defined.

(** Evaluated: nothing before the second wakeup, then the two results, each its own. *)
Example two_results :
  (λ k, (λ cs, outcome_of <$> Wait cs) <$> store (calls_ two_half) !! k) <$> [1; 2] = [Some None; Some None] ∧
  (λ k, (λ cs, outcome_of <$> Wait cs) <$> store (calls_ two_answered) !! k) <$> [1; 2] =
    [Some (Some (kNotFound, [], [])); Some (Some (kOk, [], bs "b"))].
Proof. split; vm_compute; reflexivity. Qed.

End TraceWitness.
