(* ===== verification/System.v ===== *)
(** * The whole channel: callers, loop and handlers together

    The transition system of the event thread ([EventThread.step]) with the channel's
    handlers as its operations and callbacks, and the callers of [UnaryCall] and
    [Shutdown] as its posters.  A handler runs with the fuel [fuel n] when it is the
    [n]-th; a handler that reads freed memory or needs more fuel ends the channel, and
    [chan] is that outcome from then on.  The state of a call is allocated by its caller and first touched
    by its operation, so it enters the store there. *)

From Stdlib Require Import ZArith Lia.
From Stdlib Require Import Strings.String Strings.Byte.
From stdpp Require Import base numbers list gmap relations.
From S2P Require Import Prelude GrpcWire StdHeap TimerHeap Wakeup EventThread Http2Session CallState TlsSocket ChannelImpl Http2Properties ChannelProperties ChannelReturns ChannelKeeps ChannelOutcome TlsProperties ChannelSocket.

Local Open Scope Z_scope.

Module System.
Import CallState.
Import ChannelImpl.
Import EventThread.
Import TimerHeap.

Section System.
Context `{SZ : SizeT} `{SH : !StdHeap EntryLater} `{NG : Nghttp2} `{SO : TlsSocketOps}.
Context {E : Type} (now : E → E * Z) (client_new : E → E * (Z * (Z * ng_session))).
Context (cfg : ChannelConfig) (fuel : Z → nat).

Record World : Type := {
  chan : Res (Channel (E := E));  (* or how the last handler of a lost channel ended *)
  acts : Z;              (* the handlers run so far *)
}.

Abbreviation OW := (Owned Cb Ev Rd * World)%type.

(** Run a handler on the channel with the loop's own members. *)
Definition activate (f : nat → Channel → Res Channel) (ow : OW) : OW :=
  let '(o, w) := ow in
  match chan w with
  | Done c =>
      let r := f (fuel (acts w)) {| c with loop_ := o |} in
      (match r with Done c' => loop_ c' | _ => o end, {| chan := r; acts := acts w + 1 |})
  | r => (o, {| chan := r; acts := acts w + 1 |})
  end.

(** [std::make_shared<CallState>(options_.max_receive_message_size)]. *)
Definition allocate (k : Z) (c : Channel (E := E)) : Channel (E := E) :=
  {| c with calls_ := {| (calls_ c) with store :=
       <[k := new_call (max_receive_message_size (options_ cfg))]> (store (calls_ c)) |} |}.

Definition sys_op (op : Op) : OW → OW :=
  activate (λ n c,
    call_op now cfg n op (match op with OpNewCall pc => allocate (ChannelImpl.call pc) c | OpShutdown => c end)).

Definition sys_cb (cb : Cb) : OW → OW := activate (λ n c, call_cb now n cb c).

Definition sys_rd (rd : Rd) (revents : Z) : OW → OW := activate (λ n c, call_rd now client_new cfg n rd revents c).

Definition sys_ev (ev : Ev) (ow : OW) : Z :=
  match chan ow.2 with Done c => call_ev ev {| c with loop_ := ow.1 |} | _ => 0 end.

Abbreviation State := (Sys Op Cb Ev Rd World).

Definition keys (ops : list Op) : list Z :=
  omap (λ op, match op with OpNewCall pc => Some (ChannelImpl.call pc) | OpShutdown => None end) ops.

(** What the callers post: a call with a name of its own that [UnaryCall] prepared, or
    the operation of [Shutdown]. *)
Definition postable (s : State) (op : Op) : Prop :=
  match op with
  | OpNewCall pc =>
      (ChannelImpl.call pc ∉ keys (posted s)) ∧
      ∃ path request md tmo, prepare_call cfg (ChannelImpl.call pc) path request md tmo = inr pc
  | OpShutdown => True
  end.

(** A step of the event thread or of a caller that keeps to the protocol: [Shutdown]
    stops the loop only after it has waited for its operation. *)
Definition sys_step (s s' : State) : Prop :=
  EventThread.step sys_op sys_cb sys_ev sys_rd s s' ∧
  (posted s' = posted s ∨ ∃ op, posted s' = posted s ++ [op] ∧ postable s op) ∧
  (stop_requested_ (shared s') = true → stop_requested_ (shared s) = true ∨ OpShutdown ∈ executed s).

Definition initial (wakeup_fd : Z) (sock : socket_type) (e : E) : State :=
  init_sys wakeup_fd {| chan := Done (new_channel sock e); acts := 0 |}.

Definition sys_run (wakeup_fd : Z) (sock : socket_type) (e : E) : State → Prop :=
  rtc sys_step (initial wakeup_fd sock e).

End System.

(** ** The invariant *)

Section Invariant.
Context `{SZ : SizeT} `{SH : !StdHeap EntryLater} `{NL : Nghttp2Laws} `{SL : !TlsSocketLaws SO}.
Context {E : Type} (now : E → E * Z) (client_new : E → E * (Z * (Z * ng_session))).
Context (client_new_open : ∀ e, ng_open (client_new e).2.2.2 = ∅).
Context (cfg : ChannelConfig) (fuel : Z → nat).
Abbreviation Chan := (Channel (E := E)).
Implicit Types c : Chan.

(** The calls in the store are exactly [K]. *)
Definition named (K : list Z) (w : Calls) : Prop := dom (store w) = list_to_set (C := gset Z) K.

Lemma named_stable K : handler_stable (upholds (named K)).
Proof.
  apply upholds_handlers. split; unfold named; simpl; [|done]. intros w k e <-. by rewrite dom_alter_L.
Qed.

Lemma chan_inv_good n K c : chan_inv n c → named K (calls_ c) → good (upholds (named K)) c.
Proof. intros [Hc _] Hn. split; [|done]. intros h Hh. by apply (core_hooks n c Hc). Qed.

(** The state the run is followed from, after [n_start] handlers. *)
Context (c_start : Chan) (n_start : Z).
Context (n_start_pos : 0 <= n_start) (c_start_inv : chan_inv (n_start + 1) c_start).

(** The channel has come here by its own steps, one for each handler. *)
Definition reached (n : Z) c : Prop :=
  ∃ c0, nsteps (chan_step now client_new cfg) (Z.to_nat (n - n_start)) c_start c0 ∧ tidied c0 c.

Lemma reached_inv n c : reached n c → n_start <= n → n + 1 < 2 ^ 64 → chan_inv (n + 1) c.
Proof.
  intros (c0 & Hrun & Ht) Hn Hb. apply (chan_inv_tidied _ c0); [done|].
  replace (n + 1) with (n_start + 1 + Z.of_nat (Z.to_nat (n - n_start))) by lia.
  eapply chan_steps_inv; [done..|lia].
Qed.

Lemma tidied_trans c1 c2 c3 : tidied c1 c2 → tidied c2 c3 → tidied c1 c3.
Proof. intros (h & -> & Hc & Hi) (h' & -> & Hc' & Hi'). exists h'. split_and!; [done|by rewrite Hc'|by rewrite Hi']. Qed.

Lemma reached_step n c c' : reached n c → n_start <= n → activation now client_new cfg c c' → reached (n + 1) c'.
Proof.
  intros (c0 & Hrun & Ht) Hn Ha. exists c'. split; [|apply tidied_refl].
  replace (Z.to_nat (n + 1 - n_start)) with (S (Z.to_nat (n - n_start))) by lia.
  eapply nsteps_r; [exact Hrun|]. by exists c.
Qed.

(** A handler, called on a channel come here by its own steps, ended in [r]. *)
Definition handler_ended (r : Res Chan) : Prop :=
  ∃ n c c1 run, n_start <= n ∧ n + 1 < 2 ^ 64 ∧ reached n c ∧
    handler now client_new cfg c c1 run ∧ run (fuel n) = r.

(** What holds between two steps of the loop, when [K] are the calls whose operation has
    run and [shut] says whether [DoShutdown] has. *)
Definition world_inv (K : list Z) (shut : bool) (ow : Owned Cb Ev Rd * World) : Prop :=
  n_start <= acts ow.2 ∧
  (∀ c, chan ow.2 = Done c → acts ow.2 + 1 < 2 ^ 64 →
     reached (acts ow.2) {| c with loop_ := ow.1 |} ∧ named K (calls_ c) ∧
     (shut = true → state_ c = kShutdown)) ∧
  ((∀ c, chan ow.2 ≠ Done c) → acts ow.2 + 1 < 2 ^ 64 → handler_ended (chan ow.2)).

Lemma shutdown_phase n c : chan_inv n c → state_ c = kShutdown → at_rest c.
Proof. intros [_ Hph]. by apply phase_shutdown_rest. Qed.

(** A handler of the channel keeps the invariant. *)
Lemma activate_inv K K' (shut shut' : bool) f (o o' : Owned Cb Ev Rd) w :
  world_inv K shut (o, w) →
  (∀ c, chan_inv (acts w + 1) {| c with loop_ := o |} →
     named K (calls_ c) → (shut = true → state_ c = kShutdown) →
     (∃ c1 run, handler now client_new cfg {| c with loop_ := o |} c1 run ∧
        run (fuel (acts w)) = f (fuel (acts w)) {| c with loop_ := o' |}) ∧
     ∀ c', f (fuel (acts w)) {| c with loop_ := o' |} = Done c' →
       named K' (calls_ c') ∧ (shut' = true → state_ c' = kShutdown)) →
  world_inv K' shut' (activate fuel f (o', w)).
Proof.
  intros (H0 & Hw & Hbad) Hf. unfold activate. simpl in H0, Hw, Hbad. destruct (chan w) as [c| |] eqn:Hc.
  2,3: split_and!; simpl; [lia|done|intros _ ?; apply Hbad; [done|lia]].
  split; simpl; [lia|].
  assert (Hlive : acts w + 1 + 1 < 2 ^ 64 →
    reached (acts w) {| c with loop_ := o |} ∧ named K (calls_ c) ∧ (shut = true → state_ c = kShutdown))
    by (intros; apply Hw; [done|lia]).
  assert (Hrun : acts w + 1 + 1 < 2 ^ 64 → _) by (intros Hb; destruct (Hlive Hb) as (Hi & Hn & Hs);
    exact (Hf c (reached_inv _ _ Hi H0 ltac:(lia)) Hn Hs)).
  split.
  - intros c' Hc' Hb. destruct (Hrun Hb) as ((c1 & run & Hh & Hr) & Hf'). destruct (Hf' c' Hc') as [Hn' Hs'].
    split_and!; [|done|done]. rewrite Hc' in *.
    replace {| c' with loop_ := loop_ c' |} with c' by (by destruct c').
    eapply reached_step; [apply (Hlive Hb)|done|]. by eapply handler_activation.
  - intros _ Hb. destruct (Hrun Hb) as ((c1 & run & Hh & Hr) & _).
    exists (acts w), {| c with loop_ := o |}, c1, run. split_and!; [done|lia|apply (Hlive Hb)|done|done].
Qed.

(** *** The handlers *)

Lemma op_new_inv K shut pc o w path request md tmo :
  world_inv K shut (o, w) → ChannelImpl.call pc ∉ K →
  prepare_call cfg (ChannelImpl.call pc) path request md tmo = inr pc →
  world_inv (K ++ [ChannelImpl.call pc]) shut (sys_op now cfg fuel (OpNewCall pc) (o, w)).
Proof.
  intros Hw Hk Hp. apply (activate_inv K _ shut _ _ o); [done|]. intros c Hi Hn Hs.
  assert (Hfresh : store (calls_ c) !! ChannelImpl.call pc = None).
  { apply not_elem_of_dom. rewrite Hn, elem_of_list_to_set. done. }
  set (c0 := {| c with loop_ := o |}) in *. split; [|intros c' Hop; split].
  - eexists _, _. split; [by eapply (handler_new_call now client_new cfg c0)|done].
  - cbn [call_op] in Hop. eapply (HandleNewCall_good now cfg _ (named_stable _)) in Hop; [apply Hop|].
    split; [apply (core_hooks _ c0 (proj1 Hi))|]. unfold named in *. simpl. rewrite dom_insert_L, Hn.
    rewrite list_to_set_app_L. set_solver.
  - intros Hs'. specialize (Hs Hs'). cbn [call_op] in Hop. unfold HandleNewCall in Hop. simpl in Hop.
    rewrite Hs in Hop. by injection Hop as <-.
Qed.

Lemma op_shutdown_inv K shut o w :
  world_inv K shut (o, w) → world_inv K true (sys_op now cfg fuel OpShutdown (o, w)).
Proof.
  intros Hw. apply (activate_inv K _ shut _ _ o); [done|]. intros c Hi Hn Hs.
  split; [|intros c' Hop; split].
  - eexists _, _. split; [apply handler_shutdown|done].
  - eapply (DoShutdown_good _ (named_stable K)) in Hop; [apply Hop|]. by eapply chan_inv_good.
  - cbn [call_op] in Hop. by destruct (DoShutdown_inv client_new client_new_open _ _ _ _ Hi Hop) as [_ Hst].
Qed.

Lemma cb_inv K shut cb i h (o : Owned Cb Ev Rd) w :
  world_inv K shut (o, w) → callbacks_ (timers_ o) !! i = Some cb →
  callbacks_ h = delete i (callbacks_ (timers_ o)) → next_id_ h = next_id_ (timers_ o) →
  world_inv K shut (sys_cb now fuel cb ({| o with timers_ := h |}, w)).
Proof.
  intros Hw Hcb Hdel Hid. apply (activate_inv K _ shut _ _ o); [done|]. intros c Hi Hn Hs.
  set (c0 := {| c with loop_ := o |}) in *. split; [|intros c' Hr; split].
  - eexists _, _. split; [by eapply (handler_timer now client_new cfg c0)|done].
  - assert (Hg : good (upholds (named K)) {| c with loop_ := {| o with timers_ := h |} |}).
    { split; [apply (core_hooks _ c0 (proj1 Hi))|done]. }
    destruct cb; cbn [call_cb] in Hr.
    + unfold OnConnectTimer in Hr. eapply (TearDown_good _ (named_stable K)) in Hr; [apply Hr|exact Hg].
    + eapply (OnKeepaliveTimer_good now _ (named_stable K)) in Hr; [apply Hr|done].
  - intros Hsh. exfalso. pose proof (shutdown_phase _ c0 Hi (Hs Hsh)) as [_ _ _ Ht _].
    change (callbacks_ (timers_ o)) with (timer_callbacks c0) in Hcb. by rewrite Ht in Hcb.
Qed.

Lemma rd_inv K shut rd revents o w :
  world_inv K shut (o, w) → watched_on_ready_ o = Some rd →
  world_inv K shut (sys_rd now client_new cfg fuel rd revents (o, w)).
Proof.
  intros Hw Hrd. apply (activate_inv K _ shut _ _ o); [done|]. intros c Hi Hn Hs.
  set (c0 := {| c with loop_ := o |}) in *. split; [|intros c' Hop; split].
  - eexists _, _. split; [by apply (handler_ready now client_new cfg c0 rd revents)|done].
  - assert (Hg : good (upholds (named K)) c0) by (by eapply chan_inv_good). destruct rd; cbn [call_rd] in Hop.
    + eapply (OnConnectProgress_good now client_new client_new_open cfg _ (named_stable K)) in Hop; [apply Hop|done].
    + eapply (OnSocketReady_good now _ (named_stable K)) in Hop; [apply Hop|done].
  - intros Hsh. exfalso. pose proof (shutdown_phase _ c0 Hi (Hs Hsh)) as [_ _ _ _ [_ Hno]].
    simpl in Hno. congruence.
Qed.

(** *** The timers *)

Lemma prune_loop_same {C} n (h : TimerHeap C) :
  callbacks_ (prune_loop n h) = callbacks_ h ∧ next_id_ (prune_loop n h) = next_id_ h.
Proof.
  revert h. induction n as [|n IH]; intros h; simpl; [done|]. destruct (heap_ h); [done|].
  destruct (callbacks_ h !! _); [done|]. by destruct (IH (pop_entry h)) as [-> ->].
Qed.

Lemma world_inv_timers K shut (o : Owned Cb Ev Rd) w h h' :
  world_inv K shut ({| o with timers_ := h |}, w) → callbacks_ h' = callbacks_ h → next_id_ h' = next_id_ h →
  world_inv K shut ({| o with timers_ := h' |}, w).
Proof.
  intros (H0 & Hw & Hbad) Hcb Hid. split; [done|]. split; [|done]. intros c Hc Hb. destruct (Hw c Hc Hb) as (Hi & Hn & Hs).
  split_and!; [|done|done]. destruct Hi as (c0 & Hrun & Ht). exists c0. split; [done|].
  eapply tidied_trans; [exact Ht|]. by exists h'.
Qed.

Lemma run_due_inv K shut n t h (o : Owned Cb Ev Rd) w ran h' (o' : Owned Cb Ev Rd) w' ran' :
  world_inv K shut ({| o with timers_ := h |}, w) →
  run_due_loop (exec_timer (sys_cb now fuel)) n t h (o, w) ran = Ran h' (o', w') ran' →
  world_inv K shut ({| o' with timers_ := h' |}, w').
Proof.
  revert h o w ran. induction n as [|n IH]; intros h o w ran Hw; cbn [run_due_loop]; [done|].
  unfold PruneCancelledTop. destruct (prune_loop_same (length (heap_ h)) h) as [Hcb Hid].
  set (h1 := prune_loop (length (heap_ h)) h) in *. clearbody h1.
  apply (world_inv_timers _ _ _ _ _ h1) in Hw; [|done|done].
  destruct (heap_ h1) as [|e l]; [by intros [= <- <- <-]|].
  destruct (t <? deadline e); [by intros [= <- <- <-]|].
  destruct (callbacks_ (pop_entry h1) !! id e) as [cb|] eqn:Hfound; [|done].
  set (h2 := {| (pop_entry h1) with callbacks_ := delete (id e) (callbacks_ (pop_entry h1)) |}).
  unfold exec_timer at 1.
  pose proof (cb_inv K shut cb (id e) h2 {| o with timers_ := h1 |} w Hw Hfound eq_refl eq_refl) as Hcbi.
  change {| {| o with timers_ := h1 |} with timers_ := h2 |} with {| o with timers_ := h2 |} in Hcbi.
  destruct (sys_cb now fuel cb ({| o with timers_ := h2 |}, w)) as [o2 w2].
  apply IH. by replace {| o2 with timers_ := timers_ o2 |} with o2 by (by destruct o2).
Qed.

Lemma run_timers_inv K shut n t o w o' w' :
  world_inv K shut (o, w) → run_timers (sys_cb now fuel) n t o w = Some (o', w') → world_inv K shut (o', w').
Proof.
  intros Hw. unfold run_timers, RunDue.
  destruct (run_due_loop _ _ _ _ _ _) as [h' [o1 w1] ran'| |] eqn:Hr; try done. intros [= <- <-].
  eapply run_due_inv; [|exact Hr]. by replace {| o with timers_ := timers_ o |} with o by (by destruct o).
Qed.

(** *** The system *)

Definition is_shutdown (op : Op) : bool := match op with OpShutdown => true | OpNewCall _ => false end.
Definition has_shutdown (ops : list Op) : bool := existsb is_shutdown ops.

Lemma has_shutdown_elem ops : OpShutdown ∈ ops → has_shutdown ops = true.
Proof. intros H. apply existsb_exists. exists OpShutdown. split; [by apply list_elem_of_In|done]. Qed.

Lemma keys_app l k : keys (l ++ k) = keys l ++ keys k.
Proof. unfold keys. apply omap_app. Qed.

Lemma keys_elem pc ops : OpNewCall pc ∈ ops → ChannelImpl.call pc ∈ keys ops.
Proof. intros H. unfold keys. rewrite list_elem_of_omap. by exists (OpNewCall pc). Qed.

Abbreviation State := (Sys Op Cb Ev Rd (World (E := E))).
Implicit Types s : State.

Record system_inv s : Prop := {
  si_loop : sys_inv s;
  si_world : world_inv (keys (executed s)) (has_shutdown (executed s)) (owned s, world s);
  si_names : NoDup (keys (posted s));
  si_prepared pc : OpNewCall pc ∈ posted s →
    ∃ path request md tmo, prepare_call cfg (ChannelImpl.call pc) path request md tmo = inr pc;
  si_stop : stop_requested_ (shared s) = true → has_shutdown (executed s) = true;
}.

Abbreviation esstep := (EventThread.step (sys_op now cfg fuel) (sys_cb now fuel) sys_ev (sys_rd now client_new cfg fuel)).

Lemma step_sys_inv s s' : esstep s s' → sys_inv s → sys_inv s'.
Proof.
  intros [H|[H|H]]; [by eapply sys_inv_caller|by eapply sys_inv_loop|by eapply sys_inv_fault].
Qed.

(** The steps that run no handler. *)
Lemma quiet_step s s' : caller_step s s' ∨ poll_fault s s' →
  owned s' = owned s ∧ world s' = world s ∧ executed s' = executed s.
Proof.
  intros [H|H]; destruct H; try done.
  - by destruct (Start _ _ _) as [? []].
  - by destruct (Post_locked _ _) as [? []].
  - by destruct (Stop_locked _) as [? ?].
Qed.

Lemma loop_step_world s s' :
  system_inv s → loop_step (sys_op now cfg fuel) (sys_cb now fuel) sys_ev (sys_rd now client_new cfg fuel) s s' →
  world_inv (keys (executed s')) (has_shutdown (executed s')) (owned s', world s').
Proof.
  intros [Hl Hw Hn Hp Hst] Hstep.
  destruct Hstep as [s Hpc|s op ops stopping o w Hpc Hop|s stopping Hpc|s n t1 t2 o w h t Hpc Hrun Hpt
    |s watched t revents Hpc Hwake|s nfds2 wake revents n o w Hpc Hd]; simpl.
  - done.
  - rewrite keys_app. unfold has_shutdown. rewrite existsb_app. simpl. rewrite orb_false_r.
    fold (has_shutdown (executed s)).
    assert (Hpost : posted s = executed s ++ op :: ops ++ ops_ (shared s)).
    { rewrite (sinv_fifo s Hl). unfold in_flight. by rewrite Hpc. }
    destruct op as [pc|]; simpl.
    + destruct (Hp pc) as (path & request & md & tmo & Hprep); [rewrite Hpost; set_solver|].
      rewrite orb_false_r, <- Hop. eapply op_new_inv; [done| |exact Hprep].
      rewrite Hpost, keys_app in Hn. apply NoDup_app in Hn as (_ & Hdis & _). intros Hin.
      apply (Hdis _ Hin). apply keys_elem. left.
    + rewrite app_nil_r, orb_true_r, <- Hop. by eapply op_shutdown_inv.
  - done.
  - eapply run_timers_inv in Hrun; [|done].
    assert (Hh : callbacks_ h = callbacks_ (timers_ o) ∧ next_id_ h = next_id_ (timers_ o)).
    { unfold PollTimeoutMs, NextDeadline, PruneCancelledTop in Hpt.
      destruct (prune_loop_same (length (heap_ (timers_ o))) (timers_ o)) as [H1 H2].
      destruct (heap_ (prune_loop _ _)) as [|e l]; simpl in Hpt; [by injection Hpt as <- <-|].
      destruct (deadline e <=? t2); by injection Hpt as <- <-. }
    destruct Hh as [Hcb Hid]. apply (world_inv_timers _ _ o w (timers_ o) h); [|done|done].
    by replace {| o with timers_ := timers_ o |} with o by (by destruct o).
  - done.
  - unfold dispatch_ready in Hd. destruct (nfds2 && negb (revents =? 0)); [|by injection Hd as <- <-].
    destruct (watched_on_ready_ (owned s)) as [rd|] eqn:Hrd; [|by injection Hd as <- <-].
    rewrite <- Hd. by apply rd_inv.
Qed.

Lemma loop_step_flags s s' :
  loop_step (sys_op now cfg fuel) (sys_cb now fuel) sys_ev (sys_rd now client_new cfg fuel) s s' →
  posted s' = posted s ∧ (has_shutdown (executed s) = true → has_shutdown (executed s') = true).
Proof.
  intros Hstep. destruct Hstep; simpl; try done. split; [done|]. unfold has_shutdown. rewrite existsb_app.
  by intros ->.
Qed.

Lemma system_step_inv s s' : system_inv s → sys_step now client_new cfg fuel s s' → system_inv s'.
Proof.
  intros HI (Hs & Hpost & Hstop). pose proof HI as [Hl Hw Hn Hp Hst].
  assert (Hmono : has_shutdown (executed s) = true → has_shutdown (executed s') = true).
  { destruct Hs as [H|[H|H]]; [|by apply loop_step_flags in H as [_ ?]|];
      (destruct (quiet_step s s') as (_ & _ & ->); [by auto|done]). }
  split.
  - by eapply step_sys_inv.
  - destruct Hs as [H|[H|H]]; [|by eapply loop_step_world|];
      (destruct (quiet_step s s') as (-> & -> & ->); [by auto|done]).
  - destruct Hpost as [->|(op & -> & Hop)]; [done|]. rewrite keys_app. apply NoDup_app. split; [done|].
    destruct op as [pc|]; simpl; [|split; [set_solver|constructor]]. destruct Hop as [Hop _].
    split; [set_solver|]. apply NoDup_singleton.
  - destruct Hpost as [->|(op & -> & Hop)]; [done|]. intros pc [Hin|Hin]%elem_of_app; [by apply Hp|].
    apply list_elem_of_singleton in Hin as <-. by destruct Hop.
  - intros H. destruct (Hstop H) as [?|?]; apply Hmono; [by apply Hst|by apply has_shutdown_elem].
Qed.

Lemma system_run_inv s s' : rtc (sys_step now client_new cfg fuel) s s' → system_inv s → system_inv s'.
Proof. induction 1 as [|s1 s2 s3 Hs _ IH]; [done|]. intros HI. apply IH. by eapply system_step_inv. Qed.

(** What the invariant says of a call whose operation has run. *)
Lemma executed_call s c k :
  system_inv s → chan (world s) = Done c → acts (world s) + 1 < 2 ^ 64 → k ∈ keys (executed s) →
  ∃ cs, store (calls_ c) !! k = Some cs ∧
    (is_Some (Wait cs) ∨ (state_ c = kConnecting ∧ k ∈ pending_keys c) ∨
     (state_ c = kReady ∧ k ∈ active_calls_ (calls_ c))).
Proof.
  intros HI Hc Hb Hk. destruct (si_world s HI) as (Hge & Hw & _). destruct (Hw c Hc Hb) as (Hr & Hn & _).
  apply reached_inv in Hr as [Hcore Hph]; [|done..].
  assert (is_Some (store (calls_ c) !! k)) as [cs Hcs].
  { apply elem_of_dom. rewrite Hn. by apply elem_of_list_to_set. }
  exists cs. split; [done|]. destruct (core_waiters _ _ Hcore k cs Hcs) as [_ [Hd|Hd]]; [left; unfold Wait; by rewrite Hd|].
  destruct Hph as [[Hs [Ha Hp _ _ _]]|[[Hs Ha _ _ _]|[[[Hs _ _ _] Hp]|[Hs [Ha Hp _ _ _]]]]];
    simpl in *; unfold pending_keys in *; simpl in *; rewrite ?Ha, ?Hp in Hd; set_solver.
Qed.

(** The loop only exits after [DoShutdown]. *)
Lemma exited_shutdown s c :
  system_inv s → chan (world s) = Done c → acts (world s) + 1 < 2 ^ 64 → pc s = Exited → state_ c = kShutdown.
Proof.
  intros HI Hc Hb Hpc. destruct (sinv_leaving s (si_loop s HI)) as [Hstop _]; [by rewrite Hpc|].
  destruct (si_world s HI) as (_ & Hw & _). apply (Hw c Hc Hb), (si_stop s HI), Hstop.
Qed.

Lemma exited_executed s op : system_inv s → pc s = Exited → op ∈ posted s → op ∈ executed s.
Proof.
  intros HI Hpc Hin. pose proof (si_loop s HI) as Hl. destruct (sinv_leaving s Hl) as [_ Hops]; [by rewrite Hpc|].
  rewrite (sinv_fifo s Hl), Hops in Hin. unfold in_flight in Hin. rewrite Hpc in Hin. by rewrite !app_nil_r in Hin.
Qed.

End Invariant.

(** ** Properties *)

Section Properties.
Context `{SZ : SizeT} `{SH : !StdHeap EntryLater} `{NL : Nghttp2Laws} `{SL : !TlsSocketLaws SO}.
Context {E : Type} (now : E → E * Z) (client_new : E → E * (Z * (Z * ng_session))).
Context (client_new_open : ∀ e, ng_open (client_new e).2.2.2 = ∅).
Context (cfg : ChannelConfig) (fuel : Z → nat).
Abbreviation State := (Sys Op Cb Ev Rd (World (E := E))).
Implicit Types (s : State) (c : Channel (E := E)).

Lemma initial_inv wakeup_fd sock e :
  system_inv now client_new cfg fuel (new_channel sock e) 0 (initial wakeup_fd sock e).
Proof.
  split.
  - apply sys_inv_init.
  - split; [done|]. split; [|by intros H; destruct (H (new_channel sock e))].
    simpl. intros c [= <-] _. split_and!; [|done|done]. exists (new_channel sock e).
    split; [apply nsteps_O|apply tidied_refl].
  - constructor.
  - simpl. intros pc H. by apply elem_of_nil in H.
  - done.
Qed.

Lemma sys_run_inv wakeup_fd sock e s :
  sys_run now client_new cfg fuel wakeup_fd sock e s → system_inv now client_new cfg fuel (new_channel sock e) 0 s.
Proof.
  intros Hrun. eapply system_run_inv; [done|done|exact (new_channel_inv sock e)|exact Hrun|apply initial_inv].
Qed.


End Properties.
End System.

(** ** Witness *)

Module SystemWitness.
Import System ChannelImpl EventThread TimerHeap ToyNghttp2.
Local Existing Instances size_t32 TlsProperties.ex_platform TlsSocket.tls_socket_ops TlsSocket.tls_socket_laws.

(** The channel over the TLS socket on the platform of [TlsProperties]. *)
#[export] Instance ex_platform_laws : TlsPlatformLaws TlsProperties.ex_platform.
Proof. split. intros d e e' n Hd [= <- <-]. destruct d; [done|]. rewrite zlen_cons. pose proof (zlen_nonneg d). lia. Qed.

Abbreviation ExState := (Sys Op Cb Ev Rd (World (E := Z) (NG := toy_nghttp2) (SO := TlsSocket.tls_socket_ops))).

Definition ex_fuel (n : Z) : nat := 20.
Abbreviation ex_sys_op := (sys_op ex_now ex_cfg ex_fuel).
Abbreviation ex_sys_cb := (sys_cb ex_now ex_fuel).
Abbreviation ex_sys_rd := (sys_rd ex_now ex_client ex_cfg ex_fuel).
Abbreviation ex_sys_step := (sys_step ex_now ex_client ex_cfg ex_fuel).

(** A call is posted and then [DoShutdown]; the loop runs both, is stopped, wakes up and
    leaves. *)
Definition s0 : ExState := initial 5 (fresh_socket (0 : penv)) 0.
Definition s1 : ExState := {| s0 with shared := (Start 5 0 (shared s0)).1; pc := AtTop |}.
Definition post (op : Op) (s : ExState) : ExState :=
  {| s with shared := (Post_locked (shared s) op).1; notifying := S (notifying s); posted := posted s ++ [op] |}.
Definition s3 : ExState := post OpShutdown (post (OpNewCall (ex_pc 1)) s1).
Definition taken (s : ExState) : ExState :=
  {| s with shared := (take_ops (shared s)).1; pc := Running (ops_ (shared s)) (stop_requested_ (shared s)) |}.
Definition ran_op (op : Op) (ops : list Op) (s : ExState) : ExState :=
  let ow := ex_sys_op op (owned s, world s) in
  {| s with owned := ow.1; world := ow.2; pc := Running ops false; executed := executed s ++ [op] |}.
Definition s6 : ExState := ran_op OpShutdown [] (ran_op (OpNewCall (ex_pc 1)) [OpShutdown] (taken s3)).
Definition s7 : ExState :=
  {| s6 with shared := (Stop_locked (shared s6)).1; notifying := S (notifying s6); joins := 1 |}.
Definition s8 : ExState := {| s7 with pc := AtTimers |}.
Definition ex_ow := default (owned s8, world s8) (run_timers ex_sys_cb 5 0 (owned s8) (world s8)).
Definition ex_ht := PollTimeoutMs (timers_ ex_ow.1) 0.
Definition ex_watched : option (Z * Z) := watched_pollfd sys_ev ex_ow.1 ex_ow.2.
Definition s9 : ExState :=
  {| s8 with owned := {| (ex_ow.1) with timers_ := ex_ht.1 |}; world := ex_ow.2; pc := Polling ex_watched ex_ht.2 |}.
Definition s10 : ExState := {| s9 with notifying := 2; wakeup_ := Wakeup.Notify 0 (wakeup_ s9) |}.
Definition s11 : ExState :=
  {| s10 with pc := Polled (bool_decide (is_Some ex_watched)) (Wakeup.readable (wakeup_ s10)) 0 |}.
Definition s12 : ExState :=
  {| s11 with pc := AtTop;
              wakeup_ := if Wakeup.readable (wakeup_ s10) then Wakeup.Drain 0 (wakeup_ s11) else wakeup_ s11 |}.
Definition s14 : ExState := {| (taken s12) with pc := Exited |}.

Abbreviation ex_run := (sys_run ex_now ex_client ex_cfg ex_fuel 5 (fresh_socket (0 : penv)) 0).

Lemma ex_loop_step a s s' :
  loop_step ex_sys_op ex_sys_cb sys_ev ex_sys_rd s s' → posted s' = posted s →
  stop_requested_ (shared s') = stop_requested_ (shared s) → rtc ex_sys_step a s → rtc ex_sys_step a s'.
Proof.
  intros Hs Hp Hq Hr. eapply rtc_r; [exact Hr|]. split; [by right; left|]. split; [by left|]. rewrite Hq. by left.
Qed.

Lemma ex_caller_step a s s' :
  caller_step s s' → (posted s' = posted s ∨ ∃ op, posted s' = posted s ++ [op] ∧ postable ex_cfg s op) →
  (stop_requested_ (shared s') = true → stop_requested_ (shared s) = true ∨ OpShutdown ∈ executed s) →
  rtc ex_sys_step a s → rtc ex_sys_step a s'.
Proof. intros Hs Hp Hq Hr. eapply rtc_r; [exact Hr|]. split; [by left|done]. Qed.

Lemma ex_run3 : ex_run s3.
Proof.
  apply (ex_caller_step _ (post (OpNewCall (ex_pc 1)) s1)).
  - exact (step_post (post (OpNewCall (ex_pc 1)) s1) OpShutdown).
  - right. by exists OpShutdown.
  - done.
  - apply (ex_caller_step _ s1).
    + exact (step_post s1 (OpNewCall (ex_pc 1))).
    + right. exists (OpNewCall (ex_pc 1)). split; [done|]. split; [apply not_elem_of_nil|].
      exists (bs "/S/M"), (bs "x"), [], None. reflexivity.
    + done.
    + apply (ex_caller_step _ s0); [exact (step_start s0 0)|by left|done|apply rtc_refl].
Qed.

Lemma ex_run6 : ex_run s6.
Proof.
  eapply ex_loop_step; [eapply step_run; [reflexivity|apply surjective_pairing]|reflexivity|reflexivity|].
  eapply ex_loop_step; [eapply step_run; [reflexivity|apply surjective_pairing]|reflexivity|reflexivity|].
  eapply (ex_loop_step _ s3); [by apply step_take|reflexivity|reflexivity|]. exact ex_run3.
Qed.

(** The rest of the run, from the state in which both operations have run. *)
Lemma ex_run8 : rtc ex_sys_step s6 s8.
Proof.
  apply (ex_loop_step _ s7); [by apply (step_ran _ _ _ _ s7 false)|reflexivity|reflexivity|].
  apply (ex_caller_step _ s6); [exact (step_stop s6)|by left| |apply rtc_refl].
  intros _. right. right. left.
Qed.

Lemma ex_timers_end : run_timers ex_sys_cb 5 0 (owned s8) (world s8) = Some (ex_ow.1, ex_ow.2).
Proof.
  assert (H : match run_timers ex_sys_cb 5 0 (owned s8) (world s8) with Some _ => true | None => false end = true)
    by (vm_compute; reflexivity).
  unfold ex_ow. destruct (run_timers ex_sys_cb 5 0 (owned s8) (world s8)) as [[o w]|]; [reflexivity|discriminate H].
Qed.

Lemma ex_run12 : rtc ex_sys_step s6 s12.
Proof.
  assert (H9 : rtc ex_sys_step s6 s9).
  { apply (ex_loop_step _ s8); [|reflexivity|reflexivity|exact ex_run8].
    exact (step_timers _ _ _ _ s8 5 0 0 ex_ow.1 ex_ow.2 ex_ht.1 ex_ht.2 eq_refl ex_timers_end (surjective_pairing _)). }
  assert (H10 : rtc ex_sys_step s6 s10).
  { apply (ex_caller_step _ s9); [exact (step_notify s9 0 2 eq_refl)|by left|by left|exact H9]. }
  apply (ex_loop_step _ s11); [|reflexivity|reflexivity|].
  - eapply (step_dispatch _ _ _ _ s11); [reflexivity|]. unfold dispatch_ready.
    by rewrite andb_false_r.
  - apply (ex_loop_step _ s10); [|reflexivity|reflexivity|exact H10].
    eapply (step_poll _ _ _ _ s10 ex_watched); [reflexivity|]. left. vm_compute. reflexivity.
Qed.

Lemma ex_run6_14 : rtc ex_sys_step s6 s14.
Proof.
  apply (ex_loop_step _ (taken s12)); [|reflexivity|reflexivity|].
  - apply (step_ran _ _ _ _ (taken s12) true). vm_compute. reflexivity.
  - apply (ex_loop_step _ s12); [by apply step_take|reflexivity|reflexivity|exact ex_run12].
Qed.

Lemma ex_run14 : ex_run s14.
Proof. unfold sys_run. etrans; [exact ex_run6|exact ex_run6_14]. Qed.


End SystemWitness.
