(* ===== verification/SystemRefines.v ===== *)
(** * What the whole system inherits from the channel

    A run of the system of [System.v] (callers, event thread, handlers) whose handlers all
    complete is a run of the channel of [ChannelProperties.v], with one step for each
    handler the loop runs ([follow_to]).  So what holds of the channel's runs holds of the whole system: completed calls never
    change again, and when the loop has exited nothing of the connection is left. *)

From Stdlib Require Import ZArith Lia.
From Stdlib Require Import Strings.String Strings.Byte.
From stdpp Require Import base numbers list gmap relations.
From S2P Require Import Prelude GrpcWire StdHeap TimerHeap Wakeup EventThread Http2Session CallState TlsSocket TlsProperties ChannelImpl Http2Properties ChannelProperties ChannelReturns ChannelSocket ChannelKeeps System.

Local Open Scope Z_scope.

Import CallState.
Import ChannelImpl.
Import EventThread.
Import TimerHeap.
Import System.

(** ** Simulation *)

Section Simulation.
Context `{SZ : SizeT} `{SH : !StdHeap EntryLater} `{NL : Nghttp2Laws} `{SL : !TlsSocketLaws SO}.
Context {E : Type} (now : E → E * Z) (client_new : E → E * (Z * (Z * ng_session))).
Context (client_new_open : ∀ e, ng_open (client_new e).2.2.2 = ∅).
Context (cfg : ChannelConfig) (fuel : Z → nat).
Abbreviation State := (Sys Op Cb Ev Rd (World (E := E))).
Implicit Types (s : State) (c : Channel (E := E)).

(** The channel of a state, with the loop's own members. *)
Definition channel_of s c : Channel := {| c with loop_ := owned s |}.

(** A run can be followed from any of its states on. *)
Lemma follow_from wakeup_fd sock e s c :
  sys_run now client_new cfg fuel wakeup_fd sock e s → chan (world s) = Done c →
  ∃ c0, 0 <= acts (world s) ∧ chan_inv (acts (world s) + 1) c0 ∧
    system_inv now client_new cfg fuel c0 (acts (world s)) s ∧
    (acts (world s) + 1 < 2 ^ 64 → c0 = channel_of s c).
Proof.
  intros HI%sys_run_inv Hc; [|done]. pose proof HI as [Hl (Hge & Hw & _) Hn Hp Hs]. cbn [fst snd] in Hge.
  assert (∃ c0, chan_inv (acts (world s) + 1) c0 ∧ (acts (world s) + 1 < 2 ^ 64 → c0 = channel_of s c))
    as (c0 & Hi & Heq).
  { destruct (decide (acts (world s) + 1 < 2 ^ 64)) as [Hb|Hb].
    - exists (channel_of s c). split; [|done]. destruct (Hw c Hc Hb) as (Hr & _).
      apply (reached_inv now client_new client_new_open cfg (new_channel sock e) 0); [|done..].
      exact (new_channel_inv sock e).
    - exists (new_channel sock e). split; [|done]. destruct (new_channel_inv sock e) as [Hcore Hph].
      split; [|done]. apply (core_mono 1); [done|lia]. }
  exists c0. split_and!; [done..| |done]. split; [done| |done..]. split; [cbn [snd]; lia|].
  split; [|intros H; by destruct (H c)]. intros c' Hc' Hb. destruct (Hw c' Hc' Hb) as (_ & ? & ?).
  cbn [fst snd] in *. rewrite Hc in Hc'. injection Hc' as <-. split_and!; [|done..]. rewrite (Heq Hb).
  exists (channel_of s c). split; [|apply tidied_refl]. rewrite Z.sub_diag. apply nsteps_O.
Qed.

Lemma follow_to wakeup_fd sock e s s' c c' :
  sys_run now client_new cfg fuel wakeup_fd sock e s → rtc (sys_step now client_new cfg fuel) s s' →
  chan (world s) = Done c → chan (world s') = Done c' → acts (world s') + 1 < 2 ^ 64 →
  0 <= acts (world s) <= acts (world s') ∧ chan_inv (acts (world s) + 1) (channel_of s c) ∧
  reached now client_new cfg (channel_of s c) (acts (world s)) (acts (world s')) (channel_of s' c').
Proof.
  intros Hrun Hs Hc Hc' Hb. destruct (follow_from _ _ _ _ _ Hrun Hc) as (c0 & H0 & Hi & HI & Heq).
  apply (system_run_inv now client_new client_new_open cfg fuel c0 (acts (world s)) H0 Hi s s' Hs) in HI.
  destruct (si_world _ _ _ _ _ _ _ HI) as (Hge & Hw & _). cbn [fst snd] in *.
  rewrite Heq in * by lia. split; [lia|]. split; [done|].
  by apply (Hw c' Hc' Hb).
Qed.

End Simulation.

(** ** Properties *)

Section Properties.
Context `{SZ : SizeT} `{SH : !StdHeap EntryLater} `{NL : Nghttp2Laws}.
Context {E : Type} (now : E → E * Z) (client_new : E → E * (Z * (Z * ng_session))).
Context (client_new_open : ∀ e, ng_open (client_new e).2.2.2 = ∅).
Context (cfg : ChannelConfig) (fuel : Z → nat).

(** C2: a delivered result is final, over the whole system: once a call has its result,
    no later step of any thread, handler, timer or peer changes anything of the call, so
    its caller may read the result at any time after its wait. *)
Theorem results_are_final `{SL : !TlsSocketLaws SO} (wakeup_fd : Z) (sock : socket_type) (e : E)
    (s s' : Sys Op Cb Ev Rd World) (c c' : Channel (E := E)) (k : Z) (cs : CallState) (r : Result) :
  sys_run now client_new cfg fuel wakeup_fd sock e s → rtc (sys_step now client_new cfg fuel) s s' →
  chan (world s) = Done c → chan (world s') = Done c' → acts (world s') + 1 < 2 ^ 64 →
  store (calls_ c) !! k = Some cs → Wait cs = Some r →
  store (calls_ c') !! k = Some cs.
Proof.
  intros Hrun Hs Hc Hc' Hb Hk Hw.
  destruct (follow_to _ _ client_new_open _ _ _ _ _ _ _ _ _ Hrun Hs Hc Hc' Hb) as (Hge & Hi & c0 & Hsteps & (h & Heq & _)).
  assert (Hcl : is_closed cs = true).
  { destruct (core_waiters _ _ (proj1 Hi) k cs Hk) as [Hinv _]. unfold Wait in Hw. rewrite <- Hinv. by destruct (done_ cs). }
  eapply (chan_steps_completed now client_new client_new_open cfg) in Hsteps; [|exact Hi|lia|exact Hk|done].
  change (calls_ c') with (calls_ (channel_of s' c')). by rewrite Heq.
Qed.

(** C13: nothing is left behind: when the loop has exited, which it only does after
    [Shutdown], every descriptor the channel ever opened is closed, its TLS objects are
    freed, the session is gone, no timer is pending and nothing is watched. *)
Theorem shutdown_releases_everything `{TL : TlsPlatformLaws} (wakeup_fd : Z) (e0 : penv) (e : E)
    (s : Sys Op Cb Ev Rd World) (c : Channel (SO := TlsSocket.tls_socket_ops) (E := E)) :
  sys_run (SO := TlsSocket.tls_socket_ops) now client_new cfg fuel wakeup_fd (fresh_socket e0) e s →
  chan (world s) = Done c → acts (world s) + 1 < 2 ^ 64 → pc s = Exited →
  fds (tls_trace c) = [] ∧ TlsSocket.ssl_ (tls c) = false ∧ TlsSocket.ssl_ctx_ (tls c) = false ∧
  h2_ c = None ∧ active_calls_ (calls_ c) = ∅ ∧ pending_calls_ c = [] ∧
  callbacks_ (timers_ (owned s)) = ∅ ∧ watched_fd_ (owned s) = -1.
Proof.
  intros Hrun Hc Hb Hpc. pose proof (TlsSocket.tls_socket_laws (TL := TL)) as SL.
  assert (Hs : state_ c = kShutdown) by (eapply exited_shutdown; [by eapply sys_run_inv|done..]).
  destruct (follow_to _ _ client_new_open _ _ _ _ _ _ _ _ _ (rtc_refl _ _) Hrun eq_refl Hc Hb) as (Hge & _ & Hr).
  destruct (reached_inv now client_new client_new_open cfg
              (new_channel (SO := TlsSocket.tls_socket_ops) (fresh_socket e0) e) 0
              (new_channel_inv _ e) _ _ Hr) as [_ Hph]; [cbn in *; lia..|].
  destruct (phase_shutdown_rest _ Hph Hs) as [? ? ? ? [? _]].
  destruct Hr as (c0 & Hsteps%chan_run_phase & (h & Heq & _)).
  assert (Hp : sock_phase cfg (channel_of s c)) by (rewrite Heq; exact Hsteps).
  unfold sock_phase in Hp. change (state_ (channel_of s c)) with (state_ c) in Hp. rewrite Hs in Hp.
  destruct Hp as (Hi & Hl & _). destruct (inv_dead _ _ _ Hi Hl) as (_ & ? & ?).
  split_and!; try done. unfold tls_trace. change (sock_ c) with (sock_ (channel_of s c)).
  rewrite (inv_fds cfg _ Hi). unfold tls in Hl. by rewrite Hl.
Qed.

End Properties.

(** ** Witnesses: a call and a shutdown, until the loop has exited *)

Module RefinesWitness.
Import SystemWitness ToyNghttp2.
Local Existing Instances size_t32 TlsProperties.ex_platform TlsSocket.tls_socket_ops TlsSocket.tls_socket_laws.

Definition the_channel (s : ExState) : Channel :=
  match chan (world s) with Done c => c | _ => new_channel (fresh_socket (0 : penv)) 0 end.

Lemma chan_s6 : chan (world s6) = Done (the_channel s6).
Proof.
  assert (H : match chan (world s6) with Done _ => true | _ => false end = true) by (vm_compute; reflexivity).
  unfold the_channel. destruct (chan (world s6)); [reflexivity|discriminate H..].
Qed.

Lemma chan_s14 : chan (world s14) = Done (the_channel s14).
Proof.
  assert (H : match chan (world s14) with Done _ => true | _ => false end = true) by (vm_compute; reflexivity).
  unfold the_channel. destruct (chan (world s14)); [reflexivity|discriminate H..].
Qed.

Lemma few_acts : acts (world s14) + 1 < 2 ^ 64.
Proof. vm_compute. reflexivity. Qed.

Lemma results_are_final_witness :
  ∃ cs r, store (calls_ (the_channel s6)) !! 1 = Some cs ∧ Wait cs = Some r ∧
          store (calls_ (the_channel s14)) !! 1 = Some cs.
Proof.
  assert (H : match store (calls_ (the_channel s6)) !! 1 with
              | Some cs => match Wait cs with Some _ => true | None => false end | None => false end = true)
    by (vm_compute; reflexivity).
  destruct (store (calls_ (the_channel s6)) !! 1) as [cs|] eqn:Hcs; [|discriminate H].
  destruct (Wait cs) as [r|] eqn:Hr; [|discriminate H].
  exists cs, r. split; [reflexivity|]. split; [exact Hr|].
  exact (results_are_final (SO := TlsSocket.tls_socket_ops) ex_now ex_client ex_client_open ex_cfg ex_fuel 5
           (fresh_socket (TP := TlsProperties.ex_platform) 0) 0 s6 s14 (the_channel s6) (the_channel s14) 1 cs r
           ex_run6 ex_run6_14 chan_s6 chan_s14 few_acts Hcs Hr).
Defined.

Lemma shutdown_releases_everything_witness :
  fds (tls_trace (the_channel s14)) = [] ∧ watched_fd_ (owned s14) = -1.
Proof.
  destruct (shutdown_releases_everything (TP := TlsProperties.ex_platform) ex_now ex_client ex_client_open ex_cfg ex_fuel 5
              0 0 s14 (the_channel s14) ex_run14 chan_s14 few_acts eq_refl) as (H1 & _ & _ & _ & _ & _ & _ & H2).
  split; [exact H1|exact H2].
Defined.

End RefinesWitness.
