(* ===== verification/Shim.v ===== *)
(** * The blocking call of the public API

    [include/grpcpp/support/status.h], [status_code_enum.h], [client_context.h],
    [channel.h], [impl/client_unary_call.h], [impl/proto_utils.h] and [src/api/channel.cc].

    A blocking call is cut at the one place where it waits for the event thread: it
    either returns, or names the call it waits for and says how it goes on with the
    call's result.  protobuf's [SerializeToString] and [ParseFromString] are parameters.
    The [string_ref] views of received metadata are modelled by the bytes they view. *)

From Stdlib Require Import ZArith Lia.
From Stdlib Require Import Strings.String Strings.Byte.
From stdpp Require Import base numbers list gmap.
From S2P Require Import Prelude GrpcWire StringRef EventThread Http2Session CallState TlsSocket ChannelImpl.

Local Open Scope Z_scope.

(** ** Status *)

Module Grpc.

Inductive StatusCode : Type :=
  | OK | CANCELLED | UNKNOWN | INVALID_ARGUMENT | DEADLINE_EXCEEDED | NOT_FOUND
  | ALREADY_EXISTS | PERMISSION_DENIED | RESOURCE_EXHAUSTED | FAILED_PRECONDITION
  | ABORTED | OUT_OF_RANGE | UNIMPLEMENTED | INTERNAL | UNAVAILABLE | DATA_LOSS
  | UNAUTHENTICATED | DO_NOT_USE.

#[export] Instance ShimCode_eq_decision : EqDecision StatusCode.
Proof. solve_decision. Defined.

(** The enumerators' values. *)
Definition code_value (c : StatusCode) : Z :=
  match c with
  | OK => 0 | CANCELLED => 1 | UNKNOWN => 2 | INVALID_ARGUMENT => 3
  | DEADLINE_EXCEEDED => 4 | NOT_FOUND => 5 | ALREADY_EXISTS => 6
  | PERMISSION_DENIED => 7 | RESOURCE_EXHAUSTED => 8 | FAILED_PRECONDITION => 9
  | ABORTED => 10 | OUT_OF_RANGE => 11 | UNIMPLEMENTED => 12 | INTERNAL => 13
  | UNAVAILABLE => 14 | DATA_LOSS => 15 | UNAUTHENTICATED => 16 | DO_NOT_USE => -1
  end.

Definition all_codes : list StatusCode :=
  [OK; CANCELLED; UNKNOWN; INVALID_ARGUMENT; DEADLINE_EXCEEDED; NOT_FOUND;
   ALREADY_EXISTS; PERMISSION_DENIED; RESOURCE_EXHAUSTED; FAILED_PRECONDITION;
   ABORTED; OUT_OF_RANGE; UNIMPLEMENTED; INTERNAL; UNAVAILABLE; DATA_LOSS;
   UNAUTHENTICATED; DO_NOT_USE].

(** [static_cast<StatusCode>(n)]: the enumerator with that value. *)
Definition code_cast (n : Z) : option StatusCode :=
  snd <$> list_find (λ c, code_value c = n) all_codes.

Record Status : Type := {
  error_code : StatusCode;
  error_message : bytes;
  error_details : bytes;
}.

(** The constructors. *)
Definition ok_status : Status := {| error_code := OK; error_message := []; error_details := [] |}.
Definition mk_status (c : StatusCode) (m : bytes) : Status :=
  {| error_code := c; error_message := m; error_details := [] |}.

Definition ok (s : Status) : bool := bool_decide (error_code s = OK).

(** ** ClientContext *)

(** [std::multimap<std::string, std::string>], ordered by the bytes of the keys. *)
Abbreviation Metadata := (list (bytes * bytes)).

(** Times of the system clock are nanoseconds since the epoch. *)
Definition time_point_max : Z := 2 ^ 63 - 1.

Record ClientContext : Type := {
  deadline_ : Z;
  wait_for_ready_ : bool;
  send_initial_metadata_ : Metadata;
  recv_initial_metadata_ : Metadata;
  recv_trailing_metadata_ : Metadata;
  recv_initial_view_ : Metadata;
  recv_trailing_view_ : Metadata;
}.

Definition new_context : ClientContext :=
  {| deadline_ := time_point_max; wait_for_ready_ := false; send_initial_metadata_ := [];
     recv_initial_metadata_ := []; recv_trailing_metadata_ := [];
     recv_initial_view_ := []; recv_trailing_view_ := [] |}.

Definition set_deadline (t : Z) (c : ClientContext) : ClientContext := {| c with deadline_ := t |}.

Definition AddMetadata (key value : bytes) (c : ClientContext) : ClientContext :=
  {| c with send_initial_metadata_ := MultiMap.emplace key value (send_initial_metadata_ c) |}.

Definition set_wait_for_ready (b : bool) (c : ClientContext) : ClientContext :=
  {| c with wait_for_ready_ := b |}.

Definition TryCancel (c : ClientContext) : ClientContext := c.

Definition GetServerInitialMetadata (c : ClientContext) : Metadata := recv_initial_view_ c.
Definition GetServerTrailingMetadata (c : ClientContext) : Metadata := recv_trailing_view_ c.

(** ** [src/api/channel.cc] *)

Definition IsBinKey (key : bytes) : bool :=
  (4 <=? zlen key) && bool_decide (drop (Z.to_nat (zlen key - 4)) key = bs "-bin").

(** The value under which a received field is stored. *)
Definition received_value (kv : Header) : bytes :=
  if IsBinKey kv.1 then default kv.2 (Base64Decode kv.2) else kv.2.

(** Storage and views, both cleared first. *)
Definition DepositMetadata (input : HeaderList) : Metadata * Metadata :=
  foldl (λ '(storage, view) kv,
           let value := received_value kv in
           (MultiMap.emplace kv.1 value storage, MultiMap.emplace kv.1 value view))
        ([], []) input.

(** What a caller reaches of a [ChannelImpl]; [failure] is read only when no loop runs. *)
Record Impl : Type := {
  impl_cfg : ChannelConfig;
  impl_loop_ok : bool;
  impl_failure : bytes;
}.

Record Channel : Type := {
  impl_ : option Impl;
  lame_status_ : Status;
}.

Definition FromImpl (i : Impl) : Channel := {| impl_ := Some i; lame_status_ := ok_status |}.
Definition Lame (s : Status) : Channel := {| impl_ := None; lame_status_ := s |}.

(** A function that may wait for the result of the call [k]. *)
Inductive Blocking (A : Type) : Type :=
  | Returns (a : A)
  | Waits (k : Z) (resume : CallState.Result → A).
Arguments Returns {A} a.
Arguments Waits {A} k resume.

Definition then_ {A B : Type} (b : Blocking A) (f : A → B) : Blocking B :=
  match b with Returns a => Returns (f a) | Waits k g => Waits k (f ∘ g) end.

(** What it returns, if it returns, when the calls are as in [w]. *)
Definition answer {A : Type} (b : Blocking A) (w : ChannelImpl.Calls) : option A :=
  match b with
  | Returns a => Some a
  | Waits k resume => cs ← ChannelImpl.store w !! k; resume <$> CallState.Wait cs
  end.

(** The timeout of a call started at [now]: [None] when the deadline has passed. *)
Definition call_timeout (now : Z) (context : ClientContext) : option (option Z) :=
  if bool_decide (deadline_ context = time_point_max) then Some None
  else if deadline_ context <=? now then None
  else Some (Some (deadline_ context - now)).

(** From the result of [UnaryCall] on: the status, the context and [*response]. *)
Definition finish_call (context : ClientContext) (response : bytes) (result : CallState.Result)
    : Status * ClientContext * bytes :=
  let '(initial, initial_view) := DepositMetadata (CallState.initial_metadata result) in
  let '(trailing, trailing_view) := DepositMetadata (CallState.trailing_metadata result) in
  let context :=
    {| context with
       recv_initial_metadata_ := initial; recv_initial_view_ := initial_view;
       recv_trailing_metadata_ := trailing; recv_trailing_view_ := trailing_view |} in
  if bool_decide (CallState.code result = kOk)
  then (ok_status, context, CallState.response result)
  else
    let details := default [] (MultiMap.mfind (bs "grpc-status-details-bin") trailing) in
    ({| error_code := default DO_NOT_USE (code_cast (status_value (CallState.code result)));
        error_message := CallState.message result; error_details := details |}, context, response).

(** The call is named [k] in the store; [now] is the system clock. *)
Definition BlockingUnaryCallShim (channel : Channel) (now k : Z) (method : bytes)
    (context : ClientContext) (request response : bytes)
    (sh : EventThread.Shared ChannelImpl.Op) (w : ChannelImpl.Calls)
    : EventThread.Shared ChannelImpl.Op * ChannelImpl.Calls * Blocking (Status * ClientContext * bytes) :=
  match impl_ channel with
  | None => (sh, w, Returns (lame_status_ channel, context, response))
  | Some impl =>
      match call_timeout now context with
      | None => (sh, w, Returns (mk_status DEADLINE_EXCEEDED (bs "Deadline Exceeded"), context, response))
      | Some timeout =>
          let '(sh, w, r) :=
            ChannelImpl.UnaryCall (impl_cfg impl) k method request (send_initial_metadata_ context)
              timeout (impl_loop_ok impl) (impl_failure impl) sh w in
          (sh, w,
           match r with
           | inl result => Returns (finish_call context response result)
           | inr k => Waits k (finish_call context response)
           end)
      end
  end.

(** [channel] is what the [dynamic_cast] to [Channel] gives. *)
Definition BlockingUnaryCallRaw (channel : option Channel) (now k : Z) (method : bytes)
    (context : ClientContext) (request response : bytes)
    (sh : EventThread.Shared ChannelImpl.Op) (w : ChannelImpl.Calls)
    : EventThread.Shared ChannelImpl.Op * ChannelImpl.Calls * Blocking (Status * ClientContext * bytes) :=
  match channel with
  | None =>
      (sh, w, Returns (mk_status INTERNAL (bs "channel was not created by egrpc's grpc::CreateChannel"),
                       context, response))
  | Some channel => BlockingUnaryCallShim channel now k method context request response sh w
  end.

(** ** Typed calls *)

Section Typed.
Context {Req Resp : Type}.
(** [SerializeToString]; [ParseFromString]: what the message becomes, and success. *)
Context (SerializeToString : Req → option bytes) (ParseFromString : bytes → Resp → Resp * bool).

Definition Serialize (msg : Req) : Status * bytes :=
  match SerializeToString msg with
  | None => (mk_status INTERNAL (bs "failed to serialize request message"), [])
  | Some out => (ok_status, out)
  end.

Definition Deserialize (data : bytes) (msg : Resp) : Status * Resp :=
  let '(msg, parsed) := ParseFromString data msg in
  if negb parsed then (mk_status INTERNAL (bs "failed to parse response message"), msg)
  else (ok_status, msg).

(** What follows [BlockingUnaryCallRaw]. *)
Definition finish_typed (result : Resp) (r : Status * ClientContext * bytes) : Status * ClientContext * Resp :=
  let '(s, context, response_bytes) := r in
  if negb (ok s) then (s, context, result)
  else let '(s, result) := Deserialize response_bytes result in (s, context, result).

Definition BlockingUnaryCall (channel : option Channel) (now k : Z) (method : bytes)
    (context : ClientContext) (request : Req) (result : Resp)
    (sh : EventThread.Shared ChannelImpl.Op) (w : ChannelImpl.Calls)
    : EventThread.Shared ChannelImpl.Op * ChannelImpl.Calls * Blocking (Status * ClientContext * Resp) :=
  let '(s, request_bytes) := Serialize request in
  if negb (ok s) then (sh, w, Returns (s, context, result))
  else
    let '(sh, w, r) := BlockingUnaryCallRaw channel now k method context request_bytes [] sh w in
    (sh, w, then_ r (finish_typed result)).

End Typed.
End Grpc.

(** ** Lemmas *)

Section ShimLemmas.
Import Grpc.

Lemma code_cast_value (c : GrpcWire.StatusCode) :
  ∃ c', code_cast (status_value c) = Some c' ∧ code_value c' = status_value c ∧ (c' = OK ↔ c = kOk).
Proof. destruct c; eexists; (split; [reflexivity|]); (split; [reflexivity|]); done. Qed.

(** The wire values of the fields with key [k], in the order received. *)
Definition wire_values (k : bytes) (input : HeaderList) : list bytes :=
  snd <$> filter (λ kv, kv.1 = k) input.

(** What the application is to see of the wire value of a field with key [k]: a [-bin]
    value decoded, or as it is when it does not decode. *)
Definition shown (k wire : bytes) : bytes :=
  if decide (bs "-bin" `suffix_of` k) then default wire (Base64Decode wire) else wire.

Lemma received_value_shown kv : received_value kv = shown kv.1 kv.2.
Proof.
  unfold received_value, shown. change (IsBinKey kv.1) with (CallState.IsBinKey kv.1).
  rewrite IsBinKey_spec. by case_bool_decide; case_decide.
Qed.

Lemma shown_base64 k v text pad :
  bs "-bin" `suffix_of` k → base64_of v text → shown k (text ++ replicate pad "="%byte) = v.
Proof. intros Hk Hv. unfold shown. rewrite decide_True by done. by rewrite (Base64Decode_of v). Qed.

Lemma DepositMetadata_snoc input kv :
  DepositMetadata (input ++ [kv]) =
  let '(storage, view) := DepositMetadata input in
  (MultiMap.emplace kv.1 (received_value kv) storage, MultiMap.emplace kv.1 (received_value kv) view).
Proof. unfold DepositMetadata. rewrite foldl_app. simpl. by destruct (foldl _ _ input). Qed.

Lemma DepositMetadata_spec input :
  let '(storage, view) := DepositMetadata input in
  view = storage ∧ MultiMap.ordered storage ∧ ∀ k, MultiMap.values k storage = shown k <$> wire_values k input.
Proof.
  induction input as [|kv input IH] using rev_ind; [repeat split; constructor|].
  rewrite DepositMetadata_snoc. destruct (DepositMetadata input) as [storage view].
  destruct IH as (-> & Ho & Hv). split_and!; [done|by apply MultiMap.emplace_ordered|].
  intros k. rewrite MultiMap.values_emplace, Hv by done. unfold wire_values. rewrite filter_app, !fmap_app.
  f_equal. rewrite filter_cons, filter_nil. destruct (decide (kv.1 = k)) as [Hk|Hk].
  - rewrite bool_decide_eq_true_2, received_value_shown by done. by rewrite Hk.
  - by rewrite bool_decide_eq_false_2 by (intros ->; done).
Qed.

End ShimLemmas.

(** ** Properties *)

Section ShimProperties.
Import Grpc.

(** C37: what the caller of the public API sees of a result: the status code has the
    number of the call's code, OK exactly for OK; an OK result delivers the response
    and an empty status, any other leaves the response alone and carries the message
    and, as details, the decoded first [grpc-status-details-bin] trailer; and for every
    key the metadata accessors show exactly the received values, in the order received,
    those of a [-bin] key decoded (kept as they are when they do not decode): where the
    field holds the base64 text of [v], padded or not, the application reads [v].  The
    views equal the storage and the send side of the context is untouched. *)
Theorem shim_reports_result (context : ClientContext) (response : bytes) (result : CallState.Result) :
  let '(s, context', response') := finish_call context response result in
  let initial k := wire_values k (CallState.initial_metadata result) in
  let trailing k := wire_values k (CallState.trailing_metadata result) in
  code_value (error_code s) = status_value (CallState.code result) ∧
  (if bool_decide (CallState.code result = kOk)
   then s = ok_status ∧ response' = CallState.response result
   else ok s = false ∧ response' = response ∧ error_message s = CallState.message result ∧
        error_details s =
          match trailing (bs "grpc-status-details-bin") with
          | [] => []
          | wire :: _ => default wire (Base64Decode wire)
          end) ∧
  (∀ k, MultiMap.values k (GetServerInitialMetadata context') = shown k <$> initial k ∧
        MultiMap.values k (GetServerTrailingMetadata context') = shown k <$> trailing k) ∧
  (∀ k i v text pad, bs "-bin" `suffix_of` k → base64_of v text →
     (initial k !! i = Some (text ++ replicate pad "="%byte) →
      MultiMap.values k (GetServerInitialMetadata context') !! i = Some v) ∧
     (trailing k !! i = Some (text ++ replicate pad "="%byte) →
      MultiMap.values k (GetServerTrailingMetadata context') !! i = Some v)) ∧
  recv_initial_view_ context' = recv_initial_metadata_ context' ∧
  recv_trailing_view_ context' = recv_trailing_metadata_ context' ∧
  deadline_ context' = deadline_ context ∧ send_initial_metadata_ context' = send_initial_metadata_ context.
Proof.
  unfold finish_call.
  pose proof (DepositMetadata_spec (CallState.initial_metadata result)) as Hi.
  pose proof (DepositMetadata_spec (CallState.trailing_metadata result)) as Ht.
  destruct (DepositMetadata (CallState.initial_metadata result)) as [initial iview].
  destruct (DepositMetadata (CallState.trailing_metadata result)) as [trailing tview].
  destruct Hi as (-> & _ & Hi), Ht as (-> & _ & Ht).
  assert (Hbin : ∀ k i v text pad l values, MultiMap.values k values = shown k <$> l →
    bs "-bin" `suffix_of` k → base64_of v text → l !! i = Some (text ++ replicate pad "="%byte) →
    MultiMap.values k values !! i = Some v).
  { intros k i v text pad l values -> Hk Hv Hl. rewrite list_lookup_fmap, Hl. simpl.
    by rewrite (shown_base64 _ v). }
  destruct (code_cast_value (CallState.code result)) as (c & Hc & Hcv & Hok).
  destruct (bool_decide_reflect (CallState.code result = kOk)) as [Hk|Hk].
  - rewrite Hk. split_and!; try done. intros. split; eapply Hbin; done.
  - rewrite Hc. cbn -[MultiMap.values wire_values]. split_and!; try done.
    + unfold ok. simpl. apply bool_decide_eq_false_2. by rewrite Hok.
    + rewrite MultiMap.mfind_values, Ht. by destruct (wire_values _ _).
    + intros. split; eapply Hbin; done.
Qed.

Section TypedProperties.
Context {Req Resp : Type}.
Context (SerializeToString : Req → option bytes) (ParseFromString : bytes → Resp → Resp * bool).

(** A channel without transport has a status that is not OK, as those [CreateCustomChannel]
    makes have. *)
Definition usable (channel : Channel) : Prop := impl_ channel = None → ok (lame_status_ channel) = false.

(** The time left that a queued call carries. *)
Definition timeout_left (now : Z) (context : ClientContext) (timeout : option Z) : Prop :=
  match timeout with
  | None => deadline_ context = time_point_max
  | Some d => d = deadline_ context - now ∧ 0 < d
  end.

(** The queue gained exactly the operation that carries the call [k]. *)
Definition queued_call (cfg : ChannelConfig) (now k : Z) (method : bytes) (context : ClientContext)
    (request : bytes) (sh sh' : EventThread.Shared ChannelImpl.Op) (w' : ChannelImpl.Calls) : Prop :=
  ∃ pc, EventThread.ops_ sh' = EventThread.ops_ sh ++ [ChannelImpl.OpNewCall pc] ∧
    ChannelImpl.call pc = k ∧ ChannelImpl.method_path pc = method ∧
    ChannelImpl.framed_body pc = AppendGrpcFramePrefix (zlen request) [] ++ request ∧
    ChannelImpl.metadata pc = send_initial_metadata_ context ∧
    timeout_left now context (ChannelImpl.timeout pc) ∧
    ChannelImpl.store w' !! k = Some (CallState.new_call (max_receive_message_size (options_ cfg))).

(** Why a call is refused on the caller's thread, in the order of the checks. *)
Definition refusal (channel : option Channel) (now : Z) (context : ClientContext) (request : Req)
    (stopped : bool) : option StatusCode :=
  match SerializeToString request, channel with
  | None, _ | _, None => Some INTERNAL
  | Some rq, Some ch =>
      match impl_ ch with
      | None => Some (error_code (lame_status_ ch))
      | Some impl =>
          if bool_decide (deadline_ context ≠ time_point_max) && (deadline_ context <=? now)
          then Some DEADLINE_EXCEEDED
          else if max_send_message_size (options_ (impl_cfg impl)) <? zlen rq then Some RESOURCE_EXHAUSTED
          else if impl_loop_ok impl && negb stopped then None else Some UNAVAILABLE
      end
  end.

Lemma call_timeout_left now context timeout :
  call_timeout now context = Some timeout → timeout_left now context timeout.
Proof.
  unfold call_timeout. destruct (bool_decide_reflect (deadline_ context = time_point_max)); [by intros [= <-]|].
  destruct (Z.leb_spec (deadline_ context) now); [done|]. intros [= <-]. simpl. lia.
Qed.

Lemma call_timeout_expired now context :
  call_timeout now context = None ↔
  bool_decide (deadline_ context ≠ time_point_max) && (deadline_ context <=? now) = true.
Proof.
  unfold call_timeout. rewrite andb_true_iff, bool_decide_eq_true, Z.leb_le.
  destruct (bool_decide_reflect (deadline_ context = time_point_max)); [naive_solver|].
  destruct (Z.leb_spec (deadline_ context) now); naive_solver lia.
Qed.

(** What [UnaryCall] leaves, by its three ways to end. *)
Lemma UnaryCall_cases cfg k path request md tmo loop_ok failure sh w :
  let '(sh', w', r) := ChannelImpl.UnaryCall cfg k path request md tmo loop_ok failure sh w in
  if max_send_message_size (options_ cfg) <? zlen request
  then sh' = sh ∧ w' = w ∧ ∃ res, r = inl res ∧ CallState.code res = kResourceExhausted
  else r = inr k ∧
    if loop_ok && negb (EventThread.stop_requested_ sh)
    then ChannelImpl.store w' !! k = Some (CallState.new_call (max_receive_message_size (options_ cfg))) ∧
         ∃ pc, EventThread.ops_ sh' = EventThread.ops_ sh ++ [ChannelImpl.OpNewCall pc] ∧
           ChannelImpl.call pc = k ∧ ChannelImpl.method_path pc = path ∧
           ChannelImpl.framed_body pc = AppendGrpcFramePrefix (zlen request) [] ++ request ∧
           ChannelImpl.metadata pc = md ∧ ChannelImpl.timeout pc = tmo
    else sh' = sh ∧ ∃ cs res, ChannelImpl.store w' !! k = Some cs ∧ CallState.Wait cs = Some res ∧
           CallState.code res = kUnavailable.
Proof.
  unfold ChannelImpl.UnaryCall, ChannelImpl.prepare_call.
  destruct (max_send_message_size (options_ cfg) <? zlen request); [by eauto|].
  unfold EventThread.Post_locked. destruct loop_ok, (EventThread.stop_requested_ sh); simpl; (split; [done|]);
    rewrite ?lookup_alter_eq, lookup_insert_eq; simpl; (split; [done|]); by do 2 eexists.
Qed.

Lemma finish_call_failed context response result s c r :
  finish_call context response result = (s, c, r) → CallState.code result ≠ kOk →
  r = response ∧ ok s = false ∧ code_value (error_code s) = status_value (CallState.code result) ∧
  error_message s = CallState.message result.
Proof.
  unfold finish_call. destruct (DepositMetadata _), (DepositMetadata _). intros H Hk.
  rewrite bool_decide_eq_false_2 in H by done. injection H as <- <- <-.
  destruct (code_cast_value (CallState.code result)) as (c & -> & Hcv & Hok). split_and!; [done| |done|done].
  unfold ok. simpl. apply bool_decide_eq_false_2. by rewrite Hok.
Qed.

Lemma code_value_inj c c' : code_value c = code_value c' → c = c'.
Proof. by destruct c, c'. Qed.

(** A refused or failed call, seen through the typed wrapper. *)
Lemma finish_typed_failed context result res c :
  CallState.code res ≠ kOk → code_value c = status_value (CallState.code res) →
  ∃ s ctx, finish_typed ParseFromString result (finish_call context [] res) = (s, ctx, result) ∧
           error_code s = c ∧ error_message s = CallState.message res.
Proof.
  intros Hk Hc. destruct (finish_call context [] res) as [[s ctx] r] eqn:Hf.
  destruct (finish_call_failed _ _ _ _ _ _ Hf Hk) as (-> & Hok & Hcv & Hm). exists s, ctx.
  unfold finish_typed. rewrite Hok. split_and!; [done| |done]. apply code_value_inj. congruence.
Qed.

(** C10: a typed blocking call is either refused on the caller's thread or queued exactly
    once.  A request that does not serialize, a foreign channel, a lame channel, a passed
    deadline, an oversized request and a loop that does not take operations are refused
    in this order, each with its status, with nothing queued and the response message
    untouched.  Otherwise the queue gains, last, one operation carrying the serialized
    request behind its frame prefix, the context's metadata and the positive time left,
    and the caller waits for that new call. *)
Theorem typed_call_refused_or_queued (channel : option Channel) (now k : Z) (method : bytes)
    (context : ClientContext) (request : Req) (result : Resp)
    (sh : EventThread.Shared ChannelImpl.Op) (w : ChannelImpl.Calls) :
  (∀ ch, channel = Some ch → usable ch) →
  let '(sh', w', b) :=
    BlockingUnaryCall SerializeToString ParseFromString channel now k method context request result sh w in
  match refusal channel now context request (EventThread.stop_requested_ sh) with
  | Some c =>
      EventThread.ops_ sh' = EventThread.ops_ sh ∧
      ∃ s ctx, answer b w' = Some (s, ctx, result) ∧ error_code s = c ∧ ok s = false
  | None =>
      ∃ rq impl, SerializeToString request = Some rq ∧ impl_ <$> channel = Some (Some impl) ∧
        queued_call (impl_cfg impl) now k method context rq sh sh' w' ∧
        answer b w' = None ∧ ∃ resume, b = Waits k resume
  end.
Proof.
  intros Hus. unfold BlockingUnaryCall, Serialize, refusal.
  destruct (SerializeToString request) as [rq|]; [|simpl; split; [done|]; by do 2 eexists].
  cbn [ok ok_status error_code bool_decide negb]. change (ok ok_status) with true. cbn [negb].
  destruct channel as [ch|]; [|simpl; split; [done|]; by do 2 eexists].
  unfold BlockingUnaryCallRaw, BlockingUnaryCallShim. destruct (impl_ ch) as [impl|] eqn:Hi.
  2: { simpl. rewrite (Hus ch eq_refl Hi). simpl. split; [done|]. do 2 eexists.
       split; [done|]. split; [done|]. by apply Hus. }
  destruct (call_timeout now context) as [timeout|] eqn:Ht.
  2: { apply call_timeout_expired in Ht. rewrite Ht. simpl. split; [done|]. by do 2 eexists. }
  destruct (bool_decide (deadline_ context ≠ time_point_max) && (deadline_ context <=? now)) eqn:Hexp.
  { apply call_timeout_expired in Hexp. congruence. }
  pose proof (UnaryCall_cases (impl_cfg impl) k method rq (send_initial_metadata_ context) timeout
                (impl_loop_ok impl) (impl_failure impl) sh w) as Hu.
  destruct (ChannelImpl.UnaryCall _ _ _ _ _ _ _ _ _ _) as [[sh' w'] r].
  destruct (max_send_message_size (options_ (impl_cfg impl)) <? zlen rq).
  { destruct Hu as (-> & -> & res & -> & Hc). split; [done|].
    destruct (finish_typed_failed context result res RESOURCE_EXHAUSTED) as (s & ctx & Hf & Hs & _);
      [by rewrite Hc..|]. exists s, ctx. simpl. rewrite Hf. split_and!; [done..|]. unfold ok. by rewrite Hs. }
  destruct Hu as [-> Hu]. destruct (impl_loop_ok impl && negb (EventThread.stop_requested_ sh)).
  - destruct Hu as (Hst & pc & ? & ? & ? & ? & ? & Hto). exists rq, impl. split_and!; [done|by simpl; rewrite Hi| | |by eexists].
    + exists pc. split_and!; try done. rewrite Hto. by apply call_timeout_left.
    + simpl. by rewrite Hst.
  - destruct Hu as (-> & cs & res & Hst & Hw & Hc). split; [done|].
    destruct (finish_typed_failed context result res UNAVAILABLE) as (s & ctx & Hf & Hs & _);
      [by rewrite Hc..|]. exists s, ctx. simpl. rewrite Hst. simpl. rewrite Hw. simpl. unfold compose.
    rewrite Hf. split_and!; [done..|]. unfold ok. by rewrite Hs.
Qed.

Lemma refusal_none channel now context request stopped :
  refusal channel now context request stopped = None →
  ∃ rq ch impl timeout, SerializeToString request = Some rq ∧ channel = Some ch ∧ impl_ ch = Some impl ∧
    call_timeout now context = Some timeout ∧
    (max_send_message_size (options_ (impl_cfg impl)) <? zlen rq) = false ∧
    impl_loop_ok impl && negb stopped = true.
Proof.
  unfold refusal. intros H. destruct (SerializeToString request) as [rq|]; [|done].
  destruct channel as [ch|]; [|done]. destruct (impl_ ch) as [impl|] eqn:Hi; [|done].
  destruct (_ && (deadline_ context <=? now)) eqn:He; [done|].
  destruct (call_timeout now context) as [timeout|] eqn:Ht; [|by apply call_timeout_expired in Ht; congruence].
  destruct (max_send_message_size _ <? _) eqn:Hm; [done|]. destruct (_ && negb stopped) eqn:Hl; [|done].
  by exists rq, ch, impl, timeout.
Qed.

Lemma finish_call_ok context response result s c r :
  finish_call context response result = (s, c, r) → CallState.code result = kOk →
  s = ok_status ∧ r = CallState.response result.
Proof.
  unfold finish_call. destruct (DepositMetadata _), (DepositMetadata _). intros H Hk.
  rewrite bool_decide_eq_true_2 in H by done. by injection H as <- <- <-.
Qed.

Section Answer.
Import GrpcMessageScanner WireStream CallState.
Context `{SZ : SizeT}.

(** C9: end to end through the public API, a server's answer reaches the typed caller:
    when a call was queued and the server answers it with the serialized response in one
    frame, cut into DATA chunks anywhere, and a status with a percent-encoded message,
    [BlockingUnaryCall] returns the status with that number; with OK the parsed response
    message and an empty error text, otherwise exactly the server's text and the
    response message untouched. *)
Theorem typed_call_roundtrip (channel : option Channel) (now k : Z) (method : bytes)
    (context : ClientContext) (request : Req) (result resp : Resp)
    (sh : EventThread.Shared ChannelImpl.Op) (w : ChannelImpl.Calls) (impl : Impl)
    (i : Z) (hs : HeaderList) (m : bytes) (chunks : list bytes) (code : GrpcWire.StatusCode)
    (safe : byte → bool) (text : bytes) (ec : Z) :
  let max := max_receive_message_size (options_ (impl_cfg impl)) in
  impl_ <$> channel = Some (Some impl) →
  refusal channel now context request (EventThread.stop_requested_ sh) = None →
  0 <= max → fits max → zlen m < 2 ^ 32 → zlen m <= max →
  concat chunks = grpc_frame m → zlen (concat chunks) < 2 ^ size_bits → safe "%"%byte = false →
  ParseFromString m result = (resp, true) →
  let ts := [(bs "grpc-status", to_string (status_value code)); (bs "grpc-message", percent_encode safe text)] in
  let '(sh', w', b) :=
    BlockingUnaryCall SerializeToString ParseFromString channel now k method context request result sh w in
  ∃ cs, ChannelImpl.store w' !! k = Some cs ∧
  ∀ w'', ChannelImpl.store w'' !! k = Some (run_call (unary_events i hs chunks ts ec) cs) →
  ∃ s ctx, answer b w'' = Some (s, ctx, if bool_decide (code = kOk) then resp else result) ∧
    code_value (error_code s) = status_value code ∧
    error_message s = if bool_decide (code = kOk) then [] else text.
Proof.
  intros max Hch Href Hmax Hf Hm1 Hm2 Hc Hsz Hsafe Hparse ts.
  destruct (refusal_none _ _ _ _ _ Href) as (rq & ch & impl' & timeout & Hs & -> & Hi & Ht & Hsend & Hl).
  cbn [fmap option_fmap option_map] in Hch. rewrite Hi in Hch. injection Hch as ->.
  unfold BlockingUnaryCall, Serialize. rewrite Hs. change (ok ok_status) with true. cbn [negb].
  unfold BlockingUnaryCallRaw, BlockingUnaryCallShim. rewrite Hi, Ht.
  pose proof (UnaryCall_cases (impl_cfg impl) k method rq (send_initial_metadata_ context) timeout
                (impl_loop_ok impl) (impl_failure impl) sh w) as Hu.
  destruct (ChannelImpl.UnaryCall _ _ _ _ _ _ _ _ _ _) as [[sh' w'] r].
  rewrite Hsend, Hl in Hu. destruct Hu as (-> & Hst & _). eexists. split; [exact Hst|]. intros w'' Hw''.
  destruct (server_answer_roundtrip max i hs m chunks code safe text ec) as (res & Hw & Hcode & Hmsg & Hresp);
    [done..|]. unfold answer, then_. rewrite Hw''. cbn [mbind option_bind].
  fold max ts in Hw |- *. rewrite Hw. cbn [fmap option_fmap option_map]. unfold compose.
  destruct (bool_decide_reflect (code = kOk)) as [->|Hk].
  - destruct (finish_call context [] res) as [[s ctx] r] eqn:Hfin.
    destruct (finish_call_ok _ _ _ _ _ _ Hfin Hcode) as [-> ->]. exists ok_status, ctx. split; [|done].
    unfold finish_typed. change (ok ok_status) with true. cbn [negb]. unfold Deserialize.
    rewrite Hresp, Hparse. done.
  - destruct (code_cast_value code) as (c & _ & Hcv & _).
    destruct (finish_typed_failed context result res c) as (s & ctx & Hft & <- & Hem); [congruence..|].
    exists s, ctx. rewrite Hft, Hem. split_and!; [done|congruence|done].
Qed.

End Answer.

End TypedProperties.

End ShimProperties.

(** ** Witnesses *)

Module ShimWitness.
Import Grpc GrpcMessageScanner WireStream CallState.
Local Existing Instance size_t32.

Definition ex_config : ChannelConfig :=
  {| host_ := bs "example.org"; port_ := 443;
     tls_ := {| ca_bundle_path := []; ca_bundle_pem := []; client_cert_path := []; client_key_path := [];
                insecure_skip_verify_for_testing_only := false |};
     options_ := default_channel_options |}.

Definition ex_channel : Channel :=
  FromImpl {| impl_cfg := ex_config; impl_loop_ok := true; impl_failure := [] |}.

Definition ex_shared : EventThread.Shared ChannelImpl.Op :=
  {| EventThread.ops_ := []; EventThread.stop_requested_ := false;
     EventThread.started_ := true; EventThread.joined_ := false |}.

Definition ex_calls : ChannelImpl.Calls := {| ChannelImpl.store := ∅; ChannelImpl.active_calls_ := ∅ |}.

Definition ex_parse (data msg : bytes) : bytes * bool := (data, true).

Lemma typed_call_refused_or_queued_witness :
  let '(sh', w', b) :=
    BlockingUnaryCall Some ex_parse (Some ex_channel) 5 1 (bs "/S/M") (set_deadline 4 new_context)
      (bs "hello") [] ex_shared ex_calls in
  EventThread.ops_ sh' = [] ∧
  ∃ s ctx, answer b w' = Some (s, ctx, []) ∧ error_code s = DEADLINE_EXCEEDED ∧ ok s = false.
Proof.
  apply (typed_call_refused_or_queued Some ex_parse (Some ex_channel) 5 1 (bs "/S/M")
           (set_deadline 4 new_context) (bs "hello") [] ex_shared ex_calls).
  intros ch [= <-]. discriminate.
Defined.

Lemma typed_call_roundtrip_witness :
  let ts := [(bs "grpc-status", to_string (status_value kOk));
             (bs "grpc-message", percent_encode (in_range " " "$") (bs "100% ok"))] in
  let '(sh', w', b) :=
    BlockingUnaryCall Some ex_parse (Some ex_channel) 5 1 (bs "/S/M") (set_deadline 9 new_context)
      (bs "hello") [] ex_shared ex_calls in
  ∃ cs, ChannelImpl.store w' !! 1 = Some cs ∧
  ∀ w'', ChannelImpl.store w'' !! 1 = Some (run_call (unary_events 1 sample_headers sample_chunks_hi ts 0) cs) →
  ∃ s ctx, answer b w'' = Some (s, ctx, bs "hi") ∧ code_value (error_code s) = 0 ∧ error_message s = [].
Proof.
  apply (typed_call_roundtrip Some ex_parse (Some ex_channel) 5 1 (bs "/S/M")
           (set_deadline 9 new_context) (bs "hello") [] (bs "hi") ex_shared ex_calls
           {| impl_cfg := ex_config; impl_loop_ok := true; impl_failure := [] |}
           1 sample_headers (bs "hi") sample_chunks_hi kOk (in_range " " "$") (bs "100% ok") 0);
    try (vm_compute; reflexivity); vm_compute; discriminate.
Defined.

End ShimWitness.
