(* ===== verification/CreateChannel.v ===== *)
(** * Creating channels

    [src/api/create_channel.cc], [include/grpcpp/security/credentials.h] and
    [include/grpcpp/support/channel_arguments.h].

    [CreateCustomChannel] gives the status of a lame channel or the arguments of the
    [ChannelImpl] constructor.  An [int] argument is a [Z] in its range. *)

From Stdlib Require Import ZArith Lia.
From Stdlib Require Import Strings.String Strings.Byte.
From stdpp Require Import base numbers list gmap relations.
From S2P Require Import Prelude GrpcWire StringRef StdHeap TimerHeap EventThread Http2Session CallState TlsSocket TlsProperties ChannelImpl Http2Properties ChannelProperties ChannelSocket Shim.

Local Open Scope Z_scope.

#[export] Instance byte_countable : Countable byte := inj_countable Byte.to_N Byte.of_N Byte.of_to_N.

(** ** [std::string] *)

(** [s.find(pattern)], [None] for [npos]. *)
Fixpoint find_from (i : Z) (pattern s : bytes) : option Z :=
  if starts_with pattern s then Some i
  else match s with [] => None | _ :: s => find_from (i + 1) pattern s end.

Definition string_find (pattern s : bytes) : option Z := find_from 0 pattern s.

(** [s.rfind(c)]. *)
Fixpoint string_rfind (c : byte) (s : bytes) : option Z :=
  match s with
  | [] => None
  | b :: s =>
      match string_rfind c s with
      | Some i => Some (1 + i)
      | None => if bool_decide (b = c) then Some 0 else None
      end
  end.

(** [s.substr(pos)] for [pos <= s.size()]. *)
Definition substr_from (pos : Z) (s : bytes) : bytes := drop (Z.to_nat pos) s.

(** ** Targets *)

Definition kDnsPrefix : bytes := bs "dns:///".

(** The part of a target behind its scheme; [None] for an unsupported scheme. *)
Definition strip_scheme (target : bytes) : option bytes :=
  if starts_with kDnsPrefix target then Some (substr_from (zlen kDnsPrefix) target)
  else if bool_decide (is_Some (string_find (bs "://") target)) || starts_with (bs "unix:") target then None
  else Some target.

(** Host and port text of a non-empty address. *)
Definition split_address (rest : bytes) : option (bytes * bytes) :=
  if bool_decide (znth 0 rest = "["%byte)
  then
    match string_find (bs "]") rest with
    | None => None
    | Some close =>
        let host := zsubstr 1 (close - 1) rest in
        if close + 1 <? zlen rest
        then if negb (bool_decide (znth (close + 1) rest = ":"%byte)) then None
             else Some (host, substr_from (close + 2) rest)
        else Some (host, [])
    end
  else
    match string_rfind ":"%byte rest with
    | None => Some (rest, [])
    | Some colon =>
        if negb (bool_decide (string_find (bs ":") rest = Some colon)) then None
        else Some (zsubstr 0 colon rest, substr_from (colon + 1) rest)
    end.

(** The digit loop, on a [uint32_t]. *)
Fixpoint parse_port (value : Z) (port_part : bytes) : option Z :=
  match port_part with
  | [] => Some value
  | c :: port_part =>
      if (b2z c <? b2z "0") || (b2z "9" <? b2z c) then None
      else
        let value := (value * 10 + (b2z c - b2z "0")) mod 2 ^ 32 in
        if 65535 <? value then None else parse_port value port_part
  end.

(** [None] is [false]; otherwise the host and the port written. *)
Definition ParseTarget (target : bytes) : option (bytes * Z) :=
  match strip_scheme target with
  | None => None
  | Some rest =>
      if bool_decide (rest = []) then None
      else
        match split_address rest with
        | None => None
        | Some (host, port_part) =>
            if bool_decide (host = []) then None
            else if bool_decide (port_part = []) then Some (host, 443)
            else
              match parse_port 0 port_part with
              | None => None
              | Some value => if value =? 0 then None else Some (host, value mod 2 ^ 16)
              end
        end
  end.

(** ** Credentials and arguments *)

Record SslCredentialsOptions : Type := {
  pem_root_certs : bytes;
  pem_private_key : bytes;
  pem_cert_chain : bytes;
}.

Record ChannelCredentials : Type := {
  secure_ : bool;
  ssl_options_ : SslCredentialsOptions;
}.

Definition SslCredentials (options : SslCredentialsOptions) : ChannelCredentials :=
  {| secure_ := true; ssl_options_ := options |}.

Definition InsecureChannelCredentials : ChannelCredentials :=
  {| secure_ := false;
     ssl_options_ := {| pem_root_certs := []; pem_private_key := []; pem_cert_chain := [] |} |}.

Record ChannelArguments : Type := {
  ints_ : gmap bytes Z;
  strings_ : gmap bytes bytes;
}.

Definition no_arguments : ChannelArguments := {| ints_ := ∅; strings_ := ∅ |}.

Definition GRPC_ARG_KEEPALIVE_TIME_MS : bytes := bs "grpc.keepalive_time_ms".
Definition GRPC_ARG_KEEPALIVE_TIMEOUT_MS : bytes := bs "grpc.keepalive_timeout_ms".
Definition GRPC_ARG_KEEPALIVE_PERMIT_WITHOUT_CALLS : bytes := bs "grpc.keepalive_permit_without_calls".
Definition GRPC_ARG_MAX_RECEIVE_MESSAGE_LENGTH : bytes := bs "grpc.max_receive_message_length".
Definition GRPC_ARG_MAX_SEND_MESSAGE_LENGTH : bytes := bs "grpc.max_send_message_length".
Definition GRPC_ARG_PRIMARY_USER_AGENT : bytes := bs "grpc.primary_user_agent".

Definition SetInt (key : bytes) (value : Z) (a : ChannelArguments) : ChannelArguments :=
  {| a with ints_ := <[key := value]> (ints_ a) |}.

Definition SetString (key value : bytes) (a : ChannelArguments) : ChannelArguments :=
  {| a with strings_ := <[key := value]> (strings_ a) |}.

Definition SetMaxReceiveMessageSize (size : Z) : ChannelArguments → ChannelArguments :=
  SetInt GRPC_ARG_MAX_RECEIVE_MESSAGE_LENGTH size.

Definition SetMaxSendMessageSize (size : Z) : ChannelArguments → ChannelArguments :=
  SetInt GRPC_ARG_MAX_SEND_MESSAGE_LENGTH size.

Definition SetUserAgentPrefix (user_agent_prefix : bytes) : ChannelArguments → ChannelArguments :=
  SetString GRPC_ARG_PRIMARY_USER_AGENT user_agent_prefix.

(** ** [CreateCustomChannel] *)

(** [if (const int* v = int_arg(key); v && *v > 0)]. *)
Definition positive_arg (key : bytes) (a : ChannelArguments) (otherwise : Z) : Z :=
  match ints_ a !! key with
  | Some v => if 0 <? v then v else otherwise
  | None => otherwise
  end.

Section Create.
Import Grpc.
Context `{SZ : SizeT}.

(** The options built from the honoured arguments. *)
Definition channel_options (a : ChannelArguments) : ChannelOptions :=
  let d := default_channel_options in
  {| http2 :=
       {| max_concurrent_streams := max_concurrent_streams (http2 d);
          initial_window_size := initial_window_size (http2 d);
          keepalive_time := positive_arg GRPC_ARG_KEEPALIVE_TIME_MS a (keepalive_time (http2 d));
          keepalive_timeout := positive_arg GRPC_ARG_KEEPALIVE_TIMEOUT_MS a (keepalive_timeout (http2 d));
          keepalive_permit_without_calls :=
            match ints_ a !! GRPC_ARG_KEEPALIVE_PERMIT_WITHOUT_CALLS with
            | Some v => negb (v =? 0)
            | None => keepalive_permit_without_calls (http2 d)
            end |};
     max_receive_message_size :=
       positive_arg GRPC_ARG_MAX_RECEIVE_MESSAGE_LENGTH a (max_receive_message_size d);
     max_send_message_size :=
       positive_arg GRPC_ARG_MAX_SEND_MESSAGE_LENGTH a (max_send_message_size d);
     connect_timeout := connect_timeout d;
     user_agent_prefix :=
       default (user_agent_prefix d) (strings_ a !! GRPC_ARG_PRIMARY_USER_AGENT) |}.

(** A null [shared_ptr] is [None].  The status of a lame channel, or what the
    [ChannelImpl] is constructed with. *)
Definition CreateCustomChannel (target : bytes) (creds : option ChannelCredentials) (args : ChannelArguments)
    : Status + ChannelConfig :=
  match creds with
  | None => inl (mk_status INVALID_ARGUMENT (bs "null channel credentials"))
  | Some creds =>
      if negb (secure_ creds)
      then inl (mk_status UNIMPLEMENTED
                  (bs "insecure channels are not supported (egrpc v0.1 is TLS-only)"))
      else
        let ssl := ssl_options_ creds in
        if negb (bool_decide (pem_private_key ssl = [])) || negb (bool_decide (pem_cert_chain ssl = []))
        then inl (mk_status UNIMPLEMENTED
                    (bs "in-memory mTLS client identity is not supported yet (egrpc v0.1)"))
        else
          match ParseTarget target with
          | None => inl (mk_status INVALID_ARGUMENT (bs "unsupported channel target: " ++ target))
          | Some (host, port) =>
              inr {| host_ := host; port_ := port;
                     tls_ := {| ca_bundle_path := []; ca_bundle_pem := pem_root_certs ssl;
                                client_cert_path := []; client_key_path := [];
                                insecure_skip_verify_for_testing_only := false |};
                     options_ := channel_options args |}
          end
  end.

Definition CreateChannel (target : bytes) (creds : option ChannelCredentials) : Status + ChannelConfig :=
  CreateCustomChannel target creds no_arguments.

(** The channel a caller gets; [loop_ok] and [failure] are the constructor's. *)
Definition make_channel (r : Status + ChannelConfig) (loop_ok : bool) (failure : bytes) : Channel :=
  match r with
  | inl s => Lame s
  | inr cfg => FromImpl {| impl_cfg := cfg; impl_loop_ok := loop_ok; impl_failure := failure |}
  end.

End Create.

(** ** The grammar of targets *)

(** What follows the host: nothing or a bare colon for the default port, or a decimal
    number that fits, in any number of digits. *)
Inductive port_suffix : bytes → Z → Prop :=
  | port_absent : port_suffix [] 443
  | port_empty : port_suffix (bs ":") 443
  | port_digits ds :
      ds ≠ [] → Forall (λ c, is_digit c = true) ds → 1 <= dec_value ds <= 65535 →
      port_suffix (":"%byte :: ds) (dec_value ds).

Inductive address : bytes → bytes → Z → Prop :=
  | addr_bracketed h suffix p :
      h ≠ [] → "]"%byte ∉ h → port_suffix suffix p →
      address ("["%byte :: h ++ "]"%byte :: suffix) h p
  | addr_plain h suffix p :
      h ≠ [] → ":"%byte ∉ h → head h ≠ Some "["%byte → port_suffix suffix p →
      address (h ++ suffix) h p.

Inductive target : bytes → bytes → Z → Prop :=
  | target_dns rest h p : address rest h p → target (kDnsPrefix ++ rest) h p
  | target_bare t h p :
      ¬ kDnsPrefix `prefix_of` t → ¬ bs "unix:" `prefix_of` t → (∀ a b, t ≠ a ++ bs "://" ++ b) →
      address t h p → target t h p.

(** *** String lemmas *)

Lemma find_from_spec i pattern s :
  match find_from i pattern s with
  | None => ∀ a b, s ≠ a ++ pattern ++ b
  | Some n => ∃ a b, s = a ++ pattern ++ b ∧ n = i + zlen a ∧
                     ∀ a' b', s = a' ++ pattern ++ b' → (length a <= length a')%nat
  end.
Proof.
  revert i. induction s as [|c s IH]; intros i; cbn [find_from].
  - destruct (starts_with pattern []) eqn:Hp.
    + apply starts_with_iff in Hp as [b Hb]. exists [], b. split_and!; [done|rewrite zlen_nil; lia|].
      intros. simpl. lia.
    + intros a b H. symmetry in H. apply app_nil in H as [-> [-> ->]%app_nil]. done.
  - destruct (starts_with pattern (c :: s)) eqn:Hp.
    + apply starts_with_iff in Hp as [b Hb]. exists [], b. split_and!; [done|rewrite zlen_nil; lia|].
      intros. simpl. lia.
    + assert (Hnot : ∀ b, c :: s ≠ pattern ++ b).
      { intros b Hb. assert (pattern `prefix_of` c :: s) as Hpre by (by exists b).
        apply starts_with_iff in Hpre. congruence. }
      specialize (IH (i + 1)). destruct (find_from (i + 1) pattern s) as [n|].
      * destruct IH as (a & b & -> & -> & Hmin). exists (c :: a), b.
        split_and!; [done|rewrite zlen_cons; lia|]. intros [|c' a'] b' H; [by apply Hnot in H|].
        injection H as -> H. apply Hmin in H. simpl. lia.
      * intros [|c' a] b H; [by apply Hnot in H|]. injection H as -> H. by eapply IH.
Qed.

Lemma string_find_char c s :
  match string_find [c] s with
  | None => c ∉ s
  | Some i => ∃ a b, s = a ++ (c :: b) ∧ (c ∉ a) ∧ i = zlen a
  end.
Proof.
  unfold string_find. pose proof (find_from_spec 0 [c] s) as H. destruct (find_from 0 [c] s) as [i|].
  - destruct H as (a & b & -> & -> & Hmin). exists a, b. split_and!; [done| |lia].
    intros (a1 & a2 & ->)%list_elem_of_split. specialize (Hmin a1 (a2 ++ c :: b)).
    rewrite length_app in Hmin. simpl in Hmin. rewrite <- app_assoc in Hmin. specialize (Hmin eq_refl). lia.
  - intros (a & b & ->)%list_elem_of_split. by apply (H a b).
Qed.

Lemma string_rfind_spec c s :
  match string_rfind c s with
  | None => c ∉ s
  | Some i => ∃ a b, s = a ++ (c :: b) ∧ (c ∉ b) ∧ i = zlen a
  end.
Proof.
  induction s as [|d s IH]; cbn [string_rfind]; [set_solver|].
  destruct (string_rfind c s) as [i|].
  - destruct IH as (a & b & -> & Hb & ->). exists (d :: a), b. by rewrite zlen_cons.
  - destruct (bool_decide_reflect (d = c)) as [->|]; [|set_solver]. by exists [], s.
Qed.

(** The two parts around a delimiter that is not in the first. *)
Lemma cut_unique (c : byte) a b a' b' : a ++ c :: b = a' ++ c :: b' → c ∉ a → c ∉ a' → a = a' ∧ b = b'.
Proof.
  revert a'. induction a as [|x a IH]; intros [|y a'] H Ha Ha'; simplify_eq/=; [done|set_solver|set_solver|].
  destruct (IH a') as [-> ->]; set_solver.
Qed.

Lemma cut_unique_r (c : byte) a b a' b' : a ++ c :: b = a' ++ c :: b' → c ∉ b → c ∉ b' → a = a' ∧ b = b'.
Proof.
  intros H Hb Hb'. apply (f_equal reverse) in H. rewrite !reverse_app, !reverse_cons, <- !app_assoc in H.
  apply cut_unique in H as [H1 H2]; [|by rewrite elem_of_reverse..].
  by apply (inj reverse) in H1, H2.
Qed.

Lemma substr_from_app (a b : bytes) n : n = zlen a → substr_from n (a ++ b) = b.
Proof. intros ->. unfold substr_from, zlen. rewrite Nat2Z.id. apply drop_app_length. Qed.

Lemma znth_zlen (a b : bytes) c : znth (zlen a) (a ++ c :: b) = c.
Proof. unfold znth, zlen. rewrite Nat2Z.id. induction a; simpl; auto. Qed.

(** *** [split_address] and [parse_port] *)

Lemma split_bracketed h suffix :
  "]"%byte ∉ h →
  split_address ("["%byte :: h ++ "]"%byte :: suffix) =
  match suffix with [] => Some (h, []) | c :: port => if bool_decide (c = ":"%byte) then Some (h, port) else None end.
Proof.
  intros Hh. unfold split_address. change (znth 0 ("["%byte :: _)) with "["%byte.
  rewrite bool_decide_eq_true_2 by done.
  pose proof (string_find_char "]" ("["%byte :: h ++ "]"%byte :: suffix)) as Hf. change (bs "]") with ["]"%byte].
  destruct (string_find _ _) as [i|]; [|set_solver]. destruct Hf as (a & b & Hs & Ha & ->).
  change ("["%byte :: h ++ "]"%byte :: suffix) with (("["%byte :: h) ++ "]"%byte :: suffix) in Hs |- *.
  destruct (cut_unique "]" ("["%byte :: h) suffix a b Hs) as [<- <-]; [set_solver|done|].
  rewrite zlen_cons. replace (1 + zlen h - 1) with (zlen h) by lia.
  replace (zsubstr 1 (zlen h) _) with h.
  2: { change 1 with (1 + 0). rewrite zsubstr_shift by lia. symmetry. apply zsubstr_0_app. }
  rewrite zlen_app, !zlen_cons. destruct suffix as [|c port].
  { rewrite zlen_nil. destruct (Z.ltb_spec (1 + zlen h + 1) (1 + zlen h + (1 + 0))); [lia|done]. }
  rewrite zlen_cons. pose proof (zlen_nonneg port).
  destruct (Z.ltb_spec (1 + zlen h + 1) (1 + zlen h + (1 + (1 + zlen port)))); [|lia].
  replace (("["%byte :: h) ++ "]"%byte :: c :: port) with (("["%byte :: h ++ bs "]") ++ c :: port)
    by (simpl; by rewrite <- app_assoc).
  replace (1 + zlen h + 1) with (zlen ("["%byte :: h ++ bs "]")) 
    by (rewrite zlen_cons, zlen_app; change (zlen (bs "]")) with 1; lia).
  rewrite znth_zlen. destruct (bool_decide_reflect (c = ":"%byte)) as [->|]; [|done]. simpl. do 2 f_equal.
  change ("["%byte :: (h ++ bs "]") ++ ":"%byte :: port) with (("["%byte :: h ++ bs "]") ++ [":"%byte] ++ port).
  rewrite app_assoc. apply substr_from_app. rewrite !zlen_app, zlen_cons, zlen_app.
  change (zlen (bs "]")) with 1. change (zlen [":"%byte]) with 1. lia.
Qed.

Lemma split_unbracketed rest : znth 0 rest ≠ "["%byte → ":"%byte ∉ rest → split_address rest = Some (rest, []).
Proof.
  intros H0 Hc. unfold split_address. rewrite bool_decide_eq_false_2 by done.
  pose proof (string_rfind_spec ":" rest) as Hr. destruct (string_rfind _ _) as [i|]; [|done].
  destruct Hr as (a & b & -> & _). set_solver.
Qed.

Lemma split_unbracketed_port h port :
  znth 0 (h ++ ":"%byte :: port) ≠ "["%byte → ":"%byte ∉ h →
  split_address (h ++ ":"%byte :: port) = if bool_decide (":"%byte ∈ port) then None else Some (h, port).
Proof.
  intros H0 Hc. unfold split_address. rewrite bool_decide_eq_false_2 by done.
  pose proof (string_rfind_spec ":" (h ++ ":"%byte :: port)) as Hr.
  pose proof (string_find_char ":" (h ++ ":"%byte :: port)) as Hf. change (bs ":") with [":"%byte].
  destruct (string_find _ _) as [i|]; [|set_solver]. destruct Hf as (a & b & Hs & Ha & ->).
  destruct (cut_unique ":" h port a b Hs Hc Ha) as [<- <-].
  destruct (string_rfind _ _) as [j|]; [|set_solver]. destruct Hr as (a' & b' & Hs' & Hb' & ->).
  destruct (bool_decide_reflect (":"%byte ∈ port)) as [Hin|Hnot].
  - rewrite bool_decide_eq_false_2; [done|]. intros [= Hl].
    assert (length h = length a') by (unfold zlen in Hl; lia).
    apply app_inj_1 in Hs' as [_ [= ->]]; done.
  - apply cut_unique_r in Hs' as [<- <-]; [|done..]. rewrite bool_decide_eq_true_2 by done. simpl.
    rewrite zsubstr_0_app. do 2 f_equal. change (h ++ ":"%byte :: port) with (h ++ [":"%byte] ++ port).
    rewrite app_assoc. apply substr_from_app. rewrite zlen_app. done.
Qed.

Lemma dec_value_from_ge a s : 0 <= a → Forall (λ c, is_digit c = true) s → a <= dec_value_from a s.
Proof.
  intros Ha Hs. revert a Ha. unfold dec_value_from. induction Hs as [|c s Hc Hs IH]; intros a Ha; simpl; [lia|].
  apply in_range_spec in Hc. change (b2z "0") with 48 in Hc.
  specialize (IH (a * 10 + (b2z c - 48))). lia.
Qed.

(** The loop accepts exactly the decimal numbers up to 65535, without wrapping. *)
Lemma parse_port_spec v s n :
  0 <= v <= 65535 →
  parse_port v s = Some n ↔ Forall (λ c, is_digit c = true) s ∧ n = dec_value_from v s ∧ n <= 65535.
Proof.
  revert v. induction s as [|c s IH]; intros v Hv; cbn [parse_port].
  { unfold dec_value_from. simpl. split; [intros [= <-]; split_and!; [constructor|lia..]|]. by intros (_ & -> & _). }
  rewrite Forall_cons. change (dec_value_from v (c :: s)) with (dec_value_from (v * 10 + (b2z c - 48)) s).
  change (b2z "0") with 48. change (b2z "9") with 57. pose proof (in_range_spec "0" "9" c) as Hr.
  change (b2z "0") with 48 in Hr. change (b2z "9") with 57 in Hr. fold (is_digit c) in Hr.
  destruct (Z.ltb_spec (b2z c) 48); simpl; [split; [done|]; intros ((Hd & _) & _); apply Hr in Hd; lia|].
  destruct (Z.ltb_spec 57 (b2z c)); [split; [done|]; intros ((Hd & _) & _); apply Hr in Hd; lia|].
  rewrite Z.mod_small by lia.
  assert (Hv' : 0 <= v * 10 + (b2z c - 48)) by lia. set (v' := v * 10 + (b2z c - 48)) in *. clearbody v'.
  destruct (Z.ltb_spec 65535 v') as [Hbig|Hle].
  - split; [done|]. intros ((_ & Hs) & -> & Hn). pose proof (dec_value_from_ge v' s Hv' Hs). lia.
  - rewrite IH by lia. split; [|naive_solver]. intros (? & ? & ?). split_and!; [|done..]. by apply Hr.
Qed.

(** *** The parser and the grammar *)

(** The last part of [ParseTarget], on host and port text. *)
Definition finish_target (r : option (bytes * bytes)) : option (bytes * Z) :=
  match r with
  | None => None
  | Some (host, port_part) =>
      if bool_decide (host = []) then None
      else if bool_decide (port_part = []) then Some (host, 443)
      else match parse_port 0 port_part with
           | None => None
           | Some value => if value =? 0 then None else Some (host, value mod 2 ^ 16)
           end
  end.

Lemma finish_target_Some host port_part h p :
  finish_target (Some (host, port_part)) = Some (h, p) ↔
  h = host ∧ h ≠ [] ∧ ((port_part = [] ∧ p = 443) ∨ (port_part ≠ [] ∧ port_suffix (":"%byte :: port_part) p)).
Proof.
  simpl. destruct (bool_decide_reflect (host = [])) as [->|Hh]; [naive_solver|].
  destruct (bool_decide_reflect (port_part = [])) as [->|Hp]; [naive_solver|].
  pose proof (parse_port_spec 0 port_part) as Hs. change (dec_value_from 0 port_part) with (dec_value port_part) in Hs.
  destruct (parse_port 0 port_part) as [n|].
  - destruct (Hs n ltac:(lia)) as [(Hd & -> & Hn) _]; [done|].
    assert (0 <= dec_value port_part) by (by apply (dec_value_from_ge 0)).
    destruct (Z.eqb_spec (dec_value port_part) 0) as [Hz|Hz].
    + split; [done|]. intros (_ & _ & [[]|[_ Hport]]); [done|]. inversion Hport; subst; [done|lia].
    + rewrite Z.mod_small by lia. split.
      * intros [= <- <-]. split_and!; [done..|]. right. split; [done|]. constructor; [done..|lia].
      * intros (-> & _ & [[]|[_ Hport]]); [done|]. by inversion Hport.
  - split; [done|]. intros (_ & _ & [[]|[_ Hport]]); [done|]. inversion Hport; subst; [done|].
    destruct (Hs (dec_value port_part) ltac:(lia)) as [_ Hsome]. discriminate Hsome. split_and!; [done..|lia].
Qed.

Lemma head_znth (s : bytes) c : s ≠ [] → znth 0 s = c ↔ head s = Some c.
Proof. destruct s; [done|]. intros _. change (znth 0 (b :: s)) with b. naive_solver. Qed.

Lemma address_complete rest h p : address rest h p → rest ≠ [] ∧ finish_target (split_address rest) = Some (h, p).
Proof.
  intros [h' suffix p' Hne Hb Hp|h' suffix p' Hne Hc Hh Hp]; clear h p.
  - split; [done|]. rewrite split_bracketed by done. destruct Hp as [| |ds Hds Hd Hv].
    + apply finish_target_Some. auto.
    + apply finish_target_Some. auto.
    + change (bool_decide (":"%byte = ":"%byte)) with true. cbn iota.
      apply finish_target_Some. split_and!; [done..|]. right. split; [done|by constructor].
  - assert (H0 : znth 0 (h' ++ suffix) ≠ "["%byte).
    { rewrite head_znth; destruct h'; naive_solver. }
    split; [by destruct h'|]. destruct Hp as [| |ds Hds Hd Hv].
    + rewrite app_nil_r in *. rewrite split_unbracketed by done. apply finish_target_Some. auto.
    + change (bs ":") with [":"%byte] in *. rewrite split_unbracketed_port by done.
      apply finish_target_Some. auto.
    + rewrite split_unbracketed_port by done. rewrite bool_decide_eq_false_2.
      * apply finish_target_Some. split_and!; [done..|]. right. split; [done|by constructor].
      * intros Hin. rewrite Forall_forall in Hd. by specialize (Hd _ Hin).
Qed.

Lemma address_sound rest h p : rest ≠ [] → finish_target (split_address rest) = Some (h, p) → address rest h p.
Proof.
  intros Hne H. destruct (decide (znth 0 rest = "["%byte)) as [H0|H0].
  - apply head_znth in H0; [|done]. destruct rest as [|c rest]; [done|]. simplify_eq/=.
    destruct (decide ("]"%byte ∈ rest)) as [Hin|Hnot].
    + pose proof (string_find_char "]" rest) as Hf. destruct (string_find _ rest) as [i|]; [|done].
      destruct Hf as (a & b & -> & Ha & _). rewrite split_bracketed in H by done.
      destruct b as [|c b].
      * apply finish_target_Some in H as (-> & ? & [[_ ->]|[]]); [|done]. constructor; [done..|constructor].
      * destruct (bool_decide_reflect (c = ":"%byte)) as [->|]; [|done].
        apply finish_target_Some in H as (-> & ? & [[-> ->]|[_ ?]]); constructor; try done. constructor.
    + unfold split_address in H. rewrite bool_decide_eq_true_2 in H by done.
      pose proof (string_find_char "]" ("["%byte :: rest)) as Hf. change (bs "]") with ["]"%byte] in H.
      destruct (string_find _ _); [|done]. destruct Hf as (a & b & Hs & _). destruct a; simplify_eq/=. set_solver.
  - assert (Hh : head rest ≠ Some "["%byte) by (by rewrite <- head_znth).
    destruct (decide (":"%byte ∈ rest)) as [Hin|Hnot].
    + pose proof (string_find_char ":" rest) as Hf. destruct (string_find _ rest) as [i|]; [|done].
      destruct Hf as (a & b & -> & Ha & _). rewrite split_unbracketed_port in H by done.
      destruct (bool_decide_reflect (":"%byte ∈ b)); [done|].
      apply finish_target_Some in H as (-> & ? & H). apply addr_plain; [done..|by destruct a|].
      destruct H as [[-> ->]|[_ ?]]; [constructor|done].
    + rewrite split_unbracketed in H by done. apply finish_target_Some in H as (-> & ? & [[_ ->]|[]]); [|done].
      rewrite <- (app_nil_r rest) at 1. apply addr_plain; [done..|constructor].
Qed.

Lemma ParseTarget_finish t :
  ParseTarget t = match strip_scheme t with
                  | None => None
                  | Some rest => if bool_decide (rest = []) then None else finish_target (split_address rest)
                  end.
Proof. done. Qed.

Lemma strip_scheme_Some t rest :
  strip_scheme t = Some rest ↔
  t = kDnsPrefix ++ rest ∨
  (t = rest ∧ ¬ kDnsPrefix `prefix_of` t ∧ ¬ bs "unix:" `prefix_of` t ∧ ∀ a b, t ≠ a ++ bs "://" ++ b).
Proof.
  unfold strip_scheme. destruct (starts_with kDnsPrefix t) eqn:Hd.
  - apply starts_with_iff in Hd as Hp. destruct Hp as [k ->]. rewrite substr_from_app by done. split.
    + intros [= <-]. by left.
    + intros [H|(_ & Hn & _)]; [by apply app_inv_head in H as ->|]. destruct Hn. by exists k.
  - assert (Hn : ¬ kDnsPrefix `prefix_of` t) by (rewrite <- starts_with_iff; congruence).
    pose proof (find_from_spec 0 (bs "://") t) as Hf. fold (string_find (bs "://") t) in Hf.
    destruct (string_find (bs "://") t) as [i|].
    + rewrite bool_decide_eq_true_2 by done. simpl. split; [done|].
      intros [->|(_ & _ & _ & H)]; [destruct Hn; by eexists|]. destruct Hf as (a & b & Hab & _). by apply H in Hab.
    + rewrite bool_decide_eq_false_2 by (by intros []). simpl.
      destruct (starts_with (bs "unix:") t) eqn:Hu.
      * apply starts_with_iff in Hu. split; [done|]. intros [->|(_ & _ & Hu' & _)]; [|done]. destruct Hn. by eexists.
      * split.
        -- intros [= ->]. right. split_and!; [done..| |done]. rewrite <- starts_with_iff. congruence.
        -- intros [->|(-> & _)]; [|done]. destruct Hn. by eexists.
Qed.

Lemma ParseTarget_target t h p : ParseTarget t = Some (h, p) ↔ target t h p.
Proof.
  rewrite ParseTarget_finish. split.
  - destruct (strip_scheme t) as [rest|] eqn:Hs; [|done]. case_bool_decide; [done|].
    intros H1%address_sound; [|done]. apply strip_scheme_Some in Hs as [->|(-> & ? & ? & ?)]; by constructor.
  - intros [rest h' p' Ha|t' h' p' ? ? ? Ha]; destruct (address_complete _ _ _ Ha) as [Hne Hf].
    + rewrite (proj2 (strip_scheme_Some (kDnsPrefix ++ rest) rest)) by (by left). by rewrite bool_decide_eq_false_2.
    + rewrite (proj2 (strip_scheme_Some t' t')) by (by right). by rewrite bool_decide_eq_false_2.
Qed.

(** ** Properties *)

Section CreateProperties.
Import Grpc.

(** C25: [ParseTarget] accepts exactly the grammar of targets and returns the host and the
    port the grammar gives: an optional [dns:///], a bracketed or colon-free host that
    is not empty, and no port, an empty one (both 443) or a decimal number between 1 and
    65535; other schemes, [unix:] paths, unbracketed IPv6 literals and everything else are
    refused, and the 32-bit port arithmetic never wraps. *)
Theorem ParseTarget_grammar (t h : bytes) (p : Z) : ParseTarget t = Some (h, p) ↔ target t h p.
Proof. apply ParseTarget_target. Qed.

Lemma address_host rest h p :
  address rest h p → h ≠ [] ∧ 1 <= p <= 65535 ∧ (":"%byte ∈ h → "]"%byte ∉ h).
Proof. intros [? ? ? ? ? []|? ? ? ? ? ? []]; split_and!; done || lia. Qed.

Lemma target_host t h p : target t h p → h ≠ [] ∧ 1 <= p <= 65535 ∧ (":"%byte ∈ h → "]"%byte ∉ h).
Proof. intros [? ? ? H|? ? ? _ _ _ H]; by eapply address_host. Qed.

Lemma port_suffix_to_string p : 1 <= p <= 65535 → port_suffix (bs ":" ++ to_string p) p.
Proof.
  intros Hp. destruct (to_string_spec p) as (Hne & Hv & Hd & _); [lia|].
  rewrite <- Hv at 2. constructor; [done..|lia].
Qed.

(** The [:authority] of a channel names the target it was created for: for the host
    and port of any accepted target, the authority the channel builds (with the brackets
    an IPv6 literal needs) is, as a [dns:///] target, accepted with the same host and
    port; the one exception is a colon-free host that begins with a bracket. *)
Theorem authority_names_target (t h : bytes) (p : Z) (tls : TlsConfig) (o : ChannelOptions) :
  ParseTarget t = Some (h, p) → (head h = Some "["%byte → ":"%byte ∈ h) →
  ParseTarget (kDnsPrefix ++ authority_ {| host_ := h; port_ := p; tls_ := tls; options_ := o |}) = Some (h, p).
Proof.
  intros Ht Hh. apply ParseTarget_target in Ht as (Hne & Hp & Hb)%target_host.
  apply ParseTarget_target, target_dns. unfold authority_. cbn [host_ port_].
  pose proof (port_suffix_to_string p Hp) as Hs.
  destruct (bool_decide_reflect (":"%byte ∈ h)) as [Hc|Hc].
  - rewrite <- !app_assoc. by apply (addr_bracketed h _ p); [|apply Hb|].
  - apply addr_plain; [done..| |done]. by intros ?%Hh.
Qed.

Section Channels.
Context `{SZ : SizeT}.

(** Values of [int] arguments. *)
Definition int_args (a : ChannelArguments) : Prop := map_Forall (λ _ v, - 2 ^ 31 <= v < 2 ^ 31) (ints_ a).

Lemma positive_arg_range key a d :
  int_args a → 0 < d → 0 < positive_arg key a d ∧ (positive_arg key a d = d ∨ positive_arg key a d < 2 ^ 31).
Proof.
  intros Ha Hd. unfold positive_arg. destruct (ints_ a !! key) as [v|] eqn:Hv; [|by auto].
  apply Ha in Hv. destruct (Z.ltb_spec 0 v); [|by auto]. split; [done|right; lia].
Qed.

Lemma CreateCustomChannel_inr t creds a cfg :
  CreateCustomChannel t creds a = inr cfg →
  ∃ c h p, creds = Some c ∧ secure_ c = true ∧ ParseTarget t = Some (h, p) ∧
    cfg = {| host_ := h; port_ := p;
             tls_ := {| ca_bundle_path := []; ca_bundle_pem := pem_root_certs (ssl_options_ c);
                        client_cert_path := []; client_key_path := [];
                        insecure_skip_verify_for_testing_only := false |};
             options_ := channel_options a |}.
Proof.
  unfold CreateCustomChannel. destruct creds as [c|]; [|done]. destruct (secure_ c) eqn:Hs; [|done]. simpl.
  destruct (_ || _); [done|]. destruct (ParseTarget t) as [[h p]|] eqn:Ht; [|done]. intros [= <-].
  by exists c, h, p.
Qed.

(** C38: a channel made by the public API is well formed whatever the arguments: either
    it is lame with a status that is not OK, or it has a host, a port between 1 and
    65535, positive keepalive times, a positive send limit, and a bounded positive receive
    limit, for which the reassembly scanner's [size_t] arithmetic cannot wrap (the
    condition under which the scanner is proved to terminate and to be correct). *)
Theorem created_channel_wellformed (t : bytes) (creds : option ChannelCredentials) (a : ChannelArguments)
    (loop_ok : bool) (failure : bytes) :
  int_args a →
  usable (make_channel (CreateCustomChannel t creds a) loop_ok failure) ∧
  ∀ cfg, CreateCustomChannel t creds a = inr cfg →
    host_ cfg ≠ [] ∧ 1 <= port_ cfg <= 65535 ∧
    0 < keepalive_time (http2 (options_ cfg)) ∧ 0 < keepalive_timeout (http2 (options_ cfg)) ∧
    0 < max_send_message_size (options_ cfg) < 2 ^ size_bits ∧
    0 < max_receive_message_size (options_ cfg) < 2 ^ 31 ∧ fits (max_receive_message_size (options_ cfg)).
Proof.
  intros Ha. split.
  - unfold make_channel, usable. destruct (CreateCustomChannel t creds a) as [s|cfg] eqn:Hc; [|done]. intros _. simpl.
    unfold CreateCustomChannel in Hc. repeat case_match; simplify_eq; done.
  - intros cfg (c & h & p & _ & _ & Ht & ->)%CreateCustomChannel_inr.
    apply ParseTarget_target in Ht as (Hne & Hp & _)%target_host. cbn [host_ port_ options_ channel_options http2
      keepalive_time keepalive_timeout max_send_message_size max_receive_message_size].
    pose proof size_bits_ge as Hsz. assert (2 ^ 32 <= 2 ^ size_bits) by (apply Z.pow_le_mono_r; lia).
    destruct (positive_arg_range GRPC_ARG_KEEPALIVE_TIME_MS a 60000) as [? _]; [done|lia|].
    destruct (positive_arg_range GRPC_ARG_KEEPALIVE_TIMEOUT_MS a 20000) as [? _]; [done|lia|].
    destruct (positive_arg_range GRPC_ARG_MAX_SEND_MESSAGE_LENGTH a (2 ^ size_bits - 1)) as [? ?]; [done|lia|].
    destruct (positive_arg_range GRPC_ARG_MAX_RECEIVE_MESSAGE_LENGTH a (4 * 1024 * 1024)) as [? ?]; [done|lia|].
    simpl in *. unfold fits. split_and!; try done; lia.
Qed.

(** C11: no channel the public API can make ever talks to an unverified server: whatever
    the target, credentials and arguments, in every state the channel can reach, before
    every handshake on its socket the context was restricted to TLS 1.2 and h2, peer
    verification was on and never switched off, and the certificate check was bound to
    the host the target's grammar gives; and the channel only becomes ready after such a
    handshake. *)
Theorem public_channels_verify_peer `{SH : !StdHeap TimerHeap.EntryLater} `{NG : Nghttp2} `{TP : TlsPlatform}
    {E : Type} (now : E → E * Z) (client_new : E → E * (Z * (Z * ng_session)))
    (t : bytes) (creds : option ChannelCredentials) (a : ChannelArguments) (cfg : ChannelConfig)
    (steps : nat) (e0 : penv) (e : E) (c : ChannelImpl.Channel (SO := TlsSocket.tls_socket_ops)) :
  CreateCustomChannel t creds a = inr cfg →
  nsteps (chan_step now client_new cfg) steps
    (ChannelImpl.new_channel (SO := TlsSocket.tls_socket_ops) (fresh_socket e0) e) c →
  (∀ pre post, tls_trace c = pre ++ TrConnect :: post → ctx_secure pre ∧ host_checked (host_ cfg) pre) ∧
  (TrSetVerify false ∉ tls_trace c) ∧
  (ChannelImpl.state_ c = ChannelImpl.kReady → TrConnect ∈ tls_trace c) ∧
  target t (host_ cfg) (port_ cfg).
Proof.
  intros (cr & h & p & _ & _ & Ht & ->)%CreateCustomChannel_inr Hrun.
  apply chan_run_verifies in Hrun as (Hg & Hv & Hr); [|done]. split_and!; [exact Hg|done|done|].
  by apply ParseTarget_target.
Qed.

End Channels.
End CreateProperties.

(** ** Witnesses *)

Module CreateWitness.
Import Grpc TimerHeap ToyNghttp2.
Local Existing Instance size_t32.

Definition ex_options : SslCredentialsOptions :=
  {| pem_root_certs := []; pem_private_key := []; pem_cert_chain := [] |}.

Definition ex_creds : option ChannelCredentials := Some (SslCredentials ex_options).

(** Unlimited is asked for and the bounded default kept. *)
Definition ex_args : ChannelArguments := SetMaxReceiveMessageSize (-1) no_arguments.

Lemma ex_args_int : int_args ex_args.
Proof.
  unfold int_args, ex_args, SetMaxReceiveMessageSize, SetInt. simpl.
  apply map_Forall_insert_2; [lia|apply map_Forall_empty].
Qed.

Definition ex_target : bytes := bs "dns:///[::1]:0443".

Definition ex_made : ChannelConfig :=
  {| host_ := bs "::1"; port_ := 443; tls_ := TlsProperties.ex_config; options_ := channel_options ex_args |}.

Lemma authority_names_target_witness :
  authority_ ex_made = bs "[::1]:443" ∧ ParseTarget (kDnsPrefix ++ authority_ ex_made) = Some (bs "::1", 443).
Proof.
  split; [vm_compute; reflexivity|].
  apply (authority_names_target ex_target (bs "::1") 443 TlsProperties.ex_config (channel_options ex_args)).
  - vm_compute. reflexivity.
  - discriminate.
Defined.

Lemma created_channel_wellformed_witness :
  CreateCustomChannel ex_target ex_creds ex_args = inr ex_made ∧
  0 < max_receive_message_size (options_ ex_made) < 2 ^ 31.
Proof.
  assert (H : CreateCustomChannel ex_target ex_creds ex_args = inr ex_made) by (vm_compute; reflexivity).
  split; [exact H|].
  destruct (created_channel_wellformed ex_target ex_creds ex_args true [] ex_args_int) as [_ Hall].
  destruct (Hall ex_made H) as (_ & _ & _ & _ & _ & Hr & _). exact Hr.
Defined.

Lemma public_channels_verify_peer_witness :
  (∃ pre post, tls_trace SocketWitness.connected = pre ++ TrConnect :: post ∧
               ctx_secure pre ∧ host_checked (bs "example.org") pre) ∧
  target (bs "example.org") (bs "example.org") 443.
Proof.
  destruct (public_channels_verify_peer (TP := TlsProperties.ex_platform) ex_now ex_client (bs "example.org") ex_creds
              no_arguments ex_cfg 4 0 0 SocketWitness.connected) as (H1 & _ & _ & H2).
  - vm_compute. reflexivity.
  - exact SocketWitness.connected_run.
  - split; [|exact H2].
    set (tr := tls_trace SocketWitness.connected) in *.
    assert (H : ∃ pre post, tr = pre ++ TrConnect :: post).
    { exists (take 12 tr), (drop 13 tr). vm_compute. reflexivity. }
    destruct H as (pre & post & H). exists pre, post. split; [exact H|exact (H1 pre post H)].
Defined.

End CreateWitness.
