(* ===== verification/CompletionQueue.v ===== *)
(** * The completion queue and the stubs that use it

    [include/grpcpp/completion_queue.h], [support/async_unary_call.h],
    and [support/async_stream.h].

    Each method holds [mu_] for its whole body but for the wait in [Next], so a method is
    one transition; [Next] gives [None] where it would wait.  [System] adds the threads
    inside [Next], awake or waiting on [cv_], and the tags handed in and out.  A tag is a
    pointer, named by a number. *)

From Stdlib Require Import ZArith Lia.
From Stdlib Require Import Strings.String Strings.Byte.
From stdpp Require Import base numbers list relations.
From S2P Require Import Prelude Shim.

Local Open Scope Z_scope.

Module CompletionQueue.

Inductive NextStatus : Type := SHUTDOWN | GOT_EVENT | TIMEOUT.

(** A tag and its [ok]. *)
Abbreviation Event := (Z * bool)%type.

Record CompletionQueue : Type := {
  shutdown_ : bool;
  queue_ : list Event;
}.

Definition new_queue : CompletionQueue := {| shutdown_ := false; queue_ := [] |}.

(** The predicate of [cv_.wait]. *)
Definition wake_condition (q : CompletionQueue) : bool := negb (bool_decide (queue_ q = [])) || shutdown_ q.

(** [None] while it waits; then the result: [None] for [false]. *)
Definition Next (q : CompletionQueue) : option (CompletionQueue * option Event) :=
  if negb (wake_condition q) then None
  else match queue_ q with
       | [] => Some (q, None)
       | e :: rest => Some ({| q with queue_ := rest |}, Some e)
       end.

Definition AsyncNext (q : CompletionQueue) : CompletionQueue * NextStatus * option Event :=
  match queue_ q with
  | e :: rest => ({| q with queue_ := rest |}, GOT_EVENT, Some e)
  | [] => (q, if shutdown_ q then SHUTDOWN else TIMEOUT, None)
  end.

Definition Shutdown (q : CompletionQueue) : CompletionQueue := {| q with shutdown_ := true |}.

Definition EgrpcEnqueueTag (tag : Z) (ok : bool) (q : CompletionQueue) : CompletionQueue :=
  {| q with queue_ := queue_ q ++ [(tag, ok)] |}.

(** ** Threads *)

(** [awake] threads run towards the test of the wait, [asleep] ones wait on [cv_];
    [handed_in] and [handed_out] are the tags enqueued and returned so far. *)
Record System : Type := {
  cq : CompletionQueue;
  awake : nat;
  asleep : nat;
  handed_in : list Event;
  handed_out : list Event;
}.

Definition start : System :=
  {| cq := new_queue; awake := 0; asleep := 0; handed_in := []; handed_out := [] |}.

Definition give (e : option Event) (l : list Event) : list Event :=
  match e with Some e => l ++ [e] | None => l end.

Inductive step (s : System) : System → Prop :=
  | enter : step s {| s with awake := S (awake s) |}
  (* the test fails: the thread waits *)
  | sleep n : awake s = S n → Next (cq s) = None →
      step s {| s with awake := n; asleep := S (asleep s) |}
  (* the test succeeds: the rest of [Next] *)
  | return_ n q e : awake s = S n → Next (cq s) = Some (q, e) →
      step s {| s with cq := q; awake := n; handed_out := give e (handed_out s) |}
  | spurious n : asleep s = S n → step s {| s with asleep := n; awake := S (awake s) |}
  | async_next q st e : AsyncNext (cq s) = (q, st, e) →
      step s {| s with cq := q; handed_out := give e (handed_out s) |}
  (* [notify_one] *)
  | enqueue_wake tag ok n : asleep s = S n →
      step s {| s with cq := EgrpcEnqueueTag tag ok (cq s); asleep := n; awake := S (awake s);
                       handed_in := handed_in s ++ [(tag, ok)] |}
  | enqueue_alone tag ok : asleep s = O →
      step s {| s with cq := EgrpcEnqueueTag tag ok (cq s); handed_in := handed_in s ++ [(tag, ok)] |}
  (* [notify_all] *)
  | shut_down : step s {| s with cq := Shutdown (cq s); asleep := 0; awake := (awake s + asleep s)%nat |}.

Record inv (s : System) : Prop := {
  inv_fifo : handed_in s = handed_out s ++ queue_ (cq s);
  inv_awake : (0 < asleep s)%nat → shutdown_ (cq s) = false ∧ (length (queue_ (cq s)) <= awake s)%nat;
}.

Lemma Next_None q : Next q = None ↔ queue_ q = [] ∧ shutdown_ q = false.
Proof.
  unfold Next, wake_condition. destruct q as [sd [|e l]], sd; simpl; naive_solver.
Qed.

Lemma Next_Some q q' e :
  Next q = Some (q', e) →
  shutdown_ q' = shutdown_ q ∧ queue_ q = (match e with Some e => [e] | None => [] end) ++ queue_ q' ∧
  (e = None → shutdown_ q = true ∧ queue_ q = []).
Proof.
  unfold Next, wake_condition. destruct q as [sd [|e' l]], sd; simpl; intros H; simplify_eq; done.
Qed.

Lemma AsyncNext_spec q q' st e :
  AsyncNext q = (q', st, e) →
  shutdown_ q' = shutdown_ q ∧ queue_ q = (match e with Some e => [e] | None => [] end) ++ queue_ q' ∧
  (st = SHUTDOWN ↔ shutdown_ q = true ∧ queue_ q = []).
Proof.
  unfold AsyncNext. destruct q as [sd [|e' l]], sd; simpl; intros H; simplify_eq; naive_solver.
Qed.

Lemma give_app e l k : give e l ++ k = l ++ (match e with Some e => [e] | None => [] end) ++ k.
Proof. destruct e; simpl; [by rewrite <- app_assoc|done]. Qed.

Lemma cq_step_inv s s' : inv s → step s s' → inv s'.
Proof.
  intros [Hf Ha] Hs. destruct Hs as [|n Hw Hn|n q e Hw Hn|n Hw|q st e Hn|tag ok n Hw|tag ok Hw|].
  - split; simpl; [done|]. intros H%Ha. naive_solver lia.
  - apply Next_None in Hn as [Hq Hsd]. split; simpl; [done|]. intros _. rewrite Hq. simpl. split; [done|lia].
  - destruct (Next_Some _ _ _ Hn) as (Hsd & Hq & Hno). split; simpl; [by rewrite give_app, <- Hq|].
    intros [H1 H2]%Ha. rewrite Hsd. split; [done|]. rewrite Hq, length_app in H2.
    destruct e; simpl in H2; [lia|]. destruct (Hno eq_refl). congruence.
  - split; simpl; [done|]. intros H. destruct Ha; [lia|]. split; [done|lia].
  - destruct (AsyncNext_spec _ _ _ _ Hn) as (Hsd & Hq & _). split; simpl; [by rewrite give_app, <- Hq|].
    intros [H1 H2]%Ha. rewrite Hsd. split; [done|]. rewrite Hq, length_app in H2. lia.
  - split; simpl; [by rewrite Hf, <- app_assoc|]. intros H. destruct Ha; [lia|]. split; [done|].
    rewrite length_app. simpl. lia.
  - split; simpl; [by rewrite Hf, <- app_assoc|]. lia.
  - split; simpl; [done|]. lia.
Qed.

Lemma cq_run_inv s : rtc step start s → inv s.
Proof.
  intros H. assert (inv start) as H0 by (split; [done|simpl; lia]).
  generalize dependent start. intros s0 H H0. induction H as [|s1 s2 s3 Hs _ IH]; [done|].
  apply IH. by eapply cq_step_inv.
Qed.

(** C24: the queue hands every tag out exactly once and in order, to whichever threads ask,
    and no wakeup is lost: in every reachable state the tags handed out followed by those
    still queued are those enqueued; threads wait on the condition variable only while
    the queue is not shut down and enough awake threads are on their way to take every
    queued tag; and [Next] answers [false] only once the queue is shut down and drained. *)
Theorem completion_queue_exactly_once (s : System) :
  rtc step start s →
  handed_in s = handed_out s ++ queue_ (cq s) ∧
  ((0 < asleep s)%nat → shutdown_ (cq s) = false ∧ (length (queue_ (cq s)) <= awake s)%nat) ∧
  (∀ q, Next (cq s) = Some (q, None) → shutdown_ (cq s) = true ∧ handed_out s = handed_in s) ∧
  ((AsyncNext (cq s)).1.2 = SHUTDOWN ↔ shutdown_ (cq s) = true ∧ handed_out s = handed_in s).
Proof.
  intros Hrun. apply cq_run_inv in Hrun as [Hf Ha].
  assert (Hdry : queue_ (cq s) = [] ↔ handed_out s = handed_in s).
  { rewrite Hf. split; [intros ->; by rewrite app_nil_r|].
    intros H. rewrite <- (app_nil_r (handed_out s)) in H at 1. by apply app_inv_head in H. }
  split_and!; [done|done| |].
  - intros q H. destruct (Next_Some _ _ _ H) as (_ & _ & Hno). rewrite <- Hdry. by apply Hno.
  - destruct (AsyncNext (cq s)) as [[q st] e] eqn:Hn. simpl.
    destruct (AsyncNext_spec _ _ _ _ Hn) as (_ & _ & ->). by rewrite Hdry.
Qed.

End CompletionQueue.

(** ** The asynchronous stubs *)

Module AsyncStubs.
Import Grpc CompletionQueue.

(** What the stubs share: [cq_] is null or the queue. *)
Definition EnqueueFailedOp (cq_ : bool) (tag : Z) (q : CompletionQueue) : CompletionQueue :=
  if cq_ then EgrpcEnqueueTag tag false q else q.

Definition async_unimplemented : Status := mk_status UNIMPLEMENTED (bs "async API not supported by egrpc").

(** [status] is null or what [*status] holds. *)
Definition EnqueueFinish (cq_ : bool) (status : option Status) (tag : Z) (q : CompletionQueue)
    : CompletionQueue * option Status :=
  (if cq_ then EgrpcEnqueueTag tag true q else q, (λ _, async_unimplemented) <$> status).

(** The operations of the four stub classes; [start] is the factory's argument. *)
Inductive ResponseReaderOp : Type :=
  | rr_StartCall
  | rr_ReadInitialMetadata (tag : Z)
  | rr_Finish (status : option Status) (tag : Z).

Inductive ReaderOp : Type :=
  | r_Create (start : bool) (tag : Z)
  | r_StartCall (tag : Z)
  | r_ReadInitialMetadata (tag : Z)
  | r_Read (tag : Z)
  | r_Finish (status : option Status) (tag : Z).

Inductive WriterOp : Type :=
  | w_Create (start : bool) (tag : Z)
  | w_StartCall (tag : Z)
  | w_ReadInitialMetadata (tag : Z)
  | w_Write (tag : Z)
  | w_Write_options (tag : Z)
  | w_WriteLast (tag : Z)
  | w_WritesDone (tag : Z)
  | w_Finish (status : option Status) (tag : Z).

Inductive ReaderWriterOp : Type :=
  | rw_Create (start : bool) (tag : Z)
  | rw_StartCall (tag : Z)
  | rw_ReadInitialMetadata (tag : Z)
  | rw_Read (tag : Z)
  | rw_Write (tag : Z)
  | rw_Write_options (tag : Z)
  | rw_WriteLast (tag : Z)
  | rw_WritesDone (tag : Z)
  | rw_Finish (status : option Status) (tag : Z).

(** The queue and what [*status] holds afterwards, if there is one. *)
Definition ClientAsyncResponseReader (cq_ : bool) (op : ResponseReaderOp) (q : CompletionQueue)
    : CompletionQueue * option Status :=
  match op with
  | rr_StartCall => (q, None)
  | rr_ReadInitialMetadata tag => (if cq_ then EgrpcEnqueueTag tag false q else q, None)
  | rr_Finish status tag =>
      (if cq_ then EgrpcEnqueueTag tag true q else q, (λ _, async_unimplemented) <$> status)
  end.

(** [ClientAsyncResponseReaderHelper::Create]: the stub keeps the queue it is given, and
    nothing is queued. *)
Definition ClientAsyncResponseReaderHelper_Create (cq : bool) (q : CompletionQueue) : bool * CompletionQueue := (cq, q).

(** The factories of the streaming stubs. *)
Definition ClientAsyncReaderFactory_Create (cq_ start : bool) (tag : Z) (q : CompletionQueue) : CompletionQueue :=
  if start then EnqueueFailedOp cq_ tag q else q.
Definition ClientAsyncWriterFactory_Create (cq_ start : bool) (tag : Z) (q : CompletionQueue) : CompletionQueue :=
  if start then EnqueueFailedOp cq_ tag q else q.
Definition ClientAsyncReaderWriterFactory_Create (cq_ start : bool) (tag : Z) (q : CompletionQueue)
    : CompletionQueue :=
  if start then EnqueueFailedOp cq_ tag q else q.

Definition ClientAsyncReader (cq_ : bool) (op : ReaderOp) (q : CompletionQueue)
    : CompletionQueue * option Status :=
  match op with
  | r_Create start tag => (ClientAsyncReaderFactory_Create cq_ start tag q, None)
  | r_StartCall tag | r_ReadInitialMetadata tag | r_Read tag => (EnqueueFailedOp cq_ tag q, None)
  | r_Finish status tag => EnqueueFinish cq_ status tag q
  end.

Definition ClientAsyncWriter (cq_ : bool) (op : WriterOp) (q : CompletionQueue)
    : CompletionQueue * option Status :=
  match op with
  | w_Create start tag => (ClientAsyncWriterFactory_Create cq_ start tag q, None)
  | w_StartCall tag | w_ReadInitialMetadata tag | w_Write tag | w_Write_options tag
  | w_WriteLast tag | w_WritesDone tag => (EnqueueFailedOp cq_ tag q, None)
  | w_Finish status tag => EnqueueFinish cq_ status tag q
  end.

Definition ClientAsyncReaderWriter (cq_ : bool) (op : ReaderWriterOp) (q : CompletionQueue)
    : CompletionQueue * option Status :=
  match op with
  | rw_Create start tag => (ClientAsyncReaderWriterFactory_Create cq_ start tag q, None)
  | rw_StartCall tag | rw_ReadInitialMetadata tag | rw_Read tag | rw_Write tag | rw_Write_options tag
  | rw_WriteLast tag | rw_WritesDone tag => (EnqueueFailedOp cq_ tag q, None)
  | rw_Finish status tag => EnqueueFinish cq_ status tag q
  end.

(** Any operation of any stub. *)
Inductive StubOp : Type :=
  | OnResponseReader (op : ResponseReaderOp)
  | OnReader (op : ReaderOp)
  | OnWriter (op : WriterOp)
  | OnReaderWriter (op : ReaderWriterOp).

Definition run_stub (cq_ : bool) (op : StubOp) (q : CompletionQueue) : CompletionQueue * option Status :=
  match op with
  | OnResponseReader op => ClientAsyncResponseReader cq_ op q
  | OnReader op => ClientAsyncReader cq_ op q
  | OnWriter op => ClientAsyncWriter cq_ op q
  | OnReaderWriter op => ClientAsyncReaderWriter cq_ op q
  end.

(** A user that keeps calling [Next]: the events, until [false] or a wait. *)
Fixpoint drain (n : nat) (q : CompletionQueue) : list Event * option bool :=
  match n with
  | O => ([], None)
  | S n =>
      match Next q with
      | None => ([], Some true)
      | Some (_, None) => ([], Some false)
      | Some (q, Some e) => let '(es, r) := drain n q in (e :: es, r)
      end
  end.

(** *** The contract *)

(** The event an operation owes its caller, if it has a tag. *)
Definition owed (op : StubOp) : option Event :=
  match op with
  | OnResponseReader rr_StartCall => None
  | OnResponseReader (rr_ReadInitialMetadata tag) => Some (tag, false)
  | OnResponseReader (rr_Finish _ tag) => Some (tag, true)
  | OnReader (r_Create start tag) | OnWriter (w_Create start tag) | OnReaderWriter (rw_Create start tag) =>
      if start then Some (tag, false) else None
  | OnReader (r_StartCall tag | r_ReadInitialMetadata tag | r_Read tag) => Some (tag, false)
  | OnWriter (w_StartCall tag | w_ReadInitialMetadata tag | w_Write tag | w_Write_options tag
              | w_WriteLast tag | w_WritesDone tag) => Some (tag, false)
  | OnReaderWriter (rw_StartCall tag | rw_ReadInitialMetadata tag | rw_Read tag | rw_Write tag
                    | rw_Write_options tag | rw_WriteLast tag | rw_WritesDone tag) => Some (tag, false)
  | OnReader (r_Finish _ tag) | OnWriter (w_Finish _ tag) | OnReaderWriter (rw_Finish _ tag) => Some (tag, true)
  end.

Lemma run_stub_queue op q :
  (run_stub true op q).1 = match owed op with Some (tag, ok) => EgrpcEnqueueTag tag ok q | None => q end.
Proof. by destruct op as [[]|[[]| | | |]|[[]| | | | | | |]|[[]| | | | | | | |]]. Qed.

Lemma run_stubs_queue ops q :
  foldl (λ q op, (run_stub true op q).1) q ops = {| q with queue_ := queue_ q ++ omap owed ops |}.
Proof.
  revert q. induction ops as [|op ops IH]; intros q; simpl; [rewrite app_nil_r; by destruct q|].
  rewrite IH, run_stub_queue. destruct (owed op) as [[tag ok]|]; simpl; [|done]. by rewrite <- app_assoc.
Qed.

Lemma omap_length ops : (length (omap owed ops) <= length ops)%nat.
Proof.
  induction ops as [|op ops IH]; [done|]. cbn. destruct (owed op); cbn in *; lia.
Qed.

Lemma drain_all es n : (length es < n)%nat → drain n {| shutdown_ := true; queue_ := es |} = (es, Some false).
Proof.
  revert n. induction es as [|e es IH]; intros [|n] Hn; simpl in *; try lia; [done|].
  rewrite IH by lia. done.
Qed.

(** An asynchronous caller always sees its operations complete and its drain loop end:
    whatever operations are started on whatever stubs bound to a queue, in whatever
    order, after [Shutdown] a loop over [Next] yields exactly one event per tagged
    operation, in the order they were started, with [ok] false for all but [Finish], and
    then [false], never a wait; and every [Finish] with a status to fill deposits
    UNIMPLEMENTED. *)
Theorem async_drain_terminates (ops : list StubOp) (n : nat) :
  (length ops < n)%nat →
  let q := foldl (λ q op, (run_stub true op q).1) new_queue ops in
  drain n (Shutdown q) = (omap owed ops, Some false) ∧
  ∀ q op s, (run_stub true op q).2 = Some s → error_code s = UNIMPLEMENTED ∧ ∃ tag, owed op = Some (tag, true).
Proof.
  intros Hn q. split.
  - subst q. rewrite run_stubs_queue. apply drain_all. simpl. eapply Nat.le_lt_trans; [|exact Hn].
    apply omap_length.
  - intros q' op s. unfold run_stub, EnqueueFinish.
    destruct op as [[]|[[]| | | |]|[[]| | | | | | |]|[[]| | | | | | | |]]; simpl; try done;
      destruct status; simpl; intros [= <-]; (split; [done|]); by eexists.
Qed.

End AsyncStubs.

(** ** Witnesses *)

Module QueueWitness.
Import Grpc CompletionQueue AsyncStubs.

(** A thread waits, a tag is enqueued and wakes it, it takes the tag, and the queue is
    shut down. *)
Lemma completion_queue_exactly_once_witness :
  ∃ s, rtc step start s ∧ handed_out s = [(7, true)] ∧ shutdown_ (cq s) = true ∧
       handed_in s = handed_out s ++ queue_ (cq s).
Proof.
  assert (H : ∃ s, rtc step start s ∧ handed_out s = [(7, true)] ∧ shutdown_ (cq s) = true).
  { eexists. split.
    - eapply rtc_l; [apply enter|]. eapply rtc_l; [by eapply sleep|].
      eapply rtc_l; [by apply (enqueue_wake _ 7 true)|]. eapply rtc_l; [by eapply return_|].
      eapply rtc_l; [apply shut_down|]. apply rtc_refl.
    - split; reflexivity. }
  destruct H as (s & H1 & H2 & H3). exists s. split; [exact H1|]. split; [exact H2|]. split; [exact H3|].
  apply (completion_queue_exactly_once s H1).
Defined.

Lemma async_drain_terminates_witness :
  drain 4 (Shutdown (foldl (λ q op, (run_stub true op q).1) new_queue
             [OnReader (r_Create true 1); OnWriter (w_Create false 9); OnReader (r_Finish None 2)])) =
  ([(1, false); (2, true)], Some false).
Proof.
  apply (async_drain_terminates
           [OnReader (r_Create true 1); OnWriter (w_Create false 9); OnReader (r_Finish None 2)] 4).
  simpl. lia.
Defined.

End QueueWitness.
