(* ===== verification/Reactor.v ===== *)
(** * The callback reactors ([include/grpcpp/support/client_callback.h])

    Several threads call the methods of one streaming reactor; each atomic access is a
    step.  The accesses are acquire and release ones, so a plain [store] may become
    visible to other threads after later loads of its own thread: with [weak] the store
    of [started_] stays in the thread's store buffer until it is flushed, the thread
    itself sees it at once, and a read-modify-write waits for the thread's own buffer.
    Without [weak] the accesses are sequentially consistent.

    The callers' discipline is the one upstream asks for: holds are added before
    [StartCall], in all fewer than an [int] holds, and only added holds are removed. *)

From Stdlib Require Import ZArith Lia.
From Stdlib Require Import Strings.String Strings.Byte.
From stdpp Require Import base numbers list relations.
From S2P Require Import Prelude Shim.

Local Open Scope Z_scope.

Module Reactor.
Import Grpc.

Definition CallbackUnimplementedStatus : Status :=
  mk_status UNIMPLEMENTED (bs "callback API not supported by egrpc").

Inductive Callback : Type :=
  | OnReadDone (ok : bool)
  | OnWriteDone (ok : bool)
  | OnWritesDoneDone (ok : bool)
  | OnDone (s : Status).

(** ** [ReactorStubState] *)

Record StubState : Type := {
  started_ : bool;
  done_ : bool;
  holds_ : Z;
  log : list Callback;       (* the callbacks made so far *)
}.

Definition new_state : StubState := {| started_ := false; done_ := false; holds_ := 0; log := [] |}.

(** [int] arithmetic of the atomics, which wraps. *)
Definition int_wrap (n : Z) : Z := (n + 2 ^ 31) mod 2 ^ 32 - 2 ^ 31.

(** Where a thread is: before the store of [MarkStarted], the additions of [Hold] and
    [Unhold], the three accesses of [ConsumeDeliverDone], or the call of [OnDone]. *)
Inductive Pc : Type :=
  | Idle
  | AtMarkStarted
  | AtHold (holds : Z)
  | AtUnhold
  | AtLoadStarted
  | AtLoadHolds
  | AtExchange
  | AtOnDone.

#[export] Instance Pc_eq_decision : EqDecision Pc.
Proof. solve_decision. Defined.

Record Thread : Type := {
  pc : Pc;
  buffered : bool;           (* [started_ = true] is in its store buffer *)
}.

Definition idle : Thread := {| pc := Idle; buffered := false |}.

(** The next access of a thread; [None] when it has none or waits for its buffer. *)
Definition access (weak : bool) (t : Thread) (s : StubState) : option (Thread * StubState) :=
  let goto p := {| t with pc := p |} in
  match pc t with
  | Idle => None
  | AtMarkStarted =>
      Some (if weak then ({| pc := AtLoadStarted; buffered := true |}, s)
            else (goto AtLoadStarted, {| s with started_ := true |}))
  | AtHold holds =>
      if buffered t then None else Some (goto Idle, {| s with holds_ := int_wrap (holds_ s + holds) |})
  | AtUnhold =>
      if buffered t then None else Some (goto AtLoadStarted, {| s with holds_ := int_wrap (holds_ s - 1) |})
  | AtLoadStarted => Some (goto (if started_ s || buffered t then AtLoadHolds else Idle), s)
  | AtLoadHolds => Some (goto (if holds_ s <=? 0 then AtExchange else Idle), s)
  | AtExchange =>
      if buffered t then None
      else Some (goto (if done_ s then Idle else AtOnDone), {| s with done_ := true |})
  | AtOnDone => Some (goto Idle, {| s with log := log s ++ [OnDone CallbackUnimplementedStatus] |})
  end.

(** The methods of the streaming reactors. *)
Inductive Method : Type :=
  | StartCall
  | AddHold
  | AddMultipleHolds (holds : Z)
  | RemoveHold
  | StartRead
  | StartWrite
  | StartWriteLast
  | StartWritesDone.

(** Where a method starts and the callbacks it makes at once. *)
Definition begin (m : Method) : Pc * list Callback :=
  match m with
  | StartCall => (AtMarkStarted, [])
  | AddHold => (AtHold 1, [])
  | AddMultipleHolds holds => (AtHold holds, [])
  | RemoveHold => (AtUnhold, [])
  | StartRead => (Idle, [OnReadDone false])
  | StartWrite => (Idle, [OnWriteDone false])
  | StartWriteLast => (Idle, [OnWriteDone false; OnWritesDoneDone false])
  | StartWritesDone => (Idle, [OnWritesDoneDone false])
  end.

(** [ClientUnaryReactor::StartCall] and [CallbackUnaryCall] complete at once. *)
Definition ClientUnaryReactor_StartCall : list Callback := [OnDone CallbackUnimplementedStatus].
Definition CallbackUnaryCall (on_completion : Status → list Callback) : list Callback :=
  on_completion CallbackUnimplementedStatus.

(** The factories bind nothing: the reactor is left as it is. *)
Definition ClientCallbackUnaryFactory_Create (reactor : StubState) : StubState := reactor.
Definition ClientCallbackReaderFactory_Create (reactor : StubState) : StubState := reactor.
Definition ClientCallbackWriterFactory_Create (reactor : StubState) : StubState := reactor.
Definition ClientCallbackReaderWriterFactory_Create (reactor : StubState) : StubState := reactor.

(** ** Threads *)

(** [asked], [outstanding] and [called] record what the callers have done: the holds asked
    for, those added and not yet given back, and whether [StartCall] was called. *)
Record System : Type := {
  stub : StubState;
  threads : list Thread;
  asked : Z;
  outstanding : Z;
  called : bool;
}.

Definition start (n : nat) : System :=
  {| stub := new_state; threads := replicate n idle; asked := 0; outstanding := 0; called := false |}.

Definition adding (t : Thread) : bool := match pc t with AtHold _ => true | _ => false end.

Definition asks (m : Method) : Z :=
  match m with AddHold => 1 | AddMultipleHolds n => n | _ => 0 end.

(** May the callers call the method now? *)
Definition allowed (m : Method) (s : System) : bool :=
  match m with
  | StartCall => forallb (λ t, negb (adding t)) (threads s)
  | AddHold | AddMultipleHolds _ => (0 <=? asks m) && negb (called s) && (asked s + asks m <? 2 ^ 31)
  | RemoveHold => 0 <? outstanding s
  | _ => true
  end.

Definition call (m : Method) (i : nat) (t : Thread) (s : System) : System :=
  let '(p, cbs) := begin m in
  {| stub := {| (stub s) with log := log (stub s) ++ cbs |};
     threads := <[i := {| t with pc := p |}]> (threads s);
     asked := asked s + asks m;
     outstanding := match m with RemoveHold => outstanding s - 1 | _ => outstanding s end;
     called := match m with StartCall => true | _ => called s end |}.

Inductive step (weak : bool) (s : System) : System → Prop :=
  | step_call m i t :
      threads s !! i = Some t → pc t = Idle → allowed m s = true → step weak s (call m i t s)
  | step_access i t t' st :
      threads s !! i = Some t → access weak t (stub s) = Some (t', st) →
      step weak s {| s with stub := st; threads := <[i := t']> (threads s);
                            outstanding := match pc t with AtHold n => outstanding s + n | _ => outstanding s end |}
  | step_flush i t :
      threads s !! i = Some t → buffered t = true →
      step weak s {| s with stub := {| (stub s) with started_ := true |};
                            threads := <[i := {| t with buffered := false |}]> (threads s) |}.

(** The same, as a function of a schedule; [None] when a step is not possible. *)
Inductive Act : Type := Call (m : Method) (i : nat) | Access (i : nat) | Flush (i : nat).

Definition act (weak : bool) (a : Act) (s : System) : option System :=
  match a with
  | Call m i =>
      t ← threads s !! i;
      if bool_decide (pc t = Idle) && allowed m s then Some (call m i t s) else None
  | Access i =>
      t ← threads s !! i;
      r ← access weak t (stub s);
      Some {| s with stub := r.2; threads := <[i := r.1]> (threads s);
                     outstanding := match pc t with AtHold n => outstanding s + n | _ => outstanding s end |}
  | Flush i =>
      t ← threads s !! i;
      if buffered t
      then Some {| s with stub := {| (stub s) with started_ := true |};
                          threads := <[i := {| t with buffered := false |}]> (threads s) |}
      else None
  end.

Fixpoint schedule (weak : bool) (acts : list Act) (s : System) : option System :=
  match acts with
  | [] => Some s
  | a :: acts => s ← act weak a s; schedule weak acts s
  end.

(** No call is under way. *)
Definition quiescent (s : System) : Prop := Forall (λ t, t = idle) (threads s).

Definition is_done (c : Callback) : bool := match c with OnDone _ => true | _ => false end.
Definition dones (s : System) : list Callback := filter (λ c, is_done c = true) (log (stub s)).

Lemma act_step weak a s s' : act weak a s = Some s' → step weak s s'.
Proof.
  destruct a as [m i|i|i]; simpl; intros H; apply bind_Some in H as (t & Ht & H).
  - destruct (bool_decide_reflect (pc t = Idle)) as [Hp|]; [|done]. simpl in H.
    destruct (allowed m s) eqn:Ha; [|done]. injection H as <-. by apply step_call.
  - apply bind_Some in H as ([t' st] & Hr & [= <-]). by eapply step_access.
  - destruct (buffered t) eqn:Hb; [|done]. injection H as <-. by apply step_flush.
Qed.

Lemma schedule_run weak acts s s' : schedule weak acts s = Some s' → rtc (step weak) s s'.
Proof.
  revert s. induction acts as [|a acts IH]; intros s; simpl; [by intros [= ->]|].
  intros (s1 & Hs%act_step & H)%bind_Some. eapply rtc_l; [done|by apply IH].
Qed.

(** ** The invariant *)

(** Sums over the threads. *)
Definition total (f : Thread → Z) (l : list Thread) : Z := foldr (λ t a, f t + a) 0 l.

Definition at_pc (p : Pc) (t : Thread) : Z := if bool_decide (pc t = p) then 1 else 0.
Definition adds (t : Thread) : Z := match pc t with AtHold n => n | _ => 0 end.

Lemma total_insert f (l : list Thread) i t t' : l !! i = Some t → total f (<[i := t']> l) = total f l - f t + f t'.
Proof.
  revert i. induction l as [|u l IH]; intros [|i] H; simplify_eq/=; [lia|]. rewrite IH by done. lia.
Qed.

Lemma total_nonneg f l : (∀ t, t ∈ l → 0 <= f t) → 0 <= total f l.
Proof.
  induction l as [|u l IH]; simpl; intros H; [lia|].
  pose proof (H u ltac:(left)). specialize (IH ltac:(intros t Ht; apply H; by right)). lia.
Qed.

Lemma total_elem f l i t : (∀ t, t ∈ l → 0 <= f t) → l !! i = Some t → f t <= total f l.
Proof.
  revert i. induction l as [|u l IH]; intros [|i] H Hi; simplify_eq/=.
  - pose proof (total_nonneg f l ltac:(intros t' Ht; apply H; by right)). lia.
  - pose proof (H u ltac:(left)). specialize (IH i ltac:(intros t' Ht; apply H; by right) Hi). lia.
Qed.

Lemma at_pc_nonneg p t : 0 <= at_pc p t.
Proof. unfold at_pc. case_bool_decide; lia. Qed.

(** A thread past the test of [started_]. *)
Definition past_started (t : Thread) : bool :=
  match pc t with AtLoadHolds | AtExchange | AtOnDone | AtMarkStarted => true | _ => buffered t end.

(** A thread past the test of [holds_]. *)
Definition past_holds (t : Thread) : bool := match pc t with AtExchange | AtOnDone => true | _ => false end.

Record inv (s : System) : Prop := {
  inv_asked : asked s < 2 ^ 31;
  inv_out : 0 <= outstanding s;
  inv_sum : outstanding s + total adds (threads s) <= asked s - total (at_pc AtUnhold) (threads s);
  inv_holds : holds_ (stub s) = outstanding s + total (at_pc AtUnhold) (threads s);
  inv_adds : ∀ t, t ∈ threads s → 0 <= adds t ∧ (adding t = true → called s = false);
  inv_called : ∀ t, t ∈ threads s → past_started t = true → called s = true;
  inv_started : started_ (stub s) = true → called s = true;
  inv_past : ∀ t, t ∈ threads s → past_holds t = true → holds_ (stub s) = 0;
  inv_done : done_ (stub s) = true → called s = true ∧ holds_ (stub s) = 0;
  inv_once : zlen (dones s) + total (at_pc AtOnDone) (threads s) = if done_ (stub s) then 1 else 0;
}.

Lemma elem_insert (l : list Thread) i u t : t ∈ <[i := u]> l → t = u ∨ t ∈ l.
Proof.
  intros [j Hj]%list_elem_of_lookup. apply list_lookup_insert_Some in Hj as [(_ & -> & _)|[_ Hj]]; [by left|].
  right. by eapply list_elem_of_lookup_2.
Qed.

Lemma adding_adds t : adding t = false → adds t = 0.
Proof. unfold adding, adds. by destruct (pc t). Qed.

Lemma int_wrap_small n : - 2 ^ 31 <= n < 2 ^ 31 → int_wrap n = n.
Proof. intros H. unfold int_wrap. rewrite Z.mod_small by lia. lia. Qed.

Lemma reactor_start_inv n : inv (start n).
Proof.
  assert (Ht : ∀ f, f idle = 0 → total f (replicate n idle) = 0).
  { intros f Hf. induction n as [|n IH]; simpl; [done|]. by rewrite IH, Hf. }
  assert (He : ∀ t, t ∈ replicate n idle → t = idle) by (intros t Ht'; by apply elem_of_replicate in Ht' as [-> _]).
  split; simpl; rewrite ?Ht by done; try lia; try done; intros t ->%He; done.
Qed.

Lemma reactor_call_inv m i t s :
  inv s → threads s !! i = Some t → pc t = Idle → allowed m s = true → inv (call m i t s).
Proof.
  intros [H1 H2 H3 H4 H5 H6 H7 H8 H9 H10] Hi Hp Ha.
  assert (Hask : 0 <= asks m ∧ asked s + asks m < 2 ^ 31 ∧ match m with AddHold | AddMultipleHolds _ => called s = false | _ => True end ∧
                 (m = RemoveHold → 0 < outstanding s)).
  { destruct m; simpl in *; bool_to_prop; split_and!; try done; lia. }
  assert (Hin : t ∈ threads s) by (by eapply list_elem_of_lookup_2).
  assert (Hbuf : buffered t = true → called s = true).
  { intros Hb. apply (H6 t Hin). unfold past_started. by rewrite Hp. }
  assert (Hlog : ∀ cbs, forallb (λ c, negb (is_done c)) cbs = true →
            filter (λ c, is_done c = true) (log (stub s) ++ cbs) = dones s).
  { intros cbs Hc. rewrite filter_app. unfold dones. rewrite <- (app_nil_r (filter _ (log (stub s)))) at 2.
    f_equal. induction cbs as [|c cbs IH]; [done|]. simpl in Hc. apply andb_true_iff in Hc as [Hc1 Hc2].
    rewrite filter_cons_False; [by apply IH|]. by destruct (is_done c). }
  assert (Hat : ∀ p, p ≠ Idle → at_pc p t = 0).
  { intros p Hne. unfold at_pc. rewrite Hp. by case_bool_decide; subst. }
  assert (Hadd : adds t = 0) by (unfold adds; by rewrite Hp).
  unfold call. destruct (begin m) as [p cbs] eqn:Hb.
  assert (Hcbs : forallb (λ c, negb (is_done c)) cbs = true) by (destruct m; simplify_eq/=; done).
  split; cbn [asked outstanding called stub threads holds_ done_ started_ log dones].
  - destruct m; simpl in *; lia.
  - destruct m; simpl in *; lia.
  - rewrite !(total_insert _ _ _ _ _ Hi), Hat, Hadd by done.
    destruct m; simplify_eq/=; unfold adds at 2, at_pc at 2; simpl; lia.
  - rewrite !(total_insert _ _ _ _ _ Hi), Hat by done.
    destruct m; simplify_eq/=; unfold at_pc at 2; simpl; lia.
  - intros u [->|Hu]%elem_insert.
    + destruct m; simplify_eq/=; unfold adds, adding; simpl; (split; [lia|done || (intros _; apply Hask)]).
    + destruct (H5 u Hu) as [Hu1 Hu2]. split; [done|]. destruct m; try done.
      simpl in Ha. apply forallb_true_Forall in Ha. rewrite Forall_forall in Ha.
      specialize (Ha u Hu). by destruct (adding u).
  - intros u [->|Hu]%elem_insert.
    + unfold past_started. destruct m; simplify_eq/=; done.
    + intros Hpu. specialize (H6 u Hu Hpu). by destruct m.
  - intros Hs. specialize (H7 Hs). by destruct m.
  - intros u [->|Hu]%elem_insert; [destruct m; simplify_eq/=; done|by apply H8].
  - intros Hd. destruct (H9 Hd). split; [by destruct m|done].
  - unfold dones. cbn [stub log]. rewrite Hlog by done. rewrite (total_insert _ _ _ _ _ Hi), Hat by done.
    destruct m; simplify_eq/=; unfold at_pc at 2; simpl; lia.
Qed.

Section Access.
Context (s : System) (i : nat) (t : Thread).
Context (H : inv s) (Hi : threads s !! i = Some t).

Lemma thread_in : t ∈ threads s.
Proof. by eapply list_elem_of_lookup_2. Qed.

Lemma thread_sum f : (∀ u, u ∈ threads s → 0 <= f u) → 0 <= f t <= total f (threads s).
Proof. intros Hf. split; [apply Hf, thread_in|by eapply total_elem]. Qed.

(** A step that moves a thread and, at most, stores [started_]. *)
Lemma reactor_move_inv p b st :
  adding t = false → pc t ≠ AtUnhold → pc t ≠ AtOnDone →
  adding {| pc := p; buffered := b |} = false → p ≠ AtUnhold → p ≠ AtOnDone →
  holds_ st = holds_ (stub s) → done_ st = done_ (stub s) → log st = log (stub s) →
  (started_ st = true → called s = true) →
  (past_started {| pc := p; buffered := b |} = true → called s = true) →
  (past_holds {| pc := p; buffered := b |} = true → holds_ (stub s) = 0) →
  inv {| s with stub := st; threads := <[i := {| pc := p; buffered := b |}]> (threads s) |}.
Proof.
  intros Ha Hu Ho Ha' Hu' Ho' Eh Ed El Hst Hps Hph. destruct H as [H1 H2 H3 H4 H5 H6 H7 H8 H9 H10].
  assert (Hat : ∀ q, pc t ≠ q → at_pc q t = 0) by (intros q Hq; unfold at_pc; by case_bool_decide).
  assert (Hat' : ∀ q, p ≠ q → at_pc q {| pc := p; buffered := b |} = 0)
    by (intros q Hq; unfold at_pc; by case_bool_decide).
  split; cbn [asked outstanding called stub threads]; rewrite ?Eh, ?Ed;
    rewrite ?(total_insert _ _ _ _ _ Hi), ?(Hat AtUnhold), ?(Hat' AtUnhold), ?(Hat AtOnDone), ?(Hat' AtOnDone),
      ?(adding_adds _ Ha), ?(adding_adds _ Ha') by done; try done; try lia.
  - intros u [->|Hu2]%elem_insert; [|by apply H5]. rewrite (adding_adds _ Ha'), Ha'. done.
  - intros u [->|Hu2]%elem_insert; [done|by apply H6].
  - intros u [->|Hu2]%elem_insert; [done|by apply H8].
  - unfold dones in *. cbn [stub]. rewrite El. lia.
Qed.

(** A thread past the test of [holds_] has seen [started_]. *)
Lemma past_holds_started u : past_holds u = true → past_started u = true.
Proof. unfold past_holds, past_started. by destruct (pc u). Qed.

Lemma reactor_hold_inv n :
  pc t = AtHold n → buffered t = false →
  inv {| s with stub := {| (stub s) with holds_ := int_wrap (holds_ (stub s) + n) |};
                threads := <[i := idle]> (threads s); outstanding := outstanding s + n |}.
Proof.
  intros Hp Hb. destruct H as [H1 H2 H3 H4 H5 H6 H7 H8 H9 H10].
  destruct (H5 t thread_in) as [Hn Hc].
  pose proof (thread_sum adds ltac:(intros u Hu; by apply H5)) as Hsa.
  pose proof (thread_sum (at_pc AtUnhold) ltac:(intros u _; apply at_pc_nonneg)) as Hsu.
  assert (Ea : adds t = n) by (unfold adds; by rewrite Hp).
  assert (Hnc : called s = false) by (apply Hc; unfold adding; by rewrite Hp).
  assert (Eu : at_pc AtUnhold t = 0) by (unfold at_pc; by rewrite Hp).
  assert (Eo : at_pc AtOnDone t = 0) by (unfold at_pc; by rewrite Hp).
  rewrite int_wrap_small by lia.
  split; cbn [asked outstanding called stub threads holds_ done_ started_ log];
    rewrite ?(total_insert _ _ _ _ _ Hi), ?Eu, ?Eo, ?Ea; try done;
    change (adds idle) with 0; change (at_pc AtUnhold idle) with 0; change (at_pc AtOnDone idle) with 0; try lia.
  - intros u [->|Hu]%elem_insert; [done|by apply H5].
  - intros u [->|Hu]%elem_insert; [done|by apply H6].
  - intros u [->|Hu]%elem_insert Hpu; [done|]. apply past_holds_started in Hpu.
    rewrite (H6 u Hu Hpu) in Hnc. done.
  - intros Hd. destruct (H9 Hd). congruence.
  - unfold dones in *. cbn [stub log]. lia.
Qed.

Lemma reactor_unhold_inv :
  pc t = AtUnhold → buffered t = false →
  inv {| s with stub := {| (stub s) with holds_ := int_wrap (holds_ (stub s) - 1) |};
                threads := <[i := {| pc := AtLoadStarted; buffered := false |}]> (threads s) |}.
Proof.
  intros Hp Hb. destruct H as [H1 H2 H3 H4 H5 H6 H7 H8 H9 H10].
  pose proof (thread_sum adds ltac:(intros u Hu; by apply H5)) as Hsa.
  pose proof (thread_sum (at_pc AtUnhold) ltac:(intros u _; apply at_pc_nonneg)) as Hsu.
  assert (Ea : adds t = 0) by (unfold adds; by rewrite Hp).
  assert (Eu : at_pc AtUnhold t = 1) by (unfold at_pc; by rewrite Hp).
  assert (Eo : at_pc AtOnDone t = 0) by (unfold at_pc; by rewrite Hp).
  rewrite int_wrap_small by lia. set (t' := {| pc := AtLoadStarted; buffered := false |}).
  split; cbn [asked outstanding called stub threads holds_ done_ started_ log];
    rewrite ?(total_insert _ _ _ _ _ Hi), ?Eu, ?Eo, ?Ea; try done;
    change (adds t') with 0; change (at_pc AtUnhold t') with 0; change (at_pc AtOnDone t') with 0; try lia.
  - intros u [->|Hu]%elem_insert; [done|by apply H5].
  - intros u [->|Hu]%elem_insert; [done|by apply H6].
  - intros u [->|Hu]%elem_insert Hpu; [done|]. specialize (H8 u Hu Hpu). lia.
  - intros Hd. destruct (H9 Hd). lia.
  - unfold dones in *. cbn [stub log]. lia.
Qed.

Lemma reactor_exchange_inv :
  pc t = AtExchange → buffered t = false →
  inv {| s with stub := {| (stub s) with done_ := true |};
                threads := <[i := {| pc := if done_ (stub s) then Idle else AtOnDone; buffered := false |}]> (threads s) |}.
Proof.
  intros Hp Hb. destruct H as [H1 H2 H3 H4 H5 H6 H7 H8 H9 H10].
  assert (Hc : called s = true) by (apply (H6 t thread_in); unfold past_started; by rewrite Hp).
  assert (Hz : holds_ (stub s) = 0) by (apply (H8 t thread_in); unfold past_holds; by rewrite Hp).
  assert (Ea : adds t = 0) by (unfold adds; by rewrite Hp).
  assert (Eu : at_pc AtUnhold t = 0) by (unfold at_pc; by rewrite Hp).
  assert (Eo : at_pc AtOnDone t = 0) by (unfold at_pc; by rewrite Hp).
  set (t' := {| pc := if done_ (stub s) then Idle else AtOnDone; buffered := false |}).
  assert (Ea' : adds t' = 0) by (unfold adds, t'; simpl; by destruct (done_ _)).
  assert (Eu' : at_pc AtUnhold t' = 0) by (unfold at_pc, t'; simpl; by destruct (done_ _)).
  split; cbn [asked outstanding called stub threads holds_ done_ started_ log];
    rewrite ?(total_insert _ _ _ _ _ Hi), ?Eu, ?Eo, ?Ea, ?Ea', ?Eu'; try done; try lia.
  - intros u [->|Hu]%elem_insert; [|by apply H5]. rewrite Ea'. split; [done|].
    unfold adding, t'. simpl. by destruct (done_ _).
  - unfold dones, at_pc, t' in *. cbn [stub log pc]. destruct (done_ (stub s)); simpl; lia.
Qed.

Lemma reactor_on_done_inv :
  pc t = AtOnDone →
  inv {| s with stub := {| (stub s) with log := log (stub s) ++ [OnDone CallbackUnimplementedStatus] |};
                threads := <[i := {| pc := Idle; buffered := buffered t |}]> (threads s) |}.
Proof.
  intros Hp. destruct H as [H1 H2 H3 H4 H5 H6 H7 H8 H9 H10].
  assert (Hc : called s = true) by (apply (H6 t thread_in); unfold past_started; by rewrite Hp).
  assert (Ea : adds t = 0) by (unfold adds; by rewrite Hp).
  assert (Eu : at_pc AtUnhold t = 0) by (unfold at_pc; by rewrite Hp).
  assert (Eo : at_pc AtOnDone t = 1) by (unfold at_pc; by rewrite Hp).
  set (t' := {| pc := Idle; buffered := buffered t |}).
  split; cbn [asked outstanding called stub threads holds_ done_ started_ log];
    rewrite ?(total_insert _ _ _ _ _ Hi), ?Eu, ?Eo, ?Ea; try done;
    change (adds t') with 0; change (at_pc AtUnhold t') with 0; change (at_pc AtOnDone t') with 0; try lia.
  - intros u [->|Hu]%elem_insert; [done|by apply H5].
  - intros u [->|Hu]%elem_insert; [done|by apply H8].
  - unfold dones in *. cbn [stub log]. rewrite filter_app, filter_cons_True by done.
    rewrite filter_nil, zlen_app, zlen_cons, zlen_nil. lia.
Qed.

Lemma reactor_access_inv weak t' st :
  access weak t (stub s) = Some (t', st) →
  inv {| s with stub := st; threads := <[i := t']> (threads s);
                outstanding := match pc t with AtHold n => outstanding s + n | _ => outstanding s end |}.
Proof.
  intros Hacc. unfold access in Hacc. pose proof (inv_called s H t thread_in) as Hc.
  pose proof (inv_past s H t thread_in) as Hz. pose proof (inv_started s H) as Hs.
  pose proof reactor_hold_inv as Ihold. pose proof reactor_unhold_inv as Iunhold. pose proof reactor_exchange_inv as Iexch.
  pose proof reactor_on_done_inv as Idone. pose proof reactor_move_inv as Imove.
  unfold past_started, past_holds, adding in *. destruct (pc t) eqn:Hp; [done| | | | | | |].
  - destruct weak; injection Hacc as <- <-; apply Imove; try done; simpl; auto.
  - destruct (buffered t) eqn:Hb; [done|]. injection Hacc as <- <-. by apply Ihold.
  - destruct (buffered t) eqn:Hb; [done|]. injection Hacc as <- <-. by apply Iunhold.
  - injection Hacc as <- <-. destruct (started_ (stub s) || buffered t) eqn:Hsb; apply Imove; try done; simpl; auto.
    apply orb_true_iff in Hsb as [?|?]; auto.
  - injection Hacc as <- <-. destruct (Z.leb_spec (holds_ (stub s)) 0); apply Imove; try done; simpl; auto.
    intros _. pose proof (inv_holds s H). pose proof (inv_out s H).
    pose proof (thread_sum (at_pc AtUnhold) ltac:(intros u _; apply at_pc_nonneg)). lia.
  - destruct (buffered t) eqn:Hb; [done|]. injection Hacc as <- <-. by apply Iexch.
  - injection Hacc as <- <-. by apply Idone.
Qed.

Lemma reactor_flush_inv :
  buffered t = true →
  inv {| s with stub := {| (stub s) with started_ := true |};
                threads := <[i := {| t with buffered := false |}]> (threads s) |}.
Proof.
  intros Hb. destruct H as [H1 H2 H3 H4 H5 H6 H7 H8 H9 H10].
  pose proof (H6 t thread_in) as Hc. pose proof (H5 t thread_in) as Ht. pose proof (H8 t thread_in) as Hz.
  assert (Hcalled : called s = true) by (apply Hc; unfold past_started; by destruct (pc t)).
  set (t' := {| t with buffered := false |}).
  assert (Ea : ∀ p, at_pc p t' = at_pc p t) by done. assert (Ed : adds t' = adds t) by done.
  split; cbn [asked outstanding called stub threads holds_ done_ started_ log];
    rewrite ?(total_insert _ _ _ _ _ Hi), ?Ea, ?Ed; try done; try lia.
  - intros u [->|Hu]%elem_insert; [done|by apply H5].
  - intros u [->|Hu]%elem_insert; [done|by apply H8].
  - unfold dones in *. cbn [stub log]. lia.
Qed.

End Access.

Lemma reactor_step_inv weak s s' : inv s → step weak s s' → inv s'.
Proof.
  intros H [m i t Hi Hp Ha|i t t' st Hi Hacc|i t Hi Hb].
  - by apply reactor_call_inv.
  - by eapply reactor_access_inv.
  - by apply reactor_flush_inv.
Qed.

Lemma reactor_run_inv weak n s : rtc (step weak) (start n) s → inv s.
Proof.
  intros Hrun. pose proof (reactor_start_inv n) as H0. induction Hrun as [|s1 s2 s3 Hs _ IH]; [done|].
  apply IH. by eapply reactor_step_inv.
Qed.

(** *** Sequential consistency *)

(** A thread that will test whether [OnDone] is due. *)
Definition testing (t : Thread) : Z :=
  match pc t with AtLoadStarted | AtLoadHolds | AtExchange => 1 | _ => 0 end.

Record live (s : System) : Prop := {
  live_buffer : ∀ t, t ∈ threads s → buffered t = false;
  live_called : called s = true → started_ (stub s) = true ∨ 0 < total (at_pc AtMarkStarted) (threads s);
  live_due : started_ (stub s) = true → holds_ (stub s) <= 0 → done_ (stub s) = false →
             0 < total testing (threads s);
}.

Lemma testing_nonneg t : 0 <= testing t.
Proof. unfold testing. destruct (pc t); lia. Qed.

Lemma start_live n : live (start n).
Proof. split; simpl; try done. by intros t [-> _]%elem_of_replicate. Qed.

Lemma call_live m i t s : live s → threads s !! i = Some t → pc t = Idle → live (call m i t s).
Proof.
  intros [L1 L2 L3] Hi Hp. assert (Hin : t ∈ threads s) by (by eapply list_elem_of_lookup_2).
  assert (Et : testing t = 0) by (unfold testing; by rewrite Hp).
  assert (Em : at_pc AtMarkStarted t = 0) by (unfold at_pc; by rewrite Hp).
  unfold call. destruct (begin m) as [p cbs] eqn:Hb. split; cbn [stub threads called started_ holds_ done_].
  - intros u [->|Hu]%elem_insert; [exact (L1 t Hin)|by apply L1].
  - rewrite (total_insert _ _ _ _ _ Hi), Em.
    pose proof (total_nonneg (at_pc AtMarkStarted) (threads s) ltac:(intros; apply at_pc_nonneg)).
    pose proof (at_pc_nonneg AtMarkStarted {| t with pc := p |}).
    destruct m; try (intros Hc; destruct (L2 Hc); [by left|right; lia]).
    intros _. right. simplify_eq/=. unfold at_pc at 2. simpl. lia.
  - rewrite (total_insert _ _ _ _ _ Hi), Et. pose proof (testing_nonneg {| t with pc := p |}).
    intros H1 H2 H3. specialize (L3 H1 H2 H3). lia.
Qed.

Lemma access_live i t t' st s :
  inv s → live s → threads s !! i = Some t → access false t (stub s) = Some (t', st) →
  live {| s with stub := st; threads := <[i := t']> (threads s);
                 outstanding := match pc t with AtHold n => outstanding s + n | _ => outstanding s end |}.
Proof.
  intros HI [L1 L2 L3] Hi Hacc. assert (Hin : t ∈ threads s) by (by eapply list_elem_of_lookup_2).
  pose proof (total_nonneg testing (threads s) ltac:(intros; apply testing_nonneg)) as Hn.
  pose proof (total_elem testing _ _ _ ltac:(intros; apply testing_nonneg) Hi) as Ht.
  pose proof (total_elem (at_pc AtMarkStarted) _ _ _ ltac:(intros; apply at_pc_nonneg) Hi) as Hm.
  assert (Hb : buffered t' = false).
  { specialize (L1 t Hin). unfold access in Hacc. destruct (pc t); rewrite ?L1 in Hacc; simplify_eq/=; done. }
  split; cbn [stub threads called].
  - intros u [->|Hu]%elem_insert; [done|by apply L1].
  - rewrite (total_insert _ _ _ _ _ Hi). intros Hc. destruct (L2 Hc) as [Hs|Hpos].
    + left. unfold access in Hacc. destruct (pc t); rewrite ?(L1 t Hin) in Hacc; simplify_eq/=; done.
    + unfold access in Hacc. destruct (pc t) eqn:Hp; rewrite ?(L1 t Hin) in Hacc; simplify_eq/=; auto;
        right; unfold at_pc in *; simpl in *; rewrite ?Hp in *; simpl in *; repeat case_test; simpl; lia.
  - rewrite (total_insert _ _ _ _ _ Hi). intros H1 H2 H3. unfold access in Hacc.
    unfold testing in Ht |- * at 2 3. destruct (pc t) eqn:Hp; rewrite ?(L1 t Hin) in Hacc; simplify_eq/=; try lia.
    + (* a hold is added only before [StartCall] *)
      destruct (inv_adds s HI t Hin) as [_ Hadd]. unfold adding in Hadd. rewrite Hp in Hadd.
      rewrite (inv_started s HI H1) in Hadd. by specialize (Hadd eq_refl).
    + rewrite H1. simpl. specialize (L3 H1 H2 H3). lia.
    + destruct (Z.leb_spec (holds_ (stub s)) 0); [|lia]. specialize (L3 H1 H2 H3). simpl. lia.
    + specialize (L3 H1 H2 H3). lia.
Qed.

Lemma step_live s s' : inv s → live s → step false s s' → live s'.
Proof.
  intros HI HL [m i t Hi Hp Ha|i t t' st Hi Hacc|i t Hi Hb].
  - by apply call_live.
  - by eapply access_live.
  - exfalso. pose proof (live_buffer s HL t ltac:(by eapply list_elem_of_lookup_2)). congruence.
Qed.

Lemma run_live n s : rtc (step false) (start n) s → live s.
Proof.
  intros Hrun. pose proof (reactor_start_inv n) as H0. pose proof (start_live n) as L0.
  induction Hrun as [|s1 s2 s3 Hs _ IH]; [done|].
  apply IH; [by eapply reactor_step_inv|by eapply step_live].
Qed.

Lemma quiescent_total f s : f idle = 0 → quiescent s → total f (threads s) = 0.
Proof.
  intros Hf. unfold quiescent. induction 1 as [|t l -> _ IH]; [done|]. simpl. lia.
Qed.

(** *** What [OnDone] carries *)

Lemma done_status weak n s :
  rtc (step weak) (start n) s →
  Forall (λ c, is_done c = true → c = OnDone CallbackUnimplementedStatus) (log (stub s)).
Proof.
  intros Hrun. assert (H0 : Forall (λ c, is_done c = true → c = OnDone CallbackUnimplementedStatus)
                              (log (stub (start n)))) by constructor.
  induction Hrun as [|s1 s2 s3 Hs _ IH]; [done|]. apply IH. clear IH.
  destruct Hs as [m i t Hi Hp Ha|i t t' st Hi Hacc|i t Hi Hb].
  - unfold call. destruct m; simpl; apply Forall_app; (split; [done|]); repeat constructor; done.
  - simpl. unfold access in Hacc. destruct (pc t); repeat case_test_in Hacc; simplify_eq/=; try done.
    apply Forall_app. split; [done|]. by repeat constructor.
  - done.
Qed.

(** ** Properties *)

(** C23: whatever threads do, in whatever order, and even if stores become visible late,
    [OnDone] is called at most once, always with UNIMPLEMENTED, and never early: when it
    is called, [StartCall] has been called, every hold asked for has been given back,
    no removal is still under way, and the hold count is zero. *)
Theorem OnDone_once_and_not_early (weak : bool) (n : nat) (s : System) :
  rtc (step weak) (start n) s →
  dones s = [] ∨
  (dones s = [OnDone CallbackUnimplementedStatus] ∧ called s = true ∧ holds_ (stub s) = 0 ∧ outstanding s = 0 ∧
   ∀ t, t ∈ threads s → pc t ≠ AtUnhold).
Proof.
  intros Hrun. pose proof (done_status _ _ _ Hrun) as Hst. apply reactor_run_inv in Hrun as HI.
  assert (Hlen : zlen (dones s) <= 1 ∧ (dones s ≠ [] → done_ (stub s) = true)).
  { pose proof (inv_once s HI) as Ho. pose proof (zlen_nonneg (dones s)).
    pose proof (total_nonneg (at_pc AtOnDone) (threads s) ltac:(intros; apply at_pc_nonneg)).
    destruct (done_ (stub s)); [split; [lia|done]|]. split; [lia|]. intros []. apply zlen_nil_inv. lia. }
  destruct Hlen as [Hlen Hd]. destruct (dones s) as [|c [|c' l]] eqn:Hds; [by left| |].
  2: { rewrite !zlen_cons in Hlen. pose proof (zlen_nonneg l). lia. }
  right. destruct (inv_done s HI (Hd ltac:(done))) as [Hc Hz].
  pose proof (inv_holds s HI) as Hh. pose proof (inv_out s HI) as Hout.
  pose proof (total_nonneg (at_pc AtUnhold) (threads s) ltac:(intros; apply at_pc_nonneg)).
  split_and!; [|done|done|lia|].
  - f_equal. assert (c ∈ dones s) as [Hc1 Hc2]%list_elem_of_filter by (rewrite Hds; left).
    rewrite Forall_forall in Hst. by apply Hst.
  - intros t [i Hi]%list_elem_of_lookup Hp.
    pose proof (total_elem (at_pc AtUnhold) _ _ _ ltac:(intros; apply at_pc_nonneg) Hi) as Ht.
    unfold at_pc in Ht at 1. rewrite bool_decide_eq_true_2 in Ht by done. lia.
Qed.

(** C39: with sequentially consistent accesses [OnDone] is not lost either: once every
    method has returned, [StartCall] was called and every hold was given back, [OnDone]
    has been called exactly once, whichever of the threads came last. *)
Theorem OnDone_delivered (n : nat) (s : System) :
  rtc (step false) (start n) s → quiescent s → called s = true → outstanding s = 0 →
  dones s = [OnDone CallbackUnimplementedStatus].
Proof.
  intros Hrun Hq Hc Ho. pose proof (reactor_run_inv _ _ _ Hrun) as HI. pose proof (run_live _ _ Hrun) as HL.
  assert (Hstart : started_ (stub s) = true).
  { destruct (live_called s HL Hc) as [|Hm]; [done|]. rewrite quiescent_total in Hm by done. lia. }
  assert (Hh : holds_ (stub s) = 0).
  { rewrite (inv_holds s HI), quiescent_total by done. lia. }
  assert (Hd : done_ (stub s) = true).
  { destruct (done_ (stub s)) eqn:Hd; [done|]. pose proof (live_due s HL Hstart ltac:(lia) Hd) as Ht.
    rewrite quiescent_total in Ht by done. lia. }
  pose proof (inv_once s HI) as Hone. rewrite Hd, quiescent_total in Hone by done.
  pose proof (done_status _ _ _ Hrun) as Hst.
  destruct (dones s) as [|c [|c' l]] eqn:Hds; [discriminate Hone| |].
  - f_equal. assert (c ∈ dones s) as [Hc1 Hc2]%list_elem_of_filter by (rewrite Hds; left).
    rewrite Forall_forall in Hst. by apply Hst.
  - rewrite !zlen_cons in Hone. pose proof (zlen_nonneg l). lia.
Qed.

(** A schedule that loses [OnDone]. *)
Definition losing_schedule : list Act :=
  [Call AddHold 0; Access 0;
   Call StartCall 0; Access 0 (* the store, buffered *); Access 0 (* sees it *); Access 0 (* sees one hold *);
   Call RemoveHold 1; Access 1 (* no hold left *); Access 1 (* sees no start *); Flush 0].

Definition losing_end : System := default (start 2) (schedule true losing_schedule (start 2)).

#[export] Instance Thread_eq_decision : EqDecision Thread.
Proof. solve_decision. Defined.

#[export] Instance quiescent_dec s : Decision (quiescent s).
Proof. unfold quiescent. apply _. Defined.

(** C22: with the acquire and release accesses the code uses, [OnDone] can be lost although
    the callers keep to the rules: one thread adds a hold and calls [StartCall] while
    another calls [RemoveHold]; the store of [started_] becomes visible after the first
    thread has read the hold count and the second has read [started_], so each leaves
    the delivery to the other, everything returns, and [OnDone] is never called. *)
Theorem release_store_loses_OnDone :
  ∃ s, rtc (step true) (start 2) s ∧ quiescent s ∧ called s = true ∧ started_ (stub s) = true ∧
       holds_ (stub s) = 0 ∧ outstanding s = 0 ∧ dones s = [].
Proof.
  assert (Hs : schedule true losing_schedule (start 2) = Some losing_end) by (vm_compute; reflexivity).
  exists losing_end. split; [by eapply schedule_run|].
  split_and!; [apply (bool_decide_unpack _)|..]; vm_compute; reflexivity.
Qed.

End Reactor.

(** ** Witnesses *)

Module ReactorWitness.
Import Grpc Reactor.

(** One thread adds a hold, starts and removes it. *)
Definition ex_schedule : list Act :=
  [Call AddHold 0; Access 0; Call StartCall 0; Access 0; Access 0; Access 0; Call RemoveHold 0] ++
  replicate 5 (Access 0).

Definition ex_end : System := default (start 1) (schedule false ex_schedule (start 1)).

Lemma ex_end_run : rtc (step false) (start 1) ex_end.
Proof.
  assert (Hs : schedule false ex_schedule (start 1) = Some ex_end) by (vm_compute; reflexivity).
  by eapply schedule_run.
Qed.

Lemma ex_reactor_run :
  ∃ s, rtc (step false) (start 1) s ∧ quiescent s ∧ called s = true ∧ outstanding s = 0.
Proof.
  exists ex_end. split; [apply ex_end_run|].
  split_and!; [apply (bool_decide_unpack _)|..]; vm_compute; reflexivity.
Qed.

Lemma OnDone_once_and_not_early_witness :
  dones ex_end = [OnDone CallbackUnimplementedStatus] ∧ called ex_end = true ∧ holds_ (stub ex_end) = 0 ∧
  outstanding ex_end = 0 ∧ ∀ t, t ∈ threads ex_end → pc t ≠ AtUnhold.
Proof.
  destruct (OnDone_once_and_not_early false 1 ex_end ex_end_run) as [H|H]; [|exact H].
  exfalso. vm_compute in H. discriminate H.
Defined.

Lemma OnDone_delivered_witness :
  ∃ s, rtc (step false) (start 1) s ∧ dones s = [OnDone CallbackUnimplementedStatus].
Proof.
  destruct ex_reactor_run as (s & H1 & H2 & H3 & H4). exists s. split; [exact H1|].
  apply (OnDone_delivered 1 s H1 H2 H3 H4).
Defined.

End ReactorWitness.
