(* ===== verification/Service.v ===== *)
(** * Methods and services of generated code

    [include/grpcpp/impl/rpc_method.h], [impl/rpc_service_method.h], [impl/service_type.h]
    and [support/stub_options.h]: the descriptors generated stubs make, and the container
    in which the constructors of generated services leave the handlers they allocate.
    No server runs them; what matters is that they are owned.  Handlers are addresses on
    a heap that holds the live ones; deleting a dead one is undefined behaviour, the
    result [None]. *)

From Stdlib Require Import ZArith Lia.
From Stdlib Require Import Strings.String Strings.Byte.
From stdpp Require Import base numbers list gmap.
From S2P Require Import Prelude.

Local Open Scope Z_scope.

(** ** Descriptors *)

Inductive RpcType : Type := NORMAL_RPC | CLIENT_STREAMING | SERVER_STREAMING | BIDI_STREAMING.

Record RpcMethod : Type := {
  name_ : bytes;
  suffix_for_stats_ : option bytes;     (* None is the null pointer *)
  method_type_ : RpcType;
}.

(** The two constructors; the second ignores the channel. *)
Definition new_RpcMethod (name : bytes) (type : RpcType) : RpcMethod :=
  {| name_ := name; suffix_for_stats_ := None; method_type_ := type |}.

Definition new_RpcMethod_for {Channel : Type} (name : bytes) (suffix : option bytes) (type : RpcType)
    (channel : Channel) : RpcMethod :=
  {| name_ := name; suffix_for_stats_ := suffix; method_type_ := type |}.

Definition SetMethodType (type : RpcType) (m : RpcMethod) : RpcMethod := {| m with method_type_ := type |}.

Record StubOptions : Type := { stub_suffix_for_stats_ : option bytes }.

Definition default_stub_options : StubOptions := {| stub_suffix_for_stats_ := None |}.
Definition new_StubOptions (suffix : bytes) : StubOptions := {| stub_suffix_for_stats_ := Some suffix |}.
Definition set_suffix_for_stats (suffix : option bytes) (o : StubOptions) : StubOptions :=
  {| stub_suffix_for_stats_ := suffix |}.

Module Service.

(** ** The heap of handlers *)

Abbreviation Heap := (gset Z).

(** [delete p] for a pointer that is not null. *)
Definition delete_handler (p : Z) (live : Heap) : option Heap :=
  if decide (p ∈ live) then Some (live ∖ {[p]}) else None.

(** [delete] of what a [unique_ptr] holds. *)
Definition delete_owned (p : option Z) (live : Heap) : option Heap :=
  match p with None => Some live | Some p => delete_handler p live end.

(** ** [RpcServiceMethod] *)

Record RpcServiceMethod : Type := { method : RpcMethod; handler_ : option Z }.

Definition new_RpcServiceMethod (name : bytes) (type : RpcType) (handler : option Z) : RpcServiceMethod :=
  {| method := new_RpcMethod name type; handler_ := handler |}.

(** [handler_.reset(handler)]: the new pointer is stored, then the old one deleted. *)
Definition method_SetHandler (handler : option Z) (m : RpcServiceMethod) (live : Heap)
    : option (RpcServiceMethod * Heap) :=
  live ← delete_owned (handler_ m) live;
  Some ({| m with handler_ := handler |}, live).

(** ** [Service] *)

Record Service : Type := { methods_ : list RpcServiceMethod }.

Definition new_service : Service := {| methods_ := [] |}.

Definition AddMethod (m : RpcServiceMethod) (s : Service) : Service := {| methods_ := methods_ s ++ [m] |}.

(** The marks that have no effect. *)
Definition MarkMethodAsync (index : Z) (s : Service) : Service := s.
Definition MarkMethodRaw (index : Z) (s : Service) : Service := s.
Definition MarkMethodGeneric (index : Z) (s : Service) : Service := s.

Definition bad_index (index : Z) (s : Service) : bool := (index <? 0) || (zlen (methods_ s) <=? index).

Definition SetHandler (index : Z) (handler : option Z) (s : Service) (live : Heap) : option (Service * Heap) :=
  if bad_index index s then live ← delete_owned handler live; Some (s, live)
  else
    m ← methods_ s !! Z.to_nat index;
    '(m, live) ← method_SetHandler handler m live;
    Some ({| methods_ := <[Z.to_nat index := m]> (methods_ s) |}, live).

Definition MarkMethodCallback := SetHandler.
Definition MarkMethodRawCallback := SetHandler.
Definition MarkMethodStreamed := SetHandler.

Definition GetHandler (index : Z) (s : Service) : option Z :=
  if bad_index index s then None else m ← methods_ s !! Z.to_nat index; handler_ m.

(** The destructor: the elements of the vector in turn, each with its handler. *)
Fixpoint destroy_methods (ms : list RpcServiceMethod) (live : Heap) : option Heap :=
  match ms with
  | [] => Some live
  | m :: ms => live ← delete_owned (handler_ m) live; destroy_methods ms live
  end.

Definition destroy (s : Service) (live : Heap) : option Heap := destroy_methods (methods_ s) live.

(** What the constructor of a generated service does: each handler is made with [new]
    and handed over at once. *)
Inductive ServiceOp : Type :=
  | OpAdd (name : bytes) (type : RpcType) (handler : Z)
  | OpAddBare (name : bytes) (type : RpcType)
  | OpMarkAsync (index : Z)
  | OpMarkCallback (index : Z) (handler : Z)
  | OpMarkStreamed (index : Z) (handler : Z).

(** [new]: an address that is not in use. *)
Definition op_new (op : ServiceOp) : option Z :=
  match op with
  | OpAdd _ _ p | OpMarkCallback _ p | OpMarkStreamed _ p => Some p
  | OpAddBare _ _ | OpMarkAsync _ => None
  end.

Definition fresh (op : ServiceOp) (live : Heap) : Prop := ∀ p, op_new op = Some p → p ∉ live.

Definition run_op (op : ServiceOp) (s : Service) (live : Heap) : option (Service * Heap) :=
  match op with
  | OpAdd name type p => Some (AddMethod (new_RpcServiceMethod name type (Some p)) s, {[p]} ∪ live)
  | OpAddBare name type => Some (AddMethod (new_RpcServiceMethod name type None) s, live)
  | OpMarkAsync i => Some (MarkMethodAsync i s, live)
  | OpMarkCallback i p => MarkMethodCallback i (Some p) s ({[p]} ∪ live)
  | OpMarkStreamed i p => MarkMethodStreamed i (Some p) s ({[p]} ∪ live)
  end.

Inductive service_run : Service → Heap → Prop :=
  | run_start : service_run new_service ∅
  | run_step s live op s' live' :
      service_run s live → fresh op live → run_op op s live = Some (s', live') → service_run s' live'.

End Service.

(** ** Ownership *)

Section Ownership.
Import Service.

(** The handlers the methods hold, in order. *)
Definition held (s : Service) : list Z := omap handler_ (methods_ s).

Definition owner_inv (s : Service) (live : Heap) : Prop := NoDup (held s) ∧ live = list_to_set (held s).

Lemma held_split (s : Service) i m :
  methods_ s !! i = Some m →
  held s = omap handler_ (take i (methods_ s)) ++ option_list (handler_ m) ++ omap handler_ (drop (S i) (methods_ s)).
Proof.
  intros H. unfold held. rewrite <- (take_drop_middle (methods_ s) i m H) at 1.
  rewrite omap_app. simpl. by destruct (handler_ m).
Qed.

Lemma held_insert (s : Service) i m m' :
  methods_ s !! i = Some m →
  held {| methods_ := <[i := m']> (methods_ s) |} =
  omap handler_ (take i (methods_ s)) ++ option_list (handler_ m') ++ omap handler_ (drop (S i) (methods_ s)).
Proof.
  intros H. unfold held. simpl. rewrite insert_take_drop by (by eapply lookup_lt_Some).
  rewrite omap_app. simpl. by destruct (handler_ m').
Qed.

Lemma bad_index_lookup index (s : Service) :
  bad_index index s = false → ∃ m, methods_ s !! Z.to_nat index = Some m.
Proof.
  unfold bad_index, zlen. intros [H1 H2]%orb_false_iff. apply Z.ltb_ge in H1. apply Z.leb_gt in H2.
  apply lookup_lt_is_Some. lia.
Qed.

(** Deleting the handler in the middle of the owned ones. *)
Lemma delete_middle (l1 l2 : list Z) (o : option Z) (p : Z) :
  NoDup (l1 ++ option_list o ++ l2) → p ∉ l1 ++ option_list o ++ l2 →
  delete_owned o ({[p]} ∪ list_to_set (l1 ++ option_list o ++ l2)) = Some ({[p]} ∪ list_to_set (l1 ++ l2)) ∧
  NoDup (l1 ++ p :: l2).
Proof.
  intros Hnd Hp. apply NoDup_app in Hnd as (Hn1 & Hd1 & (Hno & Hd2 & Hn2)%NoDup_app). split.
  - destruct o as [q|]; [|done]. simpl in *. unfold delete_handler. rewrite decide_True by set_solver. f_equal.
    assert (q ∉ l1) by (intros Hq; apply (Hd1 q Hq); set_solver).
    assert (q ∉ l2) by (apply Hd2; set_solver). set_solver.
  - apply NoDup_app. split; [done|]. split; [|apply NoDup_cons; split; [set_solver|done]].
    intros x Hx [->|Hx2]%elem_of_cons; [set_solver|]. apply (Hd1 x Hx). set_solver.
Qed.

Lemma GetHandler_insert index (s : Service) m j :
  bad_index index s = false →
  GetHandler j {| methods_ := <[Z.to_nat index := m]> (methods_ s) |} =
    if bool_decide (j = index) then handler_ m else GetHandler j s.
Proof.
  intros Hb. pose proof (bad_index_lookup index s Hb) as [m0 Hm]. unfold GetHandler, bad_index, zlen. simpl.
  rewrite length_insert. case_bool_decide as Hj.
  - subst j. unfold bad_index, zlen in Hb. rewrite Hb.
    by rewrite list_lookup_insert_eq by (by eapply lookup_lt_Some).
  - destruct (_ || _) eqn:Hj2; [done|]. apply orb_false_iff in Hj2 as [?%Z.ltb_ge ?].
    unfold bad_index in Hb. apply orb_false_iff in Hb as [?%Z.ltb_ge ?].
    rewrite list_lookup_insert_ne; [done|]. lia.
Qed.

(** Handing over a new handler keeps the ownership, on a bad index too. *)
Lemma SetHandler_inv index p s live :
  owner_inv s live → p ∉ live →
  ∃ s' live', SetHandler index (Some p) s ({[p]} ∪ live) = Some (s', live') ∧ owner_inv s' live' ∧
    ∀ j, GetHandler j s' = if bool_decide (j = index) && negb (bad_index index s) then Some p else GetHandler j s.
Proof.
  intros [Hnd ->] Hp. unfold SetHandler. destruct (bad_index index s) eqn:Hb.
  - exists s, (list_to_set (held s)). cbn [delete_owned]. unfold delete_handler. rewrite decide_True by set_solver.
    simpl. split_and!; [|done|].
    + do 2 f_equal. set_solver.
    + intros j. by rewrite andb_false_r.
  - destruct (bad_index_lookup index s Hb) as [m Hm]. rewrite Hm. cbn [mbind option_bind].
    unfold method_SetHandler. rewrite not_elem_of_list_to_set in Hp. rewrite (held_split s _ m Hm) in Hnd, Hp |- *.
    destruct (delete_middle _ _ _ p Hnd Hp) as [-> Hnd']. cbn [mbind option_bind].
    set (m' := {| m with handler_ := Some p |}). exists {| methods_ := <[Z.to_nat index := m']> (methods_ s) |}.
    eexists. split; [reflexivity|]. split.
    + unfold owner_inv. rewrite (held_insert s _ m m' Hm). split; [exact Hnd'|]. simpl. set_solver.
    + intros j. rewrite andb_true_r. by apply GetHandler_insert.
Qed.

Lemma held_add s m : held (AddMethod m s) = held s ++ option_list (handler_ m).
Proof. unfold held. simpl. rewrite omap_app. simpl. by destruct (handler_ m). Qed.

Lemma run_op_inv op s live :
  owner_inv s live → fresh op live →
  ∃ s' live', run_op op s live = Some (s', live') ∧ owner_inv s' live'.
Proof.
  intros Hi Hf. destruct op as [name type p|name type|i|i p|i p]; simpl.
  - eexists _, _. split; [reflexivity|]. destruct Hi as [Hnd ->]. specialize (Hf p eq_refl).
    unfold owner_inv. rewrite held_add. simpl. split; [|set_solver].
    rewrite not_elem_of_list_to_set in Hf. apply NoDup_app. split; [done|]. split; [set_solver|apply NoDup_singleton].
  - eexists _, _. split; [reflexivity|]. unfold owner_inv. rewrite held_add. by rewrite app_nil_r.
  - by eexists _, _.
  - destruct (SetHandler_inv i p s live Hi (Hf p eq_refl)) as (s' & live' & H & ? & _). by exists s', live'.
  - destruct (SetHandler_inv i p s live Hi (Hf p eq_refl)) as (s' & live' & H & ? & _). by exists s', live'.
Qed.

Lemma service_run_inv s live : service_run s live → owner_inv s live.
Proof.
  induction 1 as [|s live op s' live' _ IH Hf Hop]; [split; [constructor|done]|].
  destruct (run_op_inv op s live IH Hf) as (s2 & live2 & H & ?). rewrite H in Hop. by injection Hop as <- <-.
Qed.

Lemma destroy_methods_spec ms live :
  NoDup (omap handler_ ms) → list_to_set (omap handler_ ms) ⊆ live →
  destroy_methods ms live = Some (live ∖ list_to_set (omap handler_ ms)).
Proof.
  revert live. induction ms as [|m ms IH]; intros live Hnd Hsub; simpl; [f_equal; set_solver|].
  simpl in Hnd, Hsub. destruct (handler_ m) as [p|]; simpl in *; [|by apply IH].
  apply NoDup_cons in Hnd as [Hp Hnd]. unfold delete_handler. rewrite decide_True by set_solver. simpl.
  rewrite IH; [f_equal; set_solver|done|]. set_solver.
Qed.

(** C40: a generated service never leaks a handler and never deletes one twice: after any
    sequence of [AddMethod] and marks, with good and bad indices, the live handlers are
    exactly those the methods hold, each held once; every further operation succeeds
    (no dead handler is deleted), a mark with a valid index sets that method's handler
    and no other, one with a bad index only deletes what it was given; and the destructor
    deletes all handlers. *)
Theorem service_owns_handlers (s : Service) (live : Heap) :
  service_run s live →
  NoDup (held s) ∧ live = list_to_set (held s) ∧
  (∀ op, fresh op live → is_Some (run_op op s live)) ∧
  (∀ index p, p ∉ live →
     ∃ s' live', MarkMethodCallback index (Some p) s ({[p]} ∪ live) = Some (s', live') ∧
       ∀ j, GetHandler j s' =
         if bool_decide (j = index ∧ 0 <= index < zlen (methods_ s)) then Some p else GetHandler j s) ∧
  destroy s live = Some ∅.
Proof.
  intros [Hnd ->]%service_run_inv. split_and!; [done|done|..].
  - intros op Hf. destruct (run_op_inv op s _ (conj Hnd eq_refl) Hf) as (s' & live' & -> & _). by eexists.
  - intros index p Hp. destruct (SetHandler_inv index p s _ (conj Hnd eq_refl) Hp) as (s' & live' & H & _ & Hg).
    exists s', live'. split; [exact H|]. intros j. rewrite Hg. unfold bad_index.
    repeat case_bool_decide; destruct (Z.ltb_spec index 0), (Z.leb_spec (zlen (methods_ s)) index); simpl;
      reflexivity || (exfalso; lia).
  - unfold destroy. rewrite destroy_methods_spec; [|done|done]. f_equal. unfold held. set_solver.
Qed.

End Ownership.

(** ** Witness *)

Section Witness.
Import Service.

(** Two methods; one is marked, and one mark has a bad index. *)
Definition ex_service : Service :=
  {| methods_ := [new_RpcServiceMethod (bs "/S/A") NORMAL_RPC (Some 3);
                  new_RpcServiceMethod (bs "/S/B") BIDI_STREAMING (Some 2)] |}.

Lemma ex_service_run : service_run ex_service {[2; 3]}.
Proof.
  assert (H4 : service_run ex_service (({[4]} ∪ (({[3]} ∪ ({[2]} ∪ ({[1]} ∪ ∅))) ∖ {[1]})) ∖ {[4]})).
  { eapply (run_step _ _ (OpMarkStreamed 7 4)).
    - eapply (run_step _ _ (OpMarkCallback 0 3)).
      + eapply (run_step _ _ (OpAdd (bs "/S/B") BIDI_STREAMING 2)).
        * eapply (run_step _ _ (OpAdd (bs "/S/A") NORMAL_RPC 1)); [apply run_start| |reflexivity].
          intros p [= <-]. set_solver.
        * intros p [= <-]. set_solver.
        * reflexivity.
      + intros p [= <-]. set_solver.
      + reflexivity.
    - intros p [= <-]. set_solver.
    - reflexivity. }
  assert (({[4]} ∪ (({[3]} ∪ ({[2]} ∪ ({[1]} ∪ ∅))) ∖ {[1]})) ∖ {[4]} = ({[2; 3]} : gset Z)) as <- by set_solver.
  exact H4.
Qed.

Lemma service_owns_handlers_witness : held ex_service = [3; 2] ∧ destroy ex_service {[2; 3]} = Some ∅.
Proof.
  destruct (service_owns_handlers ex_service {[2; 3]} ex_service_run) as (_ & _ & _ & _ & H).
  split; [reflexivity|exact H].
Defined.

End Witness.
