(* ===== verification/SyncStream.v ===== *)
(** * Synchronous streams ([include/grpcpp/support/sync_stream.h])

    The interfaces of the three kinds of streaming call are type classes, the classes of
    the library their instances.  The library implements none of them yet: the stubs are
    there so that generated code compiles and its loops end.  A method that may change
    the message it is given returns the message. *)

From Stdlib Require Import ZArith Lia.
From Stdlib Require Import Strings.String Strings.Byte.
From stdpp Require Import base numbers list gmap.
From S2P Require Import Prelude GrpcWire StringRef Http2Session CallState TlsSocket ChannelImpl Shim Service.

Local Open Scope Z_scope.

Module SyncStream.
Import Grpc.

Record WriteOptions : Type := { last_message_ : bool }.
Definition default_write_options : WriteOptions := {| last_message_ := false |}.
Definition set_last_message (o : WriteOptions) : WriteOptions := {| last_message_ := true |}.
Definition clear_last_message (o : WriteOptions) : WriteOptions := {| last_message_ := false |}.
Definition is_last_message (o : WriteOptions) : bool := last_message_ o.
Definition set_write_through (o : WriteOptions) : WriteOptions := o.

(** ** The interfaces; [T] is the type of the stream object *)

Class ClientStreamingInterface (T : Type) := Finish : T → T * Status.

Class ReaderInterface (R T : Type) := {
  Read : R → T → T * (bool * R);
  NextMessageSize : Z → T → T * (bool * Z);
}.

Class WriterInterface (W T : Type) := Write : W → WriteOptions → T → T * bool.

(** [Write(msg)]. *)
Definition Write_default {W T : Type} `{WriterInterface W T} (msg : W) : T → T * bool := Write msg default_write_options.

Class ClientReaderInterface (R T : Type) := {
  reader_streaming :: ClientStreamingInterface T;
  reader_reader :: ReaderInterface R T;
  WaitForInitialMetadata : T → T;
}.

Class ClientWriterInterface (W T : Type) := {
  writer_streaming :: ClientStreamingInterface T;
  writer_writer :: WriterInterface W T;
  WritesDone : T → T * bool;
}.

Class ClientReaderWriterInterface (W R T : Type) := {
  bidi_streaming :: ClientStreamingInterface T;
  bidi_reader :: ReaderInterface R T;
  bidi_writer :: WriterInterface W T;
  bidi_WaitForInitialMetadata : T → T;
  bidi_WritesDone : T → T * bool;
}.

(** ** The stubs *)

Inductive ClientReader (R : Type) : Type := new_ClientReader.
Inductive ClientWriter (W : Type) : Type := new_ClientWriter.
Inductive ClientReaderWriter (W R : Type) : Type := new_ClientReaderWriter.
Arguments new_ClientReader {R}.
Arguments new_ClientWriter {W}.
Arguments new_ClientReaderWriter {W R}.

#[export] Instance ClientReader_methods (R : Type) : ClientReaderInterface R (ClientReader R) := {|
  reader_streaming t := (t, mk_status UNIMPLEMENTED (bs "server streaming not implemented yet (egrpc M5)"));
  reader_reader := {| Read msg t := (t, (false, msg)); NextMessageSize sz t := (t, (false, sz)) |};
  WaitForInitialMetadata t := t;
|}.

#[export] Instance ClientWriter_methods (W : Type) : ClientWriterInterface W (ClientWriter W) := {|
  writer_streaming t := (t, mk_status UNIMPLEMENTED (bs "client streaming not supported by egrpc"));
  writer_writer _ _ t := (t, false);
  WritesDone t := (t, false);
|}.

#[export] Instance ClientReaderWriter_methods (W R : Type) :
    ClientReaderWriterInterface W R (ClientReaderWriter W R) := {|
  bidi_streaming t := (t, mk_status UNIMPLEMENTED (bs "bidi streaming not supported by egrpc"));
  bidi_reader := {| Read msg t := (t, (false, msg)); NextMessageSize sz t := (t, (false, sz)) |};
  bidi_writer _ _ t := (t, false);
  bidi_WaitForInitialMetadata t := t;
  bidi_WritesDone t := (t, false);
|}.

(** The factories generated code calls: nothing of their arguments is used. *)
Definition ClientReaderFactory_Create {R W : Type} (channel : option Channel) (method : RpcMethod)
    (context : ClientContext) (request : W) : ClientReader R := new_ClientReader.

Definition ClientWriterFactory_Create {W R : Type} (channel : option Channel) (method : RpcMethod)
    (context : ClientContext) (response : R) : ClientWriter W := new_ClientWriter.

Definition ClientReaderWriterFactory_Create {W R : Type} (channel : option Channel) (method : RpcMethod)
    (context : ClientContext) : ClientReaderWriter W R := new_ClientReaderWriter.

(** Server-side types. *)
Definition ServerReader_Read {R : Type} (msg : R) : bool * R := (false, msg).
Definition ServerWriter_Write {W : Type} (msg : W) (options : WriteOptions) : bool := false.
Definition ServerReaderWriter_Read {R : Type} (msg : R) : bool * R := (false, msg).
Definition ServerReaderWriter_Write {W : Type} (msg : W) (options : WriteOptions) : bool := false.
Definition ServerUnaryStreamer_Read {R : Type} (msg : R) : bool * R := (false, msg).
Definition ServerUnaryStreamer_Write {W : Type} (msg : W) (options : WriteOptions) : bool := false.
Definition ServerSplitStreamer_Write {W : Type} (msg : W) (options : WriteOptions) : bool := false.

(** ** The loops of client code *)

(** [while (reader->Read(&msg)) ++messages;], [None] when the fuel is too small. *)
Fixpoint read_all {R T : Type} `{ReaderInterface R T} (fuel : nat) (msg : R) (messages : Z) (t : T)
    : option (T * (Z * R)) :=
  match fuel with
  | O => None
  | S fuel =>
      let '(t, (more, msg)) := Read msg t in
      if more then read_all fuel msg (messages + 1) t else Some (t, (messages, msg))
  end.

Lemma reader_drained {R W : Type} channel method context (request : W) (msg : R) fuel :
  read_all (S fuel) msg 0 (ClientReaderFactory_Create channel method context request)
  = Some (new_ClientReader, (0, msg)).
Proof. reflexivity. Qed.

End SyncStream.
