(* ===== verification/RouteGuide.v ===== *)
(** * The example client ([examples/route_guide/client_main.cc])

    The command-line client over the public API: its arguments, the three modes and the
    lines it prints, which a test reads.  The messages' serialization is protobuf's, a
    parameter; so are the files.  [printf]'s "%s" prints a string up to its first NUL
    ([c_str]).  [main] is given what each of the client's calls returns once its wait is
    over; [GetFeature] is the call itself, cut at that wait as in [Shim]. *)

From Stdlib Require Import ZArith Lia.
From Stdlib Require Import Strings.String Strings.Byte.
From stdpp Require Import base numbers list gmap.
From S2P Require Import Prelude GrpcWire StringRef EventThread Http2Session CallState TlsSocket ChannelImpl Shim CreateChannel Service SyncStream.

Local Open Scope Z_scope.

(** ** Output *)

(** The bytes a NUL-terminated read sees. *)
Fixpoint c_str (s : bytes) : bytes :=
  match s with
  | [] => []
  | c :: s => if bool_decide (c = x00) then [] else c :: c_str s
  end.

Definition hex_lower (n : Z) : byte := znth n (bs "0123456789abcdef").

(** ["\\x%02x"]. *)
Definition hex_escape (c : byte) : bytes :=
  ["\"%byte; "x"%byte; hex_lower (b2z c / 16); hex_lower (b2z c mod 16)].

Definition plain (c : byte) : bool := (32 <=? b2z c) && (b2z c <? 127) && negb (bool_decide (c = "\"%byte)).

Definition Escape (value : bytes) : bytes := flat_map (λ c, if plain c then [c] else hex_escape c) value.

Definition newline : byte := x0a.

Definition PrintMetadata (label : bytes) (metadata : Grpc.Metadata) : bytes :=
  flat_map (λ kv, label ++ bs " " ++ c_str (Escape kv.1) ++ bs "=" ++ c_str (Escape kv.2) ++ [newline]) metadata.

(** ** Messages and the stub *)

Record Point : Type := { latitude : Z; longitude : Z }.
Record Feature : Type := { name : bytes; location : Point }.
Definition empty_feature : Feature := {| name := []; location := {| latitude := 0; longitude := 0 |} |}.

(** The descriptors the generated [Stub] makes. *)
Definition rpcmethod_GetFeature_ (channel : Grpc.Channel) : RpcMethod :=
  new_RpcMethod_for (bs "/routeguide.RouteGuide/GetFeature") None NORMAL_RPC channel.

Definition rpcmethod_ListFeatures_ (channel : Grpc.Channel) : RpcMethod :=
  new_RpcMethod_for (bs "/routeguide.RouteGuide/ListFeatures") None SERVER_STREAMING channel.

Module RouteGuideClient.
Import Grpc.
Import SyncStream.

(** What a call that has returned makes [GetFeature] print and return. *)
Definition report (verbose : bool) (r : Status * ClientContext * Feature) : bytes * bool :=
  let '(status, context, feature) := r in
  let metadata := PrintMetadata (bs "INITIAL") (GetServerInitialMetadata context) ++
                  PrintMetadata (bs "TRAILING") (GetServerTrailingMetadata context) in
  if negb (ok status) then
    (if verbose
     then bs "GETFEATURE error code=" ++ to_string (code_value (error_code status)) ++
          bs " message=" ++ c_str (error_message status) ++ [newline] ++ metadata
     else [], false)
  else
    (if verbose
     then bs "GETFEATURE ok name=" ++ c_str (name feature) ++
          bs " latitude=" ++ to_string (latitude (location feature)) ++
          bs " longitude=" ++ to_string (longitude (location feature)) ++ [newline] ++ metadata
     else [], true).

Section Client.
Context (SerializeToString : Point → option bytes) (ParseFromString : bytes → Feature → Feature * bool).

(** [now1] and [now2] are the clock when the deadline is set and when the call starts. *)
Definition GetFeature (channel : Channel) (now1 now2 k lat long deadline_ms : Z) (verbose : bool)
    (sh : EventThread.Shared ChannelImpl.Op) (w : ChannelImpl.Calls)
    : EventThread.Shared ChannelImpl.Op * ChannelImpl.Calls * Blocking (bytes * bool) :=
  let point := {| latitude := lat; longitude := long |} in
  let context := if 0 <? deadline_ms then set_deadline (now1 + deadline_ms * 1000000) new_context
                 else new_context in
  let '(sh, w, r) :=
    BlockingUnaryCall SerializeToString ParseFromString (Some channel) now2 k
      (name_ (rpcmethod_GetFeature_ channel)) context point empty_feature sh w in
  (sh, w, then_ r (report verbose)).

End Client.

Definition ListFeatures (channel : Channel) : option bytes :=
  let reader : ClientReader Feature :=
    ClientReaderFactory_Create (Some channel) (rpcmethod_ListFeatures_ channel) new_context tt in
  '(reader, (messages, _)) ← read_all 1 empty_feature 0 reader;
  let '(_, status) := Finish reader in
  Some (bs "LISTFEATURES code=" ++ to_string (code_value (error_code status)) ++
        bs " messages=" ++ to_string messages ++ [newline]).

(** [results] are what the workers' calls return, in the order in which the workers
    count them.  A negative number of threads makes [reserve] throw. *)
Definition ConcurrentGetFeature (threads : Z) (results : list (bytes * bool)) : option (bytes * bool) :=
  if threads <? 0 then None
  else
    let ok := foldl (λ ok (r : bytes * bool), if r.2 then ok + 1 else ok) 0 results in
    Some (bs "CONCURRENT ok=" ++ to_string ok ++ bs " total=" ++ to_string threads ++ [newline],
          ok =? threads).

End RouteGuideClient.

(** ** [main] *)

Record Options : Type := {
  target : bytes;
  ca_file : bytes;
  mode : bytes;
  opt_latitude : Z;
  opt_longitude : Z;
  deadline_ms : Z;
  threads : Z;
}.

Definition default_options : Options :=
  {| target := []; ca_file := []; mode := bs "getfeature"; opt_latitude := 1000; opt_longitude := 2000;
     deadline_ms := 0; threads := 8 |}.

(** The body of the loop; [None] for a flag it does not know. *)
Definition set_option (flag value : bytes) (o : Options) : option Options :=
  if bool_decide (flag = bs "--target") then Some {| o with target := value |}
  else if bool_decide (flag = bs "--ca-file") then Some {| o with ca_file := value |}
  else if bool_decide (flag = bs "--mode") then Some {| o with mode := value |}
  else if bool_decide (flag = bs "--latitude") then Some {| o with opt_latitude := atoi value |}
  else if bool_decide (flag = bs "--longitude") then Some {| o with opt_longitude := atoi value |}
  else if bool_decide (flag = bs "--deadline-ms") then Some {| o with deadline_ms := atoi value |}
  else if bool_decide (flag = bs "--threads") then Some {| o with threads := atoi value |}
  else None.

(** The loop over pairs of arguments: the first unknown flag, or the options.  A last
    argument without a value is not looked at. *)
Fixpoint parse_args (args : list bytes) (o : Options) : bytes + Options :=
  match args with
  | flag :: value :: args =>
      match set_option flag value o with
      | None => inl flag
      | Some o => parse_args args o
      end
  | _ => inr o
  end.

(** How the process ends: its exit code and what it printed, or an exception. *)
Record Ended : Type := { exit_code : Z; out : bytes; err : bytes }.

Definition usage (argv0 : bytes) : bytes :=
  bs "usage: " ++ argv0 ++ bs " --target host:port --ca-file cert.pem" ++
  bs " [--mode getfeature|listfeatures|concurrent]" ++
  bs " [--latitude N] [--longitude N] [--deadline-ms N] [--threads N]" ++ [newline].

Section Main.
Import Grpc.
Import RouteGuideClient.
Context `{SZ : SizeT}.
(** The contents of a file that can be read; a started loop; what the calls return. *)
Context (ReadFile : bytes → option bytes) (loop_ok : bool) (failure : bytes).
Context (call : Channel → Options → nat → Status * ClientContext * Feature).

Definition failed (message : bytes) : Ended := {| exit_code := 2; out := []; err := message |}.

Definition run_mode (o : Options) (channel : Channel) : option Ended :=
  if bool_decide (mode o = bs "getfeature") then
    let '(text, success) := report true (call channel o 0) in
    Some {| exit_code := if success then 0 else 1; out := text; err := [] |}
  else if bool_decide (mode o = bs "listfeatures") then
    text ← ListFeatures channel; Some {| exit_code := 0; out := text; err := [] |}
  else if bool_decide (mode o = bs "concurrent") then
    match ConcurrentGetFeature (threads o)
            ((λ i, report false (call channel o i)) <$> seq 0 (Z.to_nat (threads o))) with
    | None => None
    | Some (text, success) => Some {| exit_code := if success then 0 else 1; out := text; err := [] |}
    end
  else Some (failed (bs "unknown mode: " ++ c_str (mode o) ++ [newline])).

Definition main (argv0 : bytes) (args : list bytes) : option Ended :=
  match parse_args args default_options with
  | inl flag => Some (failed (bs "unknown flag: " ++ flag ++ [newline]))
  | inr o =>
      if bool_decide (target o = []) || bool_decide (ca_file o = []) then Some (failed (usage argv0))
      else
        match ReadFile (ca_file o) with
        | None => Some (failed (bs "cannot read CA file: " ++ ca_file o ++ [newline]))
        | Some pem =>
            let ssl := {| pem_root_certs := pem; pem_private_key := []; pem_cert_chain := [] |} in
            let channel := make_channel (CreateChannel (target o) (Some (SslCredentials ssl))) loop_ok failure in
            run_mode o channel
        end
  end.

End Main.

(** ** Reading the output back *)

Section Output.

Fixpoint unescape (s : bytes) : bytes :=
  match s with
  | [] => []
  | c :: rest =>
      match rest with
      | x :: h :: l :: rest' =>
          if bool_decide (c = "\"%byte) && bool_decide (x = "x"%byte)
          then z2b (HexDigit h * 16 + HexDigit l) :: unescape rest' else c :: unescape rest
      | _ => c :: unescape rest
      end
  end.

(** The complete lines and what follows the last newline. *)
Fixpoint lines (s : bytes) : list bytes * bytes :=
  match s with
  | [] => ([], [])
  | c :: s =>
      let '(ls, r) := lines s in
      if bool_decide (c = newline) then ([] :: ls, r)
      else match ls with [] => ([], c :: r) | l :: ls => ((c :: l) :: ls, r) end
  end.

Fixpoint split_first (d : byte) (s : bytes) : option (bytes * bytes) :=
  match s with
  | [] => None
  | c :: s => if bool_decide (c = d) then Some ([], s) else '(a, b) ← split_first d s; Some (c :: a, b)
  end.

Definition read_line (label line : bytes) : option (bytes * bytes) :=
  if starts_with (label ++ bs " ") line
  then '(k, v) ← split_first "=" (drop (length (label ++ bs " ")) line); Some (unescape k, unescape v)
  else None.

Definition read_metadata (label s : bytes) : option Grpc.Metadata :=
  let '(ls, r) := lines s in if bool_decide (r = []) then mapM (read_line label) ls else None.

Lemma hex_digit_lower n : 0 <= n < 16 → HexDigit (hex_lower n) = n ∧ plain (hex_lower n) = true ∧ hex_lower n ≠ "="%byte.
Proof.
  intros Hn.
  assert (H : forallb (λ n, (HexDigit (hex_lower n) =? n) && plain (hex_lower n) && negb (bool_decide (hex_lower n = "="%byte)))
                (seqZ 0 16) = true) by (vm_compute; done).
  rewrite forallb_forall in H. specialize (H n). rewrite !andb_true_iff, negb_true_iff, bool_decide_eq_false in H.
  destruct H as [[?%Z.eqb_eq ?] ?]; [|done]. apply list_elem_of_In, elem_of_seqZ. lia.
Qed.

Lemma nibbles c : 0 <= b2z c / 16 < 16 ∧ 0 <= b2z c mod 16 < 16.
Proof. pose proof (b2z_range c). Z.to_euclidean_division_equations. lia. Qed.

Lemma unescape_plain c rest : plain c = true → unescape (c :: rest) = c :: unescape rest.
Proof.
  unfold plain. rewrite andb_true_iff, negb_true_iff, bool_decide_eq_false. intros [_ Hc]. cbn [unescape].
  destruct rest as [|x [|h [|l rest']]]; try done. by rewrite (bool_decide_eq_false_2 (c = _)).
Qed.

Lemma unescape_escape c rest : unescape (hex_escape c ++ rest) = c :: unescape rest.
Proof.
  destruct (nibbles c) as [H1 H2]. unfold hex_escape. cbn [app unescape].
  rewrite (proj1 (hex_digit_lower _ H1)), (proj1 (hex_digit_lower _ H2)). simpl. f_equal.
  apply b2z_inj. rewrite b2z_z2b. pose proof (b2z_range c). Z.to_euclidean_division_equations. lia.
Qed.

Lemma unescape_Escape v : unescape (Escape v) = v.
Proof.
  induction v as [|c v IH]; [done|]. unfold Escape. cbn [flat_map]. fold (Escape v).
  destruct (plain c) eqn:Hc; [cbn [app]; by rewrite unescape_plain, IH|]. by rewrite unescape_escape, IH.
Qed.

(** The bytes [Escape] produces. *)
Definition line_byte (c : byte) : Prop := 32 <= b2z c < 127.

Lemma plain_line c : plain c = true → line_byte c.
Proof. unfold plain, line_byte. rewrite !andb_true_iff. lia. Qed.

Lemma Escape_bytes v : Forall (λ c, line_byte c ∧ (c = "="%byte → "="%byte ∈ v)) (Escape v).
Proof.
  induction v as [|c v IH]; [constructor|]. unfold Escape. cbn [flat_map]. fold (Escape v). apply Forall_app. split.
  - destruct (plain c) eqn:Hc; [apply Forall_singleton; split; [by apply plain_line|intros ->; left]|].
    destruct (nibbles c) as [H1 H2]. destruct (hex_digit_lower _ H1) as (_ & ? & ?), (hex_digit_lower _ H2) as (_ & ? & ?).
    unfold hex_escape. do 4 (apply Forall_cons; split; [split; [first [done|by apply plain_line]|done]|]). constructor.
  - eapply Forall_impl; [exact IH|]. intros x [? Hx]. split; [done|]. intros He. right. by apply Hx.
Qed.

Lemma line_byte_not c : line_byte c → c ≠ x00 ∧ c ≠ newline.
Proof.
  assert (b2z x00 = 0 ∧ b2z newline = 10) as [H0 H10] by done.
  unfold line_byte. intros H. split; intros ->; lia.
Qed.

Lemma c_str_Escape v : c_str (Escape v) = Escape v.
Proof.
  pose proof (Escape_bytes v) as H. induction H as [|c s [Hc _] _ IH]; [done|]. simpl.
  rewrite bool_decide_eq_false_2; [by rewrite IH|]. by apply line_byte_not.
Qed.

Lemma Escape_no_newline v : newline ∉ Escape v.
Proof.
  intros H. pose proof (Escape_bytes v) as HF. rewrite Forall_forall in HF. by destruct (HF _ H) as [[_ ?]%line_byte_not _].
Qed.

Lemma Escape_no_equals v : "="%byte ∉ v → "="%byte ∉ Escape v.
Proof.
  intros Hv H. pose proof (Escape_bytes v) as HF. rewrite Forall_forall in HF. destruct (HF _ H) as [_ He]. by apply Hv, He.
Qed.

Lemma lines_app l s : newline ∉ l → lines (l ++ newline :: s) = (l :: (lines s).1, (lines s).2).
Proof.
  induction l as [|c l IH]; intros Hl; cbn [app lines].
  - destruct (lines s) as [ls r]. by rewrite bool_decide_eq_true_2.
  - rewrite IH by set_solver. cbn [fst snd]. rewrite bool_decide_eq_false_2 by set_solver. done.
Qed.

Lemma split_first_app d a b : d ∉ a → split_first d (a ++ d :: b) = Some (a, b).
Proof.
  induction a as [|c a IH]; intros Ha; cbn [app split_first].
  - by rewrite bool_decide_eq_true_2.
  - rewrite bool_decide_eq_false_2 by set_solver. rewrite IH by set_solver. done.
Qed.

Lemma read_line_printed label k v :
  "="%byte ∉ k → read_line label (label ++ bs " " ++ Escape k ++ bs "=" ++ Escape v) = Some (k, v).
Proof.
  intros Hk. unfold read_line, starts_with. rewrite app_assoc, take_app_length, bool_decide_eq_true_2, drop_app_length by done.
  change (bs "=" ++ Escape v) with ("="%byte :: Escape v).
  rewrite split_first_app by (by apply Escape_no_equals). simpl. by rewrite !unescape_Escape.
Qed.

(** The client's output can be read back: whatever bytes the received metadata hold
    (newlines, NULs, backslashes), each entry is printed as one line of printable
    characters, in order, and reading the lines gives back exactly the metadata. *)
Theorem metadata_lines_roundtrip (label : bytes) (md : Grpc.Metadata) :
  newline ∉ label → Forall (λ kv, "="%byte ∉ kv.1) md →
  read_metadata label (PrintMetadata label md) = Some md.
Proof.
  intros Hl Hmd. unfold read_metadata.
  assert (H : lines (PrintMetadata label md) =
              ((λ kv, label ++ bs " " ++ Escape kv.1 ++ bs "=" ++ Escape kv.2) <$> md, [])).
  { clear Hmd. induction md as [|[k v] md IH]; [done|]. unfold PrintMetadata. cbn [flat_map fst snd].
    fold (PrintMetadata label md). rewrite !c_str_Escape.
    replace ((label ++ bs " " ++ Escape k ++ bs "=" ++ Escape v ++ [newline]) ++ PrintMetadata label md)
      with ((label ++ bs " " ++ Escape k ++ bs "=" ++ Escape v) ++ newline :: PrintMetadata label md)
      by (by rewrite <- !app_assoc).
    rewrite lines_app, IH; [done|]. pose proof (Escape_no_newline k). pose proof (Escape_no_newline v).
    rewrite !not_elem_of_app. split_and!; try done; vm_compute; set_solver. }
  rewrite H, bool_decide_eq_true_2 by done. clear H. induction Hmd as [|[k v] md Hk _ IH]; [done|].
  rewrite fmap_cons. cbn [mapM fst snd]. rewrite read_line_printed by done. cbn [mbind option_bind]. by rewrite IH.
Qed.

End Output.

(** ** The arguments *)

Section Arguments.

(** The arguments as flags with values. *)
Fixpoint pairs (args : list bytes) : HeaderList :=
  match args with flag :: value :: args => (flag, value) :: pairs args | _ => [] end.

Definition flags : list bytes :=
  [bs "--target"; bs "--ca-file"; bs "--mode"; bs "--latitude"; bs "--longitude"; bs "--deadline-ms"; bs "--threads"].

(** Each option is the last value given for its flag, or stays as it was. *)
Definition given (l : HeaderList) (o : Options) : Options :=
  let int flag d := default d (atoi <$> last_value flag l) in
  {| target := default (target o) (last_value (bs "--target") l);
     ca_file := default (ca_file o) (last_value (bs "--ca-file") l);
     mode := default (mode o) (last_value (bs "--mode") l);
     opt_latitude := int (bs "--latitude") (opt_latitude o);
     opt_longitude := int (bs "--longitude") (opt_longitude o);
     deadline_ms := int (bs "--deadline-ms") (deadline_ms o);
     threads := int (bs "--threads") (threads o) |}.

Lemma set_option_given flag value l o :
  flag ∈ flags → ∃ o', set_option flag value o = Some o' ∧ given l o' = given ((flag, value) :: l) o.
Proof.
  intros Hf. unfold flags in Hf. rewrite !elem_of_cons, elem_of_nil in Hf.
  destruct Hf as [-> | [-> | [-> | [-> | [-> | [-> | [-> | []]]]]]]]; eexists; (split; [reflexivity|]);
    unfold given; rewrite last_value_same; rewrite !last_value_other by done; cbn [fst snd];
    cbn [default fmap option_fmap option_map]; f_equal; by destruct (last_value _ l).
Qed.

Lemma set_option_unknown flag value o : flag ∉ flags → set_option flag value o = None.
Proof.
  unfold flags, set_option. rewrite !not_elem_of_cons. intros (? & ? & ? & ? & ? & ? & ? & _).
  by rewrite !bool_decide_eq_false_2.
Qed.

Lemma parse_args_given args o :
  parse_args args o =
    match list_find (λ kv, kv.1 ∉ flags) (pairs args) with
    | Some (_, (flag, _)) => inl flag
    | None => inr (given (pairs args) o)
    end.
Proof.
  remember (length args) as n eqn:Hn. assert (Hle : (length args <= n)%nat) by lia. clear Hn.
  revert args o Hle. induction n as [|n IH]; intros [|flag [|value args]] o Hle; simpl in Hle; try lia; try (by destruct o).
  cbn [parse_args pairs list_find fst]. case_decide as Hf; [by rewrite set_option_unknown|].
  destruct (set_option_given flag value (pairs args) o Hf) as (o' & -> & Hg).
  rewrite IH by lia. rewrite Hg. destruct (list_find (λ kv, kv.1 ∉ flags) (pairs args)) as [[i [f v]]|]; done.
Qed.

End Arguments.

(** ** Exit codes *)

Section ExitCodes.
Import Grpc.
Import RouteGuideClient.
Context `{SZ : SizeT}.
Context (ReadFile : bytes → option bytes) (loop_ok : bool) (failure : bytes).
Context (call : Channel → Options → nat → Status * ClientContext * Feature).

Definition succeeds (r : Status * ClientContext * Feature) : bool := ok r.1.1.

Lemma report_success verbose r : (report verbose r).2 = succeeds r.
Proof. destruct r as [[s ctx] f]. unfold report, succeeds. simpl. by destruct (ok s). Qed.

(** Counting the workers' successes, in whatever order they are counted. *)
Lemma count_successes (rs : list (bytes * bool)) n :
  foldl (λ ok (r : bytes * bool), if r.2 then ok + 1 else ok) n rs = n + zlen (filter (λ r, r.2 = true) rs).
Proof.
  revert n. induction rs as [|[t b] rs IH]; intros n; simpl; [unfold zlen; simpl; lia|]. rewrite IH.
  rewrite filter_cons. simpl. destruct b; simpl; [rewrite zlen_cons|]; lia.
Qed.

Lemma filter_full (rs : list (bytes * bool)) :
  zlen (filter (λ r, r.2 = true) rs) = zlen rs ↔ Forall (λ r, r.2 = true) rs.
Proof.
  induction rs as [|[t b] rs IH]; [done|]. rewrite filter_cons, Forall_cons, <- IH. cbn [snd].
  pose proof (length_filter (λ r : bytes * bool, r.2 = true) rs). unfold zlen in *.
  case_decide as Hb; simpl; (split; [intros; first [lia|split; [done|lia]]|intros [? ?]; first [lia|done]]).
Qed.

Lemma all_succeed (f : nat → bytes * bool) n :
  0 <= n → foldl (λ ok (r : bytes * bool), if r.2 then ok + 1 else ok) 0 (f <$> seq 0 (Z.to_nat n)) = n ↔
  ∀ i, (i < Z.to_nat n)%nat → (f i).2 = true.
Proof.
  intros Hn. rewrite count_successes, Z.add_0_l.
  assert (Hlen : zlen (f <$> seq 0 (Z.to_nat n)) = n) by (unfold zlen; rewrite length_fmap, length_seq; lia).
  rewrite <- Hlen at 2. rewrite filter_full, Forall_fmap, Forall_forall. split.
  - intros H i Hi. apply H, elem_of_seq. lia.
  - intros H i Hi%elem_of_seq. apply H. lia.
Qed.

(** The channel the client makes for its options. *)
Definition client_channel (o : Options) (pem : bytes) : Channel :=
  make_channel (CreateChannel (target o)
    (Some (SslCredentials {| pem_root_certs := pem; pem_private_key := []; pem_cert_chain := [] |}))) loop_ok failure.

Lemma run_mode_exit (o : Options) (channel : Channel) :
  match run_mode call o channel with
  | None => mode o = bs "concurrent" ∧ threads o < 0
  | Some e =>
      (exit_code e = 0 ↔
         (mode o = bs "getfeature" ∧ succeeds (call channel o 0) = true) ∨ mode o = bs "listfeatures" ∨
         (mode o = bs "concurrent" ∧ ∀ i, (i < Z.to_nat (threads o))%nat → succeeds (call channel o i) = true)) ∧
      (exit_code e = 2 ↔ mode o ∉ [bs "getfeature"; bs "listfeatures"; bs "concurrent"]) ∧
      (exit_code e = 2 → out e = []) ∧
      (mode o = bs "listfeatures" → out e = bs "LISTFEATURES code=12 messages=0" ++ [newline])
  end.
Proof.
  unfold run_mode.
  case_bool_decide as H1; [|case_bool_decide as H2; [|case_bool_decide as H3]].
  - rewrite H1. pose proof (report_success true (call channel o 0)) as Hr.
    destruct (report true (call channel o 0)) as [text b]. simpl in *. rewrite <- Hr, !not_elem_of_cons.
    destruct b; naive_solver.
  - rewrite H2. simpl. rewrite !not_elem_of_cons. naive_solver.
  - rewrite H3. unfold ConcurrentGetFeature. destruct (Z.ltb_spec (threads o) 0) as [|Hn]; [done|].
    set (f := λ i, report false (call channel o i)). pose proof (all_succeed f (threads o) Hn) as Hall.
    assert (Hsucc : (∀ i, (i < Z.to_nat (threads o))%nat → (f i).2 = true) ↔
                    ∀ i, (i < Z.to_nat (threads o))%nat → succeeds (call channel o i) = true).
    { split; intros H i Hi; specialize (H i Hi); [by rewrite <- (report_success false)|by rewrite <- H; apply report_success]. }
    rewrite Hsucc in Hall. simpl. destruct (Z.eqb_spec (foldl (λ ok (r : bytes * bool), if r.2 then ok + 1 else ok) 0
      (f <$> seq 0 (Z.to_nat (threads o)))) (threads o)) as [He|He]; rewrite !not_elem_of_cons; naive_solver.
  - simpl. rewrite !not_elem_of_cons. split_and!; try naive_solver. split; [|done]. intros _.
    split_and!; try done. apply not_elem_of_nil.
Qed.

(** The client exits with 2, printing nothing on its standard output, exactly when its
    arguments are unusable (an unknown flag, no target or CA file, an unreadable CA file,
    an unknown mode), where each option is the last value given for its flag; otherwise
    it exits with 0 exactly when the call (in concurrent mode: every call) succeeded, or
    in the streaming mode, which always prints UNIMPLEMENTED and no message; and it ends
    with an exception only for a negative number of threads. *)
Theorem client_exit_codes (argv0 : bytes) (args : list bytes) :
  let o := given (pairs args) default_options in
  let usable := Forall (λ kv, kv.1 ∈ flags) (pairs args) ∧ target o ≠ [] ∧ ca_file o ≠ [] ∧
                is_Some (ReadFile (ca_file o)) in
  match main ReadFile loop_ok failure call argv0 args with
  | None => usable ∧ mode o = bs "concurrent" ∧ threads o < 0
  | Some e =>
      (exit_code e = 2 ↔ ¬ usable ∨ mode o ∉ [bs "getfeature"; bs "listfeatures"; bs "concurrent"]) ∧
      (exit_code e = 2 → out e = []) ∧
      (usable → ∀ pem, ReadFile (ca_file o) = Some pem →
         let result := call (client_channel o pem) o in
         (exit_code e = 0 ↔
            (mode o = bs "getfeature" ∧ succeeds (result 0%nat) = true) ∨ mode o = bs "listfeatures" ∨
            (mode o = bs "concurrent" ∧ ∀ i, (i < Z.to_nat (threads o))%nat → succeeds (result i) = true)) ∧
         (mode o = bs "listfeatures" → out e = bs "LISTFEATURES code=12 messages=0" ++ [newline]))
  end.
Proof.
  intros o usable. unfold main. rewrite parse_args_given.
  destruct (list_find (λ kv, kv.1 ∉ flags) (pairs args)) as [[i [f v]]|] eqn:Hfind.
  - apply list_find_Some in Hfind as (Hi & Hf & _). simpl.
    assert (Hno : ¬ usable).
    { intros [Hall _]. rewrite Forall_lookup in Hall. by apply (Hall _ _) in Hi. }
    naive_solver.
  - assert (Hflags : Forall (λ kv : Header, kv.1 ∈ flags) (pairs args)).
    { apply list_find_None in Hfind. eapply Forall_impl; [exact Hfind|]. intros kv Hkv. by apply dec_stable. }
    fold o. case_bool_decide as Ht; [simpl; unfold usable; naive_solver|].
    case_bool_decide as Hc; [simpl; unfold usable; naive_solver|]. cbn [orb].
    destruct (ReadFile (ca_file o)) as [pem|] eqn:Hpem.
    2: { simpl. unfold usable. rewrite is_Some_alt. naive_solver. }
    assert (Hu : usable) by (unfold usable; split_and!; try done; by eexists).
    pose proof (run_mode_exit o (client_channel o pem)) as Hrun. fold (client_channel o pem).
    destruct (run_mode call o (client_channel o pem)) as [e|]; [|naive_solver].
    destruct Hrun as (H0 & H2 & Hout & Hlist). split_and!; [naive_solver|done|].
    intros _ pem' [= <-]. done.
Qed.

End ExitCodes.

(** ** The call behind the answers *)

Section Posting.
Import Grpc.
Import RouteGuideClient.

(** On a channel whose loop runs, [GetFeature] queues one call of the method with the
    framed point and the time left to its deadline, and waits for its result. *)
Theorem GetFeature_queues (SerializeToString : Point → option bytes)
    (ParseFromString : bytes → Feature → Feature * bool) (cfg : ChannelConfig) (failure : bytes)
    (now1 now2 k lat long ms : Z) (verbose : bool)
    (sh : EventThread.Shared ChannelImpl.Op) (w : ChannelImpl.Calls) (request : bytes) :
  SerializeToString {| latitude := lat; longitude := long |} = Some request →
  zlen request <= max_send_message_size (options_ cfg) → EventThread.stop_requested_ sh = false →
  0 < ms → now2 < now1 + ms * 1000000 < time_point_max →
  let channel := FromImpl {| impl_cfg := cfg; impl_loop_ok := true; impl_failure := failure |} in
  ∃ w' resume,
    GetFeature SerializeToString ParseFromString channel now1 now2 k lat long ms verbose sh w =
    ((EventThread.Post_locked sh (ChannelImpl.OpNewCall
       {| ChannelImpl.call := k; ChannelImpl.method_path := bs "/routeguide.RouteGuide/GetFeature";
          ChannelImpl.framed_body := AppendGrpcFramePrefix (zlen request) [] ++ request;
          ChannelImpl.metadata := []; ChannelImpl.timeout := Some (now1 + ms * 1000000 - now2) |})).1,
     w', Waits k resume) ∧
    ∀ r, (resume r).2 = true →
      CallState.code r = kOk ∧ (ParseFromString (CallState.response r) empty_feature).2 = true.
Proof.
  intros Hser Hlen Hstop Hms Hnow channel. unfold GetFeature, BlockingUnaryCall, Serialize. rewrite Hser.
  destruct (Z.ltb_spec 0 ms) as [_|]; [|lia]. cbn [ok bool_decide negb BlockingUnaryCallRaw error_code ok_status].
  unfold BlockingUnaryCallShim, call_timeout. cbn [channel FromImpl impl_ set_deadline deadline_].
  rewrite (bool_decide_eq_false_2 (now1 + ms * 1000000 = time_point_max)) by lia.
  destruct (Z.leb_spec (now1 + ms * 1000000) now2) as [|_]; [lia|].
  unfold ChannelImpl.UnaryCall, ChannelImpl.prepare_call. cbn [impl_cfg impl_loop_ok impl_failure].
  destruct (Z.ltb_spec (max_send_message_size (options_ cfg)) (zlen request)) as [|_]; [lia|].
  unfold EventThread.Post_locked. rewrite Hstop. eexists _, _. split; [reflexivity|].
  intros r. simpl. unfold finish_call. destruct (DepositMetadata (CallState.initial_metadata r)) as [? ?].
  destruct (DepositMetadata (CallState.trailing_metadata r)) as [? ?]. case_bool_decide as Hok.
  - simpl. unfold Deserialize. by destruct (ParseFromString (CallState.response r) empty_feature) as [f []].
  - simpl. set (st := {| error_code := _; error_message := _; error_details := _ |}).
    assert (ok st = false) as Hst.
    { subst st. unfold ok. simpl. destruct (code_cast_value (CallState.code r)) as (c' & -> & _ & Hc). simpl.
      apply bool_decide_eq_false_2. naive_solver. }
    rewrite Hst. simpl. by rewrite Hst.
Qed.

End Posting.

(** ** Witnesses *)

Section Witnesses.
Import Grpc.
Local Existing Instance size_t32.

Definition ex_metadata : Metadata := [(bs "a-bin", [x00; x0a; "\"%byte]); (bs "b", bs "1=2")].

Lemma metadata_lines_roundtrip_witness :
  read_metadata (bs "INITIAL") (PrintMetadata (bs "INITIAL") ex_metadata) = Some ex_metadata ∧
  PrintMetadata (bs "T") [(bs "k", [x0a])] = bs "T k=\x0a" ++ [newline].
Proof.
  split; [|vm_compute; reflexivity].
  apply (metadata_lines_roundtrip (bs "INITIAL") ex_metadata).
  - vm_compute. set_solver.
  - repeat constructor; vm_compute; set_solver.
Defined.

End Witnesses.
